(* ===== verification/_CoqProject ===== *)
-Q . S2P
Prelude.v
Keccak.v
Merkle.v
Schedule.v
Storage.v
Retry.v
Execution.v
Sharing.v
Events.v
Syncer.v
Pipeline.v
Writes.v
Beacon.v
Balances.v
TxManager.v
Relays.v
Contract.v
CommitTree.v
Oracle.v
Updater.v
Api.v
Wallet.v
Config.v
Connect.v
Subscribe.v
Server.v
System.v
Progress.v
Process.v
