(* ===== verification/Prelude.v ===== *)
(** * ssv-oracle: a verification development

    ssv-oracle (src/, Go) follows the validators of the SSV network: it copies the events of
    the SSV contract into a SQLite database, at scheduled epochs computes the effective
    balance of every cluster from the beacon chain, commits the root of a Merkle tree of
    these balances on chain, and (with --updater) pushes the balances with their proofs to
    the contract.  An HTTP API serves the commits and proofs.  The files below model this,
    one file per component, in dependency order.  Each file holds the component's data, its
    operations under the names of the code, a specification, lemmas, properties and
    witnesses: the properties applied to concrete inputs.

    ** How the code is modelled

    - A Go function that can fail returns a [result]: a value, an error, or a run-time
      panic.  Effects are explicit state passing ([io]); code whose loops may not end takes
      fuel and returns [None] when it is used up ([iof]).  Theorems with the conclusion
      [is_Some] say how much fuel is enough (FetchLogs: n + 1 iterations per block when the
      node refuses at most n requests in a row; SendTransaction: N + 3 polls per wait when
      every N polls bring the blocks a wait lasts).  The other theorems about such code hold for every fuel.
    - Integers are [Z], reduced to their width after each operation ([wrapU], [wrapS]).
      Bytes are [list byte], text is [string] (trimming and case folding on ASCII).
    - A Go map is a [gmap].  Where its order of iteration matters the order is a parameter
      ([range] in Oracle) or a relation ([NewTree_may] in Merkle).
    - The SQL statements act on finite maps ([Storage.DB]) under a script of faults: any
      statement, BEGIN or COMMIT may fail with any error.
    - Code outside src/ (the nodes' RPC, the beacon API, the contract ABI, Keccak, the
      signer's cryptography, errgroup, YAML, the URL parser) is a type class over an environment; the
      laws a theorem needs of it are hypotheses, and a toy instance meets them in a witness.
    - Concurrency is a step relation: the pipeline of the syncer ([pipe_step]), the services
      over one database ([sys_step]) and their group ([group_step]), the goroutines and
      channels of the subscriptions ([sub_step], [beacon_step]), of the balances
      ([fetch_step]), of the relays ([relays_step]) and of fetches over one batch size
      ([shared_step]).  The sequential definitions that use them ([syncBlocks],
      [fetch_batches], [mev_loop], the inputs of [Updater.Run] and [Oracle.Run]) are what these
      relations are shown to amount to.  Steps of the environment (the end of a context, a
      signal, what a node delivers) are kept apart from those of the program, and what is said
      of progress and termination counts the latter.

    ** The files

    - Prelude: integers, bytes, strings, errors, results, state with errors and fuel, and
      the rules ([movesf], [moves_io]) by which effects are bounded by a relation.
    - Keccak: the hash function itself, for concrete runs.
    - Merkle (merkle/): the tree, proofs.  The tree does not depend on map order or on the
      unstable sort, every cluster has a verifying proof, nothing else can be proved unless
      two of the very inputs that were hashed collide.
    - Schedule (oracle/phase.go): commit phases, the next target.
    - Storage (storage/): the tables and every statement and transaction.  Well-formedness
      of the database, finality of commits, round trips, exact queries, atomic clearing.
    - Retry (eth/retry.go): backoff, number of calls, outcome, length of the pauses.
    - Execution (eth/execution/): adaptive log fetching.  Every log of the range exactly once
      and in order, termination, and the error classification that defeats it.
    - Sharing (eth/execution/): fetches that run at once over one batch size.  Each is exact
      whatever the others do to the size, which stays within its bounds.
    - Events (eth/syncer/types.go, parser.go, topics.go): events and cluster identifiers.
    - Syncer (eth/syncer/syncer.go, headstate.go): the database is the replay of the chain
      up to its cursor; the head-state snapshot is what synchronising would store.
    - Pipeline (SyncToBlock): the fetcher's goroutine, its channel and the processing loop.
      They refine the sequential run, and end by themselves.
    - Writes: what the syncer writes, as a sequence of storage operations.
    - Beacon (eth/beacon/): checkpoints, block roots, balance fetching.
    - Balances (GetValidatorBalances): its goroutines, at most ten, each with its retries.
      The balances are exact however they interleave, and the calls are bounded.
    - TxManager (txmanager/): fees, nonces, resubmission, cancelling, receipts.  What may be
      submitted, what a receipt means, termination.
    - Relays (sendToMEVRPCs): one goroutine per relay.  Every interleaving is the sequential
      run for some order of the relays, and ends.
    - Contract (contract/): calls, transactions and events of the SSV contract.
    - CommitTree: buildTree, which the oracle, the updater and the API share.
    - Oracle (oracle/oracle.go): one commit on every outcome, that it ends, which targets are
      committed, the balances and their types, what is sent.
    - Updater (updater/): events, the two passes over the clusters, statistics.  It never
      writes the database and only sends updates its commit proves.
    - Api (api/): the JSON handlers, their answers on every branch, balance differences.
    - Wallet (wallet/): the choice and the life of a signer, passwords.
    - Config (cmd/oracle/commands/config.go): when a configuration is accepted.
    - Connect (the constructors New and NewClient, and their Close): what a start opens and
      releases, the database file and its schema, also after an interrupted start.
    - Subscribe (contract/events.go, SubscribeFinalizedCheckpoints): the goroutines, channels
      and closings between the nodes and the services.  Which sequences of inputs can
      occur, what may be lost, that nothing is stuck and nothing left behind.
    - Server (api/api.go): the routes and middlewares around the handlers.
    - System (cmd/oracle/commands/run.go): the chain check at startup, and the invariant of
      the database under any interleaving of the services.
    - Progress: every operation of the services returns, if the chain grows and the node does
      not refuse for ever.
    - Process (run.go, api.Run): run from the configuration to the exit code, with its
      deferred releases, and the group of services: what they may rely on when they start,
      what is released on every way out, which services run and which error ends the process.

    ** Interfaces between components

    [Runtime] (time, randomness, context), [ExecutionRPC], [BeaconAPI], [TxClient] and
    [ContractRPC] are what the components ask of the world.  A client's theorem about what
    is sent or changed is proved from a promise of the component it calls: [observes]
    (TxManager) for submissions, used by Oracle and Updater; [node_moves] (Execution) for
    reading the node; [writes] for the database, used by System; [NewTree_may] (Merkle)
    for CommitTree; [ErrGroup] (Process) for the group of services; [usable] and [returns]
    (Progress) for what ends.

    ** What modelling showed

    - [Execution.FetchLogs_livelock]: errors are classified by their whole text, block
      numbers included.
    - [Oracle.commit_records]: a commit whose target already has a row leaves it (ON CONFLICT
      DO NOTHING), sends the root it has computed and records the outcome in the old row.
    - [Beacon.on_finalized_event_outcome], [Subscribe.checkpoint_stream_delivers]: a handler
      may send on a closed channel, once the context has ended.
    - [Subscribe.subscription_error_drops_events]: when a log subscription fails, events
      already decoded may be dropped, and the next subscription does not ask for them.
    - [TxManager.cancel_not_replacing]: a cancelling transaction has the fee maximum; with the
      default bump that cannot replace the one it cancels.
    - [TxManager.wait_behind_times_out]: a node behind the starting height ends a wait.
    - [Config.padded_address]: addresses are checked trimmed and used untrimmed.
    - [Api.commit_json_boundary]: the documented [null] neighbours are left out.
    - [Connect.NewClient_connections]: a websocket that cannot be dialled leaves the
      connections to the relays open.

    ** Not modelled

    The client libraries (connections, JSON, the websocket and event streams themselves, whose
    deliveries are steps of the environment), the parsing of HTTP requests, the text of the
    embedded page, the delivery of signals (a signal is an event of the group), logging,
    metrics, the progress bar and the command line: input and output of libraries, without
    effect on the modelled state.  The PRAGMAs of SetSyncMode tune the database driver: they
    are statements that may fail.  What the services do between start and end is an argument
    of [run]: their operations are in Oracle, Updater and Api, their interleaving in System.
    [sys_step] interleaves whole operations of the services, which is enough for the database
    since only the oracle's goroutine writes.  Memory is unbounded, a library that panics
    inside a goroutine is not a step of the goroutines, and the sum of [percentBase] and a
    configured percentage of the fee bump is taken not to wrap. *)

From Stdlib Require Export ZArith Lia.
From Stdlib Require Export Strings.Byte Strings.Ascii Strings.String.
From stdpp Require Export base gmap sets list strings pretty sorting.

#[global] Open Scope Z_scope.
#[export] Set Warnings "-clear-no-such-hyp".

(** ** Notation scope and automation *)

Declare Scope go_scope.
Delimit Scope go_scope with go.

Create HintDb oracle.
Create Rewrite HintDb oracle.

(** ** Machine integers *)

(** A Go [uintN] is an integer kept in [0, 2^N); an [intN] is kept in
    [-2^(N-1), 2^(N-1)).  Every arithmetic result is reduced. *)
Definition wrapU (w z : Z) : Z := z mod 2 ^ w.

Definition wrapS (w z : Z) : Z := (z + 2 ^ (w - 1)) mod 2 ^ w - 2 ^ (w - 1).

Definition is_uint (w z : Z) : Prop := 0 <= z < 2 ^ w.

Notation "x '+u64' y" := (wrapU 64 (x + y)) (at level 50, left associativity) : go_scope.
Notation "x '-u64' y" := (wrapU 64 (x - y)) (at level 50, left associativity) : go_scope.
Notation "x '*u64' y" := (wrapU 64 (x * y)) (at level 40, left associativity) : go_scope.

(** ** Bytes and fixed-size arrays *)

Abbreviation bytes := (list Byte.byte).

#[global] Instance byte_eq_dec : EqDecision Byte.byte := Byte.byte_eq_dec.

Lemma byte_to_of_N (b : Byte.byte) :
  default x00 (Byte.of_N (Byte.to_N b)) = b.
Proof. by rewrite Byte.of_to_N. Qed.

#[global] Instance byte_countable : Countable Byte.byte :=
  inj_countable' Byte.to_N (λ n, default x00 (Byte.of_N n)) byte_to_of_N.

(** [copy(arr[:], l)] into a zeroed [[n]byte]: extra bytes are dropped, missing
    ones stay zero. *)
Definition to_array (n : nat) (l : bytes) : bytes :=
  take n l ++ replicate (n - length l) x00.

(** The zero value of [[32]byte]. *)
Definition zero32 : bytes := replicate 32 x00.

Definition byte_of_Z (z : Z) : Byte.byte :=
  default x00 (Byte.of_N (Z.to_N (z mod 256))).

(** [big.Int.FillBytes] into an [n]-byte buffer: big-endian, left-padded. *)
Fixpoint be_bytes (n : nat) (z : Z) : bytes :=
  match n with
  | O => []
  | S n' => be_bytes n' (z / 256) ++ [byte_of_Z z]
  end.

(** Big-endian value of a byte string ([big.Int.SetBytes]). *)
Definition be_value (l : bytes) : Z :=
  fold_left (λ acc b, acc * 256 + Z.of_N (Byte.to_N b)) l 0.

(** [bytes.Compare]. *)
Fixpoint bytes_compare (a b : bytes) : comparison :=
  match a, b with
  | [], [] => Eq
  | [], _ :: _ => Lt
  | _ :: _, [] => Gt
  | x :: a', y :: b' =>
      match N.compare (Byte.to_N x) (Byte.to_N y) with
      | Eq => bytes_compare a' b'
      | c => c
      end
  end.

Definition bytes_le (a b : bytes) : Prop := bytes_compare a b ≠ Gt.

(** ** Strings *)

Definition contains (s sub : string) : bool :=
  match String.index 0 sub s with Some _ => true | None => false end.

Definition ascii_lower (c : ascii) : ascii :=
  let n := Ascii.N_of_ascii c in
  if (65 <=? n)%N && (n <=? 90)%N then Ascii.ascii_of_N (n + 32) else c.

(** [strings.ToLower] on ASCII text. *)
Fixpoint ToLower (s : string) : string :=
  match s with
  | EmptyString => EmptyString
  | String c s' => String (ascii_lower c) (ToLower s')
  end.

Definition hex_digit (n : Z) : ascii :=
  Ascii.ascii_of_N (Z.to_N (if n <? 10 then 48 + n else 87 + n)).

(** [hex.EncodeToString], and [%x] of a byte string. *)
Fixpoint hex_encode (l : bytes) : string :=
  match l with
  | [] => EmptyString
  | b :: l' =>
      let n := Z.of_N (Byte.to_N b) in
      String (hex_digit (n / 16)) (String (hex_digit (n mod 16)) (hex_encode l'))
  end.

(** The value of a hexadecimal digit, in either case. *)
Definition hex_value (c : ascii) : option Z :=
  let n := Z.of_N (Ascii.N_of_ascii c) in
  if (48 <=? n) && (n <=? 57) then Some (n - 48)
  else if (97 <=? n) && (n <=? 102) then Some (n - 87)
  else if (65 <=? n) && (n <=? 70) then Some (n - 55)
  else None.

(** [hex.DecodeString]: the bytes before the first error, and whether there was none. *)
Fixpoint hex_decode (s : string) : bytes * bool :=
  match s with
  | EmptyString => ([], true)
  | String a (String b s') =>
      match hex_value a, hex_value b with
      | Some x, Some y => let '(l, ok) := hex_decode s' in (byte_of_Z (16 * x + y) :: l, ok)
      | _, _ => ([], false)
      end
  | _ => ([], false)
  end.

(** [strings.HasPrefix] and the rest after the prefix. *)
Fixpoint cut_prefix (pre s : string) : option string :=
  match pre, s with
  | EmptyString, _ => Some s
  | String a pre', String b s' => if Ascii.eqb a b then cut_prefix pre' s' else None
  | _, _ => None
  end.

(** [strings.TrimLeft] and [strings.TrimRight] of the characters satisfying [cut]. *)
Fixpoint trim_left (cut : ascii → bool) (s : string) : string :=
  match s with
  | String c s' => if cut c then trim_left cut s' else s
  | EmptyString => EmptyString
  end.

Fixpoint trim_right (cut : ascii → bool) (s : string) : string :=
  match s with
  | EmptyString => EmptyString
  | String c s' =>
      match trim_right cut s' with
      | EmptyString => if cut c then EmptyString else String c EmptyString
      | r => String c r
      end
  end.

Definition is_space (c : ascii) : bool :=
  let n := Ascii.N_of_ascii c in ((9 <=? n)%N && (n <=? 13)%N) || (n =? 32)%N.

(** [strings.TrimSpace] on ASCII text. *)
Definition TrimSpace (s : string) : string := trim_right is_space (trim_left is_space s).

(** [strings.Split] with a separator of one character. *)
Fixpoint split_at (sep : ascii) (s : string) : list string :=
  match s with
  | EmptyString => [EmptyString]
  | String c s' =>
      if Ascii.eqb c sep then EmptyString :: split_at sep s'
      else match split_at sep s' with
           | [] => [String c EmptyString]
           | w :: ws => String c w :: ws
           end
  end.

(** ** Errors *)

(** A Go error value.  [EWrap p e] is [fmt.Errorf("p: %w", e)] and [EWrap2 a b]
    is [fmt.Errorf("%w: %w", a, b)]; the leaves are the error values the program
    distinguishes with [errors.Is] or [errors.As], and plain text. *)
Inductive error :=
  | EText (msg : string)
  | ESentinel (msg : string)
  | ERevert (reason : string) (simulated : bool) (txHash : string)
  | EApi (status : Z) (msg : string)
  | ECtx (msg : string)
  | EWrap (prefix : string) (e : error)
  | EWrap2 (e1 e2 : error).

(** [err.Error()]. *)
Fixpoint Error (e : error) : string :=
  match e with
  | EText m | ESentinel m | EApi _ m | ECtx m => m
  | ERevert reason true _ => "call reverted: " +:+ reason
  | ERevert reason false h =>
      if bool_decide (h = "") then "reverted: " +:+ reason
      else "tx " +:+ String.substring 0 10 h +:+ " reverted: " +:+ reason
  | EWrap p e' => p +:+ ": " +:+ Error e'
  | EWrap2 a b => Error a +:+ ": " +:+ Error b
  end.

(** [errors.Is(e, sentinel)]. *)
Fixpoint errors_Is (e : error) (sentinel : string) : bool :=
  match e with
  | ESentinel m => bool_decide (m = sentinel)
  | EWrap _ e' => errors_Is e' sentinel
  | EWrap2 a b => errors_Is a sentinel || errors_Is b sentinel
  | _ => false
  end.

(** ** Results *)

(** Outcome of a Go function returning [(A, error)]; [Panic] is a run-time panic. *)
Inductive result (A : Type) :=
  | Ok (a : A)
  | Err (e : error)
  | Panic.
Arguments Ok {A} a.
Arguments Err {A} e.
Arguments Panic {A}.

#[global] Instance result_ret : MRet result := λ A a, Ok a.

#[global] Instance result_bind : MBind result := λ A B k m,
  match m with
  | Ok a => k a
  | Err e => Err e
  | Panic => Panic
  end.

(** [if err != nil { return fmt.Errorf("p: %w", err) }]. *)
Definition wrap {A} (p : string) (m : result A) : result A :=
  match m with
  | Err e => Err (EWrap p e)
  | r => r
  end.

Definition from_option_panic {A} (o : option A) : result A :=
  match o with Some a => Ok a | None => Panic end.

(** ** Stateful code *)

(** A Go function with effects on a state [S]: it returns an outcome and the
    new state.  Effects made before an error are kept. *)
Definition io (S A : Type) : Type := S → result A * S.

#[global] Instance io_ret S : MRet (io S) := λ A a s, (Ok a, s).

#[global] Instance io_bind S : MBind (io S) := λ A B k m s,
  match m s with
  | (Ok a, s') => k a s'
  | (Err e, s') => (Err e, s')
  | (Panic, s') => (Panic, s')
  end.

Definition fail {S A} (e : error) : io S A := λ s, (Err e, s).

(** [if err != nil { return fmt.Errorf("p: %w", err) }] around a call. *)
Definition wrapM {S A} (p : string) (m : io S A) : io S A := λ s, (wrap p (m s).1, (m s).2).

(** [lift r]: return the outcome [r] of pure code. *)
Definition lift {S A} (r : result A) : io S A := λ s, (r, s).

(** [err := m; ...]: hand the error to the rest of the function. *)
Definition try_ {S A B} (m : io S A) (k : result A → io S B) : io S B := λ s,
  let '(r, s') := m s in k r s'.

(** Run code that acts on one part of a larger state. *)
Definition zoom {S T A} (get : T → S) (put : S → T → T) (m : io S A) : io T A := λ t,
  let '(r, s) := m (get t) in (r, put s t).

(** Code with a loop that may not end takes fuel: [None] when it is used up. *)
Definition iof (S A : Type) : Type := S → option (result A * S).

#[global] Instance iof_ret S : MRet (iof S) := λ A a s, Some (Ok a, s).

#[global] Instance iof_bind S : MBind (iof S) := λ A B k m s,
  match m s with
  | Some (Ok a, s') => k a s'
  | Some (Err e, s') => Some (Err e, s')
  | Some (Panic, s') => Some (Panic, s')
  | None => None
  end.

Definition run {S A} (m : io S A) : iof S A := λ s, Some (m s).

Definition failf {S A} (e : error) : iof S A := λ s, Some (Err e, s).

Definition wrapf {S A} (p : string) (m : iof S A) : iof S A := λ s,
  match m s with
  | Some (r, s') => Some (wrap p r, s')
  | None => None
  end.

Definition tryf {S A B} (m : iof S A) (k : result A → iof S B) : iof S B := λ s,
  match m s with
  | Some (r, s') => k r s'
  | None => None
  end.

Definition zoomf {S T A} (get : T → S) (put : S → T → T) (m : iof S A) : iof T A := λ t,
  match m (get t) with
  | Some (r, s) => Some (r, put s t)
  | None => None
  end.

(** ** Lemmas: results *)

Lemma bind_Ok {A B} (m : result A) (k : A → result B) b :
  (m ≫= k) = Ok b ↔ ∃ a, m = Ok a ∧ k a = Ok b.
Proof.
  destruct m; cbn; split; [eauto|intros (?&[= ->]&?); done|done|by intros (?&?&?)|
    done|by intros (?&?&?)].
Qed.

Lemma wrap_Ok {A} p (m : result A) a : wrap p m = Ok a ↔ m = Ok a.
Proof. by destruct m. Qed.

(** Invert every successful bind in the hypotheses. *)
Ltac inv_ok :=
  repeat match goal with
  | H : (_ ≫= _) = Ok _ |- _ =>
      apply bind_Ok in H; let a := fresh "r" in let E := fresh "E" in
      destruct H as (a & E & H)
  | H : wrap _ _ = Ok _ |- _ => apply wrap_Ok in H
  | H : Ok _ = Ok _ |- _ => injection H as H; subst
  | H : Err _ = Ok _ |- _ => discriminate H
  | H : Panic = Ok _ |- _ => discriminate H
  end.

(** ** Lemmas: stateful code *)

Lemma bind_io_Ok {S A B} (m : io S A) (k : A → io S B) s b s' :
  (m ≫= k) s = (Ok b, s') ↔ ∃ a s1, m s = (Ok a, s1) ∧ k a s1 = (Ok b, s').
Proof.
  unfold mbind, io_bind. destruct (m s) as [[a|e|] s1]; naive_solver.
Qed.

Lemma wrapM_Ok {S A} p (m : io S A) s a s' :
  wrapM p m s = (Ok a, s') ↔ m s = (Ok a, s').
Proof. unfold wrapM. destruct (m s) as [[]]; cbn; naive_solver. Qed.

Lemma Ok_pair_inj {S A} (a b : A) (s s' : S) : (Ok a, s) = (Ok b, s') → a = b ∧ s = s'.
Proof. by intros [= -> ->]. Qed.

Lemma lift_Ok {S A} (r : result A) (s : S) a s' : lift r s = (Ok a, s') ↔ r = Ok a ∧ s = s'.
Proof. unfold lift. naive_solver. Qed.

(** Invert every successful step in the hypotheses. *)
Ltac inv_io :=
  repeat match goal with
  | H : (_ ≫= _) _ = (Ok _, _) |- _ =>
      apply bind_io_Ok in H; let a := fresh "r" in let s := fresh "s" in
      let E := fresh "E" in destruct H as (a & s & E & H)
  | H : wrapM _ _ _ = (Ok _, _) |- _ => apply wrapM_Ok in H
  | H : mret _ _ = (Ok _, _) |- _ => injection H as H; subst
  | H : fail _ _ = (Ok _, _) |- _ => discriminate H
  | H : lift _ _ = (Ok _, _) |- _ => apply lift_Ok in H as [H ->]
  end.

(** A sequence that ended: its first part succeeded, or it ended there. *)
Lemma bind_iof_inv {S A B} (m : iof S A) (k : A → iof S B) s r s' :
  (m ≫= k) s = Some (r, s') →
  (∃ a s1, m s = Some (Ok a, s1) ∧ k a s1 = Some (r, s')) ∨
  (∃ r0, m s = Some (r0, s') ∧ (∀ a, r0 ≠ Ok a) ∧ ∀ b, r ≠ Ok b).
Proof.
  unfold mbind, iof_bind. destruct (m s) as [[[a|e|] s1]|]; [eauto|..|done];
    intros [= <- <-]; right; eexists; by split.
Qed.

Lemma run_inv {S A} (m : io S A) s r s' : run m s = Some (r, s') → m s = (r, s').
Proof. by intros [= ->]. Qed.

Lemma zoom_run {S T A} (get : T → S) put (m : io S A) t r t' :
  zoom get put m t = (r, t') → ∃ s', m (get t) = (r, s') ∧ t' = put s' t.
Proof. unfold zoom. destruct (m (get t)) as [r0 s']. intros [= <- <-]. eauto. Qed.

Lemma zoomf_run {S T A} (get : T → S) put (m : iof S A) t r t' :
  zoomf get put m t = Some (r, t') → ∃ s', m (get t) = Some (r, s') ∧ t' = put s' t.
Proof. unfold zoomf. destruct (m (get t)) as [[r0 s']|]; [|done]. intros [= <- <-]. eauto. Qed.

Lemma wrapM_inv {S A} p (m : io S A) s r s' :
  wrapM p m s = (r, s') → ∃ r0, m s = (r0, s') ∧ ∀ a, r = Ok a ↔ r0 = Ok a.
Proof.
  unfold wrapM. destruct (m s) as [r0 s0]; cbn. intros [= <- <-]. exists r0. split; [done|].
  intros a. apply wrap_Ok.
Qed.

Lemma wrapf_inv {S A} p (m : iof S A) s r s' :
  wrapf p m s = Some (r, s') → ∃ r0, m s = Some (r0, s') ∧ ∀ a, r = Ok a ↔ r0 = Ok a.
Proof.
  unfold wrapf. destruct (m s) as [[r0 s0]|]; [|done]. intros [= <- <-]. exists r0.
  split; [done|]. intros a. apply wrap_Ok.
Qed.

(** Code with fuel moves the state along [R] whenever it ends. *)
Definition movesf {S A} (R : relation S) (m : iof S A) : Prop :=
  ∀ s r s', m s = Some (r, s') → R s s'.

Definition moves_io {S A} (R : relation S) (m : io S A) : Prop := ∀ s, R s (m s).2.

Section movesf.
Context {S : Type} (R : relation S) `{!PreOrder R}.

Lemma movesf_ret {A} (a : A) : movesf R (mret a).
Proof. by intros s r s' [= _ <-]. Qed.

Lemma movesf_fail {A} e : movesf R (@failf S A e).
Proof. by intros s r s' [= _ <-]. Qed.

Lemma movesf_run {A} (m : io S A) : moves_io R m → movesf R (run m).
Proof. intros Hm s r s' [= E]. specialize (Hm s). by rewrite E in Hm. Qed.

Lemma movesf_bind {A B} (m : iof S A) (k : A → iof S B) :
  movesf R m → (∀ a, movesf R (k a)) → movesf R (m ≫= k).
Proof.
  intros Hm Hk s r s'. unfold mbind, iof_bind.
  destruct (m s) as [[[a|e|] s1]|] eqn:E; [|intros [= _ <-]; by eapply Hm..|done].
  intros H. etrans; [by eapply Hm|by eapply Hk].
Qed.

(** The same, when the rest relies on what [m] returns. *)
Lemma movesf_bind_ok {A B} (P : A → Prop) (m : iof S A) (k : A → iof S B) :
  movesf R m → (∀ s a s', m s = Some (Ok a, s') → P a) → (∀ a, P a → movesf R (k a)) →
  movesf R (m ≫= k).
Proof.
  intros Hm HP Hk s r s'. unfold mbind, iof_bind.
  destruct (m s) as [[[a|e|] s1]|] eqn:E; [|intros [= _ <-]; by eapply Hm..|done].
  intros H. etrans; [by eapply Hm|by eapply Hk; eauto].
Qed.

Lemma movesf_tryf {A B} (m : iof S A) (k : result A → iof S B) :
  movesf R m → (∀ r, movesf R (k r)) → movesf R (tryf m k).
Proof.
  intros Hm Hk s r s'. unfold tryf. destruct (m s) as [[r1 s1]|] eqn:E; [|done].
  intros H. etrans; [by eapply Hm|by eapply Hk].
Qed.

Lemma movesf_wrapf {A} p (m : iof S A) : movesf R m → movesf R (wrapf p m).
Proof.
  intros Hm s r s'. unfold wrapf. destruct (m s) as [[r1 s1]|] eqn:E; [|done].
  intros [= _ <-]. by eapply Hm.
Qed.

Lemma moves_io_wrapM {A} p (m : io S A) : moves_io R m → moves_io R (wrapM p m).
Proof. intros Hm s. apply Hm. Qed.

Lemma moves_io_ret {A} (a : A) : moves_io R (mret a).
Proof. intros s. by cbn. Qed.

Lemma moves_io_fail {A} e : moves_io R (@fail S A e).
Proof. intros s. by cbn. Qed.

Lemma moves_io_lift {A} (r : result A) : moves_io R (lift r).
Proof. intros s. by cbn. Qed.

Lemma moves_io_bind {A B} (m : io S A) (k : A → io S B) :
  moves_io R m → (∀ a, moves_io R (k a)) → moves_io R (m ≫= k).
Proof.
  intros Hm Hk s. specialize (Hm s). unfold mbind, io_bind.
  destruct (m s) as [[a|e|] s']; cbn in *; try done. etrans; [exact Hm|apply Hk].
Qed.

Lemma moves_io_try {A B} (m : io S A) (k : result A → io S B) :
  moves_io R m → (∀ r, moves_io R (k r)) → moves_io R (try_ m k).
Proof.
  intros Hm Hk s. specialize (Hm s). unfold try_. destruct (m s) as [r s'].
  cbn in *. etrans; [exact Hm|apply Hk].
Qed.
End movesf.

#[export] Hint Resolve movesf_ret movesf_fail movesf_run moves_io_wrapM moves_io_ret
  moves_io_fail moves_io_lift : oracle.

(** Split code into its calls. *)
Ltac movesf_step :=
  repeat lazymatch goal with
  | |- movesf _ (_ ≫= _) => apply movesf_bind; [apply _| |intros ?]
  | |- movesf _ (tryf _ _) => apply movesf_tryf; [apply _| |intros ?]
  | |- movesf _ (wrapf _ _) => apply movesf_wrapf
  | |- movesf _ (mret _) => apply movesf_ret; apply _
  | |- movesf _ (failf _) => apply movesf_fail; apply _
  | |- movesf _ (run _) => apply movesf_run
  | |- moves_io _ (_ ≫= _) => apply moves_io_bind; [apply _| |intros ?]
  | |- moves_io _ (try_ _ _) => apply moves_io_try; [apply _| |intros ?]
  | |- moves_io _ (wrapM _ _) => apply moves_io_wrapM
  | |- moves_io _ (mret _) => apply moves_io_ret; apply _
  | |- moves_io _ (fail _) => apply moves_io_fail; apply _
  | |- moves_io _ (lift _) => apply moves_io_lift; apply _
  | |- movesf _ (if ?b then _ else _) => destruct b eqn:?
  | |- movesf _ (match ?e with _ => _ end) => destruct e eqn:?
  | |- moves_io _ (if ?b then _ else _) => destruct b eqn:?
  | |- moves_io _ (match ?e with _ => _ end) => destruct e eqn:?
  end.

(** ** Lemmas: machine integers *)

Lemma wrapU_small w z : 0 <= z < 2 ^ w → wrapU w z = z.
Proof. apply Z.mod_small. Qed.

Lemma wrapU_bound w z : 0 <= w → 0 <= wrapU w z < 2 ^ w.
Proof. intros. apply Z.mod_pos_bound. lia. Qed.

Lemma wrapS_small w z : 0 < w → - 2 ^ (w - 1) <= z < 2 ^ (w - 1) → wrapS w z = z.
Proof.
  intros Hw Hz. unfold wrapS.
  assert (2 ^ w = 2 * 2 ^ (w - 1)) by (rewrite <- Z.pow_succ_r; [f_equal; lia|lia]).
  rewrite Z.mod_small; lia.
Qed.

(** ** Lemmas: arrays *)

Lemma length_to_array n l : length (to_array n l) = n.
Proof. unfold to_array. rewrite length_app, length_take, length_replicate. lia. Qed.

Lemma to_array_id n l : length l = n → to_array n l = l.
Proof.
  intros <-. unfold to_array. by rewrite take_ge, Nat.sub_diag, app_nil_r by lia.
Qed.

Lemma length_be_bytes n z : length (be_bytes n z) = n.
Proof. revert z; induction n; intros; cbn; [done|]. rewrite length_app, IHn; cbn; lia. Qed.

Lemma byte_of_Z_to_N z : Z.of_N (Byte.to_N (byte_of_Z z)) = z mod 256.
Proof.
  unfold byte_of_Z. pose proof (Z.mod_pos_bound z 256 ltac:(lia)) as Hb.
  destruct (Byte.of_N (Z.to_N (z mod 256))) as [b|] eqn:E; cbn.
  - apply Byte.to_of_N in E. rewrite E. lia.
  - apply Byte.of_N_None_iff in E. lia.
Qed.

Lemma be_value_app l b :
  be_value (l ++ [b]) = be_value l * 256 + Z.of_N (Byte.to_N b).
Proof. unfold be_value. by rewrite fold_left_app. Qed.

(** [FillBytes] loses nothing on values that fit. *)
Lemma be_value_be_bytes n z : 0 <= z < 256 ^ Z.of_nat n → be_value (be_bytes n z) = z.
Proof.
  revert z. induction n as [|n IH]; intros z Hz; cbn [be_bytes].
  { cbn in *. lia. }
  rewrite be_value_app, byte_of_Z_to_N, IH.
  - pose proof (Z.div_mod z 256). lia.
  - rewrite Nat2Z.inj_succ, Z.pow_succ_r in Hz by lia.
    split; [apply Z.div_pos; lia | apply Z.div_lt_upper_bound; lia].
Qed.

Lemma be_bytes_inj n a b :
  0 <= a < 256 ^ Z.of_nat n → 0 <= b < 256 ^ Z.of_nat n →
  be_bytes n a = be_bytes n b → a = b.
Proof.
  intros Ha Hb E. rewrite <- (be_value_be_bytes n a), <- (be_value_be_bytes n b) by done.
  by rewrite E.
Qed.

(** ** Lemmas: hexadecimal text *)

Lemma hex_value_bound c x : hex_value c = Some x → 0 <= x < 16 ∧ hex_digit x = ascii_lower c.
Proof.
  destruct c as [[] [] [] [] [] [] [] []]; vm_compute; (done || intros [= <-]; done).
Qed.

Lemma hex_value_digit x : 0 <= x < 16 → hex_value (hex_digit x) = Some x.
Proof.
  intros Hx. assert (x = 0 ∨ x = 1 ∨ x = 2 ∨ x = 3 ∨ x = 4 ∨ x = 5 ∨ x = 6 ∨ x = 7 ∨ x = 8 ∨
    x = 9 ∨ x = 10 ∨ x = 11 ∨ x = 12 ∨ x = 13 ∨ x = 14 ∨ x = 15) as Hc by lia.
  destruct_or! Hc; subst; reflexivity.
Qed.

Lemma byte_of_to_N (b : Byte.byte) : byte_of_Z (Z.of_N (Byte.to_N b)) = b.
Proof. by destruct b; vm_compute. Qed.

Lemma byte_bound (b : Byte.byte) : 0 <= Z.of_N (Byte.to_N b) < 256.
Proof. pose proof (Byte.to_N_bounded b). lia. Qed.

Lemma hex_decode_encode l : hex_decode (hex_encode l) = (l, true).
Proof.
  induction l as [|b l IH]; [done|]. cbn [hex_encode hex_decode]. pose proof (byte_bound b) as Hb.
  rewrite !hex_value_digit, IH.
  - rewrite <- Z.div_mod by done. by rewrite byte_of_to_N.
  - apply Z.mod_pos_bound. lia.
  - split; [apply Z.div_pos; lia|apply Z.div_lt_upper_bound; lia].
Qed.

Lemma hex_encode_decode s l : hex_decode s = (l, true) → hex_encode l = ToLower s.
Proof.
  revert s. induction l as [|b l IH]; intros [|a1 [|a2 s]]; cbn [hex_decode]; try done;
    destruct (hex_value a1) as [x|] eqn:Ex, (hex_value a2) as [y|] eqn:Ey; try done;
    destruct (hex_decode s) as [l' ok] eqn:Es; [done|].
  intros [= <- -> ->]. apply hex_value_bound in Ex as [Hx Hdx], Ey as [Hy Hdy].
  cbn [hex_encode ToLower]. rewrite byte_of_Z_to_N, (Z.mod_small (16 * x + y)) by lia.
  replace ((16 * x + y) / 16) with x by (apply (Z.div_unique _ _ _ y); lia).
  replace ((16 * x + y) mod 16) with y by (apply (Z.mod_unique _ _ x); lia).
  by rewrite Hdx, Hdy, (IH s).
Qed.

Lemma length_hex_encode l : String.length (hex_encode l) = (2 * length l)%nat.
Proof. induction l as [|b l IH]; [done|]. cbn [hex_encode String.length length]. lia. Qed.

Lemma hex_encode_inj l1 l2 : hex_encode l1 = hex_encode l2 → l1 = l2.
Proof.
  intros H. assert (hex_decode (hex_encode l1) = hex_decode (hex_encode l2)) as Hd by congruence.
  rewrite !hex_decode_encode in Hd. by injection Hd.
Qed.

Lemma length_ToLower s : String.length (ToLower s) = String.length s.
Proof. induction s; cbn; auto. Qed.

Lemma cut_prefix_app pre s : cut_prefix pre (pre +:+ s) = Some s.
Proof.
  induction pre as [|a pre IH]; [done|].
  change ((if Ascii.eqb a a then cut_prefix pre (pre +:+ s) else None) = Some s).
  by rewrite Ascii.eqb_refl.
Qed.

Lemma cut_prefix_Some pre s r : cut_prefix pre s = Some r → s = pre +:+ r.
Proof.
  revert s. induction pre as [|a pre IH]; intros s; [by intros [= ->]|]. cbn [cut_prefix].
  destruct s as [|b s]; [done|]. destruct (Ascii.eqb_spec a b) as [->|]; [|done].
  intros H. by rewrite (IH s).
Qed.

Lemma append_assoc s1 s2 s3 : (s1 +:+ s2) +:+ s3 = s1 +:+ s2 +:+ s3.
Proof.
  induction s1 as [|c s1 IH]; [done|].
  change (String c ((s1 +:+ s2) +:+ s3) = String c (s1 +:+ s2 +:+ s3)). by f_equal.
Qed.

(** A text contains another exactly when it is around it. *)
Lemma substring_prefix m s : ∃ b, s = String.substring 0 m s +:+ b.
Proof.
  revert m. induction s as [|c s IH]; intros [|m]; [by exists ""..|by exists (String c s)|].
  destruct (IH m) as (b & E). exists b.
  change (String c s = String c (String.substring 0 m s +:+ b)). by f_equal.
Qed.

Lemma substring_split n m s : ∃ a b, s = a +:+ String.substring n m s +:+ b.
Proof.
  revert n. induction s as [|c s IH]; intros [|n].
  - exists "". by apply substring_prefix.
  - by exists "", "".
  - exists "". by apply substring_prefix.
  - destruct (IH n) as (a & b & E). exists (String c a), b.
    change (String c s = String c (a +:+ String.substring n m s +:+ b)). by f_equal.
Qed.

Lemma contains_split s sub : contains s sub = true → ∃ a b, s = a +:+ sub +:+ b.
Proof.
  unfold contains. destruct (String.index 0 sub s) as [m|] eqn:E; [|done]. intros _.
  apply String.index_correct1 in E. rewrite <- E. apply substring_split.
Qed.

Lemma substring_app a sub b :
  String.substring (String.length a) (String.length sub) (a +:+ sub +:+ b) = sub.
Proof.
  induction a as [|c a IH]; [|exact IH]. change ("" +:+ sub +:+ b) with (sub +:+ b).
  cbn [String.length]. induction sub as [|c sub IH]; [by destruct b|].
  change (String c (String.substring 0 (String.length sub) (sub +:+ b)) = String c sub). by f_equal.
Qed.

Lemma contains_app a sub b : sub ≠ "" → contains (a +:+ sub +:+ b) sub = true.
Proof.
  intros Hne. unfold contains. destruct (String.index 0 sub _) eqn:E; [done|]. exfalso.
  eapply (String.index_correct3 _ (String.length a)); [exact E|done|lia|apply substring_app].
Qed.

Lemma ToLower_app s1 s2 : ToLower (s1 +:+ s2) = ToLower s1 +:+ ToLower s2.
Proof.
  induction s1 as [|c s1 IH]; [done|].
  change (String (ascii_lower c) (ToLower (s1 +:+ s2)) =
          String (ascii_lower c) (ToLower s1 +:+ ToLower s2)). by f_equal.
Qed.

(** ** Lemmas: [bytes.Compare] is a total order *)

Lemma bytes_compare_refl a : bytes_compare a a = Eq.
Proof. induction a; cbn; [done|]. by rewrite N.compare_refl. Qed.

Lemma bytes_compare_antisym a b : bytes_compare b a = CompOpp (bytes_compare a b).
Proof.
  revert b; induction a as [|x a IH]; intros [|y b]; cbn; [done..|].
  rewrite N.compare_antisym. destruct (N.compare _ _); cbn; auto.
Qed.

Lemma bytes_compare_eq a b : bytes_compare a b = Eq → a = b.
Proof.
  revert b; induction a as [|x a IH]; intros [|y b]; cbn; [done..|].
  destruct (N.compare_spec (Byte.to_N x) (Byte.to_N y)) as [E| |]; try done.
  intros H. f_equal; [|by apply IH].
  pose proof (Byte.of_to_N x) as Hx. rewrite E, Byte.of_to_N in Hx. congruence.
Qed.

Lemma bytes_compare_lt_trans a b c :
  bytes_compare a b = Lt → bytes_compare b c = Lt → bytes_compare a c = Lt.
Proof.
  revert b c; induction a as [|x a IH]; intros [|y b] [|z c]; cbn; try done.
  destruct (N.compare_spec (Byte.to_N x) (Byte.to_N y)),
    (N.compare_spec (Byte.to_N y) (Byte.to_N z)),
    (N.compare_spec (Byte.to_N x) (Byte.to_N z)); try done; try lia.
  eauto.
Qed.

#[global] Instance bytes_le_dec : RelDecision bytes_le.
Proof. intros a b. unfold bytes_le. apply _. Defined.

#[global] Instance bytes_le_total : Total bytes_le.
Proof.
  intros a b. unfold bytes_le. rewrite (bytes_compare_antisym a b).
  destruct (bytes_compare a b); cbn; auto.
Qed.

#[global] Instance bytes_le_antisym : AntiSymm (=) bytes_le.
Proof.
  intros a b. unfold bytes_le. rewrite (bytes_compare_antisym a b).
  destruct (bytes_compare a b) eqn:E; cbn; try done.
  intros _ _. by apply bytes_compare_eq.
Qed.

#[global] Instance bytes_le_trans : Transitive bytes_le.
Proof.
  intros a b c. unfold bytes_le.
  destruct (bytes_compare a b) eqn:E1, (bytes_compare b c) eqn:E2; try done.
  - apply bytes_compare_eq in E1 as ->. by rewrite E2.
  - apply bytes_compare_eq in E1 as ->. by rewrite E2.
  - apply bytes_compare_eq in E2 as ->. by rewrite E1.
  - by rewrite (bytes_compare_lt_trans a b c).
Qed.

(** ** Lemmas: sorting by a key *)

(** An invariant of every step holds in every reachable state. *)
Lemma rtc_preserve {A} (I : A → Prop) (R : relation A) x y :
  (∀ a b, I a → R a b → I b) → rtc R x y → I x → I y.
Proof. intros Hstep. induction 1; eauto. Qed.

Lemma StronglySorted_filter {A} (R : relation A) (P : A → Prop) `{!∀ x, Decision (P x)} l :
  StronglySorted R l → StronglySorted R (filter P l).
Proof.
  induction 1 as [|x l Hs IH Hx]; [constructor|].
  rewrite filter_cons. case_decide; [|done]. constructor; [done|].
  rewrite Forall_forall in *. intros y [_ Hy]%list_elem_of_filter. auto.
Qed.

Section sort_by.
Context {A K : Type} (key : A → K) (R : relation K) `{!RelDecision R}.

Definition by_key : relation A := λ a b, R (key a) (key b).

#[global] Instance by_key_dec : RelDecision by_key.
Proof. intros a b. unfold by_key. apply _. Defined.

#[global] Instance by_key_total `{!Total R} : Total by_key.
Proof. intros a b. apply (total R (key a) (key b)). Qed.

#[global] Instance by_key_trans `{!Transitive R} : Transitive by_key.
Proof. intros a b c. apply (transitivity (R:=R)). Qed.

Lemma StronglySorted_key l : StronglySorted by_key l → StronglySorted R (key <$> l).
Proof. apply StronglySorted_fmap. done. Qed.

(** Whatever permutation a sort returns, the sequence of keys is determined. *)
Lemma sorted_keys_unique `{!AntiSymm (=) R} l1 l2 :
  StronglySorted by_key l1 → StronglySorted by_key l2 → l1 ≡ₚ l2 →
  key <$> l1 = key <$> l2.
Proof.
  intros H1 H2 HP. apply (StronglySorted_unique R); auto using StronglySorted_key.
  by rewrite HP.
Qed.

(** When keys identify elements the whole sequence is. *)
Lemma sorted_by_unique `{!AntiSymm (=) R} l1 l2 :
  (∀ x y, x ∈ l1 → y ∈ l1 → key x = key y → x = y) →
  StronglySorted by_key l1 → StronglySorted by_key l2 → l1 ≡ₚ l2 → l1 = l2.
Proof.
  intros Hinj H1 H2 HP. apply (StronglySorted_unique_strong by_key); auto.
  intros x y Hx Hy Hxy Hyx. rewrite <- HP in Hy.
  by apply Hinj, (anti_symm R).
Qed.
End sort_by.

#[export] Hint Rewrite @length_to_array @length_be_bytes : oracle.
