(* ===== verification/Keccak.v ===== *)
(** * A concrete Keccak-256

    The program takes [crypto.Keccak256] from go-ethereum, which is not under
    src/: the component files are parametric in it.  This file gives an executable
    instance (Keccak-f[1600], rate 136, original [0x01] padding), on which the
    witnesses evaluate the parametric theorems and the golden vectors of
    src/merkle/golden_test.go are checked. *)

From S2P Require Import Prelude.

(** A lane is a 64-bit word; the state is the list of the 25 lanes A[x + 5y]. *)
Definition lane_mask : N := N.ones 64.

Definition rotl64 (r x : N) : N :=
  N.land (N.lor (N.shiftl x r) (N.shiftr x (64 - r))) lane_mask.

Definition round_constants : list N :=
  [0x0000000000000001; 0x0000000000008082; 0x800000000000808A; 0x8000000080008000;
   0x000000000000808B; 0x0000000080000001; 0x8000000080008081; 0x8000000000008009;
   0x000000000000008A; 0x0000000000000088; 0x0000000080008009; 0x000000008000000A;
   0x000000008000808B; 0x800000000000008B; 0x8000000000008089; 0x8000000000008003;
   0x8000000000008002; 0x8000000000000080; 0x000000000000800A; 0x800000008000000A;
   0x8000000080008081; 0x8000000000008080; 0x0000000080000001; 0x8000000080008008]%N.

(** Rotation offsets, indexed like the lanes. *)
Definition rotation_offsets : list N :=
  [0; 1; 62; 28; 27;
   36; 44; 6; 55; 20;
   3; 10; 43; 25; 39;
   41; 45; 15; 21; 8;
   18; 2; 61; 56; 14]%N.

Definition lane (st : list N) (i : nat) : N := nth i st 0%N.

Definition theta (st : list N) : list N :=
  let c := map (λ x, N.lxor (lane st x) (N.lxor (lane st (x + 5))
             (N.lxor (lane st (x + 10)) (N.lxor (lane st (x + 15)) (lane st (x + 20))))))
             (seq 0 5) in
  let d := map (λ x, N.lxor (lane c ((x + 4) mod 5)) (rotl64 1 (lane c ((x + 1) mod 5))))
             (seq 0 5) in
  map (λ i, N.lxor (lane st i) (lane d (i mod 5))) (seq 0 25).

(** rho and pi together: B[y, 2x+3y] = rot(A[x,y]), read at the target lane. *)
Definition rho_pi (st : list N) : list N :=
  map (λ i, let x := (i mod 5)%nat in let y := (i / 5)%nat in
            let sx := ((x + 3 * y) mod 5)%nat in
            let s := (sx + 5 * x)%nat in
            rotl64 (lane rotation_offsets s) (lane st s))
      (seq 0 25).

Definition chi (st : list N) : list N :=
  map (λ i, let x := (i mod 5)%nat in let y := (i / 5)%nat in
            N.lxor (lane st i)
              (N.land (N.lxor (lane st ((x + 1) mod 5 + 5 * y)) lane_mask)
                      (lane st ((x + 2) mod 5 + 5 * y))))
      (seq 0 25).

Definition iota (rc : N) (st : list N) : list N :=
  match st with
  | a :: st' => N.lxor a rc :: st'
  | [] => []
  end.

Definition keccak_f (st : list N) : list N :=
  fold_left (λ s rc, iota rc (chi (rho_pi (theta s)))) round_constants st.

Definition rate : nat := 136.

(** Little-endian lane of up to eight bytes. *)
Definition lane_of_bytes (l : bytes) : N :=
  fold_right (λ b acc, N.lor (Byte.to_N b) (N.shiftl acc 8)) 0%N l.

Fixpoint lane_bytes (n : nat) (x : N) : bytes :=
  match n with
  | O => []
  | S n' => byte_of_Z (Z.of_N (N.land x 255)) :: lane_bytes n' (N.shiftr x 8)
  end.

Fixpoint lanes_of_bytes (n : nat) (l : bytes) : list N :=
  match n with
  | O => []
  | S n' => lane_of_bytes (take 8 l) :: lanes_of_bytes n' (drop 8 l)
  end.

(** Append 0x01, zeros, and set the top bit of the last byte of the block. *)
Definition pad (l : bytes) : bytes :=
  let q := (rate - length l mod rate)%nat in
  if (q =? 1)%nat then l ++ [byte_of_Z 129]
  else l ++ [byte_of_Z 1] ++ replicate (q - 2) x00 ++ [byte_of_Z 128].

Definition absorb_block (st : list N) (block : bytes) : list N :=
  keccak_f (zip_with N.lxor st (lanes_of_bytes 17 block ++ replicate 8 0%N)).

Fixpoint absorb (fuel : nat) (st : list N) (l : bytes) : list N :=
  match fuel with
  | O => st
  | S f => absorb f (absorb_block st (take rate l)) (drop rate l)
  end.

Definition keccak256 (l : bytes) : bytes :=
  let p := pad l in
  let st := absorb (length p / rate) (replicate 25 0%N) p in
  to_array 32 (concat (map (lane_bytes 8) (take 4 st))).

Lemma length_keccak256 l : length (keccak256 l) = 32%nat.
Proof. apply length_to_array. Qed.
