(* ===== verification/Merkle.v ===== *)
(** * merkle: the cluster Merkle tree (src/merkle/tree.go, src/merkle/encoding.go)

    [Crypto] is what the package takes from go-ethereum: [crypto.Keccak256] and
    the ABI encoder of the leaf type (bytes32, uint32).  Everything else is
    translated: leaves, sorting by hash, pairwise hashing with duplication of an
    odd last node, and proof extraction. *)

From S2P Require Import Prelude Keccak.

(** ** Third-party code: hashing and ABI packing *)

Class Crypto := {
  Keccak256 : bytes → bytes;
  leafABI_Pack : bytes → Z → bytes;
}.

(** What the documentation of the two functions promises: digests have 32 bytes;
    the ABI encoding of two static types takes two 32-byte words and determines
    its arguments. *)
Class CryptoLaws `{Crypto} : Prop := {
  Keccak256_length l : length (Keccak256 l) = 32%nat;
  leafABI_Pack_length id b : length (leafABI_Pack id b) = 64%nat;
  leafABI_Pack_inj id1 b1 id2 b2 :
    length id1 = 32%nat → length id2 = 32%nat → is_uint 32 b1 → is_uint 32 b2 →
    leafABI_Pack id1 b1 = leafABI_Pack id2 b2 → id1 = id2 ∧ b1 = b2;
}.

(** ** Data *)

Record Leaf := mkLeaf {
  ClusterID : bytes;
  EffectiveBalance : Z;
  Hash : bytes;
}.

Record Tree := mkTree {
  Root : bytes;
  leaves : list Leaf;
  layers : list (list bytes);
}.

(** ** Operations *)

Section tree.
Context `{Crypto}.

Definition HashLeaf (clusterID : bytes) (effectiveBalance : Z) : bytes :=
  let data := leafABI_Pack clusterID effectiveBalance in
  Keccak256 (Keccak256 data).

Definition hashPair (a b : bytes) : bytes :=
  let '(a, b) := match bytes_compare a b with Gt => (b, a) | _ => (a, b) end in
  Keccak256 (to_array 32 a ++ to_array 32 b).

Fixpoint hashLevel (hashes : list bytes) : list bytes :=
  match hashes with
  | [] => []
  | [a] => [hashPair a a]
  | a :: b :: rest => hashPair a b :: hashLevel rest
  end.

(** The [for len(hashes) > 1] loop, one unit of fuel per iteration. *)
Fixpoint buildLayers_loop (fuel : nat) (hashes : list bytes) : list (list bytes) :=
  hashes :: (if (1 <? length hashes)%nat then
               match fuel with
               | O => []
               | S f => buildLayers_loop f (hashLevel hashes)
               end
             else []).

Definition buildLayers (ls : list Leaf) : list (list bytes) :=
  buildLayers_loop (length ls) (Hash <$> ls).

(** [range clusters] visits the entries in an unspecified order: [iter] is the
    sequence it visits. *)
Definition makeLeaves (iter : list (bytes * Z)) : list Leaf :=
  (λ '(id, balance), mkLeaf id balance (HashLeaf id balance)) <$> iter.

(** The order [sort.Slice] is called with. *)
Definition leaf_le : relation Leaf := by_key Hash bytes_le.

#[global] Instance leaf_le_dec : RelDecision leaf_le := by_key_dec Hash bytes_le.

(** [NewTree] after the leaves were made and sorted. *)
Definition tree_of_leaves (ls : list Leaf) : result Tree :=
  match ls with
  | [leaf] => Ok (mkTree (Hash leaf) ls [])
  | _ =>
      let lys := buildLayers ls in
      top ← from_option_panic (last lys);
      root ← from_option_panic (head top);
      Ok (mkTree root ls lys)
  end.

(** [NewTree] for one order of iteration and a stable sort. *)
Definition NewTree_iter (iter : list (bytes * Z)) : result Tree :=
  match iter with
  | [] => Ok (mkTree (Keccak256 []) [] [])
  | _ => tree_of_leaves (merge_sort leaf_le (makeLeaves iter))
  end.

Definition NewTree (clusters : gmap bytes Z) : result Tree :=
  NewTree_iter (map_to_list clusters).

(** Every tree Go may build: any order of iteration, and any result of the
    (unstable) [sort.Slice]. *)
Definition NewTree_may (clusters : gmap bytes Z) (t : result Tree) : Prop :=
  ∃ iter ls, iter ≡ₚ map_to_list clusters ∧
    ls ≡ₚ makeLeaves iter ∧ StronglySorted leaf_le ls ∧
    t = if decide (clusters = ∅) then Ok (mkTree (Keccak256 []) [] [])
        else tree_of_leaves ls.

Definition Leaves (t : Tree) : list Leaf := leaves t.

Definition InnerLayers (t : Tree) : list (list bytes) :=
  if (length (layers t) <=? 1)%nat then [] else drop 1 (layers t).

(** [findLeaf]: the index of the first leaf of that cluster, [None] for -1. *)
Definition findLeaf (t : Tree) (clusterID : bytes) : option nat :=
  fst <$> list_find (λ leaf, ClusterID leaf = clusterID) (leaves t).

(** [sibling]; indexing out of range panics. *)
Definition sibling (hashes : list bytes) (idx : nat) : result bytes :=
  if (idx mod 2 =? 0)%nat then
    if (idx + 1 <? length hashes)%nat then from_option_panic (hashes !! (idx + 1)%nat)
    else from_option_panic (hashes !! idx)
  else from_option_panic (hashes !! (idx - 1)%nat).

(** The loop [layer < len(t.layers)-1]: all layers but the last. *)
Fixpoint proof_loop (lys : list (list bytes)) (idx : nat) : result (list bytes) :=
  match lys with
  | hashes :: ((_ :: _) as rest) =>
      s ← sibling hashes idx;
      p ← proof_loop rest (idx / 2)%nat;
      Ok (s :: p)
  | _ => Ok []
  end.

Definition GetProof (t : Tree) (clusterID : bytes) : result (list bytes) :=
  match findLeaf t clusterID with
  | None => Err (EText ("cluster " +:+ hex_encode clusterID +:+ " not found"))
  | Some idx =>
      match layers t with
      | [] => Ok []
      | lys => proof_loop lys idx
      end
  end.

(** The verifier of src/merkle/tree_test.go (OpenZeppelin's [processProof]). *)
Definition verifyProof (leafHash : bytes) (proof : list bytes) : bytes :=
  fold_left hashPair proof leafHash.

(** ** What is hashed

    The inputs [Keccak256] is applied to: for a leaf, for a pair, for a level, for
    a whole tree, and by the verifier of a proof.  The 32-byte digests of all byte
    strings collide, of course; what a proof rests on is that these do not. *)

Definition leaf_inputs (clusterID : bytes) (effectiveBalance : Z) : list bytes :=
  let data := leafABI_Pack clusterID effectiveBalance in [data; Keccak256 data].

Definition hashPair_input (a b : bytes) : bytes :=
  let '(a, b) := match bytes_compare a b with Gt => (b, a) | _ => (a, b) end in
  to_array 32 a ++ to_array 32 b.

Fixpoint level_inputs (hashes : list bytes) : list bytes :=
  match hashes with
  | [] => []
  | [a] => [hashPair_input a a]
  | a :: b :: rest => hashPair_input a b :: level_inputs rest
  end.

Definition layer_inputs (hashes : list bytes) : list bytes :=
  if (1 <? length hashes)%nat then level_inputs hashes else [].

Definition tree_inputs (t : Tree) : list bytes :=
  match leaves t with
  | [] => [[]]
  | ls => (ls ≫= λ leaf, leaf_inputs (ClusterID leaf) (EffectiveBalance leaf)) ++
          (layers t ≫= layer_inputs)
  end.

Fixpoint path_inputs (hash : bytes) (proof : list bytes) : list bytes :=
  match proof with
  | [] => []
  | s :: rest => hashPair_input hash s :: path_inputs (hashPair hash s) rest
  end.

Definition proof_inputs (id : bytes) (bal : Z) (proof : list bytes) : list bytes :=
  leaf_inputs id bal ++ path_inputs (HashLeaf id bal) proof.

(** Two different inputs of the list with the same digest. *)
Definition collides_in (inputs : list bytes) : Prop :=
  ∃ x y, x ∈ inputs ∧ y ∈ inputs ∧ x ≠ y ∧ Keccak256 x = Keccak256 y.

End tree.

(** ** The concrete instance used by the witnesses *)

(** ABI encoding of (bytes32, uint32). *)
Definition abi_pack_leaf (id : bytes) (b : Z) : bytes := to_array 32 id ++ be_bytes 32 b.

#[export] Instance keccak_crypto : Crypto :=
  {| Keccak256 := keccak256; leafABI_Pack := abi_pack_leaf |}.

#[export] Instance keccak_crypto_laws : CryptoLaws.
Proof.
  split; cbn; intros.
  - apply length_keccak256.
  - unfold abi_pack_leaf. by rewrite length_app, length_to_array, length_be_bytes.
  - unfold abi_pack_leaf in *.
    match goal with E : _ ++ _ = _ ++ _ |- _ => apply app_inj_1 in E as [E1 E2] end;
      [|by rewrite !length_to_array].
    rewrite !to_array_id in E1 by done. split; [done|].
    unfold is_uint in *. apply be_bytes_inj in E2; lia.
Qed.

(** ** Lemmas: pairs and levels *)

Section lemmas.
Context `{Crypto}.

Lemma hashPair_comm a b : hashPair a b = hashPair b a.
Proof.
  unfold hashPair. rewrite (bytes_compare_antisym a b).
  destruct (bytes_compare a b) eqn:E; cbn; try done.
  by apply bytes_compare_eq in E as ->.
Qed.

(** Induction on a level, two nodes at a time. *)
Lemma pair_ind {A} (P : list A → Prop) :
  P [] → (∀ a, P [a]) → (∀ a b l, P l → P (a :: b :: l)) → ∀ l, P l.
Proof.
  intros H0 H1 H2. fix IH 1. intros [|a [|b l]]; [done|done|]. apply H2, IH.
Qed.

Lemma length_hashLevel hs : length (hashLevel hs) = ((length hs + 1) / 2)%nat.
Proof.
  induction hs as [| |a b l IH] using pair_ind; [done..|]. cbn [hashLevel length].
  rewrite IH. replace (S (S (length l)) + 1)%nat with (length l + 1 + 1 * 2)%nat by lia.
  rewrite Nat.div_add by lia. lia.
Qed.

(** The parent of node [i] hashes it with its sibling, in the sorted order. *)
Lemma hashLevel_parent hs i h :
  hs !! i = Some h → ∃ s, sibling hs i = Ok s ∧
    hashLevel hs !! (i / 2)%nat = Some (hashPair h s).
Proof.
  revert i h. induction hs as [|a|a b l IH] using pair_ind; intros i h Hi; [done| |].
  - destruct i; [|done]. injection Hi as ->. by exists h.
  - destruct i as [|[|i]].
    + injection Hi as ->. by exists b.
    + injection Hi as ->. exists a. split; [done|]. cbn. by rewrite hashPair_comm.
    + cbn in Hi. destruct (IH i h Hi) as (s & Hs & Hp). exists s.
      replace (S (S i)) with (i + 1 * 2)%nat by lia.
      rewrite Nat.div_add by lia. rewrite Nat.add_1_r. split; [|done].
      revert Hs. unfold sibling.
      rewrite Nat.Div0.mod_add. pose proof (Nat.mod_upper_bound i 2).
      replace (i + 1 * 2 + 1)%nat with (S (S (i + 1))) by lia.
      replace (i + 1 * 2)%nat with (S (S i)) by lia. cbn [length].
      destruct (Nat.eqb_spec (i mod 2) 0).
      * replace (S (S (i + 1)) <? S (S (length l)))%nat with (i + 1 <? length l)%nat
          by (destruct (Nat.ltb_spec (i + 1) (length l)),
                (Nat.ltb_spec (S (S (i + 1))) (S (S (length l)))); lia).
        done.
      * destruct i as [|i]; [done|].
        by replace (S (S (S i)) - 1)%nat with (S (S (S i - 1))) by lia.
Qed.

Lemma hashLevel_inv hs h :
  h ∈ hashLevel hs →
  ∃ a b, a ∈ hs ∧ b ∈ hs ∧ h = hashPair a b ∧ hashPair_input a b ∈ level_inputs hs.
Proof.
  induction hs as [|a|a b l IH] using pair_ind; cbn [hashLevel level_inputs]; intros Hin.
  - by apply elem_of_nil in Hin.
  - apply list_elem_of_singleton in Hin as ->. exists a, a. set_solver.
  - apply elem_of_cons in Hin as [->|Hin].
    + exists a, b. set_solver.
    + destruct (IH Hin) as (x & y & ? & ? & -> & ?). exists x, y.
      rewrite !elem_of_cons. auto 10.
Qed.

(** ** Lemmas: layers *)

Lemma half_up_le n f : (1 < n)%nat → (n <= S (S f))%nat → ((n + 1) / 2 <= S f)%nat.
Proof. intros. apply Nat.lt_succ_r, Nat.Div0.div_lt_upper_bound. lia. Qed.

Lemma half_up_pos n : (1 <= n)%nat → (1 <= (n + 1) / 2)%nat.
Proof. intros. apply Nat.div_le_lower_bound; lia. Qed.

Lemma log2_up_half n : (1 < n)%nat → Nat.log2_up n = S (Nat.log2_up ((n + 1) / 2)).
Proof.
  intros Hn. destruct (Nat.Even_or_Odd n) as [[k ->]|[k ->]].
  - replace (2 * k + 1)%nat with (1 + k * 2)%nat by lia.
    rewrite Nat.div_add by lia. rewrite Nat.log2_up_double by lia. done.
  - replace (2 * k + 1 + 1)%nat with ((k + 1) * 2)%nat by lia.
    rewrite Nat.div_mul by lia. rewrite Nat.log2_up_succ_double by lia.
    rewrite (Nat.log2_up_eqn (k + 1)) by lia. by rewrite Nat.add_1_r.
Qed.

Lemma proof_loop_cons hs l lys i :
  proof_loop (hs :: l :: lys) i =
  (s ← sibling hs i; p ← proof_loop (l :: lys) (i / 2)%nat; Ok (s :: p)).
Proof. done. Qed.

(** Fuel equal to the number of leaves is enough: the loop ends with one root,
    and the path of siblings from any node folds to it. *)
Lemma buildLayers_loop_spec fuel hs :
  (1 <= length hs <= S fuel)%nat →
  ∃ root, last (buildLayers_loop fuel hs) = Some [root] ∧
    length (buildLayers_loop fuel hs) = S (Nat.log2_up (length hs)) ∧
    ∀ i h, hs !! i = Some h →
      ∃ p, proof_loop (buildLayers_loop fuel hs) i = Ok p ∧ fold_left hashPair p h = root ∧
           length p = Nat.log2_up (length hs).
Proof.
  revert hs. induction fuel as [|f IH]; intros hs Hlen; cbn [buildLayers_loop].
  - destruct hs as [|r [|? ?]]; cbn in Hlen; try lia. exists r. repeat split.
    intros [|i] h Hi; [|done]. injection Hi as ->. by exists [].
  - destruct (Nat.ltb_spec 1 (length hs)) as [Hl|Hl].
    + destruct (IH (hashLevel hs)) as (root & Hlast & Hn & Hp).
      { rewrite length_hashLevel. split; [apply half_up_pos; lia|].
        apply half_up_le; lia. }
      exists root. rewrite length_hashLevel, <- log2_up_half in * by done.
      set (rest := buildLayers_loop f (hashLevel hs)) in *.
      destruct rest as [|l0 rest'] eqn:Er; [done|]. split; [exact Hlast|].
      split; [cbn [length] in *; lia|]. intros i h Hi.
      destruct (hashLevel_parent hs i h Hi) as (s & Hs & Hpar).
      destruct (Hp _ _ Hpar) as (p & Hp1 & Hp2 & Hp3). exists (s :: p).
      rewrite proof_loop_cons, Hs. cbn [mbind result_bind].
      rewrite Hp1. split; [done|]. split; [done|].
      rewrite (log2_up_half (length hs)) by done. cbn [length]. by rewrite Hp3.
    + destruct hs as [|r [|? ?]]; cbn in Hlen, Hl; try lia. exists r. repeat split.
      intros [|i] h Hi; [|done]. injection Hi as ->. by exists [].
Qed.

(** The nodes over the leaf hashes [hs] whose pairs are hashed inputs of [I]. *)
Inductive node (I hs : list bytes) : bytes → Prop :=
  | node_leaf h : h ∈ hs → node I hs h
  | node_inner a b :
      hashPair_input a b ∈ I → node I hs a → node I hs b → node I hs (hashPair a b).

Lemma node_mono I I' hs hs' h :
  I ⊆ I' → (∀ x, x ∈ hs → node I' hs' x) → node I hs h → node I' hs' h.
Proof. intros HI Hsub. induction 1; [auto|constructor; [set_solver|done..]]. Qed.

Lemma last_layer_node fuel hs top r :
  last (buildLayers_loop fuel hs) = Some top → r ∈ top →
  node (buildLayers_loop fuel hs ≫= layer_inputs) hs r.
Proof.
  revert hs. induction fuel as [|f IH]; intros hs Hl Hr; cbn [buildLayers_loop] in Hl |- *.
  - destruct (1 <? length hs)%nat; injection Hl as ->; by constructor.
  - destruct (1 <? length hs)%nat eqn:En; [|injection Hl as ->; by constructor].
    assert (last (buildLayers_loop f (hashLevel hs)) = Some top) as Hl'.
    { by destruct f; cbn in *; destruct (1 <? length (hashLevel hs))%nat. }
    rewrite bind_cons. unfold layer_inputs at 1. rewrite En.
    eapply node_mono; [|intros x Hx|by apply IH]; [set_solver|].
    apply hashLevel_inv in Hx as (a & b & Ha & Hb & -> & Hi).
    apply node_inner; [set_solver|by constructor..].
Qed.

(** ** Lemmas: building *)

#[global] Instance makeLeaves_Proper : Proper ((≡ₚ) ==> (≡ₚ)) makeLeaves.
Proof. intros iter1 iter2 E. unfold makeLeaves. by rewrite E. Qed.

Lemma elem_makeLeaves iter leaf :
  leaf ∈ makeLeaves iter ↔
  (ClusterID leaf, EffectiveBalance leaf) ∈ iter ∧
  Hash leaf = HashLeaf (ClusterID leaf) (EffectiveBalance leaf).
Proof.
  unfold makeLeaves. rewrite list_elem_of_fmap. split.
  - intros ([id b] & -> & Hin). done.
  - intros [Hin Hh]. exists (ClusterID leaf, EffectiveBalance leaf).
    destruct leaf; cbn in *. by subst.
Qed.

Lemma length_makeLeaves iter : length (makeLeaves iter) = length iter.
Proof. apply length_fmap. Qed.

(** What every tree built from a non-empty list of leaves satisfies. *)
Lemma tree_of_leaves_spec ls :
  ls ≠ [] →
  ∃ t, tree_of_leaves ls = Ok t ∧ leaves t = ls ∧
    node (layers t ≫= layer_inputs) (Hash <$> ls) (Root t) ∧
    (∀ i h, (Hash <$> ls) !! i = Some h → ∃ p,
       match layers t with [] => Ok [] | lys => proof_loop lys i end = Ok p ∧
       verifyProof h p = Root t ∧ length p = Nat.log2_up (length ls)).
Proof.
  intros Hne. destruct ls as [|l0 [|l1 ls]]; [done| |].
  - eexists. split; [done|]. cbn. split; [done|]. split.
    { apply node_leaf. set_solver. }
    intros [|i] h Hi; [|done]. injection Hi as <-. by exists [].
  - remember (l0 :: l1 :: ls) as lvs eqn:El.
    assert (length (Hash <$> lvs) = length lvs) as Hlen by apply length_fmap.
    destruct (buildLayers_loop_spec (length lvs) (Hash <$> lvs))
      as (root & Hlast & _ & Hp); [subst; cbn in *; lia|].
    assert (tree_of_leaves lvs = Ok (mkTree root lvs (buildLayers lvs))) as ->.
    { subst lvs. unfold tree_of_leaves, buildLayers. by rewrite Hlast. }
    eexists. split; [done|]. cbn. split; [done|]. split.
    { eapply last_layer_node; [exact Hlast|set_solver]. }
    intros i h Hi. destruct (Hp i h Hi) as (p & H1 & H2 & H3).
    exists p. rewrite <- Hlen. unfold buildLayers.
    by destruct (length lvs), lvs.
Qed.

(** The root and the layers depend on the sequence of leaf hashes only. *)
Lemma tree_of_leaves_hashes ls1 ls2 t1 t2 :
  Hash <$> ls1 = Hash <$> ls2 → tree_of_leaves ls1 = Ok t1 → tree_of_leaves ls2 = Ok t2 →
  Root t1 = Root t2 ∧ layers t1 = layers t2.
Proof.
  intros E H1 H2.
  assert (length ls1 = length ls2) as Hlen.
  { by rewrite <- (length_fmap Hash ls1), E, length_fmap. }
  assert (buildLayers ls1 = buildLayers ls2) as Eb by (unfold buildLayers; by rewrite Hlen, E).
  destruct ls1 as [|a1 [|b1 ls1]], ls2 as [|a2 [|b2 ls2]]; try discriminate.
  - cbn in *. injection E as E. by simplify_eq.
  - unfold tree_of_leaves in *. rewrite Eb in H1. inv_ok.
    cbn. split; congruence.
Qed.

Lemma NewTree_in_may clusters : NewTree_may clusters (NewTree clusters).
Proof.
  exists (map_to_list clusters), (merge_sort leaf_le (makeLeaves (map_to_list clusters))).
  split; [done|]. split; [apply merge_sort_Permutation|].
  split; [apply (StronglySorted_merge_sort _)|].
  unfold NewTree, NewTree_iter. destruct (decide (clusters = ∅)) as [->|Hne]; [done|].
  destruct (map_to_list clusters) eqn:E; [|done].
  by apply map_to_list_empty_iff in E.
Qed.

Lemma NewTree_may_inv clusters r :
  NewTree_may clusters r → ∃ t, r = Ok t ∧
    leaves t ≡ₚ makeLeaves (map_to_list clusters) ∧ StronglySorted leaf_le (leaves t) ∧
    (clusters = ∅ ∧ t = mkTree (Keccak256 []) [] [] ∨
     clusters ≠ ∅ ∧ leaves t ≠ [] ∧ tree_of_leaves (leaves t) = Ok t).
Proof.
  intros (iter & ls & Hi & Hl & Hs & ->).
  assert (ls ≡ₚ makeLeaves (map_to_list clusters)) as Hp by (by rewrite Hl, Hi).
  destruct (decide (clusters = ∅)) as [->|Hne].
  { eexists. split; [done|]. rewrite map_to_list_empty. split; [done|].
    split; [constructor|]. by left. }
  assert (ls ≠ []) as Hls.
  { intros ->. symmetry in Hp. apply Permutation_nil_r in Hp. unfold makeLeaves in Hp.
    by apply fmap_nil_inv, map_to_list_empty_iff in Hp. }
  destruct (tree_of_leaves_spec ls Hls) as (t & Ht & Hlv & _ & _).
  exists t. rewrite Hlv. split; [done|]. split; [done|]. split; [done|]. right. auto.
Qed.

Lemma leaf_of_cluster clusters t leaf :
  NewTree_may clusters (Ok t) → leaf ∈ leaves t ↔
  clusters !! ClusterID leaf = Some (EffectiveBalance leaf) ∧
  Hash leaf = HashLeaf (ClusterID leaf) (EffectiveBalance leaf).
Proof.
  intros (t' & [= <-] & Hp & _ & _)%NewTree_may_inv.
  by rewrite Hp, elem_makeLeaves, elem_of_map_to_list.
Qed.

Lemma findLeaf_spec clusters t id bal :
  NewTree_may clusters (Ok t) → clusters !! id = Some bal →
  ∃ i, findLeaf t id = Some i ∧ leaves t !! i = Some (mkLeaf id bal (HashLeaf id bal)).
Proof.
  intros Ht Hid. unfold findLeaf.
  destruct (list_find (λ leaf, ClusterID leaf = id) (leaves t)) as [[i lf]|] eqn:E; cbn.
  - apply list_find_Some in E as (Hi & <- & _). exists i. split; [done|]. rewrite Hi.
    apply list_elem_of_lookup_2, (leaf_of_cluster clusters t lf Ht) in Hi as [Hl Hh].
    rewrite Hid in Hl. injection Hl as ->. rewrite <- Hh. by destruct lf.
  - apply list_find_None in E. exfalso. rewrite Forall_forall in E.
    refine (E (mkLeaf id bal (HashLeaf id bal)) _ eq_refl).
    by apply (leaf_of_cluster clusters t _ Ht).
Qed.

Lemma length_leaves clusters t : NewTree_may clusters (Ok t) → length (leaves t) = size clusters.
Proof.
  intros (t' & [= <-] & Hp & _ & _)%NewTree_may_inv.
  by rewrite Hp, length_makeLeaves, length_map_to_list.
Qed.

(** The client-side contract of [GetProof] on a cluster of the tree. *)
Lemma GetProof_verifies clusters t id bal :
  NewTree_may clusters (Ok t) → clusters !! id = Some bal →
  ∃ proof, GetProof t id = Ok proof ∧ verifyProof (HashLeaf id bal) proof = Root t ∧
    length proof = Nat.log2_up (size clusters).
Proof.
  intros Ht Hid. destruct (findLeaf_spec clusters t id bal Ht Hid) as (i & Hf & Hi).
  rewrite <- (length_leaves clusters t Ht). unfold GetProof. rewrite Hf.
  destruct (NewTree_may_inv clusters _ Ht) as (t' & [= <-] & _ & _ & [[-> ->]|(_ & Hne & Htl)]).
  { done. }
  destruct (tree_of_leaves_spec (leaves t) Hne) as (t' & Ht' & _ & _ & Hp).
  rewrite Htl in Ht'. injection Ht' as <-.
  apply (Hp i). by rewrite list_lookup_fmap, Hi.
Qed.

Lemma GetProof_absent clusters t id :
  NewTree_may clusters (Ok t) → clusters !! id = None →
  GetProof t id = Err (EText ("cluster " +:+ hex_encode id +:+ " not found")).
Proof.
  intros Ht Hid. unfold GetProof, findLeaf.
  destruct (list_find _ _) as [[i lf]|] eqn:E; cbn; [|done].
  apply list_find_Some in E as (Hi & <- & _).
  apply list_elem_of_lookup_2, (leaf_of_cluster clusters t lf Ht) in Hi as [Hl _]. congruence.
Qed.

(** ** Lemmas: collisions *)

Lemma same_digest I x y :
  x ∈ I → y ∈ I → Keccak256 x = Keccak256 y → x = y ∨ collides_in I.
Proof.
  intros Hx Hy E. destruct (decide (x = y)) as [|Hne]; [by left|]. right. by exists x, y.
Qed.

Lemma hashPair_digest a b : hashPair a b = Keccak256 (hashPair_input a b).
Proof. unfold hashPair, hashPair_input. by destruct (bytes_compare a b). Qed.

Lemma length_hashPair_input a b : length (hashPair_input a b) = 64%nat.
Proof.
  unfold hashPair_input.
  destruct (bytes_compare a b); by rewrite length_app, !length_to_array.
Qed.

Lemma hashPair_input_inj a b c d :
  length a = 32%nat → length b = 32%nat → length c = 32%nat → length d = 32%nat →
  hashPair_input a b = hashPair_input c d → a = c ∨ a = d.
Proof.
  intros Ha Hb Hc Hd. unfold hashPair_input.
  destruct (bytes_compare a b), (bytes_compare c d); rewrite !to_array_id by done;
    (intros [-> ->]%app_inj_1; [|congruence]); auto.
Qed.

Lemma hashPair_collide I a b c d :
  length a = 32%nat → length b = 32%nat → length c = 32%nat → length d = 32%nat →
  hashPair_input a b ∈ I → hashPair_input c d ∈ I →
  hashPair a b = hashPair c d → a = c ∨ a = d ∨ collides_in I.
Proof.
  intros Ha Hb Hc Hd Hi Hj. rewrite !hashPair_digest.
  intros [E|]%(same_digest I); auto.
  apply hashPair_input_inj in E; tauto.
Qed.

(** A 64-byte preimage cannot share its digest with one of another length. *)
Lemma hashPair_not_digest I a b x :
  hashPair_input a b ∈ I → x ∈ I →
  length x ≠ 64%nat → hashPair a b = Keccak256 x → collides_in I.
Proof.
  intros Hi Hj Hx. rewrite hashPair_digest. intros [E|]%(same_digest I); auto.
  by rewrite <- E, length_hashPair_input in Hx.
Qed.

Lemma HashLeaf_inj `{!CryptoLaws} I id1 b1 id2 b2 :
  leaf_inputs id1 b1 ⊆ I → leaf_inputs id2 b2 ⊆ I →
  length id1 = 32%nat → length id2 = 32%nat → is_uint 32 b1 → is_uint 32 b2 →
  HashLeaf id1 b1 = HashLeaf id2 b2 → (id1 = id2 ∧ b1 = b2) ∨ collides_in I.
Proof.
  intros Hi Hj H1 H2 H3 H4 E. unfold HashLeaf, leaf_inputs in *.
  apply (same_digest I) in E as [E|]; [|by right|set_solver..].
  apply (same_digest I) in E as [E|]; [|by right|set_solver..]. left. by apply leafABI_Pack_inj.
Qed.

Lemma length_hashPair `{!CryptoLaws} a b : length (hashPair a b) = 32%nat.
Proof. rewrite hashPair_digest. apply Keccak256_length. Qed.

Lemma length_HashLeaf `{!CryptoLaws} id b : length (HashLeaf id b) = 32%nat.
Proof. apply Keccak256_length. Qed.

Lemma length_verifyProof `{!CryptoLaws} h p :
  length h = 32%nat → length (verifyProof h p) = 32%nat.
Proof.
  revert h. induction p as [|s p IH]; intros h Hh; [done|]. apply IH, length_hashPair.
Qed.

Lemma path_inputs_app h p q :
  path_inputs h (p ++ q) = path_inputs h p ++ path_inputs (verifyProof h p) q.
Proof.
  revert h. induction p as [|s p IH]; intros h; [done|].
  cbn [app path_inputs]. by rewrite IH.
Qed.

(** [h] is the digest of a 32-byte input of [I], as the leaf hashes are. *)
Definition digest_in (I : list bytes) (h : bytes) : Prop :=
  ∃ y, h = Keccak256 y ∧ length y = 32%nat ∧ y ∈ I.

Lemma length_digest_in `{!CryptoLaws} I h : digest_in I h → length h = 32%nat.
Proof. intros (y & -> & _). apply Keccak256_length. Qed.

Lemma digest_in_leaf `{!CryptoLaws} I id b :
  leaf_inputs id b ⊆ I → digest_in I (HashLeaf id b).
Proof.
  intros HI. exists (Keccak256 (leafABI_Pack id b)). split; [done|].
  split; [apply Keccak256_length|]. apply HI. set_solver.
Qed.

(** Walking a proof down from any node ends in a leaf hash, or two of the hashed
    inputs collide; the length of the proof is not assumed. *)
Lemma path_from_node `{!CryptoLaws} I hs x p :
  (∀ h, h ∈ hs → digest_in I h) → digest_in I x →
  Forall (λ s, length s = 32%nat) p → path_inputs x p ⊆ I →
  node I hs (verifyProof x p) → x ∈ hs ∨ collides_in I.
Proof.
  intros Hhs Hx Hp HI. pose proof (length_digest_in I x Hx) as Hlx.
  assert (∀ n, node I hs n → length n = 32%nat) as Hn.
  { intros n [h Hh|a b _ _]; [|apply length_hashPair]. by eapply length_digest_in, Hhs. }
  induction p as [|s p IH] using rev_ind; intros Hnode.
  - inversion Hnode as [h Hh|a b Hi _ _ E]; [by left|]. right.
    destruct Hx as (y & -> & Hy & Hy'). cbn in E.
    apply (hashPair_not_digest I a b y); [done|done|lia|done].
  - apply Forall_app in Hp as [Hp Hs]. apply Forall_cons in Hs as [Hs _].
    rewrite path_inputs_app in HI. cbn [path_inputs] in HI.
    unfold verifyProof in Hnode. rewrite fold_left_app in Hnode. cbn in Hnode.
    fold (verifyProof x p) in Hnode. pose proof (length_verifyProof x p Hlx) as Hlv.
    assert (hashPair_input (verifyProof x p) s ∈ I) as Hin by set_solver.
    assert (path_inputs x p ⊆ I) as HI' by set_solver.
    inversion Hnode as [h Hh|a b Hi Ha Hb E].
    + destruct (Hhs _ Hh) as (y & E & Hy & Hy'). right.
      apply (hashPair_not_digest I (verifyProof x p) s y); [done|done|lia|done].
    + symmetry in E. apply (hashPair_collide I) in E; auto.
      destruct E as [<-|[<-|?]]; auto.
Qed.

(** No proof leads to the root of the empty tree. *)
Lemma empty_tree_path `{!CryptoLaws} I x p :
  [] ∈ I → digest_in I x → path_inputs x p ⊆ I →
  verifyProof x p = Keccak256 [] → collides_in I.
Proof.
  intros Hnil (y & -> & Hy & Hyi) HI Hv. destruct p as [|s p _] using rev_ind.
  - apply (same_digest I) in Hv as [->|]; done.
  - rewrite path_inputs_app in HI. cbn [path_inputs] in HI.
    unfold verifyProof in Hv. rewrite fold_left_app in Hv. cbn [fold_left] in Hv.
    fold (verifyProof (Keccak256 y) p) in Hv.
    by apply (hashPair_not_digest I) in Hv; [|set_solver|done|done].
Qed.

(** The leaves and the pairs of a tree are among the inputs that were hashed. *)
Lemma tree_inputs_incl t :
  leaves t ≠ [] →
  (∀ leaf, leaf ∈ leaves t →
     leaf_inputs (ClusterID leaf) (EffectiveBalance leaf) ⊆ tree_inputs t) ∧
  (layers t ≫= layer_inputs) ⊆ tree_inputs t.
Proof.
  intros Hne. unfold tree_inputs. destruct (leaves t) as [|l ls]; [done|]. split.
  - intros leaf Hl x Hx. apply elem_of_app. left. apply list_elem_of_bind.
    exists leaf. auto.
  - set_solver.
Qed.
End lemmas.

(** ** Properties *)

Section properties.
Context `{Crypto}.

(** C19: the tree does not depend on Go's unspecified map order nor on how the
    unstable sort orders equal hashes: every tree [NewTree] may build has the root
    and the layers of the reference tree (no run panics), and it is the very same
    tree when the leaf hashes of the clusters are pairwise distinct. *)
Theorem NewTree_deterministic clusters r :
  NewTree_may clusters r →
  ∃ t t0, r = Ok t ∧ NewTree clusters = Ok t0 ∧ Root t = Root t0 ∧ layers t = layers t0 ∧
    ((∀ i b j c, clusters !! i = Some b → clusters !! j = Some c →
                 HashLeaf i b = HashLeaf j c → i = j) → t = t0).
Proof.
  intros (t & -> & Hp & Hs & Ht)%NewTree_may_inv.
  destruct (NewTree_may_inv _ _ (NewTree_in_may clusters)) as (t0 & E0 & Hp0 & Hs0 & Ht0).
  exists t, t0. split; [done|]. split; [done|].
  destruct Ht as [[-> ->]|(Hne & _ & Ht)], Ht0 as [[? ->]|(? & _ & Ht0)]; [done..|].
  assert (leaves t ≡ₚ leaves t0) as Hpt by (by rewrite Hp, Hp0).
  pose proof (sorted_keys_unique Hash bytes_le _ _ Hs Hs0 Hpt) as Hk.
  destruct (tree_of_leaves_hashes _ _ _ _ Hk Ht Ht0) as [HR HL].
  split; [done|]. split; [done|]. intros Hinj.
  enough (leaves t = leaves t0) as El by (rewrite El in Ht; congruence).
  refine (sorted_by_unique Hash bytes_le _ _ _ Hs Hs0 Hpt).
  intros x y. rewrite Hp, !elem_makeLeaves, !elem_of_map_to_list.
  intros [Hx Ex] [Hy Ey] E. rewrite Ex, Ey in E. pose proof (Hinj _ _ _ _ Hx Hy E) as Ei.
  destruct x, y; cbn in *. by simplify_eq.
Qed.

(** C20: for every cluster of the map the tree yields a proof, the OpenZeppelin
    verification of the cluster's leaf along it returns the root, and the proof has
    exactly ceil(log2 n) siblings. *)
Theorem GetProof_complete clusters t id bal :
  NewTree_may clusters (Ok t) → clusters !! id = Some bal →
  ∃ proof, GetProof t id = Ok proof ∧ verifyProof (HashLeaf id bal) proof = Root t ∧
    length proof = Nat.log2_up (size clusters).
Proof. apply GetProof_verifies. Qed.

(** C4: nothing else can be proved against the root.  A proof of any length that
    verifies for (id, bal) means that the map gives [id] that balance, unless two
    different inputs among the finitely many that building the tree and checking
    the proof hash have the same Keccak digest ([tree_inputs], [proof_inputs]):
    leaves are hashed twice, so inner nodes cannot be passed off as leaves. *)
Theorem proof_sound `{!CryptoLaws} clusters t id bal proof :
  NewTree_may clusters (Ok t) →
  (∀ i b, clusters !! i = Some b → length i = 32%nat ∧ is_uint 32 b) →
  length id = 32%nat → is_uint 32 bal → Forall (λ s, length s = 32%nat) proof →
  verifyProof (HashLeaf id bal) proof = Root t →
  clusters !! id = Some bal ∨ collides_in (tree_inputs t ++ proof_inputs id bal proof).
Proof.
  intros Ht Hcl Hid Hbal Hp Hv. set (I := tree_inputs t ++ proof_inputs id bal proof).
  assert (leaf_inputs id bal ⊆ I ∧ path_inputs (HashLeaf id bal) proof ⊆ I) as [HIl HIp].
  { subst I. unfold proof_inputs. set_solver. }
  pose proof (digest_in_leaf I id bal HIl) as Hleaf.
  destruct (NewTree_may_inv clusters _ Ht) as (t' & [= <-] & _ & _ & [[-> ->]|(_ & Hne & Htl)]).
  { right. by apply (empty_tree_path I (HashLeaf id bal) proof); [set_solver|..]. }
  destruct (tree_of_leaves_spec (leaves t) Hne) as (t' & Ht' & _ & Hroot & _).
  rewrite Htl in Ht'. injection Ht' as <-. rewrite <- Hv in Hroot.
  destruct (tree_inputs_incl t Hne) as [HIls HIlys].
  assert (∀ h, h ∈ Hash <$> leaves t → ∃ i b, clusters !! i = Some b ∧ h = HashLeaf i b ∧
            leaf_inputs i b ⊆ I) as Hin.
  { intros h (leaf & -> & Hl)%list_elem_of_fmap.
    destruct (proj1 (leaf_of_cluster clusters t leaf Ht) Hl) as [Hc Hh].
    exists (ClusterID leaf), (EffectiveBalance leaf). split; [done|]. split; [done|].
    specialize (HIls leaf Hl). set_solver. }
  apply (node_mono _ I _ (Hash <$> leaves t)) in Hroot; [|set_solver|by constructor].
  apply path_from_node in Hroot as [Hx|]; [|by right| |done..].
  - destruct (Hin _ Hx) as (i & b & Hl & E & Hi). destruct (Hcl _ _ Hl).
    apply (HashLeaf_inj I) in E as [[-> ->]|]; auto.
  - intros h (i & b & _ & -> & Hi)%Hin. by apply digest_in_leaf.
Qed.

(** A cluster outside the map gets the error, never a proof. *)
Theorem GetProof_missing clusters t id :
  NewTree_may clusters (Ok t) → clusters !! id = None →
  GetProof t id = Err (EText ("cluster " +:+ hex_encode id +:+ " not found")).
Proof. apply GetProof_absent. Qed.
End properties.

(** ** Witnesses on the golden vector of src/merkle/golden_test.go *)

Definition golden_id (n : Z) : bytes := be_bytes 32 n.

Definition golden_clusters : gmap bytes Z :=
  {[ golden_id 1 := 32; golden_id 2 := 64 ]}.

(** The tree of the two golden clusters, evaluated. *)
Definition golden_tree : Tree :=
  let l1 := mkLeaf (golden_id 1) 32 (HashLeaf (golden_id 1) 32) in
  let l2 := mkLeaf (golden_id 2) 64 (HashLeaf (golden_id 2) 64) in
  mkTree (hashPair (Hash l2) (Hash l1)) [l2; l1]
    [[Hash l2; Hash l1]; [hashPair (Hash l2) (Hash l1)]].

(** The root, the leaf hashes and the proofs are those of golden_test.go. *)
Example golden_root :
  be_value (Root golden_tree) =
    0xdeebf47271c6875e1487fbba2d3f982b35d883ce213b7dceb4139765ac2821c7 ∧
  be_value <$> (Hash <$> Leaves golden_tree) =
    [0xa423cb0da1ad54d486070305ffce6a6469821ec5d45850764860bede0ee3a70d;
     0xa705cc086e204a80e7ca233181d1a0107b3a78ca619149dde90edd19aa2cfce6] ∧
  be_value (Keccak256 []) =
    0xc5d2460186f7233c927e7db2dcc703c0e500b653ca82273b7bfad8045d85a470.
Proof. vm_compute. done. Qed.

Lemma golden_built : NewTree golden_clusters = Ok golden_tree.
Proof. vm_compute. done. Qed.

Lemma golden_may : NewTree_may golden_clusters (Ok golden_tree).
Proof. rewrite <- golden_built. apply NewTree_in_may. Qed.

Lemma NewTree_deterministic_witness :
  ∃ t t0, Ok golden_tree = Ok t ∧ NewTree golden_clusters = Ok t0 ∧ Root t = Root t0 ∧
    layers t = layers t0 ∧
    ((∀ i b j c, golden_clusters !! i = Some b → golden_clusters !! j = Some c →
                 HashLeaf i b = HashLeaf j c → i = j) → t = t0).
Proof. apply (NewTree_deterministic golden_clusters (Ok golden_tree)), golden_may. Defined.

Lemma GetProof_complete_witness :
  ∃ proof, GetProof golden_tree (golden_id 1) = Ok proof ∧
    verifyProof (HashLeaf (golden_id 1) 32) proof = Root golden_tree ∧
    length proof = Nat.log2_up (size golden_clusters).
Proof.
  apply (GetProof_complete golden_clusters golden_tree (golden_id 1) 32 golden_may).
  vm_compute. done.
Defined.

Lemma golden_wf i b : golden_clusters !! i = Some b → length i = 32%nat ∧ is_uint 32 b.
Proof.
  unfold golden_clusters. intros [[<- <-]|[_ [<- <-]%lookup_singleton_Some]]%lookup_insert_Some;
    (split; [apply length_be_bytes|unfold is_uint; lia]).
Qed.

Lemma proof_sound_witness :
  golden_clusters !! golden_id 1 = Some 32 ∨
  collides_in (tree_inputs golden_tree ++
               proof_inputs (golden_id 1) 32 [HashLeaf (golden_id 2) 64]).
Proof.
  apply (proof_sound golden_clusters golden_tree (golden_id 1) 32
           [HashLeaf (golden_id 2) 64] golden_may golden_wf);
    [apply length_be_bytes|unfold is_uint; lia| |vm_compute; done].
  constructor; [apply length_HashLeaf|constructor].
Defined.

(** The second alternative is excluded there: none of the hashed inputs collide. *)
Lemma collides_in_spec `{Crypto} I :
  Forall (λ x, Forall (λ y, Keccak256 x = Keccak256 y → x = y) I) I → ¬ collides_in I.
Proof.
  intros HI (x & y & Hx & Hy & Hne & E). rewrite Forall_forall in HI.
  pose proof (HI x Hx) as Hx'. rewrite Forall_forall in Hx'. by apply Hne, Hx'.
Qed.

Example golden_no_collision :
  ¬ collides_in (tree_inputs golden_tree ++
                 proof_inputs (golden_id 1) 32 [HashLeaf (golden_id 2) 64]).
Proof.
  apply collides_in_spec. refine (bool_decide_unpack _ _). vm_compute. done.
Qed.

Lemma GetProof_missing_witness :
  GetProof golden_tree (golden_id 3) =
  Err (EText ("cluster " +:+ hex_encode (golden_id 3) +:+ " not found")).
Proof.
  apply (GetProof_missing golden_clusters golden_tree (golden_id 3) golden_may).
  vm_compute. done.
Defined.
