(* ===== verification/Schedule.v ===== *)
(** * oracle: the commit schedule (src/oracle/phase.go)

    Epochs and intervals are uint64: every sum and product below is reduced
    modulo 2^64 as in Go, and the theorems state when no reduction happens.

    The specification is the set of targets of a schedule, [is_target]: a phase
    contributes its start and every later multiple of its interval, up to the
    start of the next phase. *)

From S2P Require Import Prelude.

#[local] Open Scope go_scope.

(** ** Data and operations *)

Record CommitPhase := mkPhase {
  StartEpoch : Z;
  Interval : Z;
}.

Abbreviation CommitSchedule := (list CommitPhase).

Definition TargetAt (p : CommitPhase) (round : Z) : Z :=
  StartEpoch p +u64 (round *u64 Interval p).

Definition errAtLeastOne : error := EText "commit_phases: at least one phase required".
Definition errIntervalZero : error := EText "commit_phases: interval must be > 0".
Definition errUnsorted : error :=
  EText "commit_phases: phases must be sorted by start_epoch ascending".
Definition errMisaligned : error :=
  EText "commit_phases: start_epoch must align with previous phase interval".

(** The body of the [Validate] loop; [prev] is [s[i-1]] when [i > 0]. *)
Definition validate_phase (prev : option CommitPhase) (p : CommitPhase) : result unit :=
  if Interval p =? 0 then Err errIntervalZero
  else match prev with
  | None => Ok tt
  | Some prev =>
      if StartEpoch p <=? StartEpoch prev then Err errUnsorted
      else if negb ((StartEpoch p -u64 StartEpoch prev) mod Interval prev =? 0)
      then Err errMisaligned
      else Ok tt
  end.

Fixpoint validate_loop (prev : option CommitPhase) (s : CommitSchedule) : result unit :=
  match s with
  | [] => Ok tt
  | p :: s' => _ ← validate_phase prev p; validate_loop (Some p) s'
  end.

Definition Validate (s : CommitSchedule) : result unit :=
  match s with
  | [] => Err errAtLeastOne
  | _ => validate_loop None s
  end.

(** The last phase that has started; [s[0]] (which panics on an empty schedule)
    when none has. *)
Definition PhaseAt (s : CommitSchedule) (epoch : Z) : result CommitPhase :=
  match find (λ p, StartEpoch p <=? epoch) (rev s) with
  | Some p => Ok p
  | None => from_option_panic (head s)
  end.

(** Division by a zero interval panics. *)
Definition NextTarget (s : CommitSchedule) (epoch : Z) : result Z :=
  phase ← PhaseAt s epoch;
  if epoch <? StartEpoch phase then Ok (StartEpoch phase)
  else if Interval phase =? 0 then Panic
  else
    let round := (epoch -u64 StartEpoch phase) / Interval phase in
    Ok (TargetAt phase (round +u64 1)).

(** ** Specification *)

(** The phases fit in uint64. *)
Definition phase_ok (p : CommitPhase) : Prop :=
  is_uint 64 (StartEpoch p) ∧ is_uint 64 (Interval p).

(** [t] is the [k]-th target of the [i]-th phase, before the next one starts. *)
Definition is_target (s : CommitSchedule) (t : Z) : Prop :=
  ∃ i p k, s !! i = Some p ∧ 0 <= k ∧ t = StartEpoch p + k * Interval p ∧
    ∀ q, s !! S i = Some q → t < StartEpoch q.

(** What [Validate] accepts: consecutive phases. *)
Definition linked (p q : CommitPhase) : Prop :=
  StartEpoch p < StartEpoch q ∧ (Interval p | StartEpoch q - StartEpoch p).

Definition schedule_wf (s : CommitSchedule) : Prop :=
  s ≠ [] ∧ (∀ p, p ∈ s → 0 < Interval p) ∧
  (∀ i p q, s !! i = Some p → s !! S i = Some q → linked p q).

(** ** Lemmas: validation *)

Lemma validate_phase_ok prev p :
  phase_ok p → (∀ q, prev = Some q → phase_ok q ∧ 0 < Interval q) →
  validate_phase prev p = Ok tt ↔
  0 < Interval p ∧ ∀ q, prev = Some q → linked q p.
Proof.
  intros [Hs Hi] Hprev. unfold validate_phase, is_uint in *.
  destruct (Z.eqb_spec (Interval p) 0) as [E|E]; [naive_solver lia|].
  destruct prev as [q|]; [|naive_solver lia].
  destruct (Hprev q eq_refl) as [[Hqs Hqi] Hq0]. unfold is_uint, linked in *.
  destruct (Z.leb_spec (StartEpoch p) (StartEpoch q)) as [Hle|Hlt].
  { split; [done|]. intros [_ H]. specialize (H q eq_refl). lia. }
  rewrite wrapU_small by lia.
  destruct (Z.eqb_spec ((StartEpoch p - StartEpoch q) mod Interval q) 0) as [Em|Em]; cbn.
  - split; [|done]. intros _. split; [lia|]. intros q' [= <-]. split; [lia|].
    by apply Z.mod_divide; [lia|].
  - split; [done|]. intros [_ H]. destruct (H q eq_refl) as [_ Hd].
    by apply Z.mod_divide in Hd; [|lia].
Qed.

Lemma validate_loop_ok prev s :
  Forall phase_ok s → (∀ q, prev = Some q → phase_ok q ∧ 0 < Interval q) →
  validate_loop prev s = Ok tt ↔
  (∀ p, p ∈ s → 0 < Interval p) ∧
  (∀ q p, prev = Some q → head s = Some p → linked q p) ∧
  (∀ i p q, s !! i = Some p → s !! S i = Some q → linked p q).
Proof.
  revert prev. induction s as [|p s IH]; intros prev Hs Hprev.
  { cbn. split; [|done]. intros _. repeat split; try done. intros ? ?%elem_of_nil. done. }
  apply Forall_cons in Hs as [Hp Hs]. cbn [validate_loop]. rewrite bind_Ok.
  assert ((∃ u : unit, validate_phase prev p = Ok u ∧ validate_loop (Some p) s = Ok tt) ↔
          validate_phase prev p = Ok tt ∧ validate_loop (Some p) s = Ok tt) as ->.
  { split; [intros ([] & ? & ?)|intros [? ?]; exists tt]; auto. }
  rewrite validate_phase_ok by done. split.
  - intros [[Hi Hl] Hv]. apply IH in Hv as (H1 & H2 & H3); [|done|naive_solver].
    split; [|split].
    + intros q [->|Hq]%elem_of_cons; auto.
    + intros q p' -> [= <-]. by apply Hl.
    + intros [|i] a b; cbn; [|by apply H3]. intros [= <-] Hb. apply (H2 p b eq_refl).
      by destruct s.
  - intros (H1 & H2 & H3). assert (0 < Interval p) as Hi by (apply H1; left).
    split; [split; [done|naive_solver]|]. apply IH; [done|naive_solver|].
    split; [|split].
    + intros q Hq. apply H1. by right.
    + intros q b [= <-] Hb. apply (H3 0%nat); [done|]. by destruct s.
    + intros i a b Ha Hb. by apply (H3 (S i)).
Qed.

Lemma Validate_wf s : Forall phase_ok s → Validate s = Ok tt ↔ schedule_wf s.
Proof.
  intros Hs. unfold schedule_wf. destruct s as [|p s]; [naive_solver|].
  unfold Validate. rewrite validate_loop_ok by done. naive_solver.
Qed.

(** ** Lemmas: phases *)

Section wf.
Variable s : CommitSchedule.
Hypothesis Hwf : schedule_wf s.

Lemma start_increasing i j p q :
  s !! i = Some p → s !! j = Some q → (i < j)%nat → StartEpoch p < StartEpoch q.
Proof.
  destruct Hwf as (_ & _ & Hl). intros Hi Hj Hlt. revert q Hj.
  induction Hlt as [|j Hlt IH]; intros q Hj.
  - by destruct (Hl _ _ _ Hi Hj).
  - destruct (lookup_lt_is_Some_2 s j) as [r Hr].
    { apply lookup_lt_Some in Hj. lia. }
    destruct (Hl _ _ _ Hr Hj) as [? _]. specialize (IH _ Hr). lia.
Qed.

Lemma find_rev_spec {A} (f : A → bool) l x :
  find f (rev l) = Some x →
  ∃ i, l !! i = Some x ∧ f x = true ∧ ∀ j y, l !! j = Some y → (i < j)%nat → f y = false.
Proof.
  induction l as [|a l IH] using rev_ind; [done|].
  rewrite rev_unit. cbn. destruct (f a) eqn:E.
  - intros [= <-]. exists (length l). rewrite list_lookup_middle by done.
    repeat split; [done|]. intros j y Hj Hlt. apply lookup_lt_Some in Hj.
    rewrite length_app in Hj. cbn in Hj. lia.
  - intros H. destruct (IH H) as (i & Hi & Hf & Hj). exists i.
    pose proof (lookup_lt_Some _ _ _ Hi). rewrite lookup_app_l by done.
    repeat split; [done..|]. intros j y Hy Hlt.
    apply lookup_app_Some in Hy as [Hy|[Hge Hy]]; [eauto|].
    by apply list_lookup_singleton_Some in Hy as [_ <-].
Qed.

(** [PhaseAt]: the phase in force at [epoch], or the first one before it starts. *)
Lemma PhaseAt_spec epoch :
  ∃ i p, PhaseAt s epoch = Ok p ∧ s !! i = Some p ∧
    (StartEpoch p <= epoch ∧ (∀ q, s !! S i = Some q → epoch < StartEpoch q) ∨
     i = 0%nat ∧ epoch < StartEpoch p).
Proof.
  unfold PhaseAt. destruct (find _ (rev s)) as [p|] eqn:E.
  - apply find_rev_spec in E as (i & Hi & Hf & Hlast). exists i, p.
    repeat split; [done..|]. left. split; [lia|]. intros q Hq.
    specialize (Hlast _ _ Hq (Nat.lt_succ_diag_r i)). lia.
  - destruct s as [|p s'] eqn:Es; [by destruct Hwf|]. exists 0%nat, p.
    repeat split. right. split; [done|].
    pose proof (find_none _ _ E p ltac:(apply in_rev; rewrite rev_involutive; by left)).
    cbn in *. lia.
Qed.
End wf.

(** The next multiple in a phase is still within the next phase's start. *)
Lemma round_up_spec start iv e :
  0 < iv → start <= e →
  let t := start + ((e - start) / iv + 1) * iv in
  e < t ∧ (∀ k, e < start + k * iv → t <= start + k * iv).
Proof.
  intros Hiv He t. unfold t. clear t.
  pose proof (Z.div_mod (e - start) iv ltac:(lia)) as Hd.
  pose proof (Z.mod_pos_bound (e - start) iv Hiv) as Hm. split; [nia|].
  intros k Hk. assert ((e - start) / iv < k) as Hlt; [|nia].
  apply Z.div_lt_upper_bound; nia.
Qed.

(** [NextTarget] after the schedule started, without machine arithmetic. *)
Lemma NextTarget_started s epoch p :
  PhaseAt s epoch = Ok p → StartEpoch p <= epoch → 0 < Interval p → phase_ok p →
  is_uint 64 epoch → epoch + Interval p < 2 ^ 64 →
  NextTarget s epoch =
    Ok (StartEpoch p + ((epoch - StartEpoch p) / Interval p + 1) * Interval p).
Proof.
  intros Hp Hle Hi [Hs _] He Ho. unfold NextTarget, is_uint in *. rewrite Hp.
  cbn [mbind result_bind].
  destruct (Z.ltb_spec epoch (StartEpoch p)); [lia|].
  destruct (Z.eqb_spec (Interval p) 0); [lia|]. f_equal. unfold TargetAt.
  pose proof (Z.div_mod (epoch - StartEpoch p) (Interval p) ltac:(lia)).
  pose proof (Z.mod_pos_bound (epoch - StartEpoch p) (Interval p) Hi).
  pose proof (Z.div_pos (epoch - StartEpoch p) (Interval p) ltac:(lia) Hi).
  assert (((epoch - StartEpoch p) / Interval p + 1) * Interval p
            <= epoch - StartEpoch p + Interval p) by nia.
  assert ((epoch - StartEpoch p) / Interval p <= epoch - StartEpoch p) by nia.
  rewrite (wrapU_small 64 (epoch - StartEpoch p)) by lia.
  rewrite (wrapU_small 64 (_ + 1)) by nia.
  rewrite (wrapU_small 64 (_ * _)) by nia.
  rewrite wrapU_small by lia. done.
Qed.

(** Where a target after [epoch] can be, [p] being the phase in force. *)
Lemma target_after s i p epoch t :
  schedule_wf s → s !! i = Some p → StartEpoch p <= epoch →
  (∀ q, s !! S i = Some q → epoch < StartEpoch q) →
  is_target s t → epoch < t →
  (∃ k, t = StartEpoch p + k * Interval p) ∨
  (∃ q, s !! S i = Some q ∧ StartEpoch q <= t).
Proof.
  intros Hwf Hi Hle Hnext (j & r & k & Hj & Hk & -> & Hb) Hgt.
  destruct Hwf as (Hne & Hiv & Hlink). assert (schedule_wf s) as Hwf by done.
  pose proof (Hiv r (list_elem_of_lookup_2 _ _ _ Hj)) as Hr.
  destruct (lt_eq_lt_dec i j) as [[Hij| ->]|Hji].
  - right. destruct (lookup_lt_is_Some_2 s (S i)) as [q Eq].
    { apply lookup_lt_Some in Hj. lia. }
    exists q. split; [done|]. destruct (decide (S i = j)) as [<-|Hn].
    + rewrite Eq in Hj. injection Hj as <-. nia.
    + pose proof (start_increasing s Hwf (S i) j q r Eq Hj ltac:(lia)). nia.
  - left. rewrite Hi in Hj. injection Hj as <-. by exists k.
  - destruct (lookup_lt_is_Some_2 s (S j)) as [q Eq].
    { apply lookup_lt_Some in Hi. lia. }
    specialize (Hb q Eq). destruct (decide (S j = i)) as [<-|Hn].
    + rewrite Eq in Hi. injection Hi as <-. lia.
    + pose proof (start_increasing s Hwf (S j) i q p Eq Hi ltac:(lia)). lia.
Qed.

(** A multiple of the interval that does not pass the next phase is a target:
    the next phase's start is its own first target. *)
Lemma multiple_is_target s i p k :
  schedule_wf s → s !! i = Some p → 0 <= k →
  (∀ q, s !! S i = Some q → StartEpoch p + k * Interval p <= StartEpoch q) →
  is_target s (StartEpoch p + k * Interval p).
Proof.
  intros (_ & _ & Hlink) Hi Hk Hq. destruct (s !! S i) as [q|] eqn:Eq.
  - specialize (Hq q eq_refl).
    destruct (Z.eq_dec (StartEpoch p + k * Interval p) (StartEpoch q)) as [E|E].
    + exists (S i), q, 0. repeat split; [done|lia|lia|].
      intros r Hr. destruct (Hlink _ _ _ Eq Hr). lia.
    + exists i, p, k. repeat split; [done..|]. intros q' Hq'.
      rewrite Eq in Hq'. injection Hq' as <-. lia.
  - exists i, p, k. repeat split; [done..|]. congruence.
Qed.

Lemma target_ge_first s p t :
  schedule_wf s → head s = Some p → is_target s t → StartEpoch p <= t.
Proof.
  intros Hwf Hp (j & r & k & Hj & Hk & -> & _).
  pose proof (proj1 (proj2 Hwf) r (list_elem_of_lookup_2 _ _ _ Hj)).
  destruct s as [|p' s]; [done|]. injection Hp as ->.
  destruct j as [|j]; [injection Hj as ->; nia|].
  pose proof (start_increasing (p :: s) Hwf 0 (S j) p r eq_refl Hj ltac:(lia)). nia.
Qed.

(** [NextTarget] is the least target strictly after the epoch. *)
Lemma NextTarget_least s epoch :
  Forall phase_ok s → Validate s = Ok tt → is_uint 64 epoch →
  (∀ p, p ∈ s → epoch + Interval p < 2 ^ 64) →
  ∃ t, NextTarget s epoch = Ok t ∧ epoch < t ∧ is_target s t ∧
    ∀ t', is_target s t' → epoch < t' → t <= t'.
Proof.
  intros Hok Hv He Ho. apply Validate_wf in Hv as Hwf; [|done].
  destruct (PhaseAt_spec s Hwf epoch) as (i & p & HP & Hi & Hcase).
  pose proof (list_elem_of_lookup_2 _ _ _ Hi) as Hin.
  pose proof (proj1 (Forall_forall _ _) Hok p Hin) as Hpok.
  pose proof (proj1 (proj2 Hwf) p Hin) as Hip.
  destruct Hcase as [[Hle Hnext]|[-> Hlt]].
  - pose proof (NextTarget_started s epoch p HP Hle Hip Hpok He (Ho p Hin)) as HN.
    destruct (round_up_spec (StartEpoch p) (Interval p) epoch Hip Hle) as [Hgt Hmin].
    pose proof (Z.div_pos (epoch - StartEpoch p) (Interval p) ltac:(lia) Hip).
    assert (∀ q, s !! S i = Some q → StartEpoch p +
      ((epoch - StartEpoch p) / Interval p + 1) * Interval p <= StartEpoch q) as Hq.
    { intros q Hq. destruct (proj2 (proj2 Hwf) _ _ _ Hi Hq) as [_ [c Hc]].
      specialize (Hnext q Hq).
      replace (StartEpoch q) with (StartEpoch p + c * Interval p) by lia. apply Hmin. lia. }
    eexists. split; [exact HN|]. split; [done|]. split.
    + apply (multiple_is_target s i p); auto with lia.
    + intros t' Ht' Hgt'.
      destruct (target_after s i p epoch t' Hwf Hi Hle Hnext Ht' Hgt')
        as [[k ->]|(q & Eq & Hqt)]; [by apply Hmin|]. specialize (Hq q Eq). lia.
  - exists (StartEpoch p). unfold NextTarget. rewrite HP. cbn [mbind result_bind].
    destruct (Z.ltb_spec epoch (StartEpoch p)); [|lia]. repeat split; [done| |].
    + rewrite <- (Z.add_0_r (StartEpoch p)), <- (Z.mul_0_l (Interval p)).
      apply (multiple_is_target s 0); [done..|]. intros q Hq.
      destruct (proj2 (proj2 Hwf) _ _ _ Hi Hq). lia.
    + intros t' Ht' _. by apply (target_ge_first s); [|destruct s|].
Qed.

(** ** Properties *)

(** C21: on a schedule [Validate] accepts, [NextTarget] returns, never panics, and
    its result is the least commit target strictly after [epoch]: across a phase
    change no target is skipped or invented.  The hypothesis on [epoch + Interval]
    is what keeps the uint64 arithmetic from wrapping. *)
Theorem NextTarget_is_next s epoch :
  Forall phase_ok s → Validate s = Ok tt → is_uint 64 epoch →
  (∀ p, p ∈ s → epoch + Interval p < 2 ^ 64) →
  ∃ t, NextTarget s epoch = Ok t ∧ epoch < t ∧ is_target s t ∧
    ∀ t', is_target s t' → epoch < t' → t <= t'.
Proof. apply NextTarget_least. Qed.

(** [Validate] accepts exactly the non-empty schedules whose intervals are
    positive and in which each phase starts later than the previous one, on one of
    its targets. *)
Theorem Validate_iff s :
  Forall phase_ok s → Validate s = Ok tt ↔ schedule_wf s.
Proof. apply Validate_wf. Qed.

(** The two phases of the example configuration. *)
Definition example_schedule : CommitSchedule := [mkPhase 0 225; mkPhase 900 450].

Lemma example_phases_ok : Forall phase_ok example_schedule.
Proof. repeat constructor; cbn; lia. Qed.

Lemma NextTarget_is_next_witness :
  ∃ t, NextTarget example_schedule 899 = Ok t ∧ 899 < t ∧ is_target example_schedule t ∧
    ∀ t', is_target example_schedule t' → 899 < t' → t <= t'.
Proof.
  apply (NextTarget_is_next example_schedule 899 example_phases_ok).
  - reflexivity.
  - unfold is_uint. lia.
  - intros p [->|[->|[]%elem_of_nil]%elem_of_cons]%elem_of_cons; cbn; lia.
Defined.

Lemma Validate_iff_witness :
  Validate example_schedule = Ok tt ↔ schedule_wf example_schedule.
Proof. apply (Validate_iff example_schedule example_phases_ok). Defined.
