(* ===== verification/Storage.v ===== *)
(** * storage: the SQLite store (src/storage/storage.go, src/storage/schema.sql)

    The tables are finite maps keyed by their primary keys; the constraints of
    schema.sql (foreign key with cascade, UNIQUE reference block) are checked by
    the operations that can violate them.

    Code runs in the monad [M]: it sees the database and a script of faults.
    Every statement, BEGIN and COMMIT first takes one entry of the script; an
    entry [Some e] makes it fail with [e] and change nothing (I/O error, lock
    timeout, cancelled context, a value the driver rejects).  Theorems quantify
    over the script. *)

From Stdlib Require Import Numbers.DecimalString Numbers.DecimalZ.
From S2P Require Import Prelude.

(** ** Data *)

Record ContractEvent := mkEvent {
  EventType : string;
  BlockNumber : Z;
  BlockHash : bytes;
  BlockTime : Z;
  TransactionHash : bytes;
  TransactionIndex : Z;
  LogIndex : Z;
  EventClusterID : option bytes;
  EventError : option string;
}.

Record ClusterRow := mkCluster {
  ClusterID : bytes;
  OwnerAddress : bytes;
  OperatorIDs : list Z;
  ValidatorCount : Z;
  NetworkFeeIndex : Z;
  Index : Z;
  IsActive : bool;
  Balance : Z;
}.

Record ActiveValidator := mkActive {
  av_ClusterID : bytes;
  ValidatorPubkey : bytes;
}.

Record ClusterBalance := mkBalance {
  cb_ClusterID : bytes;
  cb_EffectiveBalance : Z;
}.

Record ClusterInfo := mkInfo {
  ci_OwnerAddress : bytes;
  ci_OperatorIDs : list Z;
}.

Inductive CommitStatus := Pending | Confirmed | Failed.

#[global] Instance CommitStatus_eq_dec : EqDecision CommitStatus.
Proof. solve_decision. Defined.

Record OracleCommit := mkCommit {
  TargetEpoch : Z;
  MerkleRoot : bytes;
  ReferenceBlock : Z;
  ClusterBalances : list ClusterBalance;
  Status : CommitStatus;
  TxHash : option bytes;
}.

(** ** Columns *)

(** The JSON documents stored in TEXT columns, as values: [null] or an array. *)
Inductive ids_json := INull | IArr (l : list Z).

Inductive balances_json := BNull | BArr (l : list ClusterBalance).

(** The slices come from decoded events, where an empty one is not nil; a nil slice would be
    [null], which [decodeOperatorIDs] reads as the same. *)
Definition encodeOperatorIDs (ids : list Z) : ids_json := IArr ids.

(** A number outside uint64 is a decoding error. *)
Definition decodeOperatorIDs (data : ids_json) : result (list Z) :=
  match data with
  | INull => Ok []
  | IArr l =>
      if forallb (λ n, (0 <=? n) && (n <? 2 ^ 64)) l then Ok l
      else Err (EText "decode operator IDs")
  end.

(** [json.Marshal] of a nil slice (the only empty slice the callers pass) is
    [null]. *)
Definition marshal_balances (l : list ClusterBalance) : balances_json :=
  match l with [] => BNull | _ => BArr l end.

Definition unmarshal_balances (j : balances_json) : list ClusterBalance :=
  match j with BNull => [] | BArr l => l end.

Definition boolToInt (b : bool) : Z := if b then 1 else 0.

Definition intToBool (i : Z) : bool := negb (i =? 0).

(** [big.Int.String] and [big.Int.SetString(s, 10)]. *)
Definition big_String (z : Z) : string := NilZero.string_of_int (Z.to_int z).

Definition big_SetString (s : string) : option Z :=
  match s with
  | String "+" s' => (λ u, Z.of_int (Decimal.Pos u)) <$> NilZero.uint_of_string s'
  | _ => Z.of_int <$> NilZero.int_of_string s
  end.

Record cluster_cols := mkClusterCols {
  owner_address : bytes;
  operator_ids : ids_json;
  validator_count : Z;
  network_fee_index : Z;
  idx : Z;
  is_active : Z;
  balance : string;
}.

Record event_cols := mkEventCols {
  event_type : string;
  event_cluster_id : option bytes;
  block_hash : bytes;
  block_time : Z;
  transaction_hash : bytes;
  transaction_index : Z;
  event_error : option string;
}.

Record commit_cols := mkCommitCols {
  merkle_root : bytes;
  reference_block : Z;
  cluster_balances : option balances_json;
  status : CommitStatus;
  tx_hash : option bytes;
}.

Record DB := mkDB {
  chain_id : option Z;
  last_synced_block : Z;
  contract_events : gmap (Z * Z) event_cols;
  clusters : gmap bytes cluster_cols;
  validators : gset (bytes * bytes);
  oracle_commits : gmap Z commit_cols;
}.

(** The database after schema.sql was applied to a new file. *)
Definition schema : DB := mkDB None 0 ∅ ∅ ∅ ∅.

Definition set_chain_id (c : option Z) (d : DB) : DB :=
  mkDB c (last_synced_block d) (contract_events d) (clusters d) (validators d) (oracle_commits d).
Definition set_last_synced (b : Z) (d : DB) : DB :=
  mkDB (chain_id d) b (contract_events d) (clusters d) (validators d) (oracle_commits d).
Definition set_events (e : gmap (Z * Z) event_cols) (d : DB) : DB :=
  mkDB (chain_id d) (last_synced_block d) e (clusters d) (validators d) (oracle_commits d).
Definition set_clusters (c : gmap bytes cluster_cols) (d : DB) : DB :=
  mkDB (chain_id d) (last_synced_block d) (contract_events d) c (validators d) (oracle_commits d).
Definition set_validators (v : gset (bytes * bytes)) (d : DB) : DB :=
  mkDB (chain_id d) (last_synced_block d) (contract_events d) (clusters d) v (oracle_commits d).
Definition set_commits (c : gmap Z commit_cols) (d : DB) : DB :=
  mkDB (chain_id d) (last_synced_block d) (contract_events d) (clusters d) (validators d) c.

(** ** The monad of database code *)

Record World := mkWorld {
  db : DB;
  faults : list (option error);
}.

Abbreviation M := (io World).

(** Take the next entry of the fault script. *)
Definition next_fault : M unit := λ w,
  match faults w with
  | [] => (Ok tt, w)
  | None :: fs => (Ok tt, mkWorld (db w) fs)
  | Some e :: fs => (Err e, mkWorld (db w) fs)
  end.

(** One SQL statement: it reads and may replace the database, or fails. *)
Definition stmt {A} (f : DB → result (A * DB)) : M A := λ w,
  match next_fault w with
  | (Ok _, w') =>
      match f (db w') with
      | Ok (a, d) => (Ok a, mkWorld d (faults w'))
      | Err e => (Err e, w')
      | Panic => (Panic, w')
      end
  | (Err e, w') => (Err e, w')
  | (Panic, w') => (Panic, w')
  end.

Definition query {A} (f : DB → A) : M A := stmt (λ d, Ok (f d, d)).
Definition update (f : DB → DB) : M unit := stmt (λ d, Ok (tt, f d)).

(** BEGIN; body; COMMIT, with the deferred rollback: unless the commit succeeds
    the database is what it was. *)
Definition in_tx {A} (errBegin errCommit : string) (body : M A) : M A := λ w,
  match wrapM errBegin next_fault w with
  | (Ok _, w1) =>
      match body w1 with
      | (Ok a, w2) =>
          match wrapM errCommit next_fault w2 with
          | (Ok _, w3) => (Ok a, w3)
          | (Err e, w3) => (Err e, mkWorld (db w1) (faults w3))
          | (Panic, w3) => (Panic, mkWorld (db w1) (faults w3))
          end
      | (r, w2) => (r, mkWorld (db w1) (faults w2))
      end
  | (Err e, w1) => (Err e, w1)
  | (Panic, w1) => (Panic, w1)
  end.

(** ** Statements *)

Definition errBalance : error := EText "invalid balance value".

(** [scanClusterRow] on the row with key [id]. *)
Definition scanClusterRow (id : bytes) (c : cluster_cols) : result ClusterRow :=
  operatorIDs ← decodeOperatorIDs (operator_ids c);
  match big_SetString (balance c) with
  | None => Err errBalance
  | Some bal =>
      Ok (mkCluster id (owner_address c) operatorIDs (validator_count c)
            (network_fee_index c) (idx c) (intToBool (is_active c)) bal)
  end.

Definition cluster_columns (c : ClusterRow) : cluster_cols :=
  mkClusterCols (OwnerAddress c) (encodeOperatorIDs (OperatorIDs c)) (ValidatorCount c)
    (NetworkFeeIndex c) (Index c) (boolToInt (IsActive c)) (big_String (Balance c)).

Definition event_columns (e : ContractEvent) : event_cols :=
  mkEventCols (EventType e) (EventClusterID e) (BlockHash e) (BlockTime e)
    (TransactionHash e) (TransactionIndex e) (EventError e).

Definition GetChainID : M (option Z) := wrapM "get chain ID" (query chain_id).

Definition SetChainID (chainID : Z) : M unit :=
  wrapM "set chain ID" (update (set_chain_id (Some chainID))).

Definition GetLastSyncedBlock : M Z := wrapM "get last synced block" (query last_synced_block).

Definition updateLastSyncedBlock (blockNum : Z) : M unit :=
  wrapM "update last synced block" (update (set_last_synced blockNum)).

(** ON CONFLICT (block_number, log_index) DO NOTHING. *)
Definition put_event (event : ContractEvent) (d : DB) : DB :=
  let k := (BlockNumber event, LogIndex event) in
  match contract_events d !! k with
  | Some _ => d
  | None => set_events (<[k := event_columns event]> (contract_events d)) d
  end.

Definition insertEvent (event : ContractEvent) : M unit :=
  wrapM "insert event" (update (put_event event)).

(** ON CONFLICT (cluster_id) DO UPDATE of every other column. *)
Definition upsertCluster (cluster : ClusterRow) : M unit :=
  wrapM "upsert cluster" (update (λ d,
    set_clusters (<[ClusterID cluster := cluster_columns cluster]> (clusters d)) d)).

(** The foreign key deletes the cluster's validators with it. *)
Definition deleteCluster (clusterID : bytes) : M unit :=
  wrapM "delete cluster" (update (λ d,
    set_validators (filter (λ v, v.1 ≠ clusterID) (validators d))
      (set_clusters (delete clusterID (clusters d)) d))).

Definition PublicKeyLength : Z := 48.

Definition errPubkeyLength : error := EText "invalid validator pubkey length".
Definition errForeignKey : error := EText "FOREIGN KEY constraint failed".

(** ON CONFLICT DO NOTHING covers duplicates, not a missing cluster. *)
Definition insertValidator (clusterID pubkey : bytes) : M unit :=
  if negb (Z.of_nat (length pubkey) =? PublicKeyLength) then fail errPubkeyLength
  else wrapM "insert validator" (stmt (λ d,
    match clusters d !! clusterID with
    | None => Err errForeignKey
    | Some _ => Ok (tt, set_validators ({[ (clusterID, pubkey) ]} ∪ validators d) d)
    end)).

Definition deleteValidator (clusterID pubkey : bytes) : M unit :=
  wrapM "delete validator" (update (λ d,
    set_validators (validators d ∖ {[ (clusterID, pubkey) ]}) d)).

(** [nil] when the cluster is not stored. *)
Definition getClusterRow (clusterID : bytes) : M (option ClusterRow) :=
  wrapM "get cluster" (
    o ← query (λ d, clusters d !! clusterID);
    match o with
    | None => mret None
    | Some c => row ← lift (scanClusterRow clusterID c); mret (Some row)
    end).

(** Scan the rows of a result set in order; the first failure ends the scan. *)
Fixpoint scan_rows (rows : list (bytes * cluster_cols)) : result (list ClusterRow) :=
  match rows with
  | [] => Ok []
  | (id, c) :: rest =>
      row ← wrap "scan cluster row" (scanClusterRow id c);
      out ← scan_rows rest;
      Ok (row :: out)
  end.

(** SELECT ... WHERE cluster_id IN (ids), the rows in no particular order. *)
Definition queryClusterRowsBatch (ids : list bytes) : M (list ClusterRow) :=
  rows ← wrapM "query clusters"
    (query (λ d, filter (λ kv, kv.1 ∈ ids) (map_to_list (clusters d))));
  lift (scan_rows rows).

Definition clusterBatchSize : nat := 1000.

(** The chunked loop; each iteration drops [clusterBatchSize] identifiers. *)
Fixpoint clusterRows_loop (fuel : nat) (ids : list bytes) : M (list ClusterRow) :=
  match ids, fuel with
  | [], _ | _, O => mret []
  | _, S f =>
      batch ← queryClusterRowsBatch (take clusterBatchSize ids);
      rest ← clusterRows_loop f (drop clusterBatchSize ids);
      mret (batch ++ rest)
  end.

Definition getClusterRowsByIDs (ids : list bytes) : M (list ClusterRow) :=
  clusterRows_loop (length ids) ids.

(** Rows and cursor are read in one read-only transaction. *)
Definition GetFinalizedClusters (ids : list bytes) : M (list ClusterRow * Z) :=
  _ ← wrapM "begin read tx" next_fault;
  rows ← getClusterRowsByIDs ids;
  lastSynced ← wrapM "get last synced block" (query last_synced_block);
  mret (rows, lastSynced).

(** ORDER BY cluster_id, validator_pubkey (BLOBs compare like [bytes.Compare]). *)
Definition validator_le : relation (bytes * bytes) := λ a b,
  match bytes_compare a.1 b.1 with
  | Lt => True
  | Eq => bytes_le a.2 b.2
  | Gt => False
  end.

#[global] Instance validator_le_dec : RelDecision validator_le.
Proof. intros a b. unfold validator_le. destruct (bytes_compare _ _); apply _. Defined.

Definition active_in (d : DB) (v : bytes * bytes) : Prop :=
  is_active <$> clusters d !! v.1 = Some 1.

#[global] Instance active_in_dec d v : Decision (active_in d v).
Proof. unfold active_in. apply _. Defined.

Definition GetActiveValidators : M (list ActiveValidator) :=
  wrapM "query active validators" (query (λ d,
    (λ v, mkActive v.1 v.2) <$>
      merge_sort validator_le (filter (active_in d) (elements (validators d))))).

Definition errUniqueBlock : error :=
  EText "UNIQUE constraint failed: oracle_commits.reference_block".

(** ON CONFLICT (target_epoch) DO NOTHING; the UNIQUE reference block still
    rejects a second epoch with the same block. *)
Definition InsertPendingCommit (targetEpoch : Z) (merkleRoot : bytes) (referenceBlock : Z)
    (clusterBalances : list ClusterBalance) : M unit :=
  let balancesJSON := marshal_balances clusterBalances in
  wrapM "insert oracle commit" (stmt (λ d,
    match oracle_commits d !! targetEpoch with
    | Some _ => Ok (tt, d)
    | None =>
        if bool_decide (map_Exists (λ _ c, reference_block c = referenceBlock)
                          (oracle_commits d))
        then Err errUniqueBlock
        else Ok (tt, set_commits (<[targetEpoch :=
               mkCommitCols merkleRoot referenceBlock (Some balancesJSON) Pending None]>
               (oracle_commits d)) d)
    end)).

(** WHERE target_epoch = ? AND status = 'pending'. *)
Definition UpdateCommitStatus (targetEpoch : Z) (st : CommitStatus) (txHash : option bytes)
    : M unit :=
  wrapM "update commit status" (update (λ d,
    match oracle_commits d !! targetEpoch with
    | Some (mkCommitCols r b bal Pending h) =>
        let h' := match txHash with Some _ => txHash | None => h end in
        set_commits (<[targetEpoch := mkCommitCols r b bal st h']> (oracle_commits d)) d
    | _ => d
    end)).

Definition read_commit (epoch : Z) (c : commit_cols) : OracleCommit :=
  mkCommit epoch (merkle_root c) (reference_block c)
    (match cluster_balances c with None => [] | Some j => unmarshal_balances j end)
    (status c) (tx_hash c).

(** The row of the (unique) commit with that reference block. *)
Definition GetCommitByBlock (blockNum : Z) : M (option OracleCommit) :=
  wrapM "get commit" (query (λ d,
    (λ '(e, c), read_commit e c) <$>
      head (filter (λ kv, reference_block kv.2 = blockNum) (map_to_list (oracle_commits d))))).

(** An aggregate over the keys satisfying [P], NULL ([None]) when there is none. *)
Definition best_key (pick : Z → Z → Z) (P : Z → commit_cols → bool)
    (rows : list (Z * commit_cols)) : option Z :=
  foldr (λ '(k, c) acc,
    if P k c then Some (match acc with None => k | Some a => pick k a end) else acc) None rows.

(** MAX(target_epoch) and MIN(target_epoch). *)
Definition max_key (P : Z → commit_cols → bool) (m : gmap Z commit_cols) : option Z :=
  best_key Z.max P (map_to_list m).

Definition min_key (P : Z → commit_cols → bool) (m : gmap Z commit_cols) : option Z :=
  best_key Z.min P (map_to_list m).

Definition has_balances (c : commit_cols) : bool :=
  match cluster_balances c with Some _ => true | None => false end.

(** WHERE status = 'confirmed' AND cluster_balances IS NOT NULL
    ORDER BY target_epoch DESC LIMIT 1. *)
Definition GetLatestCommit : M (option OracleCommit) :=
  wrapM "get latest commit" (query (λ d,
    e ← max_key (λ _ c, bool_decide (status c = Confirmed) && has_balances c) (oracle_commits d);
    c ← oracle_commits d !! e;
    Some (read_commit e c))).

(** The commit of an epoch with the neighbouring stored epochs. *)
Definition GetCommitByEpoch (epoch : Z) : M (option (OracleCommit * option Z * option Z)) :=
  wrapM "get commit by epoch" (query (λ d,
    c ← oracle_commits d !! epoch;
    Some (read_commit epoch c,
          max_key (λ k _, k <? epoch) (oracle_commits d),
          min_key (λ k _, epoch <? k) (oracle_commits d)))).

Fixpoint info_loop (rows : list (bytes * cluster_cols)) (acc : gmap string ClusterInfo)
    : result (gmap string ClusterInfo) :=
  match rows with
  | [] => Ok acc
  | (id, c) :: rest =>
      ids ← decodeOperatorIDs (operator_ids c);
      info_loop rest (<[hex_encode id := mkInfo (owner_address c) ids]> acc)
  end.

Definition GetAllClusterInfo : M (gmap string ClusterInfo) :=
  rows ← wrapM "query cluster info" (query (λ d, map_to_list (clusters d)));
  lift (info_loop rows ∅).

(** The PRAGMAs change settings of the connection, no row; they may fail like any statement. *)
Definition SetSyncMode (bulk : bool) : M unit := next_fault.

(** The four DELETEs in order, the reset of the cursor, then COMMIT. *)
Definition ClearAllState : M unit :=
  in_tx "begin transaction" "commit" (
    _ ← wrapM "clear oracle_commits" (update (set_commits ∅));
    _ ← wrapM "clear validators" (update (set_validators ∅));
    _ ← wrapM "clear clusters" (update (λ d, set_validators ∅ (set_clusters ∅ d)));
    _ ← wrapM "clear contract_events" (update (set_events ∅));
    wrapM "reset sync progress" (update (λ d, set_last_synced 0 (set_chain_id None d)))).

(** ** Writers, and the databases they can produce *)

Inductive op :=
  | OSetChainID (c : Z)
  | OUpdateLastSyncedBlock (b : Z)
  | OInsertEvent (e : ContractEvent)
  | OUpsertCluster (r : ClusterRow)
  | ODeleteCluster (id : bytes)
  | OInsertValidator (id pk : bytes)
  | ODeleteValidator (id pk : bytes)
  | OInsertPendingCommit (e : Z) (root : bytes) (b : Z) (l : list ClusterBalance)
  | OUpdateCommitStatus (e : Z) (st : CommitStatus) (h : option bytes)
  | OClearAllState.

Definition run_op (o : op) : M unit :=
  match o with
  | OSetChainID c => SetChainID c
  | OUpdateLastSyncedBlock b => updateLastSyncedBlock b
  | OInsertEvent e => insertEvent e
  | OUpsertCluster r => upsertCluster r
  | ODeleteCluster id => deleteCluster id
  | OInsertValidator id pk => insertValidator id pk
  | ODeleteValidator id pk => deleteValidator id pk
  | OInsertPendingCommit e root b l => InsertPendingCommit e root b l
  | OUpdateCommitStatus e st h => UpdateCommitStatus e st h
  | OClearAllState => ClearAllState
  end.

(** Operator identifiers are Go uint64 values. *)
Definition row_ok (r : ClusterRow) : Prop := Forall (is_uint 64) (OperatorIDs r).

Definition op_ok (o : op) : Prop :=
  match o with OUpsertCluster r => row_ok r | _ => True end.

(** Databases reachable from the schema by the writers, under any faults. *)
Inductive reachable : DB → Prop :=
  | reachable_schema : reachable schema
  | reachable_op o d fs :
      reachable d → op_ok o → reachable (db (run_op o (mkWorld d fs)).2).

(** The stored row of a cluster, decoded. *)
Definition stored_row (d : DB) (id : bytes) : option ClusterRow :=
  match clusters d !! id with
  | Some c => match scanClusterRow id c with Ok r => Some r | _ => None end
  | None => None
  end.

Record db_ok (d : DB) : Prop := {
  ok_scan id c : clusters d !! id = Some c → ∃ r, scanClusterRow id c = Ok r ∧ row_ok r;
  ok_fk id pk : (id, pk) ∈ validators d →
    is_Some (clusters d !! id) ∧ Z.of_nat (length pk) = PublicKeyLength;
  ok_block e1 c1 e2 c2 : oracle_commits d !! e1 = Some c1 → oracle_commits d !! e2 = Some c2 →
    reference_block c1 = reference_block c2 → e1 = e2;
}.

(** What may happen to a stored commit: the root, the block and the balances never
    change, and once it is confirmed or failed nothing does. *)
Definition commit_le (c c' : commit_cols) : Prop :=
  merkle_root c' = merkle_root c ∧ reference_block c' = reference_block c ∧
  cluster_balances c' = cluster_balances c ∧ (status c ≠ Pending → c' = c).

Definition commits_le (d d' : DB) : Prop :=
  ∀ e c, oracle_commits d !! e = Some c → ∃ c', oracle_commits d' !! e = Some c' ∧ commit_le c c'.

(** ** Reasoning about database code *)

(** [moves R m]: whatever faults occur, [m] takes the database along [R]. *)
Definition moves {A} (R : relation DB) (m : M A) : Prop :=
  ∀ w, R (db w) (db (m w).2).

(** [I] is an invariant of [m]. *)
Abbreviation keeps I := (moves (λ d d', I d → I d')).

#[global] Instance inv_preorder (I : DB → Prop) : PreOrder (λ d d', I d → I d').
Proof. split; [by intros d|]. intros d1 d2 d3. auto. Qed.

Section moves.
Context (R : relation DB) `{!PreOrder R}.

Lemma moves_ret {A} (a : A) : moves R (mret a).
Proof. intros w. by cbn. Qed.

Lemma moves_fail {A} e : moves R (@fail World A e).
Proof. intros w. by cbn. Qed.

Lemma moves_lift {A} (r : result A) : moves R (lift r).
Proof. intros w. by cbn. Qed.

Lemma moves_bind {A B} (m : M A) (k : A → M B) :
  moves R m → (∀ a, moves R (k a)) → moves R (m ≫= k).
Proof.
  intros Hm Hk w. specialize (Hm w). unfold mbind, io_bind.
  destruct (m w) as [[a|e|] w']; cbn in *; try done.
  etrans; [exact Hm|apply Hk].
Qed.

Lemma moves_wrapM {A} p (m : M A) : moves R m → moves R (wrapM p m).
Proof. intros Hm w. apply Hm. Qed.

Lemma next_fault_db w : db (next_fault w).2 = db w.
Proof. destruct w as [d [|[e|] fs]]; done. Qed.

Lemma moves_next_fault : moves R next_fault.
Proof. intros w. by rewrite next_fault_db. Qed.

Lemma moves_stmt {A} (f : DB → result (A * DB)) :
  (∀ d a d', f d = Ok (a, d') → R d d') → moves R (stmt f).
Proof.
  intros Hf w. unfold stmt. pose proof (next_fault_db w) as Hd.
  destruct (next_fault w) as [[[]|e|] w']; cbn in *; rewrite <- Hd; try done.
  destruct (f (db w')) as [[a d']|e|] eqn:E; cbn; [by eapply Hf|done|done].
Qed.

Lemma moves_query {A} (f : DB → A) : moves R (query f).
Proof. apply moves_stmt. by intros d a d' [= _ <-]. Qed.

Lemma moves_update f : (∀ d, R d (f d)) → moves R (update f).
Proof. intros Hf. apply moves_stmt. by intros d a d' [= _ <-]. Qed.

Lemma moves_in_tx {A} b c (body : M A) : moves R body → moves R (in_tx b c body).
Proof.
  intros Hb w. unfold in_tx, wrapM. cbn. pose proof (next_fault_db w) as Hd.
  destruct (next_fault w) as [[[]|e|] w1]; cbn in *; rewrite <- Hd; try done.
  specialize (Hb w1). destruct (body w1) as [[a|e|] w2]; cbn in *; try done.
  pose proof (next_fault_db w2) as Hd2.
  destruct (next_fault w2) as [[[]|e|] w3]; cbn in *; try done. by rewrite Hd2.
Qed.
End moves.

#[export] Hint Resolve moves_ret moves_fail moves_lift moves_bind moves_wrapM moves_query
  moves_update moves_in_tx moves_next_fault : oracle.
#[export] Hint Extern 3 (PreOrder _) => apply _ : oracle.

(** Split [m] into its statements. *)
Ltac moves_step :=
  repeat lazymatch goal with
  | |- moves _ (wrapM _ _) => apply moves_wrapM
  | |- moves _ (in_tx _ _ _) => apply moves_in_tx; [apply _|]
  | |- moves _ (_ ≫= _) => apply moves_bind; [apply _| |intros ?]
  | |- moves _ (mret _) => apply moves_ret; apply _
  | |- moves _ (fail _) => apply moves_fail; apply _
  | |- moves _ (lift _) => apply moves_lift; apply _
  | |- moves _ (query _) => apply moves_query; apply _
  | |- moves _ (update _) => apply moves_update; [apply _|intros ?]
  | |- moves _ next_fault => apply moves_next_fault; apply _
  end.

(** A transaction is atomic: it commits what its body computed, or leaves the
    database as it was. *)
Lemma in_tx_inv {A} b c (body : M A) w r w' :
  in_tx b c body w = (r, w') →
  (∃ a w1 w2, r = Ok a ∧ db w1 = db w ∧ body w1 = (Ok a, w2) ∧ db w' = db w2) ∨
  ((∀ a, r ≠ Ok a) ∧ db w' = db w).
Proof.
  unfold in_tx, wrapM. cbn. pose proof (next_fault_db w) as Hd.
  destruct (next_fault w) as [[[]|e|] w1]; cbn in *; [|by intros [= <- <-]; right..].
  destruct (body w1) as [[a|e|] w2] eqn:Eb; [|by intros [= <- <-]; right..].
  pose proof (next_fault_db w2) as Hd2.
  destruct (next_fault w2) as [[[]|e|] w3]; cbn in *; [|by intros [= <- <-]; right..].
  intros [= <- <-]. left. exists a, w1, w2. auto.
Qed.

(** A statement that only updates. *)
Lemma update_inv f w r w' :
  update f w = (r, w') →
  (r = Ok tt ∧ db w' = f (db w)) ∨ ((∀ a, r ≠ Ok a) ∧ db w' = db w).
Proof.
  unfold update, stmt. destruct w as [d [|[e|] fs]]; intros [= <- <-]; cbn; auto; by right.
Qed.

(** A statement that only reads. *)
Lemma query_inv {A} (f : DB → A) w r w' :
  query f w = (r, w') → db w' = db w ∧ (r = Ok (f (db w)) ∨ ∀ a, r ≠ Ok a).
Proof.
  unfold query, stmt. destruct w as [d [|[e|] fs]]; intros [= <- <-]; cbn; auto.
Qed.

(** A successful run does not depend on the fault script: it is the run without
    faults. *)
Definition stable {A} (m : M A) : Prop :=
  ∀ w a w', m w = (Ok a, w') → m (mkWorld (db w) []) = (Ok a, mkWorld (db w') []).

Lemma stable_ret {A} (a : A) : stable (mret a).
Proof. by intros w b w' [= <- <-]. Qed.

Lemma stable_fail {A} e : stable (@fail World A e).
Proof. by intros w b w' [=]. Qed.

Lemma stable_lift {A} (r : result A) : stable (lift r).
Proof. intros w b w' H. by apply lift_Ok in H as [-> <-]. Qed.

Lemma stable_bind {A B} (m : M A) (k : A → M B) :
  stable m → (∀ a, stable (k a)) → stable (m ≫= k).
Proof.
  intros Hm Hk w b w' H. inv_io. apply Hm in E. apply Hk in H.
  unfold mbind, io_bind. by rewrite E.
Qed.

Lemma stable_wrapM {A} p (m : M A) : stable m → stable (wrapM p m).
Proof. intros Hm w a w' H. inv_io. apply Hm in H. by apply wrapM_Ok. Qed.

Lemma stable_next_fault : stable next_fault.
Proof. intros [d [|[e|] fs]] a w'; by intros [= <- <-]. Qed.

Lemma stable_stmt {A} (f : DB → result (A * DB)) : stable (stmt f).
Proof.
  intros [d [|[e|] fs]] a w'; unfold stmt; cbn; try done;
    destruct (f d) as [[b d']| |]; try done; by intros [= <- <-].
Qed.

Lemma stable_in_tx {A} b c (body : M A) : stable body → stable (in_tx b c body).
Proof.
  intros Hb w a w' H. apply in_tx_inv in H as [(a' & w1 & w2 & [= <-] & Hw1 & Hbody & ->)|[Hn _]];
    [|by destruct (Hn a)].
  apply Hb in Hbody. rewrite Hw1 in Hbody. unfold in_tx, wrapM. cbn. rewrite Hbody. done.
Qed.

#[export] Hint Resolve stable_ret stable_fail stable_lift stable_bind stable_wrapM
  stable_next_fault stable_stmt stable_in_tx : oracle.

(** Code that neither reads nor writes the sync cursor. *)
Definition framed {A} (m : M A) : Prop :=
  ∀ c d fs, m (mkWorld (set_last_synced c d) fs) =
    let '(r, w') := m (mkWorld d fs) in (r, mkWorld (set_last_synced c (db w')) (faults w')).

Lemma framed_ret {A} (a : A) : framed (mret a).
Proof. done. Qed.

Lemma framed_fail {A} e : framed (@fail World A e).
Proof. done. Qed.

Lemma framed_lift {A} (r : result A) : framed (lift r).
Proof. done. Qed.

Lemma framed_bind {A B} (m : M A) (k : A → M B) :
  framed m → (∀ a, framed (k a)) → framed (m ≫= k).
Proof.
  intros Hm Hk c d fs. unfold mbind, io_bind. rewrite Hm.
  destruct (m (mkWorld d fs)) as [[a|e|] [d' fs']]; cbn; [|done..]. apply Hk.
Qed.

Lemma framed_wrapM {A} p (m : M A) : framed m → framed (wrapM p m).
Proof.
  intros Hm c d fs. unfold wrapM. rewrite Hm. by destruct (m (mkWorld d fs)) as [r w'].
Qed.

Lemma framed_stmt {A} (f : DB → result (A * DB)) :
  (∀ c d, f (set_last_synced c d) =
     p ← f d; Ok (p.1, set_last_synced c p.2)) → framed (stmt f).
Proof.
  intros Hf c d fs. unfold stmt. destruct fs as [|[e|] fs]; cbn; [|done|];
    rewrite Hf; by destruct (f d) as [[a d']| |].
Qed.

Lemma framed_update f :
  (∀ c d, f (set_last_synced c d) = set_last_synced c (f d)) → framed (update f).
Proof. intros Hf. apply framed_stmt. intros c d. cbn. by rewrite Hf. Qed.

#[export] Hint Resolve framed_ret framed_fail framed_lift framed_bind framed_wrapM : oracle.

(** The writers of the event handlers. *)
Lemma insertEvent_framed e : framed (insertEvent e).
Proof. apply framed_wrapM, framed_update. intros c d. unfold put_event. cbn. by case_match. Qed.

Lemma upsertCluster_framed r : framed (upsertCluster r).
Proof. by apply framed_wrapM, framed_update. Qed.

Lemma deleteValidator_framed id pk : framed (deleteValidator id pk).
Proof. by apply framed_wrapM, framed_update. Qed.

Lemma insertValidator_framed id pk : framed (insertValidator id pk).
Proof.
  unfold insertValidator. case_match; [apply framed_fail|]. apply framed_wrapM, framed_stmt.
  intros c d. cbn. by case_match.
Qed.

Lemma insertEvent_stable e : stable (insertEvent e).
Proof. apply stable_wrapM, stable_stmt. Qed.

Lemma upsertCluster_stable r : stable (upsertCluster r).
Proof. apply stable_wrapM, stable_stmt. Qed.

Lemma deleteValidator_stable id pk : stable (deleteValidator id pk).
Proof. apply stable_wrapM, stable_stmt. Qed.

Lemma insertValidator_stable id pk : stable (insertValidator id pk).
Proof.
  unfold insertValidator. case_match; [apply stable_fail|apply stable_wrapM, stable_stmt].
Qed.

Lemma updateLastSyncedBlock_stable b : stable (updateLastSyncedBlock b).
Proof. apply stable_wrapM, stable_stmt. Qed.

#[export] Hint Resolve insertEvent_framed upsertCluster_framed deleteValidator_framed
  insertValidator_framed insertEvent_stable upsertCluster_stable deleteValidator_stable
  insertValidator_stable updateLastSyncedBlock_stable : oracle.

(** ** Lemmas: columns *)

Lemma intToBool_boolToInt b : intToBool (boolToInt b) = b.
Proof. by destruct b. Qed.

Lemma to_int_nonempty z :
  Z.to_int z ≠ Decimal.Pos Decimal.Nil ∧ Z.to_int z ≠ Decimal.Neg Decimal.Nil.
Proof.
  destruct z as [|p|p]; cbn; [done| |].
  - split; [|done]. intros [= E]. by pose proof (DecimalPos.Unsigned.to_uint_nonnil p).
  - split; [done|]. intros [= E]. by pose proof (DecimalPos.Unsigned.to_uint_nonnil p).
Qed.

(** The first digit of a printed integer is not a plus sign. *)
Lemma big_String_plus z s : big_String z ≠ String "+" s.
Proof.
  unfold big_String. destruct (Z.to_int z) as [u|u]; [destruct u|]; cbn; done.
Qed.

(** The TEXT column holds the balance without loss. *)
Lemma big_SetString_String z : big_SetString (big_String z) = Some z.
Proof.
  assert (NilZero.int_of_string (big_String z) = Some (Z.to_int z)) as E.
  { destruct (to_int_nonempty z). by apply NilZero.isi. }
  unfold big_SetString. destruct (big_String z) as [|c s] eqn:Es; [done|].
  rewrite E. cbn [fmap option_fmap option_map]. rewrite DecimalZ.of_to.
  destruct (ascii_dec c "+") as [->|Hc]; [by apply big_String_plus in Es|].
  by destruct c as [[] [] [] [] [] [] [] []].
Qed.

Lemma decode_encode_ids ids :
  Forall (is_uint 64) ids → decodeOperatorIDs (encodeOperatorIDs ids) = Ok ids.
Proof.
  intros H. cbn. replace (forallb _ ids) with true; [done|]. symmetry.
  apply forallb_forall. intros x Hx%list_elem_of_In.
  rewrite Forall_forall in H. specialize (H x Hx). unfold is_uint in H. lia.
Qed.

Lemma decode_ids_ok j ids : decodeOperatorIDs j = Ok ids → Forall (is_uint 64) ids.
Proof.
  destruct j as [|l]; cbn; [by intros [= <-]|]. destruct (forallb _ l) eqn:E; [|done].
  intros [= <-]. rewrite forallb_forall in E. apply Forall_forall.
  intros x Hx%list_elem_of_In%E. unfold is_uint. lia.
Qed.

(** Reading back the columns of a row gives the row. *)
Lemma scan_columns row :
  row_ok row → scanClusterRow (ClusterID row) (cluster_columns row) = Ok row.
Proof.
  intros Hok. unfold scanClusterRow, cluster_columns. cbn [operator_ids balance].
  rewrite decode_encode_ids by done. cbn [mbind result_bind].
  rewrite big_SetString_String. cbn. rewrite intToBool_boolToInt. by destruct row.
Qed.

Lemma scan_row_ok id c r : scanClusterRow id c = Ok r → row_ok r ∧ ClusterID r = id.
Proof.
  unfold scanClusterRow. intros H. inv_ok.
  destruct (big_SetString (balance c)); inv_ok. split; [|done]. by eapply decode_ids_ok.
Qed.

(** ** Lemmas: writers keep the database well-formed *)

Lemma schema_ok : db_ok schema.
Proof. split; cbn; [done|set_solver|done]. Qed.

Lemma db_ok_commits d m :
  db_ok d →
  (∀ e1 c1 e2 c2, m !! e1 = Some c1 → m !! e2 = Some c2 →
    reference_block c1 = reference_block c2 → e1 = e2) →
  db_ok (set_commits m d).
Proof. intros [H1 H2 H3] Hm. by split. Qed.

Lemma upsert_ok d r :
  row_ok r → db_ok d → db_ok (set_clusters (<[ClusterID r := cluster_columns r]> (clusters d)) d).
Proof.
  intros Hr [H1 H2 H3]. split; cbn; [| |done].
  - intros id c [[<- <-]|[Hne Hc]]%lookup_insert_Some; [|eauto].
    exists r. auto using scan_columns.
  - intros id pk Hin. destruct (H2 id pk Hin) as [? ?]. split; [|done].
    apply lookup_insert_is_Some. destruct (decide (ClusterID r = id)); auto.
Qed.

Lemma upsertCluster_ok r : row_ok r → keeps db_ok (upsertCluster r).
Proof.
  intros Hr. apply moves_wrapM, moves_update; [apply _|]. intros d. by apply upsert_ok.
Qed.

Lemma insertValidator_ok id pk : keeps db_ok (insertValidator id pk).
Proof.
  unfold insertValidator. destruct (Z.eqb_spec (Z.of_nat (length pk)) PublicKeyLength); cbn.
  - apply moves_wrapM, moves_stmt; [apply _|]. intros d a d'.
    destruct (clusters d !! id) as [c|] eqn:E; [|done]. intros [= _ <-] [H1 H2 H3].
    split; cbn; [done| |done]. intros id' pk'.
    rewrite elem_of_union, elem_of_singleton. intros [[= -> ->]|]; [|by apply H2].
    by rewrite E.
  - apply moves_fail. apply _.
Qed.

Lemma deleteCluster_ok id : keeps db_ok (deleteCluster id).
Proof.
  apply moves_wrapM, moves_update; [apply _|]. intros d [H1 H2 H3]. split; cbn; [| |done].
  - intros id' c [_ Hc]%lookup_delete_Some. eauto.
  - intros id' pk. rewrite elem_of_filter. cbn. intros [Hne Hin].
    rewrite lookup_delete_ne by done. by apply H2.
Qed.

Lemma deleteValidator_ok id pk : keeps db_ok (deleteValidator id pk).
Proof.
  apply moves_wrapM, moves_update; [apply _|]. intros d [H1 H2 H3]. split; cbn; [done| |done].
  intros id' pk' [Hin _]%elem_of_difference. by apply H2.
Qed.

Lemma updateLastSyncedBlock_ok b : keeps db_ok (updateLastSyncedBlock b).
Proof. apply moves_wrapM, moves_update; [apply _|]. intros d [H1 H2 H3]. by split. Qed.

Lemma insertEvent_ok e : keeps db_ok (insertEvent e).
Proof.
  apply moves_wrapM, moves_update; [apply _|]. intros d [H1 H2 H3].
  unfold put_event. case_match; by split.
Qed.

Lemma InsertPendingCommit_ok e root b l : keeps db_ok (InsertPendingCommit e root b l).
Proof.
  apply moves_wrapM, moves_stmt; [apply _|]. intros d a d' Hst Hok.
  destruct (oracle_commits d !! e) as [c|] eqn:E; [by injection Hst as _ <-|].
  case_bool_decide as Hb; [done|]. injection Hst as _ <-.
  apply db_ok_commits; [done|]. intros e1 c1 e2 c2.
  rewrite !lookup_insert_Some. destruct Hok as [_ _ H3].
  intros [[<- <-]|[? Hc1]] [[<- <-]|[? Hc2]] Eb; cbn in *; [done| | |by eapply H3].
  - exfalso. apply Hb. by exists e2, c2.
  - exfalso. apply Hb. by exists e1, c1.
Qed.

Lemma UpdateCommitStatus_ok e st h : keeps db_ok (UpdateCommitStatus e st h).
Proof.
  apply moves_wrapM, moves_update; [apply _|]. intros d Hok.
  destruct (oracle_commits d !! e) as [[r b bal s h0]|] eqn:E; [|done].
  destruct s; [|done..]. apply db_ok_commits; [done|]. intros e1 c1 e2 c2.
  rewrite !lookup_insert_Some. destruct Hok as [_ _ H3].
  intros [[<- <-]|[? Hc1]] [[<- <-]|[? Hc2]] Eb; cbn in *; [done| | |by eapply H3].
  - by apply (H3 _ _ _ _ E Hc2).
  - by apply (H3 _ _ _ _ Hc1 E).
Qed.

Lemma ClearAllState_ok : keeps db_ok ClearAllState.
Proof.
  unfold ClearAllState. moves_step; intros [H1 H2 H3];
    split; cbn; try done; set_solver.
Qed.

Lemma SetChainID_ok c : keeps db_ok (SetChainID c).
Proof. apply moves_wrapM, moves_update; [apply _|]. intros d [H1 H2 H3]. by split. Qed.

#[export] Hint Resolve upsertCluster_ok insertValidator_ok deleteCluster_ok deleteValidator_ok
  updateLastSyncedBlock_ok insertEvent_ok InsertPendingCommit_ok UpdateCommitStatus_ok
  ClearAllState_ok SetChainID_ok : oracle.

Lemma run_op_ok o : op_ok o → keeps db_ok (run_op o).
Proof. destruct o; cbn; auto with oracle. Qed.

Lemma reachable_ok d : reachable d → db_ok d.
Proof.
  induction 1 as [|o d fs _ IH Ho]; [apply schema_ok|].
  by apply (run_op_ok o Ho (mkWorld d fs)).
Qed.

(** ** Lemmas: commits only move forward *)

#[global] Instance commit_le_preorder : PreOrder commit_le.
Proof.
  split; [by intros c|]. intros c1 c2 c3 (H1 & H2 & H3 & H4) (G1 & G2 & G3 & G4).
  repeat split; try congruence. intros Hp. rewrite G4; [by apply H4|]. by rewrite H4.
Qed.

#[global] Instance commits_le_preorder : PreOrder commits_le.
Proof.
  split; [intros d e c Hc; by exists c|]. intros d1 d2 d3 H1 H2 e c Hc.
  destruct (H1 e c Hc) as (c2 & Hc2 & Hle). destruct (H2 e c2 Hc2) as (c3 & Hc3 & Hle3).
  exists c3. split; [done|]. by etrans.
Qed.

Lemma commits_le_same d d' : oracle_commits d' = oracle_commits d → commits_le d d'.
Proof. intros E e c Hc. exists c. by rewrite E. Qed.

Lemma commits_le_insert d e c' :
  (∀ c, oracle_commits d !! e = Some c → commit_le c c') →
  commits_le d (set_commits (<[e := c']> (oracle_commits d)) d).
Proof.
  intros H e' c Hc. cbn. destruct (decide (e = e')) as [<-|Hne].
  - rewrite lookup_insert_eq. eauto.
  - rewrite lookup_insert_ne by done. by exists c.
Qed.

Lemma run_op_commits o : o ≠ OClearAllState → moves commits_le (run_op o).
Proof.
  intros Hne. destruct o; cbn; try done;
    try (unfold insertValidator; case_match; [apply moves_fail; apply _|]);
    apply moves_wrapM;
    first [apply moves_update; [apply _|intros d] | apply moves_stmt; [apply _|intros d a d' Hst]];
    try (apply commits_le_same; unfold put_event in *; cbv zeta in *; repeat case_match; simplify_eq; done).
  - case_match eqn:E; [by injection Hst as _ <-|]. case_match; [done|]. injection Hst as _ <-.
    apply commits_le_insert. congruence.
  - destruct (oracle_commits d !! e) as [[r b bal s h0]|] eqn:E; [|done].
    destruct s; [|done..]. apply commits_le_insert. rewrite E. by intros c [= <-].
Qed.

(** ** Lemmas: reads *)

(** Without faults a statement just runs. *)
Lemma query_now {A} (f : DB → A) d : query f (mkWorld d []) = (Ok (f d), mkWorld d []).
Proof. done. Qed.

Lemma update_now f d : update f (mkWorld d []) = (Ok tt, mkWorld (f d) []).
Proof. done. Qed.

Lemma scan_rows_ok d rows :
  db_ok d → (∀ id c, (id, c) ∈ rows → clusters d !! id = Some c) →
  ∃ out, scan_rows rows = Ok out ∧
    ∀ r, r ∈ out ↔ ∃ c, (ClusterID r, c) ∈ rows ∧ scanClusterRow (ClusterID r) c = Ok r.
Proof.
  intros Hok. induction rows as [|[id c] rows IH]; intros Hin.
  { exists []. split; [done|]. intros r. rewrite elem_of_nil. split; [done|].
    intros (? & []%elem_of_nil & _). }
  destruct IH as (out & Hout & Hmem); [intros; apply Hin; by right|].
  destruct (ok_scan d Hok id c) as (r & Hr & _); [apply Hin; left|].
  pose proof (proj2 (scan_row_ok _ _ _ Hr)) as Eid.
  exists (r :: out). cbn [scan_rows]. rewrite Hr, Hout. split; [done|].
  intros r'. rewrite elem_of_cons, Hmem. split.
  - intros [->|(c' & Hc' & Hs)]; [exists c; rewrite Eid; split; [left|done]|].
    exists c'. split; [by right|done].
  - intros (c' & [[= E1 ->]|Hc']%elem_of_cons & Hs); [left|right; eauto].
    rewrite E1 in Hs. congruence.
Qed.

Lemma queryBatch_ok d ids :
  db_ok d → ∃ out, queryClusterRowsBatch ids (mkWorld d []) = (Ok out, mkWorld d []) ∧
    ∀ r, r ∈ out ↔ ClusterID r ∈ ids ∧ stored_row d (ClusterID r) = Some r.
Proof.
  intros Hok.
  destruct (scan_rows_ok d (filter (λ kv, kv.1 ∈ ids) (map_to_list (clusters d))) Hok)
    as (out & Hout & Hmem).
  { intros id c [_ Hin]%list_elem_of_filter. by apply elem_of_map_to_list. }
  exists out. unfold queryClusterRowsBatch. unfold mbind, io_bind, wrapM. rewrite query_now.
  cbn. unfold lift. rewrite Hout. split; [done|]. intros r. rewrite Hmem. unfold stored_row.
  split.
  - intros (c & [Hid Hc]%list_elem_of_filter & Hs). apply elem_of_map_to_list in Hc.
    by rewrite Hc, Hs.
  - intros [Hid Hs]. destruct (clusters d !! ClusterID r) as [c|] eqn:Ec; [|done].
    destruct (scanClusterRow (ClusterID r) c) eqn:Es; [|done..]. injection Hs as ->.
    exists c. split; [|done]. apply list_elem_of_filter. split; [done|].
    by apply elem_of_map_to_list.
Qed.

(** The chunks together cover all the identifiers. *)
Lemma clusterRows_loop_ok d fuel ids :
  db_ok d → (length ids <= fuel)%nat →
  ∃ out, clusterRows_loop fuel ids (mkWorld d []) = (Ok out, mkWorld d []) ∧
    ∀ r, r ∈ out ↔ ClusterID r ∈ ids ∧ stored_row d (ClusterID r) = Some r.
Proof.
  intros Hok. revert ids. induction fuel as [|f IH]; intros ids Hlen.
  { destruct ids; cbn in Hlen; [|lia]. exists []. split; [done|].
    intros r. rewrite !elem_of_nil. tauto. }
  destruct ids as [|id ids].
  { exists []. split; [done|]. intros r. rewrite !elem_of_nil. tauto. }
  destruct (queryBatch_ok d (take clusterBatchSize (id :: ids)) Hok) as (b & Hb & Hmb).
  destruct (IH (drop clusterBatchSize (id :: ids))) as (rest & Hr & Hmr).
  { rewrite length_drop. unfold clusterBatchSize. cbn in *. lia. }
  exists (b ++ rest). cbn [clusterRows_loop]. unfold mbind, io_bind. rewrite Hb, Hr.
  split; [done|]. intros r. rewrite elem_of_app, Hmb, Hmr.
  rewrite <- (take_drop clusterBatchSize (id :: ids)) at 3. rewrite elem_of_app. tauto.
Qed.

Lemma GetFinalizedClusters_ok d ids :
  db_ok d → ∃ rows,
    GetFinalizedClusters ids (mkWorld d []) = (Ok (rows, last_synced_block d), mkWorld d []) ∧
    ∀ r, r ∈ rows ↔ ClusterID r ∈ ids ∧ stored_row d (ClusterID r) = Some r.
Proof.
  intros Hok. destruct (clusterRows_loop_ok d (length ids) ids Hok) as (rows & Hr & Hm); [done|].
  exists rows. split; [|done]. unfold GetFinalizedClusters, getClusterRowsByIDs, wrapM.
  unfold mbind, io_bind. cbn [next_fault faults fst snd wrap]. by rewrite Hr.
Qed.

Lemma getClusterRow_now d id :
  db_ok d → getClusterRow id (mkWorld d []) = (Ok (stored_row d id), mkWorld d []).
Proof.
  intros Hok. unfold getClusterRow, stored_row, wrapM, mbind, io_bind. rewrite query_now.
  destruct (clusters d !! id) as [c|] eqn:E; [|done].
  destruct (ok_scan d Hok id c E) as (r & Hr & _). unfold lift. by rewrite Hr.
Qed.

Lemma stored_row_upsert d r id :
  row_ok r →
  stored_row (set_clusters (<[ClusterID r := cluster_columns r]> (clusters d)) d) id =
  if decide (id = ClusterID r) then Some r else stored_row d id.
Proof.
  intros Hr. unfold stored_row. cbn. destruct (decide (id = ClusterID r)) as [->|Hne].
  - rewrite lookup_insert_eq. by rewrite scan_columns.
  - by rewrite lookup_insert_ne.
Qed.

Lemma best_key_cons pick P k c l :
  best_key pick P ((k, c) :: l) =
  if P k c then Some (match best_key pick P l with None => k | Some a => pick k a end)
  else best_key pick P l.
Proof. done. Qed.

(** The aggregate is the best key for any order [le] that [pick] bounds. *)
Lemma best_key_spec pick (le : relation Z) P rows :
  (∀ a b, pick a b = a ∨ pick a b = b) →
  (∀ a b, le a (pick a b) ∧ le b (pick a b)) → PreOrder le →
  match best_key pick P rows with
  | Some k => (∃ c, (k, c) ∈ rows ∧ P k c = true) ∧
              ∀ k' c', (k', c') ∈ rows → P k' c' = true → le k' k
  | None => ∀ k c, (k, c) ∈ rows → P k c = false
  end.
Proof.
  intros Hpick Hle Hpre. induction rows as [|[k c] l IH].
  { intros k c []%elem_of_nil. }
  rewrite best_key_cons.
  destruct (P k c) eqn:EP.
  - destruct (best_key pick P l) as [a|] eqn:Eb; setoid_rewrite elem_of_cons.
    + destruct IH as [(ca & Ha & HPa) Hmax], (Hle k a) as [H1 H2]. split.
      * destruct (Hpick k a) as [->| ->]; eauto.
      * intros k' c' [[= -> ->]|Hin] HP; [done|]. etrans; [by eapply Hmax|done].
    + split; [eauto|]. intros k' c' [[= -> ->]|Hin] HP; [done|].
      by rewrite (IH _ _ Hin) in HP.
  - destruct (best_key pick P l) as [a|]; setoid_rewrite elem_of_cons.
    + destruct IH as [(ca & Ha & HPa) Hmax]. split; [eauto|].
      intros k' c' [[= -> ->]|Hin] HP; [congruence|eauto].
    + intros k' c' [[= -> ->]|Hin]; eauto.
Qed.

Lemma max_key_spec P (m : gmap Z commit_cols) :
  match max_key P m with
  | Some k => (∃ c, m !! k = Some c ∧ P k c = true) ∧
              ∀ k' c', m !! k' = Some c' → P k' c' = true → k' <= k
  | None => ∀ k c, m !! k = Some c → P k c = false
  end.
Proof.
  pose proof (best_key_spec Z.max Z.le P (map_to_list m) ltac:(lia) ltac:(lia) _) as H.
  unfold max_key. by destruct (best_key _ _ _); setoid_rewrite elem_of_map_to_list in H.
Qed.

Lemma min_key_spec P (m : gmap Z commit_cols) :
  match min_key P m with
  | Some k => (∃ c, m !! k = Some c ∧ P k c = true) ∧
              ∀ k' c', m !! k' = Some c' → P k' c' = true → k <= k'
  | None => ∀ k c, m !! k = Some c → P k c = false
  end.
Proof.
  assert (PreOrder (flip Z.le)) as Hpre by (split; [intros a; cbn; lia|intros a b c; cbn; lia]).
  pose proof (best_key_spec Z.min (flip Z.le) P (map_to_list m) ltac:(lia)
                ltac:(cbn; lia) Hpre) as H.
  unfold min_key. by destruct (best_key _ _ _); setoid_rewrite elem_of_map_to_list in H.
Qed.

Lemma GetLatestCommit_now d :
  ∃ o, GetLatestCommit (mkWorld d []) = (Ok o, mkWorld d []) ∧
    match o with
    | Some oc => ∃ c, oracle_commits d !! TargetEpoch oc = Some c ∧ status c = Confirmed ∧
        has_balances c = true ∧ oc = read_commit (TargetEpoch oc) c ∧
        ∀ e' c', oracle_commits d !! e' = Some c' → status c' = Confirmed →
          has_balances c' = true → e' <= TargetEpoch oc
    | None => ∀ e c, oracle_commits d !! e = Some c → status c = Confirmed →
        has_balances c = false
    end.
Proof.
  unfold GetLatestCommit, wrapM. rewrite query_now. eexists. split; [done|].
  pose proof (max_key_spec (λ _ c, bool_decide (status c = Confirmed) && has_balances c)
    (oracle_commits d)) as Hs.
  destruct (max_key _ _) as [k|]; cbn.
  - destruct Hs as [(c & Hc & HP) Hmax]. rewrite Hc. cbn.
    apply andb_prop in HP as [HP Hb]. apply bool_decide_eq_true in HP.
    exists c. repeat split; [done..|]. intros e' c' Hc' Hst Hb'. apply (Hmax e' c' Hc').
    by rewrite Hst, Hb'.
  - intros e c Hc Hst. specialize (Hs e c Hc). by rewrite Hst in Hs.
Qed.

(** [ClearAllState], stated for its callers too. *)
Lemma ClearAllState_cases w r w' :
  ClearAllState w = (r, w') →
  (r = Ok tt ∧ db w' = schema) ∨ ((∀ a, r ≠ Ok a) ∧ db w' = db w).
Proof.
  intros H. unfold ClearAllState in H. apply in_tx_inv in H as [(a & w1 & w2 & -> & _ & Hb & ->)|];
    [left|by right]. destruct a. split; [done|]. revert Hb. clear.
  unfold mbind, io_bind, wrapM, update, stmt.
  destruct w1 as [d [|[e1|] [|[e2|] [|[e3|] [|[e4|] [|[e5|] ?]]]]]]; cbn; try done;
    by intros [= <-].
Qed.

(** ** Properties *)

(** C16: whatever sequence of writes is executed from a fresh database, and
    whichever statements fail, every cluster row can be decoded, every stored
    validator has its cluster and a 48-byte key, and no two commits share a
    reference block. *)
Theorem storage_invariant d : reachable d → db_ok d.
Proof. apply reachable_ok. Qed.

(** A stored commit is immutable up to its status, and a confirmed or failed
    one is final: no writer but [ClearAllState], under any faults, can change it. *)
Theorem commit_final o d fs e c :
  o ≠ OClearAllState → oracle_commits d !! e = Some c →
  ∃ c', oracle_commits (db (run_op o (mkWorld d fs)).2) !! e = Some c' ∧
    merkle_root c' = merkle_root c ∧ reference_block c' = reference_block c ∧
    cluster_balances c' = cluster_balances c ∧ (status c ≠ Pending → c' = c).
Proof. intros Hne Hc. apply (run_op_commits o Hne (mkWorld d fs) e c Hc). Qed.

(** A cluster row written by [UpsertCluster] is read back unchanged by
    [GetCluster] (operator identifiers through JSON, the balance through its
    decimal text), and the other clusters are read as before. *)
Theorem upsert_get_roundtrip d r id :
  db_ok d → row_ok r →
  ∃ d', upsertCluster r (mkWorld d []) = (Ok tt, mkWorld d' []) ∧
    (getClusterRow id (mkWorld d' [])).1 =
      if decide (id = ClusterID r) then Ok (Some r) else (getClusterRow id (mkWorld d [])).1.
Proof.
  intros Hd Hr. eexists. split; [done|].
  rewrite !getClusterRow_now by auto using upsert_ok. cbn [fst].
  rewrite stored_row_upsert by done. by case_decide.
Qed.

(** The chunked [SELECT ... IN] of [GetFinalizedClusters] returns exactly the
    stored rows of the requested clusters, with the sync cursor of the same
    snapshot; missing identifiers are omitted. *)
Theorem GetFinalizedClusters_exact d ids :
  db_ok d → ∃ rows,
    GetFinalizedClusters ids (mkWorld d []) = (Ok (rows, last_synced_block d), mkWorld d []) ∧
    ∀ r, r ∈ rows ↔ ClusterID r ∈ ids ∧ stored_row d (ClusterID r) = Some r.
Proof. apply GetFinalizedClusters_ok. Qed.

(** [GetLatestCommit] returns the confirmed commit of the greatest epoch among
    those with balances, and nothing only when there is none. *)
Theorem GetLatestCommit_greatest d :
  ∃ o, GetLatestCommit (mkWorld d []) = (Ok o, mkWorld d []) ∧
    match o with
    | Some oc => ∃ c, oracle_commits d !! TargetEpoch oc = Some c ∧ status c = Confirmed ∧
        has_balances c = true ∧ oc = read_commit (TargetEpoch oc) c ∧
        ∀ e' c', oracle_commits d !! e' = Some c' → status c' = Confirmed →
          has_balances c' = true → e' <= TargetEpoch oc
    | None => ∀ e c, oracle_commits d !! e = Some c → status c = Confirmed →
        has_balances c = false
    end.
Proof. apply GetLatestCommit_now. Qed.

(** [GetCommitByEpoch] finds a stored epoch, and its neighbours are the
    greatest stored epoch below and the least one above, of any status. *)
Theorem GetCommitByEpoch_neighbours d e c :
  oracle_commits d !! e = Some c →
  ∃ prev next,
    GetCommitByEpoch e (mkWorld d []) = (Ok (Some (read_commit e c, prev, next)), mkWorld d []) ∧
    (∀ k, prev = Some k → k < e ∧ is_Some (oracle_commits d !! k)) ∧
    (∀ k, next = Some k → e < k ∧ is_Some (oracle_commits d !! k)) ∧
    (∀ k, is_Some (oracle_commits d !! k) →
       k = e ∨ (∃ p, prev = Some p ∧ k <= p) ∨ (∃ n, next = Some n ∧ n <= k)).
Proof.
  intros Hc. unfold GetCommitByEpoch, wrapM. rewrite query_now. cbn. rewrite Hc. cbn.
  do 2 eexists. split; [done|].
  pose proof (max_key_spec (λ k _, k <? e) (oracle_commits d)) as Hp.
  pose proof (min_key_spec (λ k _, e <? k) (oracle_commits d)) as Hn.
  destruct (max_key _ _) as [p|], (min_key _ _) as [n|]; repeat split; try done.
  all: repeat match goal with H : Some _ = Some _ |- _ => injection H as <- end.
  all: try (destruct Hp as [(? & ? & ?) _]; by eauto with lia).
  all: try (destruct Hn as [(? & ? & ?) _]; by eauto with lia).
  all: intros k [ck Hk]; destruct (Z.lt_trichotomy k e) as [Hlt|[->|Hgt]]; [|by left|]; right.
  all: try (left; eexists; split; [done|]; destruct Hp as [_ Hp]; eapply Hp; [exact Hk|lia]).
  all: try (right; eexists; split; [done|]; destruct Hn as [_ Hn]; eapply Hn; [exact Hk|lia]).
  all: try (specialize (Hp _ _ Hk); lia).
  all: specialize (Hn _ _ Hk); lia.
Qed.

(** [ClearAllState] is all or nothing: on success every table is empty and the
    sync position and chain are reset, on any failure the database is untouched. *)
Theorem ClearAllState_atomic w r w' :
  ClearAllState w = (r, w') →
  (r = Ok tt ∧ db w' = schema) ∨ ((∀ a, r ≠ Ok a) ∧ db w' = db w).
Proof. apply ClearAllState_cases. Qed.

(** ** Witnesses *)

Definition example_row : ClusterRow :=
  mkCluster (be_bytes 32 1) (be_bytes 20 7) [1; 2; 3; 4] 2 0 0 true 1000.

Lemma example_row_ok : row_ok example_row.
Proof. repeat constructor; cbn; lia. Qed.

(** One cluster with a validator, a confirmed and a pending commit. *)
Definition example_db : DB :=
  db (fold_left (λ w o, (run_op o w).2)
    [OUpsertCluster example_row;
     OInsertValidator (be_bytes 32 1) (be_bytes 48 9);
     OInsertPendingCommit 225 (be_bytes 32 11) 1000 [mkBalance (be_bytes 32 1) 64];
     OUpdateCommitStatus 225 Confirmed (Some (be_bytes 32 12));
     OInsertPendingCommit 450 (be_bytes 32 13) 2000 []] (mkWorld schema [])).

Lemma example_db_reachable : reachable example_db.
Proof.
  unfold example_db. cbn [fold_left].
  assert (∀ o w, reachable (db w) → faults w = [] → op_ok o → reachable (db (run_op o w).2)) as H.
  { intros o [d fs] Hd [= ->] Ho. by apply reachable_op. }
  repeat (apply H; [|vm_compute; done|try done; apply example_row_ok]). apply reachable_schema.
Qed.

Lemma example_db_ok : db_ok example_db.
Proof. apply reachable_ok, example_db_reachable. Qed.

Definition example_commit : commit_cols :=
  mkCommitCols (be_bytes 32 11) 1000 (Some (BArr [mkBalance (be_bytes 32 1) 64])) Confirmed
    (Some (be_bytes 32 12)).

Lemma example_commit_stored : oracle_commits example_db !! 225 = Some example_commit.
Proof. vm_compute. done. Qed.

Lemma storage_invariant_witness : db_ok example_db.
Proof. apply (storage_invariant example_db example_db_reachable). Defined.

Lemma commit_final_witness :
  ∃ c', oracle_commits (db (run_op (OUpdateCommitStatus 225 Failed None)
          (mkWorld example_db [None])).2) !! 225 = Some c' ∧
    merkle_root c' = merkle_root example_commit ∧
    reference_block c' = reference_block example_commit ∧
    cluster_balances c' = cluster_balances example_commit ∧
    (status example_commit ≠ Pending → c' = example_commit).
Proof.
  apply (commit_final (OUpdateCommitStatus 225 Failed None) example_db [None] 225 example_commit);
    [done|apply example_commit_stored].
Defined.

Lemma upsert_get_roundtrip_witness :
  ∃ d', upsertCluster example_row (mkWorld example_db []) = (Ok tt, mkWorld d' []) ∧
    (getClusterRow (be_bytes 32 1) (mkWorld d' [])).1 =
      if decide (be_bytes 32 1 = ClusterID example_row) then Ok (Some example_row)
      else (getClusterRow (be_bytes 32 1) (mkWorld example_db [])).1.
Proof.
  apply (upsert_get_roundtrip example_db example_row (be_bytes 32 1) example_db_ok example_row_ok).
Defined.

Lemma GetFinalizedClusters_exact_witness :
  ∃ rows, GetFinalizedClusters [be_bytes 32 1; be_bytes 32 2] (mkWorld example_db []) =
      (Ok (rows, last_synced_block example_db), mkWorld example_db []) ∧
    ∀ r, r ∈ rows ↔ ClusterID r ∈ [be_bytes 32 1; be_bytes 32 2] ∧
      stored_row example_db (ClusterID r) = Some r.
Proof. apply (GetFinalizedClusters_exact example_db _ example_db_ok). Defined.

Lemma GetCommitByEpoch_neighbours_witness :
  ∃ prev next,
    GetCommitByEpoch 225 (mkWorld example_db []) =
      (Ok (Some (read_commit 225 example_commit, prev, next)), mkWorld example_db []) ∧
    (∀ k, prev = Some k → k < 225 ∧ is_Some (oracle_commits example_db !! k)) ∧
    (∀ k, next = Some k → 225 < k ∧ is_Some (oracle_commits example_db !! k)) ∧
    (∀ k, is_Some (oracle_commits example_db !! k) →
       k = 225 ∨ (∃ p, prev = Some p ∧ k <= p) ∨ (∃ n, next = Some n ∧ n <= k)).
Proof. apply (GetCommitByEpoch_neighbours example_db 225 example_commit example_commit_stored). Defined.

Lemma ClearAllState_atomic_witness :
  (Ok tt = @Ok unit tt ∧ schema = schema) ∨ ((∀ a, Ok tt ≠ @Ok unit a) ∧ schema = example_db).
Proof. apply (ClearAllState_atomic (mkWorld example_db []) (Ok tt) (mkWorld schema [])). reflexivity. Defined.
