(* ===== verification/Retry.v ===== *)
(** * eth: retries with exponential backoff (src/eth/retry.go)

    The process environment is a state [E] of which nothing is known but the
    interface [Runtime]: the random generator, the timed wait on a context and
    the context's error.  A Go [time.Duration] is an int64 number of
    nanoseconds. *)

From S2P Require Import Prelude.

(** ** The run-time environment *)

Class Runtime (E : Type) := {
  (** [rand.Int63n(n)]. *)
  Int63n : Z → E → Z * E;
  (** [select { case <-time.After(d): case <-ctx.Done(): return ctx.Err() }]. *)
  sleep : Z → io E unit;
  (** [ctx.Err()]. *)
  ctx_Err : E → option error;
}.

Class RuntimeLaws (E : Type) `{!Runtime E} := {
  Int63n_range n e : 0 < n → 0 <= (Int63n n e).1 < n;
}.

(** ** Configuration *)

Definition Second : Z := 10 ^ 9.

Definition defaultMaxRetries : Z := 3.
Definition defaultBaseDelay : Z := 2 * Second.
Definition defaultMaxDelay : Z := 15 * Second.

Record RetryConfig := mkRetryConfig {
  MaxRetries : Z;
  BaseDelay : Z;
  MaxDelay : Z;
}.

Definition DefaultRetryConfig : RetryConfig :=
  mkRetryConfig defaultMaxRetries defaultBaseDelay defaultMaxDelay.

(** ** Operations *)

(** The delay before jitter; [1<<attempt] and the product are int64. *)
Definition backoff (cfg : RetryConfig) (attempt : Z) : Z :=
  let delay := wrapS 64 (BaseDelay cfg * wrapS 64 (Z.shiftl 1 attempt)) in
  if MaxDelay cfg <? delay then MaxDelay cfg else delay.

Section retry.
Context {E : Type} `{!Runtime E}.

(** Add up to a quarter of jitter, then wait. *)
Definition pause (cfg : RetryConfig) (attempt : Z) : io E unit := λ e,
  let delay := backoff cfg attempt in
  if 0 <? delay then
    let '(jitter, e') := Int63n (Z.max (Z.quot delay 4) 1) e in
    sleep (wrapS 64 (delay + jitter)) e'
  else sleep delay e.

Definition errAttempts (cfg : RetryConfig) (err : error) : error :=
  EWrap ("after " +:+ pretty (wrapU 64 (MaxRetries cfg + 1)) +:+ " attempts") err.

(** The loop from [attempt]; [fuel] is the number of attempts left and [err] the
    error of the previous one. *)
Fixpoint retry_loop {A} (cfg : RetryConfig) (fn : io E A)
    (isRetriable : option (error → bool)) (fuel : nat) (attempt : Z) (err : error) : io E A :=
  match fuel with
  | O => fail (errAttempts cfg err)
  | S f => try_ fn (λ r,
      match r with
      | Err err =>
          if match isRetriable with Some p => negb (p err) | None => false end then fail err
          else
            _ ← (if attempt <? MaxRetries cfg then pause cfg attempt else mret tt);
            retry_loop cfg fn isRetriable f (attempt + 1) err
      | _ => lift r
      end)
  end.

(** [attempt] runs from 0 to [MaxRetries]. *)
Definition WithRetry {A} (cfg : RetryConfig) (fn : io E A)
    (isRetriable : option (error → bool)) : io E A :=
  retry_loop cfg fn isRetriable (S (Z.to_nat (MaxRetries cfg))) 0 (EText "").

(** ** Lemmas *)

(** What a retried call can do to the environment: a relation kept by the call
    and by waiting is kept by the whole. *)
Section moves.
Context {A : Type} (R : relation E) `{!PreOrder R} (cfg : RetryConfig) (fn : io E A).
Hypothesis Hfn : ∀ e, R e (fn e).2.
Hypothesis Hsleep : ∀ d e, R e (sleep d e).2.
Hypothesis Hrand : ∀ n e, R e (Int63n n e).2.

Lemma pause_moves attempt e : R e (pause cfg attempt e).2.
Proof.
  unfold pause. case_match; [|apply Hsleep].
  pose proof (Hrand (Z.max (Z.quot (backoff cfg attempt) 4) 1) e) as Hr.
  destruct (Int63n _ e) as [j e']. etrans; [exact Hr|apply Hsleep].
Qed.

Lemma wait_moves (b : bool) attempt e :
  R e ((if b then pause cfg attempt else mret tt) e).2.
Proof. destruct b; [apply pause_moves|done]. Qed.

Lemma retry_loop_moves isR f att er e : R e (retry_loop cfg fn isR f att er e).2.
Proof.
  revert er att e. induction f as [|f IH]; intros er att e; [done|].
  cbn [retry_loop]. unfold try_. pose proof (Hfn e) as Hf.
  destruct (fn e) as [[a|er'|] e1]; try done.
  destruct (match isR with Some p => _ | None => _ end); [done|].
  unfold mbind, io_bind. pose proof (wait_moves (att <? MaxRetries cfg) att e1) as Hp.
  destruct ((if att <? MaxRetries cfg then pause cfg att else mret tt) e1) as [[[]|er1|] e2].
  all: etrans; [exact Hf|]; etrans; [exact Hp|]; first [apply IH|done].
Qed.

Lemma WithRetry_moves isR e : R e (WithRetry cfg fn isR e).2.
Proof. apply retry_loop_moves. Qed.
End moves.

(** When failing calls use up a resource that waiting does not give back, a retried
    call that does not succeed uses it up; one that succeeds may give it back. *)
Section decreases.
Context {A : Type} (pending : E → nat) (cfg : RetryConfig) (fn : io E A).
Hypothesis Hfail : ∀ e r e', fn e = (r, e') → (∀ a, r ≠ Ok a) → (pending e' < pending e)%nat.
Hypothesis Hsleep : ∀ d e, (pending (sleep d e).2 <= pending e)%nat.
Hypothesis Hrand : ∀ n e, (pending (Int63n n e).2 <= pending e)%nat.

Lemma retry_loop_decreases isR f att er e r e' :
  retry_loop cfg fn isR f att er e = (r, e') → (∀ a, r ≠ Ok a) →
  (pending e' <= pending e)%nat ∧ (f ≠ O → (pending e' < pending e)%nat).
Proof.
  set (R e1 e2 := (pending e2 <= pending e1)%nat).
  assert (PreOrder R) as HR by (split; [intros ?|intros ? ? ?]; unfold R; lia).
  revert er att e. induction f as [|f IH]; intros er att e; cbn [retry_loop].
  - by intros [= _ <-].
  - unfold try_. destruct (fn e) as [[a|x|] e1] eqn:Ef.
    + intros [= <- _] Hne. by destruct (Hne a).
    + apply Hfail in Ef; [|done]. case_match; [intros [= _ <-]; lia|].
      unfold mbind, io_bind. pose proof (wait_moves R cfg Hsleep Hrand (att <? MaxRetries cfg) att e1)
        as Hp.
      destruct ((if att <? MaxRetries cfg then pause cfg att else mret tt) e1) as [[[]|er1|] e2];
        unfold R in Hp; cbn [snd] in Hp.
      * intros Hl Hne. apply IH in Hl as [Hl _]; [lia|done].
      * intros [= _ <-] _. lia.
      * intros [= _ <-] _. lia.
    + apply Hfail in Ef; [|done]. intros [= _ <-] _. lia.
Qed.

Lemma WithRetry_decreases isR e r e' :
  WithRetry cfg fn isR e = (r, e') → (∀ a, r ≠ Ok a) → (pending e' < pending e)%nat.
Proof. intros H Hne. by apply (retry_loop_decreases _ _ _ _ _ _ _ H Hne). Qed.
End decreases.

(** A successful retried call ends with a successful call. *)
Lemma WithRetry_Ok {A} cfg (fn : io E A) isR e a e' :
  WithRetry cfg fn isR e = (Ok a, e') → ∃ e1, fn e1 = (Ok a, e').
Proof.
  unfold WithRetry. generalize (EText ""), 0. revert e.
  induction (S (Z.to_nat (MaxRetries cfg))) as [|f IH]; intros e er att; [done|].
  cbn [retry_loop]. unfold try_. destruct (fn e) as [[b|er'|] e1] eqn:Ef; cbn; [|intros H|done].
  - intros [= -> ->]. by exists e.
  - destruct (match isR with Some p => _ | None => _ end); [done|].
    apply bind_io_Ok in H as ([] & e2 & _ & H). by eapply IH.
Qed.

(** A call that succeeds is not retried. *)
Lemma WithRetry_first {A} cfg (fn : io E A) isR e a e' :
  fn e = (Ok a, e') → WithRetry cfg fn isR e = (Ok a, e').
Proof. intros H. unfold WithRetry. cbn [retry_loop]. unfold try_. by rewrite H. Qed.

(** A retried call that is never cancelled and whose every attempt fails in a
    retriable way reports the last error after all the attempts. *)
Lemma WithRetry_fails {A} cfg (fn : io E A) e err :
  (∀ e, fn e = (Err err, e)) → (∀ d e, sleep d e = (Ok tt, e)) → (∀ n e, (Int63n n e).2 = e) →
  WithRetry cfg fn None e = (Err (errAttempts cfg err), e).
Proof.
  intros Hfn Hsl Hr. unfold WithRetry.
  assert (∀ attempt e, pause cfg attempt e = (Ok tt, e)) as Hp.
  { intros attempt e0. unfold pause. case_match; [|apply Hsl].
    specialize (Hr (Z.max (Z.quot (backoff cfg attempt) 4) 1) e0).
    destruct (Int63n _ e0) as [j e']. cbn in Hr. subst. apply Hsl. }
  assert (∀ f att er, er = err ∨ f ≠ O →
    retry_loop cfg fn None f att er e = (Err (errAttempts cfg err), e)) as H.
  { induction f as [|f IH]; intros att er Hor; [by destruct Hor as [->|]|].
    cbn [retry_loop]. unfold try_. rewrite Hfn. unfold mbind, io_bind.
    destruct (att <? MaxRetries cfg); [rewrite Hp|cbn]; apply IH; by left. }
  apply H. by right.
Qed.

(** A call that always fails is reported as failed, if waiting does not panic. *)
Lemma WithRetry_Err {A} cfg (fn : io E A) isR e :
  (∀ e, ∃ err, (fn e).1 = Err err) → (∀ d e, (sleep d e).1 ≠ Panic) →
  ∃ err e', WithRetry cfg fn isR e = (Err err, e').
Proof.
  intros Hfn Hsl. unfold WithRetry. generalize (EText ""), 0. revert e.
  induction (S (Z.to_nat (MaxRetries cfg))) as [|f IH]; intros e er att; [by do 2 eexists|].
  cbn [retry_loop]. unfold try_. destruct (Hfn e) as [x Hx].
  destruct (fn e) as [r e1]. cbn [fst] in Hx. subst r.
  destruct (match isR with Some p => _ | None => _ end); [by do 2 eexists|].
  unfold mbind, io_bind.
  destruct ((if att <? MaxRetries cfg then pause cfg att else mret tt) e1) as [[[]|er1|] e2] eqn:Ep;
    [apply IH|by do 2 eexists|]. exfalso.
  destruct (att <? MaxRetries cfg); [|done]. unfold pause in Ep.
  case_match; [destruct (Int63n _ e1) as [j e3]|]; eapply Hsl; by rewrite Ep.
Qed.

Section outcome.
Context {A : Type} (cfg : RetryConfig) (fn : io E A) (isR : option (error → bool)).
Variable cost : E → Z.
Hypothesis cost_fn : ∀ e, cost (fn e).2 = cost e + 1.
Hypothesis cost_sleep : ∀ d e, cost (sleep d e).2 = cost e.
Hypothesis cost_rand : ∀ n e, cost (Int63n n e).2 = cost e.

(** How a retried call ends, after [n] attempts. *)
Definition ends (n : Z) (r : result A) (e' : E) : Prop :=
  match r with
  | Ok a => ∃ e1, fn e1 = (Ok a, e')
  | Panic => True
  | Err x =>
      (∃ e1 p, isR = Some p ∧ fn e1 = (Err x, e') ∧ p x = false) ∨
      (∃ e1 d, sleep d e1 = (Err x, e')) ∨
      (∃ e1 y, x = errAttempts cfg y ∧ fn e1 = (Err y, e') ∧ n = MaxRetries cfg + 1)
  end.

Lemma pause_inv att e :
  ∃ d e1, pause cfg att e = sleep d e1 ∧ cost e1 = cost e.
Proof.
  unfold pause. case_match; [|by eauto].
  pose proof (cost_rand (Z.max (Z.quot (backoff cfg att) 4) 1) e) as Hc.
  destruct (Int63n _ e) as [j e1]. eauto.
Qed.

(** One attempt, without unfolding the next one. *)
Lemma retry_loop_S f att er :
  retry_loop cfg fn isR (S f) att er = try_ fn (λ r,
    match r with
    | Err err =>
        if match isR with Some p => negb (p err) | None => false end then fail err
        else _ ← (if att <? MaxRetries cfg then pause cfg att else mret tt);
             retry_loop cfg fn isR f (att + 1) err
    | _ => lift r
    end).
Proof. done. Qed.

Lemma retry_loop_outcome f att er e :
  att + Z.of_nat (S f) = MaxRetries cfg + 1 → 0 <= att →
  let '(r, e') := retry_loop cfg fn isR (S f) att er e in
  ends (att + (cost e' - cost e)) r e' ∧ cost e + 1 <= cost e' <= cost e + Z.of_nat (S f).
Proof.
  revert att er e. induction f as [|f IH]; intros att er e Hatt H0; rewrite retry_loop_S;
    unfold try_; pose proof (cost_fn e) as Hc; destruct (fn e) as [[a|x|] e1] eqn:Ef; cbn in Hc.
  all: try (cbn; split; [by eauto|lia]).
  - destruct (match isR with Some p => _ | None => _ end) eqn:Er.
    { destruct isR as [p|] eqn:EisR; [|done]. split; [|cbn; lia]. left. exists e, p.
      split; [done|]. split; [done|]. by destruct (p x). }
    unfold mbind, io_bind. destruct (Z.ltb_spec att (MaxRetries cfg)); [lia|]. cbn.
    split; [|lia]. right. right. exists e, x. repeat split; [done|lia].
  - destruct (match isR with Some p => _ | None => _ end) eqn:Er.
    { destruct isR as [p|] eqn:EisR; [|done]. split; [|cbn; lia]. left. exists e, p.
      split; [done|]. split; [done|]. by destruct (p x). }
    unfold mbind, io_bind. destruct (Z.ltb_spec att (MaxRetries cfg)); [|lia].
    destruct (pause_inv att e1) as (d & e2 & -> & Hc2). pose proof (cost_sleep d e2) as Hc3.
    destruct (sleep d e2) as [[[]|y|] e3] eqn:Es; cbn in Hc3; [|cbn; split; [|lia]..].
    + specialize (IH (att + 1) x e3 ltac:(lia) ltac:(lia)).
      destruct (retry_loop cfg fn isR (S f) (att + 1) x e3) as [r e4].
      destruct IH as [Hends Hb]. split; [|lia].
      replace (att + (cost e4 - cost e)) with (att + 1 + (cost e4 - cost e3)) by lia. done.
    + right. left. eauto.
    + done.
Qed.
End outcome.
End retry.

Lemma backoff_exact cfg att :
  0 <= att <= MaxRetries cfg → 0 <= BaseDelay cfg → MaxRetries cfg < 63 →
  BaseDelay cfg * 2 ^ MaxRetries cfg < 2 ^ 63 →
  backoff cfg att = Z.min (BaseDelay cfg * 2 ^ att) (MaxDelay cfg).
Proof.
  intros Ha Hb Hm Ho. unfold backoff. rewrite Z.shiftl_1_l.
  assert (2 ^ att <= 2 ^ MaxRetries cfg) by (apply Z.pow_le_mono_r; lia).
  assert (2 ^ MaxRetries cfg < 2 ^ 63) by (apply Z.pow_lt_mono_r; lia).
  assert (0 < 2 ^ att) by (apply Z.pow_pos_nonneg; lia).
  rewrite (wrapS_small 64 (2 ^ att)) by lia.
  rewrite wrapS_small by (change (64 - 1) with 63; nia). case_match eqn:E; lia.
Qed.

(** ** Properties *)

(** [WithRetry] calls the function at least once and at most [MaxRetries+1]
    times ([cost] counts the calls); it succeeds exactly with what the last call
    returned, and otherwise reports a non-retriable error of the last call
    unchanged, the context's error, or, only after [MaxRetries+1] calls, the last
    call's error wrapped with the number of attempts. *)
Theorem WithRetry_outcome {E} `{!Runtime E} {A} cfg (fn : io E A) isR (cost : E → Z) e :
  (∀ e, cost (fn e).2 = cost e + 1) → (∀ d e, cost (sleep d e).2 = cost e) →
  (∀ n e, cost (Int63n n e).2 = cost e) → 0 <= MaxRetries cfg →
  let '(r, e') := WithRetry cfg fn isR e in
  ends cfg fn isR (cost e' - cost e) r e' ∧
  cost e + 1 <= cost e' <= cost e + MaxRetries cfg + 1.
Proof.
  intros Hf Hs Hr Hm. unfold WithRetry.
  pose proof (retry_loop_outcome cfg fn isR cost Hf Hs Hr
    (Z.to_nat (MaxRetries cfg)) 0 (EText "") e ltac:(lia) ltac:(lia)) as H.
  destruct (retry_loop _ _ _ _ _ _ _) as [r e']. destruct H as [He Hb].
  rewrite Z.add_0_l in He. split; [done|lia].
Qed.

(** C29: before retry [attempt+1] the program waits [BaseDelay * 2^attempt] capped
    at [MaxDelay], plus a jitter of less than a quarter of that, as long as the
    configured delays fit in int64. *)
Theorem pause_bounds {E} `{!Runtime E, !RuntimeLaws E} cfg attempt e :
  0 <= attempt <= MaxRetries cfg → MaxRetries cfg < 63 →
  0 < BaseDelay cfg → 4 <= MaxDelay cfg < 2 ^ 62 → BaseDelay cfg * 2 ^ MaxRetries cfg < 2 ^ 63 →
  ∃ d e1, pause cfg attempt e = sleep d e1 ∧
    let b := Z.min (BaseDelay cfg * 2 ^ attempt) (MaxDelay cfg) in
    b <= d <= b + b / 4.
Proof.
  intros Ha Hm Hb Hd Ho. unfold pause. rewrite backoff_exact by lia.
  set (b := Z.min _ _).
  assert (0 < BaseDelay cfg * 2 ^ attempt) as Hpos.
  { apply Z.mul_pos_pos; [lia|]. apply Z.pow_pos_nonneg; lia. }
  assert (0 < b < 2 ^ 62) as Hb0 by (unfold b; lia). destruct (Z.ltb_spec 0 b); [|lia].
  rewrite Z.quot_div_nonneg by lia.
  pose proof (Int63n_range (Z.max (b / 4) 1) e ltac:(lia)) as Hj.
  destruct (Int63n (Z.max (b / 4) 1) e) as [j e']. cbn in Hj.
  pose proof (Z.div_mod b 4 ltac:(lia)). pose proof (Z.mod_pos_bound b 4 ltac:(lia)).
  rewrite wrapS_small by (change (64 - 1) with 63; lia).
  exists (b + j), e'. split; [done|]. unfold b in *. lia.
Qed.

(** ** Witnesses *)

(** A scripted environment: a call counter; waiting is never cancelled. *)
#[local] Instance counting_runtime : Runtime Z :=
  { Int63n n e := (0, e); sleep d e := (Ok tt, e); ctx_Err _ := None }.

#[local] Instance counting_laws : RuntimeLaws Z.
Proof. split. intros n e Hn. cbn. lia. Qed.

(** Fails twice, then returns 7. *)
Definition third_time : io Z Z := λ n,
  if n <? 2 then (Err (EText "connection refused"), n + 1) else (Ok 7, n + 1).

Lemma WithRetry_outcome_witness :
  let '(r, e') := WithRetry DefaultRetryConfig third_time None 0 in
  ends DefaultRetryConfig third_time None (e' - 0) r e' ∧
  0 + 1 <= e' <= 0 + MaxRetries DefaultRetryConfig + 1.
Proof.
  apply (WithRetry_outcome DefaultRetryConfig third_time None id 0);
    [|reflexivity|reflexivity|by vm_compute].
  intros e. unfold third_time, id. destruct (e <? 2); reflexivity.
Defined.

Lemma pause_bounds_witness :
  ∃ d e1, pause DefaultRetryConfig 3 0 = sleep d e1 ∧
    let b := Z.min (BaseDelay DefaultRetryConfig * 2 ^ 3) (MaxDelay DefaultRetryConfig) in
    b <= d <= b + b / 4.
Proof. apply (pause_bounds DefaultRetryConfig 3 0); first [by vm_compute|split; by vm_compute]. Defined.
