(* ===== verification/Execution.v ===== *)
(** * eth/execution: adaptive batches of logs (src/eth/execution/batch_size.go,
    src/eth/execution/client.go)

    The node is an interface, [ExecutionRPC], over an environment state: every
    call may answer anything, and answer differently next time.  [FetchLogs] runs
    over the adaptive batch size, that environment and the state of its
    callback.  Its loop takes fuel; [FetchLogs_total] bounds the fuel it needs.

    The specification is stated for a node that reports the logs of one chain:
    the batches handed to the callback then are consecutive block ranges whose
    logs are exactly the chain's, in chain order. *)

From S2P Require Import Prelude Retry.

#[local] Open Scope go_scope.

(** ** Adaptive batch size *)

Definition defaultMinBatchSize : Z := 200.
Definition defaultMaxBatchSize : Z := 10000.

Record AdaptiveBatchSize := mkBatchSize {
  current : Z;
  bmin : Z;
  bmax : Z;
}.

Definition NewAdaptiveBatchSize (min max : Z) : AdaptiveBatchSize :=
  let min := if min =? 0 then defaultMinBatchSize else min in
  let max := if max =? 0 then defaultMaxBatchSize else max in
  let min := if max <? min then max else min in
  mkBatchSize max min max.

Definition Decrease (a : AdaptiveBatchSize) : AdaptiveBatchSize :=
  let c := current a / 2 in
  mkBatchSize (if c <? bmin a then bmin a else c) (bmin a) (bmax a).

Definition Increase (a : AdaptiveBatchSize) : AdaptiveBatchSize :=
  let increment := current a / 10 in
  let increment := if 100 <? increment then 100 else increment in
  let increment := if increment <? 1 then 1 else increment in
  let c := current a +u64 increment in
  mkBatchSize (if bmax a <? c then bmax a else c) (bmin a) (bmax a).

(** ** Logs *)

(** The fields of [types.Log] the program reads. *)
Record Log := mkLog {
  Topics : list bytes;
  Data : bytes;
  l_BlockNumber : Z;
  l_TxHash : bytes;
  TxIndex : Z;
  l_BlockHash : bytes;
  l_Index : Z;
}.

Record BlockLogs := mkBlockLogs {
  bl_BlockNumber : Z;
  bl_BlockTime : Z;
  Logs : list Log;
}.

(** The comparison of the [sort.Slice] call, as an order on keys. *)
Definition log_key (l : Log) : Z * Z * Z := (l_BlockNumber l, TxIndex l, l_Index l).

Definition key_le : relation (Z * Z * Z) := λ a b,
  a.1.1 < b.1.1 ∨ a.1.1 = b.1.1 ∧ (a.1.2 < b.1.2 ∨ a.1.2 = b.1.2 ∧ a.2 <= b.2).

#[global] Instance key_le_dec : RelDecision key_le.
Proof. intros a b. unfold key_le. apply _. Defined.

Definition log_le : relation Log := by_key log_key key_le.

#[global] Instance log_le_dec : RelDecision log_le := by_key_dec log_key key_le.

Definition errMissingTime (b : Z) : error :=
  EText ("missing block time for block " +:+ pretty b).

(** One iteration of the grouping loop over [result]. *)
Definition group_log (blockTimes : gmap Z Z) (result : list BlockLogs) (log : Log)
    : Prelude.result (list BlockLogs) :=
  let append bl := mkBlockLogs (bl_BlockNumber bl) (bl_BlockTime bl) (Logs bl ++ [log]) in
  match last result with
  | Some bl =>
      if bl_BlockNumber bl =? l_BlockNumber log
      then Ok (take (length result - 1) result ++ [append bl])
      else match blockTimes !! l_BlockNumber log with
        | None => Err (errMissingTime (l_BlockNumber log))
        | Some t => Ok (result ++ [append (mkBlockLogs (l_BlockNumber log) t [])])
        end
  | None =>
      match blockTimes !! l_BlockNumber log with
      | None => Err (errMissingTime (l_BlockNumber log))
      | Some t => Ok (result ++ [append (mkBlockLogs (l_BlockNumber log) t [])])
      end
  end.

Fixpoint group_loop (blockTimes : gmap Z Z) (result : list BlockLogs) (logs : list Log)
    : Prelude.result (list BlockLogs) :=
  match logs with
  | [] => Ok result
  | log :: logs' =>
      result' ← group_log blockTimes result log;
      group_loop blockTimes result' logs'
  end.

Definition groupLogsByBlock (logs : list Log) (blockTimes : gmap Z Z)
    : Prelude.result (list BlockLogs) :=
  match logs with
  | [] => Ok []
  | _ => group_loop blockTimes [] (merge_sort log_le logs)
  end.

(** The distinct block numbers, in order of first appearance. *)
Fixpoint unique_blocks (seen : list Z) (logs : list Log) : list Z :=
  match logs with
  | [] => []
  | log :: logs' =>
      if bool_decide (l_BlockNumber log ∈ seen) then unique_blocks seen logs'
      else l_BlockNumber log :: unique_blocks (l_BlockNumber log :: seen) logs'
  end.

(** ** Error classification *)

Inductive batchErrorCategory :=
  | errCategoryNone
  | errCategoryBlockRange
  | errCategoryRateLimit
  | errCategoryPayloadTooLarge
  | errCategoryTimeout.

#[global] Instance category_eq_dec : EqDecision batchErrorCategory.
Proof. solve_decision. Defined.

Definition categorizeBatchError (err : error) : batchErrorCategory :=
  let msg := ToLower (Error err) in
  if contains msg "block range" || contains msg "exceed" ||
     contains msg "query returned more than" then errCategoryBlockRange
  else if contains msg "rate limit" || contains msg "too many requests" ||
     contains msg "429" then errCategoryRateLimit
  else if contains msg "payload too large" || contains msg "request entity too large" ||
     contains msg "413" || contains msg "too large" then errCategoryPayloadTooLarge
  else if contains msg "timeout" || contains msg "deadline exceeded" ||
     contains msg "context deadline" then errCategoryTimeout
  else if contains msg "limit" || contains msg "too many" then errCategoryBlockRange
  else errCategoryNone.

(** ** The client *)

(** The JSON-RPC calls of the go-ethereum client. *)
Class ExecutionRPC (E : Type) := {
  (** [HeaderByNumber], the number of the header; [None] asks for the latest. *)
  HeaderByNumber : option Z → io E Z;
  (** [FilterLogs] for an address, a block range and a topic0 filter. *)
  FilterLogs : bytes → Z → Z → list bytes → io E (list Log);
  (** [BatchCallContext] of eth_getBlockByNumber: for each index of the batch an
      element error or the header's timestamp. *)
  BatchCallContext : list Z → io E (nat → result Z);
  (** [ChainID]. *)
  ChainID : io E Z;
}.

(** The loop state: the client's batch size, the environment, the callback's data. *)
Record Exec (E D : Type) := mkExec {
  batchSize : AdaptiveBatchSize;
  env : E;
  data : D;
}.
Arguments mkExec {E D} _ _ _.
Arguments batchSize {E D} _.
Arguments env {E D} _.
Arguments data {E D} _.

Definition on_env {E D A} : io E A → io (Exec E D) A :=
  zoom env (λ e s, mkExec (batchSize s) e (data s)).

Definition on_data {E D A} : io D A → io (Exec E D) A :=
  zoom data (λ d s, mkExec (batchSize s) (env s) d).

(** [on_env] for code with fuel. *)
Definition on_envf {E D A} : iof E A → iof (Exec E D) A :=
  zoomf env (λ e s, mkExec (batchSize s) e (data s)).

Definition on_batchSize {E D} (f : AdaptiveBatchSize → AdaptiveBatchSize) : io (Exec E D) unit :=
  λ s, (Ok tt, mkExec (f (batchSize s)) (env s) (data s)).

Definition FinalizedBlockNumber : Z := -3.

Definition blockTimestampMaxBatchSize : nat := 100.

Section client.
Context {E : Type} `{!Runtime E, !ExecutionRPC E} (retryConfig : RetryConfig).

(** [Number.Uint64()] keeps the low 64 bits. *)
Definition GetFinalizedBlock : io E Z :=
  n ← wrapM "get finalized block"
    (WithRetry retryConfig (HeaderByNumber (Some FinalizedBlockNumber)) None);
  mret (wrapU 64 n).

Definition GetHeadBlock : io E Z :=
  n ← wrapM "get head block" (WithRetry retryConfig (HeaderByNumber None) None);
  mret (wrapU 64 n).

Definition GetChainID : io E Z :=
  wrapM "get chain ID" (WithRetry retryConfig ChainID None).

(** Read the elements of one answered batch into [blockTimes]. *)
Fixpoint read_times (answer : nat → result Z) (i : nat) (chunk : list Z) (blockTimes : gmap Z Z)
    : result (gmap Z Z) :=
  match chunk with
  | [] => Ok blockTimes
  | b :: chunk' =>
      t ← wrap ("get block " +:+ pretty b) (answer i);
      read_times answer (S i) chunk' (<[b := wrapS 64 t]> blockTimes)
  end.

(** [slices.Chunk]: each iteration takes [blockTimestampMaxBatchSize] numbers. *)
Fixpoint timestamps_loop (fuel : nat) (blockNumbers : list Z) (blockTimes : gmap Z Z)
    : io E (gmap Z Z) :=
  match blockNumbers, fuel with
  | [], _ | _, O => mret blockTimes
  | _, S f =>
      let chunk := take blockTimestampMaxBatchSize blockNumbers in
      answer ← wrapM "batch get block timestamps"
        (WithRetry retryConfig (BatchCallContext chunk) None);
      blockTimes' ← lift (read_times answer 0 chunk blockTimes);
      timestamps_loop f (drop blockTimestampMaxBatchSize blockNumbers) blockTimes'
  end.

Definition getBlockTimestampsBatch (blockNumbers : list Z) : io E (gmap Z Z) :=
  timestamps_loop (length blockNumbers) blockNumbers ∅.

Definition packLogs (logs : list Log) : io E (list BlockLogs) :=
  match logs with
  | [] => mret []
  | _ =>
      blockTimes ← wrapM "fetch block timestamps"
        (getBlockTimestampsBatch (unique_blocks [] logs));
      lift (groupLogsByBlock logs blockTimes)
  end.

Definition fetchLogsBatch (address : bytes) (fromBlock toBlock : Z) (topics : list bytes)
    : io E (list Log) :=
  wrapM ("fetch logs [" +:+ pretty fromBlock +:+ "-" +:+ pretty toBlock +:+ "]")
    (WithRetry retryConfig (FilterLogs address fromBlock toBlock topics) None).

Section FetchLogs.
Context {D : Type} (address : bytes) (toBlock : Z) (topics : list bytes).
Variable callback : Z → list BlockLogs → io D unit.

(** [if ctx.Err() != nil { return ctx.Err() }]. *)
Definition check_ctx : io (Exec E D) unit := λ s,
  match ctx_Err (env s) with
  | Some e => (Err e, s)
  | None => (Ok tt, s)
  end.

(** [currentBlock + batchSize - 1], capped at [toBlock]. *)
Definition batch_end (currentBlock size : Z) : Z :=
  let batchEnd := currentBlock +u64 size -u64 1 in
  if toBlock <? batchEnd then toBlock else batchEnd.

(** The loop body: the next value of [currentBlock], unchanged on [continue]. *)
Definition FetchLogs_body (currentBlock : Z) : io (Exec E D) Z := λ s,
  let batchEnd := batch_end currentBlock (current (batchSize s)) in
  try_ (on_env (fetchLogsBatch address currentBlock batchEnd topics)) (λ r,
    match r with
    | Err err =>
        if bool_decide (categorizeBatchError err = errCategoryNone) then fail err
        else
          _ ← check_ctx;
          _ ← on_batchSize Decrease;
          mret currentBlock
    | Panic => lift Panic
    | Ok logs =>
        _ ← on_batchSize Increase;
        batchLogs ← on_env (packLogs logs);
        _ ← on_data (callback batchEnd batchLogs);
        _ ← check_ctx;
        mret (batchEnd +u64 1)
    end) s.

(** [None]: the loop is still running when the fuel is used up. *)
Fixpoint FetchLogs_loop (fuel : nat) (currentBlock : Z) (s : Exec E D)
    : option (result unit * Exec E D) :=
  if currentBlock <=? toBlock then
    match fuel with
    | O => None
    | S f =>
        match FetchLogs_body currentBlock s with
        | (Ok next, s') => FetchLogs_loop f next s'
        | (Err e, s') => Some (Err e, s')
        | (Panic, s') => Some (Panic, s')
        end
    end
  else Some (Ok tt, s).
End FetchLogs.

Definition FetchLogs {D} (fuel : nat) (address : bytes) (fromBlock toBlock : Z)
    (topics : list bytes) (callback : Z → list BlockLogs → io D unit) (s : Exec E D)
    : option (result unit * Exec E D) :=
  FetchLogs_loop address toBlock topics callback fuel fromBlock s.
End client.

(** ** Specification *)

(** The sizes the rest of the code relies on; 100 is the largest increment. *)
Definition batch_wf (a : AdaptiveBatchSize) : Prop :=
  1 <= bmin a <= current a ∧ current a <= bmax a ∧ bmax a + 100 < 2 ^ 64.

(** The blocks of a sorted sequence of logs. *)
Fixpoint blocks_of (times : Z → Z) (logs : list Log) : list BlockLogs :=
  match logs with
  | [] => []
  | log :: logs' =>
      match blocks_of times logs' with
      | bl :: rest =>
          if bl_BlockNumber bl =? l_BlockNumber log
          then mkBlockLogs (bl_BlockNumber bl) (bl_BlockTime bl) (log :: Logs bl) :: rest
          else mkBlockLogs (l_BlockNumber log) (times (l_BlockNumber log)) [log] :: bl :: rest
      | [] => [mkBlockLogs (l_BlockNumber log) (times (l_BlockNumber log)) [log]]
      end
  end.

Definition in_range (from to : Z) (l : Log) : Prop := from <= l_BlockNumber l <= to.

#[global] Instance in_range_dec from to l : Decision (in_range from to l).
Proof. unfold in_range. apply _. Defined.

(** The logs of blocks [from..to] of a chain, in chain order. *)
Definition logs_between (chain : list Log) (from to : Z) : list Log :=
  filter (in_range from to) (merge_sort log_le chain).

(** Consecutive ranges from [from] up to, excluding, [stop]. *)
Inductive consecutive : Z → list (Z * Z) → Z → Prop :=
  | consecutive_nil x : consecutive x [] x
  | consecutive_cons b e l stop :
      b <= e → consecutive (e + 1) l stop → consecutive b ((b, e) :: l) stop.

(** Call [callback] on each batch in order; stop at the first error. *)
Fixpoint run_callbacks {D} (callback : Z → list BlockLogs → io D unit)
    (batches : list (Z * list BlockLogs)) : io D unit :=
  match batches with
  | [] => mret tt
  | (batchEnd, logs) :: rest => _ ← callback batchEnd logs; run_callbacks callback rest
  end.

(** The batches of a chain for a list of ranges. *)
Definition batches_of (chain : list Log) (times : Z → Z) (ranges : list (Z * Z))
    : list (Z * list BlockLogs) :=
  (λ r, (r.2, blocks_of times (logs_between chain r.1 r.2))) <$> ranges.

(** A node whose successful answers are those of one chain: the logs in any order,
    the header times. *)
Class FaithfulNode (E : Type) `{!ExecutionRPC E} (address : bytes) (topics : list bytes)
    (chain : list Log) (times : Z → Z) := {
  chain_keys : NoDup (log_key <$> chain);
  faithful_logs b e en logs en' :
    FilterLogs address b e topics en = (Ok logs, en') →
    logs ≡ₚ filter (in_range b e) chain;
  faithful_times chunk en answer en' i b t :
    BatchCallContext chunk en = (Ok answer, en') → chunk !! i = Some b →
    answer i = Ok t → wrapS 64 t = times b;
}.

(** ** Lemmas: the batch size *)

Lemma batch_wf_new min max :
  is_uint 64 min → 0 <= max → max + 100 < 2 ^ 64 → batch_wf (NewAdaptiveBatchSize min max).
Proof.
  unfold is_uint, NewAdaptiveBatchSize, batch_wf, defaultMinBatchSize, defaultMaxBatchSize.
  intros Hmin Hmax Ho. cbn.
  destruct (Z.eqb_spec min 0), (Z.eqb_spec max 0); cbn; repeat case_match; lia.
Qed.

Lemma Decrease_wf a :
  batch_wf a → batch_wf (Decrease a) ∧ current (Decrease a) <= current a ∧
  bmin (Decrease a) = bmin a ∧ bmax (Decrease a) = bmax a.
Proof.
  unfold batch_wf, Decrease. cbn. intros H.
  pose proof (Z.div_mod (current a) 2 ltac:(lia)).
  pose proof (Z.mod_pos_bound (current a) 2 ltac:(lia)). case_match; lia.
Qed.

(** The additive step of [Increase]. *)
Lemma Increase_step a :
  batch_wf a → ∃ inc, 1 <= inc <= 100 ∧
    Increase a = mkBatchSize (Z.min (bmax a) (current a + inc)) (bmin a) (bmax a).
Proof.
  unfold batch_wf, Increase. intros H.
  exists (let i := current a / 10 in let i := if 100 <? i then 100 else i in
          if i <? 1 then 1 else i).
  cbv zeta. set (i := if _ <? 1 then _ else _).
  assert (1 <= i <= 100) as Hi by (unfold i; repeat case_match; lia).
  split; [done|]. rewrite wrapU_small by lia. f_equal. case_match; lia.
Qed.

Lemma Increase_wf a :
  batch_wf a → batch_wf (Increase a) ∧ current a <= current (Increase a) ∧
  bmin (Increase a) = bmin a ∧ bmax (Increase a) = bmax a.
Proof.
  intros H. destruct (Increase_step a H) as (inc & Hi & ->). unfold batch_wf in *. cbn. lia.
Qed.

Lemma batch_end_spec a cur to :
  batch_wf a → 0 <= cur <= to → to + bmax a < 2 ^ 64 →
  cur <= batch_end to cur (current a) <= to ∧
  batch_end to cur (current a) = Z.min to (cur + current a - 1).
Proof.
  intros Hwf Hcur Ho. unfold batch_wf, batch_end in *.
  rewrite (wrapU_small 64 (_ + _)) by lia. rewrite wrapU_small by lia. case_match; lia.
Qed.

(** ** Lemmas: the order on logs *)

#[global] Instance key_le_total : Total key_le.
Proof. intros [[a1 a2] a3] [[b1 b2] b3]. unfold key_le. cbn -[Z.le Z.lt]. lia. Qed.

#[global] Instance key_le_trans : Transitive key_le.
Proof. intros [[a1 a2] a3] [[b1 b2] b3] [[c1 c2] c3]. unfold key_le. cbn -[Z.le Z.lt]. lia. Qed.

#[global] Instance key_le_antisym : AntiSymm (=) key_le.
Proof.
  intros [[a1 a2] a3] [[b1 b2] b3]. unfold key_le. cbn -[Z.le Z.lt]. intros H1 H2.
  assert (a1 = b1) as -> by lia. assert (a2 = b2) as -> by lia.
  assert (a3 = b3) as -> by lia. done.
Qed.

#[global] Instance log_le_total : Total log_le := by_key_total log_key key_le.
#[global] Instance log_le_trans : Transitive log_le := by_key_trans log_key key_le.

Lemma sorted_logs l : StronglySorted log_le (merge_sort log_le l).
Proof. apply (StronglySorted_merge_sort _). Qed.

(** Logs with distinct keys have one sorted order. *)
Lemma sorted_logs_unique l1 l2 :
  NoDup (log_key <$> l1) → StronglySorted log_le l1 → StronglySorted log_le l2 → l1 ≡ₚ l2 →
  l1 = l2.
Proof.
  intros Hnd. apply (sorted_by_unique log_key key_le).
  intros x y Hx Hy Hk. apply list_elem_of_lookup in Hx as [i Hi], Hy as [j Hj].
  assert (i = j) as ->; [|congruence].
  eapply NoDup_lookup; [exact Hnd| |]; rewrite list_lookup_fmap; [by rewrite Hi|].
  by rewrite Hj, Hk.
Qed.

(** ** Lemmas: grouping *)

(** The grouping loop appends a log to the blocks of the previous ones. *)
Lemma group_log_cons bt bl r rest x :
  group_log bt (bl :: r :: rest) x = out ← group_log bt (r :: rest) x; Ok (bl :: out).
Proof.
  unfold group_log. change (last (bl :: r :: rest)) with (last (r :: rest)).
  destruct (last (r :: rest)) as [b|] eqn:El; [|by apply last_None in El].
  destruct (_ =? _).
  - cbn. rewrite Nat.sub_0_r. done.
  - by destruct (bt !! _).
Qed.

Lemma blocks_of_nil times l : blocks_of times l = [] → l = [].
Proof.
  destruct l as [|x l]; [done|]. cbn. destruct (blocks_of times l); [done|].
  by case_match.
Qed.

(** The head of the blocks is decided by the first log. *)
Lemma blocks_of_head times x l :
  ∃ bl rest, blocks_of times (x :: l) = bl :: rest ∧ bl_BlockNumber bl = l_BlockNumber x ∧
    bl_BlockTime bl = times (l_BlockNumber x).
Proof.
  revert x. induction l as [|y l IH]; intros x; [cbn; eauto|].
  destruct (IH y) as (bl & rest & E & Hn & Ht).
  change (blocks_of times (x :: y :: l)) with
    (match blocks_of times (y :: l) with
     | bl :: rest => if bl_BlockNumber bl =? l_BlockNumber x
                     then mkBlockLogs (bl_BlockNumber bl) (bl_BlockTime bl) (x :: Logs bl) :: rest
                     else mkBlockLogs (l_BlockNumber x) (times (l_BlockNumber x)) [x] :: bl :: rest
     | [] => [mkBlockLogs (l_BlockNumber x) (times (l_BlockNumber x)) [x]]
     end).
  rewrite E. destruct (Z.eqb_spec (bl_BlockNumber bl) (l_BlockNumber x)) as [Ex|]; [|eauto].
  do 2 eexists. split; [done|]. cbn. split; [done|]. rewrite Ht. congruence.
Qed.

Lemma group_log_snoc times bt l x :
  bt !! l_BlockNumber x = Some (times (l_BlockNumber x)) →
  group_log bt (blocks_of times l) x = Ok (blocks_of times (l ++ [x])).
Proof.
  intros Hbt. induction l as [|a l IH]; [unfold group_log; cbn; by rewrite Hbt|].
  cbn [blocks_of app]. destruct (blocks_of times l) as [|bl rest] eqn:El.
  - apply blocks_of_nil in El as ->. cbn. unfold group_log. cbn.
    rewrite (Z.eqb_sym (l_BlockNumber x)).
    destruct (Z.eqb_spec (l_BlockNumber a) (l_BlockNumber x)) as [E|]; cbn; [by rewrite E|].
    by rewrite Hbt.
  - destruct rest as [|r rest].
    + unfold group_log in IH |- *. cbn in IH |- *.
      destruct (blocks_of times (l ++ [x])) as [|g G] eqn:EG.
      { apply blocks_of_nil in EG. by destruct l. }
      destruct (Z.eqb_spec (bl_BlockNumber bl) (l_BlockNumber x)) as [Ex|Ex];
        [|rewrite Hbt in IH]; injection IH as <- <-; cbn;
        destruct (Z.eqb_spec (bl_BlockNumber bl) (l_BlockNumber a)); cbn;
        rewrite ?Hbt, ?Ex, ?Z.eqb_refl; try done; rewrite <- ?Ex, ?Z.eqb_refl; try done.
      all: destruct (Z.eqb_spec (bl_BlockNumber bl) (l_BlockNumber x)); congruence.
    + rewrite group_log_cons in IH. apply bind_Ok in IH as (G & HG & [= HG']).
      rewrite <- HG'. destruct (_ =? _).
      * rewrite group_log_cons, HG. done.
      * rewrite group_log_cons, group_log_cons, HG. done.
Qed.

Lemma group_loop_spec times bt done_ l :
  (∀ x, x ∈ l → bt !! l_BlockNumber x = Some (times (l_BlockNumber x))) →
  group_loop bt (blocks_of times done_) l = Ok (blocks_of times (done_ ++ l)).
Proof.
  revert done_. induction l as [|x l IH]; intros done_ Hbt; cbn [group_loop].
  { by rewrite app_nil_r. }
  rewrite (group_log_snoc times) by (apply Hbt; left). cbn [mbind result_bind].
  rewrite IH by (intros; apply Hbt; by right). by rewrite <- app_assoc.
Qed.

(** With the times of every block, grouping yields the blocks of the sorted logs. *)
Lemma groupLogsByBlock_spec times bt logs :
  (∀ x, x ∈ logs → bt !! l_BlockNumber x = Some (times (l_BlockNumber x))) →
  groupLogsByBlock logs bt = Ok (blocks_of times (merge_sort log_le logs)).
Proof.
  intros Hbt. destruct logs as [|x logs]; [done|].
  unfold groupLogsByBlock. rewrite (group_loop_spec times bt []); [done|].
  intros y. rewrite merge_sort_Permutation. apply Hbt.
Qed.

Lemma mjoin_blocks_of times l : mjoin (Logs <$> blocks_of times l) = l.
Proof.
  induction l as [|x l IH]; [done|]. cbn [blocks_of].
  destruct (blocks_of times l) as [|bl rest]; cbn in *; [by rewrite <- IH|].
  case_match; cbn in *; by rewrite <- IH.
Qed.

(** Each block holds logs of its own number, with its header time. *)
Lemma blocks_of_Forall times l :
  Forall (λ bl, bl_BlockTime bl = times (bl_BlockNumber bl) ∧ Logs bl ≠ [] ∧
    Forall (λ x, l_BlockNumber x = bl_BlockNumber bl) (Logs bl)) (blocks_of times l).
Proof.
  induction l as [|x l IH]; [constructor|]. cbn [blocks_of].
  destruct (blocks_of times l) as [|bl rest]; [repeat constructor; done|].
  apply Forall_cons in IH as [(Ht & Hne & Hbl) IH].
  destruct (Z.eqb_spec (bl_BlockNumber bl) (l_BlockNumber x)).
  - constructor; [|done]. cbn. split; [done|]. split; [done|]. by constructor.
  - repeat constructor; done.
Qed.

Lemma blocks_of_sorted times l :
  StronglySorted log_le l → StronglySorted Z.lt (bl_BlockNumber <$> blocks_of times l).
Proof.
  induction 1 as [|x l Hs IH Hx]; [constructor|]. cbn [blocks_of].
  assert (Forall (λ n, l_BlockNumber x <= n) (bl_BlockNumber <$> blocks_of times l)) as Hle.
  { apply Forall_fmap, Forall_forall. intros bl Hbl.
    pose proof (proj1 (Forall_forall _ _) (blocks_of_Forall times l) bl Hbl) as (_ & Hne & HF).
    destruct (Logs bl) as [|y ys] eqn:E; [done|]. apply Forall_cons in HF as [Hyb _].
    assert (y ∈ l) as Hy.
    { rewrite <- (mjoin_blocks_of times l). apply list_elem_of_join.
      exists (Logs bl). rewrite E. split; [left|]. rewrite <- E. by apply list_elem_of_fmap_2. }
    rewrite Forall_forall in Hx. specialize (Hx y Hy). unfold log_le, by_key, key_le in Hx.
    cbn -[Z.le Z.lt] in Hx |- *. lia. }
  destruct (blocks_of times l) as [|bl rest]; [repeat constructor|].
  destruct (Z.eqb_spec (bl_BlockNumber bl) (l_BlockNumber x)) as [E|E]; [done|].
  cbn [fmap list_fmap bl_BlockNumber]. constructor; [done|]. constructor.
  - apply Forall_cons in Hle as [Hle _]. lia.
  - apply StronglySorted_inv in IH as [_ IH]. apply Forall_cons in Hle as [Hle _].
    eapply Forall_impl; [exact IH|]. intros n Hn. cbn in Hn |- *. lia.
Qed.

Lemma elem_unique_blocks seen logs x :
  x ∈ logs → l_BlockNumber x ∈ seen ∨ l_BlockNumber x ∈ unique_blocks seen logs.
Proof.
  revert seen. induction logs as [|y logs IH]; intros seen; [by intros []%elem_of_nil|].
  cbn. intros [->|Hx]%elem_of_cons; case_bool_decide as Hd.
  - by left.
  - right. left.
  - by apply IH.
  - destruct (IH (l_BlockNumber y :: seen) Hx) as [[->|]%elem_of_cons|]; [right; left|by left|].
    right. by right.
Qed.

(** ** Lemmas: the loop over a faithful node *)

Section faithful.
Context {E D : Type} `{!Runtime E, !ExecutionRPC E} (retryConfig : RetryConfig).
Context (address : bytes) (topics : list bytes) (chain : list Log) (times : Z → Z).
Context `{Hnode : !FaithfulNode E address topics chain times}.
Variables (toBlock : Z) (callback : Z → list BlockLogs → io D unit).

(** Only right times were recorded. *)
Definition timed (bt : gmap Z Z) : Prop := ∀ b t, bt !! b = Some t → t = times b.

Lemma read_times_spec answer i chunk bt bt' :
  (∀ j b t, chunk !! j = Some b → answer (i + j)%nat = Ok t → wrapS 64 t = times b) →
  timed bt → read_times answer i chunk bt = Ok bt' →
  timed bt' ∧ ∀ b, b ∈ chunk ∨ is_Some (bt !! b) → is_Some (bt' !! b).
Proof.
  revert i bt. induction chunk as [|b0 chunk IH]; intros i bt Ha Ht H; cbn [read_times] in H.
  { inv_ok. split; [done|]. intros b [[]%elem_of_nil|]; done. }
  inv_ok. destruct (IH (S i) (<[b0:=wrapS 64 r]> bt)) as [Ht' Hd]; [| |done|].
  - intros j b t Hj Hans. apply (Ha (S j)); [done|]. by rewrite Nat.add_succ_r.
  - intros b t [[<- <-]|[_ Hb]]%lookup_insert_Some; [|by apply Ht].
    apply (Ha 0%nat); [done|]. by rewrite Nat.add_0_r.
  - split; [done|]. intros b Hb. apply Hd. rewrite lookup_insert_is_Some.
    destruct (decide (b0 = b)); [by right; left|].
    destruct Hb as [[->|]%elem_of_cons|]; [done|by left|right; right; done].
Qed.

Lemma timestamps_loop_spec fuel ns bt e bt' e' :
  (length ns <= fuel)%nat → timed bt →
  timestamps_loop retryConfig fuel ns bt e = (Ok bt', e') →
  timed bt' ∧ ∀ b, b ∈ ns ∨ is_Some (bt !! b) → is_Some (bt' !! b).
Proof.
  revert ns bt e. induction fuel as [|f IH]; intros ns bt e Hlen Ht H.
  { destruct ns; cbn in Hlen; [|lia]. cbn in H. injection H as <- <-.
    split; [done|]. intros b [[]%elem_of_nil|]; done. }
  destruct ns as [|n ns].
  { cbn in H. injection H as <- <-. split; [done|]. intros b [[]%elem_of_nil|]; done. }
  cbn [timestamps_loop] in H. cbv zeta in H.
  set (size := blockTimestampMaxBatchSize) in H.
  assert (1 <= size)%nat as Hsize by (unfold size, blockTimestampMaxBatchSize; lia).
  clearbody size. inv_io. apply WithRetry_Ok in E0 as [e1 Hcall].
  apply read_times_spec in E1 as [Ht1 Hd1]; [| |done].
  - apply IH in H as [Ht2 Hd2]; [|rewrite length_drop; cbn [length] in *; lia|done].
    split; [done|]. intros b Hb. apply Hd2.
    rewrite <- (take_drop size (n :: ns)), elem_of_app in Hb.
    destruct Hb as [[Hb|Hb]|Hb]; [right; auto|by left|right; auto].
  - intros j b t Hj Hans. by eapply (faithful_times (E:=E)); [exact Hcall|exact Hj|].
Qed.

Lemma packLogs_spec logs e bls e' :
  packLogs retryConfig logs e = (Ok bls, e') → bls = blocks_of times (merge_sort log_le logs).
Proof.
  intros H. destruct logs as [|x logs]; [by injection H as <- _|].
  unfold packLogs in H. inv_io. rename H into Hg.
  apply timestamps_loop_spec in E0 as [Ht Hd]; [|done|done].
  rewrite (groupLogsByBlock_spec times) in Hg; [by injection Hg as <-|].
  intros y Hy. destruct (elem_unique_blocks [] (x :: logs) y Hy) as [[]%elem_of_nil|Hu].
  destruct (Hd (l_BlockNumber y)) as [t Hbt]; [by left|]. by rewrite Hbt, (Ht _ _ Hbt).
Qed.

Lemma fetchLogsBatch_spec b e en logs en' :
  fetchLogsBatch retryConfig address b e topics en = (Ok logs, en') →
  merge_sort log_le logs = logs_between chain b e.
Proof.
  intros H. unfold fetchLogsBatch in H. inv_io. apply WithRetry_Ok in H as [en1 H].
  apply (faithful_logs (FaithfulNode:=Hnode)) in H. unfold logs_between.
  assert (merge_sort log_le logs ≡ₚ filter (in_range b e) (merge_sort log_le chain)) as Hp.
  { by rewrite !merge_sort_Permutation. }
  apply sorted_logs_unique; [|apply sorted_logs|apply StronglySorted_filter, sorted_logs|done].
  rewrite Hp, merge_sort_Permutation. eapply sublist_NoDup; [apply (chain_keys (FaithfulNode:=Hnode))|].
  by apply fmap_sublist, sublist_filter.
Qed.

(** The batch of a range. *)
Definition batch_of (b e : Z) : list BlockLogs := blocks_of times (logs_between chain b e).

(** One iteration: retry the range with a smaller size, stop before the callback,
    or hand the range to the callback. *)
Lemma FetchLogs_body_spec cur s r s' :
  batch_wf (batchSize s) → 0 <= cur <= toBlock → toBlock + bmax (batchSize s) < 2 ^ 64 →
  FetchLogs_body retryConfig address toBlock topics callback cur s = (r, s') →
  batch_wf (batchSize s') ∧ bmax (batchSize s') = bmax (batchSize s) ∧
  (data s' = data s ∧ (r = Ok cur ∨ ∀ a, r ≠ Ok a) ∨
   ∃ e r0, cur <= e <= toBlock ∧ callback e (batch_of cur e) (data s) = (r0, data s') ∧
     (r = Ok (e + 1) ∧ r0 = Ok tt ∨
      (∀ a, r ≠ Ok a) ∧ (r0 = Ok tt ∨ r0 = Panic ∧ r = Panic ∨ ∃ x, r0 = Err x ∧ r = Err x))).
Proof.
  intros Hwf Hcur Ho. unfold FetchLogs_body, try_, on_env, on_data, zoom.
  destruct (batch_end_spec _ cur toBlock Hwf Hcur Ho) as [Hbe _].
  set (be := batch_end _ _ _) in *.
  destruct (fetchLogsBatch retryConfig address cur be topics (env s)) as [[logs|err|] e1] eqn:Ef.
  - apply fetchLogsBatch_spec in Ef. unfold mbind, io_bind, on_batchSize. cbn.
    destruct (Increase_wf _ Hwf) as (Hwf' & _ & _ & Hmax).
    destruct (packLogs retryConfig logs e1) as [[bls|err|] e2] eqn:Ep; cbn;
      [|intros [= <- <-]; cbn; split; [done|]; split; [done|]; left; auto..].
    apply packLogs_spec in Ep. rewrite Ef in Ep.
    destruct (callback be bls (data s)) as [[[]|err|] d'] eqn:Ec; cbn.
    + unfold check_ctx. cbn. rewrite wrapU_small by (unfold batch_wf in Hwf; lia).
      destruct (ctx_Err e2) as [x|]; cbn; intros [= <- <-]; cbn;
        (split; [done|]; split; [done|]; right; exists be, (Ok tt); unfold batch_of;
         rewrite <- Ep; split; [done|]; split; [done|]; auto).
    + intros [= <- <-]. cbn. split; [done|]. split; [done|]. right. exists be, (Err err).
      unfold batch_of. rewrite <- Ep. naive_solver.
    + intros [= <- <-]. cbn. split; [done|]. split; [done|]. right. exists be, Panic.
      unfold batch_of. rewrite <- Ep. naive_solver.
  - case_bool_decide; [intros [= <- <-]; cbn; split; [done|]; split; [done|]; left; auto|].
    unfold mbind, io_bind, check_ctx, on_batchSize. cbn.
    destruct (Decrease_wf _ Hwf) as (Hwf' & _ & _ & Hmax).
    destruct (ctx_Err e1) as [x|]; cbn; intros [= <- <-]; cbn; split; [done|..|done|];
      (split; [done|]); left; auto.
  - intros [= <- <-]; cbn; split; [done|]; split; [done|]; left; auto.
Qed.

Lemma consecutive_le b l stop : consecutive b l stop → b <= stop.
Proof. induction 1; lia. Qed.

(** What the callback has seen when the loop returns. *)
Lemma FetchLogs_loop_spec fuel cur s r s' :
  batch_wf (batchSize s) → 0 <= cur <= toBlock + 1 → toBlock + bmax (batchSize s) < 2 ^ 64 →
  FetchLogs_loop retryConfig address toBlock topics callback fuel cur s = Some (r, s') →
  batch_wf (batchSize s') ∧ ∃ ranges stop r0,
    consecutive cur ranges stop ∧ stop <= toBlock + 1 ∧
    run_callbacks callback (batches_of chain times ranges) (data s) = (r0, data s') ∧
    (r = Ok tt → stop = toBlock + 1) ∧ (r0 = Ok tt ∨ r0 = r).
Proof.
  revert cur s. induction fuel as [|f IH]; intros cur s Hwf Hcur Ho H; cbn [FetchLogs_loop] in H.
  all: destruct (Z.leb_spec cur toBlock) as [Hle|Hgt];
    [|injection H as <- <-; split; [done|]; exists [], cur, (Ok tt);
      split; [constructor|]; split; [lia|]; split; [done|]; split; [lia|by left]].
  { done. }
  destruct (FetchLogs_body retryConfig address toBlock topics callback cur s) as [r1 s1] eqn:Eb.
  apply FetchLogs_body_spec in Eb as (Hwf1 & Hmax & Hcase); [|done|lia|done].
  destruct Hcase as [[Hd [->|Hne]]|(e & r0 & He & Hcb & Hcase)].
  - rewrite <- Hd. apply (IH cur s1); [done|lia|by rewrite Hmax|done].
  - assert (∀ a, r ≠ Ok a) as Hne'.
    { destruct r1 as [a| |]; [by destruct (Hne a)|injection H as <- _; done..]. }
    assert (s' = s1) as -> by (destruct r1; [by destruct (Hne a)|congruence..]).
    split; [done|]. exists [], cur, (Ok tt). rewrite Hd.
    split; [constructor|]. split; [lia|]. split; [done|]. split; [|by left].
    intros ->. by destruct (Hne' tt).
  - destruct Hcase as [[-> ->]|[Hne Hr0]].
    + destruct (IH (e + 1) s1) as (Hwf' & ranges & stop & r2 & Hc & Hs & Hr & Hok & Hr2);
        [done|lia|by rewrite Hmax|done|].
      split; [done|]. exists ((cur, e) :: ranges), stop, r2.
      split; [by constructor; [lia|]|]. split; [done|]. split; [|done].
      cbn. unfold mbind, io_bind. fold (batch_of cur e). by rewrite Hcb.
    + assert (s' = s1 ∧ (r0 = Ok tt ∨ r0 = r) ∧ r ≠ Ok tt) as (-> & Hr & Hn).
      { destruct r1 as [a| |]; [by destruct (Hne a)|..]; injection H as <- <-; naive_solver. }
      split; [done|]. exists [(cur, e)], (e + 1), r0.
      split; [constructor; [lia|constructor]|]. split; [lia|]. split; [|by split].
      cbn. unfold mbind, io_bind. fold (batch_of cur e). rewrite Hcb.
      by destruct Hr0 as [->|[[-> _]|(x & -> & _)]].
Qed.
End faithful.

(** The logs of consecutive ranges are the logs of the whole range. *)
Lemma logs_between_split chain a b c :
  a <= b + 1 → b <= c →
  logs_between chain a b ++ logs_between chain (b + 1) c = logs_between chain a c.
Proof.
  intros Hab Hbc. unfold logs_between.
  pose proof (sorted_logs chain) as Hs. induction Hs as [|x l Hs IH Hx]; [done|].
  rewrite !filter_cons.
  destruct (decide (in_range a b x)) as [H1|H1], (decide (in_range (b + 1) c x)) as [H2|H2],
    (decide (in_range a c x)) as [H3|H3]; unfold in_range in H1, H2, H3; try lia.
  - cbn. by rewrite IH.
  - rewrite <- IH. replace (filter (in_range a b) l) with (@nil Log); [done|]. symmetry.
    apply elem_of_nil_inv. intros y [Hy Hin]%list_elem_of_filter.
    rewrite Forall_forall in Hx. specialize (Hx y Hin). unfold in_range in Hy.
    unfold log_le, by_key, key_le in Hx. cbn -[Z.le Z.lt] in Hx. lia.
  - done.
Qed.

Lemma logs_between_empty chain from to : to < from → logs_between chain from to = [].
Proof.
  intros H. apply elem_of_nil_inv. intros y [Hy _]%list_elem_of_filter.
  unfold in_range in Hy. lia.
Qed.

(** All the logs of a list of batches, in the order the callback sees them. *)
Definition batch_logs (batches : list (Z * list BlockLogs)) : list Log :=
  mjoin ((λ b, mjoin (Logs <$> b.2)) <$> batches).

Lemma batch_logs_consecutive chain times from ranges stop :
  consecutive from ranges stop →
  batch_logs (batches_of chain times ranges) = logs_between chain from (stop - 1).
Proof.
  induction 1 as [x|b e l stop Hbe Hc IH].
  - symmetry. apply logs_between_empty. lia.
  - apply consecutive_le in Hc.
    transitivity (logs_between chain b e ++ batch_logs (batches_of chain times l)).
    { unfold batch_logs, batches_of. cbn. by rewrite mjoin_blocks_of. }
    rewrite IH. apply logs_between_split; lia.
Qed.

(** ** Lemmas: what fetching does to the environment *)

(** [R] is kept by the calls to the node and by waiting. *)
Record node_moves {E : Type} `{!Runtime E, !ExecutionRPC E} (R : relation E) : Prop := {
  nm_preorder : PreOrder R;
  nm_header n : moves_io R (HeaderByNumber n);
  nm_logs a b t tp : moves_io R (FilterLogs a b t tp);
  nm_times l : moves_io R (BatchCallContext l);
  nm_sleep d : moves_io R (sleep d);
  nm_rand n e : R e (Int63n n e).2;
}.

Definition env_rel {E D} (R : relation E) : relation (Exec E D) := λ s s', R (env s) (env s').

#[global] Instance env_rel_preorder {E D} R `{!PreOrder R} : PreOrder (@env_rel E D R).
Proof. split; [intros s|intros s1 s2 s3]; unfold env_rel; [done|apply transitivity]. Qed.

Section env_moves.
Context {E D : Type} (R : relation E) `{!PreOrder R}.

Lemma on_env_env {A} (m : io E A) : moves_io R m → moves_io (@env_rel E D R) (on_env m).
Proof. intros Hm s. specialize (Hm (env s)). unfold env_rel, on_env, zoom. by destruct (m (env s)). Qed.

Lemma on_envf_env {A} (m : iof E A) : movesf R m → movesf (@env_rel E D R) (on_envf m).
Proof.
  intros Hm s r s'. unfold env_rel, on_envf, zoomf.
  destruct (m (env s)) as [[r0 e0]|] eqn:Em; [|done]. intros [= _ <-]. by eapply Hm.
Qed.

Lemma on_data_env {A} (m : io D A) : moves_io (@env_rel E D R) (on_data m).
Proof. intros s. unfold env_rel, on_data, zoom. by destruct (m (data s)). Qed.

Lemma on_batchSize_env f : moves_io (@env_rel E D R) (on_batchSize f).
Proof. intros s. unfold env_rel, on_batchSize. done. Qed.

Lemma check_ctx_env `{!Runtime E} : moves_io (@env_rel E D R) check_ctx.
Proof. intros s. unfold env_rel, check_ctx. by destruct (ctx_Err (env s)). Qed.
End env_moves.

#[export] Hint Resolve on_env_env on_envf_env on_data_env on_batchSize_env check_ctx_env : oracle.

Section times_env.
Context {E : Type} `{!Runtime E, !ExecutionRPC E} (R : relation E) `{!PreOrder R}.
Hypothesis Htimes : ∀ l, moves_io R (BatchCallContext l).
Hypothesis Hsleep : ∀ d, moves_io R (sleep d).
Hypothesis Hrand : ∀ n e, R e (Int63n n e).2.
Context (retryConfig : RetryConfig).

Lemma retry_moves {A} (m : io E A) isR : moves_io R m → moves_io R (WithRetry retryConfig m isR).
Proof. intros Hm e. by apply (WithRetry_moves R). Qed.

Lemma timestamps_loop_moves fuel ns bt : moves_io R (timestamps_loop retryConfig fuel ns bt).
Proof.
  revert ns bt. induction fuel as [|f IH]; intros [|n ns] bt; cbn [timestamps_loop]; movesf_step.
  - by apply retry_moves.
  - apply IH.
Qed.

Lemma packLogs_moves logs : moves_io R (packLogs retryConfig logs).
Proof. unfold packLogs. movesf_step. apply timestamps_loop_moves. Qed.
End times_env.

Section node_env.
Context {E D : Type} `{!Runtime E, !ExecutionRPC E} (R : relation E).
Hypothesis HR : node_moves R.
Context (retryConfig : RetryConfig) (address : bytes) (topics : list bytes).

#[local] Instance node_preorder : PreOrder R := nm_preorder R HR.

Lemma fetchLogsBatch_moves a b : moves_io R (fetchLogsBatch retryConfig address a b topics).
Proof.
  apply moves_io_wrapM, retry_moves; [apply _|apply (nm_sleep R HR)..|apply (nm_rand R HR)|].
  apply (nm_logs R HR).
Qed.

Lemma node_packLogs logs : moves_io R (packLogs retryConfig logs).
Proof.
  apply packLogs_moves; [apply _|apply (nm_times R HR)|apply (nm_sleep R HR)|apply (nm_rand R HR)].
Qed.

Lemma FetchLogs_body_moves to (callback : Z → list BlockLogs → io D unit) cur :
  moves_io (env_rel R) (FetchLogs_body retryConfig address to topics callback cur).
Proof.
  intros s. unfold FetchLogs_body. cbv zeta.
  generalize (batch_end to cur (current (batchSize s))). intros batchEnd.
  set (body := try_ _ _). assert (moves_io (env_rel R) body) as Hbody; [|apply Hbody].
  pose proof fetchLogsBatch_moves. pose proof node_packLogs.
  unfold body. movesf_step; auto with oracle typeclass_instances.
Qed.

Lemma FetchLogs_moves fuel from to (callback : Z → list BlockLogs → io D unit) :
  movesf (env_rel R) (FetchLogs retryConfig fuel address from to topics callback).
Proof.
  intros s r s'. unfold FetchLogs. revert from s.
  induction fuel as [|f IH]; intros cur s; cbn [FetchLogs_loop];
    (case_match; [|by intros [= _ <-]]); [done|].
  pose proof (FetchLogs_body_moves to callback cur s) as Hb.
  destruct (FetchLogs_body _ _ _ _ _ _ s) as [[next|x|] s1]; [|by intros [= _ <-]..].
  intros Hl. etrans; [exact Hb|by eapply IH].
Qed.
End node_env.

(** ** Lemmas: termination *)

(** A node that does not refuse for ever: [pending] bounds the refusals it still gives in a
    row.  One that succeeds may refuse again, but at most [failures] times before the next
    success. *)
Class Exhausting (E : Type) `{!Runtime E, !ExecutionRPC E} (pending : E → nat)
    (failures : nat) := {
  logs_lt a b t tp e r e' : FilterLogs a b t tp e = (r, e') → (∀ l, r ≠ Ok l) →
    (pending e' < pending e)%nat;
  logs_ok a b t tp e l e' : FilterLogs a b t tp e = (Ok l, e') → (pending e' <= failures)%nat;
  times_le l e : (pending (BatchCallContext l e).2 <= pending e)%nat;
  sleep_le d e : (pending (sleep d e).2 <= pending e)%nat;
  rand_le n e : (pending (Int63n n e).2 <= pending e)%nat;
}.

Section progress.
Context {E D : Type} `{!Runtime E, !ExecutionRPC E} (pending : E → nat) (failures : nat).
Context `{Hex : !Exhausting E pending failures} (retryConfig : RetryConfig).
Context (address : bytes) (topics : list bytes).
Variables (toBlock : Z) (callback : Z → list BlockLogs → io D unit).

Definition less : relation E := λ e e', (pending e' <= pending e)%nat.

#[local] Instance less_preorder : PreOrder less.
Proof. split; [intros ?|intros ? ? ?]; unfold less; lia. Qed.

Lemma fetchLogsBatch_pending b t e r e' :
  fetchLogsBatch retryConfig address b t topics e = (r, e') →
  (∀ l, r = Ok l → (pending e' <= failures)%nat) ∧
  ((∀ l, r ≠ Ok l) → (pending e' < pending e)%nat).
Proof.
  unfold fetchLogsBatch. intros H. split.
  - intros l ->. apply wrapM_Ok, WithRetry_Ok in H as (e1 & H). by eapply logs_ok.
  - intros Hne. apply wrapM_inv in H as (r1 & H & Hok).
    eapply (WithRetry_decreases pending retryConfig (FilterLogs address b t topics));
      [intros; by eapply logs_lt|intros; apply sleep_le|intros; apply rand_le|exact H|].
    intros l ->. by destruct (Hne l); apply Hok.
Qed.

Lemma packLogs_pending logs e : less e (packLogs retryConfig logs e).2.
Proof.
  apply (packLogs_moves less); [intros l e0; apply times_le|intros d e0; apply sleep_le|].
  intros n e0. apply rand_le.
Qed.

(** An iteration that does not end the loop advances, or uses up a refusal. *)
Lemma FetchLogs_body_progress cur s next s' :
  batch_wf (batchSize s) → 0 <= cur <= toBlock → toBlock + bmax (batchSize s) < 2 ^ 64 →
  FetchLogs_body retryConfig address toBlock topics callback cur s = (Ok next, s') →
  batch_wf (batchSize s') ∧ bmax (batchSize s') = bmax (batchSize s) ∧
  (next = cur ∧ (pending (env s') < pending (env s))%nat ∨
   cur < next <= toBlock + 1 ∧ (pending (env s') <= failures)%nat).
Proof.
  intros Hwf Hcur Ho. unfold FetchLogs_body, try_, on_env, on_data, zoom.
  destruct (batch_end_spec _ cur toBlock Hwf Hcur Ho) as [Hbe _].
  set (be := batch_end _ _ _) in *.
  destruct (fetchLogsBatch retryConfig address cur be topics (env s)) as [[logs|err|] e1] eqn:Ef;
    [| |done]; apply fetchLogsBatch_pending in Ef as [Hok Hlt].
  - unfold mbind, io_bind, on_batchSize, check_ctx. cbn.
    destruct (Increase_wf _ Hwf) as (Hwf' & _ & _ & Hmax).
    pose proof (packLogs_pending logs e1) as Hp. specialize (Hok logs eq_refl).
    destruct (packLogs retryConfig logs e1) as [[bls|err|] e2]; cbn in *; [|done..].
    destruct (callback be bls (data s)) as [[[]|err|] d']; cbn; [|done..].
    destruct (ctx_Err e2); [done|]. intros [= <- <-]. cbn. split; [done|]. split; [done|].
    right. unfold less in Hp. rewrite wrapU_small by (unfold batch_wf in Hwf; lia). lia.
  - case_bool_decide; [done|]. unfold mbind, io_bind, check_ctx, on_batchSize. cbn.
    destruct (Decrease_wf _ Hwf) as (Hwf' & _ & _ & Hmax).
    destruct (ctx_Err e1); [done|]. intros [= <- <-]. cbn. split; [done|]. split; [done|].
    left. split; [done|]. by apply Hlt.
Qed.

Lemma FetchLogs_loop_total fuel cur s :
  batch_wf (batchSize s) → 0 <= cur → toBlock + bmax (batchSize s) < 2 ^ 64 →
  (Z.to_nat (toBlock + 1 - cur) * S failures + pending (env s) <= fuel)%nat →
  is_Some (FetchLogs_loop retryConfig address toBlock topics callback fuel cur s).
Proof.
  revert cur s. induction fuel as [|f IH]; intros cur s Hwf Hcur Ho Hf; cbn [FetchLogs_loop];
    destruct (Z.leb_spec cur toBlock); [nia|by eexists| |by eexists].
  destruct (FetchLogs_body retryConfig address toBlock topics callback cur s)
    as [[next|x|] s1] eqn:Eb; [|by eexists..].
  apply FetchLogs_body_progress in Eb as (Hwf1 & Hmax & Hcase); [|done|lia|done].
  apply IH; [done|lia|by rewrite Hmax|].
  destruct Hcase as [[-> ?]|[? ?]]; [lia|].
  assert (S (Z.to_nat (toBlock + 1 - next)) <= Z.to_nat (toBlock + 1 - cur))%nat by lia. nia.
Qed.
End progress.

(** ** Lemmas: the classification reads the block numbers *)

(** An error text with "429" or "413" in it is one the fetch is retried for. *)
Lemma categorize_number err a sub b :
  sub = "429" ∨ sub = "413" → Error err = a +:+ sub +:+ b →
  categorizeBatchError err ≠ errCategoryNone.
Proof.
  intros Hsub E. unfold categorizeBatchError. rewrite E, !ToLower_app.
  assert (contains (ToLower a +:+ ToLower sub +:+ ToLower b) sub = true) as Hc.
  { replace (ToLower sub) with sub by (by destruct Hsub as [-> | ->]).
    apply contains_app. by destruct Hsub as [-> | ->]. }
  destruct Hsub as [-> | ->]; rewrite Hc, ?orb_true_r; repeat case_match; done.
Qed.

Section rejecting.
Context {E D : Type} `{!Runtime E, !ExecutionRPC E}.
Hypothesis Hreject : ∀ a b t tp (e : E), ∃ err, (FilterLogs a b t tp e).1 = Err err.
Hypothesis Halive : ∀ e : E, ctx_Err e = None.
Hypothesis Hsleep : ∀ d (e : E), (sleep d e).1 ≠ Panic.

Lemma rejected_body retryConfig address toBlock topics (callback : Z → list BlockLogs → io D unit)
    from sub (s : Exec E D) :
  sub = "429" ∨ sub = "413" → contains (pretty from) sub = true →
  ∃ s', FetchLogs_body retryConfig address toBlock topics callback from s = (Ok from, s').
Proof.
  intros Hsub (x & y & Hxy)%contains_split. unfold FetchLogs_body, try_, on_env, zoom.
  set (be := batch_end _ _ _).
  destruct (WithRetry_Err retryConfig (FilterLogs address from be topics) None (env s))
    as (err & e' & Hw); [apply Hreject|apply Hsleep|].
  unfold fetchLogsBatch, wrapM. rewrite Hw. cbn [wrap fst snd].
  rewrite bool_decide_eq_false_2.
  - unfold mbind, io_bind, check_ctx, on_batchSize. cbn. rewrite Halive. by eexists.
  - apply (categorize_number _ ("fetch logs [" +:+ x) sub
      (y +:+ "-" +:+ pretty be +:+ "]" +:+ ": " +:+ Error err)); [done|].
    cbn [Error]. rewrite Hxy. by rewrite !append_assoc.
Qed.
End rejecting.

(** ** Properties *)

(** The batch size stays between its bounds and at least 1 whatever the node
    answers: the constructor establishes it, and from there [Decrease] halves down
    to the minimum and [Increase] adds between 1 and 100 up to the maximum. *)
Theorem batch_size_bounds min max (steps : list bool) :
  is_uint 64 min → 0 <= max → max + 100 < 2 ^ 64 →
  let a := fold_left (λ a up, if up : bool then Increase a else Decrease a) steps
             (NewAdaptiveBatchSize min max) in
  1 <= bmin a <= current a ∧ current a <= bmax a ∧
  current (Decrease a) = Z.max (bmin a) (current a / 2) ∧
  ∃ inc, 1 <= inc <= 100 ∧ current (Increase a) = Z.min (bmax a) (current a + inc).
Proof.
  intros Hmin Hmax Ho a.
  assert (batch_wf a) as Hwf.
  { unfold a. generalize (batch_wf_new min max Hmin Hmax Ho).
    generalize (NewAdaptiveBatchSize min max). clear. induction steps as [|b l IH]; [done|].
    intros a Ha. cbn. apply IH. destruct b; [apply Increase_wf|apply Decrease_wf]; done. }
  destruct (Increase_step a Hwf) as (inc & Hi & Einc). unfold batch_wf in Hwf.
  split; [lia|]. split; [lia|]. split; [unfold Decrease; cbn; case_match; lia|].
  exists inc. rewrite Einc. done.
Qed.

(** [groupLogsByBlock] returns all the logs and nothing else, sorted by block,
    transaction and log index, as non-empty groups of strictly increasing block
    numbers, each holding only its block's logs and its block's time. *)
Theorem groupLogsByBlock_correct logs bt :
  (∀ x, x ∈ logs → is_Some (bt !! l_BlockNumber x)) →
  ∃ bls, groupLogsByBlock logs bt = Ok bls ∧
    mjoin (Logs <$> bls) ≡ₚ logs ∧ StronglySorted log_le (mjoin (Logs <$> bls)) ∧
    StronglySorted Z.lt (bl_BlockNumber <$> bls) ∧
    Forall (λ bl, bt !! bl_BlockNumber bl = Some (bl_BlockTime bl) ∧ Logs bl ≠ [] ∧
      Forall (λ x, l_BlockNumber x = bl_BlockNumber bl) (Logs bl)) bls.
Proof.
  intros Hbt. set (times b := default 0 (bt !! b)).
  assert (∀ x, x ∈ logs → bt !! l_BlockNumber x = Some (times (l_BlockNumber x))) as Ht.
  { intros x Hx. unfold times. by destruct (Hbt x Hx) as [t ->]. }
  exists (blocks_of times (merge_sort log_le logs)).
  split; [by apply groupLogsByBlock_spec|]. rewrite mjoin_blocks_of.
  split; [apply merge_sort_Permutation|]. split; [apply sorted_logs|].
  split; [apply blocks_of_sorted, sorted_logs|].
  pose proof (blocks_of_Forall times (merge_sort log_le logs)) as HF.
  rewrite Forall_forall in HF |- *. intros bl Hbl. destruct (HF bl Hbl) as (Et & Hne & Hbls).
  split; [|done]. destruct (Logs bl) as [|x xs] eqn:E; [done|].
  apply Forall_cons in Hbls as [Hx _]. rewrite Et, <- Hx. apply Ht.
  rewrite <- (merge_sort_Permutation log_le logs), <- (mjoin_blocks_of times).
  apply list_elem_of_join. exists (Logs bl). rewrite E. split; [left|].
  rewrite <- E. by apply list_elem_of_fmap_2.
Qed.

(** C15: [FetchLogs] over a node that answers truthfully about one chain, failing
    and shrinking the batches as it may, hands the callback consecutive ranges of
    blocks starting at [fromBlock], and to each exactly the chain's logs of that
    range in chain order; when it returns no error it has covered
    [fromBlock..toBlock], and otherwise only a prefix. *)
Theorem FetchLogs_exact {E D} `{!Runtime E, !ExecutionRPC E} retryConfig address topics
    chain times `{!FaithfulNode E address topics chain times}
    fuel fromBlock toBlock (callback : Z → list BlockLogs → io D unit) (s : Exec E D) r s' :
  batch_wf (batchSize s) → 0 <= fromBlock <= toBlock + 1 →
  toBlock + bmax (batchSize s) < 2 ^ 64 →
  FetchLogs retryConfig fuel address fromBlock toBlock topics callback s = Some (r, s') →
  ∃ ranges stop r0, consecutive fromBlock ranges stop ∧ stop <= toBlock + 1 ∧
    run_callbacks callback (batches_of chain times ranges) (data s) = (r0, data s') ∧
    batch_logs (batches_of chain times ranges) = logs_between chain fromBlock (stop - 1) ∧
    (r = Ok tt → stop = toBlock + 1) ∧ (r0 = Ok tt ∨ r0 = r).
Proof.
  intros Hwf Hfrom Ho H.
  unfold FetchLogs in H.
  destruct (FetchLogs_loop_spec retryConfig address topics chain times toBlock callback
    fuel fromBlock s r s' Hwf Hfrom Ho H) as (_ & ranges & stop & r0 & Hc & Hs & Hr & Hok & Hr0).
  exists ranges, stop, r0. by rewrite (batch_logs_consecutive _ _ fromBlock _ stop).
Qed.

(** [FetchLogs] terminates: over a node that refuses at most [pending] more times before
    it answers, and at most [failures] times between two answers, it returns after at most
    [failures + 1] iterations per block. *)
Theorem FetchLogs_total {E D} `{!Runtime E, !ExecutionRPC E} pending failures
    `{!Exhausting E pending failures} retryConfig address topics fuel fromBlock toBlock
    (callback : Z → list BlockLogs → io D unit) (s : Exec E D) :
  batch_wf (batchSize s) → 0 <= fromBlock → toBlock + bmax (batchSize s) < 2 ^ 64 →
  (Z.to_nat (toBlock + 1 - fromBlock) * S failures + pending (env s) <= fuel)%nat →
  is_Some (FetchLogs retryConfig fuel address fromBlock toBlock topics callback s).
Proof. apply (FetchLogs_loop_total pending failures). Qed.

(** C30: the classification reads the block numbers of its own error text.  When the decimal
    number of the first block of a batch contains "429" or "413", every error of the node is
    taken for rate limiting or an oversized payload: from such a block [FetchLogs] never
    returns while the node rejects its requests, whatever the error (a revoked key, an unknown
    method) and whatever the range, the batch size and the retries.  The hypotheses: the node
    rejects every request for logs, the context has not ended and waiting does not panic. *)
Theorem FetchLogs_livelock {E D} `{!Runtime E, !ExecutionRPC E} retryConfig fuel address
    fromBlock toBlock topics (callback : Z → list BlockLogs → io D unit) (s : Exec E D) :
  (∀ a b t tp (e : E), ∃ err, (FilterLogs a b t tp e).1 = Err err) →
  (∀ e : E, ctx_Err e = None) → (∀ d (e : E), (sleep d e).1 ≠ Panic) →
  fromBlock <= toBlock →
  contains (pretty fromBlock) "429" = true ∨ contains (pretty fromBlock) "413" = true →
  FetchLogs retryConfig fuel address fromBlock toBlock topics callback s = None.
Proof.
  intros Hrej Hctx Hsl Hle Hnum. unfold FetchLogs. revert s.
  induction fuel as [|f IH]; intros s; cbn [FetchLogs_loop];
    (destruct (Z.leb_spec fromBlock toBlock); [|lia]); [done|].
  assert (∃ s', FetchLogs_body retryConfig address toBlock topics callback fromBlock s =
    (Ok fromBlock, s')) as [s' ->].
  { destruct Hnum as [Hn|Hn]; (eapply (rejected_body Hrej Hctx Hsl); [|exact Hn]); auto. }
  apply IH.
Qed.

(** ** Witnesses *)

(** A chain of three logs in two blocks; a node that answers in reverse order and
    whose environment counts the "too many results" answers left. *)
Definition example_log (b tx i : Z) : Log :=
  mkLog [be_bytes 32 5] [] b (be_bytes 32 b) tx (be_bytes 32 (b + 1)) i.

Definition example_chain : list Log :=
  [example_log 12 0 0; example_log 12 1 1; example_log 15 3 7].

#[local] Instance counter_runtime : Runtime nat :=
  { Int63n n e := (0, e); sleep d e := (Ok tt, e); ctx_Err _ := None }.

#[local] Instance counter_node : ExecutionRPC nat :=
  { HeaderByNumber _ n := (Ok 20, n);
    FilterLogs _ b e _ n := match n with
      | S n' => (Err (EText "query returned more than 10000 results"), n')
      | O => (Ok (rev (filter (in_range b e) example_chain)), O)
      end;
    BatchCallContext chunk n := (Ok (λ i, match chunk !! i with
      | Some b => Ok (1000 + 12 * b) | None => Err (EText "no element") end), n);
    ChainID n := (Ok 1, n) }.

#[local] Instance counter_node_faithful :
  FaithfulNode nat [] [] example_chain (λ b, wrapS 64 (1000 + 12 * b)).
Proof.
  split.
  - apply (bool_decide_unpack _). vm_compute. exact I.
  - intros b e en logs en'. cbn. destruct en; [|done]. intros [= <- <-].
    symmetry. apply Permutation_rev.
  - intros chunk en answer en' i b t. cbn. intros [= <- <-] ->. by intros [= <-].
Qed.

#[local] Instance counter_node_exhausting : Exhausting nat id 0.
Proof.
  split; cbn; unfold id; try lia.
  - intros _ b t _ [|e] r e' H Hne; injection H as <- <-; [by destruct (Hne _ eq_refl)|lia].
  - intros _ b t _ [|e] l e' H; [|done]. injection H as _ <-. lia.
Qed.

(** The callback keeps the batches it is given. *)
Definition record_batch (batchEnd : Z) (logs : list BlockLogs) : io (list (Z * nat)) unit :=
  λ d, (Ok tt, d ++ [(batchEnd, length (mjoin (Logs <$> logs)))]).

Definition example_exec (failures : nat) : Exec nat (list (Z * nat)) :=
  mkExec (NewAdaptiveBatchSize 2 4) failures [].

Lemma batch_size_bounds_witness :
  let a := fold_left (λ a up, if up : bool then Increase a else Decrease a)
             [false; false; true; true] (NewAdaptiveBatchSize 200 10000) in
  1 <= bmin a <= current a ∧ current a <= bmax a ∧
  current (Decrease a) = Z.max (bmin a) (current a / 2) ∧
  ∃ inc, 1 <= inc <= 100 ∧ current (Increase a) = Z.min (bmax a) (current a + inc).
Proof. apply (batch_size_bounds 200 10000 [false; false; true; true]); unfold is_uint; lia. Defined.

Lemma groupLogsByBlock_correct_witness :
  ∃ bls, groupLogsByBlock (rev example_chain) {[12 := 100; 15 := 136]} = Ok bls ∧
    mjoin (Logs <$> bls) ≡ₚ rev example_chain ∧ StronglySorted log_le (mjoin (Logs <$> bls)) ∧
    StronglySorted Z.lt (bl_BlockNumber <$> bls) ∧
    Forall (λ bl, ({[12 := 100; 15 := 136]} : gmap Z Z) !! bl_BlockNumber bl =
        Some (bl_BlockTime bl) ∧ Logs bl ≠ [] ∧
      Forall (λ x, l_BlockNumber x = bl_BlockNumber bl) (Logs bl)) bls.
Proof.
  apply (groupLogsByBlock_correct (rev example_chain) {[12 := 100; 15 := 136]}).
  intros x [->|[->|[->|[]%elem_of_nil]%elem_of_cons]%elem_of_cons]%elem_of_cons; by eexists.
Defined.

(** Two failures, then ranges of two blocks from 11 to 16. *)
Lemma FetchLogs_exact_witness :
  ∃ ranges stop r0, consecutive 11 ranges stop ∧ stop <= 16 + 1 ∧
    run_callbacks record_batch
      (batches_of example_chain (λ b, wrapS 64 (1000 + 12 * b)) ranges) [] =
      (r0, [(14, 2%nat); (16, 1%nat)]) ∧
    batch_logs (batches_of example_chain (λ b, wrapS 64 (1000 + 12 * b)) ranges) =
      logs_between example_chain 11 (stop - 1) ∧
    (Ok tt = @Ok unit tt → stop = 16 + 1) ∧ (r0 = Ok tt ∨ r0 = Ok tt).
Proof.
  apply (FetchLogs_exact DefaultRetryConfig [] [] example_chain
    (λ b, wrapS 64 (1000 + 12 * b)) 10 11 16 record_batch (example_exec 2) (Ok tt)
    (mkExec (mkBatchSize 4 2 4) O [(14, 2%nat); (16, 1%nat)])).
  - unfold batch_wf. cbn. lia.
  - lia.
  - cbn. lia.
  - vm_compute. reflexivity.
Defined.

Lemma FetchLogs_total_witness :
  is_Some (FetchLogs DefaultRetryConfig 8 [] 11 16 [] record_batch (example_exec 2)).
Proof.
  apply (FetchLogs_total id 0 DefaultRetryConfig [] [] 8 11 16 record_batch (example_exec 2)).
  - unfold batch_wf. cbn. lia.
  - lia.
  - cbn. lia.
  - cbn. lia.
Defined.

(** A node that rejects every request. *)
Definition unauthorized : error := EText "401 Unauthorized: invalid api key".

#[local] Instance idle_runtime : Runtime unit :=
  { Int63n n e := (0, e); sleep d e := (Ok tt, e); ctx_Err _ := None }.

#[local] Instance rejecting_node : ExecutionRPC unit :=
  { HeaderByNumber _ e := (Err unauthorized, e); FilterLogs _ _ _ _ e := (Err unauthorized, e);
    BatchCallContext _ e := (Err unauthorized, e); ChainID e := (Err unauthorized, e) }.

(** [FetchLogs] on one block, with a callback that accepts everything. *)
Definition fetch_rejected (fuel : nat) (block : Z) : option (result unit * Exec unit unit) :=
  FetchLogs DefaultRetryConfig fuel [] block block [] (λ _ _, mret tt)
    (mkExec (NewAdaptiveBatchSize 200 10000) tt tt).

(** It is refused once at block 4000000. *)
Example fetch_rejected_once :
  fetch_rejected 1 4000000 =
    Some (Err (EWrap "fetch logs [4000000-4000000]" (EWrap "after 4 attempts" unauthorized)),
          mkExec (NewAdaptiveBatchSize 200 10000) tt tt).
Proof. vm_compute. done. Qed.

(** And for ever at block 4290000. *)
Lemma FetchLogs_livelock_witness : fetch_rejected 1000 4290000 = None.
Proof.
  apply (FetchLogs_livelock DefaultRetryConfig 1000 [] 4290000 4290000 [] (λ _ _, mret tt)
    (mkExec (NewAdaptiveBatchSize 200 10000) tt tt)).
  - intros a b t tp e. exists unauthorized. reflexivity.
  - reflexivity.
  - intros d e. discriminate.
  - lia.
  - left. vm_compute. reflexivity.
Defined.
