(* ===== verification/Sharing.v ===== *)
(** * Fetches that share one batch size (src/eth/execution/client.go, batch_size.go)

    The oracle's synchronisation and the updater's head-state snapshot fetch logs at the same
    time through one execution client, whose [AdaptiveBatchSize] both read, halve and grow
    under its mutex.  [Execution.FetchLogs] is one fetch alone; here any number of fetches
    run at once, and every access to the batch size, every request (with its retries) and
    every delivery is a step. *)

From S2P Require Import Prelude Retry Execution.

#[local] Open Scope go_scope.

(** ** The program *)

(** Where a call of [FetchLogs] is: reading the batch size; requesting a range; halving the
    size after a refusal; growing it after an answer; packing and delivering the answer. *)
Inductive phase :=
  | FGet (currentBlock : Z)
  | FRequest (currentBlock batchEnd : Z)
  | FShrink (currentBlock : Z)
  | FGrow (currentBlock batchEnd : Z) (logs : list Log)
  | FPack (currentBlock batchEnd : Z) (logs : list Log)
  | FDone
  | FFailed (err : error).

Record Fetcher := mkFetcher {
  ft_from : Z;
  ft_to : Z;
  ft_phase : phase;
  ft_batches : list (Z * list BlockLogs);   (* what the callback was given *)
}.

Definition fetcher_start (fromBlock toBlock : Z) : Fetcher :=
  mkFetcher fromBlock toBlock (FGet fromBlock) [].

Definition goes_to (t : Fetcher) (p : phase) : Fetcher :=
  mkFetcher (ft_from t) (ft_to t) p (ft_batches t).

Definition delivers (t : Fetcher) (batch : Z * list BlockLogs) (p : phase) : Fetcher :=
  mkFetcher (ft_from t) (ft_to t) p (ft_batches t ++ [batch]).

Record Shared (E : Type) := mkShared {
  sh_batchSize : AdaptiveBatchSize;
  sh_env : E;
  sh_fetchers : list Fetcher;
}.
Arguments mkShared {E} _ _ _.
Arguments sh_batchSize {E} _.
Arguments sh_env {E} _.
Arguments sh_fetchers {E} _.

Section sharing.
Context {E : Type} `{!Runtime E, !ExecutionRPC E} (retryConfig : RetryConfig).
Context (address : bytes) (topics : list bytes).

(** One step of a call, on the batch size and the node. *)
Inductive fetcher_step : AdaptiveBatchSize * E * Fetcher → AdaptiveBatchSize * E * Fetcher → Prop :=
  | step_get a e t cur :
      ft_phase t = FGet cur → cur <= ft_to t →
      fetcher_step (a, e, t) (a, e, goes_to t (FRequest cur (batch_end (ft_to t) cur (current a))))
  | step_done a e t cur :
      ft_phase t = FGet cur → ft_to t < cur → fetcher_step (a, e, t) (a, e, goes_to t FDone)
  | step_answer a e t cur be logs e' :
      ft_phase t = FRequest cur be →
      fetchLogsBatch retryConfig address cur be topics e = (Ok logs, e') →
      fetcher_step (a, e, t) (a, e', goes_to t (FGrow cur be logs))
  | step_refused a e t cur be err e' :
      ft_phase t = FRequest cur be →
      fetchLogsBatch retryConfig address cur be topics e = (Err err, e') →
      fetcher_step (a, e, t) (a, e', goes_to t
        (if bool_decide (categorizeBatchError err = errCategoryNone) then FFailed err
         else match ctx_Err e' with Some x => FFailed x | None => FShrink cur end))
  | step_shrink a e t cur :
      ft_phase t = FShrink cur → fetcher_step (a, e, t) (Decrease a, e, goes_to t (FGet cur))
  | step_grow a e t cur be logs :
      ft_phase t = FGrow cur be logs →
      fetcher_step (a, e, t) (Increase a, e, goes_to t (FPack cur be logs))
  | step_deliver a e t cur be logs bls e' :
      ft_phase t = FPack cur be logs → packLogs retryConfig logs e = (Ok bls, e') →
      fetcher_step (a, e, t) (a, e', delivers t (be, bls) (FGet (be +u64 1)))
  | step_deliver_last a e t cur be logs bls e' err :   (* the callback's error, or the context's *)
      ft_phase t = FPack cur be logs → packLogs retryConfig logs e = (Ok bls, e') →
      fetcher_step (a, e, t) (a, e', delivers t (be, bls) (FFailed err))
  | step_pack_fails a e t cur be logs err e' :
      ft_phase t = FPack cur be logs → packLogs retryConfig logs e = (Err err, e') →
      fetcher_step (a, e, t) (a, e', goes_to t (FFailed err)).

(** One of the calls makes a step, or the rest of the program uses the node. *)
Inductive shared_step : relation (Shared E) :=
  | shared_fetcher a e t a' e' t' ts ts' :
      fetcher_step (a, e, t) (a', e', t') →
      shared_step (mkShared a e (ts ++ t :: ts')) (mkShared a' e' (ts ++ t' :: ts'))
  | shared_other a e e' ts : shared_step (mkShared a e ts) (mkShared a e' ts).

(** ** Specification *)

Definition size_ok (bound : Z) (a : AdaptiveBatchSize) : Prop := batch_wf a ∧ bmax a = bound.

Section chain.
Context (chain : list Log) (times : Z → Z) `{Hnode : !FaithfulNode E address topics chain times}.

(** The phase fits what was delivered: everything below [stop]. *)
Definition phase_ok (toBlock stop : Z) (p : phase) : Prop :=
  match p with
  | FGet cur | FShrink cur => cur = stop
  | FRequest cur be => cur = stop ∧ cur <= be <= toBlock
  | FGrow cur be logs | FPack cur be logs =>
      cur = stop ∧ cur <= be <= toBlock ∧ merge_sort log_le logs = logs_between chain cur be
  | FDone => stop = toBlock + 1
  | FFailed _ => True
  end.

Definition fetcher_ok (bound : Z) (t : Fetcher) : Prop :=
  0 <= ft_from t ∧ ft_to t + bound < 2 ^ 64 ∧
  ∃ ranges stop, consecutive (ft_from t) ranges stop ∧ stop <= ft_to t + 1 ∧
    ft_batches t = batches_of chain times ranges ∧ phase_ok (ft_to t) stop (ft_phase t).

(** ** Lemmas *)

Lemma consecutive_snoc b l stop e :
  consecutive b l stop → stop <= e → consecutive b (l ++ [(stop, e)]) (e + 1).
Proof. induction 1; intros He; cbn; constructor; auto. constructor. Qed.

Lemma fetcher_start_ok bound fromBlock toBlock :
  0 <= fromBlock <= toBlock + 1 → toBlock + bound < 2 ^ 64 →
  fetcher_ok bound (fetcher_start fromBlock toBlock).
Proof.
  intros Hf Ho. split; [cbn; lia|]. split; [done|]. exists [], fromBlock. cbn.
  split; [constructor|]. split; [lia|done].
Qed.

Lemma delivers_ok bound t cur be logs bls p :
  fetcher_ok bound t → 1 <= bound → ft_phase t = FPack cur be logs →
  bls = blocks_of times (merge_sort log_le logs) →
  p = FGet (be +u64 1) ∨ (∃ err, p = FFailed err) → fetcher_ok bound (delivers t (be, bls) p).
Proof.
  intros (H0 & Ho & ranges & stop & Hc & Hs & Hb & Hp) Hbound Hph -> Hnext.
  rewrite Hph in Hp. destruct Hp as (-> & Hbe & Hlogs). split; [done|]. split; [done|].
  exists (ranges ++ [(stop, be)]), (be + 1). split; [by apply consecutive_snoc; [|lia]|].
  split; [cbn; lia|]. split.
  - cbn. rewrite Hb, Hlogs. unfold batches_of. by rewrite fmap_app.
  - destruct Hnext as [->|[err ->]]; [|done]. cbn. pose proof (consecutive_le _ _ _ Hc).
    by rewrite wrapU_small by lia.
Qed.

Lemma fetcher_step_ok bound a e t a' e' t' :
  fetcher_step (a, e, t) (a', e', t') → size_ok bound a → fetcher_ok bound t →
  size_ok bound a' ∧ fetcher_ok bound t'.
Proof.
  intros Hs [Hwf Hmax] Ht. assert (1 <= bound) by (unfold batch_wf in Hwf; lia).
  pose proof Ht as (H0 & Ho & ranges & stop & Hc & Hst & Hb & Hp).
  assert (∀ p, phase_ok (ft_to t) stop p → fetcher_ok bound (goes_to t p)) as Hgo.
  { intros p Hp'. split; [done|]. split; [done|]. by exists ranges, stop. }
  pose proof (consecutive_le _ _ _ Hc) as Hle.
  inversion Hs as [? ? ? cur Hph Hcur|? ? ? cur Hph Hcur|? ? ? cur be logs ? Hph Hf|
    ? ? ? cur be err ? Hph Hf|? ? ? cur Hph|? ? ? cur be logs Hph|? ? ? cur be logs bls ? Hph Hk|
    ? ? ? cur be logs bls ? err Hph Hk|? ? ? cur be logs err ? Hph Hk]; subst;
    rewrite Hph in Hp; cbn in Hp.
  - split; [done|]. apply Hgo. subst cur. cbn. split; [done|].
    by apply batch_end_spec; [|lia|].
  - split; [done|]. apply Hgo. cbn. lia.
  - split; [done|]. apply Hgo. destruct Hp as (-> & Hbe). cbn. split; [done|]. split; [done|].
    by apply (fetchLogsBatch_spec retryConfig address topics chain times) in Hf.
  - split; [done|]. apply Hgo. destruct Hp as (-> & Hbe). case_bool_decide; [done|]. by case_match.
  - destruct (Decrease_wf _ Hwf) as (? & _ & _ & Hm). split; [by split|]. by apply Hgo.
  - destruct (Increase_wf _ Hwf) as (? & _ & _ & Hm). split; [by split|]. by apply Hgo.
  - split; [done|]. eapply delivers_ok; [done|done|done| |by left].
    by apply (packLogs_spec retryConfig address topics chain times) in Hk.
  - split; [done|]. eapply delivers_ok; [done|done|done| |by right; eexists].
    by apply (packLogs_spec retryConfig address topics chain times) in Hk.
  - split; [done|]. by apply Hgo.
Qed.

Lemma shared_steps_ok bound s s' :
  rtc shared_step s s' → size_ok bound (sh_batchSize s) → Forall (fetcher_ok bound) (sh_fetchers s) →
  size_ok bound (sh_batchSize s') ∧ Forall (fetcher_ok bound) (sh_fetchers s').
Proof.
  induction 1 as [s|s s1 s2 Hs _ IH]; [done|]. intros Ha Ht. apply IH.
  - destruct Hs as [a e t a' e' t' ts ts' Hs|]; [|done]. cbn in *.
    apply Forall_app in Ht as [_ [Ht _]%Forall_cons]. by eapply fetcher_step_ok.
  - destruct Hs as [a e t a' e' t' ts ts' Hs|]; [|done]. cbn in *.
    apply Forall_app in Ht as [H1 [H2 H3]%Forall_cons]. apply Forall_app. split; [done|].
    apply Forall_cons. split; [|done]. by eapply fetcher_step_ok.
Qed.
End chain.

(** The calls' ranges never change. *)
Definition bounds_of (t : Fetcher) : Z * Z := (ft_from t, ft_to t).

Lemma shared_steps_bounds s s' :
  rtc shared_step s s' → bounds_of <$> sh_fetchers s' = bounds_of <$> sh_fetchers s.
Proof.
  induction 1 as [s|s s1 s2 Hs _ IH]; [done|]. rewrite IH. destruct Hs as [a e t a' e' t' ts ts' Hs|];
    [|done]. cbn. rewrite !fmap_app. cbn. do 2 f_equal. by inversion Hs.
Qed.

(** A call that has not returned can go on. *)
Lemma fetcher_progress a e t :
  (∀ b be, (fetchLogsBatch retryConfig address b be topics e).1 ≠ Panic) →
  (∀ logs, (packLogs retryConfig logs e).1 ≠ Panic) →
  ft_phase t = FDone ∨ (∃ err, ft_phase t = FFailed err) ∨ ∃ x, fetcher_step (a, e, t) x.
Proof.
  intros Hf Hk. destruct (ft_phase t) as [cur|cur be|cur|cur be logs|cur be logs| |err] eqn:Hp;
    [..|by left|by right; left; eexists]; right; right.
  - destruct (Z.le_gt_cases cur (ft_to t)); eexists; [by eapply step_get|by eapply step_done].
  - specialize (Hf cur be). destruct (fetchLogsBatch _ _ _ _ _ e) as [[logs|err|] e'] eqn:Ef; [..|done];
      eexists; [by eapply step_answer|by eapply step_refused].
  - eexists. by eapply step_shrink.
  - eexists. by eapply step_grow.
  - specialize (Hk logs). destruct (packLogs _ logs e) as [[bls|err|] e'] eqn:Ep; [..|done];
      eexists; [by eapply step_deliver|by eapply step_pack_fails].
Qed.
End sharing.

(** ** Properties *)

(** C37: fetches that share the batch size and the node do not disturb each other.  However
    their steps interleave, the batch size stays between its bounds, and each call has given
    its callback consecutive ranges from its first block, each with exactly the chain's logs
    of the range in chain order; a call that is done has covered its whole range, whatever
    the others did to the size in between. *)
Theorem FetchLogs_shared {E : Type} `{!Runtime E, !ExecutionRPC E} retryConfig address topics
    chain times `{!FaithfulNode E address topics chain times} a e (calls : list (Z * Z)) s :
  batch_wf a →
  Forall (λ c, 0 <= c.1 <= c.2 + 1 ∧ c.2 + bmax a < 2 ^ 64) calls →
  rtc (shared_step retryConfig address topics)
    (mkShared a e ((λ c, fetcher_start c.1 c.2) <$> calls)) s →
  batch_wf (sh_batchSize s) ∧ bmax (sh_batchSize s) = bmax a ∧
  bounds_of <$> sh_fetchers s = calls ∧
  Forall (λ t, ∃ ranges stop, consecutive (ft_from t) ranges stop ∧ stop <= ft_to t + 1 ∧
    ft_batches t = batches_of chain times ranges ∧
    batch_logs (ft_batches t) = logs_between chain (ft_from t) (stop - 1) ∧
    (ft_phase t = FDone → stop = ft_to t + 1)) (sh_fetchers s).
Proof.
  intros Hwf Hc Hr.
  destruct (shared_steps_ok retryConfig address topics chain times (bmax a) _ _ Hr) as [[H1 H2] H3].
  - by split.
  - apply Forall_fmap. eapply Forall_impl; [exact Hc|]. intros c [? ?]. by apply fetcher_start_ok.
  - split; [done|]. split; [done|]. split.
    + rewrite (shared_steps_bounds _ _ _ _ _ Hr). cbn. rewrite <- list_fmap_compose.
      rewrite <- (list_fmap_id calls) at 2. apply list_fmap_ext. by intros ? [].
    + eapply Forall_impl; [exact H3|]. intros t (_ & _ & ranges & stop & Hcons & Hs & Hb & Hp).
      exists ranges, stop. rewrite Hb. split_and!; try done.
      * by apply batch_logs_consecutive.
      * intros Hd. by rewrite Hd in Hp.
Qed.

(** ** Witnesses *)

#[local] Existing Instance Execution.counter_runtime.
#[local] Existing Instance Execution.counter_node.
#[local] Existing Instance Execution.counter_node_faithful.

(** A node with one refusal left: a fetch of 11..16 is refused while a fetch of 12..13 is
    answered, grows the batch size and returns. *)
Definition toy_size : AdaptiveBatchSize := mkBatchSize 2 1 4.

Definition toy_logs : list Log := rev (filter (in_range 12 13) example_chain).

Definition toy_blocks : list BlockLogs :=
  match (packLogs DefaultRetryConfig toy_logs O).1 with Ok bls => bls | _ => [] end.

Definition toy_shared : Shared nat :=
  mkShared (Increase toy_size) O
    [mkFetcher 11 16 (FShrink 11) []; mkFetcher 12 13 FDone [(13, toy_blocks)]].

Lemma toy_shared_run :
  rtc (shared_step (mkRetryConfig 0 1 1) [] []) (mkShared toy_size 1%nat
    ((λ c : Z * Z, fetcher_start c.1 c.2) <$> [(11, 16); (12, 13)])) toy_shared.
Proof.
  cbn [fmap list_fmap fst snd]. set (t2 := fetcher_start 12 13).
  eapply rtc_l; [eapply (shared_fetcher _ _ _ _ _ _ _ _ _ [] [t2]), (step_get _ _ _ _ _ _ 11);
    [done|cbn; lia]|].
  eapply rtc_l; [eapply (shared_fetcher _ _ _ _ _ _ _ _ _ [] [t2]); eapply step_refused;
    [reflexivity|vm_compute; reflexivity]|].
  replace (if bool_decide _ then _ else _) with (FShrink 11) by (vm_compute; reflexivity).
  cbn [app goes_to ft_from ft_to ft_batches fetcher_start].
  set (t1 := mkFetcher 11 16 (FShrink 11) []).
  eapply rtc_l; [eapply (shared_fetcher _ _ _ _ _ _ _ _ _ [t1] []), (step_get _ _ _ _ _ _ 12);
    [done|cbn; lia]|].
  eapply rtc_l; [eapply (shared_fetcher _ _ _ _ _ _ _ _ _ [t1] []);
    eapply (step_answer _ _ _ _ _ _ _ _ toy_logs); [reflexivity|vm_compute; reflexivity]|].
  eapply rtc_l; [eapply (shared_fetcher _ _ _ _ _ _ _ _ _ [t1] []); eapply step_grow; reflexivity|].
  eapply rtc_l; [eapply (shared_fetcher _ _ _ _ _ _ _ _ _ [t1] []);
    eapply (step_deliver _ _ _ _ _ _ _ _ _ toy_blocks); [reflexivity|vm_compute; reflexivity]|].
  eapply rtc_l; [eapply (shared_fetcher _ _ _ _ _ _ _ _ _ [t1] []);
    eapply (step_done _ _ _ _ _ _ 14); [reflexivity|cbn; lia]|].
  apply rtc_refl.
Qed.

Lemma FetchLogs_shared_witness :
  bounds_of <$> sh_fetchers toy_shared = [(11, 16); (12, 13)].
Proof.
  apply (FetchLogs_shared (mkRetryConfig 0 1 1) [] [] example_chain
    (λ b, wrapS 64 (1000 + 12 * b)) toy_size 1%nat [(11, 16); (12, 13)] toy_shared);
    [unfold batch_wf; cbn; lia|repeat constructor; cbn; lia|exact toy_shared_run].
Defined.
