(* ===== verification/Events.v ===== *)
(** * eth/syncer: contract events (src/eth/syncer/types.go, parser.go, topics.go)

    The ABI of the SSV contract is generated data; what the code takes from
    go-ethereum for it is the class [SSVNetworkABI]: the identifiers of the
    events and the unpacking of each event's data.  The dispatch on topics, the
    indexed arguments and the cluster identifier are translated. *)

From S2P Require Import Prelude Merkle Storage Retry Execution.

(** ** Data *)

Definition eventValidatorAdded : string := "ValidatorAdded".
Definition eventValidatorRemoved : string := "ValidatorRemoved".
Definition eventClusterLiquidated : string := "ClusterLiquidated".
Definition eventClusterReactivated : string := "ClusterReactivated".
Definition eventClusterWithdrawn : string := "ClusterWithdrawn".
Definition eventClusterDeposited : string := "ClusterDeposited".
Definition eventClusterMigratedToETH : string := "ClusterMigratedToETH".
Definition eventClusterBalanceUpdated : string := "ClusterBalanceUpdated".

Record cluster := mkEvCluster {
  ev_ValidatorCount : Z;
  ev_NetworkFeeIndex : Z;
  ev_Index : Z;
  ev_Active : bool;
  ev_Balance : Z;
}.

(** The event structs; the value of the [any] the parser returns. *)
Inductive eventData :=
  | validatorAddedEvent (Owner : bytes) (OperatorIDs : list Z) (PublicKey Shares : bytes)
      (Cluster : cluster)
  | validatorRemovedEvent (Owner : bytes) (OperatorIDs : list Z) (PublicKey : bytes)
      (Cluster : cluster)
  | clusterLiquidatedEvent (Owner : bytes) (OperatorIDs : list Z) (Cluster : cluster)
  | clusterReactivatedEvent (Owner : bytes) (OperatorIDs : list Z) (Cluster : cluster)
  | clusterWithdrawnEvent (Owner : bytes) (OperatorIDs : list Z) (Value : Z) (Cluster : cluster)
  | clusterDepositedEvent (Owner : bytes) (OperatorIDs : list Z) (Value : Z) (Cluster : cluster)
  | clusterMigratedToETHEvent (Owner : bytes) (OperatorIDs : list Z) (ETHDeposited SSVRefunded : Z)
      (EffectiveBalance : Z) (Cluster : cluster)
  | clusterBalanceUpdatedEvent (Owner : bytes) (OperatorIDs : list Z) (BlockNum : Z)
      (EffectiveBalance : Z) (Cluster : cluster).

(** The [clusterEvent] interface, which every event implements. *)
Definition clusterKey (e : eventData) : bytes * list Z :=
  match e with
  | validatorAddedEvent o ids _ _ _ => (o, ids)
  | validatorRemovedEvent o ids _ _ => (o, ids)
  | clusterLiquidatedEvent o ids _ => (o, ids)
  | clusterReactivatedEvent o ids _ => (o, ids)
  | clusterWithdrawnEvent o ids _ _ => (o, ids)
  | clusterDepositedEvent o ids _ _ => (o, ids)
  | clusterMigratedToETHEvent o ids _ _ _ _ => (o, ids)
  | clusterBalanceUpdatedEvent o ids _ _ _ => (o, ids)
  end.

Definition event_cluster (e : eventData) : cluster :=
  match e with
  | validatorAddedEvent _ _ _ _ c => c
  | validatorRemovedEvent _ _ _ c => c
  | clusterLiquidatedEvent _ _ c => c
  | clusterReactivatedEvent _ _ c => c
  | clusterWithdrawnEvent _ _ _ c => c
  | clusterDepositedEvent _ _ _ c => c
  | clusterMigratedToETHEvent _ _ _ _ _ c => c
  | clusterBalanceUpdatedEvent _ _ _ _ c => c
  end.

(** ** Third-party code: the contract ABI *)

Class SSVNetworkABI := {
  (** [abi.Events[name].ID]. *)
  Events_ID : string → option bytes;
  (** [UnpackIntoInterface] of each event's non-indexed arguments. *)
  unpack_ValidatorAdded : bytes → result (list Z * bytes * bytes * cluster);
  unpack_ValidatorRemoved : bytes → result (list Z * bytes * cluster);
  unpack_ClusterLiquidated : bytes → result (list Z * cluster);
  unpack_ClusterReactivated : bytes → result (list Z * cluster);
  unpack_ClusterWithdrawn : bytes → result (list Z * Z * cluster);
  unpack_ClusterDeposited : bytes → result (list Z * Z * cluster);
  unpack_ClusterMigratedToETH : bytes → result (list Z * Z * Z * Z * cluster);
  unpack_ClusterBalanceUpdated : bytes → result (list Z * Z * cluster);
}.

(** ** Signatures, topics and addresses *)

Definition sig_text (name : string) : string :=
  if bool_decide (name = eventValidatorAdded)
  then "ValidatorAdded(address,uint64[],bytes,bytes,(uint32,uint64,uint64,bool,uint256))"
  else if bool_decide (name = eventValidatorRemoved)
  then "ValidatorRemoved(address,uint64[],bytes,(uint32,uint64,uint64,bool,uint256))"
  else if bool_decide (name = eventClusterLiquidated)
  then "ClusterLiquidated(address,uint64[],(uint32,uint64,uint64,bool,uint256))"
  else if bool_decide (name = eventClusterReactivated)
  then "ClusterReactivated(address,uint64[],(uint32,uint64,uint64,bool,uint256))"
  else if bool_decide (name = eventClusterWithdrawn)
  then "ClusterWithdrawn(address,uint64[],uint256,(uint32,uint64,uint64,bool,uint256))"
  else if bool_decide (name = eventClusterDeposited)
  then "ClusterDeposited(address,uint64[],uint256,(uint32,uint64,uint64,bool,uint256))"
  else if bool_decide (name = eventClusterMigratedToETH)
  then "ClusterMigratedToETH(address,uint64[],uint256,uint256,uint32,(uint32,uint64,uint64,bool,uint256))"
  else "ClusterBalanceUpdated(address,uint64[],uint64,uint32,(uint32,uint64,uint64,bool,uint256))".

Definition handledEvents : list string :=
  [eventValidatorAdded; eventValidatorRemoved; eventClusterLiquidated; eventClusterReactivated;
   eventClusterWithdrawn; eventClusterDeposited; eventClusterMigratedToETH;
   eventClusterBalanceUpdated].

(** [common.BytesToAddress]: the last 20 bytes, left-padded with zeros. *)
Definition BytesToAddress (b : bytes) : bytes :=
  let b := drop (length b - 20) b in replicate (20 - length b) x00 ++ b.

(** [Hash.Hex()]. *)
Definition Hex (h : bytes) : string := "0x" +:+ hex_encode h.

Definition errUnknownEvent : string := "unknown event signature".

Section events.
Context {HC : Crypto} {HA : SSVNetworkABI}.

(** [crypto.Keccak256Hash([]byte(...))]: the eventSig variables. *)
Definition eventSig (name : string) : bytes := Keccak256 (list_byte_of_string (sig_text name)).

(** The loop of [EventTopics]; it panics on a name the ABI lacks. *)
Fixpoint EventTopics_loop (names : list string) : result (list bytes) :=
  match names with
  | [] => Ok []
  | name :: names' =>
      id ← from_option_panic (Events_ID name);
      ids ← EventTopics_loop names';
      Ok (id :: ids)
  end.

Definition EventTopics : result (list bytes) := EventTopics_loop handledEvents.

(** The cluster identifier: the Keccak-256 of the owner and the sorted operator
    identifiers, each in 32 bytes. *)
Definition computeClusterID (owner : bytes) (operatorIDs : list Z) : bytes :=
  let sortedIDs := merge_sort Z.le operatorIDs in
  let data := owner ++ mjoin (be_bytes 32 <$> sortedIDs) in
  to_array 32 (Keccak256 data).

(** What it hashes. *)
Definition clusterID_input (owner : bytes) (operatorIDs : list Z) : bytes :=
  owner ++ mjoin (be_bytes 32 <$> merge_sort Z.le operatorIDs).

(** All the events are [clusterEvent]s. *)
Definition computeClusterIDFromEvent (e : eventData) : option bytes :=
  let '(owner, operatorIDs) := clusterKey e in
  Some (computeClusterID owner operatorIDs).

(** ** The parser *)

Definition errNoTopics : error := EText "log has no topics".
Definition errMissingOwner : error := EText "missing owner topic".
Definition errMissingIndexed : error := EText "missing indexed topics (owner, blockNum)".

(** [log.Topics[1]] when there are at least two topics. *)
Definition owner_topic (log : Log) : result bytes :=
  match Topics log with
  | _ :: owner :: _ => Ok (BytesToAddress owner)
  | _ => Err errMissingOwner
  end.

Definition parseValidatorAdded (log : Log) : result eventData :=
  owner ← owner_topic log;
  '(ids, pk, shares, c) ← wrap "unpack ValidatorAdded" (unpack_ValidatorAdded (Data log));
  Ok (validatorAddedEvent owner ids pk shares c).

Definition parseValidatorRemoved (log : Log) : result eventData :=
  owner ← owner_topic log;
  '(ids, pk, c) ← wrap "unpack ValidatorRemoved" (unpack_ValidatorRemoved (Data log));
  Ok (validatorRemovedEvent owner ids pk c).

Definition parseClusterLiquidated (log : Log) : result eventData :=
  owner ← owner_topic log;
  '(ids, c) ← wrap "unpack ClusterLiquidated" (unpack_ClusterLiquidated (Data log));
  Ok (clusterLiquidatedEvent owner ids c).

Definition parseClusterReactivated (log : Log) : result eventData :=
  owner ← owner_topic log;
  '(ids, c) ← wrap "unpack ClusterReactivated" (unpack_ClusterReactivated (Data log));
  Ok (clusterReactivatedEvent owner ids c).

Definition parseClusterWithdrawn (log : Log) : result eventData :=
  owner ← owner_topic log;
  '(ids, v, c) ← wrap "unpack ClusterWithdrawn" (unpack_ClusterWithdrawn (Data log));
  Ok (clusterWithdrawnEvent owner ids v c).

Definition parseClusterDeposited (log : Log) : result eventData :=
  owner ← owner_topic log;
  '(ids, v, c) ← wrap "unpack ClusterDeposited" (unpack_ClusterDeposited (Data log));
  Ok (clusterDepositedEvent owner ids v c).

Definition parseClusterMigratedToETH (log : Log) : result eventData :=
  owner ← owner_topic log;
  '(ids, eth, ssv, eb, c) ←
    wrap "unpack ClusterMigratedToETH" (unpack_ClusterMigratedToETH (Data log));
  Ok (clusterMigratedToETHEvent owner ids eth ssv eb c).

Definition parseClusterBalanceUpdated (log : Log) : result eventData :=
  match Topics log with
  | _ :: owner :: blockNum :: _ =>
      '(ids, eb, c) ←
        wrap "unpack ClusterBalanceUpdated" (unpack_ClusterBalanceUpdated (Data log));
      Ok (clusterBalanceUpdatedEvent (BytesToAddress owner) ids
            (wrapU 64 (be_value blockNum)) eb c)
  | _ => Err errMissingIndexed
  end.

(** Pair the event's name with the parsed data. *)
Definition named (name : string) (r : result eventData) : result (string * eventData) :=
  e ← r; Ok (name, e).

Definition parseLog (log : Log) : result (string * eventData) :=
  match Topics log with
  | [] => Err errNoTopics
  | sig :: _ =>
      if bool_decide (sig = eventSig eventValidatorAdded)
      then named eventValidatorAdded (parseValidatorAdded log)
      else if bool_decide (sig = eventSig eventValidatorRemoved)
      then named eventValidatorRemoved (parseValidatorRemoved log)
      else if bool_decide (sig = eventSig eventClusterLiquidated)
      then named eventClusterLiquidated (parseClusterLiquidated log)
      else if bool_decide (sig = eventSig eventClusterReactivated)
      then named eventClusterReactivated (parseClusterReactivated log)
      else if bool_decide (sig = eventSig eventClusterWithdrawn)
      then named eventClusterWithdrawn (parseClusterWithdrawn log)
      else if bool_decide (sig = eventSig eventClusterDeposited)
      then named eventClusterDeposited (parseClusterDeposited log)
      else if bool_decide (sig = eventSig eventClusterMigratedToETH)
      then named eventClusterMigratedToETH (parseClusterMigratedToETH log)
      else if bool_decide (sig = eventSig eventClusterBalanceUpdated)
      then named eventClusterBalanceUpdated (parseClusterBalanceUpdated log)
      else Err (EWrap2 (ESentinel errUnknownEvent) (EText (Hex sig)))
  end.

(** ** What the ABI must satisfy *)

(** Event identifiers are the Keccak-256 of the canonical signature, unpacking
    errors are not the syncer's own sentinel, and uint64 arrays hold uint64s. *)
Class SSVNetworkABILaws : Prop := {
  Events_ID_sig name : name ∈ handledEvents → Events_ID name = Some (eventSig name);
  unpack_sentinel e : errors_Is e errUnknownEvent = true →
    (∀ d, unpack_ValidatorAdded d ≠ Err e ∧ unpack_ValidatorRemoved d ≠ Err e ∧
      unpack_ClusterLiquidated d ≠ Err e ∧ unpack_ClusterReactivated d ≠ Err e ∧
      unpack_ClusterWithdrawn d ≠ Err e ∧ unpack_ClusterDeposited d ≠ Err e ∧
      unpack_ClusterMigratedToETH d ≠ Err e ∧ unpack_ClusterBalanceUpdated d ≠ Err e);
  unpack_ids d :
    (∀ ids pk sh c, unpack_ValidatorAdded d = Ok (ids, pk, sh, c) → Forall (is_uint 64) ids) ∧
    (∀ ids pk c, unpack_ValidatorRemoved d = Ok (ids, pk, c) → Forall (is_uint 64) ids) ∧
    (∀ ids c, unpack_ClusterLiquidated d = Ok (ids, c) → Forall (is_uint 64) ids) ∧
    (∀ ids c, unpack_ClusterReactivated d = Ok (ids, c) → Forall (is_uint 64) ids) ∧
    (∀ ids v c, unpack_ClusterWithdrawn d = Ok (ids, v, c) → Forall (is_uint 64) ids) ∧
    (∀ ids v c, unpack_ClusterDeposited d = Ok (ids, v, c) → Forall (is_uint 64) ids) ∧
    (∀ ids x y z c, unpack_ClusterMigratedToETH d = Ok (ids, x, y, z, c) →
       Forall (is_uint 64) ids) ∧
    (∀ ids x c, unpack_ClusterBalanceUpdated d = Ok (ids, x, c) → Forall (is_uint 64) ids);
}.

(** A parsed event carries the event the name says. *)
Definition event_name (e : eventData) : string :=
  match e with
  | validatorAddedEvent _ _ _ _ _ => eventValidatorAdded
  | validatorRemovedEvent _ _ _ _ => eventValidatorRemoved
  | clusterLiquidatedEvent _ _ _ => eventClusterLiquidated
  | clusterReactivatedEvent _ _ _ => eventClusterReactivated
  | clusterWithdrawnEvent _ _ _ _ => eventClusterWithdrawn
  | clusterDepositedEvent _ _ _ _ => eventClusterDeposited
  | clusterMigratedToETHEvent _ _ _ _ _ _ => eventClusterMigratedToETH
  | clusterBalanceUpdatedEvent _ _ _ _ _ => eventClusterBalanceUpdated
  end.

End events.

(** ** Lemmas: the parser *)

Section lemmas.
Context {HC : Crypto} {HA : SSVNetworkABI} {HL : SSVNetworkABILaws}.

Lemma length_BytesToAddress b : length (BytesToAddress b) = 20%nat.
Proof. unfold BytesToAddress. rewrite length_app, length_replicate, length_drop. lia. Qed.

Lemma owner_topic_length log o : owner_topic log = Ok o → length o = 20%nat.
Proof.
  unfold owner_topic. destruct (Topics log) as [|? [|t ?]]; try done.
  intros [= <-]. apply length_BytesToAddress.
Qed.

(** What every successful parse guarantees. *)
Definition event_ok (e : eventData) : Prop :=
  length (clusterKey e).1 = 20%nat ∧ Forall (is_uint 64) (clusterKey e).2.

Lemma owner_topic_errors log e : owner_topic log = Err e → e = errMissingOwner.
Proof. unfold owner_topic. destruct (Topics log) as [|? [|t ?]]; by intros [= <-]. Qed.

(** Successful parses of the eight kinds of events. *)
Lemma parse_event_ok log e :
  parseValidatorAdded log = Ok e ∨ parseValidatorRemoved log = Ok e ∨
  parseClusterLiquidated log = Ok e ∨ parseClusterReactivated log = Ok e ∨
  parseClusterWithdrawn log = Ok e ∨ parseClusterDeposited log = Ok e ∨
  parseClusterMigratedToETH log = Ok e ∨ parseClusterBalanceUpdated log = Ok e →
  event_ok e.
Proof.
  destruct (unpack_ids (Data log)) as (U1 & U2 & U3 & U4 & U5 & U6 & U7 & U8).
  unfold parseValidatorAdded, parseValidatorRemoved, parseClusterLiquidated,
    parseClusterReactivated, parseClusterWithdrawn, parseClusterDeposited,
    parseClusterMigratedToETH, parseClusterBalanceUpdated.
  intros H. repeat (destruct H as [H|H]).
  8: { destruct (Topics log) as [|? [|o [|n ?]]]; try done. inv_ok.
       destruct r as [[ids x] c]. inv_ok. split; cbn; eauto using length_BytesToAddress. }
  all: inv_ok; apply owner_topic_length in E;
    repeat match goal with p : _ * _ |- _ => destruct p end; inv_ok; split; cbn; eauto.
Qed.

Lemma parseLog_ok log name e :
  parseLog log = Ok (name, e) → name = event_name e ∧ event_ok e.
Proof.
  intros H. assert (event_ok e) as Hok.
  { apply (parse_event_ok log). unfold parseLog in H. destruct (Topics log); [done|].
    repeat case_bool_decide; try done; unfold named in H; inv_ok; tauto. }
  split; [|done]. unfold parseLog in H. destruct (Topics log) as [|sig tp] eqn:Et; [done|].
  repeat case_bool_decide; try done; unfold named in H; inv_ok;
    [unfold parseValidatorAdded in E|unfold parseValidatorRemoved in E
    |unfold parseClusterLiquidated in E|unfold parseClusterReactivated in E
    |unfold parseClusterWithdrawn in E|unfold parseClusterDeposited in E
    |unfold parseClusterMigratedToETH in E|unfold parseClusterBalanceUpdated in E].
  8: { rewrite Et in E. destruct tp as [|o [|n ?]]; try done. inv_ok.
       destruct r as [[ids x] c]. by inv_ok. }
  all: inv_ok; repeat match goal with p : _ * _ |- _ => destruct p end; by inv_ok.
Qed.

(** A wrapped error is the sentinel only if the inner one is. *)
Lemma bind_not_sentinel {A B} (m : result A) (k : A → result B) err :
  (m ≫= k) = Err err → m = Err err ∨ ∃ a, m = Ok a ∧ k a = Err err.
Proof. destruct m; naive_solver. Qed.

Lemma owner_topic_not_sentinel log e : owner_topic log = Err e → errors_Is e errUnknownEvent = false.
Proof. by intros ->%owner_topic_errors. Qed.

Lemma wrap_not_sentinel {A} p (m : result A) e :
  wrap p m = Err e → (∀ e', m = Err e' → errors_Is e' errUnknownEvent = false) →
  errors_Is e errUnknownEvent = false.
Proof. destruct m as [a|x|]; cbn; intros E Hm; [done| |done]. injection E as <-. cbn. by apply Hm. Qed.

Lemma parse_event_err log err :
  parseValidatorAdded log = Err err ∨ parseValidatorRemoved log = Err err ∨
  parseClusterLiquidated log = Err err ∨ parseClusterReactivated log = Err err ∨
  parseClusterWithdrawn log = Err err ∨ parseClusterDeposited log = Err err ∨
  parseClusterMigratedToETH log = Err err ∨ parseClusterBalanceUpdated log = Err err →
  errors_Is err errUnknownEvent = false.
Proof.
  pose proof (λ e H, unpack_sentinel e H (Data log)) as U.
  unfold parseValidatorAdded, parseValidatorRemoved, parseClusterLiquidated,
    parseClusterReactivated, parseClusterWithdrawn, parseClusterDeposited,
    parseClusterMigratedToETH, parseClusterBalanceUpdated.
  intros H. repeat (destruct H as [H|H]).
  8: destruct (Topics log) as [|? [|o [|n ?]]]; try by injection H as <-.
  all: repeat first [apply bind_not_sentinel in H as [H|(? & _ & H)]
                    |by apply owner_topic_not_sentinel in H].
  all: repeat match goal with p : _ * _ |- _ => destruct p end; try done.
  all: eapply wrap_not_sentinel; [exact H|]; intros e' He';
    destruct (errors_Is e' errUnknownEvent) eqn:Es; [|done]; specialize (U e' Es); tauto.
Qed.

(** The parser reports an unknown event exactly for topics it has no case for. *)
Lemma parseLog_unknown log sig tp :
  Topics log = sig :: tp →
  (∃ err, parseLog log = Err err ∧ errors_Is err errUnknownEvent = true) ↔
  sig ∉ eventSig <$> handledEvents.
Proof.
  intros Et. unfold parseLog. rewrite Et. unfold handledEvents. cbn [fmap list_fmap].
  rewrite !not_elem_of_cons.
  repeat (case_bool_decide; [subst; split; [|tauto]; intros (err & He & Hs); exfalso;
    unfold named in He; apply bind_not_sentinel in He as [He|(? & _ & He)]; [|done];
    assert (errors_Is err errUnknownEvent = false) by (apply (parse_event_err log); tauto);
    congruence|]).
  split; [|by eauto]. intros _. repeat split; try done. apply not_elem_of_nil.
Qed.

Lemma EventTopics_sigs : EventTopics = Ok (eventSig <$> handledEvents).
Proof.
  unfold EventTopics.
  assert (∀ l, (∀ n, n ∈ l → n ∈ handledEvents) → EventTopics_loop l = Ok (eventSig <$> l)) as H.
  { induction l as [|n l IH]; intros Hin; [done|]. cbn [EventTopics_loop].
    rewrite Events_ID_sig by (apply Hin; left). cbn. rewrite IH; [done|].
    intros; apply Hin; by right. }
  by apply H.
Qed.
End lemmas.

(** ** Lemmas: cluster identifiers *)

Lemma mjoin_words_inj l1 l2 :
  Forall (is_uint 64) l1 → Forall (is_uint 64) l2 →
  mjoin (be_bytes 32 <$> l1) = mjoin (be_bytes 32 <$> l2) → l1 = l2.
Proof.
  revert l2. induction l1 as [|a l1 IH]; intros [|b l2] H1 H2 E; [done| | |].
  - apply (f_equal length) in E. cbn [fmap list_fmap mjoin list_join] in E.
    rewrite length_app, length_be_bytes in E. cbn in E. lia.
  - apply (f_equal length) in E. cbn [fmap list_fmap mjoin list_join] in E.
    rewrite length_app, length_be_bytes in E. cbn in E. lia.
  - apply Forall_cons in H1 as [Ha H1], H2 as [Hb H2].
    cbn [fmap list_fmap mjoin list_join] in E.
    apply app_inj_1 in E as [Eh E]; [|by rewrite !length_be_bytes].
    unfold is_uint in Ha, Hb. f_equal; [|by apply IH].
    assert (2 ^ 64 <= 256 ^ Z.of_nat 32) by (cbn; lia). apply (be_bytes_inj 32); [lia..|done].
Qed.

Section cluster_id.
Context {HC : Crypto} {HL : CryptoLaws}.

Lemma length_computeClusterID o ids : length (computeClusterID o ids) = 32%nat.
Proof. apply length_to_array. Qed.

Lemma computeClusterID_digest o ids :
  computeClusterID o ids = Keccak256 (clusterID_input o ids).
Proof. apply to_array_id, Keccak256_length. Qed.

Lemma computeClusterID_perm o ids1 ids2 :
  ids1 ≡ₚ ids2 → computeClusterID o ids1 = computeClusterID o ids2.
Proof.
  intros Hp. unfold computeClusterID. do 2 f_equal.
  replace (merge_sort Z.le ids1) with (merge_sort Z.le ids2); [done|].
  apply (StronglySorted_unique Z.le); [apply (StronglySorted_merge_sort _)..|].
  by rewrite !merge_sort_Permutation.
Qed.

Lemma computeClusterID_inj o1 o2 ids1 ids2 :
  length o1 = 20%nat → length o2 = 20%nat →
  Forall (is_uint 64) ids1 → Forall (is_uint 64) ids2 →
  computeClusterID o1 ids1 = computeClusterID o2 ids2 →
  (o1 = o2 ∧ ids1 ≡ₚ ids2) ∨ collides_in [clusterID_input o1 ids1; clusterID_input o2 ids2].
Proof.
  intros Ho1 Ho2 H1 H2.
  rewrite !computeClusterID_digest. intros [E|Hc]%(same_digest
    [clusterID_input o1 ids1; clusterID_input o2 ids2]); [left|by right|set_solver..].
  unfold clusterID_input in E.
  apply app_inj_1 in E as [-> E]; [|congruence]. split; [done|].
  apply mjoin_words_inj in E; [|by rewrite merge_sort_Permutation..].
  by rewrite <- (merge_sort_Permutation Z.le ids1), E, merge_sort_Permutation.
Qed.
End cluster_id.

(** ** Properties *)

(** The cluster identifier depends on the owner and the set of operators, not
    on the order in which an event lists them, and it separates two clusters unless
    the very inputs that are hashed for them have the same digest. *)
Theorem computeClusterID_canonical `{!Crypto, !CryptoLaws} o1 o2 ids1 ids2 :
  length o1 = 20%nat → length o2 = 20%nat →
  Forall (is_uint 64) ids1 → Forall (is_uint 64) ids2 →
  (o1 = o2 → ids1 ≡ₚ ids2 → computeClusterID o1 ids1 = computeClusterID o2 ids2) ∧
  (computeClusterID o1 ids1 = computeClusterID o2 ids2 →
     (o1 = o2 ∧ ids1 ≡ₚ ids2) ∨
     collides_in [clusterID_input o1 ids1; clusterID_input o2 ids2]).
Proof.
  intros Ho1 Ho2 H1 H2. split; [|by apply computeClusterID_inj].
  intros -> Hp. by apply computeClusterID_perm.
Qed.

(** The topics the logs are filtered by are exactly the signatures the parser
    has a case for: [EventTopics] does not panic, a log it selects is never
    reported as unknown, and every other log is. *)
Theorem EventTopics_cover `{!Crypto, !SSVNetworkABI, !SSVNetworkABILaws} :
  ∃ topics, EventTopics = Ok topics ∧
    ∀ log sig tp, Topics log = sig :: tp →
      (sig ∈ topics ↔
       ¬ ∃ err, parseLog log = Err err ∧ errors_Is err errUnknownEvent = true).
Proof.
  exists (eventSig <$> handledEvents). split; [apply EventTopics_sigs|].
  intros log sig tp Et. rewrite (parseLog_unknown log sig tp Et).
  destruct (decide (sig ∈ eventSig <$> handledEvents)); tauto.
Qed.

(** ** A concrete ABI and witnesses *)

(** A toy encoding: five bytes of cluster data, then one byte per operator. *)
Definition toy_unpack (d : bytes) : result (list Z * cluster) :=
  let n b := Z.of_N (Byte.to_N b) in
  match d with
  | vc :: nfi :: ix :: act :: bal :: ids =>
      Ok (n <$> ids, mkEvCluster (n vc) (n nfi) (n ix) (negb (n act =? 0)) (n bal))
  | _ => Err (EText "abi: cannot unmarshal")
  end.

#[export] Instance toy_abi : SSVNetworkABI := {|
  Events_ID name := Some (eventSig name);
  unpack_ValidatorAdded d :=
    p ← toy_unpack d; Ok (p.1, to_array 48 d, [], p.2);
  unpack_ValidatorRemoved d := p ← toy_unpack d; Ok (p.1, to_array 48 d, p.2);
  unpack_ClusterLiquidated d := toy_unpack d;
  unpack_ClusterReactivated d := toy_unpack d;
  unpack_ClusterWithdrawn d := p ← toy_unpack d; Ok (p.1, 0, p.2);
  unpack_ClusterDeposited d := p ← toy_unpack d; Ok (p.1, 0, p.2);
  unpack_ClusterMigratedToETH d := p ← toy_unpack d; Ok (p.1, 0, 0, 0, p.2);
  unpack_ClusterBalanceUpdated d := p ← toy_unpack d; Ok (p.1, 0, p.2);
|}.

Lemma toy_unpack_cases d :
  toy_unpack d = Err (EText "abi: cannot unmarshal") ∨
  ∃ ids c, toy_unpack d = Ok (ids, c) ∧ Forall (is_uint 64) ids.
Proof.
  destruct d as [|? [|? [|? [|? [|? ids]]]]]; [by left..|right].
  do 2 eexists. split; [done|]. apply Forall_fmap, Forall_forall. intros y _. unfold is_uint. cbn.
  pose proof (Byte.to_N_bounded y). lia.
Qed.

#[export] Instance toy_abi_laws : SSVNetworkABILaws.
Proof.
  split; [done| |].
  - intros e He d. cbn. destruct (toy_unpack_cases d) as [->|(ids & c & -> & _)]; cbn;
      repeat split; intros [= <-]; done.
  - intros d. cbn. destruct (toy_unpack_cases d) as [->|(ids & c & -> & Hids)]; cbn;
      repeat split; intros; by simplify_eq.
Qed.

Lemma computeClusterID_canonical_witness :
  (be_bytes 20 7 = be_bytes 20 7 → [1; 2; 3; 4] ≡ₚ [4; 2; 1; 3] →
     computeClusterID (be_bytes 20 7) [1; 2; 3; 4] =
     computeClusterID (be_bytes 20 7) [4; 2; 1; 3]) ∧
  (computeClusterID (be_bytes 20 7) [1; 2; 3; 4] = computeClusterID (be_bytes 20 7) [4; 2; 1; 3] →
     (be_bytes 20 7 = be_bytes 20 7 ∧ [1; 2; 3; 4] ≡ₚ [4; 2; 1; 3]) ∨
     collides_in [clusterID_input (be_bytes 20 7) [1; 2; 3; 4];
                  clusterID_input (be_bytes 20 7) [4; 2; 1; 3]]).
Proof.
  apply (computeClusterID_canonical (be_bytes 20 7) (be_bytes 20 7) [1; 2; 3; 4] [4; 2; 1; 3]);
    try reflexivity; repeat constructor; lia.
Defined.

Lemma EventTopics_cover_witness :
  ∃ topics, EventTopics = Ok topics ∧
    ∀ log sig tp, Topics log = sig :: tp →
      (sig ∈ topics ↔
       ¬ ∃ err, parseLog log = Err err ∧ errors_Is err errUnknownEvent = true).
Proof. apply EventTopics_cover. Defined.
