(* ===== verification/Syncer.v ===== *)
(** * eth/syncer: applying contract events (src/eth/syncer/syncer.go, headstate.go)

    The syncer runs over the state of [Execution.FetchLogs] with the database
    ([Storage.World]) as data.  [SyncToBlock] runs its fetcher to the end and then
    processes what it sent; the two goroutines are in Pipeline.

    The specification is [replay]: the events of a range of the chain applied one
    by one, without batches, transactions or failures. *)

From S2P Require Import Prelude Merkle Storage Retry Execution Events.

#[local] Open Scope go_scope.

(** ** Applying one event *)

Section process.
Context `{!Crypto, !SSVNetworkABI}.

(** The row an event carries for its cluster. *)
Definition event_row (clusterID owner : bytes) (operatorIDs : list Z) (c : cluster) : ClusterRow :=
  mkCluster clusterID owner operatorIDs (ev_ValidatorCount c) (ev_NetworkFeeIndex c)
    (ev_Index c) (ev_Active c) (ev_Balance c).

Definition upsertClusterFromEvent (owner : bytes) (operatorIDs : list Z) (clusterID : bytes)
    (c : cluster) : M unit :=
  upsertCluster (event_row clusterID owner operatorIDs c).

Definition handleValidatorAdded (owner : bytes) (operatorIDs : list Z) (pk : bytes) (c : cluster)
    (clusterID : bytes) : M unit :=
  _ ← upsertCluster (event_row clusterID owner operatorIDs c);
  insertValidator clusterID pk.

Definition handleValidatorRemoved (owner : bytes) (operatorIDs : list Z) (pk : bytes) (c : cluster)
    (clusterID : bytes) : M unit :=
  _ ← deleteValidator clusterID pk;
  upsertClusterFromEvent owner operatorIDs clusterID c.

Definition handleClusterLiquidated (owner : bytes) (operatorIDs : list Z) (clusterID : bytes)
    (c : cluster) : M unit :=
  upsertClusterFromEvent owner operatorIDs clusterID c.

Definition handleClusterReactivated (owner : bytes) (operatorIDs : list Z) (clusterID : bytes)
    (c : cluster) : M unit :=
  upsertClusterFromEvent owner operatorIDs clusterID c.

Definition handleClusterWithdrawn (owner : bytes) (operatorIDs : list Z) (clusterID : bytes)
    (c : cluster) : M unit :=
  upsertClusterFromEvent owner operatorIDs clusterID c.

Definition handleClusterDeposited (owner : bytes) (operatorIDs : list Z) (clusterID : bytes)
    (c : cluster) : M unit :=
  upsertClusterFromEvent owner operatorIDs clusterID c.

Definition handleClusterMigratedToETH (owner : bytes) (operatorIDs : list Z) (clusterID : bytes)
    (c : cluster) : M unit :=
  upsertClusterFromEvent owner operatorIDs clusterID c.

Definition handleClusterBalanceUpdated (owner : bytes) (operatorIDs : list Z) (clusterID : bytes)
    (c : cluster) : M unit :=
  upsertClusterFromEvent owner operatorIDs clusterID c.

Definition errUnhandled (eventType : string) : error :=
  EText ("unhandled event type: " +:+ eventType).

(** The switch on the event's name; [eventData.(T)] panics on another struct. *)
Definition applyEvent (eventType : string) (e : eventData) (clusterID : bytes) : M unit :=
  if bool_decide (eventType = eventValidatorAdded) then
    match e with
    | validatorAddedEvent o ids pk _ c => handleValidatorAdded o ids pk c clusterID
    | _ => lift Panic
    end
  else if bool_decide (eventType = eventValidatorRemoved) then
    match e with
    | validatorRemovedEvent o ids pk c => handleValidatorRemoved o ids pk c clusterID
    | _ => lift Panic
    end
  else if bool_decide (eventType = eventClusterLiquidated) then
    match e with
    | clusterLiquidatedEvent o ids c => handleClusterLiquidated o ids clusterID c
    | _ => lift Panic
    end
  else if bool_decide (eventType = eventClusterReactivated) then
    match e with
    | clusterReactivatedEvent o ids c => handleClusterReactivated o ids clusterID c
    | _ => lift Panic
    end
  else if bool_decide (eventType = eventClusterWithdrawn) then
    match e with
    | clusterWithdrawnEvent o ids _ c => handleClusterWithdrawn o ids clusterID c
    | _ => lift Panic
    end
  else if bool_decide (eventType = eventClusterDeposited) then
    match e with
    | clusterDepositedEvent o ids _ c => handleClusterDeposited o ids clusterID c
    | _ => lift Panic
    end
  else if bool_decide (eventType = eventClusterMigratedToETH) then
    match e with
    | clusterMigratedToETHEvent o ids _ _ _ c => handleClusterMigratedToETH o ids clusterID c
    | _ => lift Panic
    end
  else if bool_decide (eventType = eventClusterBalanceUpdated) then
    match e with
    | clusterBalanceUpdatedEvent o ids _ _ c => handleClusterBalanceUpdated o ids clusterID c
    | _ => lift Panic
    end
  else fail (errUnhandled eventType).

(** The stored form of a log; positions are truncated to uint32. *)
Definition stored_event (eventType : string) (log : Log) (blockNumber blockTime : Z)
    (clusterID : option bytes) (err : option string) : ContractEvent :=
  mkEvent eventType blockNumber (l_BlockHash log) blockTime (l_TxHash log)
    (wrapU 32 (TxIndex log)) (wrapU 32 (l_Index log)) clusterID err.

Definition storeRawEvent (log : Log) (bl : BlockLogs) (parseErr : error) : M unit :=
  insertEvent (stored_event "Unknown" log (bl_BlockNumber bl) (bl_BlockTime bl) None
    (Some (Error parseErr))).

Definition errHandledParse (log : Log) (bl : BlockLogs) (err : error) : error :=
  EWrap ("handled event parse failure at block " +:+ pretty (bl_BlockNumber bl) +:+ " tx " +:+
    Hex (l_TxHash log) +:+ " log " +:+ pretty (l_Index log)) err.

(** [true] when the event is one the syncer handles. *)
Definition processLog (log : Log) (bl : BlockLogs) : M bool :=
  match parseLog log with
  | Err err =>
      if errors_Is err errUnknownEvent then
        _ ← storeRawEvent log bl err; mret false
      else fail (errHandledParse log bl err)
  | Panic => lift Panic
  | Ok (eventType, e) =>
      let clusterID := computeClusterIDFromEvent e in
      _ ← wrapM "insert event" (insertEvent (stored_event eventType log (bl_BlockNumber bl)
            (bl_BlockTime bl) clusterID None));
      _ ← wrapM "apply event" (applyEvent eventType e (default [] clusterID));
      mret true
  end.

(** ** Batches *)

(** The inner loop over one block's logs; [knownEvents] counts the handled ones. *)
Fixpoint process_logs (bl : BlockLogs) (logs : list Log) (knownEvents : Z) : M Z :=
  match logs with
  | [] => mret knownEvents
  | log :: logs' =>
      known ← wrapM ("process block " +:+ pretty (bl_BlockNumber bl) +:+ " log " +:+
                pretty (l_Index log)) (processLog log bl);
      process_logs bl logs' (if known : bool then knownEvents + 1 else knownEvents)
  end.

Fixpoint process_blocks (logs : list BlockLogs) (knownEvents : Z) : M Z :=
  match logs with
  | [] => mret knownEvents
  | bl :: rest =>
      knownEvents' ← process_logs bl (Logs bl) knownEvents;
      process_blocks rest knownEvents'
  end.

Definition processBatch (batchEnd : Z) (logs : list BlockLogs) : M Z :=
  match logs with
  | [] =>
      _ ← wrapM "update sync progress" (updateLastSyncedBlock batchEnd);
      mret 0
  | _ =>
      in_tx "begin tx" "commit batch" (
        knownEvents ← process_blocks logs 0;
        _ ← wrapM "update sync progress" (updateLastSyncedBlock batchEnd);
        mret knownEvents)
  end.

(** ** Fetching and processing *)

Inductive batchResult :=
  | batch (batchEnd : Z) (logs : list BlockLogs)
  | batch_err (err : error).

Definition prefetchBuffer : nat := 2.

(** The processing loop over what arrives on the channel. *)
Fixpoint process_batches (batches : list batchResult) : M unit :=
  match batches with
  | [] => mret tt
  | batch_err err :: _ => fail err
  | batch batchEnd logs :: rest =>
      _ ← processBatch batchEnd logs;
      process_batches rest
  end.

(** What the fetcher's callback sends. *)
Definition send_batch (batchEnd : Z) (logs : list BlockLogs) : io (list batchResult) unit :=
  λ sent, (Ok tt, sent ++ [batch batchEnd logs]).

Section sync.
Context {E : Type} `{!Runtime E, !ExecutionRPC E} (retryConfig : RetryConfig).
Variable ssvContract : bytes.

(** Everything [runFetcher] sends when it is not stopped; [Panic] when the process
    panics. *)
Definition runFetcher (fuel : nat) (fromBlock toBlock : Z) (s : Exec E World)
    : option (result (list batchResult) * Exec E World) :=
  match EventTopics with
  | Ok topics =>
      match FetchLogs retryConfig fuel ssvContract fromBlock toBlock topics send_batch
              (mkExec (batchSize s) (env s) []) with
      | Some (r, s') =>
          Some (match r with
                | Ok _ => Ok (data s')
                | Err err => Ok (data s' ++ [batch_err err])
                | Panic => Panic
                end, mkExec (batchSize s') (env s') (data s))
      | None => None
      end
  | Err err => Some (Err err, s)
  | Panic => Some (Panic, s)
  end.

(** [SyncToBlock] from the start of the fetcher on; [None] when the fetcher has not ended
    within the fuel. *)
Definition syncBlocks (fuel : nat) (lastSynced targetBlock : Z) (s : Exec E World)
    : option (result unit * Exec E World) :=
  match runFetcher fuel (lastSynced +u64 1) targetBlock s with
  | Some (Ok batches, s) =>
      Some ((_ ← on_data (process_batches batches); check_ctx) s)
  | Some (Err err, s) => Some (Err err, s)
  | Some (Panic, s) => Some (Panic, s)
  | None => None
  end.

Definition bulkSyncThreshold : Z := 100000.

(** The bulk mode for large gaps: set before, and when that succeeded reset on the way out. *)
Definition in_sync_mode (totalBlocks : Z) (body : iof (Exec E World) unit) : iof (Exec E World) unit :=
  λ s,
  if totalBlocks <=? bulkSyncThreshold then body s
  else
    let '(set, s) := on_data (SetSyncMode true) s in
    match body s with
    | Some (r, s) =>
        Some (r, match set with Ok _ => (on_data (SetSyncMode false) s).2 | _ => s end)
    | None => None
    end.

Definition SyncToBlock (fuel : nat) (targetBlock : Z) (s : Exec E World)
    : option (result unit * Exec E World) :=
  match on_data (wrapM "get last synced block" GetLastSyncedBlock) s with
  | (Ok lastSynced, s) =>
      if targetBlock <=? lastSynced then Some (Ok tt, s)
      else in_sync_mode (wrapS 64 (targetBlock -u64 lastSynced))
             (syncBlocks fuel lastSynced targetBlock) s
  | (Err err, s) => Some (Err err, s)
  | (Panic, s) => Some (Panic, s)
  end.

(** A first run starts just before the deployment block. *)
Definition SyncToFinalized (fuel : nat) (deployBlock : Z) (s : Exec E World)
    : option (result unit * Exec E World) :=
  let start : io (Exec E World) Z :=
    lastSynced ← on_data (wrapM "get last synced block" GetLastSyncedBlock);
    _ ← (if lastSynced =? 0
         then on_data (wrapM "set initial sync block" (updateLastSyncedBlock (deployBlock -u64 1)))
         else mret tt);
    on_env (wrapM "get finalized block" (GetFinalizedBlock retryConfig)) in
  match start s with
  | (Ok finalizedBlock, s) => SyncToBlock fuel finalizedBlock s
  | (Err err, s) => Some (Err err, s)
  | (Panic, s) => Some (Panic, s)
  end.

(** ** The head-state overlay *)

Abbreviation overlay := (gmap bytes ClusterRow).

(** [copy(key[:], id)] into a [[32]byte]. *)
Definition key_of (id : bytes) : bytes := to_array 32 id.

Definition applyClusterEventToOverlay (requested : gset bytes) (e : eventData) (o : overlay)
    : overlay :=
  let '(owner, operatorIDs) := clusterKey e in
  let idArr := computeClusterID owner operatorIDs in
  if bool_decide (idArr ∈ requested)
  then <[idArr := event_row idArr owner operatorIDs (event_cluster e)]> o
  else o.

Definition errOverlayParse (log : Log) (err : error) : error :=
  EWrap ("parse event at block " +:+ pretty (l_BlockNumber log) +:+ " log " +:+
    pretty (l_Index log)) err.

Fixpoint overlay_logs (requested : gset bytes) (logs : list Log) : io overlay unit :=
  match logs with
  | [] => mret tt
  | log :: logs' =>
      match parseLog log with
      | Err perr =>
          if errors_Is perr errUnknownEvent then overlay_logs requested logs'
          else fail (errOverlayParse log perr)
      | Panic => lift Panic
      | Ok (_, e) => λ o,
          overlay_logs requested logs' (applyClusterEventToOverlay requested e o)
      end
  end.

Definition overlay_batch (requested : gset bytes) (_ : Z) (batches : list BlockLogs)
    : io overlay unit :=
  overlay_logs requested (mjoin (Logs <$> batches)).

(** The reads before the replay. *)
Definition snapshot_start (clusterIDs : list bytes)
    : io (Exec E World) (list ClusterRow * Z * Z) :=
  p ← on_data (wrapM "get finalized clusters" (GetFinalizedClusters clusterIDs));
  headNum ← on_env (wrapM "get head block" (GetHeadBlock retryConfig));
  mret (p.1, p.2, headNum).

Definition BuildHeadStateSnapshot (fuel : nat) (clusterIDs : list bytes) (s : Exec E World)
    : option (result overlay * Exec E World) :=
  match snapshot_start clusterIDs s with
  | (Ok (finalized, lastSynced, headNum), s) =>
      let o := foldl (λ o row, <[key_of (ClusterID row) := row]> o) ∅ finalized in
      let requested : gset bytes := list_to_set (key_of <$> clusterIDs) in
      if headNum <=? lastSynced then Some (Ok o, s)
      else match EventTopics with
      | Ok topics =>
          match FetchLogs retryConfig fuel ssvContract (lastSynced +u64 1) headNum topics
                  (overlay_batch requested) (mkExec (batchSize s) (env s) o) with
          | Some (r, s') =>
              Some (wrap "fetch overlay logs" (_ ← r; Ok (data s')),
                    mkExec (batchSize s') (env s') (data s))
          | None => None
          end
      | _ => Some (Panic, s)
      end
  | (Err err, s) => Some (Err err, s)
  | (Panic, s) => Some (Panic, s)
  end.
End sync.
End process.

(** ** Specification *)

Section spec.
Context `{!Crypto, !SSVNetworkABI}.

(** The validators after an event of cluster [id]. *)
Definition event_validators (id : bytes) (e : eventData) (v : gset (bytes * bytes))
    : gset (bytes * bytes) :=
  match e with
  | validatorAddedEvent _ _ pk _ _ => {[ (id, pk) ]} ∪ v
  | validatorRemovedEvent _ _ pk _ => v ∖ {[ (id, pk) ]}
  | _ => v
  end.

(** The effect of a handled event on the tables: its cluster row is replaced, and
    its validator added or removed. *)
Definition event_effect (e : eventData) (d : DB) : DB :=
  let '(o, ids) := clusterKey e in
  let id := computeClusterID o ids in
  set_validators (event_validators id e (validators d))
    (set_clusters (<[id := cluster_columns (event_row id o ids (event_cluster e))]> (clusters d)) d).

(** The database rejects a validator key of a wrong length. *)
Definition pubkey_ok (e : eventData) : bool :=
  match e with
  | validatorAddedEvent _ _ pk _ _ => Z.of_nat (length pk) =? PublicKeyLength
  | _ => true
  end.

(** A log alone, without its block's other logs. *)
Definition block_of (times : Z → Z) (log : Log) : BlockLogs :=
  mkBlockLogs (l_BlockNumber log) (times (l_BlockNumber log)) [].

(** What [processLog] must do on a fault-free database: a handled event is recorded
    with its cluster identifier and takes effect, an unknown signature is only
    recorded, a handled event that does not parse and a validator key of a wrong
    length are errors. *)
Definition processLog_spec (log : Log) (bl : BlockLogs) (d : DB) : Prop :=
  match parseLog log with
  | Ok (name, e) =>
      let ev := stored_event name log (bl_BlockNumber bl) (bl_BlockTime bl)
        (Some (computeClusterID (clusterKey e).1 (clusterKey e).2)) None in
      if pubkey_ok e
      then processLog log bl (mkWorld d []) = (Ok true, mkWorld (event_effect e (put_event ev d)) [])
      else (processLog log bl (mkWorld d [])).1 = Err (EWrap "apply event" errPubkeyLength)
  | Err err =>
      if errors_Is err errUnknownEvent
      then processLog log bl (mkWorld d []) = (Ok false, mkWorld (put_event
             (stored_event "Unknown" log (bl_BlockNumber bl) (bl_BlockTime bl) None
               (Some (Error err))) d) [])
      else processLog log bl (mkWorld d []) = (Err (errHandledParse log bl err), mkWorld d [])
  | Panic => (processLog log bl (mkWorld d [])).1 = Panic
  end.

(** The logs applied one by one, with no batches, transactions or failures. *)
Fixpoint replay (times : Z → Z) (logs : list Log) (d : DB) : result DB :=
  match logs with
  | [] => Ok d
  | log :: logs' =>
      match processLog log (block_of times log) (mkWorld d []) with
      | (Ok _, w') => replay times logs' (db w')
      | (Err e, _) => Err e
      | (Panic, _) => Panic
      end
  end.
End spec.

(** ** Lemmas: one event *)

Section event.
Context {HC : Crypto} {HA : SSVNetworkABI}.

Lemma applyEvent_ok e id o ids d :
  clusterKey e = (o, ids) → pubkey_ok e = true →
  applyEvent (event_name e) e id (mkWorld d []) =
  (Ok tt, mkWorld (set_validators (event_validators id e (validators d))
    (set_clusters (<[id := cluster_columns (event_row id o ids (event_cluster e))]> (clusters d)) d)) []).
Proof.
  intros Hk Hp. destruct d as [ci ls ev cl va oc].
  destruct e; injection Hk as <- <-; try reflexivity.
  cbn in Hp. unfold applyEvent, handleValidatorAdded. rewrite bool_decide_eq_true_2 by done.
  unfold mbind, io_bind, insertValidator, upsertCluster. rewrite Hp.
  unfold wrapM. rewrite update_now. unfold stmt. cbn. by rewrite lookup_insert_eq.
Qed.

(** Every branch of [processLog] on a fault-free database. *)
Lemma processLog_run {HL : SSVNetworkABILaws} log bl d :
  processLog_spec log bl d.
Proof.
  unfold processLog_spec, processLog. destruct (parseLog log) as [[name e]|err|] eqn:Ep; [| |done].
  - pose proof (proj1 (parseLog_ok log name e Ep)) as ->.
    unfold computeClusterIDFromEvent, event_effect.
    destruct (clusterKey e) as [o ids] eqn:Ek. cbn [fst snd default]. cbv zeta.
    destruct (pubkey_ok e) eqn:Epk.
    + unfold mbind at 1, io_bind at 1. cbn [wrapM insertEvent]. unfold wrapM at 1, insertEvent.
      unfold wrapM at 1. rewrite update_now. cbn. unfold mbind, io_bind, wrapM.
      by rewrite (applyEvent_ok e _ o ids _ Ek Epk).
    + destruct e; try discriminate Epk. injection Ek as <- <-.
      cbn in Epk. unfold mbind, io_bind, insertEvent, wrapM. rewrite update_now. cbn -[applyEvent].
      unfold applyEvent. rewrite bool_decide_eq_true_2 by done.
      unfold handleValidatorAdded, upsertCluster, mbind, io_bind, insertValidator, wrapM.
      by rewrite Epk, update_now.
  - case_match; [|done]. unfold storeRawEvent, insertEvent, mbind, io_bind, wrapM.
    by rewrite update_now.
Qed.

Ltac stable_step :=
  repeat lazymatch goal with
  | |- stable (_ ≫= _) => apply stable_bind; [|intros ?]
  | |- stable (wrapM _ _) => apply stable_wrapM
  | |- stable (if ?b then _ else _) => destruct b
  | |- stable (match ?e with _ => _ end) => destruct e
  | |- stable _ => solve [auto with oracle]
  end.

Ltac framed_step :=
  repeat lazymatch goal with
  | |- framed (_ ≫= _) => apply framed_bind; [|intros ?]
  | |- framed (wrapM _ _) => apply framed_wrapM
  | |- framed (if ?b then _ else _) => destruct b
  | |- framed (match ?e with _ => _ end) => destruct e
  | |- framed _ => solve [auto with oracle]
  end.

Lemma applyEvent_stable ty e id : stable (applyEvent ty e id).
Proof.
  unfold applyEvent, handleValidatorAdded, handleValidatorRemoved,
    handleClusterLiquidated, handleClusterReactivated, handleClusterWithdrawn,
    handleClusterDeposited, handleClusterMigratedToETH, handleClusterBalanceUpdated, upsertClusterFromEvent.
  destruct e; stable_step.
Qed.

Lemma processLog_stable log bl : stable (processLog log bl).
Proof.
  pose proof applyEvent_stable. unfold processLog, storeRawEvent. stable_step.
Qed.

Lemma applyEvent_framed ty e id : framed (applyEvent ty e id).
Proof.
  unfold applyEvent, handleValidatorAdded, handleValidatorRemoved,
    handleClusterLiquidated, handleClusterReactivated, handleClusterWithdrawn,
    handleClusterDeposited, handleClusterMigratedToETH, handleClusterBalanceUpdated, upsertClusterFromEvent.
  destruct e; framed_step.
Qed.

Lemma processLog_framed log bl : framed (processLog log bl).
Proof.
  pose proof applyEvent_framed. unfold processLog, storeRawEvent. framed_step.
Qed.

(** ** Lemmas: replaying *)

Lemma replay_app times l1 l2 d :
  replay times (l1 ++ l2) d = d' ← replay times l1 d; replay times l2 d'.
Proof.
  revert d. induction l1 as [|x l1 IH]; intros d; [done|]. cbn [replay app].
  destruct (processLog x (block_of times x) (mkWorld d [])) as [[b|e|] w']; [apply IH|done..].
Qed.

(** Replaying commutes with moving the cursor. *)
Lemma replay_cursor times logs c d d' :
  replay times logs d = Ok d' →
  replay times logs (set_last_synced c d) = Ok (set_last_synced c d').
Proof.
  revert d. induction logs as [|x logs IH]; intros d H; cbn [replay] in *.
  { by injection H as ->. }
  rewrite (processLog_framed x (block_of times x) c d []).
  destruct (processLog x (block_of times x) (mkWorld d [])) as [[b|e|] w']; [|done..].
  cbn. by apply IH.
Qed.

(** The inner loop replays its block. *)
Lemma process_logs_replay times bl logs k w k' w' :
  bl_BlockTime bl = times (bl_BlockNumber bl) →
  Forall (λ x, l_BlockNumber x = bl_BlockNumber bl) logs →
  process_logs bl logs k w = (Ok k', w') → replay times logs (db w) = Ok (db w').
Proof.
  intros Ht. revert k w. induction logs as [|x logs IH]; intros k w Hl H; cbn [process_logs] in H.
  { by injection H as _ <-. }
  apply Forall_cons in Hl as [Hx Hl]. inv_io. apply processLog_stable in E. cbn [replay].
  assert (processLog x (block_of times x) = processLog x bl) as ->.
  { unfold processLog, storeRawEvent, block_of, errHandledParse. cbn. by rewrite Hx, <- Ht. }
  rewrite E. cbn. by apply (IH _ _ Hl H).
Qed.

Lemma process_blocks_replay times bls k w k' w' :
  Forall (λ bl, bl_BlockTime bl = times (bl_BlockNumber bl) ∧ Logs bl ≠ [] ∧
    Forall (λ x, l_BlockNumber x = bl_BlockNumber bl) (Logs bl)) bls →
  process_blocks bls k w = (Ok k', w') → replay times (mjoin (Logs <$> bls)) (db w) = Ok (db w').
Proof.
  revert k w. induction bls as [|bl bls IH]; intros k w HF H; cbn [process_blocks] in H.
  { by injection H as _ <-. }
  apply Forall_cons in HF as [(Ht & _ & Hl) HF]. inv_io.
  cbn [fmap list_fmap mjoin list_join]. rewrite replay_app.
  erewrite process_logs_replay by eauto. cbn. by eapply IH.
Qed.

(** A batch is applied entirely, or not at all. *)
Lemma processBatch_replay times e logs w r w' :
  processBatch e (blocks_of times logs) w = (r, w') →
  (∃ k d1, r = Ok k ∧ replay times logs (db w) = Ok d1 ∧ db w' = set_last_synced e d1) ∨
  ((∀ k, r ≠ Ok k) ∧ db w' = db w).
Proof.
  unfold processBatch. destruct (blocks_of times logs) as [|bl bls] eqn:Eb.
  - apply blocks_of_nil in Eb as ->. unfold mbind, io_bind, wrapM, updateLastSyncedBlock, wrapM.
    destruct (update (set_last_synced e) w) as [r1 w1] eqn:Eu.
    apply update_inv in Eu as [[-> Hd]|[Hn Hd]]; cbn.
    + intros [= <- <-]. left. eauto.
    + destruct r1 as [u| |]; [by destruct (Hn u)|..]; intros [= <- <-]; by right.
  - intros [(k & w1 & w2 & -> & Hw1 & Hbody & ->)|[Hn Hd]]%in_tx_inv; [left|by right].
    inv_io. assert (Forall (λ bl, bl_BlockTime bl = times (bl_BlockNumber bl) ∧ Logs bl ≠ [] ∧
      Forall (λ x, l_BlockNumber x = bl_BlockNumber bl) (Logs bl)) (bl :: bls)) as HF.
    { rewrite <- Eb. apply blocks_of_Forall. }
    apply (process_blocks_replay times _ _ _ _ _ HF) in E.
    rewrite <- Eb, mjoin_blocks_of, Hw1 in E. exists k, (db s). split; [done|]. split; [done|].
    unfold updateLastSyncedBlock in E0. inv_io.
    apply update_inv in E0 as [[_ ->]|[Hn _]]; [done|by edestruct Hn].
Qed.
End event.

(** ** Lemmas: a whole synchronisation *)

(** The same but for the script of faults. *)
Record like {E} (s s' : Exec E World) : Prop := {
  lk_batch : batchSize s' = batchSize s;
  lk_env : env s' = env s;
  lk_db : db (data s') = db (data s);
}.

Lemma SetSyncMode_like {E} bulk (s : Exec E World) : like s (on_data (SetSyncMode bulk) s).2.
Proof.
  pose proof (next_fault_db (data s)) as Hd. unfold on_data, zoom, SetSyncMode.
  destruct (next_fault (data s)) as [r w]. by split.
Qed.

Lemma in_sync_mode_inv {E} n (body : iof (Exec E World) unit) s r s' :
  in_sync_mode n body s = Some (r, s') →
  ∃ s1 s2, body s1 = Some (r, s2) ∧ like s s1 ∧ like s2 s'.
Proof.
  unfold in_sync_mode. case_match; [by exists s, s'|]. pose proof (SetSyncMode_like true s) as H1.
  destruct (on_data (SetSyncMode true) s) as [set s1]. destruct (body s1) as [[r2 s2]|] eqn:Hb;
    [|done]. intros [= <- <-]. exists s1, s2. split; [done|]. split; [done|].
  destruct set; [apply SetSyncMode_like|done..].
Qed.

Lemma in_sync_mode_total {E} n (body : iof (Exec E World) unit) s :
  (∀ s1, like s s1 → is_Some (body s1)) → is_Some (in_sync_mode n body s).
Proof.
  intros Hb. unfold in_sync_mode. case_match; [by apply Hb|].
  pose proof (SetSyncMode_like true s) as H1.
  destruct (on_data (SetSyncMode true) s) as [set s1]. destruct (Hb s1 H1) as [[r2 s2] ->]. done.
Qed.

Section sync_lemmas.
Context {HC : Crypto} {HA : SSVNetworkABI}.

Definition to_batch (b : Z * list BlockLogs) : batchResult := batch b.1 b.2.

Lemma run_send_batches bs sent :
  run_callbacks send_batch bs sent = (Ok tt, sent ++ (to_batch <$> bs)).
Proof.
  revert sent. induction bs as [|[e l] bs IH]; intros sent; cbn [run_callbacks].
  { by rewrite app_nil_r. }
  unfold mbind, io_bind. cbn. rewrite IH. by rewrite <- app_assoc.
Qed.

Lemma set_last_synced_same d : set_last_synced (last_synced_block d) d = d.
Proof. by destruct d. Qed.

(** Whatever batches were fetched, and wherever processing stops, the database is
    the replay of the logs up to its cursor. *)
Lemma process_batches_replay chain times cur ranges stop errs w r w' :
  consecutive cur ranges stop → last_synced_block (db w) = cur - 1 →
  (∀ b, b ∈ errs → ∃ e, b = batch_err e) →
  process_batches ((to_batch <$> batches_of chain times ranges) ++ errs) w = (r, w') →
  ∃ stop' d1, cur <= stop' <= stop ∧
    replay times (logs_between chain cur (stop' - 1)) (db w) = Ok d1 ∧
    db w' = set_last_synced (stop' - 1) d1 ∧
    (r = Ok tt → errs = [] ∧ stop' = stop).
Proof.
  intros Hc. revert w. induction Hc as [x|b e l stop Hbe Hc IH]; intros w Hw Herr H.
  - exists x, (db w). split; [lia|].
    rewrite logs_between_empty by lia. split; [done|]. rewrite <- Hw, set_last_synced_same.
    destruct errs as [|er errs]; cbn in H; [by injection H as <- <-|].
    destruct (Herr er) as [x1 ->]; [left|]. injection H as <- <-. by split.
  - pose proof (consecutive_le _ _ _ Hc) as Hle. cbn [batches_of fmap list_fmap app] in H.
    unfold to_batch at 1 in H. cbn [process_batches fst snd] in H.
    unfold mbind, io_bind in H.
    destruct (processBatch e (blocks_of times (logs_between chain b e)) w) as [r1 w1] eqn:Ep.
    apply processBatch_replay in Ep as [(k & d1 & -> & Hr1 & Hd1)|[Hn Hd]].
    + destruct (IH w1) as (stop' & d2 & Hs & Hr2 & Hd2 & Hok);
        [rewrite Hd1; cbn; lia|done|done|].
      exists stop', (set_last_synced (last_synced_block d1) d2). split; [lia|]. split.
      { rewrite <- (logs_between_split chain b e (stop' - 1)) by lia. rewrite replay_app, Hr1.
        cbn. rewrite Hd1 in Hr2. apply (replay_cursor times _ (last_synced_block d1)) in Hr2.
        replace (set_last_synced (last_synced_block d1) (set_last_synced e d1)) with d1 in Hr2
          by (by destruct d1). done. }
      split; [by rewrite Hd2|done].
    + exists b, (db w). split; [lia|].
      rewrite logs_between_empty by lia. split; [done|]. rewrite <- Hw, set_last_synced_same.
      destruct r1 as [k| |]; [by destruct (Hn k)|..]; injection H as <- <-; by split.
Qed.

Section node.
Context {E : Type} `{!Runtime E, !ExecutionRPC E} (retryConfig : RetryConfig).
Context (ssvContract : bytes) (topics : list bytes) (chain : list Log) (times : Z → Z).
Context `{Hnode : !FaithfulNode E ssvContract topics chain times}.
Hypothesis Htopics : EventTopics = Ok topics.

(** The fetcher sends consecutive batches of the chain, then possibly its error. *)
Lemma runFetcher_spec fuel from to (s : Exec E World) r s' :
  batch_wf (batchSize s) → 0 <= from <= to + 1 → to + bmax (batchSize s) < 2 ^ 64 →
  runFetcher retryConfig ssvContract fuel from to s = Some (r, s') →
  data s' = data s ∧ (r = Panic ∨ ∃ ranges stop errs,
    r = Ok ((to_batch <$> batches_of chain times ranges) ++ errs) ∧
    consecutive from ranges stop ∧ stop <= to + 1 ∧ (errs = [] → stop = to + 1) ∧
    ∀ b, b ∈ errs → ∃ e, b = batch_err e).
Proof.
  intros Hwf Hf Ho H. unfold runFetcher in H. rewrite Htopics in H. unfold FetchLogs in H.
  destruct (FetchLogs_loop retryConfig ssvContract to topics send_batch fuel from
    (mkExec (batchSize s) (env s) [])) as [[r1 s1]|] eqn:El; [|done].
  apply (FetchLogs_loop_spec retryConfig ssvContract topics chain times to send_batch fuel from
    (mkExec (batchSize s) (env s) []) r1 s1 Hwf Hf Ho) in El
    as (_ & ranges & stop & r0 & Hc & Hs & Hr & Hok & _).
  cbn [data] in Hr. rewrite run_send_batches in Hr. injection Hr as _ Hd.
  injection H as <- <-. split; [done|].
  destruct r1 as [[]|x|]; [right|right|by left]; rewrite <- Hd.
  - exists ranges, stop, []. rewrite app_nil_r. repeat split; [done..|by auto|].
    by intros b []%elem_of_nil.
  - exists ranges, stop, [batch_err x]. repeat split; [done..|].
    intros b ->%list_elem_of_singleton. eauto.
Qed.

Lemma syncBlocks_spec fuel c target (s : Exec E World) r s' :
  batch_wf (batchSize s) → 0 <= c → c = last_synced_block (db (data s)) → c < target →
  target + bmax (batchSize s) < 2 ^ 64 →
  syncBlocks retryConfig ssvContract fuel c target s = Some (r, s') →
  ∃ stop d1, c <= stop <= target ∧
    replay times (logs_between chain (c + 1) stop) (db (data s)) = Ok d1 ∧
    db (data s') = set_last_synced stop d1 ∧ (r = Ok tt → stop = target).
Proof.
  intros Hwf Hc0 Hc Hlt Ho H. unfold syncBlocks in H.
  rewrite wrapU_small in H by (unfold batch_wf in Hwf; lia).
  destruct (runFetcher _ _ _ _ _ _) as [[r1 s1]|] eqn:Ef; [|done].
  apply runFetcher_spec in Ef as (Hd1 & Hr1); [|done|lia|done].
  destruct Hr1 as [->|(ranges & stop & errs & -> & Hcs & Hs & Hse & Herr)].
  { injection H as <- <-. exists c, (db (data s)). split; [lia|].
    rewrite logs_between_empty by lia. split; [done|]. rewrite Hd1. split; [|done].
    symmetry. subst c. apply set_last_synced_same. }
  injection H as H. unfold mbind, io_bind, on_data, zoom in H. rewrite Hd1 in H.
  destruct (process_batches _ (data s)) as [r2 w2] eqn:Ep. cbn in H.
  apply (process_batches_replay chain times (c + 1) ranges stop errs) in Ep
    as (stop' & d1 & Hs' & Hr & Hdb & Hok); [|done|lia|done].
  exists (stop' - 1), d1. split; [lia|]. split; [done|].
  assert (data s' = w2 ∧ (r = Ok tt → r2 = Ok tt)) as [-> Hrr].
  { destruct r2 as [[]| |]; unfold check_ctx in H; cbn in H; [|by injection H as <- <-..].
    destruct (ctx_Err (env s1)); by injection H as <- <-. }
  split; [done|]. intros Hr'. destruct (Hok (Hrr Hr')) as [He ->]. rewrite (Hse He). lia.
Qed.

Lemma SyncToBlock_spec fuel target (s : Exec E World) r s' :
  batch_wf (batchSize s) → 0 <= last_synced_block (db (data s)) →
  target + bmax (batchSize s) < 2 ^ 64 →
  SyncToBlock retryConfig ssvContract fuel target s = Some (r, s') →
  let c := last_synced_block (db (data s)) in
  ∃ stop d1, c <= stop <= Z.max c target ∧
    replay times (logs_between chain (c + 1) stop) (db (data s)) = Ok d1 ∧
    db (data s') = set_last_synced stop d1 ∧ (r = Ok tt → stop = Z.max c target).
Proof.
  intros Hwf Hc0 Ho H c. unfold SyncToBlock, on_data, zoom, wrapM, GetLastSyncedBlock, wrapM in H.
  destruct (query last_synced_block (data s)) as [r0 w0] eqn:Eq.
  apply query_inv in Eq as [Hd Hr0]. cbn [fst snd] in H.
  assert (∀ s1 : Exec E World, db (data s1) = db (data s) → c <= c ∧
    replay times (logs_between chain (c + 1) c) (db (data s)) = Ok (db (data s)) ∧
    db (data s1) = set_last_synced c (db (data s))) as Hstay.
  { intros s1 ->. split; [lia|].
    assert (set_last_synced c (db (data s)) = db (data s)) as -> by apply set_last_synced_same.
    by rewrite logs_between_empty by lia. }
  destruct r0 as [c0|x|].
  2-3: injection H as <- <-; exists c, (db (data s)); split; [lia|];
    destruct (Hstay (mkExec (batchSize s) (env s) w0) Hd) as (_ & ? & ?); by split.
  destruct Hr0 as [[= ->]|Hn]; [|by destruct (Hn c0)]. cbn [wrap] in H. fold c in H.
  destruct (Z.leb_spec target c).
  { injection H as <- <-. exists c, (db (data s)). split; [lia|].
    destruct (Hstay (mkExec (batchSize s) (env s) w0) Hd) as (_ & ? & ?).
    split; [done|]. split; [done|]. intros _. lia. }
  apply in_sync_mode_inv in H as (s1 & s2 & H & [Hb1 He1 Hd1] & [_ _ Hd2]).
  cbn [batchSize data] in Hb1, Hd1. rewrite Hd in Hd1.
  apply syncBlocks_spec in H as (stop & d1 & Hs & Hr & Hdb & Hok);
    [|by rewrite Hb1|done|by rewrite Hd1|lia|by rewrite Hb1].
  rewrite Hd1 in Hr. exists stop, d1. split; [lia|]. split; [done|].
  split; [congruence|]. intros Ht. rewrite (Hok Ht). lia.
Qed.
End node.
End sync_lemmas.

(** ** Lemmas: the overlay *)

Section overlay_lemmas.
Context {HC : Crypto} {HA : SSVNetworkABI} {HL : SSVNetworkABILaws}.

(** The overlay holds the rows of [d] for the requested clusters, and no others. *)
Definition overlay_of (requested : gset bytes) (d : DB) (o : gmap bytes ClusterRow) : Prop :=
  ∀ id, o !! id = if decide (id ∈ requested) then stored_row d id else None.

Lemma stored_row_put_event ev d id : stored_row (put_event ev d) id = stored_row d id.
Proof.
  unfold stored_row. replace (clusters (put_event ev d)) with (clusters d); [done|].
  unfold put_event. cbv zeta. by destruct (contract_events d !! _).
Qed.

Lemma stored_row_event e d id :
  Forall (is_uint 64) (clusterKey e).2 →
  stored_row (event_effect e d) id =
  let cid := computeClusterID (clusterKey e).1 (clusterKey e).2 in
  if decide (id = cid)
  then Some (event_row cid (clusterKey e).1 (clusterKey e).2 (event_cluster e))
  else stored_row d id.
Proof.
  intros Hids. unfold event_effect. destruct (clusterKey e) as [o ids]. cbn [fst snd] in *.
  pose proof (stored_row_upsert d (event_row (computeClusterID o ids) o ids (event_cluster e)) id
    Hids) as E. unfold stored_row in *. cbn in *. exact E.
Qed.

Lemma overlay_step times log requested d o b w' :
  overlay_of requested d o →
  processLog log (block_of times log) (mkWorld d []) = (Ok b, w') →
  ∃ o', overlay_of requested (db w') o' ∧
    ∀ logs, overlay_logs requested (log :: logs) o = overlay_logs requested logs o'.
Proof.
  intros Ho Hp. pose proof (processLog_run log (block_of times log) d) as Hr. unfold processLog_spec in Hr.
  cbn [overlay_logs]. destruct (parseLog log) as [[name e]|err|] eqn:Ee.
  - destruct (pubkey_ok e); rewrite Hp in Hr; [|done]. injection Hr as _ ->.
    destruct (parseLog_ok _ _ _ Ee) as [_ [_ Hids]].
    eexists. split; [|done]. intros id. cbn [db]. rewrite stored_row_event by done. cbv zeta.
    rewrite stored_row_put_event. unfold applyClusterEventToOverlay.
    destruct (clusterKey e) as [ow ids]. cbn [fst snd db].
    destruct (decide (id = computeClusterID ow ids)) as [->|Hne].
    + case_bool_decide; [by rewrite lookup_insert_eq, decide_True|].
      rewrite Ho. by rewrite !decide_False.
    + case_bool_decide; [rewrite lookup_insert_ne by done|]; by rewrite Ho.
  - destruct (errors_Is err errUnknownEvent); rewrite Hp in Hr; [|done]. injection Hr as _ ->.
    exists o. split; [|done]. intros id. cbn. by rewrite stored_row_put_event.
  - by rewrite Hp in Hr.
Qed.

Lemma overlay_logs_replay times logs requested d o d' :
  overlay_of requested d o → replay times logs d = Ok d' →
  ∃ o', overlay_logs requested logs o = (Ok tt, o') ∧ overlay_of requested d' o'.
Proof.
  revert d o. induction logs as [|x logs IH]; intros d o Ho Hr; cbn [replay] in Hr.
  { injection Hr as <-. by exists o. }
  destruct (processLog x (block_of times x) (mkWorld d [])) as [[b|e|] w'] eqn:Ep; [|done..].
  destruct (overlay_step times x requested d o b w' Ho Ep) as (o1 & Ho1 & ->).
  by apply (IH (db w')).
Qed.

Lemma overlay_logs_app requested l1 l2 o :
  overlay_logs requested (l1 ++ l2) o =
  match overlay_logs requested l1 o with
  | (Ok _, o') => overlay_logs requested l2 o'
  | (Err e, o') => (Err e, o')
  | (Panic, o') => (Panic, o')
  end.
Proof.
  revert o. induction l1 as [|x l1 IH]; intros o; [done|]. cbn [overlay_logs app].
  destruct (parseLog x) as [[name e]|err|]; [apply IH| |done].
  destruct (errors_Is _ _); [apply IH|done].
Qed.

Lemma overlay_batches requested bs o :
  run_callbacks (overlay_batch requested) bs o = overlay_logs requested (batch_logs bs) o.
Proof.
  revert o. induction bs as [|[e l] bs IH]; intros o; [done|].
  unfold batch_logs. cbn [fmap list_fmap mjoin list_join snd]. rewrite overlay_logs_app.
  cbn [run_callbacks]. unfold mbind, io_bind, overlay_batch.
  destruct (overlay_logs requested (mjoin (Logs <$> l)) o) as [[[]|x|] o1]; [apply IH|done..].
Qed.

(** Rows inserted under their own keys. *)
Lemma foldl_rows (rs : list ClusterRow) (o : gmap bytes ClusterRow) (id : bytes) :
  (∀ r, r ∈ rs → key_of (ClusterID r) = ClusterID r) →
  let o' := foldl (λ o row, <[key_of (ClusterID row) := row]> o) o rs in
  (∀ r, o' !! id = Some r → r ∈ rs ∧ ClusterID r = id ∨ o !! id = Some r) ∧
  ((∃ r, r ∈ rs ∧ ClusterID r = id) ∨ is_Some (o !! id) → is_Some (o' !! id)).
Proof.
  revert o. induction rs as [|r rs IH]; intros o Hkey; cbn.
  { split; [by right|]. intros [(r & []%elem_of_nil & _)|]; done. }
  destruct (IH (<[key_of (ClusterID r):=r]> o)) as [H1 H2]; [by auto using list_elem_of_further|].
  assert (key_of (ClusterID r) = ClusterID r) as Er by (apply Hkey; left). split.
  - intros r' [[Hr <-]|[[E <-]|[_ H]]%lookup_insert_Some]%H1; [|left|by right].
    + left. split; [by right|done].
    + split; [left|congruence].
  - intros Hex. apply H2. rewrite lookup_insert_is_Some, Er.
    destruct (decide (ClusterID r = id)) as [->|Hne]; [right; by left|].
    destruct Hex as [(r' & [->|Hr']%elem_of_cons & E)|Hs]; [done|left; eauto|by right; right].
Qed.

(** The seed: the rows read from the store. *)
Lemma overlay_seed rows ids d :
  Forall (λ id, length id = 32%nat) ids →
  (∀ r, r ∈ rows ↔ ClusterID r ∈ ids ∧ stored_row d (ClusterID r) = Some r) →
  overlay_of (list_to_set (key_of <$> ids)) d
    (foldl (λ o row, <[key_of (ClusterID row) := row]> o) ∅ rows).
Proof.
  intros Hids Hrows id. rewrite Forall_forall in Hids.
  assert (id ∈ (list_to_set (key_of <$> ids) : gset bytes) ↔ id ∈ ids) as Hin.
  { rewrite elem_of_list_to_set, list_elem_of_fmap. split.
    - intros (i & -> & Hi). unfold key_of. rewrite to_array_id; auto.
    - intros Hi. exists id. unfold key_of. rewrite to_array_id; auto. }
  assert (∀ r, r ∈ rows → key_of (ClusterID r) = ClusterID r) as Hkey.
  { intros r Hr. apply Hrows in Hr as [Hr _]. apply to_array_id. auto. }
  destruct (foldl_rows rows ∅ id Hkey) as [H1 H2].
  set (o' := foldl _ _ _) in *. destruct (o' !! id) as [r|] eqn:Eo.
  - destruct (H1 r eq_refl) as [[Hr <-]|Hr]; [|by rewrite lookup_empty in Hr].
    apply Hrows in Hr as [Hi Hs]. rewrite decide_True; [done|by apply Hin].
  - case_decide as Hi; [|done]. apply Hin in Hi.
    destruct (stored_row d id) as [r|] eqn:Es; [|done].
    assert (ClusterID r = id) as Er.
    { unfold stored_row in Es. destruct (clusters d !! id); [|done].
      destruct (scanClusterRow id _) eqn:E; [|done..]. injection Es as ->.
      by destruct (scan_row_ok _ _ _ E). }
    destruct H2 as [x Hx]; [|done]. left. exists r. split; [|done]. apply Hrows. by rewrite Er.
Qed.
End overlay_lemmas.

(** ** Lemmas: the snapshot *)

Lemma clusterRows_loop_stable fuel ids : stable (clusterRows_loop fuel ids).
Proof.
  revert ids. induction fuel as [|f IH]; intros [|id ids]; cbn [clusterRows_loop];
    auto with oracle.
  apply stable_bind; [|intros b; apply stable_bind; [apply IH|auto with oracle]].
  unfold queryClusterRowsBatch. apply stable_bind; [apply stable_wrapM, stable_stmt|].
  intros rows. apply stable_lift.
Qed.

Lemma GetFinalizedClusters_stable ids : stable (GetFinalizedClusters ids).
Proof.
  unfold GetFinalizedClusters, getClusterRowsByIDs. apply stable_bind.
  { apply stable_wrapM, stable_next_fault. }
  intros _. apply stable_bind; [apply clusterRows_loop_stable|]. intros rows.
  apply stable_bind; [apply stable_wrapM, stable_stmt|]. intros c. apply stable_ret.
Qed.

(** A successful read of the finalized rows, whatever the fault script held. *)
Lemma GetFinalizedClusters_Ok ids w rows c w' :
  db_ok (db w) → GetFinalizedClusters ids w = (Ok (rows, c), w') →
  db w' = db w ∧ c = last_synced_block (db w) ∧
  ∀ r, r ∈ rows ↔ ClusterID r ∈ ids ∧ stored_row (db w) (ClusterID r) = Some r.
Proof.
  intros Hok H. apply GetFinalizedClusters_stable in H.
  destruct (GetFinalizedClusters_ok (db w) ids Hok) as (rows' & H' & Hm).
  rewrite H' in H. by injection H as <- <- <-.
Qed.

Section snapshot.
Context {HC : Crypto} {HA : SSVNetworkABI} {HL : SSVNetworkABILaws}.
Context {E : Type} `{!Runtime E, !ExecutionRPC E} (retryConfig : RetryConfig).
Context (ssvContract : bytes) (topics : list bytes) (chain : list Log) (times : Z → Z).
Context `{Hnode : !FaithfulNode E ssvContract topics chain times}.
Hypothesis Htopics : EventTopics = Ok topics.

Lemma zoom_inv {S T A} (get : T → S) put (m : io S A) t r t' :
  zoom get put m t = (r, t') → ∃ s', m (get t) = (r, s') ∧ t' = put s' t.
Proof. unfold zoom. destruct (m (get t)) as [r0 s']. intros [= <- <-]. eauto. Qed.

(** What the snapshot is computed from. *)
Lemma snapshot_start_Ok ids (s : Exec E World) rows c head s' :
  db_ok (db (data s)) → snapshot_start retryConfig ids s = (Ok (rows, c, head), s') →
  db (data s') = db (data s) ∧ batchSize s' = batchSize s ∧ c = last_synced_block (db (data s)) ∧
  (∀ r, r ∈ rows ↔ ClusterID r ∈ ids ∧ stored_row (db (data s)) (ClusterID r) = Some r) ∧
  ∃ n e1 e2, HeaderByNumber None e1 = (Ok n, e2) ∧ head = wrapU 64 n.
Proof.
  intros Hdb H. unfold snapshot_start in H. inv_io. destruct r as [fin c1].
  unfold on_data, on_env in E0, E1. apply zoom_inv in E0 as (w1 & E0 & ->).
  apply zoom_inv in E1 as (e1 & E1 & ->). inv_io.
  apply GetFinalizedClusters_Ok in E0 as (Hd & -> & Hrows); [|done].
  cbn [data batchSize fst snd]. split; [done|]. split; [done|]. split; [done|]. split; [done|].
  unfold GetHeadBlock in E1. inv_io. apply WithRetry_Ok in E0 as [e0 E0].
  by exists r, e0, e1.
Qed.

Lemma snapshot_spec fuel ids (s : Exec E World) o s' :
  batch_wf (batchSize s) → db_ok (db (data s)) → 0 <= last_synced_block (db (data s)) →
  Forall (λ id, length id = 32%nat) ids →
  (∀ e n e', HeaderByNumber None e = (Ok n, e') → 0 <= n ∧ n + bmax (batchSize s) < 2 ^ 64) →
  BuildHeadStateSnapshot retryConfig ssvContract fuel ids s = Some (Ok o, s') →
  db (data s') = db (data s) ∧ ∃ head e1 e2,
    HeaderByNumber None e1 = (Ok head, e2) ∧
    ∀ d', replay times (logs_between chain (last_synced_block (db (data s)) + 1) head)
            (db (data s)) = Ok d' →
      overlay_of (list_to_set (key_of <$> ids)) d' o.
Proof.
  intros Hwf Hdb Hc Hids Hhead H. unfold BuildHeadStateSnapshot in H.
  destruct (snapshot_start retryConfig ids s) as [[[[fin c] head]| |] s1] eqn:Es; [|done..].
  apply snapshot_start_Ok in Es as (Hd & Hb & -> & Hrows & n & e1 & e2 & Hn & ->); [|done].
  destruct (Hhead _ _ _ Hn) as [Hn0 Hn1]. assert (n < 2 ^ 64) by (unfold batch_wf in Hwf; lia).
  rewrite (wrapU_small 64 n) in H by lia.
  pose proof (overlay_seed fin ids (db (data s)) Hids Hrows) as Hseed.
  set (o0 := foldl _ ∅ fin) in *. set (c := last_synced_block (db (data s))) in *.
  destruct (Z.leb_spec n c).
  - injection H as <- <-. split; [done|]. exists n, e1, e2. split; [done|]. intros d'.
    rewrite logs_between_empty by lia. by intros [= <-].
  - rewrite Htopics, wrapU_small in H by lia. unfold FetchLogs in H.
    destruct (FetchLogs_loop _ _ _ _ _ _ _ _) as [[r1 s2]|] eqn:El; [|done].
    apply (FetchLogs_loop_spec retryConfig ssvContract topics chain times) in El
      as (_ & ranges & stop & r0 & Hcs & Hs & Hr & Hok & _); cbn [batchSize] in *;
      rewrite ?Hb; [|done|lia|lia].
    injection H as H <-. cbn [data]. split; [done|]. exists n, e1, e2. split; [done|].
    intros d' Hrep. inv_ok. destruct r. rewrite (Hok eq_refl) in Hcs.
    rewrite overlay_batches, (batch_logs_consecutive _ _ _ _ _ Hcs) in Hr.
    replace (n + 1 - 1) with n in Hr by lia. cbn [data] in Hr.
    destruct (overlay_logs_replay times _ _ _ o0 d' Hseed Hrep) as (o' & Ho' & Hov).
    rewrite Ho' in Hr. by injection Hr as _ <-.
Qed.
End snapshot.

(** ** Lemmas: what the snapshot does to the node and the database *)

Lemma snapshot_start_env {E} `{!Runtime E, !ExecutionRPC E} (R : relation E) cfg ids :
  node_moves R → moves_io (@env_rel E World R) (snapshot_start cfg ids).
Proof.
  intros HR. pose proof (nm_preorder R HR). unfold snapshot_start, GetHeadBlock.
  movesf_step; auto with oracle. apply on_env_env. movesf_step.
  apply retry_moves; [apply _|apply (nm_sleep R HR)|apply (nm_rand R HR)|].
  apply (nm_header R HR).
Qed.

Lemma BuildHeadStateSnapshot_env {HC : Crypto} {HA : SSVNetworkABI} {E}
    `{!Runtime E, !ExecutionRPC E} (R : relation E) cfg addr fuel ids :
  node_moves R → movesf (@env_rel E World R) (BuildHeadStateSnapshot cfg addr fuel ids).
Proof.
  intros HR s r s' H. pose proof (nm_preorder R HR). unfold BuildHeadStateSnapshot in H.
  pose proof (snapshot_start_env R cfg ids HR s) as H1.
  destruct (snapshot_start cfg ids s) as [[[[fin last] head]|e|] s1];
    [|by injection H as _ <-..].
  case_match; [by injection H as _ <-|]. destruct EventTopics; [|by injection H as _ <-..].
  destruct (FetchLogs _ _ _ _ _ _ _ _) as [[rf sf]|] eqn:Ef; [|done]. injection H as _ <-.
  apply (FetchLogs_moves R HR) in Ef. etrans; [exact H1|exact Ef].
Qed.

Lemma GetFinalizedClusters_reads ids : moves eq (GetFinalizedClusters ids).
Proof.
  unfold GetFinalizedClusters, getClusterRowsByIDs. moves_step; auto with oracle.
  generalize (length ids) as fuel. intros fuel. revert ids.
  induction fuel as [|f IH]; intros [|id ids]; cbn [clusterRows_loop]; moves_step.
  - unfold queryClusterRowsBatch. moves_step.
  - apply IH.
Qed.

(** The snapshot only reads the database. *)
Lemma BuildHeadStateSnapshot_db {HC : Crypto} {HA : SSVNetworkABI} {E}
    `{!Runtime E, !ExecutionRPC E} cfg addr fuel ids (s : Exec E World) r s' :
  BuildHeadStateSnapshot cfg addr fuel ids s = Some (r, s') → db (data s') = db (data s).
Proof.
  intros H. unfold BuildHeadStateSnapshot in H.
  assert (db (data (snapshot_start cfg ids s).2) = db (data s)) as H1.
  { unfold snapshot_start, mbind, io_bind, on_data, on_env, zoom, wrapM.
    pose proof (GetFinalizedClusters_reads ids (data s)) as Hd.
    destruct (GetFinalizedClusters ids (data s)) as [[p|e|] w]; cbn in *; [|done..].
    by destruct (GetHeadBlock _ _) as [[h|e|] e1]. }
  destruct (snapshot_start cfg ids s) as [[[[fin last] head]|e|] s1]; cbn in H1;
    [|by injection H as _ <-..].
  case_match; [by injection H as _ <-|]. destruct EventTopics; [|by injection H as _ <-..].
  destruct (FetchLogs _ _ _ _ _ _ _ _) as [[rf sf]|]; [|done]. by injection H as _ <-.
Qed.

(** ** Properties *)

(** C8: however the node batches, fails or is cancelled, and whichever statements
    fail, when [SyncToBlock] returns the database is exactly the one-by-one replay
    of the chain's logs up to its cursor: no event is lost, repeated or half
    applied.  The cursor never moves back nor past the target, and success means
    it reached it. *)
Theorem SyncToBlock_replays `{!Crypto, !SSVNetworkABI} {E} `{!Runtime E, !ExecutionRPC E}
    retryConfig ssvContract topics chain times `{!FaithfulNode E ssvContract topics chain times}
    fuel target (s : Exec E World) r s' :
  EventTopics = Ok topics → batch_wf (batchSize s) → 0 <= last_synced_block (db (data s)) →
  target + bmax (batchSize s) < 2 ^ 64 →
  SyncToBlock retryConfig ssvContract fuel target s = Some (r, s') →
  let c := last_synced_block (db (data s)) in
  ∃ stop d1, c <= stop <= Z.max c target ∧
    replay times (logs_between chain (c + 1) stop) (db (data s)) = Ok d1 ∧
    db (data s') = set_last_synced stop d1 ∧ (r = Ok tt → stop = Z.max c target).
Proof. intros Ht. by apply (SyncToBlock_spec _ _ topics). Qed.

(** C14: [BuildHeadStateSnapshot] changes nothing in the store and returns, for
    each requested cluster, exactly the row the store would hold after
    synchronising up to the node's head, and no other cluster. *)
Theorem snapshot_is_sync `{!Crypto, !SSVNetworkABI, !SSVNetworkABILaws}
    {E} `{!Runtime E, !ExecutionRPC E}
    retryConfig ssvContract topics chain times `{!FaithfulNode E ssvContract topics chain times}
    fuel ids (s : Exec E World) o s' :
  EventTopics = Ok topics → batch_wf (batchSize s) → db_ok (db (data s)) →
  0 <= last_synced_block (db (data s)) → Forall (λ id, length id = 32%nat) ids →
  (∀ e n e', HeaderByNumber None e = (Ok n, e') → 0 <= n ∧ n + bmax (batchSize s) < 2 ^ 64) →
  BuildHeadStateSnapshot retryConfig ssvContract fuel ids s = Some (Ok o, s') →
  db (data s') = db (data s) ∧ ∃ head e1 e2,
    HeaderByNumber None e1 = (Ok head, e2) ∧
    ∀ d', replay times (logs_between chain (last_synced_block (db (data s)) + 1) head)
            (db (data s)) = Ok d' →
      ∀ id, o !! id = if decide (id ∈ (list_to_set (key_of <$> ids) : gset bytes))
                      then stored_row d' id else None.
Proof. intros Ht. by apply (snapshot_spec _ _ topics). Qed.

(** [processLog] on every branch: a handled event is recorded with its cluster
    identifier, its cluster's row is replaced by the one it carries and its
    validator added or removed; an unknown signature is only recorded; a handled
    event that does not parse, or a validator key of a wrong length, is an error. *)
Theorem processLog_effect `{!Crypto, !SSVNetworkABI, !SSVNetworkABILaws} log bl d :
  processLog_spec log bl d.
Proof. apply processLog_run. Qed.

(** ** Witnesses *)

(** A chain with a validator added, a deposit and an unknown event; a node whose
    environment counts the failures left. *)
Definition owner7 : bytes := be_bytes 32 7.

Definition sync_log (b i : Z) (topics : list bytes) (d : bytes) : Log :=
  mkLog topics d b (be_bytes 32 b) i (be_bytes 32 (b + 1)) i.

Definition sync_chain : list Log :=
  [sync_log 11 0 [eventSig eventValidatorAdded; owner7] [x01; x00; x00; x01; x05; x02; x01];
   sync_log 13 2 [eventSig eventClusterDeposited; owner7] [x01; x00; x00; x01; x09; x01; x02]].

Definition sync_times (b : Z) : Z := wrapS 64 (1000 + 12 * b).

#[local] Instance sync_runtime : Runtime nat :=
  { Int63n n e := (0, e); sleep d e := (Ok tt, e); ctx_Err _ := None }.

#[local] Instance sync_node : ExecutionRPC nat :=
  { HeaderByNumber _ n := (Ok 14, n);
    FilterLogs _ b e _ n := match n with
      | S n' => (Err (EText "query returned more than 10000 results"), n')
      | O => (Ok (rev (filter (in_range b e) sync_chain)), O)
      end;
    BatchCallContext chunk n := (Ok (λ i, match chunk !! i with
      | Some b => Ok (1000 + 12 * b) | None => Err (EText "no element") end), n);
    ChainID n := (Ok 1, n) }.

#[local] Opaque sync_chain.

#[local] Instance sync_node_faithful topics :
  FaithfulNode nat [] topics sync_chain sync_times.
Proof.
  split.
  - apply (bool_decide_unpack _). vm_compute. exact I.
  - intros b e [|n] logs en' H; [|discriminate H]. cbn in H. injection H as <- <-.
    symmetry. apply Permutation_rev.
  - intros chunk en answer en' i b t. cbn. intros [= <- <-] ->. by intros [= <-].
Qed.

(** The store at block 10, the node failing once, one statement failing later. *)
Definition sync_state (faults : list (option error)) : Exec nat World :=
  mkExec (NewAdaptiveBatchSize 1 2) 1%nat (mkWorld (set_last_synced 10 schema) faults).

Definition sync_topics : list bytes := eventSig <$> handledEvents.

(** The eighth statement fails, inside the second batch. *)
Definition sync_faults : list (option error) := replicate 8 None ++ [Some (EText "disk I/O error")].

Definition sync_result : result unit * Exec nat World :=
  default (Panic, sync_state []) (SyncToBlock DefaultRetryConfig [] 20 14 (sync_state sync_faults)).

Lemma sync_result_eq :
  SyncToBlock DefaultRetryConfig [] 20 14 (sync_state sync_faults) =
    Some (sync_result.1, sync_result.2).
Proof.
  assert (match SyncToBlock DefaultRetryConfig [] 20 14 (sync_state sync_faults) with
          | Some _ => true | None => false end = true) as H by (vm_compute; reflexivity).
  revert H. unfold sync_result.
  generalize (SyncToBlock DefaultRetryConfig [] 20 14 (sync_state sync_faults)).
  by intros [[r s]|].
Qed.

Lemma sync_result_cursor : last_synced_block (db (data sync_result.2)) = 12.
Proof. vm_compute. reflexivity. Qed.

Lemma SyncToBlock_replays_witness :
  last_synced_block (db (data sync_result.2)) = 12 ∧
  ∃ stop d1, 10 <= stop <= Z.max 10 14 ∧
    replay sync_times (logs_between sync_chain (10 + 1) stop) (set_last_synced 10 schema) = Ok d1 ∧
    db (data sync_result.2) = set_last_synced stop d1 ∧
    (sync_result.1 = Ok tt → stop = Z.max 10 14).
Proof.
  split; [apply sync_result_cursor|].
  apply (SyncToBlock_replays DefaultRetryConfig [] sync_topics sync_chain sync_times 20 14
    (sync_state sync_faults) sync_result.1 sync_result.2).
  - reflexivity.
  - unfold batch_wf. cbn. lia.
  - cbn. lia.
  - cbn. lia.
  - apply sync_result_eq.
Defined.

Lemma processLog_effect_witness :
  (∃ e, parseLog (sync_log 13 2 [eventSig eventClusterDeposited; owner7]
                    [x01; x00; x00; x01; x09; x01; x02]) = Ok (eventClusterDeposited, e)) ∧
  processLog_spec (sync_log 13 2 [eventSig eventClusterDeposited; owner7]
                    [x01; x00; x00; x01; x09; x01; x02]) (mkBlockLogs 13 1156 []) schema.
Proof.
  split; [eexists; vm_compute; reflexivity|].
  apply (processLog_effect (sync_log 13 2 [eventSig eventClusterDeposited; owner7]
                    [x01; x00; x00; x01; x09; x01; x02]) (mkBlockLogs 13 1156 []) schema).
Defined.

(** The cluster of the example chain, and one the store does not hold. *)
Definition sync_ids : list bytes :=
  [computeClusterID (BytesToAddress owner7) [1; 2]; be_bytes 32 1].

Definition snapshot_state : Exec nat World :=
  mkExec (NewAdaptiveBatchSize 1 2) 1%nat (mkWorld (set_last_synced 10 schema) []).

Definition snapshot_result : result (gmap bytes ClusterRow) * Exec nat World :=
  default (Panic, snapshot_state)
    (BuildHeadStateSnapshot DefaultRetryConfig [] 20 sync_ids snapshot_state).

Definition overlay_or_empty (r : result (gmap bytes ClusterRow)) : gmap bytes ClusterRow :=
  match r with Ok o => o | _ => ∅ end.

Definition snapshot_overlay : gmap bytes ClusterRow := overlay_or_empty snapshot_result.1.

Lemma snapshot_result_ok :
  match snapshot_result.1 with Ok _ => true | _ => false end = true.
Proof. vm_compute. reflexivity. Qed.

Lemma snapshot_result_eq :
  BuildHeadStateSnapshot DefaultRetryConfig [] 20 sync_ids snapshot_state =
    Some (Ok snapshot_overlay, snapshot_result.2).
Proof.
  pose proof snapshot_result_ok as H. revert H. unfold snapshot_overlay, snapshot_result.
  generalize (BuildHeadStateSnapshot DefaultRetryConfig [] 20 sync_ids snapshot_state).
  by intros [[[o| |] s]|].
Qed.

Lemma snapshot_db_ok : db_ok (set_last_synced 10 schema).
Proof. by apply (updateLastSyncedBlock_ok 10 (mkWorld schema []) schema_ok). Qed.

Lemma snapshot_is_sync_witness :
  size snapshot_overlay = 1%nat ∧
  db (data snapshot_result.2) = set_last_synced 10 schema ∧ ∃ head e1 e2,
    HeaderByNumber None e1 = (Ok head, e2) ∧
    ∀ d', replay sync_times (logs_between sync_chain (10 + 1) head) (set_last_synced 10 schema) =
        Ok d' →
      ∀ id, snapshot_overlay !! id =
        if decide (id ∈ (list_to_set (key_of <$> sync_ids) : gset bytes))
        then stored_row d' id else None.
Proof.
  split; [vm_compute; reflexivity|].
  apply (snapshot_is_sync DefaultRetryConfig [] sync_topics sync_chain sync_times 20 sync_ids
    snapshot_state snapshot_overlay snapshot_result.2).
  - reflexivity.
  - unfold batch_wf. cbn. lia.
  - apply snapshot_db_ok.
  - cbn. lia.
  - repeat constructor; vm_compute; reflexivity.
  - intros e n e' H. injection H as <- _. cbn. lia.
  - apply snapshot_result_eq.
Defined.
