(* ===== verification/Pipeline.v ===== *)
(** * The pipeline of SyncToBlock (src/eth/syncer/syncer.go)

    [Syncer.syncBlocks] fetches everything and then processes it.  The program runs the
    fetcher in a goroutine, which sends batches, and at the end an error, on a channel of
    capacity 2 that it closes, while [SyncToBlock] receives and processes them.  [fetcher_step]
    and [processor_step] are the two goroutines; the caller's context may end at any time. *)

From S2P Require Import Prelude Merkle Storage Retry Execution Events Syncer.

(** ** The program *)

(** Where [runFetcher] is: in [FetchLogs], with the batches the callback is still to get and
    what it then returns; in the [select] that sends the error; before its deferred [close];
    done. *)
Inductive fetcher :=
  | Fetching (todo : list (Z * list BlockLogs)) (res : option error)
  | Failing (err : error)
  | Closing
  | Closed.

Record pipe := mkPipe {
  p_fetcher : fetcher;
  channel : list batchResult;          (* batchCh *)
  cancelled : bool;                    (* the caller's context has ended *)
  outcome : option (result unit);      (* what [SyncToBlock] has returned *)
  pworld : World;
}.

Section pipeline.
Context {HC : Crypto} {HA : SSVNetworkABI}.

(** One message of the processing loop. *)
Definition receive (b : batchResult) : M unit := process_batches [b].

(** The end of the fetcher's context: the caller's, or the deferred [cancelFetch]. *)
Definition fetch_cancelled (p : pipe) : bool :=
  cancelled p || match outcome p with Some _ => true | None => false end.

(** The callback sends a batch; [FetchLogs] returns; once the context has ended [FetchLogs]
    may return an error instead, of the callback's [select] or of a call to the node.  The
    error is sent, or given up when the context has ended; the channel is closed. *)
Inductive fetcher_step : relation pipe :=
  | step_send b logs todo res ch c o w :
      (length ch < prefetchBuffer)%nat →
      fetcher_step (mkPipe (Fetching ((b, logs) :: todo) res) ch c o w)
        (mkPipe (Fetching todo res) (ch ++ [batch b logs]) c o w)
  | step_fetched ch c o w :
      fetcher_step (mkPipe (Fetching [] None) ch c o w) (mkPipe Closing ch c o w)
  | step_failed err ch c o w :
      fetcher_step (mkPipe (Fetching [] (Some err)) ch c o w) (mkPipe (Failing err) ch c o w)
  | step_interrupted err todo res ch c o w :
      fetch_cancelled (mkPipe (Fetching todo res) ch c o w) = true →
      fetcher_step (mkPipe (Fetching todo res) ch c o w) (mkPipe (Failing err) ch c o w)
  | step_send_err err ch c o w :
      (length ch < prefetchBuffer)%nat →
      fetcher_step (mkPipe (Failing err) ch c o w) (mkPipe Closing (ch ++ [batch_err err]) c o w)
  | step_drop_err err ch c o w :
      fetch_cancelled (mkPipe (Failing err) ch c o w) = true →
      fetcher_step (mkPipe (Failing err) ch c o w) (mkPipe Closing ch c o w)
  | step_close ch c o w :
      fetcher_step (mkPipe Closing ch c o w) (mkPipe Closed ch c o w).

(** [SyncToBlock] processes a message; returns its error; or finds the channel closed. *)
Inductive processor_step : relation pipe :=
  | step_receive f b ch c w w' :
      receive b w = (Ok tt, w') →
      processor_step (mkPipe f (b :: ch) c None w) (mkPipe f ch c None w')
  | step_receive_fail f b ch c w r w' :
      receive b w = (r, w') → r ≠ Ok tt →
      processor_step (mkPipe f (b :: ch) c None w) (mkPipe f ch c (Some r) w')
  | step_done c w :
      processor_step (mkPipe Closed [] c None w)
        (mkPipe Closed [] c (Some (if c then Err (ECtx "context canceled") else Ok tt)) w).

(** A step of the program itself. *)
Definition run_step : relation pipe := λ p p', fetcher_step p p' ∨ processor_step p p'.

Inductive pipe_step : relation pipe :=
  | step_run p p' : run_step p p' → pipe_step p p'
  | step_cancel f ch o w : pipe_step (mkPipe f ch false o w) (mkPipe f ch true o w).

Definition pipe_init (todo : list (Z * list BlockLogs)) (res : option error) (w : World) : pipe :=
  mkPipe (Fetching todo res) [] false None w.

(** ** Specification *)

(** What [runFetcher] sends when nothing stops it. *)
Definition messages (todo : list (Z * list BlockLogs)) (res : option error) : list batchResult :=
  ((λ b, batch b.1 b.2) <$> todo) ++ (batch_err <$> option_list res).

(** What the fetcher has still to send; an error it was interrupted with is not of the
    messages. *)
Inductive pending (stopped : bool) : fetcher → list batchResult → list batchResult → Prop :=
  | pending_fetching todo res : pending stopped (Fetching todo res) (messages todo res) []
  | pending_failing err : pending stopped (Failing err) [batch_err err] []
  | pending_interrupted err : stopped = true → pending stopped (Failing err) [] []
  | pending_closing : pending stopped Closing [] []
  | pending_closed : pending stopped Closed [] []
  | pending_closing_err err : stopped = true → pending stopped Closing [] [batch_err err]
  | pending_closed_err err : stopped = true → pending stopped Closed [] [batch_err err].

Record pipe_inv (all : list batchResult) (w0 : World) (p : pipe) : Prop := {
  pi_buffer : (length (channel p) <= prefetchBuffer)%nat;
  pi_split : ∃ pre sent extra todo dropped r,
    channel p = sent ++ extra ∧ all = pre ++ sent ++ todo ++ dropped ∧
    pending (fetch_cancelled p) (p_fetcher p) todo extra ∧
    (dropped ≠ [] → fetch_cancelled p = true) ∧
    process_batches pre w0 = (r, pworld p) ∧
    match outcome p with
    | None => r = Ok tt
    | Some (Ok _) => r = Ok tt ∧ pre = all
    | Some (Err e) => r = Err e ∨ r = Ok tt ∧ cancelled p = true
    | Some Panic => r = Panic
    end;
}.

(** The steps the program may still make. *)
Definition fetcher_left (f : fetcher) : nat :=
  match f with
  | Fetching todo _ => 2 * length todo + 4
  | Failing _ => 3
  | Closing => 1
  | Closed => 0
  end.

Definition steps_left (p : pipe) : nat :=
  fetcher_left (p_fetcher p) + length (channel p) + match outcome p with None => 1 | _ => 0 end.

(** ** Lemmas *)

Lemma process_batches_app pre rest w :
  process_batches (pre ++ rest) w =
  match process_batches pre w with
  | (Ok _, w') => process_batches rest w'
  | (Err e, w') => (Err e, w')
  | (Panic, w') => (Panic, w')
  end.
Proof.
  revert w. induction pre as [|[e l|x] pre IH]; intros w; [done| |done].
  cbn [process_batches app]. unfold mbind, io_bind.
  destruct (processBatch e l w) as [[k|x|] w1]; [apply IH|done..].
Qed.

Lemma pending_stopped stopped f todo extra :
  pending stopped f todo extra → pending true f todo extra.
Proof. destruct 1; by constructor. Qed.

#[local] Arguments messages _ _ : simpl never.

Lemma messages_cons b logs todo res :
  messages ((b, logs) :: todo) res = batch b logs :: messages todo res.
Proof. done. Qed.

Lemma pipe_init_inv todo res w : pipe_inv (messages todo res) w (pipe_init todo res w).
Proof.
  split; [cbn; lia|]. exists [], [], [], (messages todo res), [], (Ok tt). cbn.
  rewrite app_nil_r. split_and!; try done. constructor.
Qed.

Lemma fetcher_step_inv all w0 p p' : fetcher_step p p' → pipe_inv all w0 p → pipe_inv all w0 p'.
Proof.
  intros Hs [Hlen (pre & sent & extra & todo & dropped & r & Hch & Hall & Hp & Hd & Hw & Ho)].
  assert (cancelled p' = cancelled p ∧ outcome p' = outcome p ∧ pworld p' = pworld p) as (E1 & E2 & E3)
    by (by destruct Hs).
  assert (fetch_cancelled p' = fetch_cancelled p) as E4 by (unfold fetch_cancelled; by rewrite E1, E2).
  assert (length (channel p') <= prefetchBuffer)%nat as Hlen'
    by (destruct Hs; cbn in *; rewrite ?length_app; cbn; lia).
  split; [done|]. rewrite E1, E2, E3, E4. clear E1 E2 E3 E4 Hlen Hlen'. subst all.
  destruct Hs as [b logs t res ch c o w Hr|ch c o w|err ch c o w|err t res ch c o w Hc|
    err ch c o w Hr|err ch c o w Hc|ch c o w]; cbn [p_fetcher channel] in *.
  - inversion Hp; subst. rewrite app_nil_r.
    exists pre, (sent ++ [batch b logs]), [], (messages t res), dropped, r.
    rewrite messages_cons, app_nil_r, <- !app_assoc. split_and!; try done. constructor.
  - inversion Hp; subst. exists pre, sent, [], [], dropped, r. split_and!; try done. constructor.
  - inversion Hp; subst. exists pre, sent, [], [batch_err err], dropped, r.
    split_and!; try done. constructor.
  - inversion Hp; subst. exists pre, sent, [], [], (messages t res ++ dropped), r.
    split_and!; try done. by constructor.
  - inversion Hp; subst; rewrite app_nil_r.
    + exists pre, (sent ++ [batch_err err]), [], [], dropped, r. rewrite app_nil_r, <- !app_assoc.
      split_and!; try done. constructor.
    + exists pre, sent, [batch_err err], [], dropped, r. split_and!; try done. by constructor.
  - inversion Hp; subst.
    + exists pre, sent, [], [], ([batch_err err] ++ dropped), r. split_and!; try done. constructor.
    + exists pre, sent, [], [], dropped, r. split_and!; try done. constructor.
  - exists pre, sent, extra, todo, dropped, r. split_and!; try done.
    inversion Hp; subst; by constructor.
Qed.

Lemma processor_step_inv all w0 p p' : processor_step p p' → pipe_inv all w0 p → pipe_inv all w0 p'.
Proof.
  intros Hs [Hlen (pre & sent & extra & todo & dropped & r & Hch & Hall & Hp & Hd & Hw & Ho)].
  assert (fetch_cancelled p = cancelled p) as Ec
    by (unfold fetch_cancelled; destruct Hs; by rewrite orb_false_r).
  rewrite Ec in Hp, Hd. clear Ec.
  destruct Hs as [f b ch c w w' Hr|f b ch c w r' w' Hr Hn|c w];
    cbn [p_fetcher channel cancelled outcome pworld length] in *; subst r;
    (split; [cbn; lia|]); unfold fetch_cancelled; cbn [p_fetcher channel cancelled outcome pworld].
  - destruct sent as [|b' sent].
    { cbn in Hch. inversion Hp; subst; try done; by simplify_eq. }
    injection Hch as <- ->. exists (pre ++ [b]), sent, extra, todo, dropped, (Ok tt).
    rewrite process_batches_app, Hw, orb_false_r, <- app_assoc. by split_and!.
  - rewrite orb_true_r. destruct sent as [|b' sent].
    + cbn in Hch. exists pre, [], [], todo, dropped, (Ok tt).
      assert (∃ err, b = batch_err err ∧ ch = [] ∧ c = true) as (err & -> & -> & ->)
        by (inversion Hp; subst; simplify_eq; eauto).
      injection Hr as <- <-. split_and!; try done; [|by right]. inversion Hp; subst; by constructor.
    + injection Hch as <- ->. exists (pre ++ [b]), sent, extra, todo, dropped, r'.
      rewrite process_batches_app, Hw, <- app_assoc.
      split_and!; try done; [by eapply pending_stopped|].
      destruct r' as [[]|e|]; [done|by left|done].
  - symmetry in Hch. apply app_nil in Hch as [-> ->]. rewrite orb_true_r.
    exists pre, [], [], todo, dropped, (Ok tt). split_and!; try done; [by eapply pending_stopped|].
    destruct c; [by right|]. split; [done|]. inversion Hp; subst.
    destruct dropped; [by rewrite app_nil_r|]. by discriminate Hd.
Qed.

Lemma pipe_step_inv all w0 p p' : pipe_inv all w0 p → pipe_step p p' → pipe_inv all w0 p'.
Proof.
  intros Hi Hs. destruct Hs as [q q' [Hs|Hs]|f ch o w];
    [exact (fetcher_step_inv _ _ _ _ Hs Hi)|exact (processor_step_inv _ _ _ _ Hs Hi)|].
  destruct Hi as [Hlen (pre & sent & extra & todo & dropped & r & Hch & Hall & Hp & Hd & Hw & Ho)].
  split; [done|]. exists pre, sent, extra, todo, dropped, r. split_and!; try done.
  - by eapply pending_stopped.
  - cbn in *. destruct o as [[| |]|]; try done. destruct Ho as [|[? _]]; [by left|by right].
Qed.

Lemma pipe_steps_inv todo res w p :
  rtc pipe_step (pipe_init todo res w) p → pipe_inv (messages todo res) w p.
Proof.
  intros Hr. eapply (rtc_preserve (pipe_inv (messages todo res) w)); [|exact Hr|apply pipe_init_inv].
  intros p1 p2. apply pipe_step_inv.
Qed.

(** Until [SyncToBlock] has returned, the program itself can go on. *)
Lemma run_progress p : outcome p = None → ∃ p', run_step p p'.
Proof.
  destruct p as [f ch c o w]. cbn. intros ->. destruct ch as [|b ch].
  - destruct f as [[|[b logs] todo] [err|]|err| |]; eexists;
      first [left; apply step_failed|left; apply step_fetched|
        left; apply step_send; unfold prefetchBuffer; cbn; lia|
        left; apply step_send_err; unfold prefetchBuffer; cbn; lia|
        left; apply step_close|right; apply step_done].
  - destruct (receive b w) as [[[]|e|] w'] eqn:Er; eexists; right;
      [by apply step_receive|by eapply step_receive_fail..].
Qed.

(** After that the fetcher can end by itself, whether or not the channel has room. *)
Lemma fetcher_ends p :
  fetch_cancelled p = true → ∃ p', rtc fetcher_step p p' ∧ p_fetcher p' = Closed.
Proof.
  destruct p as [f ch c o w]. intros Hc.
  assert (∃ p', rtc fetcher_step (mkPipe Closing ch c o w) p' ∧ p_fetcher p' = Closed) as (p' & Hr & Hp).
  { eexists. split; [apply rtc_once, step_close|done]. }
  assert (∀ err, rtc fetcher_step (mkPipe (Failing err) ch c o w) p') as Hf.
  { intros err. by eapply rtc_l; [apply step_drop_err|]. }
  destruct f as [todo res|err| |]; [| | |by eexists]; exists p'; split; try done.
  by eapply rtc_l; [apply (step_interrupted (EText ""))|].
Qed.

Lemma run_step_left p p' : run_step p p' → (steps_left p' < steps_left p)%nat.
Proof.
  intros [[]|[]]; unfold steps_left; cbn; rewrite ?length_app; cbn; lia.
Qed.

Lemma pipe_steps_bounded p p' k : nsteps run_step k p p' → (k + steps_left p' <= steps_left p)%nat.
Proof. induction 1 as [|k p p1 p2 Hs%run_step_left _ IH]; lia. Qed.
End pipeline.

(** What [runFetcher] gives the sequential program has this form: its callback adds batches,
    and an error comes last. *)
Section sends.
Context {HA : SSVNetworkABI} {E : Type} `{!Runtime E, !ExecutionRPC E} (retryConfig : RetryConfig).

Definition adds_batches : relation (Exec E (list batchResult)) := λ s s',
  ∃ l : list (Z * list BlockLogs), data s' = data s ++ ((λ b, batch b.1 b.2) <$> l).

#[local] Instance adds_batches_preorder : PreOrder adds_batches.
Proof.
  split; [intros s; exists []; by rewrite app_nil_r|]. intros s1 s2 s3 [l H] [l' H'].
  exists (l ++ l'). by rewrite H', H, fmap_app, app_assoc.
Qed.

Lemma same_batches s s' : data s' = data s → adds_batches s s'.
Proof. intros H. exists []. by rewrite app_nil_r. Qed.

Lemma FetchLogs_sends fuel addr from to topics :
  movesf adds_batches (FetchLogs retryConfig fuel addr from to topics send_batch).
Proof.
  assert (∀ cur, moves_io adds_batches (FetchLogs_body retryConfig addr to topics send_batch cur)) as Hb.
  { intros cur s. unfold FetchLogs_body. cbv zeta.
    generalize (batch_end to cur (current (batchSize s))). intros batchEnd.
    set (body := try_ _ _). assert (moves_io adds_batches body) as H; [|apply H]. unfold body.
    movesf_step; intros s0;
      try (apply same_batches; unfold on_env, zoom, check_ctx; by repeat case_match).
    by exists [(batchEnd, a1)]. }
  intros s r s'. unfold FetchLogs. revert from s.
  induction fuel as [|f IH]; intros cur s; cbn [FetchLogs_loop];
    (case_match; [|by intros [= _ <-]]); [done|].
  specialize (Hb cur s). destruct (FetchLogs_body _ _ _ _ _ _ s) as [[next|x|] s1];
    [|by intros [= _ <-]..]. intros Hl. etrans; [exact Hb|by eapply IH].
Qed.

Lemma runFetcher_messages addr fuel from to (s s' : Exec E World) batches :
  runFetcher retryConfig addr fuel from to s = Some (Ok batches, s') →
  ∃ todo res, batches = messages todo res.
Proof.
  unfold runFetcher. destruct EventTopics as [topics| |]; [|done..].
  destruct (FetchLogs _ _ _ _ _ _ _ _) as [[r s1]|] eqn:Hf; [|done].
  apply FetchLogs_sends in Hf as [l Hl]. cbn in Hl. intros [= Hr _]. exists l. unfold messages.
  rewrite <- Hl. destruct r as [[]|e|]; [exists None|exists (Some e)|done]; cbn;
    injection Hr as <-; by rewrite ?app_nil_r.
Qed.
End sends.

(** ** Properties *)

(** C31: the concurrent program refines the sequential one.  Under any interleaving of the
    fetcher, the processor and the end of the caller's context, the channel never holds more
    than its buffer, and the database is what processing a prefix of the fetched messages,
    in order, makes of it.  An error [SyncToBlock] returns is that of the prefix, unless the
    caller's context has ended; success means every batch was processed; so without a
    cancellation the result and the database are those of the sequential run. *)
Theorem pipeline_refines `{!Crypto, !SSVNetworkABI} todo res w p :
  rtc pipe_step (pipe_init todo res w) p →
  (length (channel p) <= prefetchBuffer)%nat ∧
  (∃ pre rest r, messages todo res = pre ++ rest ∧ process_batches pre w = (r, pworld p) ∧
    match outcome p with
    | None => r = Ok tt
    | Some (Ok _) => r = Ok tt ∧ rest = []
    | Some (Err e) => r = Err e ∨ r = Ok tt ∧ cancelled p = true
    | Some Panic => r = Panic
    end) ∧
  (∀ r, cancelled p = false → outcome p = Some r →
     process_batches (messages todo res) w = (r, pworld p)).
Proof.
  intros [Hlen (pre & sent & extra & l & dropped & r & Hch & Hall & _ & _ & Hw & Ho)]%pipe_steps_inv.
  split; [done|].
  assert (∀ r, cancelled p = false → outcome p = Some r →
     process_batches (messages todo res) w = (r, pworld p)) as Hseq.
  { intros r0 Hc Hr0. rewrite Hr0 in Ho. destruct r0 as [[]|e|].
    - destruct Ho as [-> <-]. done.
    - destruct Ho as [->|[_ Ht]]; [|congruence]. by rewrite Hall, process_batches_app, Hw.
    - rewrite Hall, process_batches_app, Hw. by rewrite Ho. }
  split; [|done]. exists pre, (sent ++ l ++ dropped), r. split; [done|]. split; [done|].
  destruct (outcome p) as [[[]|e|]|]; try done. destruct Ho as [-> Epre]. split; [done|].
  apply (app_inv_head pre). by rewrite <- Hall, app_nil_r.
Qed.

(** C32: the pipeline ends.  Counting only what the two goroutines themselves do, without
    waiting for anybody to cancel: until [SyncToBlock] has returned one of them can go on;
    they make at most two steps per batch and five more; and once it has returned, for
    whatever reason, the fetcher can end and close its channel by itself, also when the
    channel is full and nobody reads it. *)
Theorem pipeline_ends `{!Crypto, !SSVNetworkABI} todo res w p :
  rtc pipe_step (pipe_init todo res w) p →
  (outcome p = None → ∃ p', run_step p p') ∧
  (outcome p ≠ None → ∃ p', rtc fetcher_step p p' ∧ p_fetcher p' = Closed) ∧
  (∀ k p', nsteps run_step k p p' → (k <= 2 * length todo + 5)%nat).
Proof.
  intros Hr. split; [apply run_progress|]. split.
  - intros Ho. apply fetcher_ends. unfold fetch_cancelled. destruct (outcome p); [|done].
    by rewrite orb_true_r.
  - intros k p' Hk%pipe_steps_bounded. enough (steps_left p <= 2 * length todo + 5)%nat by lia.
    assert (steps_left (pipe_init todo res w) = 2 * length todo + 5)%nat as <-
      by (unfold steps_left; cbn; lia).
    clear Hk k p'. induction Hr as [q|q1 q2 q3 Hs _ IH]; [done|]. etrans; [exact IH|].
    destruct Hs as [q q' Hs%run_step_left|]; [lia|done].
Qed.

(** ** Witnesses *)

(** One batch is sent, received and the channel closed. *)
Definition one_world : World := mkWorld schema [].

Definition one_done : pipe :=
  mkPipe Closed [] false (Some (Ok tt)) (mkWorld (set_last_synced 12 schema) []).

Lemma one_batch_run : rtc pipe_step (pipe_init [(12, [])] None one_world) one_done.
Proof.
  eapply rtc_l; [apply step_run; left; apply step_send; cbn; unfold prefetchBuffer; lia|].
  eapply rtc_l; [apply step_run; left; apply step_fetched|].
  eapply rtc_l; [apply step_run; left; apply step_close|].
  eapply rtc_l; [apply step_run; right; apply step_receive; reflexivity|].
  eapply rtc_l; [apply step_run; right; apply step_done|]. apply rtc_refl.
Qed.

Lemma pipeline_refines_witness :
  process_batches (messages [(12, [])] None) one_world = (Ok tt, pworld one_done).
Proof. apply (pipeline_refines [(12, [])] None one_world one_done one_batch_run); done. Defined.

Lemma pipeline_ends_witness : ∃ p', rtc fetcher_step one_done p' ∧ p_fetcher p' = Closed.
Proof. apply (pipeline_ends [(12, [])] None one_world one_done one_batch_run). done. Defined.
