(* ===== verification/Writes.v ===== *)
(** * What the syncer writes

    Everything a component does to the database is a sequence of the storage operations
    ([Storage.op]), under whatever faults.  [writes P] relates the databases before and
    after such a sequence of operations satisfying [P]; here it is shown of the syncer
    (src/eth/syncer/syncer.go), and what follows from it for the invariants of the store. *)

From S2P Require Import Prelude Merkle Storage Retry Execution Events Syncer.

(** ** Specification *)

(** One operation satisfying [P], on every fault. *)
Definition op_step (P : op → Prop) : relation DB := λ d d',
  ∃ o fs, P o ∧ d' = db (run_op o (mkWorld d fs)).2.

Definition writes (P : op → Prop) : relation DB := rtc (op_step P).

#[global] Instance writes_preorder P : PreOrder (writes P).
Proof. split; [intros d; apply rtc_refl|intros d1 d2 d3; apply rtc_trans]. Qed.

(** The operations of the syncer; the operator identifiers it stores satisfy [Q]. *)
Definition sync_op (Q : list Z → Prop) (o : op) : Prop :=
  match o with
  | OInsertEvent _ | OInsertValidator _ _ | ODeleteValidator _ _ | OUpdateLastSyncedBlock _ => True
  | OUpsertCluster r => Q (OperatorIDs r)
  | _ => False
  end.

(** ** Lemmas: sequences of operations *)

Lemma writes_op (P : op → Prop) o : P o → moves (writes P) (run_op o).
Proof. intros HP w. apply rtc_once. exists o, (faults w). split; [done|]. by destruct w. Qed.

Lemma writes_mono (P Q : op → Prop) d d' :
  (∀ o, P o → Q o) → writes P d d' → writes Q d d'.
Proof.
  intros HPQ. apply rtc_subrel. intros x y (o & fs & HP & ->). exists o, fs. auto.
Qed.

(** What every operation keeps, a sequence keeps. *)
Lemma writes_moves (P : op → Prop) (R : relation DB) `{!PreOrder R} d d' :
  (∀ o, P o → moves R (run_op o)) → writes P d d' → R d d'.
Proof.
  intros HR. induction 1 as [|d1 d2 d3 (o & fs & HP & ->) _ IH]; [done|].
  etrans; [|exact IH]. exact (HR o HP (mkWorld d1 fs)).
Qed.

Lemma writes_reachable (P : op → Prop) d d' :
  (∀ o, P o → op_ok o) → writes P d d' → reachable d → reachable d'.
Proof.
  intros HP. induction 1 as [|d1 d2 d3 (o & fs & Ho & ->) _ IH]; [done|].
  intros Hd. apply IH, reachable_op; auto.
Qed.

Lemma writes_commits (P : op → Prop) d d' :
  (∀ o, P o → o ≠ OClearAllState) → writes P d d' → commits_le d d'.
Proof. intros HP. apply writes_moves; [apply _|]. intros o Ho. by apply run_op_commits, HP. Qed.

(** The syncer's operations leave the commits and the chain identifier. *)
Lemma sync_op_keeps Q o :
  sync_op Q o → moves (λ d d', oracle_commits d' = oracle_commits d ∧ chain_id d' = chain_id d)
    (run_op o).
Proof.
  set (R := λ d d' : DB, oracle_commits d' = oracle_commits d ∧ chain_id d' = chain_id d).
  assert (PreOrder R) by (split; unfold R; [done|intros a b c [-> ->] [-> ->]; done]).
  intros Ho. destruct o; cbn [sync_op run_op] in *; try done;
    try (unfold insertValidator; case_match; [apply moves_fail; apply _|]);
    apply moves_wrapM;
    first [apply moves_update; [apply _|intros d] | apply moves_stmt; [apply _|intros d a d' Hst]];
    unfold R, put_event in *; cbv zeta in *; repeat case_match; simplify_eq; done.
Qed.

(** ** Lemmas: the syncer *)

Section sync.
Context {HC : Crypto} {HA : SSVNetworkABI}.
(** [P] holds of the syncer's operations, [Q] of the identifiers it parses. *)
Variables (P : op → Prop) (Q : list Z → Prop).
Hypothesis HP : ∀ o, sync_op Q o → P o.
Hypothesis HQ : ∀ log name e, parseLog log = Ok (name, e) → Q (clusterKey e).2.

#[local] Abbreviation syncs := (moves (writes P)).

Lemma sync_writes o : sync_op Q o → syncs (run_op o).
Proof. intros Ho. by apply writes_op, HP. Qed.

Lemma insertEvent_writes e : syncs (insertEvent e).
Proof. by apply (sync_writes (OInsertEvent e)). Qed.

Lemma upsertCluster_writes r : Q (OperatorIDs r) → syncs (upsertCluster r).
Proof. by apply (sync_writes (OUpsertCluster r)). Qed.

Lemma deleteValidator_writes id pk : syncs (deleteValidator id pk).
Proof. by apply (sync_writes (ODeleteValidator id pk)). Qed.

Lemma insertValidator_writes id pk : syncs (insertValidator id pk).
Proof. by apply (sync_writes (OInsertValidator id pk)). Qed.

Lemma updateLastSyncedBlock_writes b : syncs (updateLastSyncedBlock b).
Proof. by apply (sync_writes (OUpdateLastSyncedBlock b)). Qed.

#[local] Hint Resolve insertEvent_writes upsertCluster_writes deleteValidator_writes
  insertValidator_writes updateLastSyncedBlock_writes : oracle.

Lemma applyEvent_writes t e id : Q (clusterKey e).2 → syncs (applyEvent t e id).
Proof.
  intros Hids. unfold applyEvent. repeat case_match; try (by apply moves_lift; apply _);
    try (by apply moves_fail; apply _); cbn in Hids;
    unfold handleValidatorAdded, handleValidatorRemoved; moves_step; auto with oracle;
    by apply upsertCluster_writes.
Qed.

Lemma processLog_writes log bl : syncs (processLog log bl).
Proof.
  unfold processLog. destruct (parseLog log) as [[t e]|err|] eqn:Ep.
  - apply HQ in Ep. pose proof applyEvent_writes. moves_step; auto with oracle.
  - case_match; [|apply moves_fail; apply _]. unfold storeRawEvent. moves_step; auto with oracle.
  - apply moves_lift; apply _.
Qed.

Lemma process_blocks_writes bls k : syncs (process_blocks bls k).
Proof.
  revert k. induction bls as [|bl bls IH]; intros k; cbn [process_blocks];
    [apply moves_ret; apply _|].
  apply moves_bind; [apply _| |by intros]. generalize (Logs bl). intros ls. revert k.
  induction ls as [|l ls IHl]; intros k; cbn [process_logs]; [apply moves_ret; apply _|].
  apply moves_bind; [apply _| |by intros]. apply moves_wrapM, processLog_writes.
Qed.

Lemma process_batches_writes bs : syncs (process_batches bs).
Proof.
  induction bs as [|[batchEnd ls|err] bs IH]; cbn [process_batches];
    [apply moves_ret; apply _| |apply moves_fail; apply _].
  apply moves_bind; [apply _| |by intros]. unfold processBatch.
  pose proof process_blocks_writes. destruct ls; moves_step; auto with oracle.
Qed.
End sync.

(** Relations on the whole state that only look at the database. *)
Definition db_rel {E} (R : relation DB) : relation (Exec E World) :=
  λ s s', R (db (data s)) (db (data s')).

#[global] Instance db_rel_preorder {E} R `{!PreOrder R} : PreOrder (@db_rel E R).
Proof. split; [intros s|intros s1 s2 s3]; unfold db_rel; [done|apply transitivity]. Qed.

Lemma on_data_moves {E A} R (m : M A) : moves R m → moves_io (@db_rel E R) (on_data m).
Proof. intros Hm s. specialize (Hm (data s)). unfold db_rel, on_data, zoom. by destruct (m (data s)). Qed.

Lemma on_env_moves {E A} R `{!PreOrder R} (m : io E A) : moves_io (@db_rel E R) (on_env m).
Proof. intros s. unfold db_rel, on_env, zoom. by destruct (m (env s)). Qed.

Section sync_block.
Context {HC : Crypto} {HA : SSVNetworkABI} {E : Type} `{!Runtime E, !ExecutionRPC E}.
Variables (P : op → Prop) (Q : list Z → Prop).
Hypothesis HP : ∀ o, sync_op Q o → P o.
Hypothesis HQ : ∀ log name e, parseLog log = Ok (name, e) → Q (clusterKey e).2.

Lemma GetLastSyncedBlock_writes :
  moves_io (@db_rel E (writes P)) (on_data (wrapM "get last synced block" GetLastSyncedBlock)).
Proof. apply on_data_moves. unfold GetLastSyncedBlock. moves_step. Qed.

Lemma syncBlocks_writes cfg addr fuel last target :
  movesf (@db_rel E (writes P)) (syncBlocks cfg addr fuel last target).
Proof.
  intros s r s' H. unfold db_rel. unfold syncBlocks, runFetcher in H.
  destruct EventTopics as [topics|e|]; [|by injection H as _ <-..].
  destruct (FetchLogs _ _ _ _ _ _ _ _) as [[rf sf]|]; [|done].
  assert (∀ batches, moves_io (@db_rel E (writes P))
    (_ ← on_data (process_batches batches); check_ctx)) as Hp.
  { intros batches. apply moves_io_bind;
      [apply _|by eapply on_data_moves, process_batches_writes|].
    intros _ s2. unfold db_rel, check_ctx. destruct (ctx_Err (env s2)); done. }
  destruct rf as [u|e|]; [..|by injection H as _ <-]; apply Some_inj in H.
  - specialize (Hp (data sf) (mkExec (batchSize sf) (env sf) (data s))). by rewrite H in Hp.
  - specialize (Hp (data sf ++ [batch_err e]) (mkExec (batchSize sf) (env sf) (data s))).
    by rewrite H in Hp.
Qed.

Lemma SyncToBlock_writes cfg addr fuel target :
  movesf (@db_rel E (writes P)) (SyncToBlock cfg addr fuel target).
Proof.
  intros s r s' H. unfold SyncToBlock in H. pose proof (GetLastSyncedBlock_writes s) as H1.
  destruct (on_data _ s) as [[last|e|] s1]; [|by injection H as _ <-..].
  case_match; [by injection H as _ <-|].
  apply in_sync_mode_inv in H as (s2 & s3 & H & [_ _ Hd1] & [_ _ Hd2]).
  apply syncBlocks_writes in H. unfold db_rel in *. cbn [snd] in H1. rewrite Hd2.
  etrans; [exact H1|]. by rewrite <- Hd1.
Qed.

Lemma SyncToFinalized_writes cfg addr fuel deployBlock :
  movesf (@db_rel E (writes P)) (SyncToFinalized cfg addr fuel deployBlock).
Proof.
  intros s r s' H. unfold SyncToFinalized in H. cbv zeta in H.
  match type of H with (match ?m s with _ => _ end = _) =>
    assert (moves_io (@db_rel E (writes P)) m) as Hs end.
  { apply moves_io_bind; [apply _|apply GetLastSyncedBlock_writes|intros last].
    apply moves_io_bind; [apply _| |intros _; by apply on_env_moves; apply _].
    destruct (last =? 0); [|apply moves_io_ret; apply _].
    by eapply on_data_moves, moves_wrapM, updateLastSyncedBlock_writes. }
  specialize (Hs s).
  match type of H with (match ?m s with _ => _ end = _) =>
    destruct (m s) as [[fin|e|] s1] end; cbn [snd] in Hs; [|by injection H as _ <-..].
  etrans; [exact Hs|by eapply SyncToBlock_writes].
Qed.
End sync_block.

(** The identifiers the parser yields, with and without the laws of the ABI. *)
Lemma any_ids {HC : Crypto} {HA : SSVNetworkABI} log name e :
  parseLog log = Ok (name, e) → (λ _ : list Z, True) (clusterKey e).2.
Proof. done. Qed.

Lemma parsed_ids {HC : Crypto} {HA : SSVNetworkABI} {HL : SSVNetworkABILaws} log name e :
  parseLog log = Ok (name, e) → Forall (is_uint 64) (clusterKey e).2.
Proof. intros H. by destruct (parseLog_ok log name e H) as [_ [_ ?]]. Qed.
