(* ===== verification/Beacon.v ===== *)
(** * eth/beacon: the beacon client (src/eth/beacon/client.go)

    The beacon node is the interface [BeaconAPI] over the environment.  The
    batches of [GetValidatorBalances] run concurrently in the program and write
    disjoint parts of one map under a mutex; here they run one after the other in
    an order the theorems quantify over; their goroutines are in Balances, and the
    subscription in Subscribe. *)

From S2P Require Import Prelude Retry.

(** ** Data and third-party code *)

Record FinalizedCheckpoint := mkCheckpoint {
  Epoch : Z;
  BlockNum : Z;
  BlockRoot : bytes;
}.

(** The fields of [apiv1.FinalizedCheckpointEvent] the program reads. *)
Record FinalizedCheckpointEvent := mkCheckpointEvent {
  event_Epoch : Z;
  event_Block : bytes;
}.

Class BeaconAPI (E : Type) := {
  (** [Finality] of "head": the finalized checkpoint's epoch. *)
  Finality : io E Z;
  (** [SignedBeaconBlock]: the response's [ExecutionBlockNumber()]. *)
  SignedBeaconBlock : bytes → io E (result Z);
  (** [BeaconBlockHeader] of "finalized": the block's root. *)
  BeaconBlockHeader : io E bytes;
  (** [Validators] at "finalized": the public keys and effective balances found. *)
  Validators : list bytes → io E (list (bytes * Z));
}.

(** The channel of checkpoints. *)
Record CheckpointChan := mkChan {
  buffered : list FinalizedCheckpoint;
  chan_closed : bool;
}.

(** The goroutine that waits for the end of the context. *)
Definition close_chan (ch : CheckpointChan) : CheckpointChan := mkChan (buffered ch) true.

Definition balanceFetchBatchSize : nat := 2000.

(** A [phase0.BLSPubKey] from a byte slice. *)
Definition bls_key (pk : bytes) : bytes := to_array 48 pk.

(** ** Operations *)

(** [errors.As(err, &apiErr)]: the status of the first API error of the chain. *)
Fixpoint api_status (e : error) : option Z :=
  match e with
  | EApi status _ => Some status
  | EWrap _ e' => api_status e'
  | EWrap2 a b => match api_status a with Some c => Some c | None => api_status b end
  | _ => None
  end.

Definition StatusTooManyRequests : Z := 429.

Definition IsRetriable (err : error) : bool :=
  match api_status err with
  | Some code =>
      negb ((400 <=? code) && (code <? 500) && negb (code =? StatusTooManyRequests))
  | None => true
  end.

Section client.
Context {E : Type} `{!Runtime E, !BeaconAPI E} (retryConfig : RetryConfig).

Definition GetFinalizedEpoch : io E Z :=
  WithRetry retryConfig (wrapM "get finality" Finality) (Some IsRetriable).

Definition fetchCheckpoint (event : FinalizedCheckpointEvent) : io E FinalizedCheckpoint :=
  blockResp ← wrapM "get beacon block" (SignedBeaconBlock (event_Block event));
  blockNum ← lift (wrap "get execution block number" blockResp);
  mret (mkCheckpoint (event_Epoch event) blockNum (event_Block event)).

Definition errRootMismatch (expected got : bytes) : error :=
  EText ("finalized block root mismatch: expected 0x" +:+ hex_encode expected +:+
    ", got 0x" +:+ hex_encode got).

Definition VerifyFinalizedBlockRoot (expectedBlockRoot : bytes) : io E unit :=
  WithRetry retryConfig (
    root ← wrapM "get finalized block header" BeaconBlockHeader;
    if bool_decide (root = expectedBlockRoot) then mret tt
    else fail (errRootMismatch expectedBlockRoot root)) (Some IsRetriable).

(** The slices of at most [balanceFetchBatchSize] keys. *)
Fixpoint balance_batches (fuel : nat) (keys : list bytes) : list (list bytes) :=
  match keys, fuel with
  | [], _ | _, O => []
  | _, S f => take balanceFetchBatchSize keys ::
              balance_batches f (drop balanceFetchBatchSize keys)
  end.

(** The answer for a batch, written to the map under the mutex. *)
Definition merge_batch (merged : gmap bytes Z) (resp : list (bytes * Z)) : gmap bytes Z :=
  foldl (λ m v, <[v.1 := v.2]> m) merged resp.

(** One goroutine: fetch a batch and merge it. *)
Definition fetch_batch (batch : list bytes) (merged : gmap bytes Z) : io E (gmap bytes Z) :=
  resp ← WithRetry retryConfig (wrapM "get validators" (Validators batch)) (Some IsRetriable);
  mret (merge_batch merged resp).

Fixpoint fetch_batches (batches : list (list bytes)) (merged : gmap bytes Z)
    : io E (gmap bytes Z) :=
  match batches with
  | [] => mret merged
  | batch :: rest => merged' ← fetch_batch batch merged; fetch_batches rest merged'
  end.

Definition GetValidatorBalances (pubkeys : list bytes) : io E (gmap bytes Z) :=
  let blsPubkeys := bls_key <$> pubkeys in
  fetch_batches (balance_batches (length blsPubkeys) blsPubkeys) ∅.

(** [select { case ch <- checkpoint: default: }] over the channel of capacity 1: a
    checkpoint that finds it full is dropped; sending on a closed channel panics. *)
Definition offer (checkpoint : FinalizedCheckpoint) (ch : CheckpointChan) : result CheckpointChan :=
  if chan_closed ch then Panic
  else if (length (buffered ch) <? 1)%nat
  then Ok (mkChan (buffered ch ++ [checkpoint]) false) else Ok ch.

(** The subscription's handler. [others] is what the rest of the program does to the
    channel while the checkpoint is fetched: receiving, and closing it when the context
    ends. *)
Definition on_finalized_event (event : FinalizedCheckpointEvent)
    (others : CheckpointChan → CheckpointChan) (ch : CheckpointChan) : io E CheckpointChan :=
  try_ (WithRetry retryConfig (fetchCheckpoint event) (Some IsRetriable)) (λ r,
    match r with
    | Ok checkpoint => lift (offer checkpoint (others ch))
    | Err _ => mret (others ch)
    | Panic => lift Panic
    end).
End client.

(** ** Specification *)

(** A node whose successful answers hold exactly the requested validators it
    knows, with their balances. *)
Class FaithfulBeacon (E : Type) `{!BeaconAPI E} (balances : gmap bytes Z) := {
  faithful_validators keys e resp e' :
    Validators keys e = (Ok resp, e') →
    ∀ pk b, (pk, b) ∈ resp ↔ pk ∈ keys ∧ balances !! pk = Some b;
}.

(** ** Lemmas *)

Lemma elem_balance_batches fuel keys pk :
  (length keys <= fuel)%nat →
  (∃ b, b ∈ balance_batches fuel keys ∧ pk ∈ b) ↔ pk ∈ keys.
Proof.
  revert keys. induction fuel as [|f IH]; intros [|k keys] Hlen; cbn [length] in Hlen; try lia.
  1-2: split; [intros (b & []%elem_of_nil & _)|intros []%elem_of_nil].
  assert (∃ n, n = balanceFetchBatchSize ∧ (1 <= n)%nat) as (n & En & Hn).
  { eexists. split; [done|]. unfold balanceFetchBatchSize. lia. }
  cbn [balance_batches]. rewrite <- En in *.
  replace (pk ∈ k :: keys) with (pk ∈ take n (k :: keys) ++ drop n (k :: keys))
    by (by rewrite take_drop).
  rewrite elem_of_app, <- (IH (drop n (k :: keys))).
  - setoid_rewrite elem_of_cons. split.
    + intros (b & [->|Hin] & Hpk); [by left|right; eauto].
    + intros [Hpk|(b & Hin & Hpk)]; eauto.
  - rewrite length_drop. cbn [length]. lia.
Qed.

(** Merging writes the answered keys and keeps the others. *)
Lemma foldl_insert_pairs {A} (resp : list (bytes * A)) (m : gmap bytes A) pk :
  (∀ b1 b2, (pk, b1) ∈ resp → (pk, b2) ∈ resp → b1 = b2) →
  (∀ b, (pk, b) ∈ resp → foldl (λ m v, <[v.1 := v.2]> m) m resp !! pk = Some b) ∧
  ((∀ b, (pk, b) ∉ resp) → foldl (λ m v, <[v.1 := v.2]> m) m resp !! pk = m !! pk).
Proof.
  revert m. induction resp as [|[k v] resp IH]; intros m Hfun; cbn [foldl fst snd].
  { split; [intros b []%elem_of_nil|done]. }
  destruct (IH (<[k:=v]> m)) as [H1 H2].
  { intros b1 b2 Hb1 Hb2. apply Hfun; by right. }
  split.
  - intros b [[= <- <-]|Hb]%elem_of_cons; [|auto].
    destruct (decide (pk ∈ resp.*1)) as [[[k' b'] [-> Hb']]%list_elem_of_fmap|Hno].
    + rewrite (H1 b' Hb'). f_equal. apply Hfun; [by right|left].
    + rewrite H2; [apply lookup_insert_eq|]. intros b' Hb'. apply Hno.
      by apply (list_elem_of_fmap_2 fst) in Hb'.
  - intros Hno. rewrite H2; [|intros b Hb; apply (Hno b); by right].
    apply lookup_insert_ne. intros ->. apply (Hno v). left.
Qed.

Section faithful.
Context {E : Type} `{!Runtime E, !BeaconAPI E} (retryConfig : RetryConfig).
Context (balances : gmap bytes Z) `{Hb : !FaithfulBeacon E balances}.

(** [m] holds the balances of the keys of [done] the node knows, and no others. *)
Definition fetched (done : bytes → Prop) (m : gmap bytes Z) : Prop :=
  ∀ pk b, m !! pk = Some b ↔ done pk ∧ balances !! pk = Some b.

(** Merging the answer for a batch. *)
Lemma merge_fetched done batch m e resp e' :
  fetched done m → Validators batch e = (Ok resp, e') →
  fetched (λ pk, done pk ∨ pk ∈ batch) (merge_batch m resp).
Proof.
  intros Hm E0. unfold merge_batch.
  pose proof (faithful_validators (FaithfulBeacon:=Hb) _ _ _ _ E0) as Hresp. intros pk b.
  destruct (foldl_insert_pairs resp m pk) as [H1 H2].
  { intros b1 b2 Hb1%Hresp Hb2%Hresp. destruct Hb1, Hb2. congruence. }
  destruct (decide (pk ∈ batch)) as [Hin|Hout].
  - destruct (balances !! pk) as [v|] eqn:Ev.
    + rewrite (H1 v) by (apply Hresp; auto). naive_solver.
    + rewrite H2 by (intros b' [_ Hb']%Hresp; congruence). rewrite (Hm pk b), Ev. naive_solver.
  - rewrite H2 by (intros b' [Hb' _]%Hresp; done). rewrite (Hm pk b). naive_solver.
Qed.

Lemma fetch_batch_fetched done batch m e m' e' :
  fetched done m → fetch_batch retryConfig batch m e = (Ok m', e') →
  fetched (λ pk, done pk ∨ pk ∈ batch) m'.
Proof.
  intros Hm H. unfold fetch_batch in H. inv_io. apply WithRetry_Ok in E0 as [e1 E0]. inv_io.
  by eapply merge_fetched.
Qed.

Lemma fetch_batches_fetched batches done m e m' e' :
  fetched done m → fetch_batches retryConfig batches m e = (Ok m', e') →
  fetched (λ pk, done pk ∨ ∃ b, b ∈ batches ∧ pk ∈ b) m'.
Proof.
  revert done m e. induction batches as [|b batches IH]; intros done m e Hm H;
    cbn [fetch_batches] in H.
  - injection H as <- <-. intros pk b. rewrite (Hm pk b).
    setoid_rewrite elem_of_nil. naive_solver.
  - inv_io. eapply fetch_batch_fetched in E0; [|exact Hm].
    eapply IH in H; [|exact E0]. intros pk v. rewrite (H pk v).
    setoid_rewrite elem_of_cons. naive_solver.
Qed.
End faithful.

(** ** Properties *)

(** The handler of a finalized checkpoint panics, on an otherwise successful path, when
    the context ends and its channel is closed while the checkpoint is being fetched;
    while the channel is open it never does, queues the checkpoint of the event when
    nothing is waiting, and else keeps the older one. *)
Theorem on_finalized_event_outcome {E : Type} `{!Runtime E, !BeaconAPI E} cfg event others ch
    (e : E) c e' :
  WithRetry cfg (fetchCheckpoint event) (Some IsRetriable) e = (Ok c, e') →
  let out := on_finalized_event cfg event others ch e in
  (chan_closed (others ch) = true → out = (Panic, e')) ∧
  (chan_closed (others ch) = false → ∃ ch', out = (Ok ch', e') ∧ chan_closed ch' = false ∧
     (buffered (others ch) = [] → buffered ch' = [c] ∧ event_Epoch event = Epoch c) ∧
     (buffered (others ch) ≠ [] → ch' = others ch)).
Proof.
  intros H out. subst out. unfold on_finalized_event, try_. rewrite H. unfold lift, offer.
  split; intros Hc; rewrite Hc; [done|].
  destruct (buffered (others ch)) as [|c0 l] eqn:Eb; cbn; [|by eexists].
  eexists. split; [done|]. split; [done|]. split; [|done]. intros _. split; [done|].
  apply WithRetry_Ok in H as [e1 H]. unfold fetchCheckpoint in H. by inv_io.
Qed.

(** Whatever the order in which the concurrent batches are merged, a
    successful [GetValidatorBalances] returns exactly the balances of the requested
    validators the beacon node knows: the split in batches of 2000 loses none and
    no batch overwrites another's answer. *)
Theorem GetValidatorBalances_exact {E} `{!Runtime E, !BeaconAPI E} (retryConfig : RetryConfig)
    (balances : gmap bytes Z) `{!FaithfulBeacon E balances}
    (pubkeys : list bytes) batches e m e' :
  batches ≡ₚ balance_batches (length (bls_key <$> pubkeys)) (bls_key <$> pubkeys) →
  fetch_batches retryConfig batches ∅ e = (Ok m, e') →
  ∀ pk b, m !! pk = Some b ↔ pk ∈ bls_key <$> pubkeys ∧ balances !! pk = Some b.
Proof.
  intros Hp H pk b.
  assert (fetched balances (λ _, False) ∅) as H0.
  { intros k v. rewrite lookup_empty. naive_solver. }
  rewrite (fetch_batches_fetched retryConfig balances batches _ _ _ _ _ H0 H pk b).
  rewrite <- (elem_balance_batches _ (bls_key <$> pubkeys) pk (Nat.le_refl _)).
  setoid_rewrite Hp. naive_solver.
Qed.

(** ** Witnesses *)

#[local] Instance still_runtime : Runtime unit :=
  { Int63n n e := (0, e); sleep d e := (Ok tt, e); ctx_Err _ := None }.

Definition known_balances : gmap bytes Z :=
  {[ be_bytes 48 1 := 32000000000; be_bytes 48 2 := 40000000000 ]}.

#[local] Instance still_beacon : BeaconAPI unit :=
  { Finality e := (Ok 11, e);
    SignedBeaconBlock _ e := (Ok (Ok 100), e);
    BeaconBlockHeader e := (Ok (be_bytes 32 5), e);
    Validators keys e := (Ok (filter (λ v, v.1 ∈ keys) (map_to_list known_balances)), e) }.

#[local] Instance still_beacon_faithful : FaithfulBeacon unit known_balances.
Proof.
  split. intros keys e resp e' H pk b. unfold Validators, still_beacon in H.
  apply Ok_pair_inj in H as [<- _]. by rewrite list_elem_of_filter, elem_of_map_to_list.
Qed.

(** One batch for two keys; the run is kept as a value. *)
Definition still_run : result (gmap bytes Z) * unit :=
  GetValidatorBalances DefaultRetryConfig [be_bytes 48 2; be_bytes 48 3] tt.

Definition still_map : gmap bytes Z := match still_run.1 with Ok m => m | _ => ∅ end.

Lemma still_ends :
  GetValidatorBalances DefaultRetryConfig [be_bytes 48 2; be_bytes 48 3] tt = (Ok still_map, tt).
Proof.
  assert (match still_run.1 with Ok _ => true | _ => false end = true) as Ht
    by (vm_compute; reflexivity).
  unfold still_map. unfold still_run in *.
  by destruct (GetValidatorBalances _ _ _) as [[m|e|] []].
Qed.

Lemma GetValidatorBalances_exact_witness :
  still_map !! be_bytes 48 2 = Some 40000000000 ↔
    be_bytes 48 2 ∈ bls_key <$> [be_bytes 48 2; be_bytes 48 3] ∧
    known_balances !! be_bytes 48 2 = Some 40000000000.
Proof.
  apply (GetValidatorBalances_exact DefaultRetryConfig known_balances
    [be_bytes 48 2; be_bytes 48 3]
    (balance_batches 2 (bls_key <$> [be_bytes 48 2; be_bytes 48 3])) tt still_map tt);
    [reflexivity|exact still_ends].
Defined.

(** A checkpoint fetched while the context ends. *)
Lemma on_finalized_event_outcome_witness :
  on_finalized_event DefaultRetryConfig (mkCheckpointEvent 11 (be_bytes 32 5)) close_chan
    (mkChan [] false) tt = (Panic, tt).
Proof.
  eapply (on_finalized_event_outcome DefaultRetryConfig
    (mkCheckpointEvent 11 (be_bytes 32 5)) close_chan (mkChan [] false) tt).
  - vm_compute. reflexivity.
  - reflexivity.
Defined.
