(* ===== verification/Balances.v ===== *)
(** * The goroutines of GetValidatorBalances (src/eth/beacon/client.go)

    [Beacon.fetch_batches] asks for the batches one after the other.  In the program each
    batch has a goroutine of an errgroup that runs at most ten at once, every goroutine
    retries its call by itself, the answers are merged under a mutex, and the first error
    ends the others.  Here each attempt is a step, between which the node's state may change
    in any way. *)

From S2P Require Import Prelude Retry Beacon.

Definition balanceFetchConcurrency : nat := 10.

Record Fetching (E : Type) := mkFetching {
  f_env : E;
  f_waiting : list (list bytes);          (* batches [g.Go] has not started *)
  f_running : list (list bytes * Z);      (* goroutines: the batch and the attempt *)
  f_merged : gmap bytes Z;                (* merged *)
  f_err : option error;                   (* the first error of the group *)
  f_ctx : bool;                           (* whether the caller's context has ended *)
  f_calls : nat;                          (* how often the node was asked *)
}.
Arguments mkFetching {E} _ _ _ _ _ _ _.
Arguments f_env {E} _.
Arguments f_waiting {E} _.
Arguments f_running {E} _.
Arguments f_merged {E} _.
Arguments f_err {E} _.
Arguments f_ctx {E} _.
Arguments f_calls {E} _.

Section fetching.
Context {E : Type} `{!Runtime E, !BeaconAPI E} (retryConfig : RetryConfig).

Definition fetch_start (pubkeys : list bytes) (e : E) : Fetching E :=
  let keys := bls_key <$> pubkeys in
  mkFetching e (balance_batches (length keys) keys) [] ∅ None false 0.

Definition first_error (err : option error) (e : error) : option error :=
  match err with Some _ => err | None => Some e end.

Definition errValidators (err : error) : error := EWrap "get validators" err.

(** The goroutine is not to try again. *)
Definition gives_up (attempt : Z) (err : error) : bool :=
  negb (IsRetriable (errValidators err)) || negb (attempt <? MaxRetries retryConfig).

(** What the last attempt leaves. *)
Definition final_error (err : error) : error :=
  if IsRetriable (errValidators err) then errAttempts retryConfig (errValidators err)
  else errValidators err.

(** A batch is started when fewer than ten run; an attempt succeeds, fails and is made again
    after a pause, or fails for good; a pause ends early only when the group's context has
    ended: by the first error, or with the caller's. *)
Inductive fetch_work : relation (Fetching E) :=
  | work_start b e ws rs m er c n :
      (length rs < balanceFetchConcurrency)%nat →
      fetch_work (mkFetching e (b :: ws) rs m er c n) (mkFetching e ws (rs ++ [(b, 0)]) m er c n)
  | work_answer b a resp e' e ws rs rs' m er c n :
      Validators b e = (Ok resp, e') →
      fetch_work (mkFetching e ws (rs ++ (b, a) :: rs') m er c n)
        (mkFetching e' ws (rs ++ rs') (merge_batch m resp) er c (S n))
  | work_retry b a err e' e ws rs rs' m er c n :
      Validators b e = (Err err, e') → gives_up a err = false →
      fetch_work (mkFetching e ws (rs ++ (b, a) :: rs') m er c n)
        (mkFetching e' ws (rs ++ (b, a + 1) :: rs') m er c (S n))
  | work_fail b a err e' e ws rs rs' m er c n :
      Validators b e = (Err err, e') → gives_up a err = true →
      fetch_work (mkFetching e ws (rs ++ (b, a) :: rs') m er c n)
        (mkFetching e' ws (rs ++ rs') m (first_error er (final_error err)) c (S n))
  | work_cancelled b a err e ws rs rs' m er c n :
      is_Some er ∨ c = true →
      fetch_work (mkFetching e ws (rs ++ (b, a) :: rs') m er c n)
        (mkFetching e ws (rs ++ rs') m (first_error er err) c n).

(** The rest of the program uses the node too, and may end the context. *)
Inductive fetch_step : relation (Fetching E) :=
  | fetch_works s s' : fetch_work s s' → fetch_step s s'
  | fetch_other e' e ws rs m er c n :
      fetch_step (mkFetching e ws rs m er c n) (mkFetching e' ws rs m er c n)
  | fetch_ends e ws rs m er c n :
      fetch_step (mkFetching e ws rs m er c n) (mkFetching e ws rs m er true n).

(** [g.Wait]. *)
Definition fetch_over (s : Fetching E) : Prop := f_waiting s = [] ∧ f_running s = [].

Definition fetch_result (s : Fetching E) : result (gmap bytes Z) :=
  match f_err s with Some err => Err err | None => Ok (f_merged s) end.

(** ** Specification *)

Definition attempts : Z := MaxRetries retryConfig + 1.

(** The calls a goroutine may still make. *)
Definition calls_left (s : Fetching E) : Z :=
  attempts * Z.of_nat (length (f_waiting s)) + foldr (λ r k, attempts - r.2 + k) 0 (f_running s).

Record fetch_bounded (total : nat) (s : Fetching E) : Prop := {
  fb_running : (length (f_running s) <= balanceFetchConcurrency)%nat;
  fb_attempts : Forall (λ r : list bytes * Z, 0 <= r.2 < attempts) (f_running s);
  fb_calls : Z.of_nat (f_calls s) + calls_left s <= attempts * Z.of_nat total;
}.

(** ** Lemmas *)

Lemma sum_left_app l l' :
  foldr (λ r k, attempts - r.2 + k) 0 (l ++ l') =
    foldr (λ (r : list bytes * Z) k, attempts - r.2 + k) 0 l +
    foldr (λ r k, attempts - r.2 + k) 0 l'.
Proof. induction l as [|r l IH]; cbn; [done|]. rewrite IH. lia. Qed.

Lemma fetch_work_bounded total s s' :
  0 <= MaxRetries retryConfig → fetch_work s s' → fetch_bounded total s → fetch_bounded total s'.
Proof.
  intros Hm Hs [H1 H2 H3]. unfold calls_left in *. assert (0 < attempts) by (unfold attempts; lia).
  assert (∀ (k : Z) n, k * Z.of_nat (S n) = k * Z.of_nat n + k) as HS by (intros; lia).
  destruct Hs as [b e ws rs m er c n Hl|b a resp e' e ws rs rs' m er c n Hv|
    b a err e' e ws rs rs' m er c n Hv Hg|b a err e' e ws rs rs' m er c n Hv Hg|
    b a err e ws rs rs' m er c n Hc];
    cbn [f_waiting f_running f_calls length] in *;
    rewrite ?sum_left_app, ?length_app, ?Forall_app, ?Forall_cons in *;
    cbn [foldr length snd] in *; rewrite ?HS in *;
    (split; unfold calls_left; cbn [f_waiting f_running f_calls length];
     rewrite ?sum_left_app, ?length_app, ?Forall_app, ?Forall_cons; cbn [foldr length snd];
     [lia| |lia]).
  - split_and!; try done; lia.
  - by destruct H2 as (? & ? & ?).
  - apply orb_false_iff in Hg as [_ Hg%negb_false_iff]. destruct H2 as (? & [Ha _] & ?).
    unfold attempts in *. split_and!; try done; lia.
  - by destruct H2 as (? & ? & ?).
  - by destruct H2 as (? & ? & ?).
Qed.

Lemma fetch_step_bounded total s s' :
  0 <= MaxRetries retryConfig → fetch_step s s' → fetch_bounded total s → fetch_bounded total s'.
Proof.
  intros Hm [|e' e ws rs m er c n|e ws rs m er c n]; [by apply fetch_work_bounded|..];
    (intros [H1 H2 H3]; by split).
Qed.

Lemma fetch_start_bounded pubkeys e :
  fetch_bounded (length (f_waiting (fetch_start pubkeys e))) (fetch_start pubkeys e).
Proof. split; cbn; [lia|done|]. unfold calls_left. cbn. lia. Qed.

Lemma fetch_steps_bounded total s s' :
  0 <= MaxRetries retryConfig → rtc fetch_step s s' → fetch_bounded total s → fetch_bounded total s'.
Proof. intros Hm. induction 1; eauto using fetch_step_bounded. Qed.

Lemma fetch_progress s :
  (∀ b e, (Validators b e).1 ≠ Panic) → ¬ fetch_over s → ∃ s', fetch_work s s'.
Proof.
  intros Hp Ho. destruct s as [e ws rs m er c n]. destruct rs as [|[b a] rs].
  - destruct ws as [|b ws]; [by destruct Ho|]. eexists. apply work_start.
    unfold balanceFetchConcurrency. cbn. lia.
  - specialize (Hp b e). destruct (Validators b e) as [[resp|err|] e'] eqn:Hv; [| |done].
    + eexists. by apply (work_answer b a resp e' e ws []).
    + destruct (gives_up a err) eqn:Hg; eexists;
        [by apply (work_fail b a err e' e ws [])|by apply (work_retry b a err e' e ws [])].
Qed.

(** The error of the group is that of an attempt, unless the caller's context has ended. *)
Definition fetch_caused (s : Fetching E) : Prop := ∀ err, f_err s = Some err →
  f_ctx s = true ∨ ∃ b a e err', (Validators b e).1 = Err err' ∧ gives_up a err' = true ∧
    err = final_error err'.

Lemma fetch_steps_caused s s' : rtc fetch_step s s' → fetch_caused s → fetch_caused s'.
Proof.
  induction 1 as [|s s1 s2 Hs _ IH]; [done|]. intros Hc. apply IH. clear IH. intros err.
  destruct Hs as [s1' s2' []|e' e ws rs m er c n|e ws rs m er c n]; cbn in *;
    try apply Hc; [| |by left].
  - destruct er as [er|]; [apply Hc|]. intros [= <-]. right. eexists b, a, e, _.
    by rewrite H.
  - destruct er as [er|]; [apply Hc|]. intros _. by destruct H as [[? [=]]|]; left.
Qed.

Section faithful.
Context (balances : gmap bytes Z) `{Hb : !FaithfulBeacon E balances}.

(** While there is no error, the map holds the balances of the batches done. *)
Definition fetch_exact (batches : list (list bytes)) (s : Fetching E) : Prop :=
  f_err s = None → ∃ finished,
    batches ≡ₚ finished ++ (f_running s).*1 ++ f_waiting s ∧
    fetched balances (λ pk, ∃ b, b ∈ finished ∧ pk ∈ b) (f_merged s).

Lemma fetch_work_exact batches s s' : fetch_work s s' → fetch_exact batches s → fetch_exact batches s'.
Proof.
  intros Hs He Hn. destruct Hs as [b e ws rs m er c n Hl|b a resp e' e ws rs rs' m er c n Hv|
    b a err e' e ws rs rs' m er c n Hv Hg|b a err e' e ws rs rs' m er c n Hv Hg|
    b a err e ws rs rs' m er c n Hc]; unfold fetch_exact in He; cbn in *.
  - destruct (He Hn) as (fin & Hp & Hf). exists fin. split; [|done].
    rewrite Hp, fmap_app. cbn. solve_Permutation.
  - destruct (He Hn) as (fin & Hp & Hf). exists (fin ++ [b]). split.
    + rewrite Hp, !fmap_app. cbn. solve_Permutation.
    + pose proof (merge_fetched balances _ _ _ _ _ _ Hf Hv) as Hf'. intros pk v. rewrite (Hf' pk v).
      setoid_rewrite elem_of_app. setoid_rewrite list_elem_of_singleton. naive_solver.
  - destruct (He Hn) as (fin & Hp & Hf). exists fin. split; [|done].
    rewrite Hp, !fmap_app. done.
  - by destruct er.
  - by destruct er.
Qed.

Lemma fetch_steps_exact batches s s' :
  rtc fetch_step s s' → fetch_exact batches s → fetch_exact batches s'.
Proof.
  induction 1 as [|s s1 s2 [s1' s2' Hw|e' e ws rs m er c n|e ws rs m er c n] _ IH]; [done|..]; intros He; apply IH;
    [by eapply fetch_work_exact|done..].
Qed.

Lemma fetch_start_exact pubkeys e :
  fetch_exact (f_waiting (fetch_start pubkeys e)) (fetch_start pubkeys e).
Proof.
  intros _. exists []. split; [done|]. cbn. intros pk b. rewrite lookup_empty.
  setoid_rewrite elem_of_nil. naive_solver.
Qed.
End faithful.
End fetching.

(** ** Properties *)

(** C17: [GetValidatorBalances] with its goroutines.  However the starts of the batches,
    their attempts, the merges, the cancellations and other uses of the node interleave: if
    [Wait] returns no error, the map holds exactly the balances of the requested validators
    the beacon node knows; at most ten batches are in flight at any time; the node is asked
    at most (MaxRetries + 1) times per batch; until [Wait] returns some goroutine can go on
    (a pause is cut short only after an error or the end of the caller's context); and the
    error is that of an attempt that was not to be repeated, unless that context has ended. *)
Theorem GetValidatorBalances_concurrent {E : Type} `{!Runtime E, !BeaconAPI E}
    (balances : gmap bytes Z) `{!FaithfulBeacon E balances} retryConfig pubkeys (e : E) s :
  0 <= MaxRetries retryConfig →
  (∀ b e', (Validators b e').1 ≠ Panic) →
  rtc (fetch_step retryConfig) (fetch_start pubkeys e) s →
  (∀ m, fetch_over s → fetch_result s = Ok m →
     ∀ pk b, m !! pk = Some b ↔ pk ∈ bls_key <$> pubkeys ∧ balances !! pk = Some b) ∧
  (length (f_running s) <= 10)%nat ∧
  Z.of_nat (f_calls s) <=
    (MaxRetries retryConfig + 1) * Z.of_nat (length (f_waiting (fetch_start pubkeys e))) ∧
  (¬ fetch_over s → ∃ s', fetch_work retryConfig s s') ∧
  (∀ err, f_err s = Some err →
     f_ctx s = true ∨ ∃ b a e' err', (Validators b e').1 = Err err' ∧
       gives_up retryConfig a err' = true ∧ err = final_error retryConfig err').
Proof.
  intros Hm Hp Hr. split; [|split; [|split; [|split; [by apply fetch_progress|]]]].
  - intros m [Hw Hg] Ho pk b. unfold fetch_result in Ho.
    destruct (f_err s) eqn:Hn; [done|]. injection Ho as <-.
    destruct (fetch_steps_exact retryConfig balances _ _ _ Hr
      (fetch_start_exact balances pubkeys e) Hn) as (fin & Hf & Hx).
    rewrite Hw, Hg in Hf. cbn in Hf. rewrite app_nil_r in Hf.
    rewrite (Hx pk b), <- (elem_balance_batches _ (bls_key <$> pubkeys) pk (Nat.le_refl _)).
    setoid_rewrite Hf. done.
  - by destruct (fetch_steps_bounded _ _ _ _ Hm Hr (fetch_start_bounded _ pubkeys e)) as [H _ _].
  - destruct (fetch_steps_bounded _ _ _ _ Hm Hr (fetch_start_bounded _ pubkeys e)) as [_ Ha H].
    enough (0 <= calls_left retryConfig s) by (unfold attempts in H; lia).
    unfold calls_left. assert (0 <= attempts retryConfig) by (unfold attempts; lia).
    assert (0 <= foldr (λ (r : list bytes * Z) k, attempts retryConfig - r.2 + k) 0 (f_running s))
      by (induction Ha; cbn; lia).
    pose proof (Z.mul_nonneg_nonneg _ (Z.of_nat (length (f_waiting s))) H0 (Zle_0_nat _)). lia.
  - by apply (fetch_steps_caused retryConfig _ _ Hr).
Qed.

(** ** Witnesses *)

(** A node that fails its first call. *)
Record flaky := mkFlaky { asked : nat }.

#[local] Instance flaky_runtime : Runtime flaky :=
  { Int63n n e := (0, e); sleep d e := (Ok tt, e); ctx_Err _ := None }.

#[local] Instance flaky_beacon : BeaconAPI flaky :=
  { Finality e := (Ok 11, e);
    SignedBeaconBlock _ e := (Ok (Ok 100), e);
    BeaconBlockHeader e := (Ok (be_bytes 32 5), e);
    Validators keys e :=
      (if (asked e =? 0)%nat then Err (EText "busy")
       else Ok (filter (λ v, v.1 ∈ keys) (map_to_list known_balances)), mkFlaky (S (asked e))) }.

#[local] Instance flaky_faithful : FaithfulBeacon flaky known_balances.
Proof.
  split. intros keys e resp e' H pk b. unfold Validators, flaky_beacon in H.
  destruct (asked e =? 0)%nat; [done|]. apply Ok_pair_inj in H as [<- _].
  by rewrite list_elem_of_filter, elem_of_map_to_list.
Qed.

Definition flaky_keys : list bytes := [be_bytes 48 2; be_bytes 48 3].

Definition flaky_answer : list (bytes * Z) :=
  filter (λ v, v.1 ∈ bls_key <$> flaky_keys) (map_to_list known_balances).

Definition flaky_end : Fetching flaky :=
  mkFetching (mkFlaky 2) [] [] (merge_batch ∅ flaky_answer) None false 2.

Lemma flaky_run :
  rtc (fetch_step DefaultRetryConfig) (fetch_start flaky_keys (mkFlaky 0)) flaky_end.
Proof.
  assert (balance_batches (length (bls_key <$> flaky_keys)) (bls_key <$> flaky_keys) =
    [bls_key <$> flaky_keys]) as Hb by (vm_compute; reflexivity).
  unfold fetch_start. rewrite Hb. unfold flaky_end, flaky_answer.
  set (ks := bls_key <$> flaky_keys). clearbody ks.
  eapply rtc_l; [apply fetch_works, work_start; unfold balanceFetchConcurrency; cbn; lia|].
  eapply rtc_l; [apply fetch_works, (work_retry _ ks 0 (EText "busy") (mkFlaky 1) (mkFlaky 0) [] [] []);
    [done|vm_compute; reflexivity]|].
  eapply rtc_l; [apply fetch_works, (work_answer _ ks 1
    (filter (λ v, v.1 ∈ ks) (map_to_list known_balances)) (mkFlaky 2) (mkFlaky 1) [] [] []); done|].
  apply rtc_refl.
Qed.

Lemma GetValidatorBalances_concurrent_witness :
  Z.of_nat (f_calls flaky_end) <= (MaxRetries DefaultRetryConfig + 1) *
    Z.of_nat (length (f_waiting (fetch_start flaky_keys (mkFlaky 0)))).
Proof.
  apply (GetValidatorBalances_concurrent known_balances DefaultRetryConfig flaky_keys (mkFlaky 0)
    flaky_end); [done| |exact flaky_run].
  intros b e'. unfold Validators, flaky_beacon. cbn. by case_match.
Defined.
