(* ===== verification/TxManager.v ===== *)
(** * txmanager: transaction submission (src/txmanager/manager.go, config.go)

    Fees are unbounded integers ([*big.Int]).  The node, the MEV relays and the
    signer are the interface [TxClient] over an environment state; waiting is
    [Runtime.sleep].  Polling for a receipt may go on for ever, so code that waits
    takes fuel and has type [iof]; [None] means the fuel is used up.

    The transactions sent are observed through the environment: a theorem about
    them holds for every relation on environments that the other calls keep. *)

From S2P Require Import Prelude Retry.

#[local] Open Scope go_scope.

(** ** Policy *)

Definition defaultGasBufferPercent : Z := 20.
Definition defaultMaxFeePerGasGwei : Z := 420.
Definition defaultPendingTimeoutBlocks : Z := 10.
Definition defaultGasBumpPercent : Z := 10.
Definition defaultMaxAttempts : Z := 3.
Definition defaultRetryDelay : Z := 5 * Second.

Record TxPolicy := mkPolicy {
  GasBufferPercent : Z;
  MaxFeePerGasGwei : Z;
  PendingTimeoutBlocks : Z;
  GasBumpPercent : Z;
  MaxAttempts : Z;
  RetryDelay : Z;
}.

Definition or_default (x d : Z) : Z := if x =? 0 then d else x.

Definition ApplyDefaults (p : TxPolicy) : TxPolicy :=
  mkPolicy (or_default (GasBufferPercent p) defaultGasBufferPercent)
    (or_default (MaxFeePerGasGwei p) defaultMaxFeePerGasGwei)
    (or_default (PendingTimeoutBlocks p) defaultPendingTimeoutBlocks)
    (or_default (GasBumpPercent p) defaultGasBumpPercent)
    (or_default (MaxAttempts p) defaultMaxAttempts)
    (or_default (RetryDelay p) defaultRetryDelay).

Definition GWei : Z := 10 ^ 9.

Definition MaxFeePerGasWei (p : TxPolicy) : Z := MaxFeePerGasGwei p * GWei.

Definition Validate (p : TxPolicy) : result unit :=
  if (GasBufferPercent p <? 0) || (100 <? GasBufferPercent p)
  then Err (EText ("gas_buffer_percent must be 0-100, got " +:+ pretty (GasBufferPercent p)))
  else if GasBumpPercent p <? 10
  then Err (EText ("gas_bump_percent must be at least 10 (EIP-1559 requirement), got " +:+
              pretty (GasBumpPercent p)))
  else if PendingTimeoutBlocks p <? 1
  then Err (EText ("pending_timeout_blocks must be at least 1, got " +:+
              pretty (PendingTimeoutBlocks p)))
  else if MaxAttempts p <? 1
  then Err (EText ("max_attempts must be at least 1, got " +:+ pretty (MaxAttempts p)))
  else if RetryDelay p <? 0 then Err (EText "retry_delay cannot be negative")
  else if MaxFeePerGasGwei p <? 1
  then Err (EText ("max_fee_per_gas_gwei must be at least 1, got " +:+
              pretty (MaxFeePerGasGwei p)))
  else Ok tt.

(** ** Data *)

Definition errMaxGasReached : error := ESentinel "max gas price reached, tx cancelled".
Definition errMaxAttemptsExhausted : error := ESentinel "max attempts exhausted".
Definition errNonceTooLow : error := ESentinel "nonce too low".
Definition errInsufficientFunds : error := ESentinel "insufficient funds".
Definition errBaseFeeExceedsMax_msg : string := "base fee exceeds max_fee_per_gas".
Definition errBaseFeeExceedsMax : error := ESentinel errBaseFeeExceedsMax_msg.

Definition receiptPollInterval : Z := 4 * Second.
Definition percentBase : Z := 100.
Definition blockNumberRetryLimit : Z := 3.
Definition minTipCap : Z := GWei.
Definition TxGas : Z := 21000.

Record TxOpts := mkOpts {
  To : bytes;
  Data : bytes;
  Value : option Z;
  GasLimit : Z;
  MEVProtected : bool;
}.

(** [types.DynamicFeeTx]. *)
Record DynamicFeeTx := mkTx {
  tx_ChainID : Z;
  Nonce : Z;
  GasTipCap : Z;
  GasFeeCap : Z;
  Gas : Z;
  tx_To : bytes;
  tx_Value : Z;
  tx_Data : bytes;
}.

(** A signed transaction: its payload, unchanged by signing, and its hash. *)
Record SignedTx := mkSigned {
  payload : DynamicFeeTx;
  tx_Hash : bytes;
}.

(** The fields of [types.Receipt] the program reads. *)
Record Receipt := mkReceipt {
  r_TxHash : bytes;
  r_Status : Z;
  r_BlockNumber : Z;
}.

Definition ReceiptStatusSuccessful : Z := 1.

(** [ethereum.CallMsg]. *)
Record CallMsg := mkCallMsg {
  call_From : bytes;
  call_To : bytes;
  call_Data : bytes;
  call_Value : option Z;
}.

(** ** Third-party code: the clients and the signer *)

Class TxClient (E : Type) := {
  EstimateGas : CallMsg → io E Z;
  SuggestGasTipCap : io E Z;
  (** [HeaderByNumber(ctx, nil)], its base fee. *)
  LatestBaseFee : io E Z;
  PendingNonceAt : bytes → io E Z;
  eth_SendTransaction : SignedTx → io E unit;
  (** [SendTransaction] of the MEV client dialled for an URL. *)
  mev_SendTransaction : string → SignedTx → io E unit;
  TransactionReceipt : bytes → io E Receipt;
  BlockNumber : io E Z;
  CallContract : CallMsg → Z → io E bytes;
  (** The signer: its address, and the hash of the signed transaction. *)
  Address : bytes;
  Sign : DynamicFeeTx → io E bytes;
  (** [ethclient.RevertErrorData] and [abi.UnpackRevert]. *)
  RevertErrorData : error → option bytes;
  UnpackRevert : bytes → option string;
}.

(** ** Error classification *)

Definition says (err : error) (pattern : string) : bool := contains (ToLower (Error err)) pattern.

Definition isTxAlreadyKnown (err : error) : bool := says err "already known".
Definition isNonceTooLow (err : error) : bool := says err "nonce too low".

Definition isInsufficientFunds (err : error) : bool :=
  says err "insufficient funds" || says err "insufficient balance".

Definition isUnderpriced (err : error) : bool :=
  says err "replacement transaction underpriced" ||
  says err "max fee per gas less than block base fee" || says err "underpriced".

(** [errors.As] with [*RevertError]: the reason and whether it was simulated. *)
Fixpoint IsRevertError (e : error) : option (string * bool) :=
  match e with
  | ERevert reason simulated _ => Some (reason, simulated)
  | EWrap _ e' => IsRevertError e'
  | EWrap2 a b => match IsRevertError a with Some r => Some r | None => IsRevertError b end
  | _ => None
  end.

Definition errPatternExecutionReverted : string := "execution reverted:".

(** The suffix of [s] after the first occurrence of [sub]. *)
Definition after (s sub : string) : option string :=
  match String.index 0 sub s with
  | Some i =>
      let n := (i + String.length sub)%nat in
      Some (String.substring n (String.length s - n) s)
  | None => None
  end.

Section manager.
Context {E : Type} `{!Runtime E, !TxClient E}.
Variable policy : TxPolicy.
Variable chainID : Z.
Variable mevClients : list string.
Variable errorSelectors : gmap string string.

Definition IsContractRevert (err : error) : bool :=
  match RevertErrorData err with
  | Some _ => true
  | None => says err errPatternExecutionReverted
  end.

(** A hex selector in the text of the reason. *)
Definition decodeErrorSelector (reason : string) : string :=
  if String.prefix "0x" reason && (10 <=? String.length reason)%nat then
    default reason (errorSelectors !! String.substring 2 8 reason)
  else reason.

Definition ExtractRevertReason (err : error) : string :=
  match RevertErrorData err with
  | Some (b :: bs as revertData) =>
      match UnpackRevert revertData with
      | Some reason => reason
      | None =>
          let raw := "0x" +:+ hex_encode revertData in
          if (4 <=? length revertData)%nat
          then default raw (errorSelectors !! hex_encode (take 4 revertData))
          else raw
      end
  | _ =>
      let errStr := Error err in
      match after errStr errPatternExecutionReverted with
      | Some part =>
          let reason := TrimSpace part in
          if bool_decide (reason = EmptyString) then errStr else decodeErrorSelector reason
      | None => errStr
      end
  end.

(** ** Gas *)

Definition call_msg (opts : TxOpts) : CallMsg := mkCallMsg Address (To opts) (Data opts) (Value opts).

(** The buffered estimate is uint64 arithmetic. *)
Definition estimateGas (opts : TxOpts) : io E Z :=
  if negb (GasLimit opts =? 0) then mret (GasLimit opts)
  else try_ (EstimateGas (call_msg opts)) (λ r,
    match r with
    | Err err =>
        if IsContractRevert err
        then fail (ERevert (ExtractRevertReason err) true "")
        else fail (EWrap "estimate gas" err)
    | Panic => lift Panic
    | Ok estimated =>
        mret (wrapU 64 (estimated * wrapU 64 (percentBase + GasBufferPercent policy)) / percentBase)
    end).

Definition errBaseFee (baseFee : Z) : error :=
  EWrap2 errBaseFeeExceedsMax (EText ("base fee " +:+ pretty baseFee +:+ " > max " +:+
    pretty (MaxFeePerGasWei policy))).

Definition suggestGasFees : io E (Z * Z) :=
  let maxFee := MaxFeePerGasWei policy in
  gasTipCap ← wrapM "get gas tip cap" SuggestGasTipCap;
  let gasTipCap := if gasTipCap <? minTipCap then minTipCap else gasTipCap in
  baseFee ← wrapM "get latest header" LatestBaseFee;
  if maxFee <? baseFee then fail (errBaseFee baseFee)
  else
    let gasFeeCap := baseFee * 2 + gasTipCap in
    if maxFee <? gasFeeCap then
      mret (if maxFee <? gasTipCap then maxFee else gasTipCap, maxFee)
    else mret (gasTipCap, gasFeeCap).

(** The machine sum of the percentages is taken not to wrap (a bump below 2^63 - 100 percent). *)
Definition applyBumpPercent (value : Z) : Z :=
  value * (percentBase + GasBumpPercent policy) / percentBase.

(** [None] is [shouldCancel]. *)
Definition bumpOrResuggest (currentTip currentFeeCap : Z) : io E (option (Z * Z)) :=
  let maxFee := MaxFeePerGasWei policy in
  let bumpedTip := applyBumpPercent currentTip in
  let bumpedFeeCap := applyBumpPercent currentFeeCap in
  if maxFee <? bumpedFeeCap then mret None
  else try_ suggestGasFees (λ r,
    match r with
    | Err err =>
        if errors_Is err errBaseFeeExceedsMax_msg then mret None
        else mret (Some (bumpedTip, bumpedFeeCap))
    | Panic => lift Panic
    | Ok (freshTip, freshFeeCap) =>
        mret (Some (if bumpedTip <? freshTip then freshTip else bumpedTip,
                    if bumpedFeeCap <? freshFeeCap then freshFeeCap else bumpedFeeCap))
    end).

(** ** Signing and sending *)

Definition sign (errText : string) (tx : DynamicFeeTx) : io E SignedTx :=
  hash ← wrapM errText (Sign tx);
  mret (mkSigned tx hash).

Definition buildAndSignTx (opts : TxOpts) (nonce gasLimit gasTipCap gasFeeCap value : Z)
    : io E SignedTx :=
  sign "sign tx" (mkTx chainID nonce gasTipCap gasFeeCap gasLimit (To opts) value (Data opts)).

(** The answers of the relays, one by one; how many took the transaction. *)
Fixpoint mev_loop (urls : list string) (tx : SignedTx) (successCount : Z) : io E Z :=
  match urls with
  | [] => mret successCount
  | url :: rest => try_ (mev_SendTransaction url tx) (λ r,
      match r with
      | Ok _ => mev_loop rest tx (successCount + 1)
      | Err err => mev_loop rest tx (if isTxAlreadyKnown err then successCount + 1 else successCount)
      | Panic => lift Panic
      end)
  end.

Definition sendToMEVRPCs (tx : SignedTx) : io E unit :=
  successCount ← mev_loop mevClients tx 0;
  if 0 <? successCount then mret tt else eth_SendTransaction tx.

(** ** Receipts *)

Definition errTimedOut (lastErr : error) : error :=
  EWrap ("timed out waiting for receipt after " +:+ pretty (PendingTimeoutBlocks policy) +:+
    " blocks") lastErr.

(** One tick of the poll per unit of fuel. *)
Fixpoint wait_loop (fuel : nat) (tx : SignedTx) (startBlock blockNumFailures : Z)
    : iof E Receipt :=
  match fuel with
  | O => λ _, None
  | S f =>
      _ ← run (sleep receiptPollInterval);
      tryf (run (TransactionReceipt (tx_Hash tx))) (λ r,
        match r with
        | Ok receipt => mret receipt
        | Panic => run (lift Panic)
        | Err lastErr => tryf (run BlockNumber) (λ b,
            match b with
            | Panic => run (lift Panic)
            | Err err =>
                let failures := blockNumFailures + 1 in
                if blockNumberRetryLimit <=? failures then failf (EWrap "get block number" err)
                else wait_loop f tx startBlock failures
            | Ok currentBlock =>
                if wrapU 64 (PendingTimeoutBlocks policy) <=? (currentBlock -u64 startBlock)
                then failf (errTimedOut lastErr)
                else wait_loop f tx startBlock 0
            end)
        end)
  end.

Definition waitForReceipt (fuel : nat) (tx : SignedTx) : iof E Receipt :=
  startBlock ← run (wrapM "get block number" BlockNumber);
  wait_loop fuel tx startBlock 0.

Definition replayForRevertReason (opts : TxOpts) (blockNum : Z) : io E string :=
  try_ (CallContract (call_msg opts) blockNum) (λ r,
    match r with
    | Ok _ => mret "unknown (call succeeded on replay)"
    | Err err => mret (ExtractRevertReason err)
    | Panic => lift Panic
    end).

(** A receipt, and the error returned with it when the transaction reverted. *)
Definition handleReceipt (opts : TxOpts) (tx : SignedTx) (receipt : Receipt)
    : io E (Receipt * option error) :=
  if r_Status receipt =? ReceiptStatusSuccessful then mret (receipt, None)
  else
    reason ← replayForRevertReason opts (r_BlockNumber receipt);
    mret (receipt, Some (ERevert reason false ("0x" +:+ hex_encode (tx_Hash tx)))).

Fixpoint findMinedReceipt (opts : TxOpts) (txs : list SignedTx)
    : io E (option (Receipt * option error)) :=
  match txs with
  | [] => mret None
  | tx :: rest => try_ (TransactionReceipt (tx_Hash tx)) (λ r,
      match r with
      | Err _ => findMinedReceipt opts rest
      | Panic => lift Panic
      | Ok receipt => out ← handleReceipt opts tx receipt; mret (Some out)
      end)
  end.

(** The fee cap of the cancelling transfer. *)
Definition cancelFeeCap (prevGasFeeCap : Z) : Z :=
  let gasFeeCap := applyBumpPercent prevGasFeeCap in
  if MaxFeePerGasWei policy <? gasFeeCap then MaxFeePerGasWei policy else gasFeeCap.

Definition cancelTx (fuel : nat) (nonce prevGasFeeCap : Z) : iof E unit :=
  let gasFeeCap := cancelFeeCap prevGasFeeCap in
  signedTx ← run (sign "sign cancel tx" (mkTx chainID nonce gasFeeCap gasFeeCap TxGas Address 0 []));
  _ ← run (wrapM "send cancel tx" (eth_SendTransaction signedTx));
  _ ← wrapf "cancel tx not confirmed" (waitForReceipt fuel signedTx);
  mret tt.

(** Try to free the nonce, then report [err]. *)
Definition cancel_and_fail {A} (fuel : nat) (nonce feeCap : Z) (err : error) : iof E A :=
  tryf (cancelTx fuel nonce feeCap) (λ r,
    match r with Panic => run (lift Panic) | _ => failf err end).

(** ** The attempts *)

(** [if ctx.Err() != nil { return ctx.Err() }]. *)
Definition unless_done {A} (k : iof E A) : iof E A := λ e,
  match ctx_Err e with Some err => failf err e | None => k e end.

Inductive send_class := Sent | NonceTooLow | NoFunds | Underpriced | OtherError.

(** The [switch] on the submission error, in its order. *)
Definition classify (sendErr : error) : send_class :=
  if isTxAlreadyKnown sendErr then Sent
  else if isNonceTooLow sendErr then NonceTooLow
  else if isInsufficientFunds sendErr then NoFunds
  else if isUnderpriced sendErr then Underpriced
  else OtherError.

(** The loop with [left] attempts to go; [published] are the transactions a node
    accepted so far. *)
Fixpoint attempts (left : nat) (fuel : nat) (opts : TxOpts) (nonce gasLimit value : Z)
    (currentTip currentFeeCap : Z) (mevProtected : bool) (published : list SignedTx)
    : iof E (Receipt * option error) :=
  match left with
  | O => cancel_and_fail fuel nonce currentFeeCap errMaxAttemptsExhausted
  | S left' =>
      let bump (k : Z → Z → iof E (Receipt * option error)) :=
        fees ← run (bumpOrResuggest currentTip currentFeeCap);
        match fees with
        | None => cancel_and_fail fuel nonce currentFeeCap errMaxGasReached
        | Some (newTip, newFeeCap) => k newTip newFeeCap
        end in
      signedTx ← run (buildAndSignTx opts nonce gasLimit currentTip currentFeeCap value);
      tryf (run (if mevProtected then sendToMEVRPCs signedTx else eth_SendTransaction signedTx))
        (λ sent,
        let wait :=
          let published' := published ++ [signedTx] in
          tryf (waitForReceipt fuel signedTx) (λ w,
            match w with
            | Ok receipt => run (handleReceipt opts signedTx receipt)
            | Panic => run (lift Panic)
            | Err _ => unless_done
                match left' with
                | O => cancel_and_fail fuel nonce currentFeeCap errMaxAttemptsExhausted
                | _ => bump (λ newTip newFeeCap,
                         attempts left' fuel opts nonce gasLimit value newTip newFeeCap false
                           published')
                end
            end) in
        match sent with
        | Ok _ => wait
        | Panic => run (lift Panic)
        | Err sendErr =>
            match classify sendErr with
            | Sent => wait
            | NonceTooLow =>
                found ← (if bool_decide (published = []) then mret None
                         else run (findMinedReceipt opts published));
                match found with
                | Some out => mret out
                | None => failf (EWrap2 errNonceTooLow sendErr)
                end
            | NoFunds => failf (EWrap2 errInsufficientFunds sendErr)
            | Underpriced => bump (λ newTip newFeeCap,
                attempts left' fuel opts nonce gasLimit value newTip newFeeCap mevProtected published)
            | OtherError =>
                match left' with
                | O => failf (EWrap "send tx" sendErr)
                | _ =>
                    _ ← run (sleep (RetryDelay policy));
                    attempts left' fuel opts nonce gasLimit value currentTip currentFeeCap
                      mevProtected published
                end
            end
        end)
  end.

(** [fuel] bounds the ticks of each wait. *)
Definition SendTransaction (fuel : nat) (opts : TxOpts) : iof E (Receipt * option error) :=
  gasLimit ← run (estimateGas opts);
  fees ← run suggestGasFees;
  nonce ← run (wrapM "get nonce" (PendingNonceAt Address));
  let mevProtected := MEVProtected opts && negb (bool_decide (mevClients = [])) in
  attempts (Z.to_nat (MaxAttempts policy)) fuel opts nonce gasLimit (default 0 (Value opts))
    fees.1 fees.2 mevProtected [].
End manager.

(** ** Specification *)

Section spec.
Context {E : Type} `{!Runtime E, !TxClient E}.
Variable policy : TxPolicy.
Variable chainID : Z.
Variable mevClients : list string.
Variable errorSelectors : gmap string string.

(** Fees the policy allows. *)
Definition fees_ok (tip feeCap : Z) : Prop :=
  0 <= tip <= feeCap ∧ feeCap <= MaxFeePerGasWei policy.

(** The call itself, at a nonce. *)
Definition is_call (opts : TxOpts) (nonce : Z) (tx : DynamicFeeTx) : Prop :=
  tx_ChainID tx = chainID ∧ Nonce tx = nonce ∧ fees_ok (GasTipCap tx) (GasFeeCap tx) ∧
  tx_To tx = To opts ∧ tx_Data tx = Data opts ∧ tx_Value tx = default 0 (Value opts).

(** The transfer to itself that frees a nonce. *)
Definition is_cancel (nonce : Z) (tx : DynamicFeeTx) : Prop :=
  tx_ChainID tx = chainID ∧ Nonce tx = nonce ∧ fees_ok (GasTipCap tx) (GasFeeCap tx) ∧
  tx_To tx = Address ∧ tx_Data tx = [] ∧ tx_Value tx = 0.

(** [R n] is kept by every call but the submissions, and by the submission of a
    transaction of nonce [n] that is the call or its cancellation. *)
Record observes (opts : TxOpts) (R : Z → relation E) : Prop := {
  obs_preorder n : PreOrder (R n);
  obs_sleep n d : moves_io (R n) (sleep d);
  obs_gas n m : moves_io (R n) (EstimateGas m);
  obs_tip n : moves_io (R n) SuggestGasTipCap;
  obs_fee n : moves_io (R n) LatestBaseFee;
  obs_nonce n a : moves_io (R n) (PendingNonceAt a);
  obs_receipt n h : moves_io (R n) (TransactionReceipt h);
  obs_block n : moves_io (R n) BlockNumber;
  obs_call n m b : moves_io (R n) (CallContract m b);
  obs_sign n tx : moves_io (R n) (Sign tx);
  obs_send n tx h : is_call opts n tx ∨ is_cancel n tx →
    moves_io (R n) (eth_SendTransaction (mkSigned tx h));
  obs_mev n url tx h : is_call opts n tx →
    moves_io (R n) (mev_SendTransaction url (mkSigned tx h));
}.

(** Base fees are not negative. *)
Definition fees_nonneg : Prop := ∀ e b e', LatestBaseFee e = (Ok b, e') → 0 <= b.

(** The environment's clock: waiting for the next poll moves it, no call of a wait
    moves it back.  A block number the node answers is the height at that time, and
    fits in its type; the node may also fail. *)
Record clocked (clock : E → nat) (height : nat → Z) : Prop := {
  clock_poll e : (clock e < clock (sleep receiptPollInterval e).2)%nat;
  clock_receipt h e : (clock e <= clock (TransactionReceipt h e).2)%nat;
  clock_block e : (clock e <= clock (BlockNumber e).2)%nat;
  height_block e b e' : BlockNumber e = (Ok b, e') → b = height (clock e') ∧ is_uint 64 b;
  height_mono t t' : (t <= t')%nat → height t <= height t';
}.

(** Every [N] ticks bring the blocks a wait lasts. *)
Definition progressing (height : nat → Z) (N : nat) : Prop :=
  ∀ t, height t + PendingTimeoutBlocks policy <= height (t + N)%nat.

(** A transaction the signer signed for the call. *)
Definition signed_call (opts : TxOpts) (nonce : Z) (tx : SignedTx) : Prop :=
  is_call opts nonce (payload tx) ∧ ∃ e1 e2, Sign (payload tx) e1 = (Ok (tx_Hash tx), e2).

(** A receipt a node gave for a transaction. *)
Definition receipt_of (tx : SignedTx) (receipt : Receipt) : Prop :=
  ∃ e1 e2, TransactionReceipt (tx_Hash tx) e1 = (Ok receipt, e2).

(** The rule nodes apply to a replacement at the same nonce, for a fee cap: 10% more. *)
Definition replaces (old new : Z) : Prop := old * 110 <= new * 100.

(** What a run of [SendTransaction] may return: a mined receipt of the call, with a
    revert error exactly when its status says so. *)
Definition mined (opts : TxOpts) (nonce : Z) (receipt : Receipt) (err : option error) : Prop :=
  (∃ tx, signed_call opts nonce tx ∧ receipt_of tx receipt) ∧
  match err with
  | None => r_Status receipt = ReceiptStatusSuccessful
  | Some x => r_Status receipt ≠ ReceiptStatusSuccessful ∧
      ∃ reason h, x = ERevert reason false h
  end.
End spec.

(** ** Lemmas: the policy and the fees *)

Lemma Validate_ok p :
  Validate p = Ok tt →
  0 <= GasBufferPercent p <= 100 ∧ 10 <= GasBumpPercent p ∧ 1 <= PendingTimeoutBlocks p ∧
  1 <= MaxAttempts p ∧ 0 <= RetryDelay p ∧ 1 <= MaxFeePerGasGwei p.
Proof. unfold Validate. repeat case_match; try done. lia. Qed.

Section fees.
Context {E : Type} `{!Runtime E, !TxClient E}.
Variable policy : TxPolicy.
Hypothesis Hpolicy : Validate policy = Ok tt.
Hypothesis Hfees : fees_nonneg (E:=E).

Lemma maxFee_ge_min : minTipCap <= MaxFeePerGasWei policy.
Proof.
  destruct (Validate_ok policy Hpolicy) as (_ & _ & _ & _ & _ & H).
  unfold minTipCap, MaxFeePerGasWei, GWei. lia.
Qed.

Lemma suggestGasFees_ok e tip cap e' :
  suggestGasFees policy e = (Ok (tip, cap), e') → fees_ok policy tip cap.
Proof.
  intros H. unfold suggestGasFees in H. inv_io. apply Hfees in E1.
  pose proof maxFee_ge_min as Hm. unfold minTipCap, GWei in *.
  destruct (Z.ltb_spec (MaxFeePerGasWei policy) r0); [done|]. unfold fees_ok.
  destruct (Z.ltb_spec (MaxFeePerGasWei policy)
    (r0 * 2 + (if r <? 10 ^ 9 then 10 ^ 9 else r))) as [Hc|Hc];
    apply Ok_pair_inj in H as [H _]; injection H as <- <-; repeat case_match; lia.
Qed.

Lemma applyBump_ge v : 0 <= v → v <= applyBumpPercent policy v.
Proof.
  destruct (Validate_ok policy Hpolicy) as (_ & H & _). intros Hv.
  unfold applyBumpPercent, percentBase. apply Z.div_le_lower_bound; nia.
Qed.

Lemma applyBump_mono a b : a <= b → applyBumpPercent policy a <= applyBumpPercent policy b.
Proof.
  destruct (Validate_ok policy Hpolicy) as (_ & H & _). intros Hab.
  unfold applyBumpPercent, percentBase. apply Z.div_le_mono; nia.
Qed.

Lemma bumpOrResuggest_ok tip cap e t c e' :
  fees_ok policy tip cap → bumpOrResuggest policy tip cap e = (Ok (Some (t, c)), e') →
  fees_ok policy t c ∧ applyBumpPercent policy tip <= t ∧ applyBumpPercent policy cap <= c.
Proof.
  intros [Hle Hmax] H. unfold bumpOrResuggest in H.
  destruct (Z.ltb_spec (MaxFeePerGasWei policy) (applyBumpPercent policy cap)); [done|].
  pose proof (applyBump_ge tip ltac:(lia)). pose proof (applyBump_mono tip cap ltac:(lia)).
  unfold try_ in H. destruct (suggestGasFees policy e) as [[[ft fc]|err|] e1] eqn:Es; [| |done].
  - apply suggestGasFees_ok in Es as [? ?]. apply Ok_pair_inj in H as [H _].
    injection H as <- <-. unfold fees_ok. repeat case_match; lia.
  - case_match; [done|]. apply Ok_pair_inj in H as [H _]. injection H as <- <-.
    unfold fees_ok. lia.
Qed.

Lemma cancelFeeCap_ok tip cap :
  fees_ok policy tip cap → fees_ok policy (cancelFeeCap policy cap) (cancelFeeCap policy cap).
Proof.
  intros [Hle Hmax]. unfold fees_ok, cancelFeeCap.
  pose proof (applyBump_ge cap ltac:(lia)). case_match; lia.
Qed.
End fees.

(** ** Lemmas: what is sent *)

Section sends.
Context {E : Type} `{!Runtime E, !TxClient E}.
Variable policy : TxPolicy.
Variable chainID : Z.
Variable mevClients : list string.
Variable errorSelectors : gmap string string.
Hypothesis Hpolicy : Validate policy = Ok tt.
Hypothesis Hfees : fees_nonneg (E:=E).
Variable opts : TxOpts.
Variable R : Z → relation E.
Hypothesis HR : observes policy chainID opts R.
Variable n : Z.

#[local] Instance R_preorder : PreOrder (R n) := obs_preorder _ _ _ _ HR n.

Lemma sleep_moves d : moves_io (R n) (sleep d).
Proof. apply (obs_sleep _ _ _ _ HR). Qed.

Lemma EstimateGas_moves m : moves_io (R n) (EstimateGas m).
Proof. apply (obs_gas _ _ _ _ HR). Qed.

Lemma tip_moves : moves_io (R n) SuggestGasTipCap.
Proof. apply (obs_tip _ _ _ _ HR). Qed.

Lemma baseFee_moves : moves_io (R n) LatestBaseFee.
Proof. apply (obs_fee _ _ _ _ HR). Qed.

Lemma PendingNonceAt_moves a : moves_io (R n) (PendingNonceAt a).
Proof. apply (obs_nonce _ _ _ _ HR). Qed.

Lemma TransactionReceipt_moves h : moves_io (R n) (TransactionReceipt h).
Proof. apply (obs_receipt _ _ _ _ HR). Qed.

Lemma BlockNumber_moves : moves_io (R n) BlockNumber.
Proof. apply (obs_block _ _ _ _ HR). Qed.

Lemma CallContract_moves m b : moves_io (R n) (CallContract m b).
Proof. apply (obs_call _ _ _ _ HR). Qed.

Lemma sign_moves t tx : moves_io (R n) (sign t tx).
Proof.
  unfold sign. movesf_step. apply (obs_sign _ _ _ _ HR).
Qed.

#[local] Hint Resolve sleep_moves EstimateGas_moves tip_moves baseFee_moves PendingNonceAt_moves
  TransactionReceipt_moves BlockNumber_moves CallContract_moves sign_moves : oracle.

Lemma estimateGas_moves : moves_io (R n) (estimateGas policy errorSelectors opts).
Proof. unfold estimateGas. movesf_step; auto with oracle. Qed.

Lemma suggestGasFees_moves : moves_io (R n) (suggestGasFees policy).
Proof. unfold suggestGasFees. movesf_step; auto with oracle. Qed.

Lemma bumpOrResuggest_moves tip cap : moves_io (R n) (bumpOrResuggest policy tip cap).
Proof.
  pose proof suggestGasFees_moves. unfold bumpOrResuggest. movesf_step; auto with oracle.
Qed.

Lemma handleReceipt_moves tx receipt :
  moves_io (R n) (handleReceipt errorSelectors opts tx receipt).
Proof.
  unfold handleReceipt, replayForRevertReason. movesf_step; auto with oracle.
Qed.

Lemma findMinedReceipt_moves txs : moves_io (R n) (findMinedReceipt errorSelectors opts txs).
Proof.
  pose proof handleReceipt_moves. induction txs; cbn [findMinedReceipt];
    movesf_step; auto with oracle.
Qed.

Lemma wait_loop_moves fuel tx start k : movesf (R n) (wait_loop policy fuel tx start k).
Proof.
  revert k. induction fuel as [|f IH]; intros k; [by intros s r s'|]. cbn [wait_loop].
  movesf_step; auto with oracle.
Qed.

Lemma waitForReceipt_moves fuel tx : movesf (R n) (waitForReceipt policy fuel tx).
Proof.
  pose proof wait_loop_moves. unfold waitForReceipt. movesf_step; auto with oracle.
Qed.

Lemma sign_payload t tx e s e' : sign t tx e = (Ok s, e') → payload s = tx.
Proof. intros H. unfold sign in H. by inv_io. Qed.

(** Signing and going on with the signed transaction. *)
Lemma movesf_signed {B} t tx (k : SignedTx → iof E B) :
  (∀ h, movesf (R n) (k (mkSigned tx h))) →
  movesf (R n) (signedTx ← run (sign t tx); k signedTx).
Proof.
  intros Hk. eapply movesf_bind_ok with (P := λ s, payload s = tx);
    [apply _|apply movesf_run, sign_moves| |].
  - intros e s e' H. unfold run in H. apply Some_inj in H. by eapply sign_payload.
  - intros [tx' h] Htx. cbn in Htx. subst. apply Hk.
Qed.

Lemma cancelTx_moves fuel tip cap :
  fees_ok policy tip cap → movesf (R n) (cancelTx policy chainID fuel n cap).
Proof.
  intros Hf. pose proof waitForReceipt_moves. apply movesf_signed. intros h.
  movesf_step; auto. apply (obs_send _ _ _ _ HR). right.
  repeat split; try apply (cancelFeeCap_ok policy Hpolicy _ _ Hf); done.
Qed.

Lemma cancel_and_fail_moves {A} fuel tip cap err :
  fees_ok policy tip cap → movesf (R n) (@cancel_and_fail E _ _ policy chainID A fuel n cap err).
Proof.
  intros Hf. pose proof (cancelTx_moves fuel _ _ Hf). unfold cancel_and_fail.
  movesf_step; auto.
Qed.

Lemma mev_loop_moves urls tx h k :
  is_call policy chainID opts n tx → moves_io (R n) (mev_loop urls (mkSigned tx h) k).
Proof.
  intros Hc. revert k. induction urls as [|url urls IH]; intros k; cbn [mev_loop];
    movesf_step; auto. by apply (obs_mev _ _ _ _ HR).
Qed.

Lemma submit_moves (mev : bool) tx h :
  is_call policy chainID opts n tx →
  moves_io (R n) (if mev then sendToMEVRPCs mevClients (mkSigned tx h)
                  else eth_SendTransaction (mkSigned tx h)).
Proof.
  intros Hc. unfold sendToMEVRPCs. movesf_step;
    first [by apply mev_loop_moves | apply (obs_send _ _ _ _ HR); by left].
Qed.

Lemma unless_done_moves {A} (k : iof E A) : movesf (R n) k → movesf (R n) (unless_done k).
Proof.
  intros Hk e r e'. unfold unless_done. case_match; [|apply Hk]. by intros [= _ <-].
Qed.

Lemma bump_moves {B} tip cap (none : iof E B) (k : Z → Z → iof E B) :
  fees_ok policy tip cap → movesf (R n) none →
  (∀ t c, fees_ok policy t c → movesf (R n) (k t c)) →
  movesf (R n) (fees ← run (bumpOrResuggest policy tip cap);
    match fees with None => none | Some (t, c) => k t c end).
Proof.
  intros Hf Hnone Hk.
  eapply movesf_bind_ok with (P := λ o, ∀ t c, o = Some (t, c) → fees_ok policy t c);
    [apply _|apply movesf_run, bumpOrResuggest_moves| |].
  - intros e o e' H t c ->. unfold run in H. apply Some_inj in H.
    by eapply bumpOrResuggest_ok in H as [? _].
  - intros [[t c]|] Ho; [|done]. by apply Hk, Ho.
Qed.

Lemma attempts_moves left fuel gasLimit tip cap mev published :
  fees_ok policy tip cap →
  movesf (R n) (attempts policy chainID mevClients errorSelectors left fuel opts n gasLimit
    (default 0 (Value opts)) tip cap mev published).
Proof.
  revert tip cap mev published. induction left as [|left IH]; intros tip cap mev published Hf;
    [by eapply cancel_and_fail_moves|].
  pose proof (λ A err, @cancel_and_fail_moves A fuel _ _ err Hf) as Hcancel.
  cbn [attempts]. apply movesf_signed. intros h.
  apply movesf_tryf; [apply _|by apply movesf_run, submit_moves; repeat split; apply Hf|].
  intros sent. set (wait := tryf (waitForReceipt _ _ _) _).
  assert (movesf (R n) wait) as Hwait.
  { apply movesf_tryf; [apply _|apply waitForReceipt_moves|]. intros [receipt|err|];
      [apply movesf_run, handleReceipt_moves| |by movesf_step].
    apply unless_done_moves. destruct left; [apply Hcancel|]. by apply bump_moves; auto. }
  clearbody wait. destruct sent as [[]|err|]; [done| |by movesf_step].
  destruct (classify err); [done| | |by apply bump_moves; auto|].
  - pose proof findMinedReceipt_moves. movesf_step; auto.
  - by movesf_step.
  - destruct left; movesf_step; auto with oracle.
Qed.
End sends.

(** ** Lemmas: how long it waits *)

Section waits.
Context {E : Type} `{!Runtime E, !TxClient E}.
Variable policy : TxPolicy.
Hypothesis Hpolicy : Validate policy = Ok tt.
Variables (clock : E → nat) (height : nat → Z).
Hypothesis Hclock : clocked clock height.
Variable N : nat.
Hypothesis Hprogress : progressing policy height N.

(** Past the deadline the blocks seen are enough; the difference does not wrap. *)
Lemma timed_out t0 t :
  (t0 + N <= t)%nat → is_uint 64 (height t0) → is_uint 64 (height t) →
  wrapU 64 (PendingTimeoutBlocks policy) <= wrapU 64 (height t - height t0).
Proof.
  intros Ht H0 H1. destruct (Validate_ok policy Hpolicy) as (_ & _ & HP & _).
  pose proof (Hprogress t0) as Hp. pose proof (height_mono _ _ Hclock _ _ Ht).
  unfold is_uint in *. rewrite !wrapU_small; lia.
Qed.

(** Before the deadline every tick brings it nearer; after it only three failing
    calls are left. *)
Lemma wait_loop_total fuel tx t0 k e :
  is_uint 64 (height t0) → 0 <= k < blockNumberRetryLimit →
  (clock e < t0 + N)%nat ∧ (t0 + N + 3 <= clock e + fuel)%nat ∨
    (t0 + N <= clock e)%nat ∧ 3 - k <= Z.of_nat fuel →
  is_Some (wait_loop policy fuel tx (height t0) k e).
Proof.
  intros H0. revert k e. induction fuel as [|f IH]; intros k e Hk Hfuel;
    unfold blockNumberRetryLimit in *; [lia|].
  cbn [wait_loop]. pose proof (clock_poll _ _ Hclock e) as H1.
  unfold mbind, iof_bind, run at 1. destruct (sleep receiptPollInterval e) as [[[]|x|] e1];
    [|by eexists..]. unfold tryf at 1, run at 1.
  pose proof (clock_receipt _ _ Hclock (tx_Hash tx) e1) as H2.
  destruct (TransactionReceipt (tx_Hash tx) e1) as [[receipt|lastErr|] e2]; [by eexists| |by eexists].
  unfold tryf, run. pose proof (clock_block _ _ Hclock e2) as H3.
  destruct (BlockNumber e2) as [[b|x|] e3] eqn:Eb; cbn [snd] in *; [| |by eexists].
  - apply (height_block _ _ Hclock) in Eb as [-> Hb].
    case_match eqn:Hlt; [by eexists|]. apply Z.leb_gt in Hlt. apply IH; [done|].
    destruct (decide (t0 + N <= clock e3)%nat) as [Hd|]; [|lia].
    pose proof (timed_out t0 (clock e3) Hd H0 Hb). lia.
  - unfold blockNumberRetryLimit. destruct (Z.leb_spec 3 (k + 1)); [by eexists|].
    apply IH; lia.
Qed.

Lemma waitForReceipt_total fuel tx e :
  (N + 3 <= fuel)%nat → is_Some (waitForReceipt policy fuel tx e).
Proof.
  intros Hfuel. unfold waitForReceipt, mbind, iof_bind, run, wrapM.
  destruct (BlockNumber e) as [[b|x|] e1] eqn:Eb; cbn; [|by eexists..].
  apply (height_block _ _ Hclock) in Eb as [-> Hb].
  apply wait_loop_total; unfold blockNumberRetryLimit; [done|lia|lia].
Qed.

Definition total {A} (m : iof E A) : Prop := ∀ e, is_Some (m e).

Lemma total_bind {A B} (m : iof E A) (k : A → iof E B) :
  total m → (∀ a, total (k a)) → total (m ≫= k).
Proof.
  intros Hm Hk e. destruct (Hm e) as [[r e1] Hr]. unfold mbind, iof_bind. rewrite Hr.
  destruct r; [apply Hk|by eexists..].
Qed.

Lemma total_tryf {A B} (m : iof E A) (k : result A → iof E B) :
  total m → (∀ r, total (k r)) → total (tryf m k).
Proof.
  intros Hm Hk e. destruct (Hm e) as [[r e1] Hr]. unfold tryf. rewrite Hr. apply Hk.
Qed.

Lemma total_run {A} (m : io E A) : total (run m).
Proof. by eexists. Qed.

Lemma total_ret {A} (a : A) : total (mret a).
Proof. by eexists. Qed.

Lemma total_failf {A} err : total (@failf E A err).
Proof. by eexists. Qed.

Lemma cancel_and_fail_total {A} chainID fuel n cap err :
  (N + 3 <= fuel)%nat → total (@cancel_and_fail E _ _ policy chainID A fuel n cap err).
Proof.
  intros Hfuel. apply total_tryf; [|intros []; apply total_run || apply total_failf].
  apply total_bind; [apply total_run|intros tx].
  apply total_bind; [apply total_run|intros ?].
  apply total_bind; [|intros; apply total_ret].
  intros e. unfold wrapf. by destruct (waitForReceipt_total fuel tx e Hfuel) as [[] ->].
Qed.

Lemma attempts_total chainID mev_clients selectors opts left fuel n gas v tip cap mev published :
  (N + 3 <= fuel)%nat →
  total (attempts policy chainID mev_clients selectors left fuel opts n gas v tip cap mev published).
Proof.
  intros Hfuel. pose proof (λ A, @cancel_and_fail_total A chainID fuel n) as Hcancel.
  pose proof (λ tx e, waitForReceipt_total fuel tx e Hfuel) as Hwait.
  revert tip cap mev published. induction left as [|left IH]; intros; cbn [attempts]; [by auto|].
  assert (∀ k : Z → Z → iof E (Receipt * option error), (∀ t c, total (k t c)) → total (
    fees ← run (bumpOrResuggest policy tip cap);
    match fees with
    | None => cancel_and_fail policy chainID fuel n cap errMaxGasReached
    | Some (t, c) => k t c
    end)) as Hbump.
  { intros k Hk. apply total_bind; [apply total_run|]. intros [[]|]; by auto. }
  apply total_bind; [apply total_run|intros tx]. apply total_tryf; [apply total_run|].
  intros sent. set (wait := tryf (waitForReceipt _ _ _) _).
  assert (total wait) as Hw.
  { apply total_tryf; [intros ?; apply Hwait|]. intros [receipt|err|]; [apply total_run| |apply total_run].
    intros e. unfold unless_done. case_match; [by eexists|].
    destruct left; [by apply Hcancel|by apply Hbump]. }
  clearbody wait. destruct sent as [[]|err|]; [done| |apply total_run].
  destruct (classify err); [done| |by eexists|by apply Hbump|].
  - apply total_bind; [case_match; apply total_ret || apply total_run|].
    intros [|]; [apply total_ret|apply total_failf].
  - destruct left; [apply total_failf|]. apply total_bind; [apply total_run|auto].
Qed.
End waits.

(** ** Lemmas: what it returns *)

(** Every value code with fuel returns satisfies [Q]. *)
Definition yields {E A} (Q : A → Prop) (m : iof E A) : Prop :=
  ∀ e a e', m e = Some (Ok a, e') → Q a.

Section returns.
Context {E : Type} `{!Runtime E, !TxClient E}.
Variable policy : TxPolicy.
Variable chainID : Z.
Variable mevClients : list string.
Variable errorSelectors : gmap string string.

Lemma yields_bind {A B} (P : A → Prop) (Q : B → Prop) (m : iof E A) k :
  yields P m → (∀ a, P a → yields Q (k a)) → yields Q (m ≫= k).
Proof.
  intros Hm Hk e b e'. unfold mbind, iof_bind.
  destruct (m e) as [[[a|x|] e1]|] eqn:Em; [|done..]. apply Hk. by eapply Hm.
Qed.

Lemma yields_any {A B} (Q : B → Prop) (m : iof E A) k :
  (∀ a, yields Q (k a)) → yields Q (m ≫= k).
Proof. intros Hk. apply (yields_bind (λ _, True)); [by intros ???|auto]. Qed.

Lemma yields_tryf {A B} (P : A → Prop) (Q : B → Prop) (m : iof E A) k :
  yields P m → (∀ a, P a → yields Q (k (Ok a))) → (∀ x, yields Q (k (Err x))) →
  yields Q (k Panic) → yields Q (tryf m k).
Proof.
  intros Hm Hok Herr Hp e b e'. unfold tryf.
  destruct (m e) as [[[a|x|] e1]|] eqn:Em; [|apply Herr|apply Hp|done]. apply Hok. by eapply Hm.
Qed.

Lemma yields_failf {A} (Q : A → Prop) x : yields Q (@failf E A x).
Proof. by intros ???. Qed.

Lemma yields_panic {A} (Q : A → Prop) : yields Q (@run E A (lift Panic)).
Proof. by intros ???. Qed.

Lemma yields_unless {A} (Q : A → Prop) (k : iof E A) : yields Q k → yields Q (unless_done k).
Proof. intros Hk e a e'. unfold unless_done. case_match; [done|apply Hk]. Qed.

Lemma yields_cancel {A} (Q : A → Prop) fuel n cap err :
  yields Q (@cancel_and_fail E _ _ policy chainID A fuel n cap err).
Proof.
  apply (yields_tryf (λ _, True)); [by intros ???|intros; apply yields_failf..|apply yields_panic].
Qed.

Lemma yields_bump {B} (Q : B → Prop) n fuel tip cap err k :
  (∀ t c, fees_ok policy t c → yields Q (k t c)) →
  Validate policy = Ok tt → fees_nonneg (E:=E) → fees_ok policy tip cap →
  yields Q (fees ← run (bumpOrResuggest policy tip cap);
    match fees with
    | None => cancel_and_fail policy chainID fuel n cap err
    | Some (t, c) => k t c
    end).
Proof.
  intros Hk Hp Hn Hf. apply (yields_bind (λ o, ∀ t c, o = Some (t, c) → fees_ok policy t c)).
  - intros e o e' H t c ->. unfold run in H. apply Some_inj in H.
    by eapply bumpOrResuggest_ok in H as [? _].
  - intros [[t c]|] Ho; [by apply Hk, Ho|apply yields_cancel].
Qed.

Lemma wait_loop_yields fuel tx start k :
  yields (receipt_of tx) (wait_loop policy fuel tx start k).
Proof.
  revert k. induction fuel as [|f IH]; intros k; [by intros ???|]. cbn [wait_loop].
  apply yields_any. intros _. apply (yields_tryf (receipt_of tx)); [| | |apply yields_panic].
  - intros e r e' H. unfold run in H. apply Some_inj in H. by exists e, e'.
  - intros r Hr e ? e' [= <- _]. done.
  - intros x. apply (yields_tryf (λ _, True)); [by intros ???| | |apply yields_panic];
      intros; case_match; first [apply yields_failf|apply IH].
Qed.

Variable opts : TxOpts.
Variable n : Z.

(** The promise, as a condition on what is returned. *)
Definition mined_out (out : Receipt * option error) : Prop :=
  mined policy chainID opts n out.1 out.2.

Lemma handleReceipt_yields tx receipt e out e' :
  signed_call policy chainID opts n tx → receipt_of tx receipt →
  handleReceipt errorSelectors opts tx receipt e = (Ok out, e') → mined_out out.
Proof.
  intros Ht Hr H. unfold handleReceipt in H. unfold mined_out, mined.
  destruct (Z.eqb_spec (r_Status receipt) ReceiptStatusSuccessful) as [Hs|Hs].
  - inv_io. cbn. eauto.
  - inv_io. cbn. split; [by eauto|]. eauto.
Qed.

Lemma findMinedReceipt_yields txs e out e' :
  Forall (signed_call policy chainID opts n) txs →
  findMinedReceipt errorSelectors opts txs e = (Ok (Some out), e') → mined_out out.
Proof.
  intros Htxs. revert e. induction Htxs as [|tx txs Ht Htxs IH]; intros e; cbn; [done|].
  unfold try_. destruct (TransactionReceipt _ e) as [[receipt|x|] e1] eqn:Er; [|apply IH|done].
  intros H. inv_io. eapply handleReceipt_yields; [done|by exists e, e1|done].
Qed.

Lemma attempts_yields left fuel gas tip cap mev published :
  Validate policy = Ok tt → fees_nonneg (E:=E) → fees_ok policy tip cap →
  Forall (signed_call policy chainID opts n) published →
  yields mined_out (attempts policy chainID mevClients errorSelectors left fuel opts n gas
    (default 0 (Value opts)) tip cap mev published).
Proof.
  intros Hp Hn. revert tip cap mev published.
  induction left as [|left IH]; intros tip cap mev published Hf Hpub; [apply yields_cancel|].
  cbn [attempts]. apply (yields_bind (signed_call policy chainID opts n)).
  { intros e tx e' H. unfold run in H. apply Some_inj in H. unfold buildAndSignTx, sign in H. inv_io.
    split; [by repeat split; apply Hf|by eauto]. }
  intros tx Htx. set (wait := tryf (waitForReceipt _ _ _) _).
  assert (yields mined_out wait) as Hwait.
  { assert (Forall (signed_call policy chainID opts n) (published ++ [tx])) as Hpub'
      by (apply Forall_app; auto).
    apply (yields_tryf (receipt_of tx)); [| | |apply yields_panic].
    - apply yields_any. intros start. apply wait_loop_yields.
    - intros receipt Hr e out e' H. unfold run in H. apply Some_inj in H.
      by eapply handleReceipt_yields.
    - intros x. apply yields_unless. destruct left; [apply yields_cancel|]. apply yields_bump; auto. }
  clearbody wait. apply (yields_tryf (λ _, True)); [by intros ???|done| |apply yields_panic].
  intros err. destruct (classify err); [done| |apply yields_failf|apply yields_bump; auto|].
  - apply (yields_bind (λ o, ∀ out, o = Some out → mined_out out)).
    + intros e o e' H out ->. case_bool_decide; [done|]. unfold run in H.
      apply Some_inj in H. by eapply findMinedReceipt_yields.
    + intros [out|] Ho; [|apply yields_failf]. intros e ? e' [= <- _]. by apply Ho.
  - destruct left; [apply yields_failf|]. apply yields_any. intros _. by apply IH.
Qed.
End returns.

(** ** Properties *)

Section properties.
Context {E : Type} `{!Runtime E, !TxClient E}.
Variable policy : TxPolicy.
Variable chainID : Z.
Variable mevClients : list string.
Variable errorSelectors : gmap string string.
Hypothesis Hpolicy : Validate policy = Ok tt.

(** Stated for clients of the transaction manager too. *)
Lemma SendTransaction_moves (opts : TxOpts) (R : Z → relation E) fuel e r e' :
  fees_nonneg (E:=E) → observes policy chainID opts R →
  SendTransaction policy chainID mevClients errorSelectors fuel opts e = Some (r, e') →
  (∀ n, R n e e') ∨ ∃ n e1 e2, PendingNonceAt Address e1 = (Ok n, e2) ∧ R n e e'.
Proof.
  intros Hfees HR H. pose proof (λ n, obs_preorder _ _ _ _ HR n) as HP.
  unfold SendTransaction, mbind, iof_bind, run in H.
  assert (∀ n, R n e (estimateGas policy errorSelectors opts e).2) as H1
    by (intros n; by eapply estimateGas_moves).
  destruct (estimateGas policy errorSelectors opts e) as [[gas|x|] e1]; cbn in H1;
    [|injection H as <- <-; by left..].
  assert (∀ n, R n e (suggestGasFees policy e1).2) as H2
    by (intros n; etrans; [by apply H1|by eapply suggestGasFees_moves]).
  destruct (suggestGasFees policy e1) as [[[tip cap]|x|] e2] eqn:Es; cbn in H2;
    [|injection H as <- <-; by left..].
  assert (∀ n, R n e (wrapM "get nonce" (PendingNonceAt Address) e2).2) as H3
    by (intros n; etrans; [by apply H2|by eapply moves_io_wrapM, obs_nonce]).
  destruct (wrapM "get nonce" (PendingNonceAt Address) e2) as [[n|x|] e3] eqn:En; cbn in H3;
    [|injection H as <- <-; by left..].
  right. exists n, e2, e3. apply wrapM_Ok in En. split; [done|]. etrans; [by apply H3|].
  eapply attempts_moves; [done|done|done|by eapply suggestGasFees_ok|exact H].
Qed.

(** It ends, stated for its callers too. *)
Lemma SendTransaction_ends (opts : TxOpts) (clock : E → nat) (height : nat → Z) N fuel e :
  clocked clock height → progressing policy height N → (N + 3 <= fuel)%nat →
  is_Some (SendTransaction policy chainID mevClients errorSelectors fuel opts e).
Proof.
  intros Hc Hp Hfuel. unfold SendTransaction.
  apply total_bind; [apply total_run|intros gas].
  apply total_bind; [apply total_run|intros fees].
  apply total_bind; [apply total_run|intros nonce]. by eapply attempts_total.
Qed.

(** The receipt it returns, stated for clients too. *)
Lemma SendTransaction_receipt (opts : TxOpts) fuel e receipt err e' :
  fees_nonneg (E:=E) →
  SendTransaction policy chainID mevClients errorSelectors fuel opts e =
    Some (Ok (receipt, err), e') →
  ∃ nonce, mined policy chainID opts nonce receipt err.
Proof.
  intros Hfees H. unfold SendTransaction, mbind, iof_bind, run in H.
  destruct (estimateGas policy errorSelectors opts e) as [[gas|x|] e1]; [|done..].
  destruct (suggestGasFees policy e1) as [[[tip cap]|x|] e2] eqn:Es; [|done..].
  destruct (wrapM "get nonce" (PendingNonceAt Address) e2) as [[n|x|] e3]; [|done..].
  exists n. eapply (attempts_yields _ _ _ _ opts n) in H; [exact H|done|done| |constructor].
  by eapply suggestGasFees_ok.
Qed.

(** C10: the only transactions [SendTransaction] submits, to the node or to a relay, are
    the call and its cancelling self-transfer, all at one nonce, the pending one, and with
    [0 <= tip <= fee cap <= max_fee_per_gas]; relays only ever get the call.  Before the
    nonce is known nothing is submitted.  [R n] is any relation between environments that
    such submissions and the other calls keep. *)
Theorem SendTransaction_sends (opts : TxOpts) (R : Z → relation E) fuel e r e' :
  fees_nonneg (E:=E) → observes policy chainID opts R →
  SendTransaction policy chainID mevClients errorSelectors fuel opts e = Some (r, e') →
  (∀ n, R n e e') ∨ ∃ n e1 e2, PendingNonceAt Address e1 = (Ok n, e2) ∧ R n e e'.
Proof. apply SendTransaction_moves. Qed.

(** C33: when [SendTransaction] returns a receipt, a node gave it for a transaction the
    signer signed for this call, within the policy's fees; the error that comes with it is
    nil exactly when the receipt's status is successful, and a revert error otherwise. *)
Theorem SendTransaction_mined (opts : TxOpts) fuel e receipt err e' :
  fees_nonneg (E:=E) →
  SendTransaction policy chainID mevClients errorSelectors fuel opts e =
    Some (Ok (receipt, err), e') →
  ∃ nonce, mined policy chainID opts nonce receipt err.
Proof. apply SendTransaction_receipt. Qed.

(** [SendTransaction] ends: when every [N] polls bring the blocks a wait lasts, fuel
    for [N + 3] polls per wait is enough, whatever the node, the relays and the signer
    answer to the other calls. *)
Theorem SendTransaction_total (opts : TxOpts) (clock : E → nat) (height : nat → Z) N fuel e :
  clocked clock height → progressing policy height N → (N + 3 <= fuel)%nat →
  is_Some (SendTransaction policy chainID mevClients errorSelectors fuel opts e).
Proof. apply SendTransaction_ends. Qed.

(** C34: when the configured bump of the fee cap would exceed [max_fee_per_gas], the
    transaction is given up without asking the node, and the cancellation sent at the same
    nonce has exactly the maximum as its fee cap.  So it can replace the pending transaction,
    whose fee cap nodes ask to be exceeded by 10%, only when 110% of that is still within the
    maximum: never with the default bump of 10% (for which the maximum was exceeded), and with
    a larger bump only below that. *)
Theorem cancel_not_replacing tip cap e :
  MaxFeePerGasWei policy < applyBumpPercent policy cap →
  bumpOrResuggest policy tip cap e = (Ok None, e) ∧
  cancelFeeCap policy cap = MaxFeePerGasWei policy ∧
  (replaces cap (cancelFeeCap policy cap) ↔ 11 * cap <= 10 * MaxFeePerGasWei policy) ∧
  (GasBumpPercent policy = 10 → ¬ replaces cap (cancelFeeCap policy cap)).
Proof.
  intros Hmax. unfold bumpOrResuggest, cancelFeeCap, replaces.
  apply Z.ltb_lt in Hmax as Hb. rewrite Hb. split; [done|]. split; [done|]. split; [lia|].
  intros H10. unfold applyBumpPercent, percentBase in Hmax. rewrite H10 in Hmax.
  pose proof (Z.mul_div_le (cap * (100 + 10)) 100 ltac:(lia)). lia.
Qed.

(** A wait gives up at its first poll when the node then answers a height below the
    one it answered at the start (as nodes behind a load balancer do): the uint64
    difference wraps and passes every timeout. *)
Theorem wait_behind_times_out f tx start k e e1 lastErr e2 b e3 :
  sleep receiptPollInterval e = (Ok tt, e1) →
  TransactionReceipt (tx_Hash tx) e1 = (Err lastErr, e2) →
  BlockNumber e2 = (Ok b, e3) →
  0 <= b < start → start < 2 ^ 64 → PendingTimeoutBlocks policy <= 2 ^ 64 - (start - b) →
  wait_loop policy (S f) tx start k e = Some (Err (errTimedOut policy lastErr), e3).
Proof.
  intros Hs Hr Hb Hlt Hst HP. cbn [wait_loop]. unfold mbind, iof_bind, run, tryf.
  rewrite Hs, Hr, Hb. destruct (Validate_ok policy Hpolicy) as (_ & _ & HP1 & _).
  assert ((wrapU 64 (PendingTimeoutBlocks policy) <=? wrapU 64 (b - start)) = true) as ->; [|done].
  apply Z.leb_le. rewrite (wrapU_small 64 (PendingTimeoutBlocks policy)) by lia.
  unfold wrapU. rewrite <- (Z.mod_add (b - start) 1) by lia. rewrite Z.mod_small; lia.
Qed.
End properties.

(** ** Witnesses *)

Section witnesses.

(** Polls so far and transactions taken. *)
Record toy := mkToy { ticks : nat; taken : list SignedTx }.

Definition toy_height (t : nat) : Z := 100 + Z.of_nat t.

#[local] Instance toy_runtime : Runtime toy := {|
  Int63n := λ _ e, (0, e);
  sleep := λ _ e, (Ok tt, mkToy (S (ticks e)) (taken e));
  ctx_Err := λ _, None;
|}.

(** A node that mines what it has after three polls. *)
#[local] Instance toy_client : TxClient toy := {|
  EstimateGas := λ _, mret 100000;
  SuggestGasTipCap := mret GWei;
  LatestBaseFee := mret (5 * GWei);
  PendingNonceAt := λ _, mret 7;
  eth_SendTransaction := λ tx e, (Ok tt, mkToy (ticks e) (taken e ++ [tx]));
  mev_SendTransaction := λ _ _, fail (EText "offline");
  TransactionReceipt := λ h e,
    if existsb (λ tx, bool_decide (tx_Hash tx = h)) (taken e) && (3 <=? ticks e)%nat
    then (Ok (mkReceipt h 1 103), e) else (Err (EText "not found"), e);
  BlockNumber := λ e,
    let b := toy_height (ticks e) in if b <? 2 ^ 64 then (Ok b, e) else (Err (EText "end"), e);
  CallContract := λ _ _, mret [];
  Address := replicate 20 x01;
  Sign := λ tx, mret [byte_of_Z (Nonce tx); byte_of_Z (GasTipCap tx / GWei)];
  RevertErrorData := λ _, None;
  UnpackRevert := λ _, None;
|}.

Definition toy_policy : TxPolicy := ApplyDefaults (mkPolicy 0 0 0 0 0 0).

Definition toy_opts : TxOpts := mkOpts (replicate 20 x02) [x0a; x0b] None 0 true.

(** What was taken since, at nonce [n]. *)
Definition toy_R (opts : TxOpts) (n : Z) : relation toy := λ e e', ∃ txs, taken e' = taken e ++ txs ∧
  Forall (λ tx, is_call toy_policy 1 opts n (payload tx) ∨
                is_cancel toy_policy 1 n (payload tx)) txs.

Lemma toy_R_refl opts n e e' : taken e' = taken e → toy_R opts n e e'.
Proof. intros H. exists []. by rewrite app_nil_r. Qed.

Lemma toy_observes opts : observes toy_policy 1 opts (toy_R opts).
Proof.
  split; intros; try (intros e; by apply toy_R_refl).
  - split; [intros e; by apply toy_R_refl|].
    intros a b c (l & H1 & F1) (k & H2 & F2). exists (l ++ k).
    rewrite H2, H1, app_assoc. split; [done|]. by apply Forall_app.
  - intros e. apply toy_R_refl. unfold TransactionReceipt, toy_client. by case_match.
  - intros e. apply toy_R_refl. unfold BlockNumber, toy_client. cbv zeta. by case_match.
  - intros e. exists [mkSigned tx h]. split; [done|]. by constructor.
Qed.

Lemma toy_fees : fees_nonneg (E:=toy).
Proof. intros e b e' [= <- _]. done. Qed.

Lemma toy_clocked : clocked ticks toy_height.
Proof.
  split; [intros e; cbn; lia|intros h e|intros e|intros e b e' H|unfold toy_height; lia].
  - unfold TransactionReceipt, toy_client. case_match; cbn; lia.
  - unfold BlockNumber, toy_client. cbv zeta. case_match; cbn; lia.
  - unfold BlockNumber, toy_client in H. cbv zeta in H.
    destruct (Z.ltb_spec (toy_height (ticks e)) (2 ^ 64)); [|done].
    apply Ok_pair_inj in H as [<- <-]. unfold is_uint, toy_height in *. lia.
Qed.

Lemma toy_progressing : progressing toy_policy toy_height 10.
Proof.
  intros t. change (PendingTimeoutBlocks toy_policy) with 10. unfold toy_height. lia.
Qed.

Definition toy_run := SendTransaction toy_policy 1 ["relay"] ∅ 13 toy_opts (mkToy 0 []).

Definition toy_receipt : Receipt := mkReceipt [x07; x01] 1 103.

(** The call is taken, and mined at the third poll. *)
Example toy_run_value : ∃ tx, toy_run = Some (Ok (toy_receipt, None), mkToy 3 [tx]) ∧
  is_call toy_policy 1 toy_opts 7 (payload tx).
Proof.
  eexists. split; [vm_compute; reflexivity|]. repeat split; vm_compute; done || lia.
Qed.

Lemma SendTransaction_sends_witness :
  ∃ r e', toy_run = Some (r, e') ∧
    ((∀ n, toy_R toy_opts n (mkToy 0 []) e') ∨
     ∃ n e1 e2, PendingNonceAt Address e1 = (Ok n, e2) ∧ toy_R toy_opts n (mkToy 0 []) e').
Proof.
  destruct toy_run_value as (tx & Hrun & _). do 2 eexists. split; [exact Hrun|].
  eapply (SendTransaction_sends toy_policy 1 ["relay"] ∅ eq_refl toy_opts (toy_R toy_opts) 13);
    [exact toy_fees|apply toy_observes|exact Hrun].
Defined.

Lemma SendTransaction_mined_witness :
  ∃ e', toy_run = Some (Ok (toy_receipt, None), e') ∧
    ∃ nonce, mined toy_policy 1 toy_opts nonce toy_receipt None.
Proof.
  destruct toy_run_value as (tx & Hrun & _). eexists. split; [exact Hrun|].
  eapply (SendTransaction_mined toy_policy 1 ["relay"] ∅ eq_refl toy_opts 13);
    [exact toy_fees|exact Hrun].
Defined.

Lemma SendTransaction_total_witness : is_Some toy_run.
Proof.
  apply (SendTransaction_total toy_policy 1 ["relay"] ∅ eq_refl toy_opts ticks toy_height 10 13);
    [exact toy_clocked|exact toy_progressing|lia].
Defined.

(** The default policy, a fee cap of 400 gwei against a maximum of 420. *)
Lemma cancel_not_replacing_witness :
  bumpOrResuggest toy_policy GWei (400 * GWei) (mkToy 0 []) = (Ok None, mkToy 0 []) ∧
  cancelFeeCap toy_policy (400 * GWei) = MaxFeePerGasWei toy_policy ∧
  (replaces (400 * GWei) (cancelFeeCap toy_policy (400 * GWei)) ↔
     11 * (400 * GWei) <= 10 * MaxFeePerGasWei toy_policy) ∧
  (GasBumpPercent toy_policy = 10 →
     ¬ replaces (400 * GWei) (cancelFeeCap toy_policy (400 * GWei))).
Proof. apply (cancel_not_replacing toy_policy). vm_compute. reflexivity. Defined.

Definition toy_pending : SignedTx := mkSigned (mkTx 1 7 0 0 0 [] 0 []) [x07].

Lemma wait_behind_times_out_witness :
  wait_loop toy_policy 1 toy_pending 105 0 (mkToy 0 []) =
    Some (Err (errTimedOut toy_policy (EText "not found")), mkToy 1 []).
Proof.
  eapply (wait_behind_times_out toy_policy eq_refl 0 toy_pending 105 0 (mkToy 0 []));
    first [reflexivity|vm_compute; done|split; vm_compute; done].
Defined.
End witnesses.
