(* ===== verification/Relays.v ===== *)
(** * The relays' goroutines (src/txmanager/manager.go)

    [sendToMEVRPCs] starts one goroutine per relay, each of which sends the transaction and
    puts the answer on a channel that holds all of them, and collects the answers.
    [TxManager.mev_loop] asks the relays one by one; here the goroutines are steps, and every
    interleaving of them is shown to be a run of [mev_loop] over the relays in some order, so
    what [TxManager] proves for every list of relays holds of the concurrent program. *)

From S2P Require Import Prelude Retry TxManager.

(** ** The program *)

(** An answer that counts as a success. *)
Definition accepted (r : result unit) : bool :=
  match r with Ok _ => true | Err err => isTxAlreadyKnown err | Panic => false end.

Record Sending (E : Type) := mkSending {
  sd_env : E;
  sd_running : list string;                  (* goroutines that have not sent *)
  sd_called : list (string * result unit);   (* goroutines that have their answer *)
  sd_results : list (string * result unit);  (* the channel [results] *)
  sd_left : nat;                             (* the answers the loop still waits for *)
  sd_successCount : Z;
}.
Arguments mkSending {E} _ _ _ _ _ _.
Arguments sd_env {E} _.
Arguments sd_running {E} _.
Arguments sd_called {E} _.
Arguments sd_results {E} _.
Arguments sd_left {E} _.
Arguments sd_successCount {E} _.

Section relays.
Context {E : Type} `{!Runtime E, !TxClient E}.
Variable mevClients : list string.
Variable tx : SignedTx.

Definition relays_start (e : E) : Sending E := mkSending e mevClients [] [] (length mevClients) 0.

(** A goroutine calls its relay; it puts the answer on the channel; the loop takes one. *)
Inductive relays_step : relation (Sending E) :=
  | relay_calls url r e e' us us' called results left n :
      mev_SendTransaction url tx e = (r, e') → r ≠ Panic →
      relays_step (mkSending e (us ++ url :: us') called results left n)
        (mkSending e' (us ++ us') (called ++ [(url, r)]) results left n)
  | relay_answers a e us called called' results left n :
      (length results < length mevClients)%nat →
      relays_step (mkSending e us (called ++ a :: called') results left n)
        (mkSending e us (called ++ called') (results ++ [a]) left n)
  | loop_takes url r e us called results left n :
      relays_step (mkSending e us called ((url, r) :: results) (S left) n)
        (mkSending e us called results left (if accepted r then n + 1 else n)).

(** After the loop. *)
Definition relays_finish (s : Sending E) : result unit * E :=
  (if 0 <? sd_successCount s then mret tt else eth_SendTransaction tx) (sd_env s).

(** ** Specification *)

(** The answers of the relays called in this order from this environment. *)
Inductive calls : E → list (string * result unit) → E → Prop :=
  | calls_nil e : calls e [] e
  | calls_snoc e l e1 url r e2 :
      calls e l e1 → mev_SendTransaction url tx e1 = (r, e2) → r ≠ Panic →
      calls e (l ++ [(url, r)]) e2.

Definition successes (l : list (string * result unit)) : Z :=
  foldr (λ a k, (if accepted a.2 then 1 else 0) + k) 0 l.

Record relays_inv (e0 : E) (s : Sending E) : Prop := {
  ri_order : ∃ order collected,
    calls e0 order (sd_env s) ∧
    mevClients ≡ₚ sd_running s ++ order.*1 ∧
    order ≡ₚ sd_called s ++ sd_results s ++ collected ∧
    sd_successCount s = successes collected;
  ri_left : sd_left s = (length (sd_running s) + length (sd_called s) + length (sd_results s))%nat;
  ri_total : (sd_left s <= length mevClients)%nat;
}.

(** The steps left: a call, an answer and a receive for each relay. *)
Definition steps_left (s : Sending E) : nat :=
  (3 * length (sd_running s) + 2 * length (sd_called s) + length (sd_results s))%nat.

(** ** Lemmas *)

Lemma successes_app l l' : successes (l ++ l') = successes l + successes l'.
Proof. unfold successes. induction l as [|a l IH]; cbn; [done|]. rewrite IH. lia. Qed.

#[local] Instance successes_Proper : Proper ((≡ₚ) ==> (=)) successes.
Proof.
  unfold successes. intros l l' H. induction H as [|x l l' _ IH|x y l|l l' l'' _ IH _ IH']; cbn.
  - done.
  - by rewrite IH.
  - lia.
  - by rewrite IH.
Qed.

(** Asked one after the other, the relays give the same answers. *)
Lemma calls_mev_loop e l e' rest k :
  calls e l e' → mev_loop (l.*1 ++ rest) tx k e = mev_loop rest tx (k + successes l) e'.
Proof.
  intros H. revert rest k. induction H as [e|e l e1 url r e2 Hl IH Hr Hp]; intros rest k.
  - cbn. by rewrite Z.add_0_r.
  - rewrite fmap_app, <- app_assoc, IH. cbn. unfold try_. rewrite Hr, successes_app. cbn.
    destruct r as [[]|err|]; cbn; [..|done]; [f_equal; lia|].
    destruct (isTxAlreadyKnown err); f_equal; lia.
Qed.

Lemma relays_inv_start e : relays_inv e (relays_start e).
Proof.
  split; cbn; [|lia|lia]. exists [], []. rewrite app_nil_r. split; [constructor|done].
Qed.

Lemma relays_step_inv e0 s s' : relays_step s s' → relays_inv e0 s → relays_inv e0 s'.
Proof.
  intros Hs [(order & coll & Hc & Hu & Ho & Hn) Hl Ht].
  destruct Hs as [url r e e' us us' called results left n Hr Hp| |url r]; cbn in *;
    rewrite ?length_app in *; cbn in *;
    (split; cbn; rewrite ?length_app; cbn; [|lia|lia]).
  - exists (order ++ [(url, r)]), coll. split; [by econstructor|].
    rewrite fmap_app. cbn. split; [rewrite Hu|split; [rewrite Ho|done]]; solve_Permutation.
  - exists order, coll. split; [done|]. split; [done|]. split; [rewrite Ho|done]. solve_Permutation.
  - exists order, (coll ++ [(url, r)]). split; [done|]. split; [done|].
    split; [rewrite Ho; solve_Permutation|]. rewrite Hn, successes_app. cbn. destruct (accepted r); lia.
Qed.

Lemma relays_steps_inv e0 s s' : rtc relays_step s s' → relays_inv e0 s → relays_inv e0 s'.
Proof. induction 1; eauto using relays_step_inv. Qed.

Lemma relays_step_measure s s' : relays_step s s' → (steps_left s' < steps_left s)%nat.
Proof. unfold steps_left. destruct 1; cbn; rewrite ?length_app; cbn; lia. Qed.

Lemma relays_bounded s s' k : nsteps relays_step k s s' → (k + steps_left s' <= steps_left s)%nat.
Proof. induction 1 as [|k s s1 s2 H%relays_step_measure _ IH]; lia. Qed.

(** A goroutine never waits for room in the channel. *)
Lemma relays_progress e0 s :
  (∀ url e, (mev_SendTransaction url tx e).1 ≠ Panic) →
  relays_inv e0 s → (0 < sd_left s)%nat → ∃ s', relays_step s s'.
Proof.
  intros Hp [_ Hl Ht] H. destruct s as [e us called results left n]. cbn in *.
  destruct results as [|[url r] results].
  - destruct called as [|a called].
    + destruct us as [|u us]; [cbn in *; lia|]. specialize (Hp u e).
      destruct (mev_SendTransaction u tx e) as [r e'] eqn:Er.
      eexists. by apply (relay_calls u r e e' []).
    + eexists. apply (relay_answers a e us []). cbn in *. lia.
  - destruct left as [|left]; [lia|]. eexists. apply loop_takes.
Qed.

(** When the loop is over, the relays were asked in some order. *)
Lemma relays_over e0 s :
  relays_inv e0 s → sd_left s = 0%nat →
  sd_running s = [] ∧ sd_called s = [] ∧ sd_results s = [] ∧
  ∃ order, order ≡ₚ mevClients ∧ mev_loop order tx 0 e0 = (Ok (sd_successCount s), sd_env s).
Proof.
  intros [(order & coll & Hc & Hu & Ho & Hn) Hl Ht] H0. rewrite H0 in Hl.
  assert (sd_running s = [] ∧ sd_called s = [] ∧ sd_results s = []) as (H1 & H2 & H3)
    by (rewrite <- !length_zero_iff_nil; lia).
  split_and!; [done..|]. rewrite H1 in Hu. rewrite H2, H3 in Ho. cbn in *.
  exists order.*1. split; [done|]. rewrite <- (app_nil_r order.*1), (calls_mev_loop _ _ _ _ _ Hc).
  cbn. by rewrite Hn, Ho.
Qed.
End relays.

(** ** Properties *)

(** C18: [sendToMEVRPCs] with its goroutines is the sequential [sendToMEVRPCs] for some
    order of the relays.  However the sends, the answers on the channel and the loop are
    interleaved, when the loop has its last answer every goroutine has ended and the channel
    is empty, the outcome - success as soon as one relay took or knew the transaction, the
    fallback to the node if none did - and the state of the node and the relays are those of
    asking the relays one after the other, in some order and each exactly once. *)
Theorem sendToMEVRPCs_concurrent {E : Type} `{!Runtime E, !TxClient E} mevClients tx (e : E) s :
  rtc (relays_step mevClients tx) (relays_start mevClients e) s →
  sd_left s = 0%nat →
  sd_running s = [] ∧ sd_called s = [] ∧ sd_results s = [] ∧
  ∃ order, order ≡ₚ mevClients ∧ sendToMEVRPCs order tx e = relays_finish tx s.
Proof.
  intros Hr H0.
  destruct (relays_over mevClients tx e s
    (relays_steps_inv _ _ _ _ _ Hr (relays_inv_start mevClients tx e)) H0)
    as (H1 & H2 & H3 & order & Hp & Ho).
  split_and!; [done..|]. exists order. split; [done|].
  unfold sendToMEVRPCs, relays_finish, mbind, io_bind. by rewrite Ho.
Qed.

(** The loop over the answers ends.  The channel has room for every answer, so no
    goroutine waits for the loop, and while an answer is missing some step is possible;
    every run has at most three steps per relay. *)
Theorem sendToMEVRPCs_terminates {E : Type} `{!Runtime E, !TxClient E} mevClients tx (e : E) k s :
  (∀ url e', (mev_SendTransaction url tx e').1 ≠ Panic) →
  nsteps (relays_step mevClients tx) k (relays_start mevClients e) s →
  (k <= 3 * length mevClients)%nat ∧
  ((0 < sd_left s)%nat → ∃ s', relays_step mevClients tx s s') ∧
  (sd_left s = 0%nat → ∀ s', ¬ relays_step mevClients tx s s').
Proof.
  intros Hp Hn. assert (rtc (relays_step mevClients tx) (relays_start mevClients e) s) as Hr
    by (by eapply rtc_nsteps_2).
  apply (relays_steps_inv _ _ e) in Hr; [|apply relays_inv_start].
  split; [|split; [by eapply relays_progress|]].
  - apply relays_bounded in Hn. unfold steps_left in Hn. cbn in Hn. lia.
  - intros H0 s' Hs%relays_step_measure. apply relays_over in Hr as (H1 & H2 & H3 & _); [|done].
    unfold steps_left in Hs. rewrite H1, H2, H3 in Hs. cbn in Hs. lia.
Qed.

(** ** Witnesses *)

#[local] Existing Instance TxManager.toy_runtime.
#[local] Existing Instance TxManager.toy_client.

Definition toy_tx : SignedTx :=
  mkSigned (mkTx 1 7 GWei (5 * GWei) 100000 (replicate 20 x02) 0 [x0a]) [x0b].

(** Both relays are offline; the second is called first and answers last. *)
Definition toy_offline (url : string) : string * result unit := (url, Err (EText "offline")).

Definition toy_sent : Sending toy := mkSending (mkToy 0 []) [] [] [] 0 0.

Lemma toy_relays_run :
  nsteps (relays_step ["a"; "b"] toy_tx) 6 (relays_start ["a"; "b"] (mkToy 0 [])) toy_sent.
Proof.
  eapply nsteps_l; [by apply (relay_calls _ _ "b" (Err (EText "offline")) (mkToy 0 []) (mkToy 0 []) ["a"] [])|].
  eapply nsteps_l; [by apply (relay_calls _ _ "a" (Err (EText "offline")) (mkToy 0 []) (mkToy 0 []) [] [])|].
  eapply nsteps_l; [apply (relay_answers _ _ (toy_offline "a") _ _ [toy_offline "b"] []); cbn; lia|].
  eapply nsteps_l; [apply loop_takes|].
  eapply nsteps_l; [apply (relay_answers _ _ (toy_offline "b") _ _ [] []); cbn; lia|].
  eapply nsteps_l; [apply loop_takes|].
  replace (if accepted _ then _ else _) with 0 by (vm_compute; reflexivity).
  apply nsteps_O.
Qed.

Lemma sendToMEVRPCs_concurrent_witness :
  ∃ order, order ≡ₚ ["a"; "b"] ∧
    sendToMEVRPCs order toy_tx (mkToy 0 []) = relays_finish toy_tx toy_sent.
Proof.
  apply (sendToMEVRPCs_concurrent ["a"; "b"] toy_tx (mkToy 0 []) toy_sent);
    [apply rtc_nsteps_2 with 6%nat; exact toy_relays_run|reflexivity].
Defined.

Lemma sendToMEVRPCs_terminates_witness : ∀ s', ¬ relays_step ["a"; "b"] toy_tx toy_sent s'.
Proof.
  apply (sendToMEVRPCs_terminates ["a"; "b"] toy_tx (mkToy 0 []) 6 toy_sent);
    [done|exact toy_relays_run|reflexivity].
Defined.
