(* ===== verification/Contract.v ===== *)
(** * contract: the SSV contract client (src/contract/client.go, events.go, abi.go)

    The ABI of the two contracts (embedded JSON, packed by go-ethereum) is the
    class [ContractABI]; a read-only call at the latest block is [ContractRPC].
    Transactions go through [TxManager]. *)

From S2P Require Import Prelude Retry Execution TxManager.

(** ** Data *)

Record Cluster := mkContractCluster {
  c_ValidatorCount : Z;
  c_NetworkFeeIndex : Z;
  c_Index : Z;
  c_Active : bool;
  c_Balance : Z;
}.

(** The fields of [Client] the calls read, with those of its transaction manager. *)
Record Client := mkClient {
  contractAddress : bytes;
  viewsContractAddress : bytes;
  c_policy : TxPolicy;
  c_chainID : Z;
  c_mevClients : list string;
  c_errorSelectors : gmap string string;
}.

Record RootCommittedEvent := mkRootCommitted {
  rc_MerkleRoot : bytes;
  rc_BlockNum : Z;
  rc_TxHash : bytes;
}.

(** A log of the subscription, with [types.Log.Removed]. *)
Record SubscribedLog := mkSubscribed {
  vLog : Log;
  Removed : bool;
}.

(** ** Third-party code *)

Class ContractABI := {
  pack_commitRoot : bytes → Z → result bytes;
  pack_getCommittedRoot : Z → result bytes;
  unpack_getCommittedRoot : bytes → result bytes;
  pack_getEffectiveBalance : bytes → list Z → Cluster → result bytes;
  unpack_getEffectiveBalance : bytes → result Z;
  pack_updateClusterBalance : Z → bytes → list Z → Cluster → Z → list bytes → result bytes;
  (** [SSVNetworkABI.Errors] in the order the map is visited: names and 32-byte IDs. *)
  abi_Errors : list (string * bytes);
}.

Class ContractRPC (E : Type) := {
  (** [CallContract(ctx, {To, Data}, nil)]. *)
  CallLatest : bytes → bytes → io E bytes;
}.

(** ** Operations *)

Section contract.
Context `{!ContractABI} {E : Type} `{!Runtime E, !TxClient E, !ContractRPC E}.
Variable c : Client.

(** [init]: names by the hex text of the first four bytes of the identifier. *)
Definition errorSelectors_init : gmap string string :=
  foldl (λ m e, <[hex_encode (take 4 e.2) := e.1]> m) ∅ abi_Errors.

Definition submit (fuel : nat) (opts : TxOpts) : iof E (Receipt * option error) :=
  SendTransaction (c_policy c) (c_chainID c) (c_mevClients c) (c_errorSelectors c) fuel opts.

Definition commit_opts (data : bytes) : TxOpts := mkOpts (contractAddress c) data None 0 false.

Definition CommitRoot (fuel : nat) (merkleRoot : bytes) (blockNum : Z)
    : iof E (Receipt * option error) :=
  data ← run (lift (wrap "pack commitRoot" (pack_commitRoot merkleRoot blockNum)));
  submit fuel (commit_opts data).

Definition GetCommittedRoot (blockNum : Z) : io E bytes :=
  data ← lift (wrap "pack getCommittedRoot" (pack_getCommittedRoot blockNum));
  result ← wrapM "call getCommittedRoot" (CallLatest (viewsContractAddress c) data);
  lift (wrap "unpack getCommittedRoot" (unpack_getCommittedRoot result)).

Definition GetClusterEffectiveBalance (owner : bytes) (operatorIDs : list Z) (cluster : Cluster)
    : io E Z :=
  data ← lift (wrap "pack getEffectiveBalance"
           (pack_getEffectiveBalance owner operatorIDs cluster));
  try_ (CallLatest (viewsContractAddress c) data) (λ r,
    match r with
    | Err err =>
        if IsContractRevert err
        then fail (ERevert (ExtractRevertReason (c_errorSelectors c) err) true "")
        else fail (EWrap "call getEffectiveBalance" err)
    | Panic => lift Panic
    | Ok result =>
        lift (wrap "unpack getEffectiveBalance" (unpack_getEffectiveBalance result))
    end).

Definition update_opts (data : bytes) : TxOpts := mkOpts (contractAddress c) data None 0 true.

Definition UpdateClusterBalance (fuel : nat) (blockNum : Z) (owner : bytes) (operatorIDs : list Z)
    (cluster : Cluster) (effectiveBalance : Z) (merkleProof : list bytes)
    : iof E (Receipt * option error) :=
  data ← run (lift (wrap "pack updateClusterBalance"
           (pack_updateClusterBalance blockNum owner operatorIDs cluster effectiveBalance
              merkleProof)));
  submit fuel (update_opts data).
End contract.

(** ** Events *)

Definition errTopics (n : nat) : error :=
  EText ("invalid log: expected 3 topics, got " +:+ pretty n).

(** The block number is the low 64 bits of the third topic. *)
Definition parseRootCommittedEvent (l : Log) : result RootCommittedEvent :=
  match Topics l with
  | _ :: root :: block :: _ =>
      Ok (mkRootCommitted (to_array 32 root) (wrapU 64 (be_value block)) (l_TxHash l))
  | topics => Err (errTopics (length topics))
  end.

(** What one log puts on the event channel: reorged and malformed logs are dropped. *)
Definition processRootCommittedLog (l : SubscribedLog) : option RootCommittedEvent :=
  if Removed l then None
  else match parseRootCommittedEvent (vLog l) with Ok event => Some event | _ => None end.

(** The events of a subscription that delivers [logs]. *)
Definition processRootCommittedLogs (logs : list SubscribedLog) : list RootCommittedEvent :=
  omap processRootCommittedLog logs.

(** ** Specification *)

(** The topics of a RootCommitted log: both arguments are indexed. *)
Definition root_committed_topics (sig root : bytes) (blockNum : Z) : list bytes :=
  [sig; root; be_bytes 32 blockNum].

(** ** Properties *)

(** What the subscription delivers is, in order, the decoded form of every log that was
    not removed by a reorg: a log the contract emits for a 32-byte root and a uint64 block
    is decoded to exactly that root and block. *)
Theorem processRootCommittedLogs_decodes (emitted : list (bytes * bytes * Z * bytes * bool)) :
  Forall (λ '(_, root, block, _, _), length root = 32%nat ∧ is_uint 64 block) emitted →
  processRootCommittedLogs
    ((λ '(sig, root, block, hash, removed),
        mkSubscribed (mkLog (root_committed_topics sig root block) [] block hash 0 [] 0) removed)
     <$> emitted) =
  (λ '(_, root, block, hash, _), mkRootCommitted root block hash) <$>
    filter (λ e, e.2 = false) emitted.
Proof.
  unfold processRootCommittedLogs.
  induction 1 as [|[[[[sig root] block] hash] removed] l [Hroot Hblock] Hl IH]; [done|].
  cbn [fmap list_fmap omap list_omap] in *. rewrite filter_cons.
  unfold processRootCommittedLog at 1. cbn [Removed vLog snd].
  destruct removed; [by rewrite decide_False|]. rewrite decide_True by done.
  unfold parseRootCommittedEvent. cbn [Topics root_committed_topics l_TxHash].
  rewrite to_array_id, be_value_be_bytes, wrapU_small by (unfold is_uint in *; cbn; lia || done).
  cbn [fmap list_fmap]. f_equal. apply IH.
Qed.

(** ** Witnesses *)

Lemma processRootCommittedLogs_decodes_witness :
  processRootCommittedLogs
    [mkSubscribed (mkLog (root_committed_topics zero32 (be_bytes 32 9) 100) [] 100 [x01] 0 [] 0)
       false;
     mkSubscribed (mkLog (root_committed_topics zero32 (be_bytes 32 8) 99) [] 99 [x02] 0 [] 0)
       true] =
  [mkRootCommitted (be_bytes 32 9) 100 [x01]].
Proof.
  apply (processRootCommittedLogs_decodes
    [(zero32, be_bytes 32 9, 100, [x01], false); (zero32, be_bytes 32 8, 99, [x02], true)]).
  repeat constructor; vm_compute; done.
Defined.

(** An ABI that joins the arguments; the clients' witnesses use it. *)
#[local] Instance toy_contract_abi : ContractABI := {|
  pack_commitRoot root block := Ok (root ++ be_bytes 32 block);
  pack_getCommittedRoot block := Ok (be_bytes 32 block);
  unpack_getCommittedRoot := Ok;
  pack_getEffectiveBalance owner _ _ := Ok owner;
  unpack_getEffectiveBalance l := Ok (be_value l);
  pack_updateClusterBalance block owner _ _ balance proof :=
    Ok (be_bytes 32 block ++ owner ++ be_bytes 4 balance ++ concat proof);
  abi_Errors := [("IncorrectClusterState", be_bytes 32 1)];
|}.
