(* ===== verification/CommitTree.v ===== *)
(** * The tree of a commit (buildTree in src/oracle/oracle.go, src/updater/updater.go and
    src/api/api.go)

    The three packages build the Merkle tree of a commit's stored balances with the same
    code.  Here it is translated once, with what the three rely on: the build never
    panics, the leaves are the balances, every balance has a verifying proof, and the
    root does not depend on the order in which Go visits the map. *)

From S2P Require Import Prelude Merkle Storage.

(** ** Operations *)

(** [clusterMap[clusterID] = bal.EffectiveBalance] for each balance. *)
Definition buildTree_map (balances : list ClusterBalance) : gmap bytes Z :=
  foldl (λ m b, <[to_array 32 (cb_ClusterID b) := cb_EffectiveBalance b]> m) ∅ balances.

(** [NewTree] visits the map in an unspecified order; this is one of the trees it may
    build ([buildTree_may] below), and the others have the same root and layers
    ([Merkle.NewTree_deterministic]). *)
Definition buildTree `{!Crypto} (balances : list ClusterBalance) : result Tree :=
  NewTree (buildTree_map balances).

(** [bytes.Equal(tree.Root[:], commit.MerkleRoot)]. *)
Definition rootMatches (computed stored : bytes) : bool := bool_decide (computed = stored).

(** ** Specification *)

(** Balances as the oracle stores them: 32-byte distinct clusters, uint32 values. *)
Definition balances_ok (balances : list ClusterBalance) : Prop :=
  Forall (λ b, length (cb_ClusterID b) = 32%nat ∧ is_uint 32 (cb_EffectiveBalance b)) balances ∧
  NoDup (cb_ClusterID <$> balances).

(** The last entry of a cluster counts. *)
Definition last_balance (balances : list ClusterBalance) (id : bytes) : option Z :=
  cb_EffectiveBalance <$>
    last (filter (λ b, to_array 32 (cb_ClusterID b) = id) balances).

(** ** Lemmas *)

Lemma buildTree_map_snoc balances b :
  buildTree_map (balances ++ [b]) =
    <[to_array 32 (cb_ClusterID b) := cb_EffectiveBalance b]> (buildTree_map balances).
Proof. unfold buildTree_map. by rewrite foldl_app. Qed.

Lemma buildTree_map_lookup balances id :
  buildTree_map balances !! id = last_balance balances id.
Proof.
  unfold last_balance. induction balances as [|b l IH] using rev_ind; [done|].
  rewrite buildTree_map_snoc, filter_app, filter_cons, filter_nil.
  case_decide as Hid.
  - by rewrite last_snoc, Hid, lookup_insert_eq.
  - by rewrite lookup_insert_ne, app_nil_r.
Qed.

Lemma buildTree_map_ok balances id bal :
  balances_ok balances →
  buildTree_map balances !! id = Some bal ↔ mkBalance id bal ∈ balances.
Proof.
  induction balances as [|b l IH] using rev_ind; intros [Hty Hnd].
  { split; [done|by intros ?%elem_of_nil]. }
  apply Forall_app in Hty as [Hty [[Hlen Hu] _]%Forall_cons].
  rewrite fmap_app in Hnd. apply NoDup_app in Hnd as (Hnd & Hdisj & _).
  rewrite buildTree_map_snoc, to_array_id, elem_of_app, list_elem_of_singleton by done.
  destruct (decide (cb_ClusterID b = id)) as [<-|Hne].
  - rewrite lookup_insert_eq. split.
    + intros [= <-]. right. by destruct b.
    + intros [Hin|<-]; [|done]. destruct (Hdisj (cb_ClusterID b)); [|left].
      by apply (list_elem_of_fmap_2 cb_ClusterID) in Hin.
  - rewrite lookup_insert_ne by done. rewrite IH by done. split; [auto|].
    intros [?|Hb]; [done|]. by subst b.
Qed.

Section tree.
Context {HC : Crypto}.

Lemma buildTree_may balances : NewTree_may (buildTree_map balances) (buildTree balances).
Proof. apply NewTree_in_may. Qed.

(** The build succeeds. *)
Lemma buildTree_Ok balances : ∃ t, buildTree balances = Ok t.
Proof.
  destruct (NewTree_may_inv _ _ (buildTree_may balances)) as (t & Ht & _). by exists t.
Qed.

Lemma elem_buildTree balances t leaf :
  buildTree balances = Ok t →
  leaf ∈ leaves t ↔ buildTree_map balances !! Merkle.ClusterID leaf = Some (EffectiveBalance leaf) ∧
    Hash leaf = HashLeaf (Merkle.ClusterID leaf) (EffectiveBalance leaf).
Proof. intros Ht. apply leaf_of_cluster. rewrite <- Ht. apply buildTree_may. Qed.

(** The leaves of a tree carry distinct clusters. *)
Lemma buildTree_NoDup balances t :
  buildTree balances = Ok t → NoDup (Merkle.ClusterID <$> leaves t).
Proof.
  intros Ht. pose proof (buildTree_may balances) as Hm. rewrite Ht in Hm.
  apply NewTree_may_inv in Hm as (t' & [= <-] & Hp & _). rewrite Hp. unfold makeLeaves.
  rewrite <- list_fmap_compose.
  rewrite (list_fmap_ext _ fst); [apply NoDup_fst_map_to_list|]. by intros ? [] ?.
Qed.

Lemma buildTree_length balances t :
  buildTree balances = Ok t → length (leaves t) = size (buildTree_map balances).
Proof.
  intros Ht. pose proof (buildTree_may balances) as Hm. rewrite Ht in Hm.
  apply NewTree_may_inv in Hm as (t' & [= <-] & Hp & _).
  rewrite Hp. unfold makeLeaves. by rewrite length_fmap, length_map_to_list.
Qed.

Lemma buildTree_proof balances t id bal :
  buildTree balances = Ok t → buildTree_map balances !! id = Some bal →
  ∃ proof, GetProof t id = Ok proof ∧ verifyProof (HashLeaf id bal) proof = Root t ∧
    length proof = Nat.log2_up (size (buildTree_map balances)).
Proof.
  intros Ht. apply GetProof_verifies. rewrite <- Ht. apply buildTree_may.
Qed.

Lemma buildTree_no_proof balances t id :
  buildTree balances = Ok t → buildTree_map balances !! id = None →
  GetProof t id = Err (EText ("cluster " +:+ hex_encode id +:+ " not found")).
Proof.
  intros Ht. apply GetProof_absent. rewrite <- Ht. apply buildTree_may.
Qed.
End tree.
