(* ===== verification/Oracle.v ===== *)
(** * oracle: committing roots (src/oracle/oracle.go)

    The oracle runs over the node's environment and the database ([Exec E World],
    as the syncer).  Sending a transaction and synchronising may wait, so code that
    does takes fuel and has type [iof].

    Go visits a map in an unspecified order: the function [range] gives that order,
    and the theorems hold for every one. *)

From S2P Require Import Prelude Merkle Schedule Storage Retry Execution Events Syncer.
From S2P Require Import Writes Beacon TxManager Contract CommitTree.

#[local] Open Scope go_scope.

(** ** Balances *)

Definition gweiPerETH : Z := 10 ^ 9.

Definition balanceFloor : Z := 32 * 10 ^ 9.

(** One validator per key, in order of first appearance. *)
Fixpoint dedup_loop (seen : gset bytes) (vs : list ActiveValidator) : list bytes :=
  match vs with
  | [] => []
  | v :: rest =>
      let pk := bls_key (ValidatorPubkey v) in
      if decide (pk ∈ seen) then dedup_loop seen rest
      else ValidatorPubkey v :: dedup_loop ({[pk]} ∪ seen) rest
  end.

Definition deduplicatePubkeys (vs : list ActiveValidator) : list bytes := dedup_loop ∅ vs.

(** The balance that counts; a validator the node does not know has 0 before the
    floor. *)
Definition counted_balance (balanceMap : gmap bytes Z) (v : ActiveValidator) : Z :=
  let balance := default 0 (balanceMap !! bls_key (ValidatorPubkey v)) in
  if balance <? balanceFloor then balanceFloor else balance.

Definition cluster_of (v : ActiveValidator) : bytes := to_array 32 (av_ClusterID v).

(** [clusterTotals[clusterID] += balance], in uint64. *)
Definition add_balance (balanceMap : gmap bytes Z) (totals : gmap bytes Z) (v : ActiveValidator)
    : gmap bytes Z :=
  <[cluster_of v := default 0 (totals !! cluster_of v) +u64 counted_balance balanceMap v]> totals.

Definition clusterTotals (vs : list ActiveValidator) (balanceMap : gmap bytes Z) : gmap bytes Z :=
  foldl (add_balance balanceMap) ∅ vs.

(** Whole ETH, truncated to uint32. *)
Definition cluster_balance (total : bytes * Z) : ClusterBalance :=
  mkBalance total.1 (wrapU 32 (total.2 / gweiPerETH)).

(** ** Deciding what a checkpoint asks for *)

Inductive decision := Waiting | MissedTarget | CommitNow.

Definition decide_checkpoint (fullyFinalized nextTarget : Z) : decision :=
  if fullyFinalized <? nextTarget then Waiting
  else if nextTarget <? fullyFinalized then MissedTarget
  else CommitNow.

(** What [Run] finds in its [select]. *)
Inductive input :=
  | Done
  | ChannelClosed
  | Checkpoint (c : FinalizedCheckpoint).

Section oracle.
Context `{!Crypto, !SSVNetworkABI, !ContractABI}.
Context {E : Type} `{!Runtime E, !ExecutionRPC E, !BeaconAPI E, !TxClient E, !ContractRPC E}.
Variable range : gmap bytes Z → list (bytes * Z).
Variable retryConfig : RetryConfig.
Variable ssvContract : bytes.
Variable contractClient : Client.
Variable schedule : CommitSchedule.
(** Fuel of one synchronisation and of one transaction. *)
Variables syncFuel sendFuel : nat.

Abbreviation St := (Exec E World).

Definition aggregateByCluster (vs : list ActiveValidator) (balanceMap : gmap bytes Z)
    : list ClusterBalance :=
  cluster_balance <$> range (clusterTotals vs balanceMap).

Definition fetchBalances (vs : list ActiveValidator) : io E (list ClusterBalance) :=
  match vs with
  | [] => mret []
  | _ =>
      balanceMap ← wrapM "fetch validator balances"
        (GetValidatorBalances retryConfig (deduplicatePubkeys vs));
      mret (aggregateByCluster vs balanceMap)
  end.

(** An error that is only logged. *)
Definition logged (m : M unit) : io St unit :=
  try_ (on_data m) (λ r, match r with Panic => lift Panic | _ => mret tt end).

Definition handleCommitError (target : Z) (receipt : option Receipt) (err : error) : io St unit :=
  _ ← logged (UpdateCommitStatus target Failed (r_TxHash <$> receipt));
  match IsRevertError err with
  | Some _ => mret tt
  | None => fail (EWrap "commit failed" err)
  end.

Definition submit_root (target blockNum : Z) (merkleRoot : bytes) : iof St unit :=
  tryf (on_envf (CommitRoot contractClient sendFuel merkleRoot blockNum)) (λ r,
    match r with
    | Ok (receipt, None) =>
        run (logged (UpdateCommitStatus target Confirmed (Some (r_TxHash receipt))))
    | Ok (receipt, Some err) => run (handleCommitError target (Some receipt) err)
    | Err err => run (handleCommitError target None err)
    | Panic => run (lift Panic)
    end).

(** From the check of the chain on. *)
Definition send_commit (target blockNum : Z) (merkleRoot : bytes) : iof St unit :=
  tryf (run (on_env (GetCommittedRoot contractClient blockNum))) (λ r,
    match r with
    | Ok committedRoot =>
        if bool_decide (committedRoot = zero32) then submit_root target blockNum merkleRoot
        else if bool_decide (committedRoot = merkleRoot)
        then run (logged (UpdateCommitStatus target Confirmed None))
        else run (logged (UpdateCommitStatus target Failed None))
    | Err _ => submit_root target blockNum merkleRoot
    | Panic => run (lift Panic)
    end).

(** Up to the pending row; the root to send. *)
Definition prepare (checkpoint : FinalizedCheckpoint) (target : Z) : iof St bytes :=
  _ ← wrapf ("sync to block " +:+ pretty (BlockNum checkpoint))
        (SyncToBlock retryConfig ssvContract syncFuel (BlockNum checkpoint));
  vs ← run (wrapM "get active validators" (on_data GetActiveValidators));
  _ ← run (wrapM "verify finalized block"
        (on_env (VerifyFinalizedBlockRoot retryConfig (BlockRoot checkpoint))));
  balances ← run (wrapM "fetch balances" (on_env (fetchBalances vs)));
  tree ← run (lift (buildTree balances));
  _ ← run (wrapM "store pending commit"
        (on_data (InsertPendingCommit target (Root tree) (BlockNum checkpoint) balances)));
  mret (Root tree).

Definition commit (checkpoint : FinalizedCheckpoint) (target : Z) : iof St unit :=
  merkleRoot ← prepare checkpoint target;
  send_commit target (BlockNum checkpoint) merkleRoot.

(** One checkpoint of the main loop; the next target. *)
Definition on_checkpoint (checkpoint : FinalizedCheckpoint) (nextTarget : Z) : iof St Z :=
  if Epoch checkpoint =? 0 then mret nextTarget
  else
    let fullyFinalized := Epoch checkpoint -u64 1 in
    match decide_checkpoint fullyFinalized nextTarget with
    | Waiting => mret nextTarget
    | MissedTarget => run (lift (NextTarget schedule fullyFinalized))
    | CommitNow =>
        tryf (commit checkpoint nextTarget) (λ r,
          match r with
          | Panic => run (lift Panic)
          | _ => run (lift (NextTarget schedule fullyFinalized))
          end)
    end.

Definition errSubscriptionClosed : error := EText "finalized checkpoint subscription closed".

(** The main loop on what the [select]s find, in order; it returns the target it waits
    for when [inputs] is used up. *)
Fixpoint run_loop (inputs : list input) (nextTarget : Z) : iof St Z :=
  match inputs with
  | [] => mret nextTarget
  | Done :: _ => λ s, failf (default (ECtx "context canceled") (ctx_Err (env s))) s
  | ChannelClosed :: _ => λ s, failf (default errSubscriptionClosed (ctx_Err (env s))) s
  | Checkpoint checkpoint :: rest =>
      next ← on_checkpoint checkpoint nextTarget;
      run_loop rest next
  end.

Definition errGenesis : error :=
  EText "cannot start at genesis (epoch 0): no fully finalized epoch exists".

(** [Run] after the subscription. *)
Definition Run (inputs : list input) : iof St Z :=
  finalizedEpoch ← run (wrapM "get finalized epoch" (on_env (GetFinalizedEpoch retryConfig)));
  if finalizedEpoch =? 0 then failf errGenesis
  else
    let fullyFinalized := finalizedEpoch -u64 1 in
    nextTarget ← run (lift (NextTarget schedule fullyFinalized));
    _ ← run (lift (PhaseAt schedule fullyFinalized));
    run_loop inputs nextTarget.
End oracle.

(** ** Specification *)

(** The least target after [seen]. *)
Definition is_next (s : CommitSchedule) (seen t : Z) : Prop :=
  is_target s t ∧ seen < t ∧ ∀ t', is_target s t' → seen < t' → t <= t'.

(** The commits a sequence of checkpoints asks for, [seen] being the last epoch seen
    before: a checkpoint is due when the epoch it finalizes is the next target. *)
Inductive due (s : CommitSchedule) :
    Z → list FinalizedCheckpoint → list (FinalizedCheckpoint * Z) → Prop :=
  | due_nil seen : due s seen [] []
  | due_now seen c cs jobs :
      is_next s seen (Epoch c - 1) → due s (Epoch c - 1) cs jobs →
      due s seen (c :: cs) ((c, Epoch c - 1) :: jobs)
  | due_skip seen c cs jobs :
      ¬ is_next s seen (Epoch c - 1) → due s (Z.max seen (Epoch c - 1)) cs jobs →
      due s seen (c :: cs) jobs.

(** The sum over a cluster's validators, without wrap-around. *)
Definition cluster_total (balanceMap : gmap bytes Z) (id : bytes) (vs : list ActiveValidator) : Z :=
  foldr (λ v acc, if decide (cluster_of v = id) then counted_balance balanceMap v + acc else acc)
    0 vs.

Definition cluster_size (id : bytes) (vs : list ActiveValidator) : Z :=
  Z.of_nat (length (filter (λ v, cluster_of v = id) vs)).

Section spec.
Context `{!Crypto, !SSVNetworkABI, !ContractABI}.
Context {E : Type} `{!Runtime E, !ExecutionRPC E, !BeaconAPI E, !TxClient E, !ContractRPC E}.
Variable range : gmap bytes Z → list (bytes * Z).
Variable retryConfig : RetryConfig.
Variable ssvContract : bytes.
Variable contractClient : Client.
Variables syncFuel sendFuel : nat.

(** The commits one after the other, whether they fail or not. *)
Fixpoint commit_all (jobs : list (FinalizedCheckpoint * Z)) : iof (Exec E World) unit :=
  match jobs with
  | [] => mret tt
  | (c, t) :: rest =>
      tryf (commit range retryConfig ssvContract contractClient syncFuel sendFuel c t) (λ r,
        match r with
        | Panic => run (lift Panic)
        | _ => commit_all rest
        end)
  end.



End spec.

(** ** Lemmas: which checkpoints are due *)

Section due_lemmas.
Variable s : CommitSchedule.
Hypothesis Hok : Forall phase_ok s.
Hypothesis Hvalid : Schedule.Validate s = Ok tt.

(** Epochs at which the schedule's arithmetic does not wrap. *)
Definition in_range (epoch : Z) : Prop :=
  is_uint 64 epoch ∧ ∀ p, p ∈ s → epoch + Interval p < 2 ^ 64.

Lemma NextTarget_is_next_target seen :
  in_range seen → ∃ t, NextTarget s seen = Ok t ∧ is_next s seen t.
Proof.
  intros [Hu Hi]. destruct (NextTarget_least s seen Hok Hvalid Hu Hi) as (t & ? & ? & ? & ?).
  exists t. unfold is_next. auto.
Qed.

Lemma is_next_unique seen t t' : is_next s seen t → is_next s seen t' → t = t'.
Proof. intros (H1 & H2 & H3) (H4 & H5 & H6). pose proof (H3 t' H4 H5). pose proof (H6 t H1 H2). lia. Qed.

(** An epoch before the next target does not change it. *)
Lemma is_next_later seen f t : is_next s seen t → f < t → is_next s (Z.max seen f) t.
Proof.
  intros (H1 & H2 & H3) Hf. split; [done|]. split; [lia|]. intros t' Ht' Hlt. apply H3; [done|lia].
Qed.

Lemma NextTarget_later seen f t :
  in_range (Z.max seen f) → is_next s seen t → f < t → NextTarget s (Z.max seen f) = Ok t.
Proof.
  intros Hr Hn Hf. destruct (NextTarget_is_next_target _ Hr) as (t' & -> & Ht').
  f_equal. eapply is_next_unique; [exact Ht'|by apply is_next_later].
Qed.

Lemma due_targets_spec seen cs jobs :
  due s seen cs jobs →
  StronglySorted Z.lt jobs.*2 ∧
  Forall (λ '(c, t), c ∈ cs ∧ t = Epoch c - 1 ∧ is_target s t ∧ seen < t) jobs.
Proof.
  induction 1 as [seen|seen c cs jobs (Ht & Hlt & Hmin) _ [IH1 IH2]|seen c cs jobs _ _ [IH1 IH2]].
  - split; constructor.
  - split.
    + cbn. constructor; [done|]. apply Forall_fmap. eapply Forall_impl; [exact IH2|].
      intros [c' t'] (_ & _ & _ & ?). done.
    + constructor; [by split; [left|]|]. eapply Forall_impl; [exact IH2|].
      intros [c' t'] (? & ? & ? & ?). split; [by right|]. repeat split; [done..|lia].
  - split; [done|]. eapply Forall_impl; [exact IH2|].
    intros [c' t'] (? & ? & ? & ?). split; [by right|]. repeat split; [done..|lia].
Qed.

(** When no checkpoint is lost no target is. *)
Lemma due_complete seen cs jobs :
  due s seen cs jobs →
  (∀ i c, cs !! i = Some c → Epoch c - 1 = seen + 1 + Z.of_nat i) →
  ∀ t, is_target s t → seen < t <= seen + Z.of_nat (length cs) → t ∈ jobs.*2.
Proof.
  induction 1 as [seen|seen c cs jobs Hn Hd IH|seen c cs jobs Hn Hd IH]; intros Hc t Ht Hb;
    [cbn in Hb; lia| |].
  all: pose proof (Hc 0%nat c eq_refl) as Hc0; cbn [length] in Hb.
  - cbn. destruct (decide (t = Epoch c - 1)) as [->|Hne]; [left|right].
    apply IH; [|done|lia]. intros i c' Hi. rewrite (Hc (S i) c' Hi). lia.
  - assert (t ≠ Epoch c - 1).
    { intros ->. apply Hn. split; [done|]. split; [lia|]. intros t' _ Ht'. lia. }
    apply IH; [|done|lia]. intros i c' Hi. rewrite (Hc (S i) c' Hi). lia.
Qed.
End due_lemmas.

(** ** Lemmas: the main loop *)

Section loop_lemmas.
Context `{!Crypto, !SSVNetworkABI, !ContractABI}.
Context {E : Type} `{!Runtime E, !ExecutionRPC E, !BeaconAPI E, !TxClient E, !ContractRPC E}.
Variable range : gmap bytes Z → list (bytes * Z).
Variable retryConfig : RetryConfig.
Variable ssvContract : bytes.
Variable contractClient : Client.
Variable schedule : CommitSchedule.
Variables syncFuel sendFuel : nat.
Hypothesis Hok : Forall phase_ok schedule.
Hypothesis Hvalid : Schedule.Validate schedule = Ok tt.

#[local] Abbreviation loop :=
  (run_loop range retryConfig ssvContract contractClient schedule syncFuel sendFuel).
#[local] Abbreviation jobs_of :=
  (commit_all range retryConfig ssvContract contractClient syncFuel sendFuel).

(** A checkpoint that is due is committed; the loop goes on with the next target. *)
Lemma loop_now seen c cs next jobs n :
  in_range schedule (Epoch c - 1) → 0 < Epoch c < 2 ^ 64 → next = Epoch c - 1 →
  (∀ n', NextTarget schedule (Epoch c - 1) = Ok n' →
     ∀ st, loop (Checkpoint <$> cs) n' st = (_ ← jobs_of jobs; mret n) st) →
  is_next schedule seen next →
  ∀ st, loop (Checkpoint <$> (c :: cs)) next st = (_ ← jobs_of ((c, next) :: jobs); mret n) st.
Proof.
  intros Hr Hc -> IH Hn st. cbn [fmap list_fmap run_loop commit_all]. unfold on_checkpoint.
  destruct (NextTarget_is_next_target schedule Hok Hvalid _ Hr) as (n' & Hn' & _).
  destruct (Z.eqb_spec (Epoch c) 0); [lia|]. rewrite wrapU_small by lia.
  unfold decide_checkpoint. rewrite !Z.ltb_irrefl. unfold mbind, iof_bind, tryf.
  destruct (commit _ _ _ _ _ _ _ _ st) as [[[a|x|] st1]|]; try done;
    cbn; unfold lift; rewrite Hn'; apply (IH n' Hn').
Qed.

(** One that is not leaves the target of the epochs seen. *)
Lemma loop_skip seen c cs next :
  in_range schedule seen → 0 <= Epoch c < 2 ^ 64 → in_range schedule (Z.max seen (Epoch c - 1)) →
  is_next schedule seen next → ¬ is_next schedule seen (Epoch c - 1) →
  ∃ n', NextTarget schedule (Z.max seen (Epoch c - 1)) = Ok n' ∧
    ∀ st, loop (Checkpoint <$> (c :: cs)) next st = loop (Checkpoint <$> cs) n' st.
Proof.
  intros Hr Hc Hr' Hn Hno. destruct Hr as [Hu _]. unfold is_uint in Hu.
  destruct (decide (Epoch c - 1 < next)) as [Hlt|Hge].
  - exists next. split; [by eapply NextTarget_later|]. intros st.
    cbn [fmap list_fmap run_loop]. unfold on_checkpoint.
    destruct (Z.eqb_spec (Epoch c) 0); [done|]. rewrite wrapU_small by lia.
    unfold decide_checkpoint. by apply Z.ltb_lt in Hlt as ->.
  - assert (next < Epoch c - 1) as Hgt.
    { destruct (decide (Epoch c - 1 = next)) as [<-|]; [done|lia]. }
    pose proof Hn as (_ & Hs & _).
    rewrite Z.max_r in * by lia.
    destruct (NextTarget_is_next_target schedule Hok Hvalid _ Hr') as (n' & Hn' & _).
    exists n'. split; [done|]. intros st. cbn [fmap list_fmap run_loop]. unfold on_checkpoint.
    destruct (Z.eqb_spec (Epoch c) 0); [lia|]. rewrite wrapU_small by lia.
    unfold decide_checkpoint. destruct (Z.ltb_spec (Epoch c - 1) next); [lia|].
    apply Z.ltb_lt in Hgt as ->. unfold mbind, iof_bind, run, lift. by rewrite Hn'.
Qed.

Lemma loop_due cs seen next :
  in_range schedule seen → NextTarget schedule seen = Ok next →
  Forall (λ c, 0 <= Epoch c < 2 ^ 64 ∧ ∀ p, p ∈ schedule → Epoch c + Interval p < 2 ^ 64) cs →
  ∃ jobs n, due schedule seen cs jobs ∧
    ∀ st, loop (Checkpoint <$> cs) next st = (_ ← jobs_of jobs; mret n) st.
Proof.
  revert seen next. induction cs as [|c cs IH]; intros seen next Hr Hnext Hcs.
  { exists [], next. split; [constructor|done]. }
  apply Forall_cons in Hcs as [[Hc Hci] Hcs].
  destruct (NextTarget_is_next_target schedule Hok Hvalid _ Hr) as (t & Ht & Hn).
  rewrite Hnext in Ht. injection Ht as <-.
  assert (in_range schedule (Z.max seen (Epoch c - 1))) as Hr'.
  { destruct Hr as [Hu Hi]. unfold is_uint in *. split; [unfold is_uint; lia|].
    intros p Hp. specialize (Hi p Hp). specialize (Hci p Hp). lia. }
  destruct (decide (Epoch c - 1 = next)) as [Heq|Hne].
  - pose proof Hn as (_ & Hs & _). destruct Hr as [Hu Hi]. unfold is_uint in Hu.
    rewrite Z.max_r in Hr' by lia.
    destruct (NextTarget_is_next_target schedule Hok Hvalid _ Hr') as (n' & Hn' & _).
    destruct (IH _ n' Hr' Hn' Hcs) as (jobs & n & Hd & Hl).
    exists ((c, Epoch c - 1) :: jobs), n. split; [constructor; [by rewrite Heq|done]|].
    rewrite Heq. apply (loop_now seen); [done|lia|done| |done].
    intros n2 Hn2. rewrite Hn' in Hn2. injection Hn2 as <-. done.
  - assert (¬ is_next schedule seen (Epoch c - 1)) as Hno.
    { intros Hf. apply Hne. by eapply is_next_unique. }
    destruct (loop_skip seen c cs next Hr Hc Hr' Hn Hno) as (n' & Hn' & Hl).
    destruct (IH _ n' Hr' Hn' Hcs) as (jobs & n & Hd & Hl2).
    exists jobs, n. split; [by apply due_skip|]. intros st. by rewrite Hl, Hl2.
Qed.
End loop_lemmas.

(** ** Lemmas: balances *)

Lemma counted_balance_floor m v : balanceFloor <= counted_balance m v.
Proof. unfold counted_balance. destruct (Z.ltb_spec (default 0 (m !! bls_key (ValidatorPubkey v))) balanceFloor); lia. Qed.

Lemma cluster_total_size m id vs : balanceFloor * cluster_size id vs <= cluster_total m id vs.
Proof.
  unfold cluster_size. induction vs as [|v vs IH]; [done|].
  cbn [cluster_total foldr]. rewrite filter_cons. fold (cluster_total m id vs).
  pose proof (counted_balance_floor m v). case_decide; cbn [length]; lia.
Qed.

Lemma cluster_total_nonneg m id vs : 0 <= cluster_total m id vs.
Proof. pose proof (cluster_total_size m id vs). unfold cluster_size, balanceFloor in *. lia. Qed.

Lemma add_balance_lookup m vs totals id :
  (∀ id, 0 <= default 0 (totals !! id)) →
  (∀ id, default 0 (totals !! id) + cluster_total m id vs < 2 ^ 64) →
  default 0 (foldl (add_balance m) totals vs !! id) =
    default 0 (totals !! id) + cluster_total m id vs ∧
  (is_Some (foldl (add_balance m) totals vs !! id) ↔
   is_Some (totals !! id) ∨ ∃ v, v ∈ vs ∧ cluster_of v = id).
Proof.
  revert totals. induction vs as [|v vs IH]; intros totals Hpos Hsum; cbn [foldl].
  { cbn. split; [lia|]. split; [auto|]. intros [?|(v & []%elem_of_nil & _)]. done. }
  assert (∀ i, default 0 (add_balance m totals v !! i) =
    default 0 (totals !! i) + (if decide (cluster_of v = i) then counted_balance m v else 0)) as Hadd.
  { intros i. unfold add_balance. destruct (decide (cluster_of v = i)) as [<-|Hne].
    - rewrite lookup_insert_eq. cbn. apply wrapU_small.
      specialize (Hpos (cluster_of v)). specialize (Hsum (cluster_of v)).
      cbn [cluster_total foldr] in Hsum. rewrite decide_True in Hsum by done.
      pose proof (counted_balance_floor m v). unfold balanceFloor in *.
      pose proof (cluster_total_nonneg m (cluster_of v) vs) as Hn. unfold cluster_total in Hn. lia.
    - rewrite lookup_insert_ne by done. lia. }
  assert (∀ i, cluster_total m i (v :: vs) =
    (if decide (cluster_of v = i) then counted_balance m v else 0) + cluster_total m i vs) as Htot.
  { intros i. cbn [cluster_total foldr]. case_decide; unfold cluster_total; lia. }
  destruct (IH (add_balance m totals v)) as [IH1 IH2].
  - intros i. rewrite Hadd. specialize (Hpos i). pose proof (counted_balance_floor m v).
    unfold balanceFloor in *. case_decide; lia.
  - intros i. rewrite Hadd. specialize (Hsum i). rewrite Htot in Hsum. lia.
  - split; [rewrite IH1, Hadd, Htot; lia|]. rewrite IH2. setoid_rewrite elem_of_cons.
    unfold add_balance. destruct (decide (cluster_of v = id)) as [<-|Hne].
    + rewrite lookup_insert_eq. naive_solver.
    + rewrite lookup_insert_ne by done. naive_solver.
Qed.

Lemma clusterTotals_lookup m vs id t :
  (∀ id, cluster_total m id vs < 2 ^ 64) →
  clusterTotals vs m !! id = Some t ↔ (∃ v, v ∈ vs ∧ cluster_of v = id) ∧ t = cluster_total m id vs.
Proof.
  intros Hsum. destruct (add_balance_lookup m vs ∅ id) as [H1 H2].
  { intros i. by rewrite lookup_empty. }
  { intros i. rewrite lookup_empty. cbn. apply Hsum. }
  rewrite lookup_empty in H1, H2. cbn in H1. unfold clusterTotals.
  split.
  - intros E. rewrite E in H1, H2. cbn in H1. split; [|lia].
    destruct (proj1 H2) as [[? ?]|?]; [by eexists|done|done].
  - intros [Hv ->]. destruct (proj2 H2 (or_intror Hv)) as [x Hx]. rewrite Hx in *. cbn in H1.
    f_equal. lia.
Qed.

Lemma clusterTotals_keys vs m id :
  is_Some (clusterTotals vs m !! id) → length id = 32%nat.
Proof.
  unfold clusterTotals. assert (∀ acc : gmap bytes Z,
    (∀ i, is_Some (acc !! i) → length i = 32%nat) →
    is_Some (foldl (add_balance m) acc vs !! id) → length id = 32%nat) as H.
  { induction vs as [|v vs IH]; intros acc Hacc; cbn [foldl]; [apply Hacc|].
    apply IH. intros i Hi. unfold add_balance in Hi.
    destruct (decide (cluster_of v = i)) as [<-|Hne]; [apply length_to_array|].
    rewrite lookup_insert_ne in Hi by done. by apply Hacc. }
  apply H. intros i. rewrite lookup_empty. by intros [? ?].
Qed.

Lemma aggregateByCluster_ok (range : gmap bytes Z → list (bytes * Z)) vs m :
  (∀ t, range t ≡ₚ map_to_list t) → balances_ok (aggregateByCluster range vs m).
Proof.
  intros Hrange. unfold aggregateByCluster. split.
  - rewrite Hrange. apply Forall_fmap, Forall_forall. intros [id t] Hin.
    apply elem_of_map_to_list in Hin. cbn. split.
    + apply (clusterTotals_keys vs m). by rewrite Hin.
    + by apply wrapU_bound.
  - rewrite <- list_fmap_compose, Hrange. change (cb_ClusterID ∘ cluster_balance) with (@fst bytes Z).
    apply NoDup_fst_map_to_list.
Qed.

(** ** Lemmas: what a commit stores *)

#[global] Instance same_preorder {A B} (f : A → B) : PreOrder (λ a a', f a' = f a).
Proof. split; [done|]. intros a b c -> ->. done. Qed.


(** What [GetActiveValidators] reads. *)
Definition active_validators (d : DB) : list ActiveValidator :=
  (λ v, mkActive v.1 v.2) <$>
    merge_sort validator_le (filter (active_in d) (elements (validators d))).







Section commit_lemmas.
Context {E : Type}.


Context {HB : ContractABI} `{!Runtime E, !TxClient E, !ContractRPC E}.
Variable contractClient : Client.
Variable sendFuel : nat.





End commit_lemmas.

Section env_lemmas.
Context {HB : ContractABI} {E : Type} `{!Runtime E, !TxClient E, !ContractRPC E}.
Variable contractClient : Client.

Lemma logged_env (m : M unit) (s : Exec E World) r s' : logged m s = (r, s') → env s' = env s.
Proof.
  unfold logged, try_, on_data, zoom. destruct (m (data s)) as [[a|e|] w];
    by intros [= _ <-].
Qed.

Lemma handleCommitError_env target receipt err (s : Exec E World) r s' :
  handleCommitError target receipt err s = (r, s') → env s' = env s.
Proof.
  unfold handleCommitError, mbind, io_bind. destruct (logged _ s) as [r0 s1] eqn:El.
  apply logged_env in El. destruct r0; [case_match|..]; by intros [= _ <-].
Qed.

(** All a submission does to the environment is [CommitRoot]. *)
Lemma submit_root_env fuel target block root (s : Exec E World) r s' :
  submit_root contractClient fuel target block root s = Some (r, s') →
  ∃ rc, CommitRoot contractClient fuel root block (env s) = Some (rc, env s').
Proof.
  unfold submit_root, tryf, on_envf, zoomf. intros Hs.
  destruct (CommitRoot _ _ _ _ _) as [[rc e2]|]; [|done]. exists rc. do 2 f_equal.
  destruct rc as [[receipt [err|]]|err|]; apply run_inv in Hs;
    first [apply handleCommitError_env in Hs|apply logged_env in Hs|injection Hs as _ <-];
    by try rewrite Hs.
Qed.

Lemma GetCommittedRoot_moves (R : relation E) `{!PreOrder R} :
  (∀ a d, moves_io R (CallLatest a d)) →
  ∀ block, moves_io R (GetCommittedRoot contractClient block).
Proof. intros Hc block. unfold GetCommittedRoot. movesf_step. apply Hc. Qed.
End env_lemmas.

Section prepare_lemmas.
Context {HC : Crypto} {HA : SSVNetworkABI} {HB : ContractABI}.
Context {E : Type} `{!Runtime E, !ExecutionRPC E, !BeaconAPI E, !TxClient E, !ContractRPC E}.
Variable range : gmap bytes Z → list (bytes * Z).
Variable retryConfig : RetryConfig.
Variable ssvContract : bytes.
Variable contractClient : Client.
Variables syncFuel sendFuel : nat.

(** [balances] were computed from the active validators of [d], by a call that left [e']. *)
Definition computed_at (d : DB) (balances : list ClusterBalance) (e' : E) : Prop :=
  ∃ e, fetchBalances range retryConfig (active_validators d) e = (Ok balances, e').

Definition computed_from (d : DB) (balances : list ClusterBalance) : Prop :=
  ∃ e', computed_at d balances e'.



End prepare_lemmas.

(** ** Lemmas: a commit ends *)

Section total_lemmas.
Context {HC : Crypto} {HA : SSVNetworkABI} {HB : ContractABI}.
Context {E : Type} `{!Runtime E, !ExecutionRPC E, !BeaconAPI E, !TxClient E, !ContractRPC E}.
Variable range : gmap bytes Z → list (bytes * Z).
Variable retryConfig : RetryConfig.
Variable ssvContract : bytes.
Variable contractClient : Client.
Variables syncFuel sendFuel : nat.
Variables (clock : E → nat) (height : nat → Z) (N : nat).
Hypothesis Hpolicy : TxManager.Validate (c_policy contractClient) = Ok tt.
Hypothesis Hclock : clocked clock height.
Hypothesis Hprogress : progressing (c_policy contractClient) height N.
Hypothesis Hfuel : (N + 3 <= sendFuel)%nat.

Lemma submit_total opts : total (submit contractClient sendFuel opts).
Proof. intros e. by eapply SendTransaction_ends. Qed.

Lemma on_envf_total {A} (m : iof E A) : total m → total (on_envf (D:=World) m).
Proof. intros Hm s. unfold on_envf, zoomf. by destruct (Hm (env s)) as [[r e] ->]. Qed.

Lemma send_commit_total target block root :
  total (send_commit contractClient sendFuel target block root).
Proof.
  assert (total (submit_root contractClient sendFuel target block root)) as Hsub.
  { apply total_tryf; [|intros [[receipt [err|]]|err|]; apply total_run].
    apply on_envf_total, total_bind; [apply total_run|intros data; apply submit_total]. }
  apply total_tryf; [apply total_run|intros [committed|err|]; [|done|apply total_run]].
  repeat case_bool_decide; [done|apply total_run..].
Qed.

Lemma SyncToBlock_ends pending failures `{!Exhausting E pending failures} target (s : Exec E World) :
  batch_wf (batchSize s) → 0 <= last_synced_block (db (data s)) →
  target + bmax (batchSize s) < 2 ^ 64 →
  (Z.to_nat (target - last_synced_block (db (data s))) * S failures + pending (env s)
     <= syncFuel)%nat →
  is_Some (SyncToBlock retryConfig ssvContract syncFuel target s).
Proof.
  intros Hwf Hlast Ht Hf. unfold SyncToBlock.
  destruct (on_data _ s) as [r s1] eqn:Er. apply zoom_run in Er as (w & Er & ->).
  apply wrapM_inv in Er as (r1 & Er & Hr). apply wrapM_inv in Er as (r2 & Er & Hr2).
  apply query_inv in Er as [Hd Hq].
  destruct r as [last|e|]; [|by eexists..].
  assert (last = last_synced_block (db (data s))) as ->.
  { assert (r2 = Ok last) as -> by (apply Hr2, Hr; done). destruct Hq as [[= ->]|Hq]; [done|].
    by destruct (Hq last). }
  destruct (Z.leb_spec target (last_synced_block (db (data s)))); [by eexists|].
  apply in_sync_mode_total. intros s2 [Hb He Hd2]. cbn [batchSize env data] in Hb, He, Hd2.
  unfold syncBlocks, runFetcher. destruct EventTopics as [topics|e|]; [|by eexists..].
  assert (0 <= bmax (batchSize s)) by (unfold batch_wf in Hwf; lia).
  rewrite wrapU_small by lia. rewrite Hb, He.
  assert (is_Some (FetchLogs retryConfig syncFuel ssvContract
    (last_synced_block (db (data s)) + 1) target topics send_batch
    (mkExec (batchSize s) (env s) []))) as [[rf sf] ->];
    [|by destruct rf; eexists].
  apply (FetchLogs_loop_total pending failures); cbn [batchSize env]; [done|lia|done|].
  by replace (target + 1 - (last_synced_block (db (data s)) + 1))
    with (target - last_synced_block (db (data s))) by lia.
Qed.

Lemma prepare_ends pending failures `{!Exhausting E pending failures} cp target (s : Exec E World) :
  batch_wf (batchSize s) → 0 <= last_synced_block (db (data s)) →
  BlockNum cp + bmax (batchSize s) < 2 ^ 64 →
  (Z.to_nat (BlockNum cp - last_synced_block (db (data s))) * S failures + pending (env s)
     <= syncFuel)%nat →
  is_Some (prepare range retryConfig ssvContract syncFuel cp target s).
Proof.
  intros Hwf Hlast Ht Hf. unfold prepare.
  destruct (SyncToBlock_ends pending failures (BlockNum cp) s Hwf Hlast Ht Hf) as [[r s1] Hs].
  unfold mbind, iof_bind at 1. unfold wrapf. rewrite Hs. destruct r as [[]|e|]; cbn [wrap];
    [|by eexists..].
  match goal with |- is_Some (?m s1) => assert (total m) as Hm; [|apply Hm] end.
  repeat (apply total_bind; [apply total_run|intros ?]). apply total_ret.
Qed.
End total_lemmas.

(** ** Properties *)


(** C5: the oracle runs its commits, one after the other and whether they succeed or not,
    for exactly the checkpoints that are due: those whose fully finalized epoch is the least
    commit target after every epoch seen before.  So it commits at targets of the schedule
    only, in strictly increasing order and never at or before the epoch it started from; and
    at every target when no checkpoint was dropped. *)
Theorem Run_commits_due `{!Crypto, !SSVNetworkABI, !ContractABI}
    {E} `{!Runtime E, !ExecutionRPC E, !BeaconAPI E, !TxClient E, !ContractRPC E}
    range cfg addr client schedule syncFuel sendFuel cps (s : Exec E World) epoch s1 :
  Forall phase_ok schedule → Schedule.Validate schedule = Ok tt →
  on_env (GetFinalizedEpoch cfg) s = (Ok epoch, s1) → 0 < epoch < 2 ^ 64 →
  Forall (λ e, 0 <= e < 2 ^ 64 ∧ ∀ p, p ∈ schedule → e + Interval p < 2 ^ 64)
    (epoch :: (Epoch <$> cps)) →
  ∃ jobs n, due schedule (epoch - 1) cps jobs ∧
    Run range cfg addr client schedule syncFuel sendFuel (Checkpoint <$> cps) s =
      (_ ← commit_all range cfg addr client syncFuel sendFuel jobs; mret n) s1 ∧
    StronglySorted Z.lt jobs.*2 ∧
    Forall (λ '(c, t), c ∈ cps ∧ t = Epoch c - 1 ∧ is_target schedule t ∧ epoch - 1 < t) jobs ∧
    ((∀ i c, cps !! i = Some c → Epoch c - 1 = epoch - 1 + 1 + Z.of_nat i) →
     ∀ t, is_target schedule t → epoch - 1 < t <= epoch - 1 + Z.of_nat (length cps) →
       t ∈ jobs.*2).
Proof.
  intros Hok Hv Hfin Hepoch [[_ Hi] Hcps]%Forall_cons. apply Forall_fmap in Hcps.
  assert (in_range schedule (epoch - 1)) as Hr.
  { split; [unfold is_uint; lia|]. intros p Hp. specialize (Hi p Hp). lia. }
  destruct (NextTarget_is_next_target schedule Hok Hv _ Hr) as (next & Hnext & _).
  destruct (loop_due range cfg addr client schedule syncFuel sendFuel Hok Hv cps _ next Hr Hnext Hcps)
    as (jobs & n & Hd & Hl).
  destruct (due_targets_spec schedule _ cps jobs Hd) as [Hs Hf].
  exists jobs, n. split; [done|]. split; [|by eauto using due_complete].
  rewrite <- Hl. unfold Run, mbind, iof_bind, run.
  unfold wrapM. rewrite Hfin. cbn [fst snd wrap].
  destruct (Z.eqb_spec epoch 0); [lia|]. rewrite wrapU_small by lia. unfold lift.
  rewrite Hnext. unfold NextTarget in Hnext. apply bind_Ok in Hnext as (ph & -> & _). done.
Qed.

(** C6: in whatever order the map is visited, the balances of a commit hold exactly one entry
    per cluster with an active validator: the sum, in whole ETH, of its validators' effective
    balances, each raised to 32 ETH; so at least 32 per validator.  The hypothesis, that no
    cluster holds 2^32 ETH, is what keeps the uint64 sum and the uint32 result exact. *)
Theorem aggregateByCluster_exact (range : gmap bytes Z → list (bytes * Z)) vs m :
  (∀ t, range t ≡ₚ map_to_list t) →
  (∀ id, cluster_total m id vs < 2 ^ 32 * gweiPerETH) →
  NoDup (cb_ClusterID <$> aggregateByCluster range vs m) ∧
  ∀ b, b ∈ aggregateByCluster range vs m ↔
    (∃ v, v ∈ vs ∧ cluster_of v = cb_ClusterID b) ∧
    cb_EffectiveBalance b = cluster_total m (cb_ClusterID b) vs / gweiPerETH ∧
    32 * cluster_size (cb_ClusterID b) vs <= cb_EffectiveBalance b.
Proof.
  intros Hrange Hsum. unfold aggregateByCluster.
  assert (∀ id, cluster_total m id vs < 2 ^ 64) as H64.
  { intros id. specialize (Hsum id). unfold gweiPerETH in Hsum. lia. }
  split.
  - by apply aggregateByCluster_ok.
  - intros [id bal]. cbn [cb_ClusterID cb_EffectiveBalance].
    setoid_rewrite Hrange. rewrite list_elem_of_fmap. unfold cluster_balance.
    pose proof (cluster_total_nonneg m id vs) as Hpos. pose proof (cluster_total_size m id vs) as Hsz.
    specialize (Hsum id). unfold gweiPerETH, balanceFloor in *.
    assert (wrapU 32 (cluster_total m id vs / 10 ^ 9) = cluster_total m id vs / 10 ^ 9) as Hw.
    { apply wrapU_small. split; [apply Z.div_pos; lia|apply Z.div_lt_upper_bound; lia]. }
    assert (32 * cluster_size id vs <= cluster_total m id vs / 10 ^ 9) as Hge
      by (apply Z.div_le_lower_bound; lia).
    split.
    + intros ([i t] & Heq & Hin). injection Heq as -> ->. cbn [fst snd].
      apply elem_of_map_to_list, (clusterTotals_lookup m vs i t H64) in Hin as [Hv ->].
      by rewrite Hw.
    + intros (Hv & -> & _). exists (id, cluster_total m id vs). cbn [fst snd].
      rewrite Hw. split; [done|]. by apply elem_of_map_to_list, clusterTotals_lookup.
Qed.

(** C35: the balances a commit stores are well formed: distinct 32-byte clusters with uint32
    values.  So the tree is built without a panic, and every stored balance has a proof
    that verifies against the committed root. *)
Theorem computed_balances_typed `{!Crypto} {E} `{!Runtime E, !BeaconAPI E}
    (range : gmap bytes Z → list (bytes * Z)) cfg d balances :
  (∀ t, range t ≡ₚ map_to_list t) → computed_from (E:=E) range cfg d balances →
  balances_ok balances ∧ ∃ t, buildTree balances = Ok t ∧
    ∀ b, b ∈ balances → ∃ proof, GetProof t (cb_ClusterID b) = Ok proof ∧
      verifyProof (HashLeaf (cb_ClusterID b) (cb_EffectiveBalance b)) proof = Root t.
Proof.
  intros Hrange (e & e' & Hf).
  assert (balances_ok balances) as Hok.
  { unfold fetchBalances in Hf. destruct (active_validators d) as [|v vs].
    - inv_io. split; constructor.
    - inv_io. by apply aggregateByCluster_ok. }
  split; [done|]. destruct (buildTree_Ok balances) as [t Ht]. exists t. split; [done|].
  intros [id bal] Hin. apply buildTree_map_ok in Hin; [|done].
  destruct (buildTree_proof balances t id bal Ht Hin) as (proof & ? & ? & _). by exists proof.
Qed.

(** A commit sends nothing once the chain holds a root for the block; else the only
    transactions it sends are the call of [commitRoot] with the root and block, to the SSV
    contract, and its cancellation, at one nonce and within the fee policy.  [R n] is any
    relation between environments the other calls and such submissions keep. *)
Theorem send_commit_sends `{!ContractABI}
    {E} `{!Runtime E, !TxClient E, !ContractRPC E}
    client sendFuel target block root calldata (R : Z → relation E) (s : Exec E World) r s' :
  TxManager.Validate (c_policy client) = Ok tt → fees_nonneg (E:=E) →
  pack_commitRoot root block = Ok calldata →
  observes (c_policy client) (c_chainID client) (commit_opts client calldata) R →
  (∀ n a d, moves_io (R n) (CallLatest a d)) →
  send_commit client sendFuel target block root s = Some (r, s') →
  ((∀ n, R n (env s) (env s')) ∨
   ∃ n e1 e2, PendingNonceAt Address e1 = (Ok n, e2) ∧ R n (env s) (env s')) ∧
  (∀ committed e1, GetCommittedRoot client block (env s) = (Ok committed, e1) →
     committed ≠ zero32 → env s' = e1).
Proof.
  intros Hp Hf Hpack HR Hcall Hsend. pose proof (λ n, obs_preorder _ _ _ _ HR n) as HP.
  unfold send_commit in Hsend. unfold tryf at 1, run at 1 in Hsend.
  destruct (on_env (GetCommittedRoot client block) s) as [rg s1] eqn:Eg.
  apply zoom_run in Eg as (e1 & Eg & ->).
  assert (∀ n, R n (env s) e1) as H1.
  { intros n. pose proof (GetCommittedRoot_moves client (R n) (Hcall n) block (env s)) as Hm.
    by rewrite Eg in Hm. }
  set (s1 := mkExec (batchSize s) e1 (data s)) in Hsend.
  assert (submit_root client sendFuel target block root s1 = Some (r, s') →
    (∀ n, R n (env s) (env s')) ∨
    ∃ n e1 e2, PendingNonceAt Address e1 = (Ok n, e2) ∧ R n (env s) (env s')) as Hsub.
  { intros (rc & Hc)%submit_root_env. unfold CommitRoot in Hc. rewrite Hpack in Hc.
    apply (SendTransaction_moves _ _ _ _ Hp _ R _ _ _ _ Hf HR) in Hc.
    destruct Hc as [Hc|(n & a & b & Hn & Hc)]; [left|right].
    - intros n. by transitivity e1.
    - exists n, a, b. split; [done|]. by transitivity e1. }
  split.
  - destruct rg as [committed|err|]; [|by apply Hsub|].
    + case_bool_decide; [by apply Hsub|]. left. intros n.
      case_bool_decide; apply run_inv, logged_env in Hsend; by rewrite Hsend.
    + left. intros n. by injection Hsend as _ <-.
  - intros committed e2 Eg2 Hz. rewrite Eg in Eg2. injection Eg2 as -> ->.
    rewrite bool_decide_false in Hsend by done.
    case_bool_decide; apply run_inv, logged_env in Hsend; by rewrite Hsend.
Qed.

(** A commit returns, whatever the database, the beacon node, the relays and the signer
    answer and however often: with fuel for [failures + 1] fetches per block to synchronise,
    when the execution node refuses at most [failures] times between two answers, and for [N + 3] polls per transaction when every
    [N] polls bring the blocks a wait lasts. *)
Theorem commit_total {HC : Crypto} {HA : SSVNetworkABI} {HB : ContractABI}
    {E} `{!Runtime E, !ExecutionRPC E, !BeaconAPI E, !TxClient E, !ContractRPC E}
    pending failures `{!Exhausting E pending failures} (clock : E → nat) (height : nat → Z) N
    range cfg addr client syncFuel sendFuel cp target (s : Exec E World) :
  TxManager.Validate (c_policy client) = Ok tt → clocked clock height →
  progressing (c_policy client) height N → (N + 3 <= sendFuel)%nat →
  batch_wf (batchSize s) → 0 <= last_synced_block (db (data s)) →
  BlockNum cp + bmax (batchSize s) < 2 ^ 64 →
  (Z.to_nat (BlockNum cp - last_synced_block (db (data s))) * S failures + pending (env s)
     <= syncFuel)%nat →
  is_Some (commit range cfg addr client syncFuel sendFuel cp target s).
Proof.
  intros Hp Hc Hpr Hsend Hwf Hlast Ht Hf. unfold commit, mbind, iof_bind.
  assert (is_Some (prepare range cfg addr syncFuel cp target s)) as [[[root|e|] s1] ->]
    by (by eapply prepare_ends); [|by eexists..].
  by eapply send_commit_total.
Qed.

(** ** Witnesses *)

#[local] Existing Instance TxManager.toy_runtime.
#[local] Existing Instance TxManager.toy_client.

(** An execution node at block 120 whose contract has no logs. *)
#[local] Instance toy_execution : ExecutionRPC toy :=
  { HeaderByNumber _ e := (Ok 120, e);
    FilterLogs _ _ _ _ e := (Ok [], e);
    BatchCallContext _ e := (Ok (λ _, Ok 0), e);
    ChainID e := (Ok 1, e) }.

(** A beacon node that knows the validator with 48 ETH; its finalized epoch is 450. *)
#[local] Instance toy_beacon : BeaconAPI toy :=
  { Finality e := (Ok 450, e);
    SignedBeaconBlock _ e := (Ok (Ok 120), e);
    BeaconBlockHeader e := (Ok (be_bytes 32 5), e);
    Validators _ e := (Ok [(be_bytes 48 9, 48 * 10 ^ 9)], e) }.

(** No root is committed yet. *)
#[local] Instance toy_contract_rpc : ContractRPC toy := { CallLatest _ _ e := (Ok zero32, e) }.

#[local] Existing Instance Contract.toy_contract_abi.

Definition toy_contract : Client :=
  mkClient (replicate 20 x02) (replicate 20 x03) toy_policy 1 [] ∅.

Definition toy_state : Exec toy World :=
  mkExec (NewAdaptiveBatchSize 0 0) (mkToy 0 []) (mkWorld example_db []).

Definition toy_checkpoint : FinalizedCheckpoint := mkCheckpoint 451 120 (be_bytes 32 5).

(** One commit at epoch 900; the run is kept as a value. *)
Definition toy_commit : result unit * Exec toy World :=
  default (Panic, toy_state)
    (commit map_to_list DefaultRetryConfig [] toy_contract 5 13 toy_checkpoint 900 toy_state).


(** It is confirmed with the hash of the call that was mined. *)
Example toy_commit_confirmed :
  (λ c, (status c, tx_hash c, cluster_balances c)) <$>
    oracle_commits (db (data toy_commit.2)) !! 900 =
  Some (Confirmed, Some [x07; x01], Some (BArr [mkBalance (be_bytes 32 1) 48])).
Proof. vm_compute. reflexivity. Qed.

(** The same commit when the target has a pending row of another root: that row is confirmed,
    with the root it had, although the transaction carried the computed one. *)
Definition toy_stale_state : Exec toy World :=
  mkExec (NewAdaptiveBatchSize 0 0) (mkToy 0 [])
    (mkWorld (set_commits
       (<[900 := mkCommitCols (be_bytes 32 1) 99 (Some BNull) Pending None]>
          (oracle_commits example_db)) example_db) []).

Example toy_stale_confirmed :
  (λ p, (λ c, (be_value (merkle_root c), reference_block c, status c)) <$>
          oracle_commits (db (data p.2)) !! 900) <$>
    commit map_to_list DefaultRetryConfig [] toy_contract 5 13 toy_checkpoint 900 toy_stale_state =
  Some (Some (1, 99, Confirmed)).
Proof. vm_compute. reflexivity. Qed.


Definition toy_checkpoints : list FinalizedCheckpoint :=
  [toy_checkpoint; mkCheckpoint 676 130 zero32].

Definition toy_schedule : CommitSchedule := [mkPhase 0 225].

Lemma toy_schedule_ok : Forall phase_ok toy_schedule.
Proof. repeat constructor; cbn; lia. Qed.

Lemma Run_commits_due_witness :
  ∃ jobs n, due toy_schedule (450 - 1) toy_checkpoints jobs ∧
    Run map_to_list DefaultRetryConfig [] toy_contract toy_schedule 5 13
      (Checkpoint <$> toy_checkpoints) toy_state =
      (_ ← commit_all map_to_list DefaultRetryConfig [] toy_contract 5 13 jobs; mret n) toy_state ∧
    StronglySorted Z.lt jobs.*2 ∧
    Forall (λ '(c, t), c ∈ toy_checkpoints ∧ t = Epoch c - 1 ∧ is_target toy_schedule t ∧
      450 - 1 < t) jobs ∧
    ((∀ i c, toy_checkpoints !! i = Some c → Epoch c - 1 = 450 - 1 + 1 + Z.of_nat i) →
     ∀ t, is_target toy_schedule t → 450 - 1 < t <= 450 - 1 + Z.of_nat (length toy_checkpoints) →
       t ∈ jobs.*2).
Proof.
  apply (Run_commits_due map_to_list DefaultRetryConfig [] toy_contract toy_schedule 5 13
    toy_checkpoints toy_state 450 toy_state).
  - exact toy_schedule_ok.
  - reflexivity.
  - reflexivity.
  - lia.
  - assert (∀ e, 0 <= e < 2 ^ 60 → 0 <= e < 2 ^ 64 ∧
      ∀ p, p ∈ toy_schedule → e + Interval p < 2 ^ 64) as Hb.
    { intros e He. split; [lia|]. intros p [->|[]%elem_of_nil]%elem_of_cons. cbn. lia. }
    repeat (constructor; [apply Hb; cbn; lia|]). constructor.
Defined.

Definition toy_validators : list ActiveValidator :=
  [mkActive (be_bytes 32 1) (be_bytes 48 9); mkActive (be_bytes 32 1) (be_bytes 48 8)].

Definition toy_balances : gmap bytes Z := {[ be_bytes 48 9 := 48 * 10 ^ 9 ]}.

Lemma toy_total id : cluster_total toy_balances id toy_validators < 2 ^ 32 * gweiPerETH.
Proof.
  unfold toy_validators. cbn [cluster_total foldr].
  repeat case_decide; vm_compute; done.
Qed.

Lemma aggregateByCluster_exact_witness :
  NoDup (cb_ClusterID <$> aggregateByCluster map_to_list toy_validators toy_balances) ∧
  ∀ b, b ∈ aggregateByCluster map_to_list toy_validators toy_balances ↔
    (∃ v, v ∈ toy_validators ∧ cluster_of v = cb_ClusterID b) ∧
    cb_EffectiveBalance b =
      cluster_total toy_balances (cb_ClusterID b) toy_validators / gweiPerETH ∧
    32 * cluster_size (cb_ClusterID b) toy_validators <= cb_EffectiveBalance b.
Proof.
  apply (aggregateByCluster_exact map_to_list toy_validators toy_balances);
    [reflexivity|exact toy_total].
Defined.

(** One validator with 48 ETH, one the beacon node does not know. *)
Example toy_aggregate :
  aggregateByCluster map_to_list toy_validators toy_balances = [mkBalance (be_bytes 32 1) 80].
Proof. vm_compute. reflexivity. Qed.

Lemma computed_balances_typed_witness :
  balances_ok [mkBalance (be_bytes 32 1) 48] ∧ ∃ t, buildTree [mkBalance (be_bytes 32 1) 48] = Ok t ∧
    ∀ b, b ∈ [mkBalance (be_bytes 32 1) 48] → ∃ proof, GetProof t (cb_ClusterID b) = Ok proof ∧
      verifyProof (HashLeaf (cb_ClusterID b) (cb_EffectiveBalance b)) proof = Root t.
Proof.
  apply (computed_balances_typed (E:=toy) map_to_list DefaultRetryConfig example_db);
    [reflexivity|].
  exists (mkToy 0 []), (mkToy 0 []). vm_compute. reflexivity.
Defined.

Definition toy_calldata : bytes := be_bytes 32 7 ++ be_bytes 32 120.

Abbreviation toy_commit_R := (toy_R (commit_opts toy_contract toy_calldata)).

Definition toy_send : result unit * Exec toy World :=
  default (Panic, toy_state) (send_commit toy_contract 13 450 120 (be_bytes 32 7) toy_state).

Lemma toy_send_run :
  send_commit toy_contract 13 450 120 (be_bytes 32 7) toy_state = Some (toy_send.1, toy_send.2).
Proof.
  unfold toy_send.
  destruct (send_commit _ _ _ _ _ _) as [[r s]|] eqn:Hc; [done|].
  assert (match send_commit toy_contract 13 450 120 (be_bytes 32 7) toy_state with
    Some _ => true | None => false end = true) as Ht by (vm_compute; reflexivity).
  by rewrite Hc in Ht.
Qed.

Lemma send_commit_sends_witness :
  ((∀ n, toy_commit_R n (mkToy 0 []) (env toy_send.2)) ∨
   ∃ n e1 e2, PendingNonceAt (E:=toy) Address e1 = (Ok n, e2) ∧
     toy_commit_R n (mkToy 0 []) (env toy_send.2)) ∧
  (∀ committed e1, GetCommittedRoot toy_contract 120 (mkToy 0 []) = (Ok committed, e1) →
     committed ≠ zero32 → env toy_send.2 = e1).
Proof.
  apply (send_commit_sends toy_contract 13 450 120 (be_bytes 32 7) toy_calldata toy_commit_R
    toy_state toy_send.1 toy_send.2); [reflexivity|exact toy_fees|reflexivity|apply toy_observes| |
    exact toy_send_run].
  intros n a d e. by apply toy_R_refl.
Defined.

(** The node never fails. *)
#[local] Instance toy_exhausting : Exhausting toy (λ _, O) 0.
Proof. split; intros; cbn; try lia. destruct (H0 []). by injection H. Qed.

Lemma commit_total_witness :
  is_Some (commit map_to_list DefaultRetryConfig [] toy_contract 200 13 toy_checkpoint 900 toy_state).
Proof.
  apply (commit_total (λ _, O) 0 ticks toy_height 10 map_to_list DefaultRetryConfig [] toy_contract
    200 13 toy_checkpoint 900 toy_state).
  - reflexivity.
  - exact toy_clocked.
  - exact toy_progressing.
  - lia.
  - unfold batch_wf. vm_compute. intuition congruence.
  - vm_compute. congruence.
  - vm_compute. reflexivity.
  - vm_compute. lia.
Defined.
