(* ===== verification/Updater.v ===== *)
(** * updater: pushing balances to the contract (src/updater/updater.go)

    The updater runs over the same state as the oracle, plus the last processed block.
    It only reads the database; it writes to the chain through
    [Contract.UpdateClusterBalance]. *)

From S2P Require Import Prelude Merkle Storage Retry Execution Events Syncer TxManager Contract.
From S2P Require Import CommitTree.

(** ** Data *)

Definition subscriptionRetryDelay : Z := 5 * Second.
Definition commitLookupRetryDelay : Z := 10 * Second.

Record processStats := mkStats {
  updated : Z;
  skipped : Z;
  failed : Z;
}.

Definition add_updated (st : processStats) : processStats :=
  mkStats (updated st + 1) (skipped st) (failed st).
Definition add_skipped (st : processStats) : processStats :=
  mkStats (updated st) (skipped st + 1) (failed st).
Definition add_failed (n : Z) (st : processStats) : processStats :=
  mkStats (updated st) (skipped st) (failed st + n).

Definition toContractCluster (c : ClusterRow) : Contract.Cluster :=
  mkContractCluster (ValidatorCount c) (NetworkFeeIndex c) (Index c) (IsActive c) (Balance c).

(** The kinds of revert the first pass tells apart, by the name of the contract's error. *)
Inductive revert_class := Stale | Rotated | OtherRevert.

Definition classify_revert (reason : string) : revert_class :=
  if bool_decide (reason = "IncorrectClusterState") then Stale
  else if bool_decide (reason = "ClusterIsLiquidated") then Stale
  else if bool_decide (reason = "MustUseLatestRoot") then Rotated
  else if bool_decide (reason = "RootNotFound") then Rotated
  else OtherRevert.

(** What the [select]s of a subscription find. *)
Inductive sub_input :=
  | SubDone
  | ErrChan (err : option error)
  | ErrChanClosed
  | EventChanClosed
  | RootCommitted (event : RootCommittedEvent).

(** The updater's state: the node and database, and [lastProcessedBlock]. *)
Record Upd (E : Type) := mkUpd {
  world : Exec E World;
  lastProcessedBlock : Z;
}.
Arguments mkUpd {E} _ _.
Arguments world {E} _.
Arguments lastProcessedBlock {E} _.

Section updater.
Context `{!Crypto, !SSVNetworkABI, !ContractABI}.
Context {E : Type} `{!Runtime E, !ExecutionRPC E, !TxClient E, !ContractRPC E}.
Variable retryConfig : RetryConfig.
Variable ssvContract : bytes.
Variable contractClient : Client.
(** Fuel of one snapshot and of one transaction. *)
Variables syncFuel sendFuel : nat.

Abbreviation St := (Exec E World).

(** ** Lookups *)

Definition storageLookup (id : bytes) : io St (option ClusterRow) := on_data (getClusterRow id).

Definition overlayLookup (o : gmap bytes ClusterRow) (id : bytes) : io St (option ClusterRow) :=
  mret (o !! to_array 32 id).

(** ** One cluster *)

(** [true] when a transaction updated the balance. *)
Definition processCluster (blockNum : Z) (leaf : Leaf) (tree : Tree)
    (lookup : bytes → io St (option ClusterRow)) : iof St bool :=
  found ← run (wrapM "lookup cluster" (lookup (Merkle.ClusterID leaf)));
  match found with
  | None => mret false
  | Some cluster =>
      proof ← run (lift (wrap "get proof" (GetProof tree (Merkle.ClusterID leaf))));
      let owner := BytesToAddress (OwnerAddress cluster) in
      currentBalance ← run (wrapM "get current balance" (on_env
        (GetClusterEffectiveBalance contractClient owner (OperatorIDs cluster)
           (toContractCluster cluster))));
      if currentBalance =? EffectiveBalance leaf then mret false
      else tryf (on_envf (UpdateClusterBalance contractClient sendFuel blockNum owner
             (OperatorIDs cluster) (toContractCluster cluster) (EffectiveBalance leaf) proof)) (λ r,
        match r with
        | Ok (_, None) => mret true
        | Ok (_, Some err) | Err err => failf (EWrap "update cluster balance" err)
        | Panic => run (lift Panic)
        end)
  end.

(** [if ctx.Err() != nil { break }]. *)
Definition unless_ctx {A} (stop : A) (k : iof St A) : iof St A := λ s,
  match ctx_Err (env s) with Some _ => Some (Ok stop, s) | None => k s end.

(** ** The two passes *)

(** The first pass: the statistics and the leaves to retry. *)
Fixpoint process_leaves (blockNum : Z) (tree : Tree)
    (lookup : bytes → io St (option ClusterRow)) (ls : list Leaf) (stats : processStats)
    (staleLeaves : list Leaf) : iof St (processStats * list Leaf) :=
  match ls with
  | [] => mret (stats, staleLeaves)
  | leaf :: rest => unless_ctx (stats, staleLeaves)
      (tryf (processCluster blockNum leaf tree lookup) (λ r,
        match r with
        | Ok ok =>
            process_leaves blockNum tree lookup rest
              (if ok : bool then add_updated stats else add_skipped stats) staleLeaves
        | Err err =>
            match IsRevertError err with
            | Some (reason, _) =>
                match classify_revert reason with
                | Stale => process_leaves blockNum tree lookup rest stats (staleLeaves ++ [leaf])
                | Rotated => mret (add_skipped stats, [])
                | OtherRevert =>
                    process_leaves blockNum tree lookup rest (add_skipped stats) staleLeaves
                end
            | None => process_leaves blockNum tree lookup rest (add_failed 1 stats) staleLeaves
            end
        | Panic => run (lift Panic)
        end))
  end.

Definition processAllClusters (blockNum : Z) (tree : Tree)
    (lookup : bytes → io St (option ClusterRow)) : iof St (processStats * list Leaf) :=
  process_leaves blockNum tree lookup (Leaves tree) (mkStats 0 0 0) [].

(** The second pass, over the stale leaves and the head state. *)
Fixpoint retry_stale (blockNum : Z) (tree : Tree) (lookup : bytes → io St (option ClusterRow))
    (ls : list Leaf) (stats : processStats) : iof St processStats :=
  match ls with
  | [] => mret stats
  | leaf :: rest => unless_ctx stats
      (tryf (processCluster blockNum leaf tree lookup) (λ r,
        match r with
        | Ok ok =>
            retry_stale blockNum tree lookup rest
              (if ok : bool then add_updated stats else add_skipped stats)
        | Err _ => retry_stale blockNum tree lookup rest (add_failed 1 stats)
        | Panic => run (lift Panic)
        end))
  end.

Definition errRootMismatch (computed committed : bytes) : error :=
  EText ("root mismatch: computed=0x" +:+ hex_encode computed +:+ ", committed=0x" +:+
    hex_encode committed).

Definition processCommit (commit : OracleCommit) : iof St processStats :=
  match ClusterBalances commit with
  | [] => mret (mkStats 0 0 0)
  | balances =>
      tree ← run (lift (buildTree balances));
      if negb (rootMatches (Root tree) (MerkleRoot commit))
      then failf (errRootMismatch (Root tree) (MerkleRoot commit))
      else
        out ← processAllClusters (ReferenceBlock commit) tree storageLookup;
        let '(stats, staleLeaves) := out in
        match staleLeaves with
        | [] => mret stats
        | _ =>
            tryf (BuildHeadStateSnapshot retryConfig ssvContract syncFuel
                    (Merkle.ClusterID <$> staleLeaves)) (λ r,
              match r with
              | Ok o =>
                  retry_stale (ReferenceBlock commit) tree (overlayLookup o) staleLeaves stats
              | Err _ => mret (add_failed (Z.of_nat (length staleLeaves)) stats)
              | Panic => run (lift Panic)
              end)
        end
  end.

(** ** Events *)

Definition on_world {A} : iof St A → iof (Upd E) A :=
  zoomf world (λ s u, mkUpd s (lastProcessedBlock u)).

Definition set_processed (blockNum : Z) : iof (Upd E) unit := λ u,
  Some (Ok tt, mkUpd (world u) blockNum).

(** An error or a missing commit is logged and ends the handling. *)
Definition or_return {A} (m : iof St A) (k : A → iof (Upd E) unit) : iof (Upd E) unit :=
  tryf (on_world m) (λ r,
    match r with Ok a => k a | Err _ => mret tt | Panic => run (lift Panic) end).

(** The commit of the event's block, looked up again after a delay. *)
Definition lookup_commit (blockNum : Z) : iof St (option OracleCommit) :=
  commit ← run (on_data (GetCommitByBlock blockNum));
  match commit with
  | Some _ => mret commit
  | None =>
      _ ← run (on_env (sleep commitLookupRetryDelay));
      run (on_data (GetCommitByBlock blockNum))
  end.

Definition handleEvent (event : RootCommittedEvent) : iof (Upd E) unit := λ u,
  if rc_BlockNum event <=? lastProcessedBlock u then Some (Ok tt, u)
  else or_return (lookup_commit (rc_BlockNum event)) (λ commit,
    match commit with
    | None => mret tt
    | Some commit =>
        if negb (bool_decide (MerkleRoot commit = rc_MerkleRoot event)) then mret tt
        else or_return (processCommit commit) (λ _, set_processed (rc_BlockNum event))
    end) u.

Definition errChanClosed : error := EText "error channel closed unexpectedly".
Definition errEventChanClosed : error := EText "event channel closed unexpectedly".

(** The error of the context, or another one. *)
Definition ctx_or (err : error) : iof (Upd E) unit := λ u,
  failf (default err (ctx_Err (env (world u)))) u.

(** One subscription, on what its [select]s find in order; when [inputs] is used up it is
    still waiting. *)
Fixpoint subscribeAndProcess (inputs : list sub_input) : iof (Upd E) unit :=
  match inputs with
  | [] => mret tt
  | SubDone :: _ => ctx_or (ECtx "context canceled")
  | ErrChanClosed :: _ => ctx_or errChanClosed
  | EventChanClosed :: _ => ctx_or errEventChanClosed
  | ErrChan (Some err) :: _ => failf (EWrap "subscription error" err)
  | ErrChan None :: rest => subscribeAndProcess rest
  | RootCommitted event :: rest => _ ← handleEvent event; subscribeAndProcess rest
  end.

(** The subscriptions one after the other: each fails to open, or delivers inputs. *)
Fixpoint Run (subscriptions : list (result (list sub_input))) : iof (Upd E) unit :=
  match subscriptions with
  | [] => mret tt
  | sub :: rest =>
      tryf (match sub with
            | Ok inputs => subscribeAndProcess inputs
            | Err err => failf (EWrap "subscribe" err)
            | Panic => run (lift Panic)
            end) (λ r,
        match r with
        | Panic => run (lift Panic)
        | _ => λ u,
            match ctx_Err (env (world u)) with
            | Some err => failf err u
            | None => (_ ← on_world (run (on_env (sleep subscriptionRetryDelay))); Run rest) u
            end
        end)
  end.
End updater.

(** ** Specification *)

(** The call data of an update of a commit: it sets a balance of the commit, with a proof
    that leads from the leaf of the cluster and that balance to the commit's root. *)
Definition commit_update `{!Crypto, !ContractABI} (commit : OracleCommit) (calldata : bytes)
    : Prop :=
  ∃ owner operatorIDs cluster id balance proof,
    pack_updateClusterBalance (ReferenceBlock commit) owner operatorIDs cluster balance proof =
      Ok calldata ∧
    last_balance (ClusterBalances commit) id = Some balance ∧
    verifyProof (HashLeaf id balance) proof = MerkleRoot commit.

(** A transaction that sets the balance of a cluster under a commit was mined, with
    success. *)
Definition balance_set `{!Crypto, !ContractABI} {E} `{!TxClient E} (c : Client)
    (blockNum : Z) (root id : bytes) (balance : Z) : Prop :=
  ∃ owner operatorIDs cluster proof calldata nonce receipt,
    pack_updateClusterBalance blockNum owner operatorIDs cluster balance proof = Ok calldata ∧
    verifyProof (HashLeaf id balance) proof = root ∧
    mined (E:=E) (c_policy c) (c_chainID c) (update_opts c calldata) nonce receipt None.

Definition stats_total (st : processStats) : Z := updated st + skipped st + failed st.

(** The commit of an event: a stored one with its block and its root. *)
Definition committed_by (d : DB) (event : RootCommittedEvent) (commit : OracleCommit) : Prop :=
  (∃ epoch cols, oracle_commits d !! epoch = Some cols ∧ commit = read_commit epoch cols) ∧
  ReferenceBlock commit = rc_BlockNum event ∧ MerkleRoot commit = rc_MerkleRoot event.

(** The events of a subscription. *)
Definition event_of (input : sub_input) : option RootCommittedEvent :=
  match input with RootCommitted event => Some event | _ => None end.

Definition events_of (subscriptions : list (result (list sub_input))) : list RootCommittedEvent :=
  sub ← subscriptions;
  match sub with Ok inputs => omap event_of inputs | _ => [] end.

(** The database stays as it is, the environment moves along [R]. *)
Definition reads_only {E} (R : relation E) : relation (Exec E World) := λ s s',
  db (data s') = db (data s) ∧ R (env s) (env s').

#[global] Instance reads_only_preorder {E} (R : relation E) `{!PreOrder R} : PreOrder (reads_only R).
Proof.
  split; [intros s; by split|]. intros s1 s2 s3 [H1 H2] [H3 H4].
  split; [by rewrite H3|by etrans].
Qed.

(** The same for the updater's state; the last processed block does not move back. *)
Definition upd_rel {E} (R : relation E) : relation (Upd E) := λ u u',
  reads_only R (world u) (world u') ∧ lastProcessedBlock u <= lastProcessedBlock u'.

#[global] Instance upd_rel_preorder {E} (R : relation E) `{!PreOrder R} : PreOrder (upd_rel R).
Proof.
  split; [intros u; by split|]. intros u1 u2 u3 [H1 H2] [H3 H4].
  split; [by etrans|lia].
Qed.

(** ** Lemmas: what the updater reads and sends *)

Section reads.
Context {E : Type} (R : relation E) `{!PreOrder R}.

Lemma on_env_reads {A} (m : io E A) : moves_io R m → moves_io (reads_only R) (on_env m).
Proof.
  intros Hm s. specialize (Hm (env s)). unfold reads_only, on_env, zoom.
  by destruct (m (env s)).
Qed.

Lemma on_envf_reads {A} (m : iof E A) : movesf R m → movesf (reads_only R) (on_envf m).
Proof.
  intros Hm s r s'. unfold reads_only, on_envf, zoomf.
  destruct (m (env s)) as [[r0 e0]|] eqn:Em; [|done]. intros [= _ <-].
  split; [done|by eapply Hm].
Qed.

Lemma on_data_reads {A} (m : M A) : moves eq m → moves_io (reads_only R) (on_data m).
Proof.
  intros Hm s. specialize (Hm (data s)). unfold reads_only, on_data, zoom.
  by destruct (m (data s)).
Qed.

Lemma unless_ctx_reads `{!Runtime E} {A} (stop : A) (k : iof (Exec E World) A) :
  movesf (reads_only R) k → movesf (reads_only R) (unless_ctx stop k).
Proof. intros Hk s r s'. unfold unless_ctx. case_match; [by intros [= _ <-]|apply Hk]. Qed.

Lemma storageLookup_reads id : moves_io (reads_only R) (@storageLookup E id).
Proof. apply on_data_reads. unfold getClusterRow. moves_step. destruct a; moves_step. Qed.

Lemma overlayLookup_reads o id : moves_io (reads_only R) (@overlayLookup E o id).
Proof. apply moves_io_ret; apply _. Qed.
End reads.

(** The commit found for a block is stored under it. *)
Lemma GetCommitByBlock_inv blockNum w r w' :
  GetCommitByBlock blockNum w = (r, w') →
  db w' = db w ∧ ∀ c, r = Ok (Some c) → ReferenceBlock c = blockNum ∧
    ∃ epoch cols, oracle_commits (db w) !! epoch = Some cols ∧ c = read_commit epoch cols.
Proof.
  intros H. unfold GetCommitByBlock in H. apply wrapM_inv in H as (r0 & H & Hr).
  apply query_inv in H as [Hd Hq]. split; [done|]. intros c ->.
  destruct Hq as [->|Hne]; [|by destruct (Hne (Some c)); apply Hr].
  specialize (Hr (Some c)) as [Hr _]. injection (Hr eq_refl) as Hc. clear Hr.
  destruct (head _) as [[e cols]|] eqn:Eh; [|done]. injection Hc as <-. cbn.
  apply head_Some_elem_of in Eh. apply list_elem_of_filter in Eh as [? ?%elem_of_map_to_list].
  eauto.
Qed.

Section sends.
Context {HC : Crypto} {HA : SSVNetworkABI} {HB : ContractABI}.
Context {E : Type} `{!Runtime E, !ExecutionRPC E, !TxClient E, !ContractRPC E}.
Variable retryConfig : RetryConfig.
Variable ssvContract : bytes.
Variable c : Client.
Variables syncFuel sendFuel : nat.
Variable R : relation E.
Hypothesis HR : node_moves R.
Hypothesis Hcall : ∀ a d, moves_io R (CallLatest a d).
Variables (balances : list ClusterBalance) (root : bytes) (blockNum : Z).
Hypothesis Hupdate : ∀ owner ids cluster id balance proof,
  last_balance balances id = Some balance → verifyProof (HashLeaf id balance) proof = root →
  movesf R (UpdateClusterBalance c sendFuel blockNum owner ids cluster balance proof).

#[local] Instance R_preorder : PreOrder R := nm_preorder R HR.

#[local] Abbreviation lookup_reads lookup := (∀ id, moves_io (reads_only R) (lookup id)).

Lemma GetClusterEffectiveBalance_moves owner ids cluster :
  moves_io R (GetClusterEffectiveBalance c owner ids cluster).
Proof. unfold GetClusterEffectiveBalance. movesf_step. apply Hcall. Qed.

(** [tree] is the tree of the commit. *)
Variable tree : Tree.
Hypothesis Htree : buildTree balances = Ok tree.
Hypothesis Hroot : Root tree = root.

Lemma processCluster_reads leaf lookup :
  leaf ∈ leaves tree → lookup_reads lookup →
  movesf (reads_only R) (processCluster c sendFuel blockNum leaf tree lookup).
Proof.
  intros Hleaf Hl. apply (elem_buildTree _ _ _ Htree) in Hleaf as [Hid _].
  destruct (buildTree_proof _ _ _ _ Htree Hid) as (proof & Hp & Hv & _).
  unfold processCluster. apply movesf_bind; [apply _|by apply movesf_run, moves_io_wrapM|].
  intros [cluster|]; [|apply movesf_ret; apply _].
  eapply movesf_bind_ok with (P := λ a, a = proof); [apply _| | |].
  { apply movesf_run, moves_io_lift; apply _. }
  { intros s a s' Ha. rewrite Hp in Ha. by injection Ha. }
  intros ? ->. cbv zeta. apply movesf_bind; [apply _| |intros balance].
  { by apply movesf_run, moves_io_wrapM, on_env_reads, GetClusterEffectiveBalance_moves. }
  case_match; [apply movesf_ret; apply _|].
  apply movesf_tryf; [apply _| |intros r; movesf_step].
  eapply on_envf_reads, Hupdate; [by rewrite <- buildTree_map_lookup|by rewrite Hv].
Qed.

Lemma process_leaves_reads ls lookup stats stale :
  (∀ l, l ∈ ls → l ∈ leaves tree) → lookup_reads lookup →
  movesf (reads_only R) (process_leaves c sendFuel blockNum tree lookup ls stats stale).
Proof.
  intros Hls Hl. revert stats stale. induction ls as [|leaf ls IH]; intros stats stale;
    cbn [process_leaves]; [apply movesf_ret; apply _|].
  assert (∀ st sl, movesf (reads_only R) (process_leaves c sendFuel blockNum tree lookup ls st sl))
    as Hrest by (apply IH; intros l Hin; apply Hls; by right).
  apply unless_ctx_reads; [apply _|]. apply movesf_tryf; [apply _| |intros r].
  - apply processCluster_reads; [apply Hls; left|done].
  - movesf_step; auto.
Qed.

Lemma retry_stale_reads ls lookup stats :
  (∀ l, l ∈ ls → l ∈ leaves tree) → lookup_reads lookup →
  movesf (reads_only R) (retry_stale c sendFuel blockNum tree lookup ls stats).
Proof.
  intros Hls Hl. revert stats. induction ls as [|leaf ls IH]; intros stats;
    cbn [retry_stale]; [apply movesf_ret; apply _|].
  assert (∀ st, movesf (reads_only R) (retry_stale c sendFuel blockNum tree lookup ls st))
    as Hrest by (apply IH; intros l Hin; apply Hls; by right).
  apply unless_ctx_reads; [apply _|]. apply movesf_tryf; [apply _| |intros r].
  - apply processCluster_reads; [apply Hls; left|done].
  - movesf_step; auto.
Qed.

(** The leaves kept for the second pass are leaves of the first. *)
Lemma process_leaves_stale ls lookup stats stale s st stale' s' :
  process_leaves c sendFuel blockNum tree lookup ls stats stale s = Some (Ok (st, stale'), s') →
  ∀ l, l ∈ stale' → l ∈ stale ++ ls.
Proof.
  revert stats stale s. induction ls as [|leaf ls IH]; intros stats stale s H l Hin;
    cbn [process_leaves] in H.
  { injection H as _ <- _. by rewrite app_nil_r. }
  unfold unless_ctx in H. case_match; [injection H as _ <- _; apply elem_of_app; by left|].
  unfold tryf in H. destruct (processCluster _ _ _ _ _ _ s) as [[[ok|err|] s1]|]; try done;
    [|destruct (IsRevertError err) as [[reason sim]|]; [destruct (classify_revert reason)|]].
  1,4,5: apply IH with (l := l) in H; [|done]; rewrite !elem_of_app, elem_of_cons in *; tauto.
  - apply IH with (l := l) in H; [|done]. by rewrite <- app_assoc in H.
  - injection H as _ <- _. by apply elem_of_nil in Hin.
Qed.
End sends.

(** A submission of an update of a commit is within [R]. *)
Section submission.
Context {HC : Crypto} {HB : ContractABI} {E : Type} `{!Runtime E, !TxClient E, !ContractRPC E}.
Variable c : Client.
Variable sendFuel : nat.
Variable R : relation E.

Definition updates_within (commit : OracleCommit) : Prop :=
  ∀ owner ids cluster id balance proof,
    last_balance (ClusterBalances commit) id = Some balance →
    verifyProof (HashLeaf id balance) proof = MerkleRoot commit →
    movesf R (UpdateClusterBalance c sendFuel (ReferenceBlock commit) owner ids cluster balance
      proof).

Lemma observes_updates_within `{!PreOrder R} commit :
  TxManager.Validate (c_policy c) = Ok tt → fees_nonneg (E:=E) →
  (∀ calldata, commit_update commit calldata →
     observes (c_policy c) (c_chainID c) (update_opts c calldata) (λ _, R)) →
  updates_within commit.
Proof.
  intros Hp Hf Hobs owner ids cluster id balance proof Hb Hv. unfold UpdateClusterBalance.
  destruct (pack_updateClusterBalance (ReferenceBlock commit) owner ids cluster balance proof)
    as [calldata|e|] eqn:Epack; [|intros s r s'; by intros [= _ <-]..].
  eapply movesf_bind_ok with (P := λ a, a = calldata); [apply _| | |].
  { apply movesf_run, moves_io_lift; apply _. }
  { by intros s a s' [= -> ->]. }
  intros ? -> s r s' Hs.
  assert (commit_update commit calldata) as Hpu by (do 6 eexists; by split).
  by destruct (SendTransaction_moves _ _ _ _ Hp _ (λ _, R) _ _ _ _ Hf (Hobs _ Hpu) Hs)
    as [Hr|(n & e1 & e2 & _ & Hr)]; [apply (Hr 0)|].
Qed.
End submission.

(** Everything an event does. *)
Section event.
Context {HC : Crypto} {HA : SSVNetworkABI} {HB : ContractABI}.
Context {E : Type} `{!Runtime E, !ExecutionRPC E, !TxClient E, !ContractRPC E}.
Variable retryConfig : RetryConfig.
Variable ssvContract : bytes.
Variable c : Client.
Variables syncFuel sendFuel : nat.
Variable R : relation E.
Hypothesis HR : node_moves R.
Hypothesis Hcall : ∀ a d, moves_io R (CallLatest a d).

#[local] Instance event_preorder : PreOrder R := nm_preorder R HR.

Lemma processCommit_reads commit :
  updates_within c sendFuel R commit →
  movesf (reads_only R) (processCommit retryConfig ssvContract c syncFuel sendFuel commit).
Proof.
  intros Hu. unfold processCommit.
  destruct (ClusterBalances commit) as [|b0 bs] eqn:Eb; [apply movesf_ret; apply _|].
  destruct (buildTree_Ok (b0 :: bs)) as [tree Ht].
  eapply movesf_bind_ok with (P := λ t, t = tree); [apply _| | |].
  { apply movesf_run, moves_io_lift; apply _. }
  { intros s t s' H. rewrite Ht in H. by injection H. }
  intros ? ->. destruct (rootMatches (Root tree) (MerkleRoot commit)) eqn:Em; cbn [negb];
    [|apply movesf_fail; apply _].
  apply bool_decide_eq_true in Em. unfold updates_within in Hu. rewrite Eb in Hu.
  eapply movesf_bind_ok with (P := λ out, ∀ l, l ∈ out.2 → l ∈ leaves tree); [apply _| | |].
  { eapply process_leaves_reads; eauto. apply storageLookup_reads; apply _. }
  { intros s [st stale] s' H. unfold processAllClusters in H.
    exact (process_leaves_stale _ _ _ _ _ _ _ _ _ _ _ _ H). }
  intros [st stale] Hstale. cbn in Hstale. destruct stale as [|l0 ls]; [apply movesf_ret; apply _|].
  apply movesf_tryf; [apply _| |intros [o|err|]; movesf_step].
  - intros s r s' H. split; [by eapply BuildHeadStateSnapshot_db|].
    by eapply (BuildHeadStateSnapshot_env R) in H.
  - eapply retry_stale_reads; eauto. apply overlayLookup_reads; apply _.
Qed.

Lemma on_world_moves {A} (m : iof (Exec E World) A) :
  movesf (reads_only R) m → movesf (upd_rel R) (on_world m).
Proof.
  intros Hm u r u'. unfold on_world, zoomf. destruct (m (world u)) as [[r0 s0]|] eqn:Em; [|done].
  intros [= _ <-]. split; [by eapply Hm|done].
Qed.

(** The commit found is a stored one with the block, and nothing is changed. *)
Lemma lookup_commit_inv blockNum (s : Exec E World) r s' :
  lookup_commit blockNum s = Some (r, s') →
  reads_only R s s' ∧ ∀ commit, r = Ok (Some commit) → ReferenceBlock commit = blockNum ∧
    ∃ epoch cols, oracle_commits (db (data s)) !! epoch = Some cols ∧
      commit = read_commit epoch cols.
Proof.
  intros H. unfold lookup_commit in H.
  apply bind_iof_inv in H as [(found & s1 & Eg & H)|(r0 & Eg & _ & Hne)];
    apply run_inv, zoom_run in Eg as (w1 & Eg & ->); apply GetCommitByBlock_inv in Eg as [Hd Hc].
  2:{ split; [by split|]. intros commit ->. by destruct (Hne (Some commit)). }
  destruct found as [commit|].
  { injection H as <- <-. split; [by split|]. intros ? [= <-]. by apply Hc. }
  apply bind_iof_inv in H as [([] & s2 & Es & H)|(r0 & Es & _ & Hne)];
    apply run_inv, zoom_run in Es as (e2 & Es & ->);
    pose proof (nm_sleep R HR commitLookupRetryDelay (env s)) as Hsleep; cbn [env] in Es;
    rewrite Es in Hsleep; cbn in Hsleep.
  2:{ split; [by split|]. intros commit ->. by destruct (Hne (Some commit)). }
  apply run_inv, zoom_run in H as (w3 & Eg2 & ->). cbn [data] in Eg2.
  apply GetCommitByBlock_inv in Eg2 as [Hd2 Hc2].
  rewrite Hd in Hc2, Hd2. by split.
Qed.

(** What one event does, when every commit it may process is within [R]. *)
Lemma handleEvent_reads event (u : Upd E) r u' :
  (∀ commit, committed_by (db (data (world u))) event commit →
     updates_within c sendFuel R commit) →
  handleEvent retryConfig ssvContract c syncFuel sendFuel event u = Some (r, u') →
  upd_rel R u u'.
Proof.
  intros Hu H. unfold handleEvent in H. destruct (Z.leb_spec (rc_BlockNum event) (lastProcessedBlock u)).
  { by injection H as _ <-. }
  unfold or_return, tryf at 1, on_world at 1, zoomf at 1 in H.
  destruct (lookup_commit _ (world u)) as [[found s1]|] eqn:El; [|done].
  apply lookup_commit_inv in El as [H1 Hc].
  destruct found as [[commit|]|e|]; [|by injection H as _ <-..].
  destruct (Hc commit eq_refl) as [Hblock Hstored].
  case_bool_decide as Hroot; cbn [negb] in H; [|by injection H as _ <-].
  unfold tryf, on_world, zoomf in H. cbn [world] in H.
  destruct (processCommit _ _ _ _ _ commit s1) as [[st s2]|] eqn:Ep; [|done].
  apply processCommit_reads in Ep; [|by apply Hu].
  assert (reads_only R (world u) s2) as H2 by (by etrans).
  destruct st as [st|e|]; injection H as _ <-; split; cbn; try done; lia.
Qed.
End event.

(** What the statistics count. *)
Section counts.
Context {HC : Crypto} {HA : SSVNetworkABI} {HB : ContractABI}.
Context {E : Type} `{!Runtime E, !ExecutionRPC E, !TxClient E, !ContractRPC E}.
Variable c : Client.
Variable sendFuel : nat.
Hypothesis Hpolicy : TxManager.Validate (c_policy c) = Ok tt.
Hypothesis Hfees : fees_nonneg (E:=E).
Variables (balances : list ClusterBalance) (blockNum : Z) (tree : Tree).
Hypothesis Htree : buildTree balances = Ok tree.

Abbreviation leaf_set leaf := (balance_set (E:=E) c blockNum (Root tree) (Merkle.ClusterID leaf)
  (EffectiveBalance leaf)).

(** [upd] are the leaves updated on the way from [stats] to [st], over [n] leaves. *)
Definition counted (upd : list Leaf) (n : nat) (stats st : processStats) : Prop :=
  Forall (λ leaf, leaf_set leaf) upd ∧ updated st = updated stats + Z.of_nat (length upd) ∧
  skipped stats <= skipped st ∧ failed stats <= failed st ∧
  stats_total st <= stats_total stats + Z.of_nat n.

Lemma processCluster_updated leaf lookup (s : Exec E World) s' :
  leaf ∈ leaves tree →
  processCluster c sendFuel blockNum leaf tree lookup s = Some (Ok true, s') → leaf_set leaf.
Proof.
  intros Hleaf H. apply (elem_buildTree _ _ _ Htree) in Hleaf as [Hid _].
  destruct (buildTree_proof _ _ _ _ Htree Hid) as (proof & Hp & Hv & _).
  unfold processCluster in H.
  apply bind_iof_inv in H as [(found & s1 & _ & H)|(r0 & _ & _ & Hr)]; [|by destruct (Hr true)].
  destruct found as [cluster|]; [|by injection H].
  apply bind_iof_inv in H as [(prf & s2 & Ep & H)|(r0 & _ & _ & Hr)]; [|by destruct (Hr true)].
  unfold run, lift in Ep. rewrite Hp in Ep. injection Ep as <- <-.
  apply bind_iof_inv in H as [(cur & s3 & _ & H)|(r0 & _ & _ & Hr)]; [|by destruct (Hr true)].
  case_match; [by injection H|]. unfold tryf in H.
  destruct (on_envf _ s3) as [[r4 s4]|] eqn:Eu; [|done].
  apply zoomf_run in Eu as (e4 & Eu & ->).
  destruct r4 as [[receipt [err|]]|err|]; try (by injection H).
  unfold UpdateClusterBalance in Eu.
  apply bind_iof_inv in Eu as [(calldata & s5 & Ec & Eu)|(r0 & _ & _ & Hr)];
    [|by destruct (Hr (receipt, None))].
  apply run_inv, lift_Ok in Ec as [Ec _]. apply wrap_Ok in Ec.
  apply (SendTransaction_receipt _ _ _ _ Hpolicy) in Eu as [nonce Hm]; [|done].
  do 7 eexists. eauto.
Qed.

Lemma counted_cons upd n leaf stats st (ok : bool) :
  (ok = true → leaf_set leaf) →
  counted upd n (if ok then add_updated stats else add_skipped stats) st →
  ∃ upd', counted upd' (S n) stats st ∧ upd' = (if ok then leaf :: upd else upd).
Proof.
  intros Hok (Hf & Hu & Hs & Hfl & Ht). exists (if ok then leaf :: upd else upd). split; [|done].
  unfold counted, stats_total in *.
  destruct ok; cbn in *; (split_and!; [|cbn; lia..]); [|done].
  constructor; [by apply Hok|done].
Qed.

Lemma counted_less upd n m stats stats' st :
  counted upd n stats' st → updated stats' = updated stats → skipped stats <= skipped stats' →
  failed stats <= failed stats' → stats_total stats' + Z.of_nat n <= stats_total stats + Z.of_nat m →
  counted upd m stats st.
Proof. unfold counted, stats_total. intros (? & ? & ? & ? & ?) ????. split_and!; [done|lia..]. Qed.

Lemma counted_nil stats n : counted [] n stats stats.
Proof. unfold counted. split_and!; cbn; [constructor|lia..]. Qed.

Lemma retry_stale_counted ls lookup stats (s : Exec E World) st s' :
  (∀ l, l ∈ ls → l ∈ leaves tree) →
  retry_stale c sendFuel blockNum tree lookup ls stats s = Some (Ok st, s') →
  ∃ upd, upd ⊆+ ls ∧ counted upd (length ls) stats st.
Proof.
  revert stats s. induction ls as [|leaf ls IH]; intros stats s Hls H; cbn [retry_stale] in H.
  { injection H as <- _. exists []. split; [done|apply counted_nil]. }
  unfold unless_ctx in H. case_match.
  { injection H as <- _. exists []. split; [apply submseteq_nil_l|apply counted_nil]. }
  unfold tryf in H.
  destruct (processCluster _ _ _ _ _ _ s) as [[[ok|err|] s1]|] eqn:Ep; try done;
    apply IH in H as (upd & Hsub & Hc); try (intros l Hl; apply Hls; by right).
  - apply (counted_cons _ _ leaf) in Hc as (upd' & Hc & ->).
    + exists (if ok then leaf :: upd else upd). split; [|done].
      destruct ok; [by apply submseteq_skip|by apply submseteq_cons].
    + intros ->. eapply processCluster_updated; [apply Hls; left|done].
  - exists upd. split; [by apply submseteq_cons|].
    eapply counted_less; [exact Hc|..]; unfold stats_total; cbn; lia.
Qed.
(** The first pass: a leaf is updated or kept for the second, not both. *)
Lemma process_leaves_counted ls lookup stats stale (s : Exec E World) st stale' s' :
  (∀ l, l ∈ ls → l ∈ leaves tree) →
  process_leaves c sendFuel blockNum tree lookup ls stats stale s = Some (Ok (st, stale'), s') →
  ∃ upd, upd ++ stale' ⊆+ stale ++ ls ∧
    counted upd (length stale + length ls - length stale') stats st.
Proof.
  revert stats stale s. induction ls as [|leaf ls IH]; intros stats stale s Hls H;
    cbn [process_leaves] in H.
  { injection H as <- <- _. exists []. split; [by rewrite app_nil_r|apply counted_nil]. }
  unfold unless_ctx in H. case_match.
  { injection H as <- <- _. exists []. split; [by apply submseteq_inserts_r|apply counted_nil]. }
  assert (∀ l, l ∈ ls → l ∈ leaves tree) as Hls' by (intros l Hl; apply Hls; by right).
  assert (∀ upd, upd ++ stale' ⊆+ stale ++ ls → upd ++ stale' ⊆+ stale ++ leaf :: ls) as Hskip.
  { intros upd Hsub. etrans; [exact Hsub|]. apply submseteq_skips_l, submseteq_cons. done. }
  unfold tryf in H.
  destruct (processCluster _ _ _ _ _ _ s) as [[[ok|err|] s1]|] eqn:Ep; try done.
  - apply (IH _ _ _ Hls') in H as (upd & Hsub & Hc).
    pose proof (submseteq_length _ _ Hsub) as Hlen. rewrite !length_app in Hlen.
    apply (counted_cons _ _ leaf) in Hc as (upd' & Hc & Hupd).
    2:{ intros ->. eapply processCluster_updated; [apply Hls; left|done]. }
    exists upd'. split.
    + subst. destruct ok; [|by apply Hskip]. cbn. rewrite <- Permutation_middle.
      by apply submseteq_skip.
    + eapply counted_less; [exact Hc|cbn [length]; lia..].
  - assert (∀ stats' n, updated stats' = updated stats → skipped stats <= skipped stats' →
        failed stats <= failed stats' → stats_total stats' <= stats_total stats + 1 →
        process_leaves c sendFuel blockNum tree lookup ls stats' stale s1 =
          Some (Ok (st, stale'), s') →
        (n = length stale + length (leaf :: ls) - length stale')%nat →
        ∃ upd, upd ++ stale' ⊆+ stale ++ leaf :: ls ∧ counted upd n stats st) as Hnext.
    { intros stats' n ???? Hp ->. apply (IH _ _ _ Hls') in Hp as (upd & Hsub & Hc).
      pose proof (submseteq_length _ _ Hsub) as Hlen. rewrite !length_app in Hlen.
      exists upd. split; [by apply Hskip|]. eapply counted_less; [exact Hc|done..|cbn; lia]. }
    destruct (IsRevertError err) as [[reason sim]|];
      [destruct (classify_revert reason)|]; try (eapply Hnext; [..|exact H|done]; unfold stats_total;
        cbn; lia).
    + apply (IH _ _ _ Hls') in H as (upd & Hsub & Hc). exists upd.
      rewrite <- app_assoc in Hsub. split; [done|].
      eapply counted_less; [exact Hc|rewrite ?length_app; cbn; lia..].
    + injection H as <- <- _. exists []. split; [apply submseteq_nil_l|].
      unfold counted, stats_total. cbn. split_and!; [constructor|lia..].
Qed.
Lemma counted_app upd1 upd2 n m stats st1 st2 :
  counted upd1 n stats st1 → counted upd2 m st1 st2 → counted (upd1 ++ upd2) (n + m) stats st2.
Proof.
  unfold counted. intros (? & ? & ? & ? & ?) (? & ? & ? & ? & ?).
  split_and!; [by apply Forall_app|rewrite ?length_app; lia..].
Qed.

(** Both passes: the snapshot in between fails as a whole or not at all. *)
Lemma passes_counted upd1 stale upd2 st1 st2 :
  upd1 ++ stale ⊆+ leaves tree →
  counted upd1 (length (leaves tree) - length stale) (mkStats 0 0 0) st1 →
  upd2 ⊆+ stale → counted upd2 (length stale) st1 st2 →
  ∃ upd, upd ⊆+ leaves tree ∧ counted upd (length (leaves tree)) (mkStats 0 0 0) st2.
Proof.
  intros Hsub H1 H2 Hc2. pose proof (submseteq_length _ _ Hsub) as Hlen.
  rewrite length_app in Hlen. exists (upd1 ++ upd2). split.
  - etrans; [by apply submseteq_skips_l|done].
  - eapply counted_less; [by eapply counted_app|cbn; lia..].
Qed.
End counts.

Section commit_counts.
Context {HC : Crypto} {HA : SSVNetworkABI} {HB : ContractABI}.
Context {E : Type} `{!Runtime E, !ExecutionRPC E, !TxClient E, !ContractRPC E}.

Lemma processCommit_counted retryConfig ssvContract c syncFuel sendFuel commit (s : Exec E World) st s' :
  TxManager.Validate (c_policy c) = Ok tt → fees_nonneg (E:=E) →
  processCommit retryConfig ssvContract c syncFuel sendFuel commit s = Some (Ok st, s') →
  ∃ tree upd, buildTree (ClusterBalances commit) = Ok tree ∧ upd ⊆+ leaves tree ∧
    (upd ≠ [] → Root tree = MerkleRoot commit) ∧
    counted c (ReferenceBlock commit) tree upd (length (leaves tree)) (mkStats 0 0 0) st.
Proof.
  intros Hp Hf H. destruct (buildTree_Ok (ClusterBalances commit)) as [tree Ht]. exists tree.
  unfold processCommit in H. destruct (ClusterBalances commit) as [|b0 bs].
  { injection H as <- _. exists []. split_and!; [done|apply submseteq_nil_l|done|].
    apply counted_nil. }
  apply bind_iof_inv in H as [(t & s0 & Hb & H)|(r0 & _ & _ & Hr)]; [|by destruct (Hr st)].
  unfold run, lift in Hb. rewrite Ht in Hb. injection Hb as <- <-.
  destruct (rootMatches (Root tree) (MerkleRoot commit)) eqn:Em; cbn [negb] in H; [|done].
  apply bool_decide_eq_true in Em.
  enough (∃ upd, upd ⊆+ leaves tree ∧
    counted c (ReferenceBlock commit) tree upd (length (leaves tree)) (mkStats 0 0 0) st)
    as (upd & ? & ?) by eauto 6.
  apply bind_iof_inv in H as [([st1 stale] & s1 & E1 & H)|(r0 & _ & _ & Hr)];
    [|by destruct (Hr st)].
  unfold processAllClusters, Leaves in E1.
  apply (process_leaves_counted c sendFuel Hp Hf _ _ _ Ht) in E1 as (upd1 & Hsub & Hc1); [|done].
  cbn [app length Nat.add] in Hsub, Hc1. destruct stale as [|l0 ls].
  { injection H as <- _. rewrite app_nil_r in Hsub. exists upd1. split; [done|].
    eapply counted_less; [exact Hc1|cbn; lia..]. }
  assert (∀ l, l ∈ l0 :: ls → l ∈ leaves tree) as Hls.
  { intros l Hl. eapply (elem_of_submseteq _ _ l); [|exact Hsub]. apply elem_of_app. by right. }
  unfold tryf in H. destruct (BuildHeadStateSnapshot _ _ _ _ s1) as [[[o|e|] s2]|]; try done.
  - apply (retry_stale_counted c sendFuel Hp Hf _ _ _ Ht) in H as (upd2 & Hsub2 & Hc2); [|done].
    by eapply passes_counted.
  - injection H as <- _.
    eapply passes_counted; [exact Hsub|exact Hc1|apply submseteq_nil_l|].
    unfold counted, stats_total, add_failed. cbn. split_and!; [constructor|lia..].
Qed.
End commit_counts.

(** Everything the subscriptions do. *)
Section loop.
Context {HC : Crypto} {HA : SSVNetworkABI} {HB : ContractABI}.
Context {E : Type} `{!Runtime E, !ExecutionRPC E, !TxClient E, !ContractRPC E}.
Variable retryConfig : RetryConfig.
Variable ssvContract : bytes.
Variable c : Client.
Variables syncFuel sendFuel : nat.
Variable R : relation E.
Hypothesis HR : node_moves R.
Hypothesis Hcall : ∀ a d, moves_io R (CallLatest a d).
Variable d : DB.

#[local] Instance loop_preorder : PreOrder R := nm_preorder R HR.

(** [upd_rel R] from the states whose database is [d]. *)
Definition from : relation (Upd E) := λ u u', db (data (world u)) = d → upd_rel R u u'.

#[local] Instance from_preorder : PreOrder from.
Proof.
  split; [by intros u _|]. intros u1 u2 u3 H1 H2 Hd.
  destruct (H1 Hd) as [[Hd1 Hr1] Hl1]. destruct H2 as [[Hd2 Hr2] Hl2]; [by rewrite Hd1|].
  split; [split; [by rewrite Hd2|by etrans]|lia].
Qed.

(** The commits the events may lead to. *)
Definition events_within (events : list RootCommittedEvent) : Prop :=
  ∀ event commit, event ∈ events → committed_by d event commit →
    updates_within c sendFuel R commit.

Lemma subscribeAndProcess_reads inputs :
  events_within (omap event_of inputs) →
  movesf from (subscribeAndProcess retryConfig ssvContract c syncFuel sendFuel inputs).
Proof.
  induction inputs as [|input inputs IH]; intros Hev; cbn [subscribeAndProcess];
    [apply movesf_ret; apply _|].
  assert (events_within (omap event_of inputs)) as Hrest.
  { intros event commit Hin. apply Hev. cbn. destruct (event_of input); [by right|done]. }
  destruct input as [|[err|]| | |event]; try (apply movesf_fail; apply _); try by apply IH.
  1-3: intros u r u'; by intros [= _ <-] _.
  apply movesf_bind; [apply _| |intros _; by apply IH].
  intros u r u' H Hd. eapply (handleEvent_reads retryConfig ssvContract c); [done..| |exact H].
  rewrite Hd. intros commit. apply Hev. cbn. left.
Qed.

Lemma Run_reads subscriptions :
  events_within (events_of subscriptions) →
  movesf from (Run retryConfig ssvContract c syncFuel sendFuel subscriptions).
Proof.
  induction subscriptions as [|sub subs IH]; intros Hev; cbn [Run]; [apply movesf_ret; apply _|].
  assert (events_within (events_of subs)) as Hrest.
  { intros event commit Hin. apply Hev. unfold events_of. cbn. apply elem_of_app. by right. }
  apply movesf_tryf; [apply _| |intros r].
  - destruct sub as [inputs|err|]; [|apply movesf_fail; apply _|by intros u r u' [= _ <-]].
    apply subscribeAndProcess_reads. intros event commit Hin. apply Hev.
    unfold events_of. cbn. apply elem_of_app. by left.
  - assert (movesf from (_ ← on_world (run (on_env (sleep subscriptionRetryDelay)));
      Run retryConfig ssvContract c syncFuel sendFuel subs)) as Hnext.
    { apply movesf_bind; [apply _| |intros _; by apply IH]. intros u r' u' H _.
      eapply on_world_moves; [|exact H]. apply movesf_run, on_env_reads, (nm_sleep R HR). }
    destruct r; [..|by intros u r' u' [= _ <-]]; intros u r' u';
      (destruct (ctx_Err _); [by intros [= _ <-]|apply Hnext]).
Qed.
End loop.

(** ** Properties *)

Section properties.
Context {HC : Crypto} {HA : SSVNetworkABI} {HB : ContractABI}.
Context {E : Type} `{!Runtime E, !ExecutionRPC E, !TxClient E, !ContractRPC E}.
Variable retryConfig : RetryConfig.
Variable ssvContract : bytes.
Variable c : Client.
Variables syncFuel sendFuel : nat.

(** C3: whatever the subscriptions deliver and whichever calls fail, the updater leaves the
    database as it is, its last processed block never decreases, and the only transactions
    it sends are, besides cancellations, calls of [updateClusterBalance] that set a balance
    stored in a commit whose block and root are those of an event received, with a proof
    that verifies against that root.  [R] is any relation between environments that such
    submissions and the other calls keep. *)
Theorem Run_sends (R : relation E) subscriptions (u : Upd E) r u' :
  node_moves R → (∀ a d, moves_io R (CallLatest a d)) →
  TxManager.Validate (c_policy c) = Ok tt → fees_nonneg (E:=E) →
  (∀ event commit calldata, event ∈ events_of subscriptions →
     committed_by (db (data (world u))) event commit → commit_update commit calldata →
     observes (c_policy c) (c_chainID c) (update_opts c calldata) (λ _, R)) →
  Run retryConfig ssvContract c syncFuel sendFuel subscriptions u = Some (r, u') →
  db (data (world u')) = db (data (world u)) ∧ lastProcessedBlock u <= lastProcessedBlock u' ∧
  R (env (world u)) (env (world u')).
Proof.
  intros HR Hcall Hp Hf Hobs H. pose proof (nm_preorder R HR).
  apply (Run_reads retryConfig ssvContract c syncFuel sendFuel R HR Hcall (db (data (world u))))
    in H; [by destruct (H eq_refl) as [[? ?] ?]|].
  intros event commit Hin Hc. apply observes_updates_within; [done..|].
  intros calldata. by eapply Hobs.
Qed.

(** C22: an event for a block not after the last processed one changes nothing.  Any other
    makes its block the last processed one exactly when a stored commit was found for it, now
    or after the delay, with the event's root, and processing it did not fail; else the event
    is dropped and a later one for the same block is handled again.  Handling never fails. *)
Theorem handleEvent_outcome event (u : Upd E) r u' :
  handleEvent retryConfig ssvContract c syncFuel sendFuel event u = Some (r, u') →
  (rc_BlockNum event <= lastProcessedBlock u → r = Ok tt ∧ u' = u) ∧
  (lastProcessedBlock u < rc_BlockNum event → r ≠ Panic →
     r = Ok tt ∧
     let found := ∃ commit s st, lookup_commit (rc_BlockNum event) (world u) =
         Some (Ok (Some commit), s) ∧ MerkleRoot commit = rc_MerkleRoot event ∧
       processCommit retryConfig ssvContract c syncFuel sendFuel commit s =
         Some (Ok st, world u') in
     (found ∧ lastProcessedBlock u' = rc_BlockNum event) ∨
     (¬ found ∧ lastProcessedBlock u' = lastProcessedBlock u)).
Proof.
  intros H. unfold handleEvent in H.
  destruct (Z.leb_spec (rc_BlockNum event) (lastProcessedBlock u)) as [Hle|Hlt].
  { injection H as <- <-. split; [done|lia]. }
  split; [lia|intros _ Hnp]. cbv zeta.
  unfold or_return, tryf at 1 in H.
  destruct (on_world _ u) as [[found u1]|] eqn:El; [|done].
  apply zoomf_run in El as (s1 & El & ->). rewrite El.
  destruct found as [[commit|]|e|]; [|injection H as <- <-; (split; [done|right]);
    (split; [by intros (? & ? & ? & [=] & _)|done])..|by injection H as <- _].
  case_bool_decide as Hroot; cbn [negb] in H.
  2:{ injection H as <- <-. split; [done|right]. split; [|done].
      by intros (? & ? & ? & [= <- <-] & Hm & _). }
  unfold tryf in H. destruct (on_world _ _) as [[st u2]|] eqn:Ep; [|done].
  apply zoomf_run in Ep as (s2 & Ep & ->). cbn [world] in Ep.
  destruct st as [st|e|]; [| |by injection H as <- _].
  - injection H as <- <-. split; [done|left]. split; [|done]. by exists commit, s1, st.
  - injection H as <- <-. split; [done|right]. split; [|done].
    intros (? & ? & ? & [= <- <-] & _ & Hp). by rewrite Ep in Hp.
Qed.

(** C7: the statistics of a processed commit are honest: each cluster is counted at most
    once, and the number of updates is the number of distinct clusters of the commit for
    which a transaction setting the stored balance, with a proof for the commit's root, was
    mined with success. *)
Theorem processCommit_counts commit (s : Exec E World) st s' :
  TxManager.Validate (c_policy c) = Ok tt → fees_nonneg (E:=E) →
  processCommit retryConfig ssvContract c syncFuel sendFuel commit s = Some (Ok st, s') →
  0 <= skipped st ∧ 0 <= failed st ∧
  stats_total st <= Z.of_nat (size (buildTree_map (ClusterBalances commit))) ∧
  ∃ upd : list (bytes * Z), updated st = Z.of_nat (length upd) ∧ NoDup upd.*1 ∧
    Forall (λ '(id, balance), last_balance (ClusterBalances commit) id = Some balance ∧
      balance_set (E:=E) c (ReferenceBlock commit) (MerkleRoot commit) id balance) upd.
Proof.
  intros Hp Hf H.
  apply processCommit_counted in H as (tree & upd & Ht & Hsub & Hroot & Hall & Hu & Hs & Hfl & Htot);
    [|done..].
  rewrite (buildTree_length _ _ Ht) in Htot. unfold stats_total in *. cbn in *.
  split_and!; [lia..|]. exists ((λ l, (Merkle.ClusterID l, EffectiveBalance l)) <$> upd).
  rewrite length_fmap. split; [lia|]. split.
  - rewrite <- list_fmap_compose. apply submseteq_Permutation in Hsub as [rest Hp'].
    pose proof (buildTree_NoDup _ _ Ht) as Hnd. rewrite Hp', fmap_app in Hnd.
    by apply NoDup_app in Hnd as [Hnd _].
  - apply Forall_fmap, Forall_forall. intros leaf Hin. cbn.
    rewrite <- Hroot by (by intros ->; apply elem_of_nil in Hin). split.
    + rewrite <- buildTree_map_lookup. eapply (elem_buildTree _ _ _ Ht).
      by eapply elem_of_submseteq.
    + by rewrite Forall_forall in Hall; apply Hall.
Qed.
End properties.

(** ** Witnesses *)

#[local] Existing Instance TxManager.toy_runtime.
#[local] Existing Instance TxManager.toy_client.

(** A node at block 120 without logs. *)
#[local] Instance toy_execution : ExecutionRPC toy :=
  { HeaderByNumber _ e := (Ok 120, e);
    FilterLogs _ _ _ _ e := (Ok [], e);
    BatchCallContext _ e := (Ok (λ _, Ok 0), e);
    Execution.ChainID e := (Ok 1, e) }.

(** The contract holds 32 ETH for every cluster. *)
#[local] Instance toy_contract_rpc : ContractRPC toy :=
  { CallLatest _ _ e := (Ok (be_bytes 32 32), e) }.

#[local] Existing Instance Contract.toy_contract_abi.

Definition toy_contract : Client :=
  mkClient (replicate 20 x02) (replicate 20 x03) toy_policy 1 [] ∅.

(** A commit of one cluster at block 120. *)
Definition toy_balances : list ClusterBalance := [mkBalance (be_bytes 32 1) 48].

Definition toy_root : bytes :=
  match buildTree toy_balances with Ok t => Root t | _ => [] end.

Definition toy_cols : commit_cols :=
  mkCommitCols toy_root 120 (Some (BArr toy_balances)) Confirmed None.

Definition toy_commit : OracleCommit := read_commit 900 toy_cols.

Definition toy_db : DB := set_commits {[ 900 := toy_cols ]} example_db.

Definition toy_world : Exec toy World :=
  mkExec (NewAdaptiveBatchSize 0 0) (mkToy 0 []) (mkWorld toy_db []).

Definition toy_updater : Upd toy := mkUpd toy_world 100.

Definition toy_event : RootCommittedEvent := mkRootCommitted toy_root 120 [x01].

(** The event arrives twice, with an older one in between. *)
Definition toy_subscriptions : list (result (list sub_input)) :=
  [Err (EText "no websocket");
   Ok [RootCommitted toy_event; RootCommitted (mkRootCommitted toy_root 90 []);
       RootCommitted toy_event; ErrChanClosed]].

(** What was taken since are updates of a commit of these events, and cancellations. *)
Definition toy_update_R : relation toy := λ e e', ∃ txs, taken e' = taken e ++ txs ∧
  Forall (λ tx, ∃ n, is_cancel toy_policy 1 n (payload tx) ∨
    ∃ event commit calldata, event ∈ events_of toy_subscriptions ∧
      committed_by toy_db event commit ∧ commit_update commit calldata ∧
      is_call toy_policy 1 (update_opts toy_contract calldata) n (payload tx)) txs.

Lemma toy_update_refl e e' : taken e' = taken e → toy_update_R e e'.
Proof. intros H. exists []. by rewrite app_nil_r. Qed.

#[local] Instance toy_update_preorder : PreOrder toy_update_R.
Proof.
  split; [intros e; by apply toy_update_refl|].
  intros a b c (l & H1 & F1) (k & H2 & F2). exists (l ++ k).
  rewrite H2, H1, app_assoc. split; [done|]. by apply Forall_app.
Qed.

Definition toy_run : result unit * Upd toy :=
  default (Panic, toy_updater)
    (Run DefaultRetryConfig [] toy_contract 5 13 toy_subscriptions toy_updater).

Lemma toy_run_ends :
  Run DefaultRetryConfig [] toy_contract 5 13 toy_subscriptions toy_updater =
    Some (toy_run.1, toy_run.2).
Proof.
  unfold toy_run. destruct (Run _ _ _ _ _ _ _) as [[r u]|] eqn:Hr; [done|].
  assert (match Run DefaultRetryConfig [] toy_contract 5 13 toy_subscriptions toy_updater with
    Some _ => true | None => false end = true) as Ht by (vm_compute; reflexivity).
  by rewrite Hr in Ht.
Qed.

(** One update is sent, by the first delivery of the event. *)
Example toy_subscriptions_value : length (taken (env (world toy_run.2))) = 1%nat ∧
  lastProcessedBlock toy_run.2 = 120.
Proof. vm_compute. done. Qed.

Lemma Run_sends_witness :
  db (data (world toy_run.2)) = toy_db ∧ 100 <= lastProcessedBlock toy_run.2 ∧
  toy_update_R (mkToy 0 []) (env (world toy_run.2)).
Proof.
  apply (Run_sends DefaultRetryConfig [] toy_contract 5 13 toy_update_R toy_subscriptions
    toy_updater toy_run.1 toy_run.2); [|..|exact toy_run_ends].
  - split; [apply _|..]; intros; try (intros e; by apply toy_update_refl). by apply toy_update_refl.
  - intros a d e. by apply toy_update_refl.
  - reflexivity.
  - exact toy_fees.
  - intros event commit calldata Hev Hc Hu.
    split; intros; try apply _; try (intros e; by apply toy_update_refl).
    + intros e. apply toy_update_refl. unfold TransactionReceipt, toy_client. by case_match.
    + intros e. apply toy_update_refl. unfold BlockNumber, toy_client. cbv zeta. by case_match.
    + intros e. exists [mkSigned tx h]. split; [done|]. constructor; [|done].
      exists n. destruct H as [Hcall|Hcancel]; [right|by left]. by exists event, commit, calldata.
Defined.

Definition toy_handled : result unit * Upd toy :=
  default (Panic, toy_updater)
    (handleEvent DefaultRetryConfig [] toy_contract 5 13 toy_event toy_updater).

Lemma toy_handled_ends :
  handleEvent DefaultRetryConfig [] toy_contract 5 13 toy_event toy_updater =
    Some (toy_handled.1, toy_handled.2).
Proof.
  unfold toy_handled. destruct (handleEvent _ _ _ _ _ _ _) as [[r u]|] eqn:Hr; [done|].
  assert (match handleEvent DefaultRetryConfig [] toy_contract 5 13 toy_event toy_updater with
    Some _ => true | None => false end = true) as Ht by (vm_compute; reflexivity).
  by rewrite Hr in Ht.
Qed.

Lemma toy_handled_ok : toy_handled.1 = Ok tt.
Proof. vm_compute. reflexivity. Qed.

Abbreviation toy_found := (∃ commit s st,
  lookup_commit 120 toy_world = Some (Ok (Some commit), s) ∧ MerkleRoot commit = toy_root ∧
  processCommit DefaultRetryConfig [] toy_contract 5 13 commit s =
    Some (Ok st, world toy_handled.2)).

Lemma handleEvent_outcome_witness :
  toy_handled.1 = Ok tt ∧
  ((toy_found ∧ lastProcessedBlock toy_handled.2 = 120) ∨
   (¬ toy_found ∧ lastProcessedBlock toy_handled.2 = 100)).
Proof.
  apply (proj2 (handleEvent_outcome DefaultRetryConfig [] toy_contract 5 13 toy_event toy_updater
    toy_handled.1 toy_handled.2 toy_handled_ends)); [cbn; lia|by rewrite toy_handled_ok].
Defined.

Definition toy_processed : processStats * Exec toy World :=
  match processCommit DefaultRetryConfig [] toy_contract 5 13 toy_commit toy_world with
  | Some (Ok st, s) => (st, s)
  | _ => (mkStats 0 0 0, toy_world)
  end.

Lemma toy_processed_ends :
  processCommit DefaultRetryConfig [] toy_contract 5 13 toy_commit toy_world =
    Some (Ok toy_processed.1, toy_processed.2).
Proof.
  unfold toy_processed.
  assert (match processCommit DefaultRetryConfig [] toy_contract 5 13 toy_commit toy_world with
    Some (Ok _, _) => true | _ => false end = true) as Ht by (vm_compute; reflexivity).
  revert Ht. by destruct (processCommit _ _ _ _ _ _ _) as [[[st|e|] s]|].
Qed.

Lemma processCommit_counts_witness :
  0 <= skipped toy_processed.1 ∧ 0 <= failed toy_processed.1 ∧
  stats_total toy_processed.1 <= Z.of_nat (size (buildTree_map toy_balances)) ∧
  ∃ upd : list (bytes * Z), updated toy_processed.1 = Z.of_nat (length upd) ∧ NoDup upd.*1 ∧
    Forall (λ '(id, balance), last_balance toy_balances id = Some balance ∧
      balance_set (E:=toy) toy_contract 120 toy_root id balance) upd.
Proof.
  apply (processCommit_counts DefaultRetryConfig [] toy_contract 5 13 toy_commit toy_world
    toy_processed.1 toy_processed.2); [reflexivity|exact toy_fees|exact toy_processed_ends].
Defined.

Example toy_processed_stats : toy_processed.1 = mkStats 1 0 0.
Proof. vm_compute. reflexivity. Qed.
