(* ===== verification/Api.v ===== *)
(** * api: the HTTP handlers (src/api/handlers.go, src/api/api.go, src/api/types.go)

    A handler reads the database and returns a status and a body.  A request
    is what the handlers read of it; routing, headers and the static page are in Server.
    [Cluster], [CommitResponse] and the others are the types of types.go, with their JSON
    form as a value. *)

From S2P Require Import Prelude Merkle Storage CommitTree.

(** ** Data *)

(** The query parameters (empty when absent) and the path value of a request. *)
Record Request := mkRequest {
  q_epoch : string;
  q_full : string;
  path_clusterId : string;
}.

Record Cluster := mkApiCluster {
  a_ClusterID : string;
  a_EffectiveBalance : Z;
  a_Hash : string;
  a_OwnerAddress : string;
  a_OperatorIDs : list Z;
}.

Record ProofResponse := mkProofResponse {
  p_ClusterID : string;
  p_EffectiveBalance : Z;
  p_Proof : list string;
  p_MerkleRoot : string;
  p_ReferenceBlock : Z;
}.

Record ClusterDiff := mkClusterDiff {
  d_ClusterID : string;
  OldBalance : Z;
  NewBalance : Z;
}.

Record ClusterBalanceEntry := mkEntry {
  e_ClusterID : string;
  e_Balance : Z;
}.

Record CommitDiff := mkDiff {
  d_PreviousEpoch : Z;
  Changed : list ClusterDiff;
  Added : list ClusterBalanceEntry;
  Removed : list ClusterBalanceEntry;
}.

Record CommitResponse := mkCommitResponse {
  r_Epoch : Z;
  r_Status : string;
  r_ReferenceBlock : Z;
  r_MerkleRoot : string;
  r_TxHash : string;
  Clusters : list Cluster;
  Layers : list (list string);
  TotalEffectiveBalance : Z;
  BalanceDiff : option CommitDiff;
  PreviousEpoch : option Z;
  NextEpoch : option Z;
}.

Inductive body :=
  | BCommit (r : CommitResponse)
  | BProof (r : ProofResponse)
  | BError (message : string).

Record Response := mkResponse {
  code : Z;
  content : body;
}.

(** ** JSON *)

#[local] Set Warnings "-register-all".

Inductive json :=
  | JNum (z : Z)
  | JStr (s : string)
  | JArr (l : list json)
  | JObj (fields : list (string * json)).

(** A field tagged [omitempty]. *)
Definition omit (empty : bool) (name : string) (v : json) : list (string * json) :=
  if empty then [] else [(name, v)].

Definition is_empty {A} (l : list A) : bool := match l with [] => true | _ => false end.

Definition omit_ptr {A} (o : option A) (name : string) (f : A → json) : list (string * json) :=
  match o with None => [] | Some a => [(name, f a)] end.

Definition cluster_json (c : Cluster) : json := JObj (
  [("clusterId", JStr (a_ClusterID c)); ("effectiveBalance", JNum (a_EffectiveBalance c))] ++
  omit (bool_decide (a_Hash c = "")) "hash" (JStr (a_Hash c)) ++
  omit (bool_decide (a_OwnerAddress c = "")) "ownerAddress" (JStr (a_OwnerAddress c)) ++
  omit (is_empty (a_OperatorIDs c)) "operatorIds" (JArr (JNum <$> a_OperatorIDs c))).

Definition change_json (c : ClusterDiff) : json := JObj
  [("clusterId", JStr (d_ClusterID c)); ("oldBalance", JNum (OldBalance c));
   ("newBalance", JNum (NewBalance c))].

Definition entry_json (e : ClusterBalanceEntry) : json := JObj
  [("clusterId", JStr (e_ClusterID e)); ("balance", JNum (e_Balance e))].

Definition diff_json (d : CommitDiff) : json := JObj (
  [("previousEpoch", JNum (d_PreviousEpoch d))] ++
  omit (is_empty (Changed d)) "changed" (JArr (change_json <$> Changed d)) ++
  omit (is_empty (Added d)) "added" (JArr (entry_json <$> Added d)) ++
  omit (is_empty (Removed d)) "removed" (JArr (entry_json <$> Removed d))).

Definition commit_json (r : CommitResponse) : json := JObj (
  [("epoch", JNum (r_Epoch r)); ("status", JStr (r_Status r));
   ("referenceBlock", JNum (r_ReferenceBlock r)); ("merkleRoot", JStr (r_MerkleRoot r));
   ("txHash", JStr (r_TxHash r))] ++
  omit (is_empty (Clusters r)) "clusters" (JArr (cluster_json <$> Clusters r)) ++
  omit (is_empty (Layers r)) "layers" (JArr ((λ l, JArr (JStr <$> l)) <$> Layers r)) ++
  omit (TotalEffectiveBalance r =? 0) "totalEffectiveBalance" (JNum (TotalEffectiveBalance r)) ++
  omit_ptr (BalanceDiff r) "balanceDiff" diff_json ++
  omit_ptr (PreviousEpoch r) "previousEpoch" JNum ++
  omit_ptr (NextEpoch r) "nextEpoch" JNum).

Definition proof_json (r : ProofResponse) : json := JObj
  [("clusterId", JStr (p_ClusterID r)); ("effectiveBalance", JNum (p_EffectiveBalance r));
   ("proof", JArr (JStr <$> p_Proof r)); ("merkleRoot", JStr (p_MerkleRoot r));
   ("referenceBlock", JNum (p_ReferenceBlock r))].

(** What [writeJSON] encodes. *)
Definition body_json (b : body) : json :=
  match b with
  | BCommit r => commit_json r
  | BProof r => proof_json r
  | BError message => JObj [("error", JStr message)]
  end.

Definition has_field (name : string) (j : json) : bool :=
  match j with JObj fs => existsb (λ f, bool_decide (f.1 = name)) fs | _ => false end.

(** ** Text *)

Definition errClusterID : error := EText "invalid cluster ID format".

Definition parseClusterID (id : string) : result bytes :=
  if negb (String.length id =? 66)%nat then Err errClusterID
  else match cut_prefix "0x" id with
  | None => Err errClusterID
  | Some digits =>
      match hex_decode digits with
      | (decoded, true) => Ok (to_array 32 decoded)
      | _ => Err errClusterID
      end
  end.

Definition toHex (b : bytes) : string := "0x" +:+ hex_encode b.

Definition toHexOrEmpty (b : option bytes) : string :=
  match b with None | Some [] => "" | Some l => "0x" +:+ hex_encode l end.

(** [strconv.ParseUint(s, 10, 64)]: [None] for a syntax or a range error. *)
Fixpoint parse_digits (s : string) (acc : Z) : option Z :=
  match s with
  | EmptyString => Some acc
  | String c s' =>
      let d := Z.of_N (Ascii.N_of_ascii c) - 48 in
      if (0 <=? d) && (d <=? 9) then parse_digits s' (10 * acc + d) else None
  end.

Definition ParseUint (s : string) : option Z :=
  match s with
  | EmptyString => None
  | _ => n ← parse_digits s 0; if n <? 2 ^ 64 then Some n else None
  end.

Definition status_String (s : CommitStatus) : string :=
  match s with Pending => "pending" | Confirmed => "confirmed" | Failed => "failed" end.

(** ** Balance differences *)

(** [oldMap]: the last entry of a cluster counts. *)
Definition diff_map (old : list ClusterBalance) : gmap string Z :=
  foldl (λ m b, <[hex_encode (cb_ClusterID b) := cb_EffectiveBalance b]> m) ∅ old.

Definition diff_changed (oldMap : gmap string Z) (b : ClusterBalance) : option ClusterDiff :=
  let id := hex_encode (cb_ClusterID b) in
  match oldMap !! id with
  | Some oldBal =>
      if oldBal =? cb_EffectiveBalance b then None
      else Some (mkClusterDiff ("0x" +:+ id) oldBal (cb_EffectiveBalance b))
  | None => None
  end.

Definition diff_changes (oldMap : gmap string Z) (cur : list ClusterBalance) : list ClusterDiff :=
  omap (diff_changed oldMap) cur.

(** The entries of [l] whose cluster [m] does not know. *)
Definition diff_only {V} (m : gmap string V) (l : list ClusterBalance) : list ClusterBalanceEntry :=
  omap (λ b, let id := hex_encode (cb_ClusterID b) in
    match m !! id with
    | Some _ => None
    | None => Some (mkEntry ("0x" +:+ id) (cb_EffectiveBalance b))
    end) l.

(** [curMap], whose keys alone are used, holds the clusters of [cur]. *)
Definition computeDiff (prevEpoch : Z) (old cur : list ClusterBalance) : option CommitDiff :=
  let oldMap := diff_map old in
  let curMap := diff_map cur in
  let diff := mkDiff prevEpoch (diff_changes oldMap cur) (diff_only oldMap cur)
    (diff_only curMap old) in
  if is_empty (Changed diff) && is_empty (Added diff) && is_empty (Removed diff) then None
  else Some diff.

(** ** Handlers *)

Definition errBadEpoch : error := ESentinel "invalid epoch parameter".
Definition errCommitNotFound : error := ESentinel "no commit found".
Definition internalError : string := "internal error".

Definition writeError (status : Z) (message : string) : Response :=
  mkResponse status (BError message).

(** The neighbours of the latest commit are looked up again; a failure there is ignored. *)
Definition resolveCommit (r : Request) : M (OracleCommit * option Z * option Z) :=
  if negb (bool_decide (q_epoch r = "")) then
    match ParseUint (q_epoch r) with
    | None => fail errBadEpoch
    | Some epoch =>
        found ← wrapM "get commit by epoch" (GetCommitByEpoch epoch);
        match found with
        | None => fail errCommitNotFound
        | Some found => mret found
        end
    end
  else
    found ← wrapM "get latest commit" GetLatestCommit;
    match found with
    | None => fail errCommitNotFound
    | Some commit =>
        try_ (GetCommitByEpoch (TargetEpoch commit)) (λ r,
          match r with
          | Ok (Some (_, prev, next)) => mret (commit, prev, next)
          | Panic => lift Panic
          | _ => mret (commit, None, None)
          end)
    end.

Definition handleResolveError (err : error) : Response :=
  if errors_Is err "invalid epoch parameter" then writeError 400 (Error err)
  else if errors_Is err "no commit found" then writeError 404 (Error err)
  else writeError 500 internalError.

(** An error of [resolveCommit] is answered, anything else is handed on. *)
Definition with_commit (r : Request)
    (k : OracleCommit → option Z → option Z → M Response) : M Response :=
  try_ (resolveCommit r) (λ res,
    match res with
    | Ok (commit, prev, next) => k commit prev next
    | Err err => mret (handleResolveError err)
    | Panic => lift Panic
    end).

Section handlers.
Context `{!Crypto}.

(** The balance of the first leaf of a cluster; zero when there is none. *)
Definition leaf_balance (t : Tree) (clusterID : bytes) : Z :=
  match list_find (λ leaf, Merkle.ClusterID leaf = clusterID) (Leaves t) with
  | Some (_, leaf) => EffectiveBalance leaf
  | None => 0
  end.

Definition handleGetProof (r : Request) : M Response :=
  match parseClusterID (path_clusterId r) with
  | Ok clusterID => with_commit r (λ commit _ _,
      tree ← lift (buildTree (ClusterBalances commit));
      if negb (rootMatches (Root tree) (MerkleRoot commit))
      then mret (writeError 500 internalError)
      else match GetProof tree clusterID with
      | Ok proof => mret (mkResponse 200 (BProof (mkProofResponse (toHex clusterID)
          (leaf_balance tree clusterID) (toHex <$> proof) (toHex (MerkleRoot commit))
          (ReferenceBlock commit))))
      | Err _ => mret (writeError 404 "cluster not found")
      | Panic => lift Panic
      end)
  | _ => mret (writeError 400 "invalid clusterId format")
  end.

(** One entry of [clusters]; the owner and operators when the cluster is known. *)
Definition cluster_of_leaf (infos : option (gmap string ClusterInfo)) (leaf : Leaf) : Cluster :=
  let id := Merkle.ClusterID leaf in
  let info := m ← infos; m !! hex_encode id in
  mkApiCluster (toHex id) (EffectiveBalance leaf) (toHex (Hash leaf))
    (match info with Some i => toHex (ci_OwnerAddress i) | None => "" end)
    (match info with Some i => ci_OperatorIDs i | None => [] end).

Definition total_balance (l : list ClusterBalance) : Z :=
  foldl (λ total b, wrapU 64 (total + cb_EffectiveBalance b)) 0 l.

(** The difference to the previous commit, if it can be read. *)
Definition balance_diff (prevEpoch : option Z) (commit : OracleCommit) : M (option CommitDiff) :=
  match prevEpoch with
  | None => mret None
  | Some prev =>
      try_ (GetCommitByEpoch prev) (λ r,
        match r with
        | Ok (Some (prevCommit, _, _)) =>
            mret (computeDiff prev (ClusterBalances prevCommit) (ClusterBalances commit))
        | Panic => lift Panic
        | _ => mret None
        end)
  end.

(** [GetAllClusterInfo]; a failure leaves the information out. *)
Definition cluster_infos : M (option (gmap string ClusterInfo)) :=
  try_ GetAllClusterInfo (λ r,
    match r with Ok infos => mret (Some infos) | Err _ => mret None | Panic => lift Panic end).

Definition layers_hex (lys : list (list bytes)) : list (list string) :=
  (λ layer : list bytes, toHex <$> layer) <$> lys.

Definition commit_response (commit : OracleCommit) (prev next : option Z) (clusters : list Cluster)
    (lys : list (list string)) (total : Z) (diff : option CommitDiff) : CommitResponse :=
  mkCommitResponse (TargetEpoch commit) (status_String (Status commit)) (ReferenceBlock commit)
    (toHex (MerkleRoot commit)) (toHexOrEmpty (TxHash commit)) clusters lys total diff prev next.

Definition handleGetCommit (r : Request) : M Response :=
  with_commit r (λ commit prev next,
    if bool_decide (ToLower (q_full r) = "true") then
      tree ← lift (buildTree (ClusterBalances commit));
      if negb (rootMatches (Root tree) (MerkleRoot commit))
      then mret (writeError 500 internalError)
      else
        infos ← cluster_infos;
        diff ← balance_diff prev commit;
        mret (mkResponse 200 (BCommit (commit_response commit prev next
          (cluster_of_leaf infos <$> Leaves tree) (layers_hex (InnerLayers tree))
          (total_balance (ClusterBalances commit)) diff)))
    else mret (mkResponse 200 (BCommit (commit_response commit prev next [] [] 0 None)))).
End handlers.

(** [recoveryMiddleware]: a panic of the handler is answered. *)
Definition recoveryMiddleware (h : M Response) (w : World) : Response * World :=
  match h w with
  | (Ok resp, w') => (resp, w')
  | (_, w') => (writeError 500 internalError, w')
  end.

(** ** Specification *)

(** The commit a request asks for: the stored one of its epoch, or the latest confirmed one
    with balances. *)
Definition requested (r : Request) (d : DB) (found : option OracleCommit) : Prop :=
  if bool_decide (q_epoch r = "") then
    match found with
    | Some oc => ∃ c, oracle_commits d !! TargetEpoch oc = Some c ∧ status c = Confirmed ∧
        has_balances c = true ∧ oc = read_commit (TargetEpoch oc) c ∧
        ∀ e' c', oracle_commits d !! e' = Some c' → status c' = Confirmed →
          has_balances c' = true → e' <= TargetEpoch oc
    | None => ∀ e c, oracle_commits d !! e = Some c → status c = Confirmed →
        has_balances c = false
    end
  else ∃ epoch, ParseUint (q_epoch r) = Some epoch ∧
    found = read_commit epoch <$> oracle_commits d !! epoch.

Definition bad_epoch (r : Request) : Prop := q_epoch r ≠ "" ∧ ParseUint (q_epoch r) = None.

(** A stored commit whose root is the root of its balances. *)
Definition has_tree `{!Crypto} (commit : OracleCommit) (t : Tree) : Prop :=
  buildTree (ClusterBalances commit) = Ok t ∧ Root t = MerkleRoot commit.

(** The answers to a request for a commit that is not there. *)
Inductive no_commit (r : Request) (d : DB) : Response → Prop :=
  | NC_epoch : bad_epoch r → no_commit r d (writeError 400 "invalid epoch parameter")
  | NC_none : requested r d None → no_commit r d (writeError 404 "no commit found").

(** The answers to a request for a proof when no statement fails. *)
Inductive proof_answer `{!Crypto} (r : Request) (d : DB) : Response → Prop :=
  | PA_cluster : (∀ id, parseClusterID (path_clusterId r) ≠ Ok id) →
      proof_answer r d (writeError 400 "invalid clusterId format")
  | PA_commit id resp : parseClusterID (path_clusterId r) = Ok id → no_commit r d resp →
      proof_answer r d resp
  | PA_corrupt id commit : parseClusterID (path_clusterId r) = Ok id →
      requested r d (Some commit) → (∀ t, ¬ has_tree commit t) →
      proof_answer r d (writeError 500 internalError)
  | PA_unknown id commit t : parseClusterID (path_clusterId r) = Ok id →
      requested r d (Some commit) → has_tree commit t →
      last_balance (ClusterBalances commit) id = None →
      proof_answer r d (writeError 404 "cluster not found")
  | PA_proof id commit t bal proof : parseClusterID (path_clusterId r) = Ok id →
      requested r d (Some commit) → has_tree commit t →
      last_balance (ClusterBalances commit) id = Some bal →
      verifyProof (HashLeaf id bal) proof = MerkleRoot commit →
      proof_answer r d (mkResponse 200 (BProof (mkProofResponse (toHex id) bal (toHex <$> proof)
        (toHex (MerkleRoot commit)) (ReferenceBlock commit)))).

(** What the answer shows of the commit. *)
Definition describes (commit : OracleCommit) (prev next : option Z) (c : CommitResponse) : Prop :=
  r_Epoch c = TargetEpoch commit ∧ r_Status c = status_String (Status commit) ∧
  r_ReferenceBlock c = ReferenceBlock commit ∧ r_MerkleRoot c = toHex (MerkleRoot commit) ∧
  r_TxHash c = toHexOrEmpty (TxHash commit) ∧ PreviousEpoch c = prev ∧ NextEpoch c = next.

(** What an entry of [clusters] shows of a leaf: the owner and the operators are left out,
    or those of the stored row. *)
Definition shows (d : DB) (k : Cluster) (l : Leaf) : Prop :=
  a_ClusterID k = toHex (Merkle.ClusterID l) ∧ a_EffectiveBalance k = EffectiveBalance l ∧
  a_Hash k = toHex (Hash l) ∧
  (a_OwnerAddress k = "" ∧ a_OperatorIDs k = [] ∨
   ∃ row, clusters d !! Merkle.ClusterID l = Some row ∧
     a_OwnerAddress k = toHex (owner_address row) ∧
     decodeOperatorIDs (operator_ids row) = Ok (a_OperatorIDs k)).

Definition sum_Z (l : list Z) : Z := foldr Z.add 0 l.

(** The balances of the previous stored commit, when there is one. *)
Definition previous_balances (d : DB) (prev : option Z) : option (Z * list ClusterBalance) :=
  p ← prev; c ← oracle_commits d !! p; Some (p, ClusterBalances (read_commit p c)).

(** The members of an answer with [full=true]. *)
Definition full_details `{!Crypto} (d : DB) (commit : OracleCommit) (prev : option Z) (t : Tree)
    (c : CommitResponse) : Prop :=
  has_tree commit t ∧ Forall2 (shows d) (Clusters c) (leaves t) ∧
  Layers c = layers_hex (InnerLayers t) ∧
  (balances_ok (ClusterBalances commit) →
     sum_Z (cb_EffectiveBalance <$> ClusterBalances commit) < 2 ^ 64 →
     TotalEffectiveBalance c = sum_Z (a_EffectiveBalance <$> Clusters c)) ∧
  match BalanceDiff c with
  | Some diff => ∃ p old, previous_balances d prev = Some (p, old) ∧
      computeDiff p old (ClusterBalances commit) = Some diff
  | None => True
  end.

Definition no_details (c : CommitResponse) : Prop :=
  Clusters c = [] ∧ Layers c = [] ∧ TotalEffectiveBalance c = 0 ∧ BalanceDiff c = None.

(** The errors of the database are not those of the handlers. *)
Definition foreign (w : World) : Prop := ∀ e, Some e ∈ faults w →
  errors_Is e "invalid epoch parameter" = false ∧ errors_Is e "no commit found" = false.

(** Some statement of the run may fail. *)
Definition faulty (w : World) : Prop := ∃ e, Some e ∈ faults w.

(** ** Lemmas: reading *)

(** An error that came from a failed statement. *)
Definition fault_error (w : World) (err : error) : Prop :=
  ∃ e, Some e ∈ faults w ∧ ∀ s, errors_Is err s = errors_Is e s.

(** [m] reads [f] of the database, or a statement fails. *)
Definition reads {A} (f : DB → A) (m : M A) : Prop := ∀ w r w', m w = (r, w') →
  db w' = db w ∧ (∀ x, x ∈ faults w' → x ∈ faults w) ∧
  (r = Ok (f (db w)) ∨ ∃ e, r = Err e ∧ fault_error w e).

Lemma reads_query {A} (f : DB → A) : reads f (query f).
Proof.
  intros [d fs] r w' H. unfold query, stmt, next_fault in H.
  destruct fs as [|[e|] fs]; injection H as <- <-; cbn; (split; [done|]);
    (split; [intros x Hx; (done || by right)|]); [by left|right|by left].
  exists e. split; [done|]. exists e. split; [left|done].
Qed.

Lemma reads_wrapM {A} p (f : DB → A) m : reads f m → reads f (wrapM p m).
Proof.
  intros Hm w r w' H. unfold wrapM in H. destruct (m w) as [r0 w0] eqn:Em.
  apply Hm in Em as (Hd & Hf & Hr). injection H as <- <-. split; [done|]. split; [done|].
  destruct Hr as [->|(e & -> & e0 & He & Hs)]; [by left|right].
  exists (EWrap p e). split; [done|]. by exists e0.
Qed.

(** The commit of an epoch and its neighbours, as the query computes them. *)
Definition commit_at (epoch : Z) (d : DB) : option (OracleCommit * option Z * option Z) :=
  c ← oracle_commits d !! epoch;
  Some (read_commit epoch c, max_key (λ k _, k <? epoch) (oracle_commits d),
        min_key (λ k _, epoch <? k) (oracle_commits d)).

Lemma GetCommitByEpoch_reads epoch : reads (commit_at epoch) (GetCommitByEpoch epoch).
Proof. apply reads_wrapM, reads_query. Qed.

Definition latest_commit (d : DB) : option OracleCommit :=
  e ← max_key (λ _ c, bool_decide (status c = Confirmed) && has_balances c) (oracle_commits d);
  c ← oracle_commits d !! e;
  Some (read_commit e c).

Lemma GetLatestCommit_reads : reads latest_commit GetLatestCommit.
Proof. apply reads_wrapM, reads_query. Qed.

Lemma latest_commit_requested r d : q_epoch r = "" → requested r d (latest_commit d).
Proof.
  intros Hq. unfold requested. rewrite bool_decide_true by done.
  destruct (GetLatestCommit_now d) as (o & Ho & Hspec).
  destruct (GetLatestCommit_reads (mkWorld d []) (Ok o) (mkWorld d []) Ho) as (_ & _ & Hr).
  destruct Hr as [[= ->]|(e & [=] & _)]. exact Hspec.
Qed.

(** The neighbours of a commit; a failed lookup leaves them out. *)
Definition navigates (w : World) (commit : OracleCommit) (prev next : option Z) : Prop :=
  commit_at (TargetEpoch commit) (db w) = Some (commit, prev, next) ∨
  prev = None ∧ next = None ∧ faulty w.

Lemma commit_at_self d epoch c : oracle_commits d !! epoch = Some c →
  ∃ prev next, commit_at epoch d = Some (read_commit epoch c, prev, next).
Proof. intros H. unfold commit_at. rewrite H. cbn. eauto. Qed.

Lemma resolveCommit_inv r w res w' :
  resolveCommit r w = (res, w') →
  db w' = db w ∧ (∀ x, x ∈ faults w' → x ∈ faults w) ∧
  match res with
  | Ok (commit, prev, next) => requested r (db w) (Some commit) ∧ navigates w commit prev next
  | Err err => (err = errBadEpoch ∧ bad_epoch r) ∨
      (err = errCommitNotFound ∧ requested r (db w) None) ∨ fault_error w err
  | Panic => False
  end.
Proof.
  intros H. unfold resolveCommit in H. case_bool_decide as Hq; cbn [negb] in H.
  - unfold mbind, io_bind in H.
    destruct (wrapM _ GetLatestCommit w) as [r1 w1] eqn:E1.
    apply (reads_wrapM _ _ _ GetLatestCommit_reads) in E1 as (Hd1 & Hf1 & Hr1).
    destruct Hr1 as [->|(e & -> & He)]; [|injection H as <- <-; eauto 8].
    pose proof (latest_commit_requested r (db w) Hq) as Hreq.
    destruct (latest_commit (db w)) as [commit|]; [|injection H as <- <-; eauto 8].
    unfold try_ in H. destruct (GetCommitByEpoch _ w1) as [r2 w2] eqn:E2.
    apply GetCommitByEpoch_reads in E2 as (Hd2 & Hf2 & Hr2). rewrite Hd1 in *.
    pose proof Hreq as Hreq'. unfold requested in Hreq'. rewrite bool_decide_true in Hreq' by done.
    destruct Hreq' as (c & Hc & _ & _ & Hcc & _).
    destruct (commit_at_self _ _ _ Hc) as (prev & next & Hat). rewrite <- Hcc in Hat.
    destruct Hr2 as [->|(e & -> & e0 & He0 & _)]; rewrite ?Hat in H; injection H as <- <-;
      (split; [done|]); (split; [by auto|]); (split; [done|]); [by left|right].
    split; [done|]. split; [done|]. exists e0. auto.
  - destruct (ParseUint (q_epoch r)) as [epoch|] eqn:Ep; [|injection H as <- <-; unfold bad_epoch; auto 8].
    unfold mbind, io_bind in H.
    destruct (wrapM _ (GetCommitByEpoch epoch) w) as [r1 w1] eqn:E1.
    apply (reads_wrapM _ _ _ (GetCommitByEpoch_reads epoch)) in E1 as (Hd1 & Hf1 & Hr1).
    destruct Hr1 as [->|(e & -> & He)]; [|injection H as <- <-; eauto 8].
    assert (requested r (db w) (read_commit epoch <$> oracle_commits (db w) !! epoch)) as Hreq.
    { unfold requested. rewrite bool_decide_false by done. eauto. }
    destruct (oracle_commits (db w) !! epoch) as [c|] eqn:Ec.
    + destruct (commit_at_self _ _ _ Ec) as (prev & next & Hat). rewrite Hat in H.
      injection H as <- <-. split; [done|]. split; [done|]. split; [exact Hreq|by left].
    + unfold commit_at in H. rewrite Ec in H. injection H as <- <-. eauto 8.
Qed.

(** What a request answers when [k] does for the commit asked for. *)
Lemma with_commit_inv r k w resp w' :
  foreign w → recoveryMiddleware (with_commit r k) w = (resp, w') →
  (db w' = db w ∧ (no_commit r (db w) resp ∨ resp = writeError 500 internalError ∧ faulty w)) ∨
  ∃ commit prev next w1, requested r (db w) (Some commit) ∧ navigates w commit prev next ∧
    db w1 = db w ∧ (∀ x, x ∈ faults w1 → x ∈ faults w) ∧
    recoveryMiddleware (k commit prev next) w1 = (resp, w').
Proof.
  intros Hf H. unfold recoveryMiddleware, with_commit, try_ in H.
  destruct (resolveCommit r w) as [res w1] eqn:Er. apply resolveCommit_inv in Er as (Hd & Hfs & Hr).
  destruct res as [[[commit prev] next]|err|]; [|left|done].
  - destruct Hr as [Hreq Hnav]. right. exists commit, prev, next, w1. done.
  - injection H as <- <-. split; [done|].
    destruct Hr as [[-> Hb]|[[-> Hn]|(e & He & Hs)]].
    + left. by apply NC_epoch.
    + left. by apply NC_none.
    + right. unfold handleResolveError. destruct (Hf e He) as [H1 H2].
      rewrite !Hs, H1, H2. split; [done|]. by exists e.
Qed.

(** ** Lemmas: the handlers *)

Section handler_lemmas.
Context {HC : Crypto}.

Lemma leaf_balance_spec balances t id bal :
  buildTree balances = Ok t → last_balance balances id = Some bal → leaf_balance t id = bal.
Proof.
  intros Ht Hb. unfold leaf_balance, Leaves.
  rewrite <- buildTree_map_lookup in Hb.
  destruct (list_find _ (leaves t)) as [[i leaf]|] eqn:Ef.
  - apply list_find_Some in Ef as (Hi & Hid & _). apply list_elem_of_lookup_2 in Hi.
    apply (elem_buildTree _ _ _ Ht) in Hi as [Hl _]. rewrite Hid, Hb in Hl. by injection Hl.
  - apply list_find_None in Ef. rewrite Forall_forall in Ef.
    destruct (Ef (mkLeaf id bal (HashLeaf id bal))); [|done].
    by apply (elem_buildTree _ _ _ Ht).
Qed.

Lemma tree_or_corrupt commit :
  (∃ t, has_tree commit t ∧ rootMatches (Root t) (MerkleRoot commit) = true) ∨
  ((∀ t, ¬ has_tree commit t) ∧ ∃ t, buildTree (ClusterBalances commit) = Ok t ∧
     rootMatches (Root t) (MerkleRoot commit) = false).
Proof.
  destruct (buildTree_Ok (ClusterBalances commit)) as [t Ht].
  destruct (decide (Root t = MerkleRoot commit)) as [Hr|Hr].
  - left. exists t. split; [by split|]. by apply bool_decide_eq_true.
  - right. split; [|exists t; split; [done|by apply bool_decide_eq_false]].
    intros t' [Ht' Hr']. rewrite Ht in Ht'. by injection Ht' as <-.
Qed.

(** The clusters of the tree with their balances are those of the commit. *)
Lemma leaves_balances balances t :
  balances_ok balances → buildTree balances = Ok t →
  (EffectiveBalance <$> leaves t) ≡ₚ (cb_EffectiveBalance <$> balances).
Proof.
  intros Hok Ht. pose proof (buildTree_NoDup _ _ Ht) as Hnd. destruct Hok as [Hty Hd].
  assert ((λ l, mkBalance (Merkle.ClusterID l) (EffectiveBalance l)) <$> leaves t ≡ₚ balances)
    as Hp.
  { apply NoDup_Permutation.
    - eapply (NoDup_fmap_1 cb_ClusterID). by rewrite <- list_fmap_compose.
    - by apply NoDup_fmap_1 in Hd.
    - intros [id bal]. rewrite <- (buildTree_map_ok balances) by done.
      rewrite list_elem_of_fmap. split.
      + intros (l & [= -> ->] & Hl). by apply (elem_buildTree _ _ _ Ht) in Hl as [? _].
      + intros Hb. exists (mkLeaf id bal (HashLeaf id bal)). split; [done|].
        by apply (elem_buildTree _ _ _ Ht). }
  rewrite <- Hp, <- list_fmap_compose. done.
Qed.
End handler_lemmas.

Lemma sum_Z_perm l1 l2 : l1 ≡ₚ l2 → sum_Z l1 = sum_Z l2.
Proof. unfold sum_Z. induction 1; cbn; lia. Qed.

Lemma sum_Z_nonneg l : Forall (λ z, 0 <= z) l → 0 <= sum_Z l.
Proof. unfold sum_Z. induction 1; cbn; lia. Qed.

Lemma total_balance_sum l :
  Forall (λ b, is_uint 32 (cb_EffectiveBalance b)) l →
  sum_Z (cb_EffectiveBalance <$> l) < 2 ^ 64 →
  total_balance l = sum_Z (cb_EffectiveBalance <$> l).
Proof.
  intros Hl. assert (∀ acc, 0 <= acc → acc + sum_Z (cb_EffectiveBalance <$> l) < 2 ^ 64 →
    foldl (λ total b, wrapU 64 (total + cb_EffectiveBalance b)) acc l =
      acc + sum_Z (cb_EffectiveBalance <$> l)) as H.
  { induction Hl as [|b l Hb Hl IH]; intros acc Hacc Hs; unfold sum_Z in *; cbn in *; [lia|].
    fold (sum_Z (cb_EffectiveBalance <$> l)) in *. unfold is_uint in Hb.
    assert (0 <= sum_Z (cb_EffectiveBalance <$> l)) as Hpos.
    { apply sum_Z_nonneg, Forall_fmap. eapply Forall_impl; [exact Hl|].
      intros x Hx. unfold is_uint in Hx. cbn. lia. }
    rewrite wrapU_small by lia. rewrite IH by lia. lia. }
  intros Hs. unfold total_balance. rewrite H by lia. lia.
Qed.

Lemma info_loop_spec rows acc m :
  info_loop rows acc = Ok m → ∀ k i, m !! k = Some i → acc !! k = Some i ∨
    ∃ id row, (id, row) ∈ rows ∧ k = hex_encode id ∧ ci_OwnerAddress i = owner_address row ∧
      decodeOperatorIDs (operator_ids row) = Ok (ci_OperatorIDs i).
Proof.
  revert acc. induction rows as [|[id row] rows IH]; intros acc H k i Hk; cbn [info_loop] in H.
  { injection H as ->. by left. }
  apply bind_Ok in H as (ids & Hids & H).
  destruct (IH _ H k i Hk) as [Hacc|(id' & row' & Hin & Hrest)].
  - apply lookup_insert_Some in Hacc as [[<- <-]|[_ Hacc]]; [right|by left].
    exists id, row. split; [left|done].
  - right. exists id', row'. split; [by right|done].
Qed.

Lemma cluster_infos_inv w r w' :
  cluster_infos w = (r, w') → db w' = db w ∧ (∀ x, x ∈ faults w' → x ∈ faults w) ∧
  ∃ infos, r = Ok infos ∧ ∀ m k i, infos = Some m → m !! k = Some i →
    ∃ id row, clusters (db w) !! id = Some row ∧ k = hex_encode id ∧
      ci_OwnerAddress i = owner_address row ∧
      decodeOperatorIDs (operator_ids row) = Ok (ci_OperatorIDs i).
Proof.
  intros H. unfold cluster_infos, try_, GetAllClusterInfo, mbind, io_bind in H.
  destruct (wrapM _ _ w) as [r1 w1] eqn:E1.
  apply (reads_wrapM _ _ _ (reads_query _)) in E1 as (Hd & Hf & Hr).
  destruct Hr as [->|(e & -> & _)]; [|injection H as <- <-; split; [done|]; split; [done|]; by exists None].
  unfold lift in H. destruct (info_loop _ ∅) as [infos|e|] eqn:El.
  - injection H as <- <-. split; [done|]. split; [done|]. exists (Some infos). split; [done|].
    intros m k i [= <-] Hk. destruct (info_loop_spec _ _ _ El k i Hk) as [?|(id & row & Hin & ?)].
    + by rewrite lookup_empty in *.
    + exists id, row. split; [by apply elem_of_map_to_list|done].
  - injection H as <- <-. split; [done|]. split; [done|]. by exists None.
  - exfalso. clear -El. revert El. generalize (∅ : gmap string ClusterInfo).
    induction (map_to_list (clusters (db w))) as [|[id row] rows IH]; intros acc; cbn [info_loop]; [done|].
    unfold decodeOperatorIDs at 1. destruct (operator_ids row); [by apply IH|].
    cbn. case_match; [by apply IH|done].
Qed.

Lemma cluster_of_leaf_shows d infos leaf :
  (∀ m k i, infos = Some m → m !! k = Some i →
    ∃ id row, clusters d !! id = Some row ∧ k = hex_encode id ∧
      ci_OwnerAddress i = owner_address row ∧
      decodeOperatorIDs (operator_ids row) = Ok (ci_OperatorIDs i)) →
  shows d (cluster_of_leaf infos leaf) leaf.
Proof.
  intros Hi. unfold shows, cluster_of_leaf. cbn. do 3 (split; [done|]).
  destruct infos as [m|]; cbn; [|by left].
  destruct (m !! hex_encode (Merkle.ClusterID leaf)) as [i|] eqn:Em; [|by left]. right.
  destruct (Hi m _ i eq_refl Em) as (id & row & Hrow & Hid & Ho & Hops).
  apply hex_encode_inj in Hid as <-. exists row. by rewrite Ho.
Qed.

Lemma balance_diff_inv prev commit w r w' :
  balance_diff prev commit w = (r, w') → db w' = db w ∧ ∃ diff, r = Ok diff ∧
    match diff with
    | Some d => ∃ p old, previous_balances (db w) prev = Some (p, old) ∧
        computeDiff p old (ClusterBalances commit) = Some d
    | None => True
    end.
Proof.
  intros H. unfold balance_diff in H. destruct prev as [p|]; [|injection H as <- <-; split; [done|by exists None]].
  unfold try_ in H. destruct (GetCommitByEpoch p w) as [r1 w1] eqn:E1.
  apply GetCommitByEpoch_reads in E1 as (Hd & _ & Hr).
  destruct Hr as [->|(e & -> & _)]; [|injection H as <- <-; split; [done|by exists None]].
  unfold commit_at in H. unfold previous_balances. cbn.
  destruct (oracle_commits (db w) !! p) as [c|]; cbn in H |- *; injection H as <- <-; [|split; [done|by exists None]].
  split; [done|]. eexists. split; [done|].
  destruct (computeDiff p _ _) as [d|] eqn:Ed; [|done]. eauto.
Qed.

Lemma parseClusterID_toHex id : length id = 32%nat → parseClusterID (toHex id) = Ok id.
Proof.
  intros Hlen. unfold parseClusterID, toHex.
  assert (String.length ("0x" +:+ hex_encode id) = 66%nat) as ->.
  { change (S (S (String.length (hex_encode id))) = 66%nat). by rewrite length_hex_encode, Hlen. }
  rewrite cut_prefix_app, hex_decode_encode. cbn [negb Nat.eqb]. by rewrite to_array_id.
Qed.

(** ** Lemmas: differences *)

Lemma diff_map_lookup l b :
  NoDup (cb_ClusterID <$> l) →
  diff_map l !! hex_encode (cb_ClusterID b) = Some (cb_EffectiveBalance b) ↔ b ∈ l.
Proof.
  induction l as [|x l IH] using rev_ind; intros Hnd.
  { split; [done|by intros ?%elem_of_nil]. }
  rewrite fmap_app in Hnd. apply NoDup_app in Hnd as (Hnd & Hdisj & _).
  unfold diff_map in *. rewrite foldl_app, elem_of_app, list_elem_of_singleton. cbn.
  destruct (decide (cb_ClusterID x = cb_ClusterID b)) as [He|Hne].
  - rewrite He, lookup_insert_eq. split.
    + intros [= Heq]. right. destruct b, x; cbn in *; congruence.
    + intros [Hin| ->]; [|done]. destruct (Hdisj (cb_ClusterID x)); [|left].
      rewrite He. by apply (list_elem_of_fmap_2 cb_ClusterID).
  - rewrite lookup_insert_ne by (by intros ?%hex_encode_inj). rewrite IH by done.
    split; [auto|]. intros [?| ->]; done.
Qed.

Lemma diff_map_None l id :
  diff_map l !! hex_encode id = None ↔ id ∉ (cb_ClusterID <$> l).
Proof.
  unfold diff_map. induction l as [|x l IH] using rev_ind; [split; [by intros _ ?%elem_of_nil|done]|].
  rewrite foldl_app, fmap_app, not_elem_of_app. cbn.
  rewrite list_elem_of_singleton, lookup_insert_None, IH. split; intros [H1 H2]; (split; [done|]); [congruence|].
  intros ?%hex_encode_inj. congruence.
Qed.

Lemma elem_of_diff_only {V} (m : gmap string V) l e :
  e ∈ diff_only m l ↔ ∃ b, b ∈ l ∧ m !! hex_encode (cb_ClusterID b) = None ∧
    e = mkEntry (toHex (cb_ClusterID b)) (cb_EffectiveBalance b).
Proof.
  unfold diff_only. rewrite list_elem_of_omap. split.
  - intros (b & Hin & Hb). exists b. destruct (m !! _); [done|]. by injection Hb.
  - intros (b & Hin & Hm & ->). exists b. by rewrite Hm.
Qed.

Lemma elem_of_changed old cur :
  NoDup (cb_ClusterID <$> old) →
  ∀ c, c ∈ diff_changes (diff_map old) cur ↔ ∃ id x y, c = mkClusterDiff (toHex id) x y ∧
    x ≠ y ∧ mkBalance id x ∈ old ∧ mkBalance id y ∈ cur.
Proof.
  intros Hold c. unfold diff_changes. rewrite list_elem_of_omap. split.
  - intros ([id y] & Hin & Hb). unfold diff_changed in Hb. cbn in Hb.
    destruct (diff_map old !! hex_encode id) as [x|] eqn:Ex; [|done].
    destruct (Z.eqb_spec x y); [done|]. injection Hb as <-. exists id, x, y.
    do 2 (split; [done|]). split; [|done]. by apply (diff_map_lookup old (mkBalance id x)).
  - intros (id & x & y & -> & Hne & Ho & Hc). exists (mkBalance id y). split; [done|].
    unfold diff_changed. cbn. apply (diff_map_lookup old (mkBalance id x) Hold) in Ho.
    cbn in Ho. rewrite Ho. by destruct (Z.eqb_spec x y).
Qed.

Lemma is_empty_iff {A} (l : list A) : is_empty l = true ↔ ∀ x, x ∉ l.
Proof.
  destruct l as [|a l]; cbn; split; intros Hn; try done.
  - intros x. apply not_elem_of_nil.
  - destruct (Hn a). left.
Qed.

Lemma balance_unique l b b' :
  NoDup (cb_ClusterID <$> l) → b ∈ l → b' ∈ l → cb_ClusterID b = cb_ClusterID b' → b = b'.
Proof.
  intros Hl Hb Hb' He. apply (diff_map_lookup l b Hl) in Hb. apply (diff_map_lookup l b' Hl) in Hb'.
  rewrite He, Hb' in Hb. destruct b, b'; cbn in *; congruence.
Qed.

(** Nothing to report means equal balances. *)
Lemma same_balances old cur :
  NoDup (cb_ClusterID <$> old) → NoDup (cb_ClusterID <$> cur) →
  ((is_empty (diff_changes (diff_map old) cur) = true ∧
    is_empty (diff_only (diff_map old) cur) = true) ∧
   is_empty (diff_only (diff_map cur) old) = true) ↔ ∀ b, b ∈ old ↔ b ∈ cur.
Proof.
  intros Hold Hcur. rewrite !is_empty_iff. pose proof (elem_of_changed old cur Hold) as Hch.
  split.
  - intros [[Hc Ha] Hr].
    assert (∀ x y id, mkBalance id x ∈ old → mkBalance id y ∈ cur → x = y) as Heq.
    { intros x y id Hx Hy. destruct (decide (x = y)) as [|Hne]; [done|].
      destruct (Hc (mkClusterDiff (toHex id) x y)). apply Hch. by exists id, x, y. }
    assert (∀ l m, (∀ e, e ∉ diff_only (diff_map m) l) → ∀ b, b ∈ l →
      ∃ z, mkBalance (cb_ClusterID b) z ∈ m) as Hin.
    { intros l m Hno b Hb. destruct (decide (cb_ClusterID b ∈ (cb_ClusterID <$> m))) as [Hm|Hm].
      - apply list_elem_of_fmap in Hm as ([id z] & -> & Hm). by exists z.
      - destruct (Hno (mkEntry (toHex (cb_ClusterID b)) (cb_EffectiveBalance b))).
        apply elem_of_diff_only. exists b. split; [done|]. split; [by apply diff_map_None|done]. }
    intros [id z]. split; intros Hb.
    + destruct (Hin old cur Hr _ Hb) as [y Hy]. cbn in Hy. by rewrite (Heq z y id).
    + destruct (Hin cur old Ha _ Hb) as [y Hy]. cbn in Hy. by rewrite <- (Heq y z id).
  - intros Hsame.
    assert (∀ l m, (∀ b, b ∈ l → b ∈ m) → ∀ e, e ∉ diff_only (diff_map m) l) as Hnone.
    { intros l m Hlm e (b & Hb & Hm%diff_map_None & _)%elem_of_diff_only.
      destruct Hm. apply (list_elem_of_fmap_2 cb_ClusterID). auto. }
    split; [split|]; [|apply Hnone; intros b; apply Hsame..].
    intros c (id & x & y & _ & Hne & Ho & Hcu)%Hch. apply Hsame in Ho. destruct Hne.
    by assert (mkBalance id x = mkBalance id y) as [= ->] by by eapply balance_unique.
Qed.

(** ** Properties *)

(** C36: a cluster identifier survives printing and parsing, and what is parsed is 32 bytes
    that print back to the same text in lower case; so two texts name the same cluster only
    when they differ in the case of their digits. *)
Theorem parseClusterID_toHex_inverse s id :
  (length id = 32%nat → parseClusterID (toHex id) = Ok id) ∧
  (parseClusterID s = Ok id → length id = 32%nat ∧ toHex id = ToLower s).
Proof.
  split; [apply parseClusterID_toHex|]. unfold parseClusterID, toHex.
  destruct (Nat.eqb_spec (String.length s) 66) as [Hs|]; [|done]. cbn [negb].
  destruct (cut_prefix "0x" s) as [digits|] eqn:Ec; [|done].
  apply cut_prefix_Some in Ec as ->.
  destruct (hex_decode digits) as [l [|]] eqn:Ed; [|done]. apply hex_encode_decode in Ed.
  assert (length l = 32%nat) as Hl.
  { pose proof (f_equal String.length Ed) as Hlen. rewrite length_hex_encode, length_ToLower in Hlen.
    change (S (S (String.length digits)) = 66%nat) in Hs. lia. }
  rewrite to_array_id by done. intros [= <-]. split; [done|].
  by rewrite Ed.
Qed.

(** C9: whatever the database holds and whichever statements fail, a request for a proof
    reads only, and its answer is the specified one: 400 for a malformed cluster or epoch,
    404 for a commit or a cluster that is not there, 500 when the stored root is not the
    root of the stored balances, and else 200 with the balance stored for the cluster and a
    proof of it that verifies against the stored root.  Only when a statement fails may the
    answer be a 500 instead. *)
Theorem handleGetProof_answers {HC : Crypto} r w resp w' :
  foreign w → recoveryMiddleware (handleGetProof r) w = (resp, w') →
  db w' = db w ∧
  (proof_answer r (db w) resp ∨ resp = writeError 500 internalError ∧ faulty w).
Proof.
  intros Hf H. unfold handleGetProof in H.
  destruct (parseClusterID (path_clusterId r)) as [id|e|] eqn:Ep;
    [|injection H as <- <-; split; [done|left; apply PA_cluster; congruence]..].
  apply with_commit_inv in H as [[Hd [Hn|Hn]]|(commit & prev & next & w1 & Hreq & _ & Hd & _ & H)];
    [split; [done|left; by eapply PA_commit]|auto| |done].
  destruct (tree_or_corrupt commit) as [(t & [Ht Hr] & Hm)|(Hno & t & Ht & Hm)];
    unfold recoveryMiddleware, mbind, io_bind, lift in H; rewrite Ht, Hm in H; cbn [negb] in H.
  - destruct (last_balance (ClusterBalances commit) id) as [bal|] eqn:Eb;
      pose proof Eb as Eb'; rewrite <- buildTree_map_lookup in Eb'.
    + destruct (buildTree_proof _ _ _ _ Ht Eb') as (proof & Hp & Hv & _). rewrite Hp in H.
      rewrite (leaf_balance_spec _ _ _ _ Ht Eb) in H. injection H as <- <-. split; [done|].
      left. eapply PA_proof; [done..|by split|done|by rewrite Hv].
    + rewrite (buildTree_no_proof _ _ _ Ht Eb') in H. injection H as <- <-. split; [done|].
      left. by eapply PA_unknown.
  - injection H as <- <-. split; [done|]. left. by eapply PA_corrupt.
Qed.

(** C23: whatever the database holds and whichever statements fail, a request for a commit
    reads only.  Its answer is 400, 404 or 500 as for a proof, or describes the commit asked
    for, with its neighbours.  With [full=true] it is only given when the stored root is the
    root of the stored balances, and lists the leaves of that tree with their hashes, its
    inner layers, the sum of the listed balances, owners and operators from the stored
    clusters, and the difference to the previous stored commit. *)
Theorem handleGetCommit_answers {HC : Crypto} r w resp w' :
  foreign w → recoveryMiddleware (handleGetCommit r) w = (resp, w') →
  db w' = db w ∧
  (no_commit r (db w) resp ∨ (resp = writeError 500 internalError ∧ faulty w) ∨
   ∃ commit prev next, requested r (db w) (Some commit) ∧ navigates w commit prev next ∧
     ((ToLower (q_full r) = "true" ∧ (∀ t, ¬ has_tree commit t) ∧
       resp = writeError 500 internalError) ∨
      ∃ c, resp = mkResponse 200 (BCommit c) ∧ describes commit prev next c ∧
        if bool_decide (ToLower (q_full r) = "true") then ∃ t, full_details (db w) commit prev t c
        else no_details c)).
Proof.
  intros Hf H. unfold handleGetCommit in H.
  apply with_commit_inv in H as [[Hd Hn]|(commit & prev & next & w1 & Hreq & Hnav & Hd & _ & H)];
    [split; [done|tauto]| |done].
  case_bool_decide as Hfull.
  2:{ injection H as <- <-. split; [done|]. right; right. exists commit, prev, next.
      split; [done|]. split; [done|]. right. eexists. do 2 (split; [done|]). done. }
  unfold recoveryMiddleware, mbind, io_bind, lift in H.
  destruct (tree_or_corrupt commit) as [(t & Ht & Hm)|(Hno & t & Ht & Hm)];
    [rewrite (proj1 Ht), Hm in H|rewrite Ht, Hm in H]; cbn [negb] in H.
  2:{ injection H as <- <-. split; [done|]. right; right. exists commit, prev, next.
      split; [done|]. split; [done|]. by left. }
  destruct (cluster_infos w1) as [ri w2] eqn:Ei.
  apply cluster_infos_inv in Ei as (Hd2 & _ & infos & -> & Hinfos).
  destruct (balance_diff prev commit w2) as [rd w3] eqn:Eb.
  apply balance_diff_inv in Eb as (Hd3 & diff & -> & Hdiff).
  injection H as <- <-. rewrite Hd2, Hd in Hd3, Hdiff. rewrite Hd in Hinfos. split; [done|].
  right; right. exists commit, prev, next. split; [done|]. split; [done|]. right.
  eexists. do 2 (split; [done|]). exists t. split; [done|]. cbn. unfold Leaves.
  split; [apply Forall2_fmap_l, Forall_Forall2_diag, Forall_true; intros l;
    by apply cluster_of_leaf_shows|].
  split; [done|]. split; [|exact Hdiff].
  intros Hok Hsum. rewrite total_balance_sum; [|by eapply Forall_impl; [apply Hok|intros ? []]|done].
  apply sum_Z_perm. rewrite <- list_fmap_compose.
  rewrite <- (leaves_balances _ t Hok (proj1 Ht)). done.
Qed.

(** The difference of two commits, each with one entry per cluster, is exact: nothing
    is reported when they hold the same balances; else a cluster is listed as changed, with
    both balances, when both have it with different ones, as added when only the newer and
    as removed when only the older has it. *)
Theorem computeDiff_exact prevEpoch old cur :
  NoDup (cb_ClusterID <$> old) → NoDup (cb_ClusterID <$> cur) →
  match computeDiff prevEpoch old cur with
  | None => ∀ b, b ∈ old ↔ b ∈ cur
  | Some d =>
      d_PreviousEpoch d = prevEpoch ∧ ¬ (∀ b, b ∈ old ↔ b ∈ cur) ∧
      (∀ c, c ∈ Changed d ↔ ∃ id x y, c = mkClusterDiff (toHex id) x y ∧ x ≠ y ∧
         mkBalance id x ∈ old ∧ mkBalance id y ∈ cur) ∧
      (∀ e, e ∈ Added d ↔ ∃ b, e = mkEntry (toHex (cb_ClusterID b)) (cb_EffectiveBalance b) ∧
         b ∈ cur ∧ cb_ClusterID b ∉ (cb_ClusterID <$> old)) ∧
      (∀ e, e ∈ Removed d ↔ ∃ b, e = mkEntry (toHex (cb_ClusterID b)) (cb_EffectiveBalance b) ∧
         b ∈ old ∧ cb_ClusterID b ∉ (cb_ClusterID <$> cur))
  end.
Proof.
  intros Hold Hcur.
  assert (∀ l m e, e ∈ diff_only (diff_map m) l ↔
    ∃ b, e = mkEntry (toHex (cb_ClusterID b)) (cb_EffectiveBalance b) ∧ b ∈ l ∧
      cb_ClusterID b ∉ (cb_ClusterID <$> m)) as Honly.
  { intros l m e. rewrite elem_of_diff_only. setoid_rewrite diff_map_None. naive_solver. }
  pose proof (elem_of_changed old cur Hold) as Hch.
  unfold computeDiff. cbn [Changed Added Removed].
  destruct (is_empty (diff_changes (diff_map old) cur) && is_empty (diff_only (diff_map old) cur) &&
    is_empty (diff_only (diff_map cur) old)) eqn:Ee.
  - apply same_balances; [done..|]. by rewrite !andb_true_iff in Ee.
  - cbn. split; [done|]. split; [|split; [exact Hch|]; split; apply Honly].
    intros Hsame. apply not_true_iff_false in Ee. apply Ee. rewrite !andb_true_iff.
    by apply same_balances.
Qed.

(** What docs/api.md says of the first and the latest commit ([null] neighbours) is not what
    is sent: the member is left out. *)
Theorem commit_json_boundary c :
  has_field "previousEpoch" (commit_json c) = bool_decide (is_Some (PreviousEpoch c)) ∧
  has_field "nextEpoch" (commit_json c) = bool_decide (is_Some (NextEpoch c)).
Proof.
  unfold commit_json, has_field, omit, omit_ptr.
  destruct (Clusters c), (Layers c), (TotalEffectiveBalance c =? 0), (BalanceDiff c),
    (PreviousEpoch c), (NextEpoch c); done.
Qed.

(** ** Witnesses *)

Definition api_id : bytes := be_bytes 32 1.

Definition api_balances : list ClusterBalance := [mkBalance api_id 48; mkBalance (be_bytes 32 2) 32].

Definition api_root : bytes :=
  match buildTree api_balances with Ok t => Root t | _ => [] end.

(** The commit of epoch 900 after that of epoch 225. *)
Definition api_db : DB := set_commits
  (<[900 := mkCommitCols api_root 120 (Some (BArr api_balances)) Confirmed None]>
     (oracle_commits example_db)) example_db.

Definition api_world : World := mkWorld api_db [].

Definition api_request : Request := mkRequest "" "TRUE" (toHex api_id).

Lemma api_foreign : foreign api_world.
Proof. by intros e He%elem_of_nil. Qed.

Definition api_proof : Response := (recoveryMiddleware (handleGetProof api_request) api_world).1.

Definition api_commit : Response := (recoveryMiddleware (handleGetCommit api_request) api_world).1.

Example api_codes : code api_proof = 200 ∧ code api_commit = 200.
Proof. vm_compute. done. Qed.

Lemma parseClusterID_toHex_inverse_witness :
  (length api_id = 32%nat → parseClusterID (toHex api_id) = Ok api_id) ∧
  (parseClusterID (toHex api_id) = Ok api_id →
     length api_id = 32%nat ∧ toHex api_id = ToLower (toHex api_id)).
Proof. apply (parseClusterID_toHex_inverse (toHex api_id) api_id). Defined.

Lemma handleGetProof_answers_witness :
  db api_world = api_db ∧
  (proof_answer api_request api_db api_proof ∨
   api_proof = writeError 500 internalError ∧ faulty api_world).
Proof.
  apply (handleGetProof_answers api_request api_world api_proof api_world);
    [exact api_foreign|vm_compute; reflexivity].
Defined.

Lemma handleGetCommit_answers_witness :
  db api_world = api_db ∧
  (no_commit api_request api_db api_commit ∨
   (api_commit = writeError 500 internalError ∧ faulty api_world) ∨
   ∃ commit prev next, requested api_request api_db (Some commit) ∧
     navigates api_world commit prev next ∧
     ((ToLower (q_full api_request) = "true" ∧ (∀ t, ¬ has_tree commit t) ∧
       api_commit = writeError 500 internalError) ∨
      ∃ c, api_commit = mkResponse 200 (BCommit c) ∧ describes commit prev next c ∧
        if bool_decide (ToLower (q_full api_request) = "true")
        then ∃ t, full_details api_db commit prev t c else no_details c)).
Proof.
  apply (handleGetCommit_answers api_request api_world api_commit api_world);
    [exact api_foreign|vm_compute; reflexivity].
Defined.

Lemma api_NoDup : NoDup (cb_ClusterID <$> api_balances).
Proof. apply (bool_decide_unpack _). vm_compute. exact I. Qed.

Lemma computeDiff_exact_witness :
  match computeDiff 225 [mkBalance api_id 64] api_balances with
  | None => ∀ b, b ∈ [mkBalance api_id 64] ↔ b ∈ api_balances
  | Some d =>
      d_PreviousEpoch d = 225 ∧ ¬ (∀ b, b ∈ [mkBalance api_id 64] ↔ b ∈ api_balances) ∧
      (∀ c, c ∈ Changed d ↔ ∃ id x y, c = mkClusterDiff (toHex id) x y ∧ x ≠ y ∧
         mkBalance id x ∈ [mkBalance api_id 64] ∧ mkBalance id y ∈ api_balances) ∧
      (∀ e, e ∈ Added d ↔ ∃ b, e = mkEntry (toHex (cb_ClusterID b)) (cb_EffectiveBalance b) ∧
         b ∈ api_balances ∧ cb_ClusterID b ∉ (cb_ClusterID <$> [mkBalance api_id 64])) ∧
      (∀ e, e ∈ Removed d ↔ ∃ b, e = mkEntry (toHex (cb_ClusterID b)) (cb_EffectiveBalance b) ∧
         b ∈ [mkBalance api_id 64] ∧ cb_ClusterID b ∉ (cb_ClusterID <$> api_balances))
  end.
Proof.
  apply (computeDiff_exact 225 [mkBalance api_id 64] api_balances); [|exact api_NoDup].
  apply NoDup_singleton.
Defined.
