(* ===== verification/Wallet.v ===== *)
(** * wallet: signers (src/wallet/)

    The process environment, the files and the cryptography of go-ethereum are the
    class [Keys]; the choice of a signer, the password and the life of a signer are
    translated. *)

From S2P Require Import Prelude.

(** ** Third-party code *)

(** [Tx] is an unsigned transaction, [Signed] a signed one; a private key is its [D]. *)
Class Keys (Tx Signed : Type) := {
  Getenv : string → string;
  ReadFile : string → result string;
  HexToECDSA : string → result Z;
  PubkeyToAddress : Z → bytes;
  (** [keystore.DecryptKey]: the key and its address. *)
  DecryptKey : string → string → result (Z * bytes);
  (** [types.SignTx] with [LatestSignerForChainID]. *)
  SignTx : Tx → Z → Z → result Signed;
}.

(** ** Data *)

Record Config := mkConfig {
  Type_ : string;
  PrivateKeyEnv : string;
  KeystorePath : string;
  PasswordEnv : string;
  PasswordFile : string;
}.

(** A signer of either kind.  [key_D] is the number in the key object, which stays in memory;
    [held] says that the signer still points to it. *)
Record Signer := mkSigner {
  key_D : Z;
  held : bool;
  address : bytes;
}.

Definition typeEnv : string := "env".
Definition typeKeystore : string := "keystore".

(** ** Operations *)

Section wallet.
Context {Tx Signed : Type} `{!Keys Tx Signed}.

Definition errEnv (name : string) : error :=
  EText ("environment variable " +:+ name +:+ " is not set or empty").

Definition TrimPrefix (pre s : string) : string := default s (cut_prefix pre s).

Definition newEnvSigner (envVarName : string) : result Signer :=
  if bool_decide (envVarName = "") then Err (EText "environment variable name cannot be empty")
  else
    let keyHex := Getenv envVarName in
    if bool_decide (keyHex = "") then Err (errEnv envVarName)
    else
      privateKey ← wrap ("parse private key from " +:+ envVarName)
                     (HexToECDSA (TrimPrefix "0x" keyHex));
      Ok (mkSigner privateKey true (PubkeyToAddress privateKey)).

(** The cutset of [TrimRight]: carriage return and newline. *)
Definition is_newline (c : ascii) : bool :=
  let n := Ascii.N_of_ascii c in (n =? 13)%N || (n =? 10)%N.

Definition readPassword (passwordEnv passwordFile : string) : result string :=
  if negb (bool_decide (passwordFile = "")) then
    data ← wrap "read password file" (ReadFile passwordFile);
    Ok (trim_right is_newline data)
  else if negb (bool_decide (passwordEnv = "")) then
    let password := Getenv passwordEnv in
    if bool_decide (password = "") then Err (errEnv passwordEnv) else Ok password
  else Err (EText "no password source provided: set password_file or password_env").

Definition newKeystoreSigner (keystorePath passwordEnv passwordFile : string) : result Signer :=
  if bool_decide (keystorePath = "") then Err (EText "keystore path cannot be empty")
  else
    password ← wrap "read password" (readPassword passwordEnv passwordFile);
    keyjson ← wrap "read keystore file" (ReadFile keystorePath);
    key ← wrap "decrypt keystore" (DecryptKey keyjson password);
    Ok (mkSigner key.1 true key.2).

(** The texts of the errors of the last two cases leave out the quoted types. *)
Definition NewSigner (cfg : option Config) : result Signer :=
  match cfg with
  | None => Err (EText "wallet config is nil")
  | Some cfg =>
      if bool_decide (Type_ cfg = typeEnv) then
        if bool_decide (PrivateKeyEnv cfg = "")
        then Err (EText "private_key_env is required for env signer")
        else newEnvSigner (PrivateKeyEnv cfg)
      else if bool_decide (Type_ cfg = typeKeystore) then
        if bool_decide (KeystorePath cfg = "")
        then Err (EText "keystore_path is required for keystore signer")
        else if bool_decide (PasswordEnv cfg = "") && bool_decide (PasswordFile cfg = "")
        then Err (EText "password_env or password_file is required for keystore signer")
        else newKeystoreSigner (KeystorePath cfg) (PasswordEnv cfg) (PasswordFile cfg)
      else if bool_decide (Type_ cfg = "") then Err (EText "wallet type is required")
      else Err (EText "unsupported wallet type")
  end.

Definition Close (s : Signer) : Signer :=
  if held s then mkSigner 0 false (address s) else s.

(** [chainID] is [None] for a nil pointer. *)
Definition Sign (s : Signer) (tx : Tx) (chainID : option Z) : result Signed :=
  if negb (held s) then Err (EText "signer is closed")
  else match chainID with
  | None => Err (EText "chainID is required (EIP-155 replay protection)")
  | Some id =>
      if id =? 0 then Err (EText "chainID is required (EIP-155 replay protection)")
      else SignTx tx id (key_D s)
  end.

(** A use of a signer: it is closed, or asked to sign. *)
Inductive use := UClose | USign (tx : Tx) (chainID : option Z).

(** The signatures asked for, in order, and the signer left. *)
Fixpoint run_uses (us : list use) (s : Signer) : list (result Signed) * Signer :=
  match us with
  | [] => ([], s)
  | UClose :: rest => run_uses rest (Close s)
  | USign tx chainID :: rest =>
      let '(sigs, s') := run_uses rest s in (Sign s tx chainID :: sigs, s')
  end.
End wallet.
Arguments use : clear implicits.

(** ** Specification *)

(** The signatures asked for by uses before a close. *)
Definition asked {Tx} (us : list (use Tx)) : list (Tx * option Z) :=
  omap (λ u, match u with USign tx chainID => Some (tx, chainID) | UClose => None end) us.

(** [password] as a password file holds it, with any number of line ends after it. *)
Definition password_file (password ends : string) : string := password +:+ ends.

(** ** Lemmas *)

Lemma trim_right_app cut s ends :
  trim_right cut ends = "" → trim_right cut (s +:+ ends) = trim_right cut s.
Proof.
  intros He. induction s as [|c s IH]; [exact He|].
  change (trim_right cut (String c s +:+ ends)) with
    (match trim_right cut (s +:+ ends) with
     | "" => if cut c then "" else String c ""
     | r => String c r
     end). by rewrite IH.
Qed.

Section lemmas.
Context {Tx Signed : Type} {HK : Keys Tx Signed}.

Lemma run_uses_open us1 us2 s :
  Forall (λ u, u ≠ UClose) us1 →
  run_uses us1 s = ((λ '(tx, chainID), Sign s tx chainID) <$> asked us1, s) ∧
  run_uses (us1 ++ us2) s =
    (((λ '(tx, chainID), Sign s tx chainID) <$> asked us1) ++ (run_uses us2 s).1,
     (run_uses us2 s).2).
Proof.
  induction 1 as [|[|tx chainID] us1 Hu _ [IH1 IH2]]; cbn; [|done|].
  - split; [done|]. by destruct (run_uses us2 s).
  - rewrite IH1, IH2. done.
Qed.

Lemma run_uses_closed us s :
  held s = false →
  run_uses us s = ((λ _, Err (EText "signer is closed")) <$> asked us, s).
Proof.
  intros Hs. induction us as [|[|tx chainID] us IH]; cbn; [done|..].
  - unfold Close. rewrite Hs. exact IH.
  - rewrite IH. unfold Sign. by rewrite Hs.
Qed.

Lemma NewSigner_held cfg s : NewSigner cfg = Ok s → held s = true.
Proof.
  unfold NewSigner, newEnvSigner, newKeystoreSigner. intros Hnew. destruct cfg as [cfg|]; [|done].
  repeat case_bool_decide; cbn in Hnew; try done; inv_ok; done.
Qed.
End lemmas.

(** ** Properties *)

(** A signer signs with its key until it is closed: each request before that is signed
    for its chain, or refused when no chain is named (no signature is valid on every chain);
    each request after it is refused, and the number of the key is erased from memory and
    stays so, however the signer is used. *)
Theorem signer_lifecycle {Tx Signed} `{!Keys Tx Signed} cfg s us1 us2 :
  NewSigner cfg = Ok s → Forall (λ u, u ≠ UClose) us1 →
  run_uses (us1 ++ UClose :: us2) s =
    (((λ '(tx, chainID),
         match chainID with
         | Some id =>
             if id =? 0 then Err (EText "chainID is required (EIP-155 replay protection)")
             else SignTx tx id (key_D s)
         | None => Err (EText "chainID is required (EIP-155 replay protection)")
         end) <$> asked us1) ++
     ((λ _, Err (EText "signer is closed")) <$> asked us2),
     mkSigner 0 false (address s)).
Proof.
  intros Hnew Hus.
  pose proof (NewSigner_held cfg s Hnew) as Hs.
  rewrite (proj2 (run_uses_open us1 (UClose :: us2) s Hus)).
  change (run_uses (UClose :: us2) s) with (run_uses us2 (Close s)). unfold Close. rewrite Hs.
  rewrite run_uses_closed by done. cbn [fst snd]. f_equal. f_equal.
  apply list_fmap_ext. intros i [tx [id|]] _; unfold Sign; by rewrite Hs.
Qed.

(** A password file may end with any line ends and is preferred to the environment: the
    password is its text before them, spaces included, when that does not itself end with
    one. *)
Theorem readPassword_file {Tx Signed} `{!Keys Tx Signed} env file password ends :
  file ≠ "" → ReadFile file = Ok (password_file password ends) →
  trim_right is_newline ends = "" → trim_right is_newline password = password →
  readPassword env file = Ok password.
Proof.
  intros Hf Hr He Hp. unfold readPassword. rewrite bool_decide_false by done. cbn [negb].
  rewrite Hr. cbn. unfold password_file. by rewrite trim_right_app, Hp.
Qed.

(** ** Witnesses *)

(** Transactions are numbers; a signature lists the transaction, the chain and the key. *)
#[local] Instance toy_keys : Keys Z (Z * Z * Z) := {|
  Getenv name := if bool_decide (name = "KEY") then "0x07" else "";
  ReadFile _ := Ok ("pass word " +:+ String "013" (String "010" ""));
  HexToECDSA s := match hex_decode s with (l, true) => Ok (be_value l) | _ => Err (EText "hex") end;
  PubkeyToAddress d := be_bytes 20 d;
  DecryptKey _ _ := Err (EText "could not decrypt key with given password");
  SignTx tx chain d := Ok (tx, chain, d);
|}.

Definition toy_signer : Signer := mkSigner 7 true (be_bytes 20 7).

Lemma signer_lifecycle_witness :
  run_uses ([USign 5 (Some 1); USign 6 None] ++ UClose :: [USign 7 (Some 1); UClose]) toy_signer =
  ([Ok (5, 1, 7); Err (EText "chainID is required (EIP-155 replay protection)");
    Err (EText "signer is closed")],
   mkSigner 0 false (be_bytes 20 7)).
Proof.
  refine (eq_trans (signer_lifecycle (Some (mkConfig "env" "KEY" "" "" "")) toy_signer
    [USign 5 (Some 1); USign 6 None] [USign 7 (Some 1); UClose] _ _) _);
    [vm_compute; reflexivity|by repeat constructor|vm_compute; reflexivity].
Defined.

Lemma readPassword_file_witness : readPassword (Tx:=Z) "PW" "/run/secret" = Ok "pass word ".
Proof.
  apply (readPassword_file (Tx:=Z) "PW" "/run/secret" "pass word "
    (String "013" (String "010" ""))); done.
Defined.
