(* ===== verification/Config.v ===== *)
(** * commands: the configuration (src/cmd/oracle/commands/config.go)

    Reading the file is [os.ReadFile], decoding it is yaml.v3: both are arguments of
    [loadConfig].  What the validation takes from other code is the class [Checks]: the
    URL parser of net/url, the level names of zap, the addresses of go-ethereum. *)

From S2P Require Import Prelude Schedule TxManager Wallet.

(** ** Third-party code *)

Class Checks := {
  (** [url.Parse]: the scheme and the host, [None] for an error. *)
  url_Parse : string → option (string * string);
  (** [zapcore.Level.UnmarshalText] accepts the name. *)
  is_level : string → bool;
  IsHexAddress : string → bool;
  HexToAddress : string → bytes;
}.

(** ** Data *)

Record config := mkConfig {
  LogLevel : string;
  EthRPC : string;
  EthWSRPC : string;
  BeaconURL : string;
  MEVRPCs : string;
  SSVContract : string;
  SSVViewsContract : string;
  SSVContractDeployBlock : Z;
  MaxSyncBatchSize : Z;
  DBPath : string;
  APIAddress : string;
  MetricsAddress : string;
  cfg_Wallet : Wallet.Config;
  cfg_TxPolicy : TxPolicy;
  cfg_Schedule : CommitSchedule;
}.

Definition defaultDBPath : string := "./data/oracle.db".
Definition defaultAPIAddress : string := "127.0.0.1:8080".
Definition defaultMetricsAddress : string := "127.0.0.1:9090".

Definition default_config : config :=
  mkConfig "" "" "" "" "" "" "" 0 0 defaultDBPath defaultAPIAddress defaultMetricsAddress
    (Wallet.mkConfig "" "" "" "" "") (mkPolicy 0 0 0 0 0 0) [].

(** ** Operations *)

Definition comma : ascii := ","%char.

(** The entries of a comma-separated list, trimmed, without the empty ones. *)
Definition getMEVRPCs (c : config) : list string :=
  if bool_decide (MEVRPCs c = "") then []
  else filter (λ s, s ≠ "") (TrimSpace <$> split_at comma (MEVRPCs c)).

Section validate.
Context `{!Checks}.

Definition validateAddress (addr name : string) : option error :=
  let addr := TrimSpace addr in
  if bool_decide (addr = "") then Some (EText (name +:+ " is required"))
  else if negb (IsHexAddress addr) then
    Some (EText ("invalid " +:+ name +:+ " address: " +:+ addr))
  else if bool_decide (HexToAddress addr = replicate 20 x00) then
    Some (EText (name +:+ " cannot be zero address"))
  else None.

Definition validateURL (value name : string) (schemes : list string) : option error :=
  let value := TrimSpace value in
  if bool_decide (value = "") then Some (EText (name +:+ " is required"))
  else
    let invalid := Some (EText ("invalid " +:+ name +:+ " url: " +:+ value)) in
    match url_Parse value with
    | None => invalid
    | Some (scheme, host) =>
        if bool_decide (scheme = "") || bool_decide (host = "") then invalid
        else match schemes with
        | [] => None
        | _ =>
            if existsb (λ allowed, bool_decide (ToLower scheme = ToLower allowed)) schemes then None
            else Some (EText ("invalid " +:+ name +:+ " scheme: " +:+ scheme +:+ " (allowed: " +:+
              String.concat ", " schemes +:+ ")"))
        end
    end.

Definition http : list string := ["http"; "https"].
Definition ws : list string := ["ws"; "wss"].

Definition errs_of (o : option error) : list error := match o with Some e => [e] | None => [] end.

(** The loop over the MEV URLs from entry [i] on, after those of [seen]. *)
Fixpoint validate_mev (i : nat) (seen : gset string) (rpcs : list string) : list error :=
  match rpcs with
  | [] => []
  | rpc :: rest =>
      (if bool_decide (rpc ∈ seen) then [EText ("duplicate mev_rpcs entry: " +:+ rpc)] else []) ++
      errs_of (validateURL rpc ("mev_rpcs[" +:+ pretty i +:+ "]") http) ++
      validate_mev (S i) ({[ rpc ]} ∪ seen) rest
  end.

(** The fields [validate] assigns. *)
Definition trim_fields (c : config) : config :=
  mkConfig (TrimSpace (LogLevel c)) (EthRPC c) (EthWSRPC c) (BeaconURL c) (MEVRPCs c)
    (SSVContract c) (SSVViewsContract c) (SSVContractDeployBlock c) (MaxSyncBatchSize c)
    (TrimSpace (DBPath c)) (APIAddress c) (MetricsAddress c) (cfg_Wallet c) (cfg_TxPolicy c)
    (cfg_Schedule c).

(** The text of the error leaves out the quoted level. *)
Definition validate_level (level : string) : option error :=
  if bool_decide (level = "") then None
  else if is_level (ToLower level) then None
  else Some (EText "invalid log_level: must be debug, info, warn, or error").

(** The errors of [validate], in order. *)
Definition config_errors (c : config) (withUpdater : bool) : list error :=
  errs_of (validate_level (LogLevel c)) ++
  errs_of (validateURL (EthRPC c) "eth_rpc" http) ++
  errs_of (validateURL (BeaconURL c) "beacon_url" http) ++
  errs_of (validateAddress (SSVContract c) "ssv_contract") ++
  errs_of (validateAddress (SSVViewsContract c) "ssv_views_contract") ++
  (if SSVContractDeployBlock c =? 0 then [EText "ssv_contract_deploy_block is required"] else []) ++
  match Schedule.Validate (cfg_Schedule c) with
  | Err e => [EWrap "invalid commit_phases" e]
  | _ => []
  end ++
  (if withUpdater then errs_of (validateURL (EthWSRPC c) "eth_ws_rpc" ws) else []) ++
  validate_mev 0 ∅ (getMEVRPCs c).

Definition newline : string := String (ascii_of_nat 10) "".

(** [errors.Join]: the messages, one per line; nil when there is no error. *)
Definition errors_Join (errs : list error) : option error :=
  match errs with [] => None | _ => Some (EText (String.concat newline (Error <$> errs))) end.

(** The configuration with the fields it trims, and the joined errors. *)
Definition validate (c : config) (withUpdater : bool) : config * option error :=
  let c := trim_fields c in (c, errors_Join (config_errors c withUpdater)).

(** [read] is what the file holds; [decode] overwrites the fields it names. *)
Definition loadConfig (read : string → result bytes) (decode : bytes → config → result config)
    (path : string) (withUpdater : bool) : result config :=
  data ← wrap ("read config " +:+ path) (read path);
  cfg ← wrap ("parse config " +:+ path) (decode data default_config);
  match validate cfg withUpdater with
  | (cfg, None) => Ok cfg
  | (_, Some err) => Err (EWrap "invalid config" err)
  end.
End validate.

(** ** Specification *)

Section spec.
Context {HC : Checks}.

(** A URL of one of the schemes, once trimmed. *)
Definition url_ok (schemes : list string) (value : string) : Prop :=
  TrimSpace value ≠ "" ∧ ∃ scheme host, url_Parse (TrimSpace value) = Some (scheme, host) ∧
    scheme ≠ "" ∧ host ≠ "" ∧ ToLower scheme ∈ schemes.

(** A hexadecimal address other than zero, once trimmed. *)
Definition address_ok (addr : string) : Prop :=
  TrimSpace addr ≠ "" ∧ IsHexAddress (TrimSpace addr) = true ∧
  HexToAddress (TrimSpace addr) ≠ replicate 20 x00.

Record valid_config (c : config) (withUpdater : bool) : Prop := {
  vc_level : TrimSpace (LogLevel c) = "" ∨ is_level (ToLower (TrimSpace (LogLevel c))) = true;
  vc_eth : url_ok http (EthRPC c);
  vc_beacon : url_ok http (BeaconURL c);
  vc_contract : address_ok (SSVContract c);
  vc_views : address_ok (SSVViewsContract c);
  vc_deploy : SSVContractDeployBlock c ≠ 0;
  vc_schedule : Schedule.Validate (cfg_Schedule c) = Ok tt;
  vc_ws : withUpdater = true → url_ok ws (EthWSRPC c);
  vc_mev : NoDup (getMEVRPCs c) ∧ Forall (url_ok http) (getMEVRPCs c);
}.

(** ** Lemmas *)

Lemma errs_of_nil o : errs_of o = [] ↔ o = None.
Proof. by destruct o. Qed.

Lemma errors_Join_None errs : errors_Join errs = None ↔ errs = [].
Proof. by destruct errs. Qed.

Lemma validateURL_None value name schemes :
  schemes ≠ [] → Forall (λ s, ToLower s = s) schemes →
  validateURL value name schemes = None ↔ url_ok schemes value.
Proof.
  intros Hne Hlow. unfold validateURL, url_ok.
  case_bool_decide as Hv; [split; [done|by intros [? _]]|].
  destruct (url_Parse (TrimSpace value)) as [[scheme host]|]; [|split; [done|naive_solver]].
  case_bool_decide; cbn [orb]; [split; [done|naive_solver]|].
  case_bool_decide; [split; [done|naive_solver]|].
  destruct schemes as [|s0 ss]; [done|].
  destruct (existsb _ (s0 :: ss)) eqn:Ee.
  - split; [intros _|done]. split; [done|]. exists scheme, host. do 3 (split; [done|]).
    apply existsb_exists in Ee as (s & Hin & Hs). apply bool_decide_eq_true in Hs.
    apply list_elem_of_In in Hin. rewrite Forall_forall in Hlow. by rewrite Hs, (Hlow s).
  - split; [done|]. intros (_ & s & h & [= <- <-] & _ & _ & Hin).
    apply not_true_iff_false in Ee. destruct Ee. apply existsb_exists.
    exists (ToLower scheme). split; [by apply list_elem_of_In|]. apply bool_decide_eq_true.
    rewrite Forall_forall in Hlow. by rewrite (Hlow _ Hin).
Qed.

Lemma validateAddress_None addr name : validateAddress addr name = None ↔ address_ok addr.
Proof.
  unfold validateAddress, address_ok.
  case_bool_decide; [naive_solver|]. destruct (IsHexAddress _); cbn [negb]; [|naive_solver].
  case_bool_decide; naive_solver.
Qed.

Lemma validate_mev_nil i seen rpcs :
  validate_mev i seen rpcs = [] ↔
    (∀ r, r ∈ rpcs → r ∉ seen) ∧ NoDup rpcs ∧ Forall (url_ok http) rpcs.
Proof.
  revert i seen. induction rpcs as [|rpc rpcs IH]; intros i seen; cbn [validate_mev].
  { split; [intros _|done]. split; [by intros r ?%elem_of_nil|by split; constructor]. }
  rewrite !app_nil, IH, errs_of_nil, validateURL_None, NoDup_cons, Forall_cons by
    (done || by repeat constructor).
  case_bool_decide as Hs.
  - split; [by intros [? _]|]. intros [Hseen _]. by destruct (Hseen rpc); [left|].
  - setoid_rewrite elem_of_union. setoid_rewrite elem_of_singleton.
    setoid_rewrite elem_of_cons. naive_solver.
Qed.

Lemma Validate_cases sch : Schedule.Validate sch = Ok tt ∨ ∃ e, Schedule.Validate sch = Err e.
Proof.
  assert (∀ prev, validate_loop prev sch = Ok tt ∨ ∃ e, validate_loop prev sch = Err e) as Hl.
  { induction sch as [|p sch IH]; intros prev; cbn [validate_loop]; [by left|].
    unfold mbind, result_bind.
    assert (validate_phase prev p = Ok tt ∨ ∃ e, validate_phase prev p = Err e) as [->|[e ->]].
    { unfold validate_phase. destruct prev; repeat case_match; eauto. }
    - apply IH.
    - right. by exists e. }
  unfold Schedule.Validate. destruct sch; [right; by eexists|apply Hl].
Qed.

Lemma config_errors_nil c withUpdater :
  config_errors (trim_fields c) withUpdater = [] ↔ valid_config c withUpdater.
Proof.
  unfold config_errors. rewrite !app_nil, !errs_of_nil, !validateAddress_None, validate_mev_nil.
  rewrite !validateURL_None by (done || by repeat constructor). unfold validate_level. cbn.
  split.
  - intros (Hl & He & Hb & Hc & Hv & Hd & Hs & Hw & _ & Hm). split; try done.
    + case_bool_decide; [by left|right]. by destruct (is_level _).
    + by destruct (Z.eqb_spec (SSVContractDeployBlock c) 0).
    + by destruct (Validate_cases (cfg_Schedule c)) as [?|[e He']]; [|rewrite He' in Hs].
    + intros ->. apply errs_of_nil, validateURL_None in Hw; [done..|by repeat constructor].
  - intros [Hl He Hb Hc Hv Hd Hs Hw Hm]. split; [|do 4 (split; [done|])].
    + case_bool_decide; [done|]. destruct Hl as [?|Hl]; [done|]. by rewrite Hl.
    + destruct (Z.eqb_spec (SSVContractDeployBlock c) 0); [done|]. rewrite Hs.
      do 2 (split; [done|]). split; [|split; [by intros|exact Hm]].
      destruct withUpdater; [|done]. apply errs_of_nil, validateURL_None; [done| |by apply Hw].
      by repeat constructor.
Qed.

Lemma loadConfig_inv read decode path withUpdater cfg :
  loadConfig read decode path withUpdater = Ok cfg →
  ∃ data decoded, read path = Ok data ∧ decode data default_config = Ok decoded ∧
    valid_config decoded withUpdater ∧ cfg = trim_fields decoded.
Proof.
  unfold loadConfig. intros H. inv_ok. unfold validate in H.
  destruct (errors_Join _) as [err|] eqn:Ej; [done|]. injection H as <-.
  apply errors_Join_None, config_errors_nil in Ej. eauto 6.
Qed.
End spec.

(** ** Properties *)

(** C40: a configuration is loaded exactly when the file is read and decoded and every check
    holds: the level is known or empty, the node URLs and the contracts' addresses are
    present and well formed, the deploy block and the schedule are set and valid, the
    websocket URL is valid when the updater runs, and the MEV URLs are valid and distinct.
    URLs and addresses are checked trimmed, but of the text fields only the level and the
    database path are trimmed in what is loaded. *)
Theorem loadConfig_iff {HC : Checks} read decode path withUpdater cfg :
  loadConfig read decode path withUpdater = Ok cfg ↔
  ∃ data decoded, read path = Ok data ∧ decode data default_config = Ok decoded ∧
    valid_config decoded withUpdater ∧ cfg = trim_fields decoded.
Proof.
  split; [apply loadConfig_inv|]. unfold loadConfig.
  intros (data & decoded & -> & Hd & Hv & ->). cbn. rewrite Hd. cbn. unfold validate.
  apply config_errors_nil in Hv. by rewrite Hv.
Qed.

(** ** Witnesses *)

(** Addresses as go-ethereum documents them: hexadecimal text with an optional prefix, of
    which the last 20 bytes count; decoding stops at the first character that is no digit. *)
Definition from_hex (s : string) : bytes :=
  let digits := default s (cut_prefix "0x" s) in
  (hex_decode (if Nat.odd (String.length digits) then String "0" digits else digits)).1.

#[local] Instance toy_checks : Checks := {|
  url_Parse s := r ← cut_prefix "http://" s; if bool_decide (r = "") then None else Some ("http", r);
  is_level s := bool_decide (s = "info");
  IsHexAddress s :=
    let digits := default s (cut_prefix "0x" s) in
    (String.length digits =? 40)%nat && (hex_decode digits).2;
  HexToAddress s := let l := from_hex s in
    replicate (20 - length l) x00 ++ drop (length l - 20) l;
|}.

Definition toy_address : string := "0x" +:+ hex_encode (be_bytes 20 (16 ^ 30 + 7)).

(** A configuration whose contract address is padded, as a quoted YAML text may be. *)
Definition padded_config : config :=
  mkConfig " info" "http://node" "" "http://beacon" "http://a, http://b,," (toy_address +:+ " ")
    toy_address 1 0 defaultDBPath defaultAPIAddress defaultMetricsAddress
    (Wallet.mkConfig "env" "KEY" "" "" "") (mkPolicy 0 0 0 0 0 0) [mkPhase 0 225].

(** It is loaded, and the address taken from it is not the one that was checked. *)
Theorem padded_address :
  ∃ cfg, loadConfig (λ _, Ok []) (λ _ _, Ok padded_config) "config.yaml" false = Ok cfg ∧
    HexToAddress (SSVContract cfg) ≠ HexToAddress (TrimSpace (SSVContract cfg)).
Proof. exists (trim_fields padded_config). split; vm_compute; done. Qed.

Lemma loadConfig_iff_witness :
  loadConfig (λ _, Ok []) (λ _ _, Ok padded_config) "config.yaml" false =
    Ok (trim_fields padded_config) ↔
  ∃ data decoded, (λ _ : string, Ok []) "config.yaml" = Ok data ∧
    (λ (_ : bytes) (_ : config), Ok padded_config) data default_config = Ok decoded ∧
    valid_config decoded false ∧ trim_fields padded_config = trim_fields decoded.
Proof.
  apply (loadConfig_iff (λ _, Ok []) (λ _ _, Ok padded_config) "config.yaml" false
    (trim_fields padded_config)).
Defined.

Example padded_loads :
  loadConfig (λ _, Ok []) (λ _ _, Ok padded_config) "config.yaml" false =
    Ok (trim_fields padded_config) ∧ getMEVRPCs padded_config = ["http://a"; "http://b"].
Proof. vm_compute. done. Qed.
