(* ===== verification/Connect.v ===== *)
(** * Constructors: the connections and the database a start opens

    [New] of execution (src/eth/execution/client.go), beacon (src/eth/beacon/client.go),
    txmanager (src/txmanager/manager.go), contract ([NewClient]) and storage, with their
    [Close].  What is open is state: a connection is a number that was not given before; a
    database file holds the tables created so far and their rows. *)

From S2P Require Import Prelude Retry Storage Execution TxManager Contract Wallet Config.

(** ** Third-party code *)

Class Dialer (E : Type) := {
  (** [ethclient.Dial], [rpc.Dial]: whether the address can be connected to. *)
  Dial : string → io E unit;
  (** [web3_clientVersion]. *)
  ClientVersion : io E string;
  (** [eth2http.New] with an address and a timeout. *)
  eth2http_New : string → Z → io E unit;
  NodeVersion : io E string;
}.

(** ** Data *)

(** The network: connections get increasing numbers; [n_open] are not closed yet. *)
Record Net (E : Type) := mkNet {
  n_env : E;
  n_next : nat;
  n_open : gset nat;
}.
Arguments mkNet {E} _ _ _.
Arguments n_env {E} _.
Arguments n_next {E} _.
Arguments n_open {E} _.

(** [TxManager] of txmanager; [m_mevClients] from addresses to connections. *)
Record Manager := mkManager {
  m_client : nat;
  m_signer : Signer;
  m_chainID : Z;
  m_policy : TxPolicy;
  m_errorSelectors : gmap string string;
  m_mevClients : gmap string nat;
}.

(** [Config] of contract; [None] is a nil pointer. *)
Record ClientConfig := mkClientConfig {
  RPCURL : string;
  WSRPCURL : string;
  ContractAddress : string;
  ViewsContractAddress : string;
  cc_ChainID : option Z;
  cc_Signer : option Signer;
  cc_TxPolicy : option TxPolicy;
  cc_MEVRPCs : list string;
}.

(** [Client] of contract, with its connections. *)
Record NetClient := mkNetClient {
  nc_ethClient : nat;
  nc_wsClient : option nat;
  nc_contractAddress : bytes;
  nc_viewsContractAddress : bytes;
  nc_txManager : Manager;
  nc_chainID : Z;
}.

(** ** Connections *)

Section net.
Context {E : Type}.

Definition on_net {A} (m : io E A) : io (Net E) A :=
  zoom n_env (λ e n, mkNet e (n_next n) (n_open n)) m.

(** Give the next connection. *)
Definition alloc : io (Net E) nat := λ n,
  (Ok (n_next n), mkNet (n_env n) (S (n_next n)) ({[ n_next n ]} ∪ n_open n)).

Definition disconnect (c : nat) (n : Net E) : Net E :=
  mkNet (n_env n) (n_next n) (n_open n ∖ {[ c ]}).

(** Close the connections of a map; the order does not matter. *)
Definition disconnect_all (m : gmap string nat) (n : Net E) : Net E :=
  foldr disconnect n ((map_to_list m).*2).

(** Code whose error is ignored. *)
Definition ignore {S A} (m : io S A) : io S unit := try_ m (λ r, match r with
  | Panic => lift Panic
  | _ => mret tt
  end).
End net.

(** ** Constructors *)

Section connect.
Context {HC : Checks} {HB : ContractABI} {E : Type} {HD : Dialer E}.

Definition connect (url : string) : io (Net E) nat := _ ← on_net (Dial url); alloc.

(** execution: the connection, batch sizes and retry policy of the client. *)
Definition NewExecution (url : string) (minBatch maxBatch : Z) (retry : option RetryConfig)
    : io (Net E) (nat * AdaptiveBatchSize * RetryConfig) :=
  c ← wrapM "dial RPC" (connect url);
  _ ← ignore (on_net ClientVersion);
  mret (c, NewAdaptiveBatchSize minBatch maxBatch, default DefaultRetryConfig retry).

Definition defaultBeaconTimeout : Z := 30 * 10 ^ 9.

(** beacon: the retry policy of the client.  Its connection has no [Close]. *)
Definition NewBeacon (url : string) (timeout : Z) (retry : option RetryConfig)
    : io (Net E) RetryConfig :=
  _ ← wrapM ("beacon node " +:+ url)
        (on_net (eth2http_New url (or_default timeout defaultBeaconTimeout)));
  _ ← ignore (on_net NodeVersion);
  mret (default DefaultRetryConfig retry).

(** The loop that dials the MEV relays, [mevClients] being those of before. *)
Fixpoint dialMEV (mevRPCs : list string) (mevClients : gmap string nat)
    : io (Net E) (gmap string nat) :=
  match mevRPCs with
  | [] => mret mevClients
  | rpcURL :: rest => try_ (connect rpcURL) (λ r,
      match r with
      | Ok mevClient => dialMEV rest (<[rpcURL := mevClient]> mevClients)
      | Err err => λ n,
          (Err (EWrap ("dial MEV RPC " +:+ rpcURL) err), disconnect_all mevClients n)
      | Panic => lift Panic
      end)
  end.

(** txmanager: the defaults are filled in through the pointer; nothing else reads the
    policy afterwards. *)
Definition NewManager (client : nat) (signer : Signer) (chainID : Z) (policy : option TxPolicy)
    (mevRPCs : list string) : io (Net E) Manager :=
  match policy with
  | None => fail (EText "tx policy is required")
  | Some policy =>
      let policy := ApplyDefaults policy in
      _ ← lift (wrap "invalid tx policy" (TxManager.Validate policy));
      mevClients ← dialMEV mevRPCs ∅;
      mret (mkManager client signer chainID policy ∅ mevClients)
  end.

Definition SetErrorSelectors (selectors : gmap string string) (m : Manager) : Manager :=
  mkManager (m_client m) (m_signer m) (m_chainID m) (m_policy m) selectors (m_mevClients m).

Definition CloseManager (m : Manager) (n : Net E) : Net E := disconnect_all (m_mevClients m) n.

(** [ethClient.Close()] on the way out with an error. *)
Definition closing {A} (c : nat) (m : io (Net E) A) : io (Net E) A := λ n,
  match m n with
  | (Err err, n') => (Err err, disconnect c n')
  | r => r
  end.

Definition NewClient (cfg : ClientConfig) : io (Net E) NetClient :=
  match cc_ChainID cfg, cc_Signer cfg with
  | None, _ => fail (EText "chain ID cannot be nil")
  | Some _, None => fail (EText "signer cannot be nil")
  | Some chainID, Some signer =>
      ethClient ← wrapM "dial RPC" (connect (RPCURL cfg));
      txMgr ← closing ethClient (wrapM "create tx manager"
        (NewManager ethClient signer chainID (cc_TxPolicy cfg) (cc_MEVRPCs cfg)));
      let txMgr := SetErrorSelectors errorSelectors_init txMgr in
      let client ws := mkNetClient ethClient ws (HexToAddress (ContractAddress cfg))
        (HexToAddress (ViewsContractAddress cfg)) txMgr chainID in
      if bool_decide (WSRPCURL cfg = "") then mret (client None)
      else
        wsClient ← closing ethClient (wrapM "dial WebSocket" (connect (WSRPCURL cfg)));
        mret (client (Some wsClient))
  end.

Definition CloseClient (c : NetClient) (n : Net E) : Net E :=
  let n := disconnect (nc_ethClient c) (CloseManager (nc_txManager c) n) in
  match nc_wsClient c with Some ws => disconnect ws n | None => n end.
End connect.

(** ** The database file *)

(** [filepath.Clean] of the segments of a path: the segments that stay, last first. *)
Fixpoint clean_segs (rooted : bool) (stack segs : list string) : list string :=
  match segs with
  | [] => stack
  | seg :: rest =>
      if bool_decide (seg = "") || bool_decide (seg = ".") then clean_segs rooted stack rest
      else if bool_decide (seg = "..") then
        match stack with
        | top :: stack' =>
            if bool_decide (top = "..") then clean_segs rooted (seg :: stack) rest
            else clean_segs rooted stack' rest
        | [] => clean_segs rooted (if rooted then [] else [seg]) rest
        end
      else clean_segs rooted (seg :: stack) rest
  end.

(** [filepath.Dir(path) != "."]; it is never empty. *)
Definition has_dir (path : string) : bool :=
  let rooted := match path with String "/" _ => true | _ => false end in
  rooted ||
  match clean_segs rooted [] (removelast (split_at "/" path)) with [] => false | _ => true end.

(** The statements of schema.sql, all of which leave alone what exists already. *)
Inductive ddl :=
  | CreateTable (table : string)
  | CreateIndex (table : string)
  | InsertProgress.

Definition schemaSQL : list ddl :=
  [CreateTable "sync_progress"; InsertProgress;
   CreateTable "contract_events"; CreateIndex "contract_events";
   CreateTable "clusters"; CreateIndex "clusters";
   CreateTable "validators"; CreateIndex "validators";
   CreateTable "oracle_commits"; CreateIndex "oracle_commits"].

(** The file: the tables it has, whether the row of sync_progress is there, the rows; and
    the open handles. *)
Record Disk := mkDisk {
  d_tables : gset string;
  d_progress : bool;
  d_world : World;
  d_handles : nat;
}.

(** A step of the driver that may fail. *)
Definition disk_step : io Disk unit :=
  zoom d_world (λ w d, mkDisk (d_tables d) (d_progress d) w (d_handles d)) next_fault.

Definition errNoTable (table : string) : error := EText ("no such table: " +:+ table).

Definition exec_ddl (s : ddl) : io Disk unit := λ d,
  match s with
  | CreateTable table =>
      (Ok tt, mkDisk ({[ table ]} ∪ d_tables d) (d_progress d) (d_world d) (d_handles d))
  | CreateIndex table =>
      (if bool_decide (table ∈ d_tables d) then Ok tt else Err (errNoTable table), d)
  | InsertProgress =>
      if bool_decide ("sync_progress" ∈ d_tables d) then
        if d_progress d then (Ok tt, d)
        else
          let w := d_world d in
          let rows := set_last_synced 0 (set_chain_id None (db w)) in
          (Ok tt, mkDisk (d_tables d) true (mkWorld rows (faults w)) (d_handles d))
      else (Err (errNoTable "sync_progress"), d)
  end.

(** [db.Exec] of several statements: those before a failure stay. *)
Fixpoint exec_schema (l : list ddl) : io Disk unit :=
  match l with
  | [] => mret tt
  | s :: rest => _ ← disk_step; _ ← exec_ddl s; exec_schema rest
  end.

Definition open_handle : io Disk unit := λ d,
  (Ok tt, mkDisk (d_tables d) (d_progress d) (d_world d) (S (d_handles d))).

Definition dbPragmas : list string := ["PRAGMA journal_mode=WAL"; "PRAGMA synchronous=NORMAL"].

Fixpoint set_pragmas (l : list string) : io Disk unit :=
  match l with
  | [] => mret tt
  | pragma :: rest => _ ← wrapM ("set " +:+ pragma) disk_step; set_pragmas rest
  end.

(** storage; on an error the handle that was opened is not closed. *)
Definition NewStorage (dbPath : string) : io Disk unit :=
  _ ← (if has_dir dbPath then wrapM "create db directory" disk_step else mret tt);
  _ ← wrapM "open database" disk_step;
  _ ← open_handle;
  _ ← wrapM "ping database" disk_step;
  _ ← set_pragmas dbPragmas;
  wrapM "apply schema" (exec_schema schemaSQL).

Definition CloseStorage (d : Disk) : Disk :=
  mkDisk (d_tables d) (d_progress d) (d_world d) (pred (d_handles d)).

(** What the calls of the client read ([Contract.Client]). *)
Definition client_of (c : NetClient) : Client :=
  mkClient (nc_contractAddress c) (nc_viewsContractAddress c) (m_policy (nc_txManager c))
    (m_chainID (nc_txManager c)) (map_to_list (m_mevClients (nc_txManager c))).*1
    (m_errorSelectors (nc_txManager c)).

(** ** Specification *)

(** Numbers given were not given before. *)
Definition net_ok {E} (n : Net E) : Prop := ∀ c, c ∈ n_open n → (c < n_next n)%nat.

(** The connections of the transaction manager's relays, and those of a client. *)
Definition mev_conns (m : Manager) : gset nat := map_img (m_mevClients m).

Definition client_conns (c : NetClient) : gset nat :=
  {[ nc_ethClient c ]} ∪ match nc_wsClient c with Some ws => {[ ws ]} | None => ∅ end ∪
  mev_conns (nc_txManager c).

(** The client [NewClient] makes of a configuration, up to its connections. *)
Record made_from {HC : Checks} {HB : ContractABI} (cfg : ClientConfig) (c : NetClient) : Prop := {
  mf_chain : cc_ChainID cfg = Some (nc_chainID c) ∧ m_chainID (nc_txManager c) = nc_chainID c;
  mf_signer : cc_Signer cfg = Some (m_signer (nc_txManager c));
  mf_policy : ∃ p, cc_TxPolicy cfg = Some p ∧ m_policy (nc_txManager c) = ApplyDefaults p ∧
    TxManager.Validate (ApplyDefaults p) = Ok tt;
  mf_mev : dom (m_mevClients (nc_txManager c)) = list_to_set (cc_MEVRPCs cfg);
  mf_ws : is_Some (nc_wsClient c) ↔ WSRPCURL cfg ≠ "";
  mf_addresses : nc_contractAddress c = HexToAddress (ContractAddress cfg) ∧
    nc_viewsContractAddress c = HexToAddress (ViewsContractAddress cfg);
  mf_errors : m_errorSelectors (nc_txManager c) = errorSelectors_init;
}.

(** What a file holds, also after a start that was interrupted anywhere. *)
Record file_ok (d : Disk) : Prop := {
  fo_progress : d_progress d = true → "sync_progress" ∈ d_tables d;
  fo_row : d_progress d = false →
    chain_id (db (d_world d)) = None ∧ last_synced_block (db (d_world d)) = 0;
  fo_events : "contract_events" ∉ d_tables d → contract_events (db (d_world d)) = ∅;
  fo_clusters : "clusters" ∉ d_tables d → clusters (db (d_world d)) = ∅;
  fo_validators : "validators" ∉ d_tables d → validators (db (d_world d)) = ∅;
  fo_commits : "oracle_commits" ∉ d_tables d → oracle_commits (db (d_world d)) = ∅;
}.

(** The schema was applied in full. *)
Definition has_schema (d : Disk) : Prop :=
  d_progress d = true ∧ ∀ table, CreateTable table ∈ schemaSQL → table ∈ d_tables d.

(** No row changes and nothing is dropped. *)
Record grows (d d' : Disk) : Prop := {
  gr_ok : file_ok d → file_ok d';
  gr_rows : file_ok d → db (d_world d') = db (d_world d);
  gr_tables : d_tables d ⊆ d_tables d';
  gr_progress : d_progress d = true → d_progress d' = true;
}.

(** A file that does not exist yet. *)
Definition no_file : Disk := mkDisk ∅ false (mkWorld schema []) 0.

(** ** Lemmas *)

Section lemmas.
Context {HC : Checks} {HB : ContractABI} {E : Type} {HD : Dialer E}.
Implicit Types n : Net E.

Lemma disconnect_all_open m n : n_open (disconnect_all m n) = n_open n ∖ map_img m.
Proof.
  assert (∀ l, n_open (foldr disconnect n l) = n_open n ∖ list_to_set l) as Hl.
  { induction l as [|c l IH]; cbn; [set_solver|]. rewrite IH. set_solver. }
  unfold disconnect_all. rewrite Hl. apply set_eq. intros c.
  rewrite !elem_of_difference, elem_of_list_to_set, elem_of_map_img, list_elem_of_fmap.
  assert ((∃ y, c = y.2 ∧ y ∈ map_to_list m) ↔ ∃ i, m !! i = Some c) as ->; [|done].
  split; [intros ([i x] & -> & Hi); exists i; by apply elem_of_map_to_list|].
  intros [i Hi]. exists (i, c). split; [done|]. by apply elem_of_map_to_list.
Qed.

Lemma disconnect_all_next m n : n_next (disconnect_all m n) = n_next n.
Proof. unfold disconnect_all. by induction ((map_to_list m).*2). Qed.

Lemma net_ok_sub n n' :
  net_ok n → n_open n' ⊆ n_open n → (n_next n <= n_next n')%nat → net_ok n'.
Proof. intros Hok Hs Hn c Hc. apply Hs, Hok in Hc. lia. Qed.

Lemma on_net_inv {A} (m : io E A) n r n' :
  on_net m n = (r, n') → n_open n' = n_open n ∧ n_next n' = n_next n.
Proof. intros (e & _ & ->)%zoom_run. done. Qed.

Lemma ignore_inv {A} (m : io E A) n r n' :
  ignore (on_net m) n = (r, n') →
  n_open n' = n_open n ∧ n_next n' = n_next n ∧ ∀ e, r ≠ Err e.
Proof.
  unfold ignore, try_. destruct (on_net m n) as [r0 n0] eqn:Hm. apply on_net_inv in Hm as [Ho Hn].
  destruct r0; intros [= <- <-]; by split.
Qed.

Lemma connect_inv url n r n' :
  connect url n = (r, n') → net_ok n →
  net_ok n' ∧ (n_next n <= n_next n')%nat ∧
  match r with
  | Ok c => (c ∉ n_open n) ∧ n_open n' = {[ c ]} ∪ n_open n ∧ (c < n_next n')%nat
  | _ => n_open n' = n_open n
  end.
Proof.
  intros H Hok. unfold connect, mbind, io_bind in H.
  destruct (on_net (Dial url) n) as [r0 n0] eqn:Hd. apply on_net_inv in Hd as [Ho Hn].
  destruct r0; injection H as <- <-; cbn.
  - rewrite Ho, Hn. split; [|split; [lia|split; [|split; [done|lia]]]].
    + intros c. cbn [n_open n_next]. rewrite elem_of_union, elem_of_singleton.
      intros [->|Hc%Hok]; lia.
    + intros Hc%Hok. lia.
  - split; [eapply net_ok_sub; [done|by rewrite Ho|lia]|]. split; [lia|done].
  - split; [eapply net_ok_sub; [done|by rewrite Ho|lia]|]. split; [lia|done].
Qed.

Lemma dial_inv p url n r n' :
  wrapM p (connect url) n = (r, n') → net_ok n →
  net_ok n' ∧ (n_next n <= n_next n')%nat ∧
  match r with
  | Ok c => (c ∉ n_open n) ∧ n_open n' = {[ c ]} ∪ n_open n ∧ (c < n_next n')%nat
  | _ => n_open n' = n_open n
  end.
Proof.
  unfold wrapM. destruct (connect url n) as [r0 n0] eqn:Hc. intros H Hok.
  apply connect_inv in Hc; [|done]. destruct r0; by injection H as <- <-.
Qed.

(** [base]: the connections that are not those of [m]. *)
Lemma dialMEV_inv rpcs m n base r n' :
  dialMEV rpcs m n = (r, n') → NoDup rpcs → (∀ u, u ∈ rpcs → m !! u = None) → net_ok n →
  n_open n = base ∪ map_img m → base ## map_img m →
  net_ok n' ∧ (n_next n <= n_next n')%nat ∧
  match r with
  | Ok m' => dom m' = dom m ∪ list_to_set rpcs ∧ n_open n' = base ∪ map_img m' ∧ base ## map_img m'
  | Err _ => n_open n' = base
  | Panic => True
  end.
Proof.
  revert m n. induction rpcs as [|u rpcs IH]; intros m n H Hnd Hnew Hok Ho Hb; cbn [dialMEV] in H.
  { injection H as <- <-. cbn. split; [done|]. split; [lia|]. split; [set_solver|done]. }
  apply NoDup_cons in Hnd as [Hu Hnd]. unfold try_ in H.
  destruct (connect u n) as [rc n1] eqn:Hc. apply connect_inv in Hc as (Hok1 & Hle & Hc); [|done].
  destruct rc as [c|err|].
  - destruct Hc as (Hfresh & Ho1 & _).
    assert (m !! u = None) as Hm by (apply Hnew; set_solver).
    apply IH in H as (Hok' & Hle' & Hr); [|done|..].
    + split; [done|]. split; [lia|]. destruct r; [|done..]. destruct Hr as (Hd & Hr).
      split; [rewrite Hd, dom_insert_L; set_solver|done].
    + intros v Hv. rewrite lookup_insert_ne by set_solver. apply Hnew. set_solver.
    + done.
    + rewrite map_img_insert_notin_L, Ho1, Ho by done. set_solver.
    + rewrite map_img_insert_notin_L by done. set_solver.
  - injection H as <- <-.
    assert (n_open (disconnect_all m n1) = base) as Hd.
    { rewrite disconnect_all_open, Hc, Ho. set_solver. }
    rewrite disconnect_all_next. split; [|split; [lia|done]].
    eapply net_ok_sub; [exact Hok1|rewrite Hd, Hc, Ho; set_solver|].
    rewrite disconnect_all_next. lia.
  - injection H as <- <-. done.
Qed.

Lemma NewManager_inv client signer chainID policy rpcs n r n' :
  NewManager client signer chainID policy rpcs n = (r, n') → NoDup rpcs → net_ok n →
  net_ok n' ∧ (n_next n <= n_next n')%nat ∧
  match r with
  | Ok m =>
      (∃ p, policy = Some p ∧ TxManager.Validate (ApplyDefaults p) = Ok tt ∧
         m = mkManager client signer chainID (ApplyDefaults p) ∅ (m_mevClients m)) ∧
      dom (m_mevClients m) = list_to_set rpcs ∧
      n_open n' = n_open n ∪ mev_conns m ∧ n_open n ## mev_conns m
  | Err _ => n_open n' = n_open n
  | Panic => True
  end.
Proof.
  intros H Hnd Hok. unfold NewManager in H. destruct policy as [p|]; [|by injection H as <- <-].
  unfold mbind, io_bind, lift in H.
  destruct (TxManager.Validate (ApplyDefaults p)) as [[]|e|] eqn:Hv; [|by injection H as <- <-..].
  cbn [wrap] in H. destruct (dialMEV rpcs ∅ n) as [rm nm] eqn:Hd.
  apply (dialMEV_inv rpcs ∅ n (n_open n)) in Hd as (Hok' & Hle & Hr);
    [|done|done|done|rewrite map_img_empty_L; set_solver|rewrite map_img_empty_L; set_solver].
  destruct rm as [m|e|]; injection H as <- <-; [|done..].
  split; [done|]. split; [done|]. cbn. rewrite dom_empty_L in Hr.
  destruct Hr as (Hdom & Ho & Hb). split; [by exists p|]. split; [set_solver|done].
Qed.

Lemma closing_inv {A} p c (m : io (Net E) A) n r n' :
  closing c (wrapM p m) n = (r, n') →
  ∃ r0 n0, m n = (r0, n0) ∧
    match r0 with
    | Ok a => r = Ok a ∧ n' = n0
    | Err e => r = Err (EWrap p e) ∧ n' = disconnect c n0
    | Panic => r = Panic ∧ n' = n0
    end.
Proof.
  unfold closing, wrapM. destruct (m n) as [[a|e|] n0]; cbn; intros [= <- <-]; by eexists _, _.
Qed.

(** What stays open after [NewClient]: on success the connections of the client besides those
    of before; on an error those of before, except that an error of the websocket leaves the
    connections to the relays. *)
Lemma NewClient_inv cfg n r n' :
  NewClient cfg n = (r, n') → NoDup (cc_MEVRPCs cfg) → net_ok n →
  net_ok n' ∧
  match r with
  | Ok c => made_from cfg c ∧ n_open n' = n_open n ∪ client_conns c ∧ n_open n ## client_conns c
  | Err err =>
      n_open n' = n_open n ∨
      ∃ e m, err = EWrap "dial WebSocket" e ∧ dom (m_mevClients m) = list_to_set (cc_MEVRPCs cfg) ∧
        n_open n' = n_open n ∪ mev_conns m ∧ n_open n ## mev_conns m
  | Panic => True
  end.
Proof.
  intros H Hnd Hok. unfold NewClient in H.
  destruct (cc_ChainID cfg) as [chainID|] eqn:Eid; [|injection H as <- <-; auto].
  destruct (cc_Signer cfg) as [signer|] eqn:Esig; [|injection H as <- <-; auto].
  unfold mbind, io_bind in H.
  destruct (wrapM "dial RPC" (connect (RPCURL cfg)) n) as [re n1] eqn:He.
  apply dial_inv in He as (Hok1 & Hle1 & He); [|done].
  destruct re as [eth|e|]; [|injection H as <- <-; auto..].
  destruct He as (Hf1 & Ho1 & Hlt1).
  destruct (closing _ _ n1) as [rm n2] eqn:Hm.
  apply closing_inv in Hm as (r2 & n2' & Hm & Hr2).
  apply NewManager_inv in Hm as (Hok2 & Hle2 & Hm); [|done|done].
  destruct r2 as [m|e|].
  2: { destruct Hr2 as [-> ->]. injection H as <- <-. split; [|left; cbn; rewrite Hm, Ho1; set_solver].
       eapply net_ok_sub; [exact Hok2|cbn; set_solver|cbn; lia]. }
  2: { destruct Hr2 as [-> ->]. by injection H as <- <-. }
  destruct Hr2 as [-> ->]. destruct Hm as ((p & Hp & Hv & Em) & Hdom & Ho2 & Hb2).
  assert (m_policy m = ApplyDefaults p ∧ m_chainID m = chainID ∧ m_signer m = signer) as (Ep & Ec & Es)
    by (by rewrite Em).
  case_bool_decide as Hws.
  - injection H as <- <-. split; [done|]. split; [|unfold client_conns; cbn; set_solver].
    split; cbn; rewrite ?Ec, ?Es; eauto; by split.
  - destruct (closing _ _ n2') as [rw n3] eqn:Hw. apply closing_inv in Hw as (r3 & n3' & Hw & Hr3).
    apply connect_inv in Hw as (Hok3 & Hle3 & Hw); [|done].
    destruct r3 as [w|e|]; destruct Hr3 as [-> ->]; injection H as <- <-.
    + split; [done|]. destruct Hw as (Hf3 & Ho3 & _).
      split; [|unfold client_conns; cbn; rewrite Ho3, Ho2, Ho1; set_solver].
      split; cbn; rewrite ?Ec, ?Es; eauto; by split.
    + split; [eapply net_ok_sub; [exact Hok3|cbn; set_solver|cbn; lia]|]. right. exists e, m.
      split; [done|]. split; [done|]. cbn. rewrite Hw, Ho2, Ho1. set_solver.
    + done.
Qed.

Lemma CloseClient_open c n : n_open (CloseClient c n) = n_open n ∖ client_conns c.
Proof.
  unfold CloseClient, client_conns, mev_conns, CloseManager.
  destruct (nc_wsClient c); cbn; rewrite disconnect_all_open; set_solver.
Qed.

Lemma CloseClient_next c n : n_next (CloseClient c n) = n_next n.
Proof. unfold CloseClient. destruct (nc_wsClient c); apply disconnect_all_next. Qed.
End lemmas.

(** ** Lemmas: the database file *)

#[export] Instance grows_preorder : PreOrder grows.
Proof.
  split; [by intros d; split|]. intros d1 d2 d3 [H1 H2 H3 H4] [K1 K2 K3 K4].
  split; [auto| |set_solver|auto]. intros Hok. by rewrite K2, H2 by auto.
Qed.

Lemma disk_step_inv d r d' :
  disk_step d = (r, d') → d_tables d' = d_tables d ∧ d_progress d' = d_progress d ∧
    db (d_world d') = db (d_world d) ∧ d_handles d' = d_handles d.
Proof.
  intros (w & Hw & ->)%zoom_run. cbn. pose proof (next_fault_db (d_world d)) as Hd.
  by rewrite Hw in Hd.
Qed.

Lemma disk_step_grows : moves_io grows disk_step.
Proof.
  intros d. destruct (disk_step d) as [r d'] eqn:H. apply disk_step_inv in H as (Ht & Hp & Hw & _).
  cbn. split; rewrite ?Ht, ?Hp, ?Hw; [|done..]. intros [H1 H2 H3 H4 H5 H6].
  split; by rewrite ?Ht, ?Hp, ?Hw.
Qed.

Lemma exec_ddl_grows s : moves_io grows (exec_ddl s).
Proof.
  intros d. destruct s as [t|t|]; cbn.
  - split; [|done|cbn; set_solver|done]. intros [H1 H2 H3 H4 H5 H6].
    split; cbn; [|done|..]; rewrite elem_of_union; tauto.
  - done.
  - case_bool_decide as Ht; [|done]. destruct (d_progress d) eqn:Hp; [done|].
    assert (file_ok d → set_last_synced 0 (set_chain_id None (db (d_world d))) = db (d_world d)) as Hr.
    { intros Hok. destruct (fo_row d Hok Hp) as [Hc Hl]. destruct (db (d_world d)). cbn in *.
      by subst. }
    split; cbn; [|done|done|done]. intros Hok. destruct Hok as [H1 H2 H3 H4 H5 H6] eqn:Ho.
    split; cbn; auto.
Qed.

Lemma exec_schema_grows l : moves_io grows (exec_schema l).
Proof.
  induction l as [|s l IH]; cbn [exec_schema]; [by intros d|].
  apply moves_io_bind; [apply _|apply disk_step_grows|intros _].
  apply moves_io_bind; [apply _|apply exec_ddl_grows|done].
Qed.

Lemma exec_ddl_done s d d' :
  exec_ddl s d = (Ok tt, d') →
  match s with CreateTable t => t ∈ d_tables d' | CreateIndex _ => True | InsertProgress => d_progress d' = true end.
Proof.
  destruct s; cbn; [intros [= <-]; set_solver|done|].
  case_bool_decide; [|done]. destruct (d_progress d) eqn:Hp; by intros [= <-].
Qed.

Lemma exec_schema_done l d d' :
  exec_schema l d = (Ok tt, d') →
  (∀ t, CreateTable t ∈ l → t ∈ d_tables d') ∧ (InsertProgress ∈ l → d_progress d' = true).
Proof.
  revert d. induction l as [|s l IH]; intros d H; cbn [exec_schema] in H; [set_solver|].
  inv_io. destruct r0. apply exec_ddl_done in E0 as Hs.
  pose proof (exec_schema_grows l s1) as [_ _ Ht Hp]. rewrite H in Ht, Hp. cbn in Ht, Hp.
  destruct (IH _ H) as [IHt IHp].
  split; [intros t|]; intros [<-|Hin]%elem_of_cons; auto.
Qed.

(** The handles open, along a step. *)
Definition same_handles (d d' : Disk) : Prop := d_handles d' = d_handles d.

#[local] Instance same_handles_preorder : PreOrder same_handles.
Proof. split; [by intros d|]. unfold same_handles. intros d1 d2 d3. congruence. Qed.

Lemma disk_step_handles : moves_io same_handles disk_step.
Proof. intros d. destruct (disk_step d) as [r d'] eqn:H. by apply disk_step_inv in H as (_ & _ & _ & ?). Qed.

Lemma exec_schema_handles l : moves_io same_handles (exec_schema l).
Proof.
  induction l as [|s l IH]; cbn [exec_schema]; movesf_step; [apply disk_step_handles| |done].
  intros d. unfold same_handles. destruct s; cbn; [done..|]. repeat case_match; done.
Qed.

Lemma set_pragmas_moves (R : relation Disk) `{!PreOrder R} l :
  moves_io R disk_step → moves_io R (set_pragmas l).
Proof. intros HR. induction l as [|p l IH]; cbn [set_pragmas]; movesf_step; done. Qed.

Lemma NewStorage_grows path : moves_io grows (NewStorage path).
Proof.
  pose proof disk_step_grows. pose proof exec_schema_grows. unfold NewStorage.
  repeat first [done|apply set_pragmas_moves; [apply _|done]|case_match|movesf_step];
    intros d; (split; [|done..]); intros Hok; by destruct Hok; split.
Qed.

(** What [NewStorage] does once the database was opened. *)
Definition prepare_file : io Disk unit :=
  _ ← wrapM "ping database" disk_step;
  _ ← set_pragmas dbPragmas;
  wrapM "apply schema" (exec_schema schemaSQL).

Lemma prepare_file_handles : moves_io same_handles prepare_file.
Proof.
  pose proof disk_step_handles. pose proof exec_schema_handles. unfold prepare_file.
  repeat first [done|apply set_pragmas_moves; [apply _|done]|movesf_step].
Qed.

Lemma NewStorage_handles path d r d' :
  NewStorage path d = (r, d') →
  match r with
  | Ok _ => d_handles d' = S (d_handles d)
  | Err err =>
      d_handles d' = d_handles d ∧ (∃ e, err = EWrap "create db directory" e ∨
        err = EWrap "open database" e) ∨ d_handles d' = S (d_handles d)
  | Panic => True
  end.
Proof.
  intros H. unfold NewStorage in H. unfold mbind at 1, io_bind at 1 in H.
  destruct ((if has_dir path then wrapM _ _ else _) d) as [r1 d1] eqn:E1.
  assert (d_handles d1 = d_handles d ∧
    ∀ e, r1 = Err e → ∃ e', e = EWrap "create db directory" e') as [Hd1 Hr1].
  { destruct (has_dir path); [|by injection E1 as <- <-]. unfold wrapM in E1.
    destruct (disk_step d) as [r0 d0] eqn:E0. apply disk_step_inv in E0 as (_ & _ & _ & Hh).
    injection E1 as <- <-. split; [done|]. intros e He. destruct r0; simplify_eq/=; eauto. }
  destruct r1 as [[]|e|]; [|injection H as <- <-..]; [|destruct (Hr1 e eq_refl) as [e' ->]; left; eauto|done].
  unfold mbind at 1, io_bind at 1, wrapM at 1 in H.
  destruct (disk_step d1) as [r2 d2] eqn:E2. apply disk_step_inv in E2 as (_ & _ & _ & Hd2).
  cbn [fst snd] in H. rewrite Hd1 in Hd2.
  destruct r2 as [[]|e|]; cbn [wrap] in H; [|injection H as <- <-; left; eauto|by injection H as <- <-].
  unfold mbind at 1, io_bind at 1 in H. cbn [open_handle] in H.
  pose proof (prepare_file_handles (mkDisk (d_tables d2) (d_progress d2) (d_world d2) (S (d_handles d2))))
    as Hp. unfold prepare_file in Hp. unfold open_handle in H. rewrite H in Hp.
  unfold same_handles in Hp. cbn in Hp. rewrite Hd2 in Hp. destruct r; auto.
Qed.

Lemma NewStorage_done path d d' : NewStorage path d = (Ok tt, d') → has_schema d'.
Proof.
  intros H. unfold NewStorage in H. inv_io. apply exec_schema_done in H as [Ht Hp].
  split; [apply Hp; set_solver|done].
Qed.

Lemma no_file_ok : file_ok no_file.
Proof. by split. Qed.

Lemma disk_step_no_fault d : faults (d_world d) = [] → disk_step d = (Ok tt, d).
Proof.
  intros Hf. unfold disk_step, zoom, next_fault. rewrite Hf. by destruct d.
Qed.

(** An index is created after its table. *)
Fixpoint ordered (created : gset string) (l : list ddl) : bool :=
  match l with
  | [] => true
  | CreateTable t :: rest => ordered ({[ t ]} ∪ created) rest
  | CreateIndex t :: rest => bool_decide (t ∈ created) && ordered created rest
  | InsertProgress :: rest => bool_decide ("sync_progress" ∈ created) && ordered created rest
  end.

Lemma exec_schema_no_fault l created d :
  faults (d_world d) = [] → created ⊆ d_tables d → ordered created l = true →
  ∃ d', exec_schema l d = (Ok tt, d').
Proof.
  revert created d. induction l as [|s l IH]; intros created d Hf Hc Ho; [by eexists|].
  cbn [exec_schema]. unfold mbind, io_bind. rewrite (disk_step_no_fault d Hf).
  destruct s as [t|t|]; cbn [ordered exec_ddl] in *.
  - eapply IH; [done| |done]. cbn. set_solver.
  - apply andb_true_iff in Ho as [Ht%bool_decide_eq_true Ho].
    rewrite bool_decide_true by set_solver. by eapply IH.
  - apply andb_true_iff in Ho as [Ht%bool_decide_eq_true Ho].
    rewrite bool_decide_true by set_solver. destruct (d_progress d); by eapply IH.
Qed.

Lemma NewStorage_no_fault path d :
  faults (d_world d) = [] → ∃ d', NewStorage path d = (Ok tt, d').
Proof.
  intros Hf. pose proof (disk_step_no_fault d Hf) as Hd.
  set (d1 := mkDisk (d_tables d) (d_progress d) (d_world d) (S (d_handles d))).
  assert (disk_step d1 = (Ok tt, d1)) as Hd1 by by apply disk_step_no_fault.
  destruct (exec_schema_no_fault schemaSQL ∅ d1) as [d' Hs]; [done|set_solver|done|].
  assert (∀ p, wrapM p disk_step d1 = (Ok tt, d1)) as Hp by (intros p; by apply wrapM_Ok).
  exists d'. unfold NewStorage.
  assert ((if has_dir path then wrapM "create db directory" disk_step else mret tt) d = (Ok tt, d))
    as Hdir by (destruct (has_dir path); [by apply wrapM_Ok|done]).
  apply bind_io_Ok. exists tt, d. split; [done|].
  apply bind_io_Ok. exists tt, d. split; [by apply wrapM_Ok|].
  apply bind_io_Ok. exists tt, d1. split; [done|].
  apply bind_io_Ok. exists tt, d1. split; [done|].
  apply bind_io_Ok. exists tt, d1. split; [|by apply wrapM_Ok].
  cbn [set_pragmas dbPragmas]. repeat (apply bind_io_Ok; exists tt, d1; split; [done|]). done.
Qed.

(** ** Properties *)

(** C28: [NewClient] makes the client its configuration describes, with a valid fee policy, one
    connection to each relay and a websocket exactly when one is configured; what it opens are
    exactly the connections of that client, which [Close] closes.  On an error every connection
    it opened is closed again, with one exception: when the websocket cannot be reached the
    connections to the relays stay open. *)
Theorem NewClient_connections {HC : Checks} {HB : ContractABI} {E} {HD : Dialer E} cfg (n : Net E) r n' :
  NewClient cfg n = (r, n') → NoDup (cc_MEVRPCs cfg) → net_ok n →
  match r with
  | Ok c => made_from cfg c ∧ n_open n' = n_open n ∪ client_conns c ∧
      n_open n ## client_conns c ∧ n_open (CloseClient c n') = n_open n
  | Err err =>
      n_open n' = n_open n ∨
      ∃ e m, err = EWrap "dial WebSocket" e ∧ dom (m_mevClients m) = list_to_set (cc_MEVRPCs cfg) ∧
        n_open n' = n_open n ∪ mev_conns m ∧ n_open n ## mev_conns m
  | Panic => True
  end.
Proof.
  intros H Hnd Hok. apply NewClient_inv in H as [_ H]; [|done..]. destruct r as [c|e|]; [|done..].
  destruct H as (Hm & Ho & Hb). do 3 (split; [done|]). rewrite CloseClient_open, Ho. set_solver.
Qed.

(** Opening the database loses no row, wherever an earlier start was interrupted: on
    every outcome the rows are those of before and the file stays one that can be opened; on
    success it has the whole schema, which without further faults is reached.  An error after
    the database was opened leaves its handle open. *)
Theorem NewStorage_recovers path d r d' :
  NewStorage path d = (r, d') → file_ok d →
  file_ok d' ∧ db (d_world d') = db (d_world d) ∧ (has_schema d → has_schema d') ∧
  match r with
  | Ok _ => has_schema d' ∧ d_handles d' = S (d_handles d)
  | Err err =>
      d_handles d' = d_handles d ∧ (∃ e, err = EWrap "create db directory" e ∨
        err = EWrap "open database" e) ∨ d_handles d' = S (d_handles d)
  | Panic => True
  end ∧ (faults (d_world d) = [] → r = Ok tt).
Proof.
  intros H Hok. pose proof (NewStorage_grows path d) as [Hg Hr Ht Hp]. rewrite H in Hg, Hr, Ht, Hp.
  cbn in *. apply NewStorage_handles in H as Hh. split; [auto|]. split; [auto|].
  split; [intros [H1 H2]; split; auto|]. split.
  - destruct r as [[]|e|]; [|done..]. split; [by eapply NewStorage_done|done].
  - intros Hf. destruct (NewStorage_no_fault path d Hf) as [d'' Hn]. by rewrite H in Hn; injection Hn.
Qed.

(** ** Witnesses *)

#[local] Existing Instance Contract.toy_contract_abi.
#[local] Existing Instance Config.toy_checks.

(** A network where every address but one can be reached. *)
#[export] Instance toy_dialer {E} : Dialer E := {
  Dial url := if bool_decide (url = "ws://down") then fail (EText "connection refused") else mret tt;
  ClientVersion := mret "geth";
  eth2http_New _ _ := mret tt;
  NodeVersion := mret "lighthouse";
}.

Definition toy_client_config (ws : string) : ClientConfig :=
  mkClientConfig "http://node" ws Config.toy_address Config.toy_address (Some 1)
    (Some (Wallet.mkSigner 7 true (be_bytes 20 7))) (Some (mkPolicy 0 0 0 0 0 0))
    ["http://relay-a"; "http://relay-b"].

(** Two connections are open before. *)
Definition toy_net : Net unit := mkNet tt 2 {[ 0; 1 ]}%nat.

Lemma toy_net_ok : net_ok toy_net.
Proof. intros c. cbn. set_unfold. lia. Qed.

Definition made (ws : string) : result NetClient * Net unit := NewClient (toy_client_config ws) toy_net.

(** With a websocket: four connections more, all closed by [Close]; with one that cannot be
    reached the two to the relays stay. *)
Example toy_clients :
  n_open (made "ws://up").2 = list_to_set (seq 0 6) ∧
  match (made "ws://up").1 with
  | Ok c => n_open (CloseClient c (made "ws://up").2)
  | _ => ∅
  end = n_open toy_net ∧
  (made "ws://down").1 = Err (EWrap "dial WebSocket" (EText "connection refused")) ∧
  n_open (made "ws://down").2 = {[ 0; 1; 3; 4 ]}%nat.
Proof.
  assert (∀ x y : gset nat, bool_decide (x = y) = true → x = y) as Heq
    by (intros x y; apply bool_decide_eq_true).
  split; [|split; [|split]]; [apply Heq| |reflexivity|apply Heq]; vm_compute; reflexivity.
Qed.

Lemma NewClient_connections_witness :
  n_open (made "ws://down").2 = n_open toy_net ∨
  ∃ e m, EWrap "dial WebSocket" (EText "connection refused") = EWrap "dial WebSocket" e ∧
    dom (m_mevClients m) = list_to_set ["http://relay-a"; "http://relay-b"] ∧
    n_open (made "ws://down").2 = n_open toy_net ∪ mev_conns m ∧ n_open toy_net ## mev_conns m.
Proof.
  apply (NewClient_connections (toy_client_config "ws://down") toy_net
    (Err (EWrap "dial WebSocket" (EText "connection refused"))) (made "ws://down").2).
  - reflexivity.
  - apply (bool_decide_unpack _). vm_compute. exact I.
  - exact toy_net_ok.
Defined.

(** The schema is interrupted after its first table. *)
Definition interrupted : result unit * Disk :=
  NewStorage "data/oracle.db" (mkDisk ∅ false
    (mkWorld schema (replicate 7 None ++ [Some (EText "disk I/O error")])) 0).

Example interrupted_tables :
  interrupted.1 = Err (EWrap "apply schema" (EText "disk I/O error")) ∧
  d_tables interrupted.2 = {[ "sync_progress" ]} ∧ d_progress interrupted.2 = true.
Proof. vm_compute. done. Qed.

Lemma NewStorage_recovers_witness :
  file_ok interrupted.2 ∧ db (d_world interrupted.2) = schema ∧
  (has_schema (mkDisk ∅ false (mkWorld schema (replicate 7 None ++
     [Some (EText "disk I/O error")])) 0) → has_schema interrupted.2) ∧
  (d_handles interrupted.2 = O ∧ (∃ e, EWrap "apply schema" (EText "disk I/O error") =
      EWrap "create db directory" e ∨ EWrap "apply schema" (EText "disk I/O error") =
      EWrap "open database" e) ∨ d_handles interrupted.2 = 1%nat) ∧
  (replicate 7 None ++ [Some (EText "disk I/O error")] = [] →
   Err (EWrap "apply schema" (EText "disk I/O error")) = Ok tt).
Proof.
  apply (NewStorage_recovers "data/oracle.db" (mkDisk ∅ false (mkWorld schema
    (replicate 7 None ++ [Some (EText "disk I/O error")])) 0)
    (Err (EWrap "apply schema" (EText "disk I/O error"))) interrupted.2).
  - reflexivity.
  - by split.
Defined.
