(* ===== verification/Subscribe.v ===== *)
(** * Subscriptions (src/contract/events.go, src/eth/beacon/client.go)

    The goroutines between the nodes and the services: the one that turns the logs of the
    contract into events for the updater, and the handler that turns the beacon node's events
    into checkpoints for the oracle.  Channels, their buffers and their closing are state;
    [sub_step] and [beacon_step] are one step of the node, of a goroutine or of the service's
    [select].  The theorems say which of the sequences [Updater.Run] and [Oracle.Run] are
    defined on can occur. *)

From S2P Require Import Prelude Retry Execution Beacon TxManager Contract Connect Oracle Updater.

(** ** Channels *)

Record chan (A : Type) := mkChannel {
  buf : list A;
  closed : bool;
}.
Arguments mkChannel {A} _ _.
Arguments buf {A} _.
Arguments closed {A} _.

Definition open_chan {A} : chan A := mkChannel [] false.

(** ** The subscription to RootCommitted *)

Record FilterQuery := mkQuery {
  q_Addresses : list bytes;
  q_Topics : list (list bytes);
  q_FromBlock : option Z;
}.

Class LogSource (E : Type) := {
  (** The identifier of the event in the contract's ABI. *)
  RootCommittedID : option bytes;
  (** [SubscribeFilterLogs] of the websocket client. *)
  SubscribeFilterLogs : FilterQuery → io E unit;
}.

Definition logsBuffer : nat := 10.
Definition eventBuffer : nat := 10.
Definition errBuffer : nat := 1.

(** Where [processRootCommittedLogs] is: in its [select], sending an event, or in one of its
    deferred calls, last deferred first; [PPanic] after a send on, or a second close of, a
    closed channel. *)
Inductive producer :=
  | PSelect
  | PSending (event : RootCommittedEvent)
  | PUnsubscribe
  | PCloseErr
  | PCloseEvents
  | PDone
  | PPanic.

Record Sub := mkSub {
  s_logs : list SubscribedLog;          (* the channel [logs] *)
  s_logs_closed : bool;
  s_sub_err : option (option error);    (* what [sub.Err()] gives *)
  s_producer : producer;
  s_events : chan RootCommittedEvent;   (* eventChan *)
  s_errs : chan error;                  (* errChan *)
  s_ctx : bool;                         (* the context has ended *)
  s_waiting : bool;                     (* the updater still selects *)
  s_received : list sub_input;          (* what its selects found *)
  s_delivered : list SubscribedLog;     (* what the node has delivered *)
}.

Definition sub_start : Sub :=
  mkSub [] false None PSelect open_chan open_chan false true [] [].

Definition SubscribeRootCommitted {E} `{!LogSource E} (c : NetClient) (fromBlock : option Z)
    : io E Sub :=
  match nc_wsClient c with
  | None => fail (EText "WebSocket client not configured (set eth_ws_rpc in config)")
  | Some _ =>
      match RootCommittedID with
      | None => fail (EText "RootCommitted event not found in ABI")
      | Some id =>
          let query := mkQuery [nc_contractAddress c] [[id]] (wrapS 64 <$> fromBlock) in
          _ ← wrapM "subscribe to logs" (SubscribeFilterLogs query);
          mret sub_start
      end
  end.

(** The node delivers a log, reports an error (or the end) of the subscription, or closes the
    channel; the process is told to stop. *)
Inductive node_step : relation Sub :=
  | node_log l lg er pr ev es cx wt rc dl :
      (length lg < logsBuffer)%nat →
      node_step (mkSub lg false er pr ev es cx wt rc dl)
        (mkSub (lg ++ [l]) false er pr ev es cx wt rc (dl ++ [l]))
  | node_err e lg lc pr ev es cx wt rc dl :
      node_step (mkSub lg lc None pr ev es cx wt rc dl) (mkSub lg lc (Some e) pr ev es cx wt rc dl)
  | node_close lg er pr ev es cx wt rc dl :
      node_step (mkSub lg false er pr ev es cx wt rc dl) (mkSub lg true er pr ev es cx wt rc dl)
  | node_cancel lg lc er pr ev es cx wt rc dl :
      node_step (mkSub lg lc er pr ev es cx wt rc dl) (mkSub lg lc er pr ev es true wt rc dl).

(** A step of [processRootCommittedLogs]. *)
Inductive producer_step : relation Sub :=
  | producer_ctx lg lc er ev es wt rc dl :
      producer_step (mkSub lg lc er PSelect ev es true wt rc dl)
        (mkSub lg lc er PUnsubscribe ev es true wt rc dl)
  | producer_err e lg lc ev es cx wt rc dl :
      closed es = false → (length (buf es) < errBuffer)%nat →
      producer_step (mkSub lg lc (Some (Some e)) PSelect ev es cx wt rc dl)
        (mkSub lg lc (Some None) PUnsubscribe ev (mkChannel (buf es ++ [e]) false) cx wt rc dl)
  | producer_err_panic e lg lc ev es cx wt rc dl :
      closed es = true →
      producer_step (mkSub lg lc (Some (Some e)) PSelect ev es cx wt rc dl)
        (mkSub lg lc (Some None) PPanic ev es cx wt rc dl)
  | producer_end lg lc ev es cx wt rc dl :
      producer_step (mkSub lg lc (Some None) PSelect ev es cx wt rc dl)
        (mkSub lg lc (Some None) PUnsubscribe ev es cx wt rc dl)
  | producer_log l lg lc er ev es cx wt rc dl :
      producer_step (mkSub (l :: lg) lc er PSelect ev es cx wt rc dl)
        (mkSub lg lc er match processRootCommittedLog l with
                        | Some event => PSending event
                        | None => PSelect
                        end ev es cx wt rc dl)
  | producer_logs_closed er ev es cx wt rc dl :
      producer_step (mkSub [] true er PSelect ev es cx wt rc dl)
        (mkSub [] true er PUnsubscribe ev es cx wt rc dl)
  | producer_send event lg lc er ev es cx wt rc dl :
      closed ev = false → (length (buf ev) < eventBuffer)%nat →
      producer_step (mkSub lg lc er (PSending event) ev es cx wt rc dl)
        (mkSub lg lc er PSelect (mkChannel (buf ev ++ [event]) false) es cx wt rc dl)
  | producer_send_panic event lg lc er ev es cx wt rc dl :
      closed ev = true →
      producer_step (mkSub lg lc er (PSending event) ev es cx wt rc dl)
        (mkSub lg lc er PPanic ev es cx wt rc dl)
  | producer_send_ctx event lg lc er ev es wt rc dl :
      producer_step (mkSub lg lc er (PSending event) ev es true wt rc dl)
        (mkSub lg lc er PUnsubscribe ev es true wt rc dl)
  | producer_unsubscribe lg lc er ev es cx wt rc dl :
      producer_step (mkSub lg lc er PUnsubscribe ev es cx wt rc dl)
        (mkSub lg lc er PCloseErr ev es cx wt rc dl)
  | producer_close_err lg lc er ev es cx wt rc dl :
      producer_step (mkSub lg lc er PCloseErr ev es cx wt rc dl)
        (mkSub lg lc er (if closed es then PPanic else PCloseEvents) ev (mkChannel (buf es) true)
           cx wt rc dl)
  | producer_close_events lg lc er ev es cx wt rc dl :
      producer_step (mkSub lg lc er PCloseEvents ev es cx wt rc dl)
        (mkSub lg lc er (if closed ev then PPanic else PDone) (mkChannel (buf ev) true) es
           cx wt rc dl).

(** A [select] of the updater; [subscribeAndProcess] returns on all but an event. *)
Inductive consumer_step : relation Sub :=
  | consumer_ctx lg lc er pr ev es rc dl :
      consumer_step (mkSub lg lc er pr ev es true true rc dl)
        (mkSub lg lc er pr ev es true false (rc ++ [SubDone]) dl)
  | consumer_err e rest cl lg lc er pr ev cx rc dl :
      consumer_step (mkSub lg lc er pr ev (mkChannel (e :: rest) cl) cx true rc dl)
        (mkSub lg lc er pr ev (mkChannel rest cl) cx false (rc ++ [ErrChan (Some e)]) dl)
  | consumer_err_closed lg lc er pr ev cx rc dl :
      consumer_step (mkSub lg lc er pr ev (mkChannel [] true) cx true rc dl)
        (mkSub lg lc er pr ev (mkChannel [] true) cx false (rc ++ [ErrChanClosed]) dl)
  | consumer_event event rest cl lg lc er pr es cx rc dl :
      consumer_step (mkSub lg lc er pr (mkChannel (event :: rest) cl) es cx true rc dl)
        (mkSub lg lc er pr (mkChannel rest cl) es cx true (rc ++ [RootCommitted event]) dl)
  | consumer_events_closed lg lc er pr es cx rc dl :
      consumer_step (mkSub lg lc er pr (mkChannel [] true) es cx true rc dl)
        (mkSub lg lc er pr (mkChannel [] true) es cx false (rc ++ [EventChanClosed]) dl).

Definition sub_step : relation Sub := λ s s',
  node_step s s' ∨ producer_step s s' ∨ consumer_step s s'.

(** ** Specification *)

(** The goroutine has left its loop; it has closed [errChan]; it has closed both. *)
Definition exiting (p : producer) : bool :=
  match p with PUnsubscribe | PCloseErr | PCloseEvents | PDone => true | _ => false end.
Definition errs_shut (p : producer) : bool :=
  match p with PCloseEvents | PDone => true | _ => false end.
Definition events_shut (p : producer) : bool := match p with PDone => true | _ => false end.

(** The event being sent. *)
Definition in_hand (p : producer) : list RootCommittedEvent :=
  match p with PSending event => [event] | _ => [] end.

(** How the inputs of a subscription may end, and what is then known. *)
Inductive ending (s : Sub) : list sub_input → Prop :=
  | end_waiting : s_waiting s = true → ending s []
  | end_ctx : s_waiting s = false → s_ctx s = true → ending s [SubDone]
  | end_err e : s_waiting s = false → exiting (s_producer s) = true → ending s [ErrChan (Some e)]
  | end_err_closed :
      s_waiting s = false → errs_shut (s_producer s) = true → ending s [ErrChanClosed]
  | end_events_closed :
      s_waiting s = false → events_shut (s_producer s) = true → buf (s_events s) = [] →
      ending s [EventChanClosed].

(** Every delivered log is accounted for: the events the updater has got, those in the buffer,
    the one being sent, one that was given up when the context ended, and the logs left. *)
Definition accounted (s : Sub) (evs lost : list RootCommittedEvent) : Prop :=
  processRootCommittedLogs (s_delivered s) =
    evs ++ buf (s_events s) ++ in_hand (s_producer s) ++ lost ++ processRootCommittedLogs (s_logs s).

Record sub_inv (s : Sub) : Prop := {
  si_inputs : ∃ evs fin lost,
    s_received s = (RootCommitted <$> evs) ++ fin ∧ ending s fin ∧ accounted s evs lost ∧
    (lost = [] ∨ s_ctx s = true ∧ exiting (s_producer s) = true);
  si_no_panic : s_producer s ≠ PPanic;
  si_errs : closed (s_errs s) = errs_shut (s_producer s);
  si_events : closed (s_events s) = events_shut (s_producer s);
  si_no_error : exiting (s_producer s) = false → buf (s_errs s) = [];
  si_buffer : (length (buf (s_events s)) <= eventBuffer)%nat;
}.

(** ** Lemmas *)

#[local] Arguments processRootCommittedLogs _ : simpl never.

Lemma logs_decoded_app l l' :
  processRootCommittedLogs (l ++ l') = processRootCommittedLogs l ++ processRootCommittedLogs l'.
Proof. apply omap_app. Qed.

Lemma sub_inv_start : sub_inv sub_start.
Proof.
  split; cbn; try done; [|lia]. exists [], [], []. split; [done|]. split; [by constructor|].
  split; [done|by left].
Qed.

Lemma node_step_inv s s' : node_step s s' → sub_inv s → sub_inv s'.
Proof.
  intros Hs [(evs & fin & lost & Hr & He & Ha & Hl) H1 H2 H3 H4 H5].
  destruct Hs; cbn in *; (split; cbn; [|done..]); exists evs, fin, lost; unfold accounted in *; cbn in *;
    (split; [done|]);
    (split; [destruct He; cbn in *; [by constructor|by constructor|by constructor|by constructor|
                                     by constructor]|]).
  - rewrite !logs_decoded_app, Ha, <- !app_assoc. by split.
  - by split.
  - by split.
  - split; [done|]. destruct Hl as [?|[_ ?]]; [by left|by right].
Qed.

Lemma logs_decoded_cons l lg :
  processRootCommittedLogs (l :: lg) =
    option_list (processRootCommittedLog l) ++ processRootCommittedLogs lg.
Proof. unfold processRootCommittedLogs. cbn. by destruct (processRootCommittedLog l). Qed.

(** The steps of the goroutine keep the inputs and what is known of their end. *)
Lemma producer_step_ending s s' fin :
  producer_step s s' → sub_inv s → ending s fin → ending s' fin.
Proof.
  intros Hs [_ H1 H2 H3 _ _] Hf.
  destruct Hs; cbn in *; destruct Hf; cbn in *; try discriminate; constructor; cbn; try done;
    by rewrite ?H2, ?H3.
Qed.

Lemma producer_step_accounted s s' evs lost :
  producer_step s s' → sub_inv s → accounted s evs lost →
  lost = [] ∨ s_ctx s = true ∧ exiting (s_producer s) = true →
  ∃ lost', accounted s' evs lost' ∧ (lost' = [] ∨ s_ctx s' = true ∧ exiting (s_producer s') = true).
Proof.
  intros Hs [_ H1 H2 H3 _ _] Ha Hl.
  destruct Hs; unfold accounted in *; cbn in *; rewrite ?H2, ?H3;
    first [exists lost; split; [done|by destruct Hl as [?|[? ?]]; auto]|destruct Hl as [->|[_ [=]]]].
  - exists []. split; [|by left]. rewrite Ha, logs_decoded_cons.
    by destruct (processRootCommittedLog l).
  - exists []. split; [|by left]. by rewrite Ha, <- !app_assoc.
  - congruence.
  - exists [event]. split; [done|by right].
Qed.

Lemma producer_step_inv s s' : producer_step s s' → sub_inv s → sub_inv s'.
Proof.
  intros Hs Hinv. pose proof Hinv as [(evs & fin & lost & Hr & He & Ha & Hl) H1 H2 H3 H4 H5].
  apply (producer_step_ending _ _ _ Hs Hinv) in He.
  destruct (producer_step_accounted _ _ _ _ Hs Hinv Ha Hl) as (lost' & Ha' & Hl').
  assert (s_received s' = s_received s) as Hrc by (by destruct Hs).
  split; [exists evs, fin, lost'; by rewrite Hrc|..]; clear evs fin lost lost' Hr He Ha Hl Ha' Hl' Hrc;
    destruct Hs; cbn in *; rewrite ?H2, ?H3, ?length_app; cbn; try done; try congruence;
    try (by destruct (processRootCommittedLog l)); try (unfold eventBuffer in *; lia); auto.
Qed.

Lemma consumer_step_inv s s' : consumer_step s s' → sub_inv s → sub_inv s'.
Proof.
  intros Hs [(evs & fin & lost & Hr & He & Ha & Hl) H1 H2 H3 H4 H5].
  assert (fin = []) as -> by (destruct Hs; cbn in *; by inversion He).
  rewrite app_nil_r in Hr. unfold accounted in Ha.
  destruct Hs; cbn in *; subst rc; split; cbn; try done; try lia; try congruence.
  - exists evs, [SubDone], lost. split; [done|]. split; [by constructor|]. by split.
  - exists evs, [ErrChan (Some e)], lost. split; [done|]. split; [|by split].
    constructor; cbn; [done|]. destruct (exiting pr); [done|]. by specialize (H4 eq_refl).
  - intros Hx. by specialize (H4 Hx).
  - exists evs, [ErrChanClosed], lost. split; [done|]. split; [by constructor|by split].
  - exists (evs ++ [event]), [], lost. rewrite fmap_app, app_nil_r. split; [done|].
    split; [by constructor|]. unfold accounted. cbn. rewrite Ha, <- !app_assoc. by split.
  - exists evs, [EventChanClosed], lost. split; [done|]. split; [by constructor|by split].
Qed.

Lemma sub_steps_inv s s' : rtc sub_step s s' → sub_inv s → sub_inv s'.
Proof.
  induction 1 as [s|s1 s2 s3 [Hs|[Hs|Hs]] _ IH]; [done|..]; intros Hi; apply IH;
    [by eapply node_step_inv|by eapply producer_step_inv|by eapply consumer_step_inv].
Qed.

Lemma reached_inv s : rtc sub_step sub_start s → sub_inv s.
Proof. intros H. by eapply sub_steps_inv, sub_inv_start. Qed.

(** Once the updater has stopped listening, the goroutine can end by itself. *)
Lemma producer_exits s :
  sub_inv s → exiting (s_producer s) = true ∨ s_ctx s = true →
  ∃ s', rtc producer_step s s' ∧ s_producer s' = PDone.
Proof.
  destruct s as [lg lc er pr ev es cx wt rc dl]. intros [_ H1 H2 H3 _ _] He. cbn in *.
  assert (∀ ev0 es0, closed ev0 = false → ∃ s',
    rtc producer_step (mkSub lg lc er PCloseEvents ev0 es0 cx wt rc dl) s' ∧ s_producer s' = PDone)
    as Hev.
  { intros ev0 es0 Hc. eexists. split; [apply rtc_once, producer_close_events|]. cbn. by rewrite Hc. }
  assert (∀ ev0 es0, closed ev0 = false → closed es0 = false → ∃ s',
    rtc producer_step (mkSub lg lc er PCloseErr ev0 es0 cx wt rc dl) s' ∧ s_producer s' = PDone)
    as Hes.
  { intros ev0 es0 Hc Hc'. destruct (Hev ev0 (mkChannel (buf es0) true) Hc) as (s' & Hr & Hd).
    exists s'. split; [|done]. eapply rtc_l; [apply producer_close_err|]. by rewrite Hc'. }
  assert (∀ ev0 es0, closed ev0 = false → closed es0 = false → ∃ s',
    rtc producer_step (mkSub lg lc er PUnsubscribe ev0 es0 cx wt rc dl) s' ∧ s_producer s' = PDone)
    as Hun.
  { intros ev0 es0 Hc Hc'. destruct (Hes ev0 es0 Hc Hc') as (s' & Hr & Hd). exists s'. split; [|done].
    eapply rtc_l; [apply producer_unsubscribe|done]. }
  destruct pr; try done; try (by auto).
  - destruct He as [?| ->]; [done|]. destruct (Hun ev es) as (s' & Hr & Hd); [done..|].
    exists s'. split; [|done]. eapply rtc_l; [apply producer_ctx|done].
  - destruct He as [?| ->]; [done|]. destruct (Hun ev es) as (s' & Hr & Hd); [done..|].
    exists s'. split; [|done]. eapply rtc_l; [apply producer_send_ctx|done].
  - eexists. split; [apply rtc_refl|done].
Qed.

(** While the updater listens the goroutine is never stuck: it waits for the node, or it can
    step, or the buffer is full and the updater can take an event. *)
Lemma sub_progress s :
  sub_inv s → s_waiting s = true →
  (∃ s', producer_step s s') ∨ (∃ s', consumer_step s s') ∨
  s_producer s = PSelect ∧ s_logs s = [] ∧ s_logs_closed s = false ∧ s_sub_err s = None ∧
  s_ctx s = false.
Proof.
  destruct s as [lg lc er pr ev es cx wt rc dl]. intros [_ H1 H2 H3 H4 H5] Hw. cbn in *. subst wt.
  destruct pr; cbn in *; [|..|done].
  - destruct cx; [left; eexists; apply producer_ctx|].
    destruct er as [[e|]|]; [left; eexists; apply producer_err; [done|]|
      left; eexists; apply producer_end|].
    { rewrite H4 by done. unfold errBuffer. cbn. lia. }
    destruct lg as [|l lg]; [|left; eexists; apply producer_log].
    destruct lc; [left; eexists; apply producer_logs_closed|right; right; by split_and!].
  - destruct (decide (length (buf ev) < eventBuffer)%nat); [left; eexists; by apply producer_send|].
    right; left. destruct ev as [[|x b] cl]; cbn in *; [unfold eventBuffer in *; cbn in *; lia|].
    eexists. apply consumer_event.
  - left. eexists. apply producer_unsubscribe.
  - left. eexists. apply producer_close_err.
  - left. eexists. apply producer_close_events.
  - right; left. destruct es as [[|e b] cl]; cbn in H2; subst cl; eexists;
      [apply consumer_err_closed|apply consumer_err].
Qed.

Lemma sub_ended s :
  sub_inv s → s_waiting s = false → exiting (s_producer s) = true ∨ s_ctx s = true.
Proof.
  intros [(evs & fin & lost & _ & He & _) _ _ _ _ _] Hw.
  destruct He as [?|? ?|e ? ?|? H|? H _]; [congruence|by right|by left|..];
    left; by destruct (s_producer s).
Qed.

Lemma SubscribeRootCommitted_Ok {E} `{!LogSource E} c fromBlock (e : E) s e' :
  SubscribeRootCommitted c fromBlock e = (Ok s, e') → s = sub_start ∧ nc_wsClient c ≠ None.
Proof.
  unfold SubscribeRootCommitted. intros H. destruct (nc_wsClient c); [|done].
  destruct RootCommittedID; [|done]. by inv_io.
Qed.

(** ** The subscription to finalized checkpoints *)

Class EventStream (E : Type) := {
  (** [Events] of the beacon client, for the topic "finalized_checkpoint". *)
  Events : io E unit;
}.

(** The channel; on an error it is closed, and not returned. *)
Definition SubscribeFinalizedCheckpoints {E} `{!EventStream E} : io E CheckpointChan :=
  _ ← wrapM "subscribe to finalized checkpoints" Events;
  mret (mkChan [] false).

Record BSub (E : Type) := mkBSub {
  b_env : E;
  b_ch : CheckpointChan;                          (* ch *)
  b_handling : list FinalizedCheckpointEvent;     (* the handlers that run *)
  b_ctx : bool;                                   (* the context has ended *)
  b_panicked : bool;
  b_listening : bool;                             (* the oracle still selects *)
  b_received : list input;                        (* what its selects found *)
  b_seen : list FinalizedCheckpointEvent;         (* the node's events *)
  b_fetched : list FinalizedCheckpoint;           (* the checkpoints, as handlers got them *)
}.
Arguments mkBSub {E} _ _ _ _ _ _ _ _ _.
Arguments b_env {E} _.
Arguments b_ch {E} _.
Arguments b_handling {E} _.
Arguments b_ctx {E} _.
Arguments b_panicked {E} _.
Arguments b_listening {E} _.
Arguments b_received {E} _.
Arguments b_seen {E} _.
Arguments b_fetched {E} _.

Definition beacon_start {E} (e : E) (ch : CheckpointChan) : BSub E :=
  mkBSub e ch [] false false true [] [] [].

Section stream.
Context {E : Type} `{!Runtime E, !BeaconAPI E} (retryConfig : RetryConfig).

(** An event calls the handler, which may run beside others; a handler ends, the calls of
    the client library not panicking; the context ends, and the goroutine that waits for it closes the channel; the oracle selects. *)
Inductive beacon_step : relation (BSub E) :=
  | beacon_event event e ch hs cx ls rc sn ft :
      beacon_step (mkBSub e ch hs cx false ls rc sn ft)
        (mkBSub e ch (hs ++ [event]) cx false ls rc (sn ++ [event]) ft)
  | beacon_env e' e ch hs cx ls rc sn ft :
      beacon_step (mkBSub e ch hs cx false ls rc sn ft) (mkBSub e' ch hs cx false ls rc sn ft)
  | beacon_cancel e ch hs cx ls rc sn ft :
      beacon_step (mkBSub e ch hs cx false ls rc sn ft) (mkBSub e ch hs true false ls rc sn ft)
  | beacon_handled event r out e' e ch hs hs' cx ls rc sn ft :
      WithRetry retryConfig (fetchCheckpoint event) (Some IsRetriable) e = (r, e') → r ≠ Panic →
      on_finalized_event retryConfig event id ch e = (out, e') →
      beacon_step (mkBSub e ch (hs ++ event :: hs') cx false ls rc sn ft)
        (mkBSub e' match out with Ok ch' => ch' | _ => ch end (hs ++ hs') cx
           match out with Panic => true | _ => false end ls rc sn (ft ++ match r with Ok c => [c] | _ => [] end))
  | beacon_close e ch hs ls rc sn ft :
      chan_closed ch = false →
      beacon_step (mkBSub e ch hs true false ls rc sn ft)
        (mkBSub e (close_chan ch) hs true false ls rc sn ft)
  | oracle_takes c rest cl e hs cx rc sn ft :
      beacon_step (mkBSub e (mkChan (c :: rest) cl) hs cx false true rc sn ft)
        (mkBSub e (mkChan rest cl) hs cx false true (rc ++ [Checkpoint c]) sn ft)
  | oracle_closed e hs cx rc sn ft :
      beacon_step (mkBSub e (mkChan [] true) hs cx false true rc sn ft)
        (mkBSub e (mkChan [] true) hs cx false false (rc ++ [ChannelClosed]) sn ft)
  | oracle_done e ch hs rc sn ft :
      beacon_step (mkBSub e ch hs true false true rc sn ft)
        (mkBSub e ch hs true false false (rc ++ [Done]) sn ft).
End stream.

(** How the oracle's inputs may end. *)
Inductive stream_ending {E} (s : BSub E) : list input → Prop :=
  | stream_open : b_listening s = true → stream_ending s []
  | stream_done : b_listening s = false → b_ctx s = true → stream_ending s [Done]
  | stream_closed :
      b_listening s = false → chan_closed (b_ch s) = true → buffered (b_ch s) = [] →
      stream_ending s [ChannelClosed].

(** A checkpoint is one a node's event announced. *)
Definition announced (seen : list FinalizedCheckpointEvent) (c : FinalizedCheckpoint) : Prop :=
  mkCheckpointEvent (Epoch c) (BlockRoot c) ∈ seen.

Record stream_inv {E} (s : BSub E) : Prop := {
  st_inputs : ∃ cs fin,
    b_received s = (Checkpoint <$> cs) ++ fin ∧ stream_ending s fin ∧
    cs ++ buffered (b_ch s) `sublist_of` b_fetched s;
  st_one : (length (buffered (b_ch s)) <= 1)%nat;
  st_closed : chan_closed (b_ch s) = true → b_ctx s = true;
  st_panicked : b_panicked s = true → chan_closed (b_ch s) = true;
  st_handling : ∀ ev, ev ∈ b_handling s → ev ∈ b_seen s;
  st_announced : Forall (announced (b_seen s)) (b_fetched s);
}.

Section stream_lemmas.
Context {E : Type} `{!Runtime E, !BeaconAPI E} (retryConfig : RetryConfig).

Lemma stream_inv_start (e : E) : stream_inv (beacon_start e (mkChan [] false)).
Proof.
  split; cbn; try done; [|lia]. exists [], []. split; [done|].
  split; [by constructor|done].
Qed.

(** A checkpoint a handler fetches is its event's. *)
Lemma fetched_of_event ev (e : E) c e' :
  WithRetry retryConfig (fetchCheckpoint ev) (Some IsRetriable) e = (Ok c, e') →
  mkCheckpointEvent (Epoch c) (BlockRoot c) = ev.
Proof.
  intros [e1 H]%WithRetry_Ok. unfold fetchCheckpoint in H. inv_io. by destruct ev.
Qed.

(** What a handler does to the channel once its checkpoint is there, or is not. *)
Lemma handler_end ev (e : E) ch r e' out e'' :
  WithRetry retryConfig (fetchCheckpoint ev) (Some IsRetriable) e = (r, e') →
  on_finalized_event retryConfig ev id ch e = (out, e'') →
  match r with
  | Ok c => out = offer c ch
  | Err _ => out = Ok ch
  | Panic => out = Panic
  end.
Proof.
  unfold on_finalized_event, try_. intros ->. destruct r; cbn; unfold lift, mret, io_ret; congruence.
Qed.

Lemma offer_keeps c ch ch' :
  offer c ch = Ok ch' →
  chan_closed ch' = false ∧ chan_closed ch = false ∧
  ((length (buffered ch) <= 1)%nat → (length (buffered ch') <= 1)%nat) ∧
  (buffered ch' = buffered ch ∨ buffered ch' = buffered ch ++ [c]).
Proof.
  unfold offer. destruct (chan_closed ch) eqn:Ec; [done|].
  destruct (length (buffered ch) <? 1)%nat eqn:El; intros [= <-]; cbn; [|by auto].
  apply Nat.ltb_lt in El. rewrite length_app. cbn. split_and!; auto; lia.
Qed.

Lemma offer_panics c ch : offer c ch = Panic → chan_closed ch = true.
Proof. unfold offer. destruct (chan_closed ch); [done|by case_match]. Qed.

Lemma offer_fails c ch er : offer c ch ≠ Err er.
Proof. unfold offer. by repeat case_match. Qed.

(** The three ends of a handler. *)
Lemma handled_inv ev r out e' (e : E) ch hs hs' cx ls rc sn ft :
  WithRetry retryConfig (fetchCheckpoint ev) (Some IsRetriable) e = (r, e') → r ≠ Panic →
  on_finalized_event retryConfig ev id ch e = (out, e') →
  stream_inv (mkBSub e ch (hs ++ ev :: hs') cx false ls rc sn ft) →
  stream_inv (mkBSub e' match out with Ok ch' => ch' | _ => ch end (hs ++ hs') cx
    match out with Panic => true | _ => false end ls rc sn
    (ft ++ match r with Ok c => [c] | _ => [] end)).
Proof.
  intros Hr Hnp Hh [(cs & fin & Hi & Hf & Hsub) H1 H2 H3 H4 H5]. cbn in *.
  assert (∀ v, v ∈ hs ++ hs' → v ∈ sn) as H4' by (intros v Hv; apply H4; set_solver).
  pose proof (handler_end _ _ _ _ _ _ _ Hr Hh) as Ho. destruct r as [c|er|]; [|subst out|done].
  - assert (Forall (announced sn) (ft ++ [c])) as H5'.
    { apply Forall_app. split; [done|]. constructor; [|done]. unfold announced.
      rewrite (fetched_of_event _ _ _ _ Hr). apply H4. set_solver. }
    destruct out as [ch'|er|]; [|by destruct (offer_fails c ch er)|].
    + destruct (offer_keeps _ _ _ (eq_sym Ho)) as (Hc' & Hc & Hl & Hb).
      split; cbn; try done; [|by auto|congruence]. exists cs, fin. split; [done|]. split.
      * destruct Hf; cbn in *; [by constructor|by constructor|congruence].
      * destruct Hb as [->| ->]; [by apply sublist_inserts_r|].
        rewrite app_assoc. by apply sublist_app.
    + split; cbn; try done; [|intros _; by apply (offer_panics c)]. exists cs, fin. split; [done|].
      split; [by destruct Hf; constructor|by apply sublist_inserts_r].
  - rewrite app_nil_r. split; cbn; try done. exists cs, fin. split; [done|].
    split; [by destruct Hf; constructor|done].
Qed.

Lemma beacon_step_inv s s' : beacon_step retryConfig s s' → stream_inv s → stream_inv s'.
Proof.
  intros Hs Hi.
  destruct Hs as [event e ch hs cx ls rc sn ft| | |event r out e' e ch hs hs' cx ls rc sn ft Hr Hnp Ho
                 | | | |]; [..|exact (handled_inv _ _ _ _ _ _ _ _ _ _ _ _ _ Hr Hnp Ho Hi)| | | |];
    destruct Hi as [(cs & fin & Hr & Hf & Hsub) H1 H2 H3 H4 H5]; cbn in *;
    split; cbn in *; try done; try lia;
    try (exists cs, fin; split; [done|]; split; [by destruct Hf; constructor|done]).
  - intros ev [?| ->%list_elem_of_singleton]%elem_of_app; apply elem_of_app; [left; auto|by right; left].
  - eapply Forall_impl; [done|]. intros x Hx. apply elem_of_app. by left.
  - inversion Hf; subst; [|done..]. exists (cs ++ [c]), []. rewrite fmap_app, !app_nil_r. cbn.
    split; [done|]. split; [by constructor|]. by rewrite <- app_assoc.
  - inversion Hf; subst; [|done..]. exists cs, [ChannelClosed]. rewrite app_nil_r.
    split; [done|]. split; [by constructor|done].
  - inversion Hf; subst; [|done..]. exists cs, [Done]. rewrite app_nil_r. split; [done|].
    split; [by constructor|done].
Qed.

Lemma beacon_steps_inv s s' : rtc (beacon_step retryConfig) s s' → stream_inv s → stream_inv s'.
Proof. induction 1; eauto using beacon_step_inv. Qed.
End stream_lemmas.

(** ** Properties *)

(** C12: whatever the node, the goroutine and the updater do and in whatever order, from a
    subscription that opened: the goroutine never panics (it closes each channel once and
    sends on none after), and what the updater's [select]s find is a prefix of the decoded
    logs the node delivered, in order and without repetition, followed by nothing while it
    listens and by one final input after: the end of the context, an error, or a closed
    channel.  A nil error never arrives, the events' channel is seen closed only when every
    event was taken or the context ended, and at most 10 events wait. *)
Theorem SubscribeRootCommitted_delivers {E : Type} `{!LogSource E} c fromBlock (e : E) sub e' s :
  SubscribeRootCommitted c fromBlock e = (Ok sub, e') →
  rtc sub_step sub s →
  s_producer s ≠ PPanic ∧ (length (buf (s_events s)) <= eventBuffer)%nat ∧
  ∃ evs fin rest,
    s_received s = (RootCommitted <$> evs) ++ fin ∧
    processRootCommittedLogs (s_delivered s) = evs ++ rest ∧
    (s_waiting s = true → fin = []) ∧
    (s_waiting s = false → fin = [SubDone] ∧ s_ctx s = true ∨ (∃ err, fin = [ErrChan (Some err)]) ∨
       fin = [ErrChanClosed] ∨
       fin = [EventChanClosed] ∧ (s_ctx s = true ∨ rest = processRootCommittedLogs (s_logs s))).
Proof.
  intros [-> _]%SubscribeRootCommitted_Ok Hr%reached_inv.
  destruct Hr as [(evs & fin & lost & Hi & Hf & Ha & Hl) H1 _ _ _ H5].
  split; [done|]. split; [done|]. eexists evs, fin, _. split; [done|]. split; [exact Ha|].
  destruct Hf as [Hw|Hw Hc|err Hw _|Hw _|Hw Hp Hb]; rewrite Hw; (split; [done|]); intros ?;
    first [done|by eauto|right; right; right]. split; [done|].
  destruct Hl as [->|[? _]]; [right|by left]. rewrite Hb. by destruct (s_producer s).
Qed.

(** C38: while the updater listens nothing is stuck: the goroutine can go on, or the updater
    can take what it offers, or both wait for the node with nothing left to deliver and no
    end in sight; and once the updater has returned, for whatever reason, the goroutine can
    end by its own steps alone, unsubscribed and with both channels closed, however full
    they are: it never waits for a reader that has gone. *)
Theorem subscription_never_stuck s :
  rtc sub_step sub_start s →
  (s_waiting s = true →
     (∃ s', producer_step s s') ∨ (∃ s', consumer_step s s') ∨
     s_producer s = PSelect ∧ s_logs s = [] ∧ s_logs_closed s = false ∧ s_sub_err s = None ∧
       s_ctx s = false) ∧
  (s_waiting s = false → ∃ s', rtc producer_step s s' ∧ s_producer s' = PDone).
Proof.
  intros Hr%reached_inv. split; [by apply sub_progress|].
  intros Hw. apply producer_exits; [done|by apply sub_ended].
Qed.

(** C39: an event can be lost without a trace.  For every log that decodes to an event and
    every error of the subscription there is a run in which the goroutine has decoded the
    log and queued its event, the error reaches the updater first ([select] picks any ready
    channel), and the subscription is over with the event still in the buffer, never
    received.  [subscribeAndProcess] then opens the next subscription with no [fromBlock],
    so the log is not asked for again. *)
Theorem subscription_error_drops_events l event err :
  processRootCommittedLog l = Some event →
  ∃ s, rtc sub_step sub_start s ∧
    s_delivered s = [l] ∧ buf (s_events s) = [event] ∧ s_waiting s = false ∧
    s_received s = [ErrChan (Some err)] ∧ s_producer s = PDone ∧ s_ctx s = false.
Proof.
  intros Hl. eexists. split.
  - eapply rtc_l; [left; apply (node_log l); unfold logsBuffer; cbn; lia|].
    eapply rtc_l; [right; left; apply producer_log|]. rewrite Hl.
    eapply rtc_l; [right; left; apply producer_send; [done|unfold eventBuffer; cbn; lia]|].
    eapply rtc_l; [left; apply (node_err (Some err))|].
    eapply rtc_l; [right; left; apply producer_err; [done|unfold errBuffer; cbn; lia]|].
    eapply rtc_l; [right; right; apply consumer_err|].
    eapply rtc_l; [right; left; apply producer_unsubscribe|].
    eapply rtc_l; [right; left; apply producer_close_err|].
    eapply rtc_l; [right; left; apply producer_close_events|]. apply rtc_refl.
  - done.
Qed.

(** C13: in every state of the finalized checkpoint subscription, whatever the order of the
    node's events, of the handlers that fetch (several may run), of the end of the context
    and of the oracle's [select]s: the checkpoints the oracle has received are some of those
    the handlers fetched, in their order and each at most once, each the epoch and block of
    an event the node sent; at most one more waits; the oracle stops only with the context
    ended, on [Done] or, with nothing left in the channel, on the closed channel; and a
    handler panics only once the channel is closed, so after the context has ended. *)
Theorem checkpoint_stream_delivers {E : Type} `{!Runtime E, !BeaconAPI E, !EventStream E}
    retryConfig (e : E) ch e' s :
  SubscribeFinalizedCheckpoints e = (Ok ch, e') →
  rtc (beacon_step retryConfig) (beacon_start e' ch) s →
  (∃ cs fin, b_received s = (Checkpoint <$> cs) ++ fin ∧
     cs ++ buffered (b_ch s) `sublist_of` b_fetched s ∧
     Forall (announced (b_seen s)) cs ∧
     (fin = [] ∧ b_listening s = true ∨
      fin = [Done] ∧ b_ctx s = true ∨
      fin = [ChannelClosed] ∧ b_ctx s = true ∧ buffered (b_ch s) = [])) ∧
  (length (buffered (b_ch s)) <= 1)%nat ∧
  (b_panicked s = true → chan_closed (b_ch s) = true ∧ b_ctx s = true).
Proof.
  intros Hs Hr. unfold SubscribeFinalizedCheckpoints in Hs. inv_io.
  apply beacon_steps_inv in Hr; [|apply stream_inv_start].
  destruct Hr as [(cs & fin & Hi & Hf & Hsub) H1 H2 H3 _ H5]. split; [|by auto].
  exists cs, fin. split; [done|]. split; [done|]. split.
  - apply Forall_forall. intros c Hc. rewrite Forall_forall in H5. apply H5.
    eapply elem_of_sublist; [|done]. apply elem_of_app. by left.
  - destruct Hf; auto 6.
Qed.

(** ** Witnesses *)

#[local] Existing Instance TxManager.toy_runtime.
#[local] Existing Instance Oracle.toy_beacon.

#[local] Instance toy_logs : LogSource toy :=
  { RootCommittedID := Some zero32; SubscribeFilterLogs _ e := (Ok tt, e) }.
#[local] Instance toy_stream : EventStream toy := { Events e := (Ok tt, e) }.

Definition toy_ws : NetClient :=
  mkNetClient 0 (Some 1%nat) (replicate 20 x02) (replicate 20 x03)
    (mkManager 0 (Wallet.mkSigner 7 true (be_bytes 20 7)) 1 toy_policy ∅ ∅) 1.

Definition toy_subscribed (n : Z) : SubscribedLog :=
  mkSubscribed (mkLog (root_committed_topics zero32 (be_bytes 32 n) n) [] n [x01] 0 [] 0) false.

Definition toy_event (n : Z) : RootCommittedEvent := mkRootCommitted (be_bytes 32 n) n [x01].

Lemma toy_decoded n :
  is_uint 64 n → processRootCommittedLog (toy_subscribed n) = Some (toy_event n).
Proof.
  intros Hn. unfold processRootCommittedLog, toy_subscribed, parseRootCommittedEvent.
  cbn [Removed vLog Topics root_committed_topics l_TxHash].
  rewrite to_array_id, be_value_be_bytes, wrapU_small
    by (unfold is_uint in *; rewrite ?length_be_bytes; cbn; lia || done). done.
Qed.

(** One event taken, then the end of the context. *)
Definition toy_sub_end : Sub :=
  mkSub [] false None PSelect (mkChannel [] false) open_chan true false
    [RootCommitted (toy_event 9); SubDone] [toy_subscribed 9].

Lemma toy_sub_run : rtc sub_step sub_start toy_sub_end.
Proof.
  eapply rtc_l; [left; apply (node_log (toy_subscribed 9)); unfold logsBuffer; cbn; lia|].
  eapply rtc_l; [right; left; apply producer_log|]. rewrite toy_decoded by done.
  eapply rtc_l; [right; left; apply producer_send; [done|unfold eventBuffer; cbn; lia]|].
  eapply rtc_l; [right; right; apply consumer_event|].
  eapply rtc_l; [left; apply node_cancel|].
  eapply rtc_l; [right; right; apply consumer_ctx|]. apply rtc_refl.
Qed.

Lemma SubscribeRootCommitted_delivers_witness :
  s_producer toy_sub_end ≠ PPanic.
Proof.
  apply (SubscribeRootCommitted_delivers toy_ws None (mkToy 0 []) sub_start (mkToy 0 [])
    toy_sub_end); [reflexivity|exact toy_sub_run].
Defined.

Lemma subscription_never_stuck_witness :
  ∃ s', rtc producer_step toy_sub_end s' ∧ s_producer s' = PDone.
Proof. apply (subscription_never_stuck toy_sub_end toy_sub_run). reflexivity. Defined.

Lemma subscription_error_drops_events_witness :
  ∃ s, rtc sub_step sub_start s ∧
    s_delivered s = [toy_subscribed 9] ∧ buf (s_events s) = [toy_event 9] ∧
    s_waiting s = false ∧ s_received s = [ErrChan (Some (EText "reset"))] ∧
    s_producer s = PDone ∧ s_ctx s = false.
Proof.
  apply (subscription_error_drops_events (toy_subscribed 9) (toy_event 9) (EText "reset")).
  apply toy_decoded. unfold is_uint. lia.
Defined.

Definition toy_finalized : FinalizedCheckpointEvent := mkCheckpointEvent 11 (be_bytes 32 5).
Definition toy_fetched : FinalizedCheckpoint := mkCheckpoint 11 120 (be_bytes 32 5).

(** A checkpoint taken, a second queued, a third dropped, then the end. *)
Definition toy_stream_end : BSub toy :=
  mkBSub (mkToy 0 []) (mkChan [toy_fetched] true) [] true false false
    [Checkpoint toy_fetched; Done] [toy_finalized; toy_finalized; toy_finalized]
    [toy_fetched; toy_fetched; toy_fetched].

Lemma toy_stream_run :
  rtc (beacon_step DefaultRetryConfig) (beacon_start (mkToy 0 []) (mkChan [] false)) toy_stream_end.
Proof.
  assert (∀ ch out cx ls rc sn ft, offer toy_fetched ch = Ok out →
    beacon_step DefaultRetryConfig
      (mkBSub (mkToy 0 []) ch [toy_finalized] cx false ls rc sn ft)
      (mkBSub (mkToy 0 []) out [] cx false ls rc sn (ft ++ [toy_fetched]))) as Hh.
  { intros ch out cx ls rc sn ft Ho.
    apply (beacon_handled _ toy_finalized (Ok toy_fetched) (Ok out) (mkToy 0 []) (mkToy 0 []) ch [] []);
      [vm_compute; reflexivity|done|]. unfold on_finalized_event, try_.
    replace (WithRetry _ _ _ _) with (Ok toy_fetched : result _, mkToy 0 [])
      by (vm_compute; reflexivity). unfold id, lift. by rewrite Ho. }
  eapply rtc_l; [apply (beacon_event _ toy_finalized)|].
  eapply rtc_l; [by apply Hh|].
  eapply rtc_l; [apply oracle_takes|].
  do 2 (eapply rtc_l; [apply (beacon_event _ toy_finalized)|]; eapply rtc_l; [by apply Hh|]).
  eapply rtc_l; [apply beacon_cancel|].
  eapply rtc_l; [by apply beacon_close|].
  eapply rtc_l; [apply oracle_done|]. apply rtc_refl.
Qed.

Lemma checkpoint_stream_delivers_witness :
  (length (buffered (b_ch toy_stream_end)) <= 1)%nat.
Proof.
  apply (checkpoint_stream_delivers DefaultRetryConfig (mkToy 0 []) (mkChan [] false) (mkToy 0 [])
    toy_stream_end); [reflexivity|exact toy_stream_run].
Defined.
