(* ===== verification/Server.v ===== *)
(** * api: the routes (src/api/api.go, [handleUI] of src/api/handlers.go)

    [Run] builds two [http.ServeMux]es, one inside the other, and wraps them in two
    middlewares.  [serve_mux] is [ServeMux.ServeHTTP] of net/http for the patterns the program
    uses, all for GET: literal segments, a wildcard for one segment, and a trailing slash; it
    redirects a path that is not clean, or that lacks the trailing slash of a pattern, and
    answers 400, 405 and 404.  What a handler has set of the header is state, which a panic does
    not undo. *)

From S2P Require Import Prelude Merkle Storage CommitTree Connect Api.

(** ** Requests and responses *)

(** The path is that of [URL.EscapedPath]; the query is [URL.Query()]. *)
Record HttpRequest := mkHttpRequest {
  Method : string;
  EscapedPath : string;
  Query : list (string * string);
}.

(** [PRedirect] has the path of the Location; the query goes with it as it was. *)
Inductive payload :=
  | PJson (b : body)
  | PText (text : string)
  | PPage (data : bytes)
  | PRedirect (location : string).

Record HttpResponse := mkHttpResponse {
  h_status : Z;
  h_ContentType : option string;
  h_Allow : option string;
  h_payload : payload;
}.

(** A connection: the Content-Type of its header, and the world. *)
Record Conn := mkConn {
  w_ctype : option string;
  w_world : World;
}.

Definition on_world {A} : M A → io Conn A := zoom w_world (λ w c, mkConn (w_ctype c) w).

Definition set_ctype (s : string) : io Conn unit := λ c, (Ok tt, mkConn (Some s) (w_world c)).

Definition respond (status : Z) (p : payload) : io Conn HttpResponse := λ c,
  (Ok (mkHttpResponse status (w_ctype c) None p), c).

Definition newline : string := String (Ascii.ascii_of_nat 10) "".

(** [http.Error], [http.NotFound]; with [Allow], the answer of a mux to other methods. *)
Definition http_Error (text : string) (status : Z) : io Conn HttpResponse :=
  _ ← set_ctype "text/plain; charset=utf-8"; respond status (PText (text +:+ newline)).

Definition NotFound : io Conn HttpResponse := http_Error "404 page not found" 404.

Definition MethodNotAllowed : io Conn HttpResponse :=
  resp ← http_Error "Method Not Allowed" 405;
  mret (mkHttpResponse (h_status resp) (h_ContentType resp) (Some "GET, HEAD") (h_payload resp)).

(** The patterns for GET match HEAD too. *)
Definition gets (method : string) : bool :=
  bool_decide (method = "GET") || bool_decide (method = "HEAD").

(** The bytes [url.escape] leaves alone in a path. *)
Definition path_safe (c : ascii) : bool :=
  let n := Ascii.N_of_ascii c in
  ((48 <=? n) && (n <=? 57) || (65 <=? n) && (n <=? 90) || (97 <=? n) && (n <=? 122))%N ||
  existsb (Ascii.eqb c) ["-"; "_"; "."; "~"; "$"; "&"; "+"; ","; "/"; ":"; ";"; "="; "@"]%char.

Definition upper_hex (n : N) : ascii :=
  Ascii.ascii_of_N (if (n <? 10)%N then 48 + n else 55 + n).

(** [URL.String] of a URL that has only this path. *)
Fixpoint escapePath (path : string) : string :=
  match path with
  | EmptyString => EmptyString
  | String c rest =>
      if path_safe c then String c (escapePath rest)
      else
        let n := Ascii.N_of_ascii c in
        String "%" (String (upper_hex (n / 16)) (String (upper_hex (n mod 16)) (escapePath rest)))
  end.

(** [http.Redirect] to the URL with the path [path], which is escaped even where it is already
    an escaped one; a Content-Type only when there is none. *)
Definition redirect (method path : string) : io Conn HttpResponse := λ c,
  (if gets method && bool_decide (w_ctype c = None)
   then (_ ← set_ctype "text/html; charset=utf-8"; respond 301 (PRedirect (escapePath path)))
   else respond 301 (PRedirect (escapePath path))) c.

(** ** Paths *)

(** [url.PathUnescape]; a segment that is not well formed stays as it is. *)
Fixpoint PathUnescape (s : string) : option string :=
  match s with
  | EmptyString => Some EmptyString
  | String c s' =>
      if Ascii.eqb c "%" then
        match s' with
        | String a (String b s'') =>
            x ← hex_value a; y ← hex_value b;
            String (Ascii.ascii_of_N (Z.to_N (16 * x + y))) <$> PathUnescape s''
        | _ => None
        end
      else String c <$> PathUnescape s'
  end.

Definition pathUnescape (s : string) : string := default s (PathUnescape s).

(** The segments of a path that starts with a slash; a trailing slash gives an empty one. *)
Definition segments (path : string) : list string :=
  match path with
  | String "/" rest => split_at "/" rest
  | EmptyString => []
  | rest => split_at "/" rest
  end.

Fixpoint path_of (segs : list string) : string :=
  match segs with
  | [] => ""
  | seg :: rest => "/" +:+ seg +:+ path_of rest
  end.

(** [cleanPath] of net/http, on segments: [path.Clean], and the trailing slash put back. *)
Definition clean (segs : list string) : list string :=
  let stay := reverse (clean_segs true [] segs) in
  stay ++ (if bool_decide (stay = []) || bool_decide (last segs = Some "") then [""] else []).

Definition cleanPath (path : string) : string := path_of (clean (segments path)).

(** ** [ServeMux] *)

Inductive seg :=
  | Lit (s : string)
  | Wild (name : string)
  | Multi.   (* the trailing slash of a pattern *)

Record route := mkRoute {
  pattern : list seg;
  handle : list (string * string) → HttpRequest → io Conn HttpResponse;
}.

(** The path values of a match; a wildcard does not match a trailing slash. *)
Fixpoint match_segs (pat : list seg) (path : list string) : option (list (string * string)) :=
  match pat, path with
  | [], [] => Some []
  | [Multi], _ :: _ => Some []
  | Lit s :: pat', x :: path' =>
      if bool_decide (pathUnescape x = s) then match_segs pat' path' else None
  | Wild name :: pat', x :: path' =>
      if bool_decide (x = "") || bool_decide (pathUnescape x = "/") then None
      else cons (name, pathUnescape x) <$> match_segs pat' path'
  | _, _ => None
  end.

(** The first route that matches; the more specific patterns come first. *)
Fixpoint find_route (routes : list route) (path : list string)
    : option (route * list (string * string)) :=
  match routes with
  | [] => None
  | r :: rest =>
      match match_segs (pattern r) path with
      | Some vals => Some (r, vals)
      | None => find_route rest path
      end
  end.

Definition ends_multi (pat : list seg) : bool :=
  match last pat with Some Multi => true | _ => false end.

(** [exactMatch]: a trailing slash of the pattern has matched only a trailing slash. *)
Definition exact (found : option (route * list (string * string))) (path : list string) : bool :=
  match found with
  | None => false
  | Some (r, _) =>
      negb (ends_multi (pattern r)) ||
      bool_decide (last path = Some "") && (length (pattern r) =? length path)%nat
  end.

Definition serve_mux (routes : list route) (r : HttpRequest) : io Conn HttpResponse :=
  if bool_decide (EscapedPath r = "*") then respond 400 (PText "") else
  let connect := bool_decide (Method r = "CONNECT") in
  let path := if connect then EscapedPath r else cleanPath (EscapedPath r) in
  let segs := segments path in
  let lookup segs := if gets (Method r) then find_route routes segs else None in
  if negb (exact (lookup segs) segs) && negb (bool_decide (last segs = Some ""))
     && exact (lookup (segs ++ [""])) (segs ++ [""])
  then redirect (Method r) (cleanPath (pathUnescape (EscapedPath r)) +:+ "/")
  else if negb connect && negb (bool_decide (path = EscapedPath r))
  then redirect (Method r) path
  else
    match lookup segs with
    | Some (rt, vals) => handle rt vals r
    | None =>
        match find_route routes segs, find_route routes (segs ++ [""]) with
        | None, None => NotFound
        | _, _ => MethodNotAllowed
        end
    end.

(** ** The server *)

Definition get_value (values : list (string * string)) (key : string) : string :=
  match list_find (λ kv, kv.1 = key) values with Some (_, kv) => kv.2 | None => "" end.

(** What the handlers read of a request. *)
Definition to_request (vals : list (string * string)) (r : HttpRequest) : Request :=
  mkRequest (get_value (Query r) "epoch") (get_value (Query r) "full") (get_value vals "clusterId").

(** [writeJSON] of a handler's answer. *)
Definition writeJSON (h : M Response) : io Conn HttpResponse :=
  resp ← on_world h; respond (code resp) (PJson (content resp)).

Definition contentTypeMiddleware (next : io Conn HttpResponse) : io Conn HttpResponse :=
  _ ← set_ctype "application/json"; next.

(** The header keeps what was set before the panic. *)
Definition recover (next : io Conn HttpResponse) (c : Conn) : HttpResponse * Conn :=
  match next c with
  | (Ok resp, c') => (resp, c')
  | (_, c') => (mkHttpResponse 500 (w_ctype c') None (PJson (BError internalError)), c')
  end.

Section server.
Context `{!Crypto}.

(** [uiFS.ReadFile]: the page the build embeds. *)
Variable ui : result bytes.

Definition handleUI : io Conn HttpResponse :=
  _ ← set_ctype "text/html; charset=utf-8";
  match ui with
  | Ok data => respond 200 (PPage data)
  | _ => http_Error "UI not available" 500
  end.

Definition apiMux : HttpRequest → io Conn HttpResponse := serve_mux
  [mkRoute [Lit "api"; Lit "v1"; Lit "commit"]
     (λ vals r, writeJSON (handleGetCommit (to_request vals r)));
   mkRoute [Lit "api"; Lit "v1"; Lit "proof"; Wild "clusterId"]
     (λ vals r, writeJSON (handleGetProof (to_request vals r)))].

Definition mux : HttpRequest → io Conn HttpResponse := serve_mux
  [mkRoute [Lit "api"; Lit "v1"; Multi] (λ _ r, contentTypeMiddleware (apiMux r));
   mkRoute [Multi] (λ _ _, handleUI)].

(** One request on a new connection; the server answers "OPTIONS *" itself. *)
Definition serve (r : HttpRequest) (w : World) : HttpResponse * World :=
  if bool_decide (Method r = "OPTIONS" ∧ EscapedPath r = "*")
  then (mkHttpResponse 200 None None (PText ""), w) else
  let '(resp, c) := recover (mux r) (mkConn None w) in (resp, w_world c).
End server.

(** ** Specification *)

(** The answer of an API handler: JSON, also after a panic. *)
Definition json_answer (h : M Response) (w : World) : HttpResponse * World :=
  let '(resp, w') := recoveryMiddleware h w in
  (mkHttpResponse (code resp) (Some "application/json") None (PJson (content resp)), w').

Definition text_answer (status : Z) (allow : option string) (text : string) : HttpResponse :=
  mkHttpResponse status (Some "text/plain; charset=utf-8") allow (PText (text +:+ newline)).

(** The segments of the path, decoded. *)
Definition decoded (r : HttpRequest) : list string := pathUnescape <$> segments (EscapedPath r).

Definition canonical (r : HttpRequest) : Prop := cleanPath (EscapedPath r) = EscapedPath r.

(** ** Lemmas on paths *)

Lemma split_at_cons sep s : ∃ x l, split_at sep s = x :: l.
Proof.
  induction s as [|c s (x & l & IH)]; cbn; [by eexists _, _|].
  rewrite IH. destruct (Ascii.eqb c sep); by eexists _, _.
Qed.

Lemma append_nil s : s +:+ "" = s.
Proof. induction s as [|c s IH]; [done|]. change (String c (s +:+ "") = String c s). by rewrite IH. Qed.

(** The pieces have no separator. *)
Lemma split_at_pieces sep s : Forall (λ x, split_at sep x = [x]) (split_at sep s).
Proof.
  induction s as [|c s IH]; cbn; [by constructor|].
  destruct (Ascii.eqb c sep) eqn:Ec; [by constructor|].
  destruct (split_at_cons sep s) as (x & l & Hs). rewrite Hs in *.
  apply Forall_cons in IH as [Hx Hl]. constructor; [|done]. cbn. by rewrite Ec, Hx.
Qed.

Lemma split_at_app sep x s :
  split_at sep x = [x] → split_at sep (x +:+ String sep s) = x :: split_at sep s.
Proof.
  induction x as [|c x IH]; cbn [split_at].
  { intros _. change ("" +:+ String sep s) with (String sep s). cbn. by rewrite Ascii.eqb_refl. }
  change (String c x +:+ String sep s) with (String c (x +:+ String sep s)). cbn [split_at].
  destruct (Ascii.eqb c sep); [done|]. destruct (split_at_cons sep x) as (y & l & Hx).
  rewrite Hx in *. intros [= -> ->]. by rewrite IH.
Qed.

Lemma split_at_path_of x l :
  Forall (λ x, split_at "/" x = [x]) (x :: l) → split_at "/" (x +:+ path_of l) = x :: l.
Proof.
  revert x. induction l as [|y l IH]; intros x [Hx Hl]%Forall_cons; cbn [path_of].
  - by rewrite append_nil.
  - change ("/" +:+ y +:+ path_of l) with (String "/" (y +:+ path_of l)).
    by rewrite split_at_app, IH.
Qed.

Lemma segments_path_of l :
  l ≠ [] → Forall (λ x, split_at "/" x = [x]) l → segments (path_of l) = l.
Proof. destruct l as [|x l]; [done|]. intros _ H. by apply split_at_path_of. Qed.

(** A segment [path.Clean] leaves alone. *)
Definition stays (x : string) : Prop := x ≠ "" ∧ x ≠ "." ∧ x ≠ "..".

Lemma clean_segs_kept (P : string → Prop) stack segs :
  Forall P segs → Forall (λ x, stays x ∧ P x) stack →
  Forall (λ x, stays x ∧ P x) (clean_segs true stack segs).
Proof.
  revert stack. induction segs as [|x segs IH]; intros stack Hs Hk; cbn; [done|].
  apply Forall_cons in Hs as [Hx Hs].
  destruct (bool_decide_reflect (x = "")); cbn; [by apply IH|].
  destruct (bool_decide_reflect (x = ".")); cbn; [by apply IH|].
  destruct (bool_decide_reflect (x = "..")) as [->|].
  - destruct stack as [|top stack]; [by apply IH|]. apply Forall_cons in Hk as [[Ht ?] Hk].
    rewrite bool_decide_eq_false_2 by apply Ht. by apply IH.
  - apply IH; [done|]. by constructor.
Qed.

Lemma clean_segs_id stack segs tail :
  Forall stays segs → clean_segs true stack (segs ++ tail) = clean_segs true (reverse segs ++ stack) tail.
Proof.
  revert stack. induction segs as [|x segs IH]; intros stack Hs; [done|].
  apply Forall_cons in Hs as [(H1 & H2 & H3) Hs].
  cbn [clean_segs app]. rewrite !bool_decide_eq_false_2 by done. cbn [orb].
  by rewrite IH, reverse_cons, <- app_assoc.
Qed.

Lemma clean_stays (P : string → Prop) segs :
  Forall P segs → Forall (λ x, stays x ∧ P x) (reverse (clean_segs true [] segs)).
Proof. intros H. apply Forall_reverse. by apply clean_segs_kept. Qed.

Lemma clean_nonempty segs : clean segs ≠ [].
Proof. unfold clean. destruct (reverse _); cbn; [done|]. by case_match. Qed.

Lemma clean_pieces segs :
  Forall (λ x, split_at "/" x = [x]) segs → Forall (λ x, split_at "/" x = [x]) (clean segs).
Proof.
  intros H. unfold clean. apply Forall_app. split.
  - eapply Forall_impl; [by apply clean_stays|]. by intros x [_ ?].
  - case_match; by repeat constructor.
Qed.

Lemma segments_pieces path : Forall (λ x, split_at "/" x = [x]) (segments path).
Proof.
  destruct path as [|c path]; [done|]. unfold segments.
  destruct (ascii_dec c "/") as [->|Hc]; [apply split_at_pieces|].
  destruct c as [[] [] [] [] [] [] [] []]; try apply split_at_pieces.
Qed.

Lemma segments_cleanPath path : segments (cleanPath path) = clean (segments path).
Proof.
  apply segments_path_of; [apply clean_nonempty|apply clean_pieces, segments_pieces].
Qed.

(** ** Lemmas on routes *)

#[local] Arguments pathUnescape _ : simpl never.

Lemma match_Lit s pat x path :
  match_segs (Lit s :: pat) (x :: path) =
    if bool_decide (pathUnescape x = s) then match_segs pat path else None.
Proof. done. Qed.


(** The pattern "GET /api/v1/". *)
Definition under_api (segs : list string) : bool :=
  match segs with
  | a :: b :: _ :: _ =>
      bool_decide (pathUnescape a = "api") && bool_decide (pathUnescape b = "v1")
  | _ => false
  end.

Lemma match_api segs :
  match_segs [Lit "api"; Lit "v1"; Multi] segs = if under_api segs then Some [] else None.
Proof. destruct segs as [|a [|b [|c l]]]; cbn; by repeat case_bool_decide. Qed.

Lemma under_api_spec segs :
  under_api segs = true ↔ ∃ x l, pathUnescape <$> segs = "api" :: "v1" :: x :: l.
Proof.
  split.
  - destruct segs as [|a [|b [|c l]]]; cbn; try done.
    intros [->%bool_decide_eq_true ->%bool_decide_eq_true]%andb_true_iff. by eexists _, _.
  - intros (x & l & H). destruct segs as [|a [|b [|c l']]]; cbn in *; simplify_eq.
    by rewrite !bool_decide_eq_true_2.
Qed.

(** The two patterns of [apiMux] fix the number of segments. *)
Lemma match_commit segs :
  match_segs [Lit "api"; Lit "v1"; Lit "commit"] segs =
    if bool_decide (pathUnescape <$> segs = ["api"; "v1"; "commit"]) then Some [] else None.
Proof.
  destruct segs as [|a [|b [|c [|d l]]]]; cbn; repeat case_bool_decide; congruence.
Qed.

Lemma unescape_empty x : pathUnescape x = "" ↔ x = "".
Proof.
  split; [|by intros ->]. unfold pathUnescape. destruct x as [|c x]; [done|]. cbn.
  destruct (Ascii.eqb c "%"); [|by destruct (PathUnescape x)].
  destruct x as [|a [|b x]]; [done..|]. destruct (hex_value a), (hex_value b); try done.
  cbn. by destruct (PathUnescape x).
Qed.

Lemma match_proof segs :
  match_segs [Lit "api"; Lit "v1"; Lit "proof"; Wild "clusterId"] segs =
    match pathUnescape <$> segs with
    | [a; b; p; id] =>
        if bool_decide ([a; b; p] = ["api"; "v1"; "proof"] ∧ id ≠ "" ∧ id ≠ "/")
        then Some [("clusterId", id)] else None
    | _ => None
    end.
Proof.
  destruct segs as [|a [|b [|p [|id [|y l]]]]]; cbn; try (by repeat case_bool_decide).
  destruct (decide ([pathUnescape a; pathUnescape b; pathUnescape p] = ["api"; "v1"; "proof"] ∧
    pathUnescape id ≠ "" ∧ pathUnescape id ≠ "/")) as [Hd|Hd].
  - rewrite (bool_decide_eq_true_2 _ Hd). destruct Hd as ([= -> -> ->] & H1 & H2). rewrite !bool_decide_eq_true_2 by done.
    rewrite (bool_decide_eq_false_2 (id = "")) by (by rewrite <- unescape_empty).
    by rewrite bool_decide_eq_false_2.
  - rewrite (bool_decide_eq_false_2 _ Hd). repeat case_bool_decide; try done. exfalso. apply Hd. rewrite unescape_empty. by split_and!; [congruence|..].
Qed.

Lemma gets_not_connect m : gets m = true → m ≠ "CONNECT".
Proof. by intros H ->. Qed.

Lemma canonical_star r : canonical r → EscapedPath r ≠ "*".
Proof. unfold canonical. intros Hc E. rewrite E in Hc. vm_compute in Hc. discriminate. Qed.

(** A mux on a clean path. *)
Lemma serve_mux_clean routes r :
  canonical r →
  serve_mux routes r =
    let segs := segments (EscapedPath r) in
    let lookup segs := if gets (Method r) then find_route routes segs else None in
    if negb (exact (lookup segs) segs) && negb (bool_decide (last segs = Some ""))
       && exact (lookup (segs ++ [""])) (segs ++ [""])
    then redirect (Method r) (cleanPath (pathUnescape (EscapedPath r)) +:+ "/")
    else
      match lookup segs with
      | Some (rt, vals) => handle rt vals r
      | None =>
          match find_route routes segs, find_route routes (segs ++ [""]) with
          | None, None => NotFound
          | _, _ => MethodNotAllowed
          end
      end.
Proof.
  intros Hc. unfold serve_mux. rewrite (bool_decide_eq_false_2 _ (canonical_star r Hc)), Hc.
  replace (if bool_decide (Method r = "CONNECT") then EscapedPath r else EscapedPath r)
    with (EscapedPath r) by (by case_match). cbv zeta.
  by rewrite (bool_decide_eq_true_2 (EscapedPath r = _)), andb_false_r.
Qed.

(** The routes of [apiMux]. *)
Lemma apiMux_clean `{!Crypto} r :
  canonical r → gets (Method r) = true →
  apiMux r =
    if bool_decide (decoded r = ["api"; "v1"; "commit"])
    then writeJSON (handleGetCommit (to_request [] r))
    else match decoded r with
         | [a; b; p; id] =>
             if bool_decide ([a; b; p] = ["api"; "v1"; "proof"] ∧ id ≠ "" ∧ id ≠ "/")
             then writeJSON (handleGetProof (to_request [("clusterId", id)] r)) else NotFound
         | _ => NotFound
         end.
Proof.
  intros Hc Hg. unfold apiMux. rewrite (serve_mux_clean _ _ Hc), Hg. cbv beta iota zeta.
  set (segs := segments (EscapedPath r)).
  assert (∀ routes, find_route routes (segs ++ [""]) = None → 
    exact (find_route routes (segs ++ [""])) (segs ++ [""]) = false) as He by (by intros ? ->).
  assert (find_route [mkRoute [Lit "api"; Lit "v1"; Lit "commit"]
      (λ vals r, writeJSON (handleGetCommit (to_request vals r)));
    mkRoute [Lit "api"; Lit "v1"; Lit "proof"; Wild "clusterId"]
      (λ vals r, writeJSON (handleGetProof (to_request vals r)))] (segs ++ [""]) = None) as Hn.
  { cbn [find_route pattern]. rewrite match_commit, match_proof, fmap_app. cbn [fmap list_fmap].
    change (pathUnescape "") with "". rewrite bool_decide_eq_false_2.
    - destruct (pathUnescape <$> segs) as [|? [|? [|? [|? l]]]]; cbn; try done;
        [|by destruct l]. by rewrite bool_decide_eq_false_2 by naive_solver.
    - destruct (pathUnescape <$> segs) as [|? [|? [|? [|? l]]]]; cbn; naive_solver. }
  rewrite (He _ Hn), andb_false_r, Hn. cbn [find_route pattern].
  rewrite match_commit, match_proof. unfold decoded. fold segs.
  case_bool_decide; [done|].
  destruct (pathUnescape <$> segs) as [|? [|? [|? [|? [|? l]]]]]; try done. by case_bool_decide.
Qed.

Section outer.
Context `{!Crypto}.
Variable ui : result bytes.

Definition outer_routes : list route :=
  [mkRoute [Lit "api"; Lit "v1"; Multi] (λ _ r, contentTypeMiddleware (apiMux r));
   mkRoute [Multi] (λ _ _, handleUI ui)].

Lemma find_outer segs :
  find_route outer_routes segs =
    if under_api segs
    then Some (mkRoute [Lit "api"; Lit "v1"; Multi] (λ _ r, contentTypeMiddleware (apiMux r)), [])
    else match segs with [] => None | _ => Some (mkRoute [Multi] (λ _ _, handleUI ui), []) end.
Proof. cbn [find_route outer_routes pattern]. rewrite match_api. destruct (under_api segs); [done|]. by destruct segs. Qed.

(** A trailing slash is missing only after /api/v1. *)
Lemma exact_outer segs :
  segs ≠ [] →
  exact (find_route outer_routes (segs ++ [""])) (segs ++ [""]) =
    bool_decide (pathUnescape <$> segs = ["api"; "v1"]).
Proof.
  intros Hs. rewrite find_outer. destruct segs as [|a [|b [|c l]]]; [done|..].
  - by rewrite (bool_decide_eq_false_2 (pathUnescape <$> [a] = _)).
  - cbn [app fmap list_fmap under_api].
    destruct (bool_decide_reflect (pathUnescape a = "api")) as [->|Ha];
      [destruct (bool_decide_reflect (pathUnescape b = "v1")) as [->|Hb]|]; cbn [andb];
      [by rewrite (bool_decide_eq_true_2 (_ = ["api"; "v1"]))|..];
      rewrite (bool_decide_eq_false_2 (_ = ["api"; "v1"])) by congruence; reflexivity.
  - assert (∀ n, (n <= 3)%nat → (n =? length (a :: b :: c :: l ++ [""]))%nat = false) as Hn.
    { intros n Hn. apply Nat.eqb_neq. cbn. rewrite length_app. cbn. lia. }
    cbn [app]. rewrite (bool_decide_eq_false_2 (_ = ["api"; "v1"])) by done.
    destruct (under_api _); unfold exact, ends_multi; cbn [pattern last negb orb length];
      rewrite Hn by lia; by rewrite andb_false_r.
Qed.

Lemma canonical_segments r : canonical r → segments (EscapedPath r) ≠ [].
Proof. intros <-. rewrite segments_cleanPath. apply clean_nonempty. Qed.

Lemma mux_clean r :
  canonical r → gets (Method r) = true →
  mux ui r =
    if bool_decide (decoded r = ["api"; "v1"])
    then redirect (Method r) (cleanPath (pathUnescape (EscapedPath r)) +:+ "/")
    else if under_api (segments (EscapedPath r)) then contentTypeMiddleware (apiMux r)
    else handleUI ui.
Proof.
  intros Hc Hg. unfold mux. fold outer_routes. rewrite (serve_mux_clean _ _ Hc), Hg.
  cbv beta iota zeta. unfold decoded. pose proof (canonical_segments r Hc) as Hs.
  rewrite (exact_outer _ Hs). set (segs := segments (EscapedPath r)) in *.
  rewrite find_outer. destruct (decide (pathUnescape <$> segs = ["api"; "v1"])) as [Hd|Hd];
    [rewrite (bool_decide_eq_true_2 _ Hd)|rewrite (bool_decide_eq_false_2 _ Hd), andb_false_r].
  - destruct segs as [|a [|b [|c l]]]; try done. cbn in *.
    injection Hd as Ha Hb. rewrite bool_decide_eq_false_2; [done|].
    intros [= ->]. done.
  - destruct (under_api segs); [done|]. by destruct segs.
Qed.

Lemma mux_other_method r :
  canonical r → gets (Method r) = false → mux ui r = MethodNotAllowed.
Proof.
  intros Hc Hg. unfold mux. fold outer_routes. rewrite (serve_mux_clean _ _ Hc), Hg.
  cbv beta iota zeta. cbn [exact]. rewrite andb_false_r. rewrite find_outer.
  pose proof (canonical_segments r Hc) as Hs. destruct (under_api _); [done|].
  by destruct (segments (EscapedPath r)).
Qed.

(** What is redirected is /api/v1, however it was escaped. *)
Lemma PathUnescape_app s t x :
  PathUnescape s = Some x → PathUnescape (s +:+ t) = String.append x <$> PathUnescape t.
Proof.
  revert s x. fix IH 1. intros [|c s] x.
  - intros [= <-]. change ("" +:+ t) with t. clear IH. by destruct (PathUnescape t).
  - change (String c s +:+ t) with (String c (s +:+ t)). cbn [PathUnescape].
    destruct (Ascii.eqb c "%").
    + destruct s as [|a [|b s]]; [done..|].
      change (String a (String b s) +:+ t) with (String a (String b (s +:+ t))).
      cbn [PathUnescape]. destruct (hex_value a), (hex_value b); try done. cbn [mbind option_bind].
      destruct (PathUnescape s) as [y|] eqn:Es; [|done]. intros [= <-].
      rewrite (IH s y Es). clear IH. destruct (PathUnescape t); reflexivity.
    + destruct (PathUnescape s) as [y|] eqn:Es; [|done]. intros [= <-].
      rewrite (IH s y Es). clear IH. destruct (PathUnescape t); reflexivity.
Qed.

Lemma unescape_literal x l : pathUnescape x = l → PathUnescape l = Some l → PathUnescape x = Some l.
Proof.
  unfold pathUnescape. destruct (PathUnescape x) as [y|] eqn:Hx; cbn; [by intros ->|].
  intros ->. by rewrite Hx.
Qed.

Lemma api_location r :
  canonical r → decoded r = ["api"; "v1"] →
  escapePath (cleanPath (pathUnescape (EscapedPath r)) +:+ "/") = "/api/v1/".
Proof.
  intros Hc Hd. assert (EscapedPath r = path_of (segments (EscapedPath r))) as ->.
  { unfold canonical in Hc. transitivity (cleanPath (EscapedPath r)); [done|].
    unfold cleanPath. f_equal. rewrite <- segments_cleanPath. by rewrite Hc. }
  unfold decoded in Hd. destruct (segments (EscapedPath r)) as [|a [|b [|c l]]]; try done.
  injection Hd as Ha%unescape_literal Hb%unescape_literal; [|done..]. cbn [path_of].
  assert (PathUnescape ("/" +:+ a +:+ "/" +:+ b +:+ "") = Some "/api/v1") as Hp.
  { rewrite (PathUnescape_app "/" _ "/" eq_refl), (PathUnescape_app a _ _ Ha),
      (PathUnescape_app "/" _ "/" eq_refl), (PathUnescape_app b _ _ Hb). reflexivity. }
  unfold pathUnescape. rewrite Hp. vm_compute. reflexivity.
Qed.

Lemma redirect_run m path c :
  ∃ ct c', redirect m path c = (Ok (mkHttpResponse 301 ct None (PRedirect (escapePath path))), c') ∧
    w_world c' = w_world c.
Proof. unfold redirect. destruct (gets m && _); by eexists _, _. Qed.

(** An API answer on a connection whose Content-Type is set. *)
Lemma writeJSON_run h w :
  (let '(resp, c) := recover (contentTypeMiddleware (writeJSON h)) (mkConn None w) in
   (resp, w_world c)) = json_answer h w.
Proof.
  unfold json_answer, recoveryMiddleware, recover, contentTypeMiddleware, writeJSON, on_world, zoom.
  unfold mbind, io_bind. cbn. by destruct (h w) as [[resp|e|] w'].
Qed.
End outer.

(** ** Properties *)

(** C24: the answer to every request for a clean path.  A method other than GET and HEAD is
    answered 405 in plain text whatever the path.  Otherwise the path decides, its segments
    decoded: /api/v1/commit and /api/v1/proof/<id> (not empty, not "/") are the two handlers,
    whose answer is JSON with the status of the handler, also after a panic; /api/v1 is
    redirected to /api/v1/; any other path below /api/v1/ is 404 in plain text; and every path
    elsewhere, whatever it is, the embedded page. *)
Theorem serve_routes {HC : Crypto} page r w :
  canonical r →
  let get := gets (Method r) = true in
  (gets (Method r) = false →
     serve (Ok page) r w = (text_answer 405 (Some "GET, HEAD") "Method Not Allowed", w)) ∧
  (get → decoded r = ["api"; "v1"; "commit"] →
     serve (Ok page) r w = json_answer (handleGetCommit (to_request [] r)) w) ∧
  (∀ id, get → decoded r = ["api"; "v1"; "proof"; id] → id ≠ "" → id ≠ "/" →
     serve (Ok page) r w = json_answer (handleGetProof (to_request [("clusterId", id)] r)) w) ∧
  (get → decoded r = ["api"; "v1"] → ∃ ct, serve (Ok page) r w =
     (mkHttpResponse 301 ct None (PRedirect "/api/v1/"), w)) ∧
  (∀ x l, get → decoded r = "api" :: "v1" :: x :: l → x :: l ≠ ["commit"] →
     (∀ id, x :: l = ["proof"; id] → id = "" ∨ id = "/") →
     serve (Ok page) r w = (text_answer 404 None "404 page not found", w)) ∧
  (get → (∀ l, decoded r ≠ "api" :: "v1" :: l) →
     serve (Ok page) r w =
       (mkHttpResponse 200 (Some "text/html; charset=utf-8") None (PPage page), w)).
Proof.
  intros Hc get.
  assert (∀ x l, decoded r = "api" :: "v1" :: x :: l → under_api (segments (EscapedPath r)) = true) as Hu
    by (intros x l Hd; apply under_api_spec; by eexists _, _).
  unfold serve. rewrite bool_decide_eq_false_2 by (by intros [_ ?%(canonical_star r Hc)]).
  split_and!.
  - intros Hg. by rewrite mux_other_method.
  - intros Hg Hd. rewrite mux_clean, apiMux_clean, (Hu _ _ Hd), Hd by done.
    rewrite !bool_decide_eq_false_2, bool_decide_eq_true_2 by done. apply writeJSON_run.
  - intros id Hg Hd H1 H2. rewrite mux_clean, apiMux_clean, (Hu _ _ Hd), Hd by done.
    rewrite !bool_decide_eq_false_2, bool_decide_eq_true_2 by done. apply writeJSON_run.
  - intros Hg Hd. rewrite mux_clean, Hd by done. rewrite bool_decide_eq_true_2 by done.
    destruct (redirect_run (Method r) (cleanPath (pathUnescape (EscapedPath r)) +:+ "/") (mkConn None w))
      as (ct & c' & Hr & Hw). exists ct. unfold recover. rewrite Hr, Hw.
    by rewrite (api_location r Hc Hd).
  - intros x l Hg Hd Hx Hp. rewrite mux_clean, apiMux_clean, (Hu _ _ Hd), Hd by done.
    rewrite !bool_decide_eq_false_2 by congruence. destruct l as [|id [|y l]]; try done.
    case_bool_decide as Hb; [|done]. destruct Hb as ([= ->] & H1 & H2).
    by destruct (Hp id eq_refl).
  - intros Hg Hd. rewrite mux_clean by done. rewrite bool_decide_eq_false_2 by done.
    destruct (under_api _) eqn:Eu; [|done]. apply under_api_spec in Eu as (x & l & Eu).
    by destruct (Hd (x :: l)).
Qed.

(** ** Witnesses *)

Definition toy_page : bytes := [x3c].

(** The segment %63ommit is "commit". *)
Definition toy_get (path : string) : HttpRequest := mkHttpRequest "GET" path [("full", "true")].

Example serve_paths :
  cleanPath "//api/./v1//x/../commit" = "/api/v1/commit" ∧ cleanPath "/a/../.." = "/" ∧
  cleanPath "/api/v1/" = "/api/v1/" ∧ cleanPath "" = "/" ∧
  pathUnescape "%63ommit" = "commit" ∧ pathUnescape "%6" = "%6" ∧
  decoded (toy_get "/api/v1/%63ommit") = ["api"; "v1"; "commit"].
Proof. vm_compute. done. Qed.

Example serve_statuses :
  (λ m_p, let '(resp, _) := serve (Ok toy_page) (mkHttpRequest m_p.1 m_p.2 []) api_world in
     (h_status resp, h_ContentType resp)) <$>
  [("GET", "/api/v1/commit"); ("GET", "/api/v1/proof/xyz"); ("HEAD", "/api/v1/proof/");
   ("GET", "/api/v1"); ("POST", "/api/v1/commit"); ("GET", "/api/v2"); ("POST", "/x//y")] =
  [(200, Some "application/json"); (400, Some "application/json");
   (404, Some "text/plain; charset=utf-8"); (301, Some "text/html; charset=utf-8");
   (405, Some "text/plain; charset=utf-8"); (200, Some "text/html; charset=utf-8"); (301, None)].
Proof. vm_compute. reflexivity. Qed.

Definition toy_commit : HttpRequest := toy_get "/api/v1/%63ommit".

Lemma toy_commit_canonical : canonical toy_commit.
Proof. vm_compute. reflexivity. Qed.

Lemma toy_commit_decoded : decoded toy_commit = ["api"; "v1"; "commit"].
Proof. vm_compute. reflexivity. Qed.

Lemma serve_routes_witness :
  serve (Ok toy_page) toy_commit api_world =
    json_answer (handleGetCommit (to_request [] toy_commit)) api_world.
Proof.
  exact (proj1 (proj2 (serve_routes toy_page toy_commit api_world toy_commit_canonical))
    (eq_refl true) toy_commit_decoded).
Defined.
