(* ===== verification/System.v ===== *)
(** * The running oracle (src/cmd/oracle/commands/run.go)

    [startup] is what [run] does to the database before the services start, and
    [oracle_service] the goroutine of the oracle.  The services share one database: the
    oracle's goroutine synchronises and commits, the updater and the API read.  [sys_step]
    is one operation of one of them; between two the node, the clock and the faults of the
    database may change in any way. *)

From S2P Require Import Prelude Merkle Schedule Storage Retry Execution Events Syncer Writes.
From S2P Require Import Beacon TxManager Contract CommitTree Oracle Updater Api.

(** ** Startup *)

Definition errChainID (dbChainID chainID : Z) : error :=
  EText ("chain ID mismatch: database=" +:+ pretty dbChainID +:+ ", RPC=" +:+ pretty chainID +:+
    " (use --fresh)").

Section system.
Context {HC : Crypto} {HA : SSVNetworkABI} {HB : ContractABI}.
Context {E : Type} `{!Runtime E, !ExecutionRPC E, !BeaconAPI E, !TxClient E, !ContractRPC E}.
Variable range : gmap bytes Z → list (bytes * Z).
Variable retryConfig : RetryConfig.
Variable ssvContract : bytes.
Variable contractClient : Client.
Variable schedule : CommitSchedule.
Variables syncFuel sendFuel : nat.

Abbreviation St := (Exec E World).

(** [chainID.Uint64()] keeps the low 64 bits. *)
Definition validateChainID : io St Z :=
  chainID ← wrapM "get chain ID" (on_env (Execution.GetChainID retryConfig));
  dbChainID ← wrapM "get chain ID from database" (on_data Storage.GetChainID);
  match dbChainID with
  | None =>
      _ ← wrapM "store chain ID" (on_data (SetChainID (wrapU 64 chainID)));
      mret chainID
  | Some stored =>
      if stored =? wrapU 64 chainID then mret chainID else fail (errChainID stored chainID)
  end.

(** With [--fresh] the database is cleared first. *)
Definition startup (freshStart : bool) : io St Z :=
  _ ← (if freshStart then wrapM "clear database" (on_data ClearAllState) else mret tt);
  validateChainID.

(** ** Services *)

(** The oracle starts after the initial synchronisation, and not when that fails. *)
Definition oracle_service (deployBlock : Z) (inputs : list input) : iof St Z :=
  _ ← wrapf "initial sync" (SyncToFinalized retryConfig ssvContract syncFuel deployBlock);
  Oracle.Run range retryConfig ssvContract contractClient schedule syncFuel sendFuel inputs.

Definition set_world (s : St) (u : Upd E) : Upd E := mkUpd s (lastProcessedBlock u).

(** One operation of a service. *)
Inductive sys_step : relation (Upd E) :=
  | step_sync deployBlock u r s :
      SyncToFinalized retryConfig ssvContract syncFuel deployBlock (world u) = Some (r, s) →
      sys_step u (set_world s u)
  | step_oracle cp target u r s :
      commit range retryConfig ssvContract contractClient syncFuel sendFuel cp target (world u) =
        Some (r, s) →
      sys_step u (set_world s u)
  | step_updater event u r u' :
      handleEvent retryConfig ssvContract contractClient syncFuel sendFuel event u = Some (r, u') →
      sys_step u u'
  | step_commit_request request u resp w :
      recoveryMiddleware (handleGetCommit request) (data (world u)) = (resp, w) →
      sys_step u (set_world (mkExec (batchSize (world u)) (env (world u)) w) u)
  | step_proof_request request u resp w :
      recoveryMiddleware (handleGetProof request) (data (world u)) = (resp, w) →
      sys_step u (set_world (mkExec (batchSize (world u)) (env (world u)) w) u)
  | step_outside e fs u :
      sys_step u (set_world (mkExec (batchSize (world u)) e
        (mkWorld (db (data (world u))) fs)) u).
End system.

(** ** Specification *)

(** The root of every stored commit is the root of its balances. *)
Definition rooted `{!Crypto} (d : DB) : Prop := ∀ epoch c,
  oracle_commits d !! epoch = Some c → ∃ t, has_tree (read_commit epoch c) t.

(** The operations of the services: those of the syncer, pending commits with the root of
    their balances, and status updates. *)
Definition service_op `{!Crypto} (o : op) : Prop :=
  match o with
  | OInsertPendingCommit _ root _ l => ∃ t, buildTree l = Ok t ∧ Root t = root
  | OUpdateCommitStatus _ _ _ => True
  | _ => sync_op (Forall (is_uint 64)) o
  end.

(** What any sequence of those keeps. *)
Record evolves `{!Crypto} (d d' : DB) : Prop := {
  ev_ok : db_ok d → db_ok d';
  ev_rooted : rooted d → rooted d';
  ev_commits : commits_le d d';
  ev_chain : chain_id d' = chain_id d;
}.

(** ** Lemmas *)

Section lemmas.
Context {HC : Crypto}.

#[export] Instance evolves_preorder : PreOrder evolves.
Proof.
  split; [by intros d; split|].
  intros d1 d2 d3 [H1 H2 H3 H4] [K1 K2 K3 K4]. split; [auto|auto|by etrans|congruence].
Qed.

Lemma rooted_same d d' : oracle_commits d' = oracle_commits d → rooted d → rooted d'.
Proof. unfold rooted. intros ->. done. Qed.

Lemma rooted_insert d epoch c :
  (∃ t, has_tree (read_commit epoch c) t) → rooted d →
  rooted (set_commits (<[epoch := c]> (oracle_commits d)) d).
Proof.
  intros Hc Hd e c' Hl. cbn in Hl. apply lookup_insert_Some in Hl as [[<- <-]|[_ Hl]]; [done|].
  by apply Hd.
Qed.

Lemma unmarshal_marshal l : unmarshal_balances (marshal_balances l) = l.
Proof. by destruct l. Qed.

Lemma service_op_rooted o : service_op o → keeps rooted (run_op o).
Proof.
  intros Ho. assert (∀ o', sync_op (Forall (is_uint 64)) o' → keeps rooted (run_op o')) as Hsync.
  { intros o' Ho' w. apply rooted_same. by apply (sync_op_keeps _ o' Ho' w). }
  destruct o; cbn [service_op] in Ho; try by apply Hsync.
  - destruct Ho as (t & Ht & Hr). apply moves_wrapM, moves_stmt; [apply _|].
    intros d a d' Hst Hd. cbv zeta in Hst. case_match; [by injection Hst as _ <-|].
    case_match; [done|]. injection Hst as _ <-. apply rooted_insert; [|done]. exists t.
    split; cbn; [by rewrite unmarshal_marshal|done].
  - apply moves_wrapM, moves_update; [apply _|]. intros d Hd. case_match eqn:Ec; [|done].
    destruct c as [root b bal [] h0]; try done. apply rooted_insert; [|done].
    destruct (Hd _ _ Ec) as [t Ht]. by exists t.
Qed.

Lemma service_op_chain o :
  service_op o → moves (λ d d', chain_id d' = chain_id d) (run_op o).
Proof.
  intros Ho. assert (∀ o', sync_op (Forall (is_uint 64)) o' →
    moves (λ d d', chain_id d' = chain_id d) (run_op o')) as Hsync.
  { intros o' Ho' w. by apply (sync_op_keeps _ o' Ho' w). }
  destruct o; cbn [service_op] in Ho; try by apply Hsync.
  - apply moves_wrapM, moves_stmt; [apply _|]. intros d a d' Hst. cbv zeta in Hst.
    repeat case_match; simplify_eq; done.
  - apply moves_wrapM, moves_update; [apply _|]. intros d. by repeat case_match.
Qed.

Lemma service_op_evolves o : service_op o → moves evolves (run_op o).
Proof.
  intros Ho w. split.
  - assert (op_ok o) as Hok by (by destruct o). exact (run_op_ok o Hok w).
  - by apply service_op_rooted.
  - assert (o ≠ OClearAllState) as Hne by (by intros ->). exact (run_op_commits o Hne w).
  - by apply service_op_chain.
Qed.

Lemma writes_evolves d d' : writes service_op d d' → evolves d d'.
Proof. apply writes_moves; [apply _|]. apply service_op_evolves. Qed.
End lemmas.

Section services.
Context {HC : Crypto} {HA : SSVNetworkABI} {HL : SSVNetworkABILaws} {HB : ContractABI}.
Context {E : Type} `{!Runtime E, !ExecutionRPC E, !BeaconAPI E, !TxClient E, !ContractRPC E}.
Variable range : gmap bytes Z → list (bytes * Z).
Variable retryConfig : RetryConfig.
Variable ssvContract : bytes.
Variable contractClient : Client.
Variables syncFuel sendFuel : nat.

#[local] Abbreviation by_services := (@db_rel E (writes service_op)).

Lemma sync_service_op o : sync_op (Forall (is_uint 64)) o → service_op o.
Proof. by destruct o. Qed.

Lemma logged_writes target st h :
  moves_io by_services (logged (UpdateCommitStatus target st h)).
Proof.
  unfold logged. apply moves_io_try; [apply _| |intros r; movesf_step].
  apply on_data_moves. by apply (writes_op _ (OUpdateCommitStatus target st h)).
Qed.

Lemma on_envf_writes {A} (m : iof E A) : movesf by_services (on_envf m).
Proof. intros s r s' H. apply zoomf_run in H as (e & _ & ->). unfold db_rel. done. Qed.

Lemma send_commit_writes target block root :
  movesf by_services (send_commit contractClient sendFuel target block root).
Proof.
  unfold send_commit, submit_root, handleCommitError. pose proof logged_writes.
  movesf_step; auto; try apply on_envf_writes; by apply on_env_moves; apply _.
Qed.

(** A commit stores the root of the balances it stores. *)
Lemma prepare_writes cp target :
  movesf by_services (prepare range retryConfig ssvContract syncFuel cp target).
Proof.
  unfold prepare. apply movesf_bind; [apply _| |intros _].
  { apply movesf_wrapf. eapply SyncToBlock_writes; [apply sync_service_op|apply parsed_ids]. }
  apply movesf_bind; [apply _| |intros vs].
  { apply movesf_run, moves_io_wrapM, on_data_moves. unfold GetActiveValidators. moves_step. }
  apply movesf_bind; [apply _| |intros _].
  { by apply movesf_run, moves_io_wrapM, on_env_moves; apply _. }
  apply movesf_bind; [apply _| |intros balances].
  { by apply movesf_run, moves_io_wrapM, on_env_moves; apply _. }
  eapply movesf_bind_ok with (P := λ t, buildTree balances = Ok t); [apply _| | |].
  - apply movesf_run, moves_io_lift; apply _.
  - intros st t st' Ht. apply run_inv, lift_Ok in Ht as [Ht _]. exact Ht.
  - intros t Ht. movesf_step. apply on_data_moves.
    apply (writes_op _ (OInsertPendingCommit target (Root t) (BlockNum cp) balances)). by exists t.
Qed.

Lemma commit_writes cp target :
  movesf by_services
    (commit range retryConfig ssvContract contractClient syncFuel sendFuel cp target).
Proof.
  unfold commit. apply movesf_bind; [apply _|apply prepare_writes|intros root].
  apply send_commit_writes.
Qed.

(** The updater and the handlers only read. *)
Lemma handleEvent_readonly event (u : Upd E) r u' :
  handleEvent retryConfig ssvContract contractClient syncFuel sendFuel event u = Some (r, u') →
  db (data (world u')) = db (data (world u)) ∧ lastProcessedBlock u <= lastProcessedBlock u'.
Proof.
  intros H. eapply (handleEvent_reads retryConfig ssvContract contractClient syncFuel sendFuel
    (λ _ _, True)) in H as [[Hd _] Hl]; [by split| |done|].
  - split; [by split|done..].
  - by intros commit _ owner ids cluster id balance proof _ _ s r0 s'.
Qed.

Lemma with_commit_readonly r k w resp w' :
  (∀ commit prev next w1 r1 w2, k commit prev next w1 = (r1, w2) → db w2 = db w1) →
  recoveryMiddleware (with_commit r k) w = (resp, w') → db w' = db w.
Proof.
  intros Hk H. unfold recoveryMiddleware, with_commit, try_ in H.
  destruct (resolveCommit r w) as [res w1] eqn:Er. apply resolveCommit_inv in Er as (Hd & _ & Hr).
  destruct res as [[[commit prev] next]|err|]; [|by injection H as _ <-|done].
  destruct (k commit prev next w1) as [r1 w2] eqn:Ek. apply Hk in Ek. rewrite <- Hd.
  by destruct r1; injection H as _ <-.
Qed.

Lemma handlers_readonly request w resp w' :
  recoveryMiddleware (handleGetProof request) w = (resp, w') ∨
  recoveryMiddleware (handleGetCommit request) w = (resp, w') → db w' = db w.
Proof.
  intros [H|H].
  - unfold handleGetProof in H. destruct (parseClusterID _); [|by injection H as _ <-..].
    apply with_commit_readonly in H; [done|]. intros commit _ _ w1 r1 w2 Hk.
    destruct (buildTree_Ok (ClusterBalances commit)) as [t Ht].
    unfold mbind, io_bind, lift in Hk. rewrite Ht in Hk. repeat case_match; by injection Hk as _ <-.
  - unfold handleGetCommit in H. apply with_commit_readonly in H; [done|].
    intros commit prev next w1 r1 w2 Hk. case_bool_decide; [|by injection Hk as _ <-].
    destruct (buildTree_Ok (ClusterBalances commit)) as [t Ht].
    unfold mbind, io_bind, lift in Hk. rewrite Ht in Hk. case_match; [by injection Hk as _ <-|].
    destruct (cluster_infos w1) as [ri w3] eqn:Ei. apply cluster_infos_inv in Ei as (Hd & _ & i & -> & _).
    destruct (balance_diff prev commit w3) as [rd w4] eqn:Eb.
    apply balance_diff_inv in Eb as (Hd2 & d & -> & _). injection Hk as _ <-. congruence.
Qed.

(** One operation of a service. *)
Lemma sys_step_evolves u u' :
  sys_step range retryConfig ssvContract contractClient syncFuel sendFuel u u' →
  evolves (db (data (world u))) (db (data (world u'))) ∧
  lastProcessedBlock u <= lastProcessedBlock u'.
Proof.
  intros [deployBlock v r s H|cp target v r s H|event v r v' H|request v resp w H|
    request v resp w H|e fs v].
  - split; [apply writes_evolves|done].
    eapply (SyncToFinalized_writes service_op) in H; [exact H|apply sync_service_op|apply parsed_ids].
  - split; [apply writes_evolves|done]. by apply commit_writes in H.
  - apply handleEvent_readonly in H as [-> ?]. by split.
  - split; [|done]. cbn. by rewrite (handlers_readonly request _ _ _ (or_intror H)).
  - split; [|done]. cbn. by rewrite (handlers_readonly request _ _ _ (or_introl H)).
  - by split.
Qed.
End services.

Lemma set_chain_id_same c d : chain_id d = c → d = set_chain_id c d.
Proof. intros <-. by destruct d. Qed.

Lemma validateChainID_inv {E} `{!Runtime E, !ExecutionRPC E} cfg (s : Exec E World) r s' :
  validateChainID cfg s = (r, s') →
  match r with
  | Ok id =>
      (∃ e e', Execution.GetChainID cfg e = (Ok id, e')) ∧
      (chain_id (db (data s)) = None ∨ chain_id (db (data s)) = Some (wrapU 64 id)) ∧
      db (data s') = set_chain_id (Some (wrapU 64 id)) (db (data s))
  | _ => db (data s') = db (data s)
  end.
Proof.
  intros H. unfold validateChainID, mbind, io_bind in H.
  destruct (wrapM _ (on_env _) s) as [ri s1] eqn:Ei. apply wrapM_inv in Ei as (r1 & Ei & Hi).
  apply zoom_run in Ei as (e1 & Ei & ->). destruct ri as [id|e|]; [|by injection H as <- <-..].
  rewrite (proj1 (Hi id) eq_refl) in Ei.
  destruct (wrapM _ (on_data Storage.GetChainID) _) as [rd s2] eqn:Ed.
  apply wrapM_inv in Ed as (r2 & Ed & Hdb). apply zoom_run in Ed as (w2 & Ed & ->).
  apply (reads_wrapM "get chain ID" _ _ (reads_query chain_id)) in Ed as (Hd2 & _ & Hr2).
  cbn [data] in Hd2, Hr2. destruct rd as [stored|e|]; [|by injection H as <- <-..].
  pose proof (proj1 (Hdb stored) eq_refl) as ->. destruct Hr2 as [[= ->]|(e & [=] & _)].
  destruct (chain_id (db (data s))) as [c|] eqn:Ec.
  - destruct (Z.eqb_spec c (wrapU 64 id)) as [->|]; injection H as <- <-; cbn [data]; rewrite Hd2;
      [|done].
    split; [eauto|]. split; [by right|]. by apply set_chain_id_same.
  - destruct (wrapM _ (on_data (SetChainID _)) _) as [rs s3] eqn:Es.
    apply wrapM_inv in Es as (r3 & Es & Hs3). apply zoom_run in Es as (w3 & Es & ->).
    apply wrapM_inv in Es as (r4 & Es & Hs4). apply update_inv in Es. cbn [data] in Es.
    rewrite Hd2 in Es. destruct rs as [[]|e|]; injection H as <- <-; cbn [data].
    + destruct Es as [[_ ->]|[Hne _]]; [|by destruct (Hne tt); apply Hs4, Hs3].
      split; [eauto|]. split; [by left|done].
    + destruct Es as [[-> _]|[_ ->]]; [|done].
      discriminate (proj2 (Hs3 tt) (proj2 (Hs4 tt) eq_refl)).
    + destruct Es as [[-> _]|[_ ->]]; [|done].
      discriminate (proj2 (Hs3 tt) (proj2 (Hs4 tt) eq_refl)).
Qed.

(** ** Properties *)

(** C2: in whatever order the services run, and however the node, the clock, the network
    and the database's faults change between and during their operations: a well-formed
    database stays so, every stored commit keeps the root of its stored balances as its
    root (so the check the updater and the API make of it cannot fail), no commit is removed
    or changes its root, block or balances, none changes its status once it is final, and
    neither the chain identifier nor the order of processed blocks is lost. *)
Theorem services_invariant {HC : Crypto} {HA : SSVNetworkABI} {HL : SSVNetworkABILaws}
    {HB : ContractABI}
    {E} `{!Runtime E, !ExecutionRPC E, !BeaconAPI E, !TxClient E, !ContractRPC E}
    range cfg addr client syncFuel sendFuel (u u' : Upd E) :
  rtc (sys_step range cfg addr client syncFuel sendFuel) u u' →
  db_ok (db (data (world u))) → rooted (db (data (world u))) →
  db_ok (db (data (world u'))) ∧ rooted (db (data (world u'))) ∧
  commits_le (db (data (world u))) (db (data (world u'))) ∧
  chain_id (db (data (world u'))) = chain_id (db (data (world u))) ∧
  lastProcessedBlock u <= lastProcessedBlock u'.
Proof.
  intros H Hok Hroot.
  assert (evolves (db (data (world u))) (db (data (world u'))) ∧
    lastProcessedBlock u <= lastProcessedBlock u') as [[H1 H2 H3 H4] H5]; [|by auto].
  clear Hok Hroot. induction H as [u|u1 u2 u3 Hs _ [IH1 IH2]]; [by split|].
  apply sys_step_evolves in Hs as [Hs1 Hs2]. split; [by etrans|lia].
Qed.

(** The services only start on the chain the database belongs to.  A successful start
    returns the node's chain identifier and leaves it stored: it was the stored one, or none
    was stored; with [--fresh] everything else was cleared, otherwise nothing else changed.
    A failed start changes nothing, except that it may have cleared the database on
    [--fresh]. *)
Theorem startup_chain {E} `{!Runtime E, !ExecutionRPC E} cfg freshStart (s : Exec E World) r s' :
  startup cfg freshStart s = (r, s') →
  let before := if freshStart then schema else db (data s) in
  match r with
  | Ok id =>
      (∃ e e', Execution.GetChainID cfg e = (Ok id, e')) ∧
      (chain_id before = None ∨ chain_id before = Some (wrapU 64 id)) ∧
      db (data s') = set_chain_id (Some (wrapU 64 id)) before
  | _ => db (data s') = db (data s) ∨ db (data s') = before
  end.
Proof.
  intros H. cbv zeta. unfold startup, mbind, io_bind in H.
  assert (∃ r0 s0, (if freshStart then wrapM "clear database" (on_data ClearAllState) else mret tt) s =
    (r0, s0) ∧ ((r0 = Ok tt ∧ db (data s0) = if freshStart then schema else db (data s)) ∨
                (∀ a, r0 ≠ Ok a) ∧ db (data s0) = db (data s))) as (r0 & s0 & E0 & Hc).
  { destruct freshStart; [|by exists (Ok tt), s; auto].
    destruct (wrapM _ _ s) as [r0 s0] eqn:E0. exists r0, s0. split; [done|].
    apply wrapM_inv in E0 as (r1 & E1 & Hr). apply zoom_run in E1 as (w & E1 & ->).
    apply ClearAllState_cases in E1 as [[-> Hd]|[Hne Hd]]; [left; split; [by apply Hr|done]|right].
    split; [|done]. intros a ->. by destruct (Hne a); apply Hr. }
  rewrite E0 in H. destruct Hc as [[-> Hd]|[Hne Hd]].
  - rewrite <- Hd. by apply validateChainID_inv in H as Hv; destruct r; auto.
  - destruct r0 as [a|e|]; [by destruct (Hne a)|injection H as <- <-; by left..].
Qed.

(** ** Witnesses *)

#[local] Existing Instance TxManager.toy_runtime.
#[local] Existing Instance TxManager.toy_client.
#[local] Existing Instance Oracle.toy_execution.
#[local] Existing Instance Oracle.toy_beacon.
#[local] Existing Instance Oracle.toy_contract_rpc.
#[local] Existing Instance Contract.toy_contract_abi.

(** The example database without its commit, on no chain yet. *)
Definition system_db : DB := set_commits ∅ example_db.

Lemma system_db_ok : db_ok system_db.
Proof. destruct example_db_ok as [H1 H2 _]. by split. Qed.

Lemma system_rooted : rooted system_db.
Proof. intros epoch c Hc. cbn in Hc. by rewrite lookup_empty in Hc. Qed.

Definition system_start : Upd toy :=
  mkUpd (mkExec (NewAdaptiveBatchSize 0 0) (mkToy 0 []) (mkWorld system_db [])) 0.

(** The oracle commits, the API serves a proof, the updater handles an event. *)
Abbreviation system_commit := (commit map_to_list DefaultRetryConfig [] Oracle.toy_contract 5 13
  Oracle.toy_checkpoint 900 (world system_start)).

Definition system_committed : Upd toy :=
  match system_commit with Some (_, s) => set_world s system_start | None => system_start end.

Definition system_event : RootCommittedEvent := mkRootCommitted (be_bytes 32 11) 121 [].

Abbreviation system_handle := (handleEvent DefaultRetryConfig [] Oracle.toy_contract 5 13
  system_event system_committed).

Definition system_end : Upd toy :=
  match system_handle with Some (_, u) => u | None => system_committed end.

Lemma system_run :
  rtc (sys_step map_to_list DefaultRetryConfig [] Oracle.toy_contract 5 13) system_start system_end.
Proof.
  apply (rtc_l _ _ system_committed); [|apply rtc_once].
  - unfold system_committed.
    assert (match system_commit with Some _ => true | None => false end = true) as Ht
      by (vm_compute; reflexivity).
    destruct system_commit as [[r s]|] eqn:Hc; [|done]. by eapply step_oracle.
  - unfold system_end.
    assert (match system_handle with Some _ => true | None => false end = true) as Ht
      by (vm_compute; reflexivity).
    destruct system_handle as [[r s]|] eqn:Hc; [|done]. by eapply step_updater.
Qed.

(** The commit is there at the end. *)
Example system_end_commit : is_Some (oracle_commits (db (data (world system_end))) !! 900).
Proof. apply (bool_decide_unpack _). vm_compute. exact I. Qed.

Lemma services_invariant_witness :
  db_ok (db (data (world system_end))) ∧ rooted (db (data (world system_end))) ∧
  commits_le system_db (db (data (world system_end))) ∧
  chain_id (db (data (world system_end))) = chain_id system_db ∧
  0 <= lastProcessedBlock system_end.
Proof.
  apply (services_invariant map_to_list DefaultRetryConfig [] Oracle.toy_contract 5 13 system_start
    system_end system_run system_db_ok system_rooted).
Defined.

Definition system_startup : result Z * Exec toy World :=
  startup DefaultRetryConfig true (world system_start).

Lemma startup_chain_witness :
  (∃ e e', Execution.GetChainID DefaultRetryConfig e = (Ok 1, e')) ∧
  (chain_id schema = None ∨ chain_id schema = Some (wrapU 64 1)) ∧
  db (data system_startup.2) = set_chain_id (Some (wrapU 64 1)) schema.
Proof.
  apply (startup_chain (E:=toy) DefaultRetryConfig true (world system_start) (Ok 1)
    system_startup.2). vm_compute. reflexivity.
Defined.
