(* ===== verification/Progress.v ===== *)
(** * Progress: the operations of the services return

    Every operation of the services returns, from every state they can reach together: the
    initial synchronisation, a commit, a snapshot of the head, an event of the updater.  That
    rests on two hypotheses: the node does not refuse for ever, so that an iteration of a fetch
    advances or uses up a refusal, and the chain grows while a transaction is waited for. *)

From S2P Require Import Prelude Merkle Schedule Storage Retry Execution Events Syncer Writes.
From S2P Require Import Beacon TxManager Contract CommitTree Oracle Updater Api System.

#[local] Open Scope go_scope.

(** ** Specification *)

(** What the rest of the world must do for that: a valid fee policy; every [N] polls of a wait
    bring the blocks it lasts; the node refuses at most [failures] requests for logs in a row
    (with [Exhausting]); and no block it reports is after [top].  Without these the operations
    may run for ever: a fetch that is refused for ever retries for ever. *)
Record live {E} `{!Runtime E, !ExecutionRPC E, !TxClient E} (policy : TxPolicy)
    (clock : E → nat) (height : nat → Z) (N : nat) (pending : E → nat) (failures : nat) (top : Z)
    : Prop := {
  lv_policy : TxManager.Validate policy = Ok tt;
  lv_clock : clocked clock height;
  lv_height : progressing policy height N;
  lv_failures e : (pending e <= failures)%nat;
  lv_top number e n e' : HeaderByNumber number e = (Ok n, e') → wrapU 64 n <= top;
}.

(** What every operation keeps of the batch sizes: bounds that are usable stay so, with the
    same maximum. *)
Definition fits : relation AdaptiveBatchSize := λ a b,
  batch_wf a → batch_wf b ∧ bmax b = bmax a.

#[export] Instance fits_preorder : PreOrder fits.
Proof.
  split; [by intros a|]. intros a b c Hab Hbc Ha. destruct (Hab Ha) as [Hb Hm].
  destruct (Hbc Hb) as [Hc Hm']. split; [done|congruence].
Qed.

(** The fuel of a synchronisation and of a snapshot: [failures + 1] iterations per block. *)
Definition enough (top : Z) (failures syncFuel : nat) : Prop :=
  (Z.to_nat (top + 1) * S failures + failures <= syncFuel)%nat.

(** ** Lemmas: batch sizes *)

Definition keeps_fit {E D} : relation (Exec E D) := λ s s', fits (batchSize s) (batchSize s').

#[export] Instance keeps_fit_preorder {E D} : PreOrder (@keeps_fit E D).
Proof. split; [by intros s|]. intros s1 s2 s3. unfold keeps_fit. apply transitivity. Qed.

Lemma on_env_fit {E D A} (m : io E A) : moves_io (@keeps_fit E D) (on_env m).
Proof. intros s. unfold on_env, zoom. by destruct (m (env s)). Qed.

Lemma on_data_fit {E D A} (m : io D A) : moves_io (@keeps_fit E D) (on_data m).
Proof. intros s. unfold on_data, zoom. by destruct (m (data s)). Qed.

Lemma on_envf_fit {E D A} (m : iof E A) : movesf (@keeps_fit E D) (on_envf m).
Proof. intros s r s' H. by apply zoomf_run in H as (e & _ & ->). Qed.

Lemma check_ctx_fit {E D} `{!Runtime E} : moves_io (@keeps_fit E D) check_ctx.
Proof. intros s. unfold check_ctx. by destruct (ctx_Err (env s)). Qed.

#[local] Hint Resolve on_env_fit on_data_fit on_envf_fit check_ctx_fit : oracle.

Lemma Decrease_fit a : fits a (Decrease a).
Proof. intros H. by destruct (Decrease_wf a H) as (? & _ & _ & ?). Qed.

Lemma Increase_fit a : fits a (Increase a).
Proof. intros H. by destruct (Increase_wf a H) as (? & _ & _ & ?). Qed.

(** Split code into its calls and apply what is known of each. *)
Ltac fit_step := repeat first [progress movesf_step | done | solve [eauto with oracle]].

Section fetch_fit.
Context {E D : Type} `{!Runtime E, !ExecutionRPC E} (retryConfig : RetryConfig).
Context (address : bytes) (topics : list bytes) (toBlock : Z).
Variable callback : Z → list BlockLogs → io D unit.

Lemma FetchLogs_body_fit cur :
  moves_io (@keeps_fit E D) (FetchLogs_body retryConfig address toBlock topics callback cur).
Proof.
  intros s. unfold FetchLogs_body. cbv zeta.
  generalize (batch_end toBlock cur (current (batchSize s))). intros batchEnd.
  set (body := try_ _ _). assert (moves_io (@keeps_fit E D) body) as Hbody; [|apply Hbody].
  unfold body. fit_step; intros s0; [apply Increase_fit|apply Decrease_fit].
Qed.

Lemma FetchLogs_fit fuel from :
  movesf (@keeps_fit E D) (FetchLogs retryConfig fuel address from toBlock topics callback).
Proof.
  intros s r s'. unfold FetchLogs. revert from s.
  induction fuel as [|f IH]; intros cur s; cbn [FetchLogs_loop];
    (case_match; [|by intros [= _ <-]]); [done|].
  pose proof (FetchLogs_body_fit cur s) as Hb.
  destruct (FetchLogs_body _ _ _ _ _ _ s) as [[next|x|] s1]; [|by intros [= _ <-]..].
  intros Hl. etrans; [exact Hb|by eapply IH].
Qed.
End fetch_fit.

Section services_fit.
Context {HC : Crypto} {HA : SSVNetworkABI} {HB : ContractABI}.
Context {E : Type} `{!Runtime E, !ExecutionRPC E, !BeaconAPI E, !TxClient E, !ContractRPC E}.
Variable range : gmap bytes Z → list (bytes * Z).
Variable cfg : RetryConfig.
Variable addr : bytes.
Variable client : Client.
Variables syncFuel sendFuel : nat.

Abbreviation St := (Exec E World).

Lemma syncBlocks_fit last target : movesf (@keeps_fit E World) (syncBlocks cfg addr syncFuel last target).
Proof.
  intros s r s'. unfold syncBlocks, runFetcher.
  destruct EventTopics as [topics|e|]; [|by intros [= _ <-]..].
  destruct (FetchLogs _ _ _ _ _ _ _ _) as [[rf sf]|] eqn:Hf; [|done].
  apply FetchLogs_fit in Hf. unfold keeps_fit in *. cbn [batchSize] in Hf.
  assert (∀ l, moves_io (@keeps_fit E World) (_ ← on_data (process_batches l); check_ctx)) as Hp
    by (intros l; fit_step).
  destruct rf as [u|e|]; [..|by intros [= _ <-]]; intros H%Some_inj; etrans; try exact Hf.
  - specialize (Hp (data sf) (mkExec (batchSize sf) (env sf) (data s))). by rewrite H in Hp.
  - specialize (Hp (data sf ++ [batch_err e]) (mkExec (batchSize sf) (env sf) (data s))).
    by rewrite H in Hp.
Qed.

Lemma SyncToBlock_fit target : movesf (@keeps_fit E World) (SyncToBlock cfg addr syncFuel target).
Proof.
  intros s r s'. unfold SyncToBlock.
  pose proof (on_data_fit (wrapM "get last synced block" GetLastSyncedBlock) s) as H1.
  destruct (on_data _ s) as [[last|e|] s1]; [|by intros [= _ <-]..].
  case_match; [by intros [= _ <-]|].
  intros (s2 & s3 & Hs & [Hb2 _ _] & [Hb3 _ _])%in_sync_mode_inv. apply syncBlocks_fit in Hs.
  unfold keeps_fit in *. cbn [snd] in H1. rewrite Hb3. rewrite Hb2 in Hs. by etrans.
Qed.

Lemma SyncToFinalized_fit deploy :
  movesf (@keeps_fit E World) (SyncToFinalized cfg addr syncFuel deploy).
Proof.
  intros s r s'. unfold SyncToFinalized. cbv zeta.
  match goal with |- match ?m s with _ => _ end = _ → _ =>
    assert (moves_io (@keeps_fit E World) m) as Hs by fit_step;
    specialize (Hs s); destruct (m s) as [[fin|e|] s1] end; [|by intros [= _ <-]..].
  intros H%SyncToBlock_fit. by etrans.
Qed.

Lemma commit_fit cp target :
  movesf (@keeps_fit E World) (commit range cfg addr client syncFuel sendFuel cp target).
Proof.
  pose proof SyncToBlock_fit. unfold commit, prepare, send_commit, submit_root, handleCommitError,
    logged. fit_step.
Qed.

Lemma processCluster_fit blockNum leaf tree lookup :
  (∀ id, moves_io (@keeps_fit E World) (lookup id)) →
  movesf (@keeps_fit E World) (processCluster client sendFuel blockNum leaf tree lookup).
Proof. intros Hl. unfold processCluster. fit_step. Qed.

#[local] Hint Resolve processCluster_fit : oracle.

Lemma unless_ctx_fit {A} (stop : A) (k : iof St A) :
  movesf (@keeps_fit E World) k → movesf (@keeps_fit E World) (unless_ctx stop k).
Proof. intros Hk s r s'. unfold unless_ctx. destruct (ctx_Err (env s)); [by intros [= _ <-]|apply Hk]. Qed.

Lemma process_leaves_fit blockNum tree lookup ls stats stale :
  (∀ id, moves_io (@keeps_fit E World) (lookup id)) →
  movesf (@keeps_fit E World) (process_leaves client sendFuel blockNum tree lookup ls stats stale).
Proof.
  intros Hl. revert stats stale. induction ls as [|leaf ls IH]; intros stats stale;
    cbn [process_leaves]; [fit_step|]. apply unless_ctx_fit. fit_step.
Qed.

Lemma retry_stale_fit blockNum tree lookup ls stats :
  (∀ id, moves_io (@keeps_fit E World) (lookup id)) →
  movesf (@keeps_fit E World) (retry_stale client sendFuel blockNum tree lookup ls stats).
Proof.
  intros Hl. revert stats. induction ls as [|leaf ls IH]; intros stats;
    cbn [retry_stale]; [fit_step|]. apply unless_ctx_fit. fit_step.
Qed.

Lemma snapshot_start_fit ids : moves_io (@keeps_fit E World) (snapshot_start cfg ids).
Proof. unfold snapshot_start. fit_step. Qed.

Lemma BuildHeadStateSnapshot_fit ids :
  movesf (@keeps_fit E World) (BuildHeadStateSnapshot cfg addr syncFuel ids).
Proof.
  intros s r s'. unfold BuildHeadStateSnapshot. pose proof (snapshot_start_fit ids s) as H1.
  destruct (snapshot_start cfg ids s) as [[[[fin last] head]|e|] s1]; [|by intros [= _ <-]..].
  case_match; [by intros [= _ <-]|]. destruct EventTopics; [|by intros [= _ <-]..].
  destruct (FetchLogs _ _ _ _ _ _ _ _) as [[rf sf]|] eqn:Hf; [|done].
  apply FetchLogs_fit in Hf. intros [= _ <-]. unfold keeps_fit in *. cbn in *. by etrans.
Qed.

Lemma storageLookup_fit id : moves_io (@keeps_fit E World) (storageLookup id).
Proof. apply on_data_fit. Qed.

Lemma overlayLookup_fit o id : moves_io (@keeps_fit E World) (overlayLookup o id).
Proof. unfold overlayLookup. fit_step. Qed.

Lemma processCommit_fit commit :
  movesf (@keeps_fit E World) (processCommit cfg addr client syncFuel sendFuel commit).
Proof.
  pose proof BuildHeadStateSnapshot_fit. pose proof storageLookup_fit. pose proof overlayLookup_fit.
  unfold processCommit, processAllClusters. fit_step; (apply process_leaves_fit || apply retry_stale_fit);
    auto.
Qed.

(** One operation of any service. *)
Lemma sys_step_fit u u' :
  sys_step range cfg addr client syncFuel sendFuel u u' → keeps_fit (world u) (world u').
Proof.
  assert (∀ event, movesf (λ v v', keeps_fit (world v) (world v'))
    (handleEvent cfg addr client syncFuel sendFuel event)) as Hev.
  { assert (PreOrder (λ v v' : Upd E, keeps_fit (world v) (world v'))) as HP
      by (split; [by intros v|intros v1 v2 v3; apply transitivity]).
    assert (∀ A (m : iof St A) k, movesf (@keeps_fit E World) m →
      (∀ a, movesf (λ v v', keeps_fit (world v) (world v')) (k a)) →
      movesf (λ v v', keeps_fit (world v) (world v')) (or_return m k)) as Hor.
    { intros A m k Hm Hk. unfold or_return. apply movesf_tryf; [done| |].
      - intros v r v' Hv. apply zoomf_run in Hv as (s & Hs & ->). by eapply Hm.
      - intros [a|e|]; [apply Hk|by intros v r v' [= _ <-]..]. }
    intros event v r v'. unfold handleEvent. case_match; [by intros [= _ <-]|].
    apply Hor; [unfold lookup_commit; fit_step|intros [commit|]; [|by intros v0 r0 v0' [= _ <-]]].
    case_match; [by intros v0 r0 v0' [= _ <-]|]. apply Hor; [apply processCommit_fit|].
    intros _ v0 r0 v0' [= _ <-]. done. }
  intros [deploy v r s H|cp target v r s H|event v r v' H|request v resp w H|request v resp w H|
    e fs v]; cbn; [by apply SyncToFinalized_fit in H|by apply commit_fit in H|by apply Hev in H|done..].
Qed.
End services_fit.

(** ** Lemmas: operations return *)

Section returns.
Context {HC : Crypto} {HA : SSVNetworkABI} {HB : ContractABI}.
Context {E : Type} `{!Runtime E, !ExecutionRPC E, !BeaconAPI E, !TxClient E, !ContractRPC E}.
Variable range : gmap bytes Z → list (bytes * Z).
Variable cfg : RetryConfig.
Variable addr : bytes.
Variable client : Client.
Variables syncFuel sendFuel : nat.
Variables (clock : E → nat) (height : nat → Z) (N : nat) (pending : E → nat) (failures : nat).
Variable top : Z.
Context `{!Exhausting E pending failures}.
Hypothesis Hlive : live (c_policy client) clock height N pending failures top.
Hypothesis Hsend : (N + 3 <= sendFuel)%nat.
Hypothesis Hsync : enough top failures syncFuel.

Abbreviation St := (Exec E World).

(** The states operations start from. *)
Definition usable (s : St) : Prop :=
  batch_wf (batchSize s) ∧ top + bmax (batchSize s) < 2 ^ 64.

Definition returns {A} (m : iof St A) : Prop := ∀ s, usable s → is_Some (m s).

Lemma usable_fit s s' : keeps_fit s s' → usable s → usable s'.
Proof. intros Hf [Hwf Ht]. destruct (Hf Hwf) as [Hwf' Hm]. split; [done|by rewrite Hm]. Qed.

Lemma returns_total {A} (m : iof St A) : total m → returns m.
Proof. intros Hm s _. apply Hm. Qed.

Lemma returns_bind {A B} (m : iof St A) (k : A → iof St B) :
  movesf (@keeps_fit E World) m → returns m → (∀ a, returns (k a)) → returns (m ≫= k).
Proof.
  intros Hf Hm Hk s Hs. unfold mbind, iof_bind. destruct (Hm s Hs) as [[r s1] E1]. rewrite E1.
  destruct r; [|by eexists..]. eapply Hk, usable_fit; [by eapply Hf|done].
Qed.

Lemma returns_tryf {A B} (m : iof St A) (k : result A → iof St B) :
  movesf (@keeps_fit E World) m → returns m → (∀ r, returns (k r)) → returns (tryf m k).
Proof.
  intros Hf Hm Hk s Hs. unfold tryf. destruct (Hm s Hs) as [[r s1] E1]. rewrite E1.
  eapply Hk, usable_fit; [by eapply Hf|done].
Qed.

Lemma fetch_returns {D} topics from to (callback : Z → list BlockLogs → io D unit) (s : Exec E D) :
  batch_wf (batchSize s) → top + bmax (batchSize s) < 2 ^ 64 → 0 <= from → to <= top →
  is_Some (FetchLogs cfg syncFuel addr from to topics callback s).
Proof.
  intros Hwf Ht Hfrom Hto. apply (FetchLogs_loop_total pending failures); [done|done|lia|].
  pose proof (lv_failures _ _ _ _ _ _ _ Hlive (env s)). unfold enough in Hsync.
  assert (Z.to_nat (to + 1 - from) <= Z.to_nat (top + 1))%nat by lia. nia.
Qed.

Lemma syncBlocks_returns last target :
  target <= top → returns (syncBlocks cfg addr syncFuel last target).
Proof.
  intros Ht s [Hwf Hb]. unfold syncBlocks, runFetcher.
  destruct EventTopics as [topics|e|]; [|by eexists..].
  destruct (fetch_returns topics (last +u64 1) target send_batch (mkExec (batchSize s) (env s) []))
    as [[rf sf] ->]; [done|done|by apply wrapU_bound|done|]. by destruct rf; eexists.
Qed.

Lemma SyncToBlock_returns target : target <= top → returns (SyncToBlock cfg addr syncFuel target).
Proof.
  intros Ht s Hs. unfold SyncToBlock.
  pose proof (on_data_fit (wrapM "get last synced block" GetLastSyncedBlock) s) as Hf.
  destruct (on_data _ s) as [[last|e|] s1]; [|by eexists..]. case_match; [by eexists|].
  apply in_sync_mode_total. intros s2 [Hb2 _ _]. apply syncBlocks_returns; [done|].
  eapply usable_fit, Hs. unfold keeps_fit in *. by rewrite Hb2.
Qed.

Lemma GetFinalizedBlock_top e n e' : GetFinalizedBlock cfg e = (Ok n, e') → n <= top.
Proof.
  unfold GetFinalizedBlock. intros H. apply bind_io_Ok in H as (n0 & e1 & H & Hn).
  apply wrapM_Ok, WithRetry_Ok in H as (e2 & Hh). injection Hn as <- _. by eapply lv_top.
Qed.

Lemma GetHeadBlock_top e n e' : GetHeadBlock cfg e = (Ok n, e') → n <= top.
Proof.
  unfold GetHeadBlock. intros H. apply bind_io_Ok in H as (n0 & e1 & H & Hn).
  apply wrapM_Ok, WithRetry_Ok in H as (e2 & Hh). injection Hn as <- _. by eapply lv_top.
Qed.

Lemma SyncToFinalized_returns deploy : returns (SyncToFinalized cfg addr syncFuel deploy).
Proof.
  intros s Hs. unfold SyncToFinalized. cbv zeta.
  match goal with |- is_Some (match ?m s with _ => _ end) =>
    assert (moves_io (@keeps_fit E World) m) as Hf by fit_step; specialize (Hf s);
    destruct (m s) as [[fin|e|] s1] eqn:Hm end; [|by eexists..].
  apply SyncToBlock_returns; [|by eapply usable_fit].
  apply bind_io_Ok in Hm as (last & s2 & _ & Hm). apply bind_io_Ok in Hm as ([] & s3 & _ & Hm).
  apply zoom_run in Hm as (e & Hm%wrapM_Ok & _). by eapply GetFinalizedBlock_top.
Qed.

Lemma commit_returns cp target :
  BlockNum cp <= top → returns (commit range cfg addr client syncFuel sendFuel cp target).
Proof.
  intros Hcp. unfold commit. apply returns_bind.
  - pose proof SyncToBlock_fit. unfold prepare. fit_step.
  - unfold prepare. apply returns_bind; [|intros s Hs|intros _; apply returns_total].
    + apply movesf_wrapf, SyncToBlock_fit.
    + unfold wrapf. destruct (SyncToBlock_returns (BlockNum cp) Hcp s Hs) as [[r s1] ->]. done.
    + repeat (apply total_bind; [apply total_run|intros ?]). apply total_ret.
  - intros root. apply returns_total. eapply send_commit_total; [..|exact Hsend];
      [apply (lv_policy _ _ _ _ _ _ _ Hlive)|apply (lv_clock _ _ _ _ _ _ _ Hlive)|
       apply (lv_height _ _ _ _ _ _ _ Hlive)].
Qed.

Lemma processCluster_total blockNum leaf tree lookup :
  total (processCluster client sendFuel blockNum leaf tree lookup).
Proof.
  unfold processCluster. apply total_bind; [apply total_run|intros [cluster|]; [|apply total_ret]].
  apply total_bind; [apply total_run|intros proof]. cbv zeta.
  apply total_bind; [apply total_run|intros bal]. case_match; [apply total_ret|].
  apply total_tryf; [|intros [[receipt [err|]]|err|]; apply total_run].
  apply on_envf_total, total_bind; [apply total_run|intros data].
  eapply submit_total; [..|exact Hsend]; [apply (lv_policy _ _ _ _ _ _ _ Hlive)|
    apply (lv_clock _ _ _ _ _ _ _ Hlive)|apply (lv_height _ _ _ _ _ _ _ Hlive)].
Qed.

Lemma unless_ctx_total {A} (stop : A) (k : iof St A) : total k → total (unless_ctx stop k).
Proof. intros Hk s. unfold unless_ctx. destruct (ctx_Err (env s)); [by eexists|apply Hk]. Qed.

Lemma process_leaves_total blockNum tree lookup ls stats stale :
  total (process_leaves client sendFuel blockNum tree lookup ls stats stale).
Proof.
  revert stats stale. induction ls as [|leaf ls IH]; intros stats stale; cbn [process_leaves];
    [apply total_ret|]. apply unless_ctx_total, total_tryf; [apply processCluster_total|].
  intros [ok|err|]; [apply IH| |apply total_run].
  destruct (IsRevertError err) as [[reason b]|]; [|apply IH].
  destruct (classify_revert reason); [apply IH|apply total_ret|apply IH].
Qed.

Lemma retry_stale_total blockNum tree lookup ls stats :
  total (retry_stale client sendFuel blockNum tree lookup ls stats).
Proof.
  revert stats. induction ls as [|leaf ls IH]; intros stats; cbn [retry_stale]; [apply total_ret|].
  apply unless_ctx_total, total_tryf; [apply processCluster_total|].
  intros [ok|err|]; [apply IH|apply IH|apply total_run].
Qed.

Lemma BuildHeadStateSnapshot_returns ids : returns (BuildHeadStateSnapshot cfg addr syncFuel ids).
Proof.
  intros s Hs. unfold BuildHeadStateSnapshot. pose proof (snapshot_start_fit cfg ids s) as Hf.
  destruct (snapshot_start cfg ids s) as [[[[fin last] head]|e|] s1] eqn:Hm; [|by eexists..].
  case_match; [by eexists|]. destruct EventTopics as [topics| |]; [|by eexists..].
  apply bind_io_Ok in Hm as (p & s2 & _ & Hm). apply bind_io_Ok in Hm as (h & s3 & Hh & Hm).
  injection Hm as _ _ -> _. apply zoom_run in Hh as (e & Hh%wrapM_Ok & _).
  apply GetHeadBlock_top in Hh. destruct (usable_fit _ _ Hf Hs) as [Hwf Ht].
  match goal with |- is_Some (match ?m with _ => _ end) => assert (is_Some m) as [[rf sf] ->] end;
    [|done].
  apply fetch_returns; [done|done|by apply wrapU_bound|done].
Qed.

Lemma processCommit_returns commit : returns (processCommit cfg addr client syncFuel sendFuel commit).
Proof.
  unfold processCommit. destruct (ClusterBalances commit) as [|b bs]; [by intros s _; eexists|].
  apply returns_bind; [fit_step|apply returns_total, total_run|intros tree].
  case_match; [by intros s _; eexists|]. unfold processAllClusters. apply returns_bind;
    [apply process_leaves_fit, storageLookup_fit|apply returns_total, process_leaves_total|].
  intros [stats [|l ls]]; [by intros s _; eexists|].
  apply returns_tryf; [apply BuildHeadStateSnapshot_fit|apply BuildHeadStateSnapshot_returns|].
  intros [o|err|]; [apply returns_total, retry_stale_total|by intros s _; eexists..].
Qed.

Lemma or_return_returns {A} (m : iof St A) (k : A → iof (Upd E) unit) u :
  movesf (@keeps_fit E World) m → returns m → usable (world u) →
  (∀ a u', usable (world u') → is_Some (k a u')) → is_Some (or_return m k u).
Proof.
  intros Hf Hm Hu Hk. unfold or_return, tryf, on_world, zoomf.
  destruct (Hm (world u) Hu) as [[r s] E1]. rewrite E1.
  destruct r; [|by eexists..]. apply Hk. eapply usable_fit; [by eapply Hf|done].
Qed.

Lemma handleEvent_returns event (u : Upd E) :
  usable (world u) → is_Some (handleEvent cfg addr client syncFuel sendFuel event u).
Proof.
  intros Hu. unfold handleEvent. case_match; [by eexists|].
  apply or_return_returns; [unfold lookup_commit; fit_step| |done|].
  - apply returns_total. unfold lookup_commit.
    apply total_bind; [apply total_run|intros [commit|]; [apply total_ret|]].
    apply total_bind; [apply total_run|intros _; apply total_run].
  - intros [commit|] u' Hu'; [|by eexists]. case_match; [by eexists|].
    apply or_return_returns; [apply processCommit_fit|apply processCommit_returns|done|].
    by intros _ u2 _; eexists.
Qed.
End returns.

(** ** Properties *)

(** C11: no operation of the services hangs while the nodes make progress.  In every state the
    services reach together, the initial synchronisation, a commit at a checkpoint, a snapshot
    of the chain's head and an event of the updater return, whatever else the nodes, the
    database, the relays and the signer answer, under the hypotheses of [live] and
    [Exhausting]: the node refuses at most [failures] requests for logs in a row, it reports
    no block after [top] (nor does the checkpoint), every [N] polls of a wait bring the blocks
    the wait lasts, and the fee policy is valid.  The fuel is [failures + 1] iterations per
    block in a fetch, and [N + 3] polls for a transaction. *)
Theorem services_return {HC : Crypto} {HA : SSVNetworkABI} {HB : ContractABI} {E}
    `{!Runtime E, !ExecutionRPC E, !BeaconAPI E, !TxClient E, !ContractRPC E}
    range cfg addr client syncFuel sendFuel (clock : E → nat) height N pending
    failures `{!Exhausting E pending failures} top (u u' : Upd E) :
  live (c_policy client) clock height N pending failures top →
  (N + 3 <= sendFuel)%nat → enough top failures syncFuel →
  batch_wf (batchSize (world u)) → top + bmax (batchSize (world u)) < 2 ^ 64 →
  rtc (sys_step range cfg addr client syncFuel sendFuel) u u' →
  (∀ deploy, is_Some (SyncToFinalized cfg addr syncFuel deploy (world u'))) ∧
  (∀ cp target, BlockNum cp <= top →
     is_Some (commit range cfg addr client syncFuel sendFuel cp target (world u'))) ∧
  (∀ ids, is_Some (BuildHeadStateSnapshot cfg addr syncFuel ids (world u'))) ∧
  (∀ event, is_Some (handleEvent cfg addr client syncFuel sendFuel event u')).
Proof.
  intros Hlive Hsend Hsync Hwf Ht Hrtc.
  assert (usable top (world u')) as Hu.
  { assert (keeps_fit (world u) (world u')) as Hf; [|by eapply usable_fit].
    clear Hwf Ht. induction Hrtc as [v|v1 v2 v3 Hs _ IH]; [done|].
    etrans; [by eapply sys_step_fit|done]. }
  split; [|split; [|split]].
  - intros deploy. by eapply SyncToFinalized_returns.
  - intros cp target Hcp. by eapply commit_returns.
  - intros ids. by eapply BuildHeadStateSnapshot_returns.
  - intros event. by eapply handleEvent_returns.
Qed.

(** ** Witnesses *)

#[local] Existing Instance TxManager.toy_runtime.
#[local] Existing Instance TxManager.toy_client.
#[local] Existing Instance Oracle.toy_execution.
#[local] Existing Instance Oracle.toy_beacon.
#[local] Existing Instance Oracle.toy_contract_rpc.
#[local] Existing Instance Contract.toy_contract_abi.
#[local] Existing Instance Oracle.toy_exhausting.

(** After a commit of the oracle; the node's last block is 120. *)
Abbreviation progress_commit := (commit map_to_list DefaultRetryConfig [] Oracle.toy_contract 121 13
  Oracle.toy_checkpoint 900 (world system_start)).

Definition progress_state : Upd toy :=
  match progress_commit with Some (_, s) => set_world s system_start | None => system_start end.

Lemma progress_run :
  rtc (sys_step map_to_list DefaultRetryConfig [] Oracle.toy_contract 121 13) system_start
    progress_state.
Proof.
  apply rtc_once. unfold progress_state.
  assert (match progress_commit with Some _ => true | None => false end = true) as Ht
    by (vm_compute; reflexivity).
  destruct progress_commit as [[r s]|] eqn:Hc; [|done]. by eapply step_oracle.
Qed.

Lemma toy_live : live (E:=toy) toy_policy ticks toy_height 10 (λ _, O) 0 120.
Proof.
  split; [reflexivity|exact toy_clocked|exact toy_progressing|done|].
  intros number e n e' [= <- _]. by vm_compute.
Qed.

Lemma services_return_witness :
  (∀ deploy, is_Some (SyncToFinalized DefaultRetryConfig [] 121 deploy (world progress_state))) ∧
  (∀ cp target, BlockNum cp <= 120 →
     is_Some (commit map_to_list DefaultRetryConfig [] Oracle.toy_contract 121 13 cp target
       (world progress_state))) ∧
  (∀ ids, is_Some (BuildHeadStateSnapshot DefaultRetryConfig [] 121 ids (world progress_state))) ∧
  (∀ event, is_Some (handleEvent DefaultRetryConfig [] Oracle.toy_contract 121 13 event
     progress_state)).
Proof.
  apply (services_return map_to_list DefaultRetryConfig [] Oracle.toy_contract 121 13 ticks toy_height
    10 (λ _, O) 0 120 system_start progress_state).
  - exact toy_live.
  - lia.
  - unfold enough. vm_compute. lia.
  - unfold batch_wf. vm_compute. intuition congruence.
  - vm_compute. reflexivity.
  - exact progress_run.
Defined.
