(* ===== verification/Process.v ===== *)
(** * The process (src/cmd/oracle/commands/run.go, src/api/api.go)

    [run] from the configuration to the exit code: what is opened and in which order, the
    deferred releases; and [runServices], whose functions are steps over an errgroup: the
    one of golang.org/x/sync is the class [ErrGroup], with the laws its documentation promises. *)

From S2P Require Import Prelude Merkle Schedule Storage Retry Execution Events Beacon TxManager.
From S2P Require Import Contract CommitTree Wallet Config Connect Oracle Updater Api System.

(** ** Servers *)

(** What the [select] of a server sees first: the end of the context, with what [Shutdown]
    then returns, or the end of [ListenAndServe]. *)
Inductive server_event :=
  | CtxDone (ctxErr : error) (shutdown : option error)
  | ListenEnds (err : option error).

Definition errServerClosed_msg : string := "http: Server closed".

(** What the goroutine sends on [errCh] before it closes it; receiving from the closed
    channel gives [nil]. *)
Definition errCh (err : option error) : option error :=
  match err with
  | Some e => if errors_Is e errServerClosed_msg then None else Some e
  | None => None
  end.

(** [Run] of the API's server. *)
Definition api_Run (e : server_event) : option error :=
  match e with
  | CtxDone ctxErr (Some shutdownErr) => Some shutdownErr
  | CtxDone ctxErr None => Some ctxErr
  | ListenEnds err => errCh err
  end.

(** The metrics server wraps also a nil error. *)
Definition runMetricsServer (e : server_event) : option error :=
  match e with
  | CtxDone ctxErr _ => Some ctxErr
  | ListenEnds err =>
      match errCh err with
      | Some e => Some (EWrap "metrics server" e)
      | None => Some (EText "metrics server: %!w(<nil>)")
      end
  end.

(** ** The end of [run] *)

(** [errors.Is(err, context.Canceled)]. *)
Fixpoint is_Canceled (e : error) : bool :=
  match e with
  | ECtx m => bool_decide (m = "context canceled")
  | EWrap _ e' => is_Canceled e'
  | EWrap2 a b => is_Canceled a || is_Canceled b
  | _ => false
  end.

(** A group that was cancelled returns nil. *)
Definition exit_result (r : result unit) : result unit :=
  match r with
  | Err e => if is_Canceled e then Ok tt else Err e
  | r => r
  end.

(** ** The group of services *)

Inductive service := SMetrics | SApi | SSync | SOracle | SUpdater.

#[export] Instance service_eq_dec : EqDecision service.
Proof. solve_decision. Defined.

(** What happens while [runServices] runs: the context of the process ends, [g.Go] is called
    for a service, the call in which a service spends its time returns, and the function that
    was given to [g.Go] returns. *)
Inductive event :=
  | Signal
  | Started (s : service)
  | Called (s : service) (err : option error)
  | Returned (s : service) (err : option error).

(** The services [g.Go] was called for, those whose function returned, and the first error in
    the order in which they returned. *)
Definition started (tr : list event) : list service :=
  omap (λ e, match e with Started s => Some s | _ => None end) tr.

Definition returned (tr : list event) : list service :=
  omap (λ e, match e with Returned s _ => Some s | _ => None end) tr.

Definition event_error (e : event) : option error :=
  match e with Returned _ err => err | _ => None end.

Definition first_error (tr : list event) : option error := head (omap event_error tr).

(** Third-party code: [errgroup.Group] and the context made with it, as what [Wait] gives
    ([None] while it blocks) and whether the context has ended, after these events. *)
Class ErrGroup := {
  Wait : list event → option (option error);
  Done : list event → bool;
}.

(** What its documentation promises: [Wait] blocks until all function calls from [Go] have
    returned, then returns the first non-nil error, if any; the context is cancelled the first
    time a function returns a non-nil error, or when its parent is. *)
Class ErrGroupLaws `{ErrGroup} : Prop := {
  Wait_blocks tr r : Wait tr = Some r → started tr ≡ₚ returned tr ∧ r = first_error tr;
  Wait_returns tr : started tr ≡ₚ returned tr → is_Some (Wait tr);
  Done_iff tr : Done tr = true ↔ Signal ∈ tr ∨ is_Some (first_error tr);
}.

(** A function given to [g.Go]: it calls a service, calls [g.Go], or returns. *)
Inductive code :=
  | Call (k : option error → code)
  | Go (s : service) (k : code)
  | Return (err : option error).

Definition function (withUpdater : bool) (s : service) : code :=
  match s with
  | SSync => Call (λ err,
      match err with
      | Some err => Return (Some (EWrap "initial sync" err))
      | None => Go SOracle (if withUpdater then Go SUpdater (Return None) else Return None)
      end)
  | SMetrics | SApi | SOracle | SUpdater => Call Return
  end.

(** The body of [runServices]: the calls of [g.Go] left before [g.Wait()], or its result. *)
Inductive main :=
  | Starting (todo : list service)
  | Exited (err : option error).

Record services := mkServices {
  sv_main : main;
  sv_running : list (service * code);
  sv_trace : list event;
}.

Definition services_start : services := mkServices (Starting [SMetrics; SApi; SSync]) [] [].

(** What a server may see: the end of the context only when it has ended, and the listener
    ends with errors that are not cancellations. *)
Inductive server_may (done : bool) : server_event → Prop :=
  | may_CtxDone ctxErr shutdown : done = true → server_may done (CtxDone ctxErr shutdown)
  | may_ListenEnds err :
      (∀ e, err = Some e → is_Canceled e = false) → server_may done (ListenEnds err).

(** What a call may return: a server one of its results, the others anything, but a
    cancellation only when the context has ended. *)
Inductive call_result (done : bool) : service → option error → Prop :=
  | call_metrics ev : server_may done ev → call_result done SMetrics (runMetricsServer ev)
  | call_api ev : server_may done ev → call_result done SApi (api_Run ev)
  | call_other s err :
      s ≠ SMetrics → s ≠ SApi →
      (done = false → ∀ e, err = Some e → is_Canceled e = false) → call_result done s err.

(** A step of [runServices] or of one of the functions it started. *)
Inductive services_step `{ErrGroup} (withUpdater : bool) : services → services → Prop :=
  | step_start s todo run tr :
      services_step withUpdater (mkServices (Starting (s :: todo)) run tr)
        (mkServices (Starting todo) (run ++ [(s, function withUpdater s)]) (tr ++ [Started s]))
  | step_go m run1 s s' k run2 tr :
      services_step withUpdater (mkServices m (run1 ++ (s, Go s' k) :: run2) tr)
        (mkServices m (run1 ++ (s, k) :: run2 ++ [(s', function withUpdater s')])
           (tr ++ [Started s']))
  | step_return m run1 s err run2 tr :
      services_step withUpdater (mkServices m (run1 ++ (s, Return err) :: run2) tr)
        (mkServices m (run1 ++ run2) (tr ++ [Returned s err]))
  | step_wait run tr r :
      Wait tr = Some r →
      services_step withUpdater (mkServices (Starting []) run tr) (mkServices (Exited r) run tr).

(** A step of the process around them: a signal, or the end of a call. *)
Inductive outside_step `{ErrGroup} : services → services → Prop :=
  | step_signal m run tr :
      outside_step (mkServices m run tr) (mkServices m run (tr ++ [Signal]))
  | step_called m run1 s k run2 tr err :
      call_result (Done tr) s err →
      outside_step (mkServices m (run1 ++ (s, Call k) :: run2) tr)
        (mkServices m (run1 ++ (s, k err) :: run2) (tr ++ [Called s err])).

Definition group_step `{ErrGroup} (withUpdater : bool) : relation services :=
  λ a b, services_step withUpdater a b ∨ outside_step a b.

(** ** [run] *)

(** The process: its network, its database file, the signer and the meter provider. *)
Record Proc (E : Type) := mkProc {
  p_net : Net E;
  p_disk : Disk;
  p_signer : option Signer;
  p_metrics : bool;
}.
Arguments mkProc {E} _ _ _ _.
Arguments p_net {E} _.
Arguments p_disk {E} _.
Arguments p_signer {E} _.
Arguments p_metrics {E} _.

(** What [runServices] gets. *)
Record Wired := mkWired {
  w_cfg : config;
  w_batchSize : AdaptiveBatchSize;
  w_execRetry : RetryConfig;
  w_beaconRetry : RetryConfig;
  w_ssvContract : bytes;
  w_client : NetClient;
}.

Section run.
Context {HK : Checks} {HB : ContractABI} {Tx Signed : Type} {HW : Keys Tx Signed}.
Context {E : Type} {HR : Runtime E} {HE : ExecutionRPC E} {HD : Dialer E}.
Variable read : string → result bytes.
Variable decode : bytes → config → result config.
(** [observability.Setup], over the process's environment. *)
Variable Setup : io E unit.
Variable runServices : Wired → io (Proc E) unit.

Definition with_net {A} : io (Net E) A → io (Proc E) A :=
  zoom p_net (λ n p, mkProc n (p_disk p) (p_signer p) (p_metrics p)).

Definition with_disk {A} : io Disk A → io (Proc E) A :=
  zoom p_disk (λ d p, mkProc (p_net p) d (p_signer p) (p_metrics p)).

(** Code of the services: it sees the environment and the database. *)
Definition with_store {A} (batchSize : AdaptiveBatchSize) : io (Exec E World) A → io (Proc E) A :=
  zoom (λ p, mkExec batchSize (n_env (p_net p)) (d_world (p_disk p)))
    (λ s p, mkProc (mkNet (env s) (n_next (p_net p)) (n_open (p_net p)))
      (mkDisk (d_tables (p_disk p)) (d_progress (p_disk p)) (data s) (d_handles (p_disk p)))
      (p_signer p) (p_metrics p)).

Definition with_world {A} (m : io World A) : io (Proc E) A :=
  with_disk (zoom d_world (λ w d, mkDisk (d_tables d) (d_progress d) w (d_handles d)) m).

Definition assign (f : Proc E → Proc E) : io (Proc E) unit := λ p, (Ok tt, f p).

(** [defer f()] before the rest of the function: [f] runs on every outcome. *)
Definition deferred {A} (f : Proc E → Proc E) (m : io (Proc E) A) : io (Proc E) A := λ p,
  let '(r, p') := m p in (r, f p').

Definition set_metrics (b : bool) (p : Proc E) : Proc E :=
  mkProc (p_net p) (p_disk p) (p_signer p) b.

Definition set_signer (s : option Signer) (p : Proc E) : Proc E :=
  mkProc (p_net p) (p_disk p) s (p_metrics p).

Definition close_signer (p : Proc E) : Proc E := set_signer (Wallet.Close <$> p_signer p) p.

Definition close_store (p : Proc E) : Proc E :=
  mkProc (p_net p) (CloseStorage (p_disk p)) (p_signer p) (p_metrics p).

Definition close_net (f : Net E → Net E) (p : Proc E) : Proc E :=
  mkProc (f (p_net p)) (p_disk p) (p_signer p) (p_metrics p).

Definition setup_metrics : io (Proc E) unit :=
  _ ← with_net (on_net Setup); assign (set_metrics true).

Definition create_signer (cfg : config) : io (Proc E) Signer :=
  signer ← lift (wrap "create signer" (NewSigner (Tx:=Tx) (Signed:=Signed) (Some (cfg_Wallet cfg))));
  _ ← assign (set_signer (Some signer)); mret signer.

Definition contract_config (cfg : config) (withUpdater : bool) (chainID : Z) (signer : Signer)
    : ClientConfig :=
  mkClientConfig (EthRPC cfg) (if withUpdater then EthWSRPC cfg else "") (SSVContract cfg)
    (SSVViewsContract cfg) (Some chainID) (Some signer) (Some (cfg_TxPolicy cfg))
    (if withUpdater then getMEVRPCs cfg else []).

(** [run] from the check of the chain on. *)
Definition run_clients (cfg : config) (withUpdater : bool) (signer : Signer)
    (batchSize : AdaptiveBatchSize) (retry : RetryConfig) : io (Proc E) unit :=
  chainID ← with_store batchSize (validateChainID retry);
  beaconRetry ← wrapM "create beacon client" (with_net (NewBeacon (BeaconURL cfg) 0 None));
  client ← wrapM "create contract client"
    (with_net (NewClient (contract_config cfg withUpdater chainID signer)));
  deferred (close_net (CloseClient client))
    (λ p, let '(r, p') := runServices (mkWired cfg batchSize retry beaconRetry
            (HexToAddress (SSVContract cfg)) client) p in (exit_result r, p')).

(** [run] once the database is open. *)
Definition run_store (cfg : config) (withUpdater freshStart : bool) (signer : Signer)
    : io (Proc E) unit :=
  _ ← (if freshStart then wrapM "clear database" (with_world ClearAllState) else mret tt);
  exec ← wrapM "create execution client"
    (with_net (NewExecution (EthRPC cfg) 0 (MaxSyncBatchSize cfg) None));
  let '(c, batchSize, retry) := exec in
  deferred (close_net (disconnect c)) (run_clients cfg withUpdater signer batchSize retry).

(** [run] once the meters are set up. *)
Definition run_signer (cfg : config) (withUpdater freshStart : bool) : io (Proc E) unit :=
  signer ← create_signer cfg;
  deferred close_signer (
    _ ← wrapM "create storage" (with_disk (NewStorage (DBPath cfg)));
    deferred close_store (run_store cfg withUpdater freshStart signer)).

Definition run (path : string) (withUpdater freshStart : bool) : io (Proc E) unit :=
  cfg ← lift (loadConfig read decode path withUpdater);
  _ ← wrapM "setup metrics" setup_metrics;
  deferred (set_metrics false) (run_signer cfg withUpdater freshStart).
End run.

(** ** Specification *)

(** Whether the initial synchronisation succeeded. *)
Definition synced (tr : list event) : bool :=
  existsb (λ e, match e with Called SSync None => true | _ => false end) tr.

(** The services that are to run. *)
Definition all_services (withUpdater : bool) (tr : list event) : list service :=
  [SMetrics; SApi; SSync] ++
  (if synced tr then if withUpdater then [SOracle; SUpdater] else [SOracle] else []).

(** What the services rely on when they start. *)
Record ready `{!Crypto, !Checks, !ContractABI} {E} (withUpdater : bool) (w : Wired) (p : Proc E)
    : Prop := {
  rd_valid : ∃ decoded, valid_config decoded withUpdater ∧ w_cfg w = trim_fields decoded;
  rd_batch : 0 <= MaxSyncBatchSize (w_cfg w) → MaxSyncBatchSize (w_cfg w) + 100 < 2 ^ 64 →
    batch_wf (w_batchSize w);
  rd_policy : TxManager.Validate (c_policy (client_of (w_client w))) = Ok tt;
  rd_chain : chain_id (db (d_world (p_disk p))) = Some (wrapU 64 (c_chainID (client_of (w_client w))));
  rd_db : db_ok (db (d_world (p_disk p))) ∧ rooted (db (d_world (p_disk p)));
  rd_schema : has_schema (p_disk p);
  rd_signer : held (m_signer (nc_txManager (w_client w))) = true ∧
    p_signer p = Some (m_signer (nc_txManager (w_client w)));
  rd_updater : is_Some (nc_wsClient (w_client w)) ↔ withUpdater = true;
}.

(** What a step of the process leaves as it was. *)
Record kept {E} (p p' : Proc E) : Prop := {
  kp_signer : p_signer p' = p_signer p;
  kp_handles : d_handles (p_disk p') = d_handles (p_disk p);
  kp_metrics : p_metrics p' = p_metrics p;
}.

(** The services leave what was opened for them as it was. *)
Definition services_keep {E} (services : Wired → io (Proc E) unit) : Prop := ∀ w p r p',
  services w p = (r, p') → net_ok (p_net p) →
  net_ok (p_net p') ∧ n_open (p_net p') = n_open (p_net p) ∧ kept p p'.

(** Every connection is closed again, unless the websocket could not be reached. *)
Definition tidy {E} (r : result unit) (p p' : Proc E) : Prop :=
  net_ok (p_net p') ∧
  (r = Panic ∨ n_open (p_net p') = n_open (p_net p) ∨
   ∃ e, r = Err (EWrap "create contract client" (EWrap "dial WebSocket" e))).

(** What holds on every way out: the connections as above; the signer, if there was one, has
    no key and the number of the key it had is zero; the database has no more handles, unless
    the storage could not be started. *)
Definition released {E} (r : result unit) (p p' : Proc E) : Prop :=
  tidy r p p' ∧ (∀ s, p_signer p' = Some s → held s = false ∧ key_D s = 0) ∧
  (r = Panic ∨ d_handles (p_disk p') = d_handles (p_disk p) ∨
   ∃ e, r = Err (EWrap "create storage" e)).

(** ** Lemmas: the group *)

Lemma all_services_NoDup b tr : NoDup (all_services b tr).
Proof. unfold all_services. by destruct (synced tr), b; apply (bool_decide_unpack _). Qed.

Lemma all_services_synced b tr s :
  s ∈ all_services b tr → s = SOracle ∨ s = SUpdater → synced tr = true.
Proof.
  unfold all_services. destruct (synced tr); [done|].
  rewrite app_nil_r. set_unfold. intros H [-> | ->]; naive_solver.
Qed.

Lemma first_error_snoc tr e :
  first_error (tr ++ [e]) = match first_error tr with Some x => Some x | None => event_error e end.
Proof.
  unfold first_error. rewrite omap_app. cbn.
  destruct (omap event_error tr); [by destruct (event_error e)|done].
Qed.

(** The services the code starts without another call, and what it then returns. *)
Fixpoint to_start (c : code) : list service :=
  match c with Go s k => s :: to_start k | _ => [] end.

Fixpoint code_error (c : code) : option error :=
  match c with Go _ k => code_error k | Return err => err | Call _ => None end.

Fixpoint called (c : code) : bool :=
  match c with Go _ k => called k | Return _ => true | Call _ => false end.

Definition to_start_main (m : main) : list service :=
  match m with Starting todo => todo | Exited _ => [] end.

(** A cancellation has a cause. *)
Definition caused (tr : list event) (err : option error) : Prop :=
  ∀ e, err = Some e → is_Canceled e = true → Signal ∈ tr ∨ is_Some (first_error tr).

(** A function is in the call it begins with, or after it. *)
Definition code_ok (b : bool) (tr : list event) (s : service) (c : code) : Prop :=
  (c = function b s ∧ (s = SSync → synced tr = false)) ∨
  (called c = true ∧ (s = SMetrics → is_Some (code_error c)) ∧ caused tr (code_error c)).

Record group_inv (b : bool) (m : main) (run : list (service * code)) (tr : list event) : Prop := {
  gi_running : started tr ≡ₚ returned tr ++ run.*1;
  gi_all : started tr ++ to_start_main m ++ (run ≫= λ p, to_start p.2) ≡ₚ all_services b tr;
  gi_synced : synced tr = true → SSync ∈ started tr;
  gi_code s c : (s, c) ∈ run → code_ok b tr s c;
  gi_metrics err : Returned SMetrics err ∈ tr → is_Some err;
  gi_first e : first_error tr = Some e → is_Canceled e = true → Signal ∈ tr;
  gi_order h1 s h2 : tr = h1 ++ Started s :: h2 → s = SOracle ∨ s = SUpdater → synced h1 = true;
  gi_exit r : m = Exited r → r = first_error tr ∧ run = [];
}.

Lemma group_inv_start b : group_inv b (Starting [SMetrics; SApi; SSync]) [] [].
Proof.
  split; try done.
  - by intros s c ?%elem_of_nil.
  - by intros err ?%elem_of_nil.
  - intros h1 s h2 H. by destruct h1.
Qed.

(** What an event other than a start adds nothing to. *)
Lemma order_snoc tr e :
  (∀ h1 s h2, tr = h1 ++ Started s :: h2 → s = SOracle ∨ s = SUpdater → synced h1 = true) →
  (∀ s, e = Started s → s = SOracle ∨ s = SUpdater → synced tr = true) →
  ∀ h1 s h2, tr ++ [e] = h1 ++ Started s :: h2 → s = SOracle ∨ s = SUpdater → synced h1 = true.
Proof.
  intros Hold Hnew h1 s h2 H Hs. destruct h2 as [|x h2 _] using rev_ind.
  - apply app_inj_tail in H as [-> ->]. by eapply Hnew.
  - rewrite app_comm_cons, app_assoc in H. apply app_inj_tail in H as [H _]. by eapply Hold.
Qed.

Lemma caused_snoc tr e err : caused tr err → caused (tr ++ [e]) err.
Proof.
  intros Hc x Hx Hx'. rewrite first_error_snoc, elem_of_app.
  destruct (Hc x Hx Hx') as [?|[y ->]]; eauto.
Qed.

Lemma code_ok_snoc b tr e s c :
  synced (tr ++ [e]) = synced tr → code_ok b tr s c → code_ok b (tr ++ [e]) s c.
Proof.
  intros Hs [[? ?]|(? & ? & Hc)]; [left; by rewrite Hs|right]. split; [done|]. split; [done|].
  by apply caused_snoc.
Qed.

Section group_lemmas.
Context `{HG : ErrGroup} {HL : ErrGroupLaws}.

(** A service that is still to start has not started, and nothing runs twice. *)
Lemma group_inv_NoDup b m run tr :
  group_inv b m run tr →
  NoDup (started tr ++ to_start_main m ++ (run ≫= λ p, to_start p.2)) ∧ NoDup run.*1.
Proof.
  intros [Hr Ha _ _ _ _ _ _]. pose proof (all_services_NoDup b tr) as Hnd.
  rewrite <- Ha in Hnd. split; [done|]. apply NoDup_app in Hnd as (Hnd & _).
  rewrite Hr in Hnd. by apply NoDup_app in Hnd as (_ & _ & ?).
Qed.

(** A start of [s'], by [runServices] or by the function of another service. *)
Lemma start_inv b m m' run run' tr s' :
  group_inv b m run tr →
  to_start_main m ++ (run ≫= λ p, to_start p.2) ≡ₚ
    s' :: to_start_main m' ++ (run' ≫= λ p, to_start p.2) →
  run'.*1 ≡ₚ s' :: run.*1 →
  (∀ s c, (s, c) ∈ run' → (s, c) = (s', function b s') ∨ code_ok b tr s c) →
  (∀ r, m' ≠ Exited r) →
  group_inv b m' run' (tr ++ [Started s']).
Proof.
  intros Hi Hts Hrun Hcode Hm'. destruct (group_inv_NoDup _ _ _ _ Hi) as [Hnd _].
  destruct Hi as [Hr Ha Hsy _ Hme Hf Ho He].
  assert (synced (tr ++ [Started s']) = synced tr) as Es
    by (unfold synced; rewrite existsb_app; cbn; by rewrite orb_false_r).
  assert (s' ∈ all_services b tr) as Hin by (rewrite <- Ha, Hts; set_solver).
  split.
  - unfold started, returned in *. rewrite !omap_app. cbn. rewrite app_nil_r, Hr, Hrun.
    solve_Permutation.
  - unfold all_services in *. rewrite Es, <- Ha, Hts. unfold started. rewrite omap_app. cbn.
    solve_Permutation.
  - rewrite Es. intros H. unfold started in *. rewrite omap_app. specialize (Hsy H). set_solver.
  - intros s c [[= -> ->]|Hc]%Hcode; [|by apply code_ok_snoc]. left. split; [done|]. rewrite Es.
    intros ->. destruct (synced tr); [|done]. specialize (Hsy eq_refl).
    rewrite Hts in Hnd. apply NoDup_app in Hnd as (_ & Hd & _). destruct (Hd SSync Hsy). set_solver.
  - intros err [?|[=]%list_elem_of_singleton]%elem_of_app. by apply Hme.
  - intros e. rewrite first_error_snoc. intros H Hc. apply elem_of_app. left. eapply Hf; [|done].
    by destruct (first_error tr).
  - apply order_snoc; [done|]. intros s [= <-]. by apply (all_services_synced b).
  - intros r ->. by destruct (Hm' r).
Qed.

(** A function returns. *)
Lemma return_inv b m run1 s err run2 tr :
  group_inv b m (run1 ++ (s, Return err) :: run2) tr →
  group_inv b m (run1 ++ run2) (tr ++ [Returned s err]).
Proof.
  intros [Hr Ha Hsy Hc Hme Hf Ho He].
  assert (code_ok b tr s (Return err)) as Hok by (apply Hc; set_solver).
  assert (called (Return err) = true ∧ (s = SMetrics → is_Some err) ∧ caused tr err)
    as (_ & Hmet & Hcau) by (destruct Hok as [[Hk _]|?]; [by destruct s|done]).
  assert (synced (tr ++ [Returned s err]) = synced tr) as Es
    by (unfold synced; rewrite existsb_app; cbn; by rewrite orb_false_r).
  split.
  - unfold started, returned in *. rewrite !omap_app. cbn. rewrite app_nil_r, Hr, !fmap_app. cbn.
    solve_Permutation.
  - unfold all_services in *. rewrite Es, <- Ha. unfold started. rewrite omap_app, !bind_app. cbn.
    by rewrite app_nil_r.
  - rewrite Es. unfold started in *. rewrite omap_app. intros H. specialize (Hsy H). set_solver.
  - intros s0 c Hin. apply code_ok_snoc; [done|]. apply Hc. set_solver.
  - intros x [?|[= <- <-]%list_elem_of_singleton]%elem_of_app; [by apply Hme|by apply Hmet].
  - intros e. rewrite first_error_snoc, elem_of_app. intros H Hx. left.
    destruct (first_error tr) eqn:Ef; [by injection H as ->; eapply Hf|].
    destruct (Hcau e H Hx) as [?|[x Hy]]; [done|by rewrite Ef in Hy].
  - apply order_snoc; done.
  - intros r ->. destruct (He r eq_refl) as [_ Hnil]. by destruct run1.
Qed.

Lemma services_step_inv b m run tr st :
  group_inv b m run tr → services_step b (mkServices m run tr) st →
  group_inv b (sv_main st) (sv_running st) (sv_trace st).
Proof.
  intros Hi Hst. inversion Hst; subst; cbn [sv_main sv_running sv_trace].
  - eapply start_inv; [exact Hi| | | |done].
    + cbn. rewrite bind_app. cbn. destruct s; cbn; solve_Permutation.
    + rewrite fmap_app. cbn. solve_Permutation.
    + intros s0 c [Hc|Hc%list_elem_of_singleton]%elem_of_app; [|by left].
      right. by apply (gi_code _ _ _ _ Hi).
  - eapply start_inv; [exact Hi| | | |].
    + rewrite !bind_app, !bind_cons, bind_app. cbn. destruct s'; cbn; solve_Permutation.
    + rewrite !fmap_app, !fmap_cons, fmap_app. cbn. solve_Permutation.
    + pose proof (gi_code _ _ _ _ Hi) as Hc. intros s0 c Hin.
      assert ((s0, c) = (s', function b s') ∨ (s0, c) = (s, k) ∨ (s0, c) ∈ run1 ++ (s, Go s' k) :: run2)
        as [?|[[= -> ->]|?]] by set_solver; [by left|right|right; by apply Hc].
      assert (code_ok b tr s (Go s' k)) as [[Hk _]|Hk] by (apply Hc; set_solver);
        [by destruct s|by right].
    + intros r ->. destruct (gi_exit _ _ _ _ Hi r eq_refl) as [_ Hnil]. by destruct run1.
  - eapply return_inv, Hi.
  - destruct (Wait_blocks tr r) as [Hp ->]; [done|].
    destruct Hi as [Hr Ha Hsy Hc Hme Hf Ho He]. split; try done.
    intros r [= <-]. split; [done|]. rewrite Hp in Hr. apply Permutation_length in Hr.
    rewrite length_app, length_fmap in Hr. destruct run; [done|cbn in Hr; lia].
Qed.

(** What a server returns is never nothing for the metrics server, and a cancellation only
    when the context has ended. *)
Lemma call_result_ok tr s err :
  call_result (Done tr) s err → (s = SMetrics → is_Some err) ∧ caused tr err.
Proof.
  assert (∀ ev, server_may (Done tr) ev → caused tr (runMetricsServer ev) ∧ caused tr (api_Run ev))
    as Hserv.
  { intros ev [c o Hd|l Hl].
    - apply Done_iff in Hd. by split; intros e _ _.
    - assert (∀ e, errCh l = Some e → is_Canceled e = false) as Hch.
      { unfold errCh. destruct l as [x|]; [|done]. case_match; [done|]. intros e [= <-]. by apply Hl. }
      split; intros e; cbn; [|intros He Hx; by rewrite (Hch e He) in Hx].
      destruct (errCh l) as [x|] eqn:El; intros [= <-]; cbn; [by rewrite (Hch x eq_refl)|done]. }
  intros [ev Hev|ev Hev|s0 r H1 H2 Hr].
  - split; [|by apply Hserv].
    intros _. destruct ev as [c o|l]; cbn; [by eexists|]. destruct (errCh l); by eexists.
  - split; [done|by apply Hserv].
  - split; [done|]. intros e He Hx. apply Done_iff. destruct (Done tr); [done|].
    by rewrite (Hr eq_refl e He) in Hx.
Qed.

(** The call a function begins with ends. *)
Lemma called_inv b m run1 s k run2 tr err :
  call_result (Done tr) s err → group_inv b m (run1 ++ (s, Call k) :: run2) tr →
  group_inv b m (run1 ++ (s, k err) :: run2) (tr ++ [Called s err]).
Proof.
  intros [Hmet Hcau]%call_result_ok Hi. pose proof (group_inv_NoDup _ _ _ _ Hi) as [_ Hnd].
  destruct Hi as [Hr Ha Hsy Hc Hme Hf Ho He].
  assert (Call k = function b s ∧ (s = SSync → synced tr = false)) as [Hk Hnot].
  { assert (code_ok b tr s (Call k)) as [?|[[=] _]] by (apply Hc; set_solver). done. }
  assert (started (tr ++ [Called s err]) = started tr ∧ returned (tr ++ [Called s err]) = returned tr)
    as [Est Ert] by (unfold started, returned; rewrite !omap_app; cbn; by rewrite !app_nil_r).
  assert (s ∈ started tr) as Hin by (rewrite Hr, fmap_app; set_solver).
  assert (to_start (k err) = [] ∧ synced (tr ++ [Called s err]) = synced tr ∨
    s = SSync ∧ synced (tr ++ [Called s err]) = true ∧
    to_start (k err) = if b then [SOracle; SUpdater] else [SOracle]) as Hk'.
  { unfold synced. rewrite existsb_app. cbn. destruct s; injection Hk as ->; cbn;
      rewrite ?orb_false_r; auto. destruct err; rewrite ?orb_false_r, ?orb_true_r; auto.
    right. by destruct b. }
  assert (called (k err) = true ∧ (s = SMetrics → is_Some (code_error (k err))) ∧
    caused tr (code_error (k err))) as (Hcd & Hcm & Hcc).
  { destruct s; injection Hk as ->; cbn; try done. destruct err as [e|]; cbn.
    - split; [done|]. split; [done|]. intros x [= <-]. cbn. by apply Hcau.
    - by destruct b. }
  split.
  - rewrite Est, Ert, Hr, !fmap_app. done.
  - rewrite Est, !bind_app, !bind_cons in *. cbn [to_start app snd] in *.
    destruct Hk' as [[-> Es]|(-> & Es & ->)]; unfold all_services in *; rewrite Es; [done|].
    rewrite (Hnot eq_refl) in Ha. destruct b; rewrite <- Ha; solve_Permutation.
  - rewrite Est. destruct Hk' as [[_ Es]|(-> & _)]; [by rewrite Es|done].
  - intros s0 c [Hs0|[[= -> ->]|Hs0]%elem_of_cons]%elem_of_app.
    2: { right. auto using caused_snoc. }
    all: assert ((s0, c) ∈ run1 ++ (s, Call k) :: run2) as Hs0' by set_solver;
      apply Hc in Hs0' as [[-> Hn]|Hq]; [left; split; [done|]; intros ->|].
    all: try (right; destruct Hq as (? & ? & ?); auto using caused_snoc).
    all: destruct Hk' as [[_ Es]|(-> & _)]; [by rewrite Es; apply Hn|exfalso].
    all: rewrite fmap_app, fmap_cons in Hnd; apply NoDup_app in Hnd as (_ & Hd & Hnd2);
      apply NoDup_cons in Hnd2 as [Hn2 _].
    + apply (Hd SSync); [|set_solver]. apply list_elem_of_fmap. by exists (SSync, function b SSync).
    + apply Hn2. apply list_elem_of_fmap. by exists (SSync, function b SSync).
  - intros x [?|[=]%list_elem_of_singleton]%elem_of_app. by apply Hme.
  - intros e. rewrite first_error_snoc, elem_of_app. intros H Hx. left. eapply Hf; [|done].
    by destruct (first_error tr).
  - by apply order_snoc.
  - intros r ->. destruct (He r eq_refl) as [_ Hnil]. by destruct run1.
Qed.

Lemma signal_inv b m run tr : group_inv b m run tr → group_inv b m run (tr ++ [Signal]).
Proof.
  intros [Hr Ha Hsy Hc Hme Hf Ho He].
  assert (synced (tr ++ [Signal]) = synced tr) as Es
    by (unfold synced; rewrite existsb_app; cbn; by rewrite orb_false_r).
  assert (started (tr ++ [Signal]) = started tr ∧ returned (tr ++ [Signal]) = returned tr)
    as [Est Ert] by (unfold started, returned; rewrite !omap_app; cbn; by rewrite !app_nil_r).
  assert (first_error (tr ++ [Signal]) = first_error tr) as Ef
    by (rewrite first_error_snoc; by destruct (first_error tr)).
  split; rewrite ?Est, ?Ert, ?Es, ?Ef; auto.
  - unfold all_services in *. by rewrite Es.
  - intros s c Hin. by apply code_ok_snoc, Hc.
  - intros err [?|[=]%list_elem_of_singleton]%elem_of_app. by apply Hme.
  - intros e _ _. set_solver.
  - by apply order_snoc.
Qed.

Lemma group_reachable b st :
  rtc (group_step b) services_start st → group_inv b (sv_main st) (sv_running st) (sv_trace st).
Proof.
  intros H. remember services_start as st0 eqn:E.
  assert (group_inv b (sv_main st0) (sv_running st0) (sv_trace st0)) as Hi
    by (subst; apply group_inv_start).
  clear E. induction H as [|x y z Hs _ IH]; [done|]. apply IH. clear IH z.
  destruct x as [m run tr], Hs as [Hs|Hs]; [by eapply services_step_inv|].
  inversion Hs; subst; cbn in *; [by apply signal_inv|by apply called_inv].
Qed.

(** Unless it has exited or a service is in its call, the program goes on. *)
Lemma group_progress b m run tr :
  group_inv b m run tr → (∀ r, m ≠ Exited r) →
  (∃ s k, (s, Call k) ∈ run) ∨ ∃ st', services_step b (mkServices m run tr) st'.
Proof.
  intros Hi Hm. destruct m as [[|s todo]|r]; [|right; eexists; apply step_start|by destruct (Hm r)].
  destruct run as [|[s [k|s' k|err]] run].
  - right. destruct (Wait_returns tr) as [r Hr].
    { by rewrite (gi_running _ _ _ _ Hi), app_nil_r. }
    eexists. by apply step_wait.
  - left. exists s, k. set_solver.
  - right. eexists. by apply (step_go b _ [] s s' k run).
  - right. eexists. by apply (step_return b _ [] s err run).
Qed.
End group_lemmas.
(** ** Lemmas: [run] *)

Lemma bind_ext {S A B} (m : io S A) (k k' : A → io S B) s :
  (∀ a s', m s = (Ok a, s') → k a s' = k' a s') → (m ≫= k) s = (m ≫= k') s.
Proof. intros Hk. unfold mbind, io_bind. destruct (m s) as [[a|e|] s']; auto. Qed.

Lemma db_ok_chain c d : db_ok d → db_ok (set_chain_id c d).
Proof. intros [H1 H2 H3]. by split. Qed.

Lemma rooted_chain `{!Crypto} c d : rooted d → rooted (set_chain_id c d).
Proof. by apply rooted_same. Qed.

Lemma schema_rooted `{!Crypto} : rooted schema.
Proof. intros e c Hc. cbn in Hc. by rewrite lookup_empty in Hc. Qed.

(** Every outcome of a sequence. *)
Lemma bind_io_cases {S A B} (m : io S A) (k : A → io S B) s r s' :
  (m ≫= k) s = (r, s') →
  ∃ r1 s1, m s = (r1, s1) ∧
    match r1 with
    | Ok a => k a s1 = (r, s')
    | Err e => r = Err e ∧ s' = s1
    | Panic => r = Panic ∧ s' = s1
    end.
Proof.
  unfold mbind, io_bind. destruct (m s) as [[a|e|] s1]; [eauto|..];
    intros [= <- <-]; eexists _, _; by split.
Qed.

Lemma wrapM_eq {S A} pre (m : io S A) s r s' :
  wrapM pre m s = (r, s') → ∃ r0, m s = (r0, s') ∧ r = wrap pre r0.
Proof. unfold wrapM. destruct (m s) as [r0 s0]. intros [= <- <-]. by exists r0. Qed.

Lemma lift_inv {S A} (r r' : result A) (s s' : S) : lift r s = (r', s') → r = r' ∧ s = s'.
Proof. by intros [= <- <-]. Qed.

Section run_lemmas.
Context {HC : Crypto} {HK : Checks} {HB : ContractABI} {Tx Signed : Type} {HW : Keys Tx Signed}.
Context {E : Type} {HR : Runtime E} {HE : ExecutionRPC E} {HD : Dialer E}.
Implicit Types p : Proc E.

Lemma deferred_ext {A} f (m m' : io (Proc E) A) p : m p = m' p → deferred f m p = deferred f m' p.
Proof. unfold deferred. by intros ->. Qed.

Lemma with_store_inv {A} bs (m : io (Exec E World) A) p r p' :
  with_store bs m p = (r, p') →
  ∃ s, m (mkExec bs (n_env (p_net p)) (d_world (p_disk p))) = (r, s) ∧
    d_world (p_disk p') = data s ∧
    n_open (p_net p') = n_open (p_net p) ∧ n_next (p_net p') = n_next (p_net p) ∧
    d_tables (p_disk p') = d_tables (p_disk p) ∧ d_progress (p_disk p') = d_progress (p_disk p) ∧
    d_handles (p_disk p') = d_handles (p_disk p) ∧ p_signer p' = p_signer p ∧
    p_metrics p' = p_metrics p.
Proof. intros (s & Hs & ->)%zoom_run. by exists s. Qed.

Lemma with_net_inv {A} (m : io (Net E) A) p r p' :
  with_net m p = (r, p') →
  ∃ n, m (p_net p) = (r, n) ∧ p' = mkProc n (p_disk p) (p_signer p) (p_metrics p).
Proof. intros (n & Hn & ->)%zoom_run. by exists n. Qed.

Lemma NewBeacon_inv url timeout retry (n : Net E) r n' :
  NewBeacon url timeout retry n = (r, n') → n_open n' = n_open n ∧ n_next n' = n_next n.
Proof.
  unfold NewBeacon, mbind, io_bind. intros H.
  destruct (wrapM _ _ n) as [r1 n1] eqn:E1. apply wrapM_inv in E1 as (r0 & E1 & _).
  apply on_net_inv in E1 as [Ho Hn]. destruct r1 as [[]|e|]; [|by injection H as <- <-..].
  destruct (ignore _ n1) as [r2 n2] eqn:E2. apply ignore_inv in E2 as (Ho2 & Hn2 & Hr2).
  rewrite <- Ho, <- Hn, <- Ho2, <- Hn2. by destruct r2; injection H as <- <-.
Qed.

Lemma NewExecution_inv url lo hi retry (n : Net E) r n' :
  NewExecution url lo hi retry n = (r, n') → net_ok n →
  net_ok n' ∧
  match r with
  | Ok (c, bs, rt) => (c ∉ n_open n) ∧ n_open n' = {[ c ]} ∪ n_open n ∧
      bs = NewAdaptiveBatchSize lo hi
  | Err _ => n_open n' = n_open n
  | Panic => True
  end.
Proof.
  intros H Hok. unfold NewExecution, mbind, io_bind in H.
  destruct (wrapM _ _ n) as [r1 n1] eqn:E1. apply dial_inv in E1 as (Hok1 & _ & Ho); [|done].
  destruct r1 as [c|e|]; [|by injection H as <- <-..].
  destruct (ignore _ n1) as [r2 n2] eqn:E2. apply ignore_inv in E2 as (Ho2 & Hn2 & Hr2).
  assert (net_ok n2) as Hok2 by (intros x; rewrite Ho2, Hn2; apply Hok1).
  destruct r2 as [[]|e|]; injection H as <- <-; (split; [done|]); [|by destruct (Hr2 e)|done].
  rewrite Ho2. destruct Ho as (Hc & Ho & _). by rewrite Ho.
Qed.

Lemma NewStorage_step path p r p' :
  with_disk (NewStorage path) p = (r, p') → file_ok (p_disk p) →
  file_ok (p_disk p') ∧ db (d_world (p_disk p')) = db (d_world (p_disk p)) ∧
  p_net p' = p_net p ∧ p_signer p' = p_signer p ∧ (r = Ok tt → has_schema (p_disk p')).
Proof.
  intros (d & H & ->)%zoom_run Hok. cbn.
  pose proof (NewStorage_grows path (p_disk p)) as [Hg Hr _ _]. rewrite H in Hg, Hr. cbn in Hg, Hr.
  do 2 (split; [by auto|]). do 2 (split; [done|]). intros ->. by eapply NewStorage_done.
Qed.

(** What holds once the database is open, besides the signer. *)
Record opened (withUpdater : bool) (cfg : config) (p : Proc E) : Prop := {
  op_valid : ∃ decoded, valid_config decoded withUpdater ∧ cfg = trim_fields decoded;
  op_db : db_ok (db (d_world (p_disk p))) ∧ rooted (db (d_world (p_disk p)));
  op_schema : has_schema (p_disk p);
  op_net : net_ok (p_net p);
}.

Lemma valid_updater cfg withUpdater chainID signer decoded :
  valid_config decoded withUpdater → cfg = trim_fields decoded →
  NoDup (cc_MEVRPCs (contract_config cfg withUpdater chainID signer)) ∧
  (WSRPCURL (contract_config cfg withUpdater chainID signer) ≠ "" ↔ withUpdater = true).
Proof.
  intros Hv ->. cbn. destruct withUpdater; cbn.
  - split; [apply (vc_mev _ _ Hv)|]. split; [done|]. intros _ Hw.
    destruct (vc_ws _ _ Hv eq_refl) as [Hne _]. by rewrite Hw in Hne.
  - split; [constructor|done].
Qed.

Lemma run_clients_ready services services' cfg withUpdater signer bs retry p :
  opened withUpdater cfg p → held signer = true → p_signer p = Some signer →
  (0 <= MaxSyncBatchSize cfg → MaxSyncBatchSize cfg + 100 < 2 ^ 64 → batch_wf bs) →
  (∀ w q, ready withUpdater w q → services w q = services' w q) →
  run_clients services cfg withUpdater signer bs retry p =
  run_clients services' cfg withUpdater signer bs retry p.
Proof.
  intros [(decoded & Hv & Hcfg) [Hdb Hroot] Hsch Hnet] Hheld Hsig Hbs Hext. unfold run_clients.
  apply bind_ext. intros chainID p1 H1.
  apply with_store_inv in H1 as (s & Hc & Hw & Ho & Hn & Ht & Hp & _ & Hs & _).
  apply validateChainID_inv in Hc as (_ & _ & Hd). cbn [data] in Hd. rewrite <- Hw in Hd.
  apply bind_ext. intros brt p2 H2. apply wrapM_Ok, with_net_inv in H2 as (n2 & H2 & ->).
  apply NewBeacon_inv in H2 as [Ho2 Hn2].
  apply bind_ext. intros client p3 H3. apply wrapM_Ok, with_net_inv in H3 as (n3 & H3 & ->).
  destruct (valid_updater cfg withUpdater chainID signer decoded Hv Hcfg) as [Hnd Hws].
  cbn [p_net] in H3. apply NewClient_inv in H3 as (_ & Hm & _); [|done|].
  2: { intros c. rewrite Ho2, Hn2, Ho, Hn. apply Hnet. }
  apply deferred_ext. cbn [p_disk p_signer p_metrics]. rewrite Hext; [done|].
  destruct Hm as [[Hid Hid'] Hsg (p0 & _ & Hpol & Hval) _ Hws' _ _].
  injection Hid as Hid. injection Hsg as Hsg.
  split; cbn [w_cfg w_batchSize w_client p_disk p_signer client_of c_policy c_chainID]; auto.
  - by exists decoded.
  - by rewrite Hpol.
  - rewrite Hd, Hid', <- Hid. done.
  - rewrite Hd. split; [by apply db_ok_chain|by apply rooted_chain].
  - destruct Hsch as [Hs1 Hs2]. by split; rewrite ?Hp, ?Ht.
  - rewrite <- Hsg, Hs. done.
  - rewrite Hws'. exact Hws.
Qed.

Lemma run_store_ready services services' cfg withUpdater freshStart signer p :
  opened withUpdater cfg p → held signer = true → p_signer p = Some signer →
  (∀ w q, ready withUpdater w q → services w q = services' w q) →
  run_store services cfg withUpdater freshStart signer p =
  run_store services' cfg withUpdater freshStart signer p.
Proof.
  intros Hop Hheld Hsig Hext. unfold run_store. apply bind_ext. intros [] p1 H1.
  assert (opened withUpdater cfg p1 ∧ p_signer p1 = p_signer p) as [Hop1 Hs1].
  { destruct freshStart; [|by injection H1 as <-].
    apply wrapM_Ok in H1. apply zoom_run in H1 as (d & H1 & ->).
    apply zoom_run in H1 as (w & H1 & ->). split; [|done].
    apply ClearAllState_cases in H1 as [[_ Hd]|[Hne _]]; [|by destruct (Hne tt)].
    destruct Hop as [Hv _ Hsch Hnet]. split; cbn; [done| |done|done].
    rewrite Hd. split; [apply schema_ok|apply schema_rooted]. }
  apply bind_ext. intros [[c bs] retry] p2 H2. apply wrapM_Ok, with_net_inv in H2 as (n & H2 & ->).
  apply NewExecution_inv in H2 as (Hok & _ & _ & ->); [|by apply Hop1].
  apply deferred_ext. apply run_clients_ready; [|done|cbn; congruence| |done].
  - destruct Hop1 as [Hv Hdb Hsch Hnet]. by split.
  - intros. by apply batch_wf_new.
Qed.

Lemma run_clients_tidy services cfg withUpdater signer bs retry p r p' :
  run_clients services cfg withUpdater signer bs retry p = (r, p') →
  services_keep services → (∃ decoded, valid_config decoded withUpdater ∧ cfg = trim_fields decoded) →
  net_ok (p_net p) → tidy r p p' ∧ kept p p'.
Proof.
  intros H Hserv (decoded & Hv & Hcfg) Hnet. unfold run_clients in H.
  apply bind_io_cases in H as (r1 & p1 & H1 & H).
  apply with_store_inv in H1 as (s & _ & _ & Ho & Hn & _ & _ & Hh & Hs & Hm).
  assert (net_ok (p_net p1)) as Hnet1 by (intros c; rewrite Ho, Hn; apply Hnet).
  destruct r1 as [chainID|e|]; [|destruct H as [-> ->]; split; [split; auto|split; cbn; congruence]..].
  apply bind_io_cases in H as (r2 & p2 & H2 & H). apply wrapM_inv in H2 as (r2' & H2 & _).
  apply with_net_inv in H2 as (n2 & H2 & ->). apply NewBeacon_inv in H2 as [Ho2 Hn2].
  assert (net_ok n2) as Hnet2 by (intros c; rewrite Ho2, Hn2; apply Hnet1).
  destruct r2 as [brt|e|];
    [|destruct H as [-> ->]; split; [split; [done|cbn; rewrite Ho2; auto]|split; cbn; congruence]..].
  apply bind_io_cases in H as (r3 & p3 & H3 & H). apply wrapM_eq in H3 as (r3' & E3 & ->).
  apply with_net_inv in E3 as (n3 & E3 & ->). cbn [p_net] in E3.
  destruct (valid_updater cfg withUpdater chainID signer decoded Hv Hcfg) as [Hnd _].
  apply NewClient_inv in E3 as (Hnet3 & H3); [|done..]. rewrite Ho2, Ho in H3.
  destruct r3' as [client|e|]; cbn [wrap] in H.
  2: { destruct H as [-> ->]. split; [split; [done|]|split; cbn; congruence]. right.
       destruct H3 as [H3|(e' & m & -> & _)]; [by left|right; by eexists]. }
  2: { destruct H as [-> ->]. split; [split; [done|by left]|split; cbn; congruence]. }
  unfold deferred in H. destruct (services _ _) as [r4 p4] eqn:E4. injection H as <- <-.
  apply Hserv in E4 as (Hnet4 & Ho4 & [K1 K2 K3]); [exact Hnet3|]. cbn in Ho4, K1, K2, K3.
  destruct H3 as (_ & H3 & Hdis). split; [|split; cbn; congruence].
  assert (n_open (CloseClient client (p_net p4)) = n_open (p_net p)) as Hc
    by (rewrite CloseClient_open, Ho4, H3; set_solver).
  split; [|by right; left]. cbn.
  eapply net_ok_sub; [exact Hnet4|rewrite CloseClient_open; set_solver|].
  by rewrite CloseClient_next.
Qed.

Lemma run_store_tidy services cfg withUpdater freshStart signer p r p' :
  run_store services cfg withUpdater freshStart signer p = (r, p') →
  services_keep services → (∃ decoded, valid_config decoded withUpdater ∧ cfg = trim_fields decoded) →
  net_ok (p_net p) → tidy r p p' ∧ kept p p'.
Proof.
  intros H Hserv Hv Hnet. unfold run_store in H.
  apply bind_io_cases in H as (r1 & p1 & H1 & H).
  assert (p_net p1 = p_net p ∧ kept p p1) as [Hp1 [K1 K2 K3]].
  { destruct freshStart; [|by injection H1 as <- <-].
    apply wrapM_inv in H1 as (r0 & H1 & _). apply zoom_run in H1 as (d & H1 & ->).
    by apply zoom_run in H1 as (w & H1 & ->). }
  destruct r1 as [[]|e|]; [|destruct H as [-> ->]; split; [split; rewrite Hp1; auto|by split]..].
  apply bind_io_cases in H as (r2 & p2 & H2 & H). apply wrapM_eq in H2 as (r2' & H2 & ->).
  apply with_net_inv in H2 as (n2 & H2 & ->). rewrite Hp1 in H2.
  apply NewExecution_inv in H2 as (Hnet2 & H2); [|done].
  destruct r2' as [[[c bs] retry]|e|]; cbn [wrap] in H;
    [|destruct H as [-> ->]; (split; [split; [done|cbn; auto]|by split])..].
  destruct H2 as (Hc & Ho2 & _).
  unfold deferred in H. destruct (run_clients _ _ _ _ _ _ _) as [r3 p3] eqn:E3.
  injection H as <- <-. apply run_clients_tidy in E3 as [[Hnet3 Ht] [L1 L2 L3]]; [|done..].
  cbn in Ht, L1, L2, L3. split; [|split; cbn; congruence]. split.
  - eapply net_ok_sub; [exact Hnet3|cbn; set_solver|done].
  - destruct Ht as [?|[Ht|?]]; [by left| |by right; right]. right; left. cbn.
    rewrite Ht, Ho2. set_solver.
Qed.

Lemma setup_metrics_inv Setup p r p' :
  setup_metrics Setup p = (r, p') →
  n_open (p_net p') = n_open (p_net p) ∧ n_next (p_net p') = n_next (p_net p) ∧
  p_disk p' = p_disk p ∧ p_signer p' = p_signer p ∧ (r ≠ Ok tt → p_metrics p' = p_metrics p).
Proof.
  intros H. apply bind_io_cases in H as (r1 & p1 & H1 & H).
  apply with_net_inv in H1 as (n & H1 & ->). apply on_net_inv in H1 as [Ho Hn].
  destruct r1 as [[]|e|]; [injection H as <- <-|destruct H as [-> ->]..]; by split_and!.
Qed.

Lemma create_signer_inv cfg p r p' :
  create_signer (Tx:=Tx) (Signed:=Signed) cfg p = (r, p') →
  match r with
  | Ok signer => held signer = true ∧ p_net p' = p_net p ∧ p_disk p' = p_disk p ∧
      p_signer p' = Some signer ∧ p_metrics p' = p_metrics p
  | Err e => p' = p ∧ ∃ e', e = EWrap "create signer" e'
  | Panic => p' = p
  end.
Proof.
  intros H. apply bind_io_cases in H as (r1 & p1 & H1 & H). apply lift_inv in H1 as [<- <-].
  destruct (NewSigner _) as [s|e|] eqn:Hs; cbn [wrap] in H;
    [|destruct H as [-> ->]; eauto..].
  apply NewSigner_held in Hs. injection H as <- <-. by split_and!.
Qed.

Lemma released_nothing r p p' :
  n_open (p_net p') = n_open (p_net p) → net_ok (p_net p') → p_signer p' = None →
  d_handles (p_disk p') = d_handles (p_disk p) → released r p p'.
Proof. intros Ho Hn Hs Hd. split; [split; auto|]. rewrite Hs. split; [done|auto]. Qed.

Lemma run_signer_released services cfg withUpdater freshStart p r p' :
  run_signer (Tx:=Tx) (Signed:=Signed) services cfg withUpdater freshStart p = (r, p') →
  services_keep services → (∃ decoded, valid_config decoded withUpdater ∧ cfg = trim_fields decoded) →
  net_ok (p_net p) → p_signer p = None →
  released r p p' ∧
  (p_signer p' = None → r = Panic ∨ ∃ e', r = Err (EWrap "create signer" e')).
Proof.
  intros H Hserv Hv Hnet Hs0. unfold run_signer in H.
  apply bind_io_cases in H as (r1 & p1 & H1 & H). apply create_signer_inv in H1.
  destruct r1 as [signer|e|]; cycle 1.
  { destruct H as [-> ->], H1 as [-> [e' ->]]. split; [by apply released_nothing|eauto]. }
  { destruct H as [-> ->]. subst p1. split; [by apply released_nothing|auto]. }
  destruct H1 as (Hheld & Hn1 & Hd1 & Hs1 & _).
  unfold deferred at 1 in H. destruct ((wrapM _ _ ≫= _) p1) as [r2 p2] eqn:H2.
  injection H as <- <-.
  assert (p_signer p2 = Some signer →
    ∀ s, p_signer (close_signer p2) = Some s → held s = false ∧ key_D s = 0) as Hclosed.
  { intros Hs s. cbn. rewrite Hs. intros [= <-]. unfold Wallet.Close. by rewrite Hheld. }
  assert (p_signer p2 = Some signer → p_signer (close_signer p2) ≠ None) as Hsome
    by (cbn; by intros ->).
  apply bind_io_cases in H2 as (r3 & p3 & H3 & H2). apply wrapM_eq in H3 as (r3' & H3 & ->).
  apply zoom_run in H3 as (d & H3 & ->). apply NewStorage_handles in H3 as Hh.
  destruct r3' as [[]|e|]; cbn [wrap] in H2; cycle 1.
  { destruct H2 as [-> ->]. split; [|by intros ?%Hsome].
    split; [|split; [by apply Hclosed|right; right; eauto]].
    cbn. split; cbn; rewrite Hn1; auto. }
  { destruct H2 as [-> ->]. split; [|by left]. split; [|split; [by apply Hclosed|by left]].
    split; cbn; rewrite Hn1; auto. }
  unfold deferred in H2. destruct (run_store _ _ _ _ _ _) as [r4 p4] eqn:H4. injection H2 as <- <-.
  apply run_store_tidy in H4 as [[Hnet4 Ht] [K1 K2 _]]; [|done|done|by cbn; rewrite Hn1].
  cbn in Ht, K1, K2. rewrite Hn1 in Ht.
  assert (p_signer (close_store p4) = Some signer) as Hs4 by (cbn; congruence).
  split; [|by intros ?%Hsome]. split; [by split|]. split; [by apply Hclosed|].
  right; left. cbn. by rewrite K2, Hh, Hd1.
Qed.
End run_lemmas.

(** ** Properties *)

(** C27: [runServices], over any errgroup that keeps its documentation.  Whatever the services
    return and however their goroutines and signals interleave, it returns only when each
    service it started has returned, once: the metrics and API servers, the synchronisation
    and, exactly when that succeeded, the oracle, with [--updater] also the updater, and
    without it not; neither is started before.  It returns the first error in time, and there
    is one, since the metrics server never returns nil; so the process goes on until something
    fails or it is told to stop, and it exits without an error only after a signal.  And it
    returns as soon as it can: as long as it has not, a service is in its call or the program
    goes on. *)
Theorem runServices_outcome `{!ErrGroup, !ErrGroupLaws} withUpdater st :
  rtc (group_step withUpdater) services_start st →
  let tr := sv_trace st in
  (∀ r, sv_main st = Exited r →
     started tr ≡ₚ [SMetrics; SApi; SSync] ++
       (if synced tr then if withUpdater then [SOracle; SUpdater] else [SOracle] else []) ∧
     returned tr ≡ₚ started tr ∧ NoDup (returned tr) ∧
     ∃ e, r = Some e ∧ first_error tr = Some e ∧ (exit_result (Err e) = Ok tt → Signal ∈ tr)) ∧
  (∀ tr1 s tr2, tr = tr1 ++ Started s :: tr2 → s = SOracle ∨ s = SUpdater → synced tr1 = true) ∧
  ((∀ r, sv_main st ≠ Exited r) →
     (∃ s k, (s, Call k) ∈ sv_running st) ∨ ∃ st', services_step withUpdater st st').
Proof.
  intros Hst tr. pose proof (group_reachable _ _ Hst) as Hi. subst tr. split; [|split].
  - intros r Hr. destruct Hi as [Hp Ha _ _ Hm Hf _ He]. destruct (He r Hr) as [-> Hrun].
    rewrite Hr, Hrun in *. cbn in Hp, Ha. rewrite app_nil_r in *.
    split; [exact Ha|]. split; [by rewrite Hp|].
    split; [rewrite <- Hp, Ha; apply all_services_NoDup|].
    assert (SMetrics ∈ returned (sv_trace st)) as Hin
      by (rewrite <- Hp, Ha; unfold all_services; set_solver).
    apply list_elem_of_omap in Hin as (ev & Hev & Hs). destruct ev as [| | |s err]; try done.
    injection Hs as ->. destruct (Hm err Hev) as [e ->].
    destruct (first_error (sv_trace st)) as [e'|] eqn:Ef.
    + exists e'. split; [done|]. split; [done|]. cbn. destruct (is_Canceled e') eqn:Hc; [|done].
      intros _. by eapply Hf.
    + unfold first_error in Ef. assert (e ∈ omap event_error (sv_trace st)) as Hin.
      { apply list_elem_of_omap. by eexists. }
      destruct (omap event_error (sv_trace st)); [by apply elem_of_nil in Hin|done].
  - apply Hi.
  - intros Hne. destruct st as [m run tr]. by apply group_progress.
Qed.

(** C25: the services are started only when everything they rely on holds, whatever the
    configuration, the nodes and the database do: [run] does not depend on what they would do
    otherwise.  The configuration is valid, the batch sizes and the fee policy are usable, the
    database has its schema, is well formed and belongs to the chain of the client, the
    signer has its key, and there is a websocket exactly with [--updater]. *)
Theorem run_ready {HC : Crypto} {HK : Checks} {HB : ContractABI} {Tx Signed} {HW : Keys Tx Signed}
    {E} {HR : Runtime E} {HE : ExecutionRPC E} {HD : Dialer E} read decode Setup
    services services' path withUpdater freshStart (p : Proc E) :
  net_ok (p_net p) → file_ok (p_disk p) → db_ok (db (d_world (p_disk p))) →
  rooted (db (d_world (p_disk p))) →
  (∀ w q, ready withUpdater w q → services w q = services' w q) →
  run (Tx:=Tx) (Signed:=Signed) read decode Setup services path withUpdater freshStart p =
  run (Tx:=Tx) (Signed:=Signed) read decode Setup services' path withUpdater freshStart p.
Proof.
  intros Hnet Hfile Hdb Hroot Hext. unfold run. apply bind_ext. intros cfg p0 H0.
  apply lift_Ok in H0 as [Hcfg <-]. apply loadConfig_inv in Hcfg as (data & dec & _ & _ & Hv & Hcfg).
  apply bind_ext. intros [] p1 H1. apply wrapM_Ok, setup_metrics_inv in H1 as (Ho1 & Hn1 & Hd1 & _).
  apply deferred_ext. unfold run_signer. apply bind_ext. intros signer p2 H2.
  apply create_signer_inv in H2 as (Hheld & Hn2 & Hd2 & Hs2 & _).
  apply deferred_ext, bind_ext. intros [] p3 H3. apply wrapM_Ok, NewStorage_step in H3
    as (_ & Hrows & Hn3 & Hs3 & Hsch); [|by rewrite Hd2, Hd1].
  apply deferred_ext, run_store_ready; [|done|congruence|done].
  split; [by exists dec|by rewrite Hrows, Hd2, Hd1|by apply Hsch|].
  rewrite Hn3, Hn2. intros c. rewrite Ho1, Hn1. apply Hnet.
Qed.

(** C26: on every way out of [run], errors of the services included, what was acquired is
    released: the key is erased - the signer has dropped it and its number is zero - whenever a
    signer was created, that is unless [run] failed before that; the meter provider is shut
    down, the database is closed and every connection is closed again.  The exceptions are a failed start of the storage, which
    may leave its handle open, and an unreachable websocket, which leaves the connections to
    the relays open. *)
Theorem run_releases {HC : Crypto} {HK : Checks} {HB : ContractABI} {Tx Signed}
    {HW : Keys Tx Signed} {E} {HR : Runtime E} {HE : ExecutionRPC E} {HD : Dialer E}
    read decode Setup services path withUpdater freshStart (p p' : Proc E) r :
  run (Tx:=Tx) (Signed:=Signed) read decode Setup services path withUpdater freshStart p = (r, p') →
  services_keep services → net_ok (p_net p) → p_signer p = None → p_metrics p = false →
  released r p p' ∧ p_metrics p' = false ∧
  (p_signer p' = None → r = Panic ∨ ∃ e, r = Err e ∧
     (loadConfig read decode path withUpdater = Err e ∨
      ∃ e', e = EWrap "setup metrics" e' ∨ e = EWrap "create signer" e')).
Proof.
  intros H Hserv Hnet Hs0 Hm0. unfold run in H.
  apply bind_io_cases in H as (r0 & p0 & H0 & H). apply lift_inv in H0 as [<- <-].
  destruct (loadConfig _ _ _ _) as [cfg|e|] eqn:Hcfg;
    [|destruct H as [-> ->]; split; [by apply released_nothing|split; [done|eauto 6]]..].
  apply loadConfig_inv in Hcfg as (data & dec & _ & _ & Hv & Hcfg).
  apply bind_io_cases in H as (r1 & p1 & H1 & H). apply wrapM_eq in H1 as (r1' & H1 & ->).
  apply setup_metrics_inv in H1 as (Ho1 & Hn1 & Hd1 & Hs1 & Hm1).
  assert (net_ok (p_net p1)) as Hnet1 by (intros c; rewrite Ho1, Hn1; apply Hnet).
  destruct r1' as [[]|e|]; cbn [wrap] in H.
  2-3: destruct H as [-> ->]; split;
    [apply released_nothing; (congruence || done)|
     split; [by rewrite Hm1|intros _; first [by left|right; eexists; split; [done|right; eauto]]]].
  unfold deferred in H. destruct (run_signer _ _ _ _ p1) as [r2 p2] eqn:H2. injection H as <- <-.
  apply run_signer_released in H2 as [H2 Hsome]; [|done|by exists dec|done|congruence].
  unfold released, tidy in *. rewrite <- Ho1, <- Hd1. split; [done|]. split; [done|].
  intros [?|[e' ->]]%Hsome; [by left|right]. eexists. split; [done|]. right. eauto.
Qed.

(** ** Witnesses *)

Definition canceled : error := ECtx "context canceled".

(** An errgroup that counts. *)
Fixpoint remove_service (s : service) (l : list service) : list service :=
  match l with
  | [] => []
  | x :: l' => if decide (x = s) then l' else x :: remove_service s l'
  end.

Fixpoint same_services (l1 l2 : list service) : bool :=
  match l2 with
  | [] => match l1 with [] => true | _ => false end
  | x :: l2' => bool_decide (x ∈ l1) && same_services (remove_service x l1) l2'
  end.

Lemma remove_service_perm s l : s ∈ l → l ≡ₚ s :: remove_service s l.
Proof.
  induction l as [|x l IH]; [by intros ?%elem_of_nil|]. cbn. intros Hin.
  destruct (decide (x = s)) as [->|Hne]; [done|].
  apply elem_of_cons in Hin as [->|Hin]; [done|]. rewrite (IH Hin) at 1. constructor.
Qed.

Lemma same_services_iff l1 l2 : same_services l1 l2 = true ↔ l1 ≡ₚ l2.
Proof.
  revert l1. induction l2 as [|x l2 IH]; intros l1; cbn.
  - destruct l1; [done|]. split; [done|]. intros H%Permutation_length. done.
  - rewrite andb_true_iff, bool_decide_eq_true, IH. split.
    + intros [Hin Hp]. by rewrite (remove_service_perm x l1 Hin), Hp.
    + intros Hp. assert (x ∈ l1) as Hin by (rewrite Hp; set_solver). split; [done|].
      by rewrite (remove_service_perm x l1 Hin) in Hp; apply Permutation_cons_inv in Hp.
Qed.

Definition is_signal (e : event) : bool := match e with Signal => true | _ => false end.

#[local] Instance toy_group : ErrGroup := {|
  Wait tr := if same_services (started tr) (returned tr) then Some (first_error tr) else None;
  Done tr := existsb is_signal tr || match first_error tr with Some _ => true | None => false end;
|}.

#[local] Instance toy_group_laws : ErrGroupLaws.
Proof.
  split; cbn.
  - intros tr r. destruct (same_services _ _) eqn:Hs; [|done]. apply same_services_iff in Hs.
    by intros [= <-].
  - intros tr Hp%same_services_iff. rewrite Hp. by eexists.
  - intros tr. rewrite orb_true_iff, existsb_exists.
    assert ((∃ x, In x tr ∧ is_signal x = true) ↔ Signal ∈ tr) as ->.
    { rewrite list_elem_of_In. split; [by intros ([] & ? & ?)|by exists Signal]. }
    destruct (first_error tr); split; intros [?|H]; auto; try done.
Qed.

(** Synchronised, then a signal: everything ends cancelled, the API server last. *)
Definition toy_trace : list event :=
  [Started SMetrics; Started SApi; Started SSync; Called SSync None; Started SOracle;
   Started SUpdater; Returned SSync None; Signal;
   Called SMetrics (Some canceled); Returned SMetrics (Some canceled);
   Called SOracle (Some canceled); Returned SOracle (Some canceled);
   Called SUpdater (Some canceled); Returned SUpdater (Some canceled);
   Called SApi (Some canceled); Returned SApi (Some canceled)].

Tactic Notation "program_step" uconstr(t) := eapply rtc_l; [left; refine t|cbn].
Tactic Notation "call_ends" uconstr(t) constr(H) :=
  eapply rtc_l; [right; refine (t _); exact H|cbn].

Lemma toy_trace_run :
  rtc (group_step true) services_start (mkServices (Exited (Some canceled)) [] toy_trace).
Proof.
  pose proof (call_metrics true _ (may_CtxDone true canceled None eq_refl)) as Hmetrics.
  pose proof (call_api true _ (may_CtxDone true canceled None eq_refl)) as Hapi.
  assert (∀ s, s ≠ SMetrics → s ≠ SApi → call_result true s (Some canceled)) as Hany
    by (intros; by apply call_other).
  unfold services_start.
  do 3 program_step (step_start true _ _ _ _).
  call_ends (step_called _ [_; _] SSync _ [] _ None) (call_other false SSync None ltac:(done)
    ltac:(done) ltac:(done)).
  do 2 program_step (step_go true _ [_; _] _ _ _ _ _).
  program_step (step_return true _ [_; _] SSync None _ _).
  eapply rtc_l; [right; apply step_signal|cbn [app]].
  call_ends (step_called _ [] SMetrics _ _ _ _) Hmetrics.
  program_step (step_return true _ [] SMetrics _ _ _).
  call_ends (step_called _ [_] SOracle _ _ _ (Some canceled)) (Hany SOracle ltac:(done) ltac:(done)).
  program_step (step_return true _ [_] SOracle _ _ _).
  call_ends (step_called _ [_] SUpdater _ _ _ (Some canceled))
    (Hany SUpdater ltac:(done) ltac:(done)).
  program_step (step_return true _ [_] SUpdater _ _ _).
  call_ends (step_called _ [] SApi _ _ _ _) Hapi.
  program_step (step_return true _ [] SApi _ _ _).
  program_step (step_wait true [] _ (Some canceled) _); [reflexivity|]. constructor.
Qed.

Lemma runServices_outcome_witness :
  (∀ r, Exited (Some canceled) = Exited r →
     started toy_trace ≡ₚ [SMetrics; SApi; SSync] ++
       (if synced toy_trace then [SOracle; SUpdater] else []) ∧
     returned toy_trace ≡ₚ started toy_trace ∧ NoDup (returned toy_trace) ∧
     ∃ e, r = Some e ∧ first_error toy_trace = Some e ∧
       (exit_result (Err e) = Ok tt → Signal ∈ toy_trace)) ∧
  (∀ tr1 s tr2, toy_trace = tr1 ++ Started s :: tr2 → s = SOracle ∨ s = SUpdater →
     synced tr1 = true) ∧
  ((∀ r, Exited (Some canceled) ≠ Exited r) →
     (∃ s k, (s, Call k) ∈ @nil (service * code)) ∨
     ∃ st', services_step true (mkServices (Exited (Some canceled)) [] toy_trace) st').
Proof. exact (runServices_outcome true _ toy_trace_run). Defined.

#[local] Existing Instance TxManager.toy_runtime.
#[local] Existing Instance Oracle.toy_execution.
#[local] Existing Instance Contract.toy_contract_abi.
#[local] Existing Instance Config.toy_checks.
#[local] Existing Instance Wallet.toy_keys.

(** A process on a machine without a database. *)
Definition toy_process : Proc toy := mkProc (mkNet (mkToy 0 []) 2 {[ 0; 1 ]}%nat) no_file None false.

(** Services that run until they are cancelled. *)
Definition toy_services (_ : Wired) : io (Proc toy) unit := fail (EWrap "initial sync" canceled).

(** The same, but panicking without a signer. *)
Definition strict_services (w : Wired) : io (Proc toy) unit := λ p,
  match p_signer p with None => (Panic, p) | Some _ => toy_services w p end.

Definition toy_process_run : result unit * Proc toy :=
  run (Tx:=Z) (Signed:=Z * Z * Z) (λ _, Ok []) (λ _ _, Ok Config.padded_config) (mret tt) toy_services
    "config.yaml" false true toy_process.

(** It ends without an error, with the database created and on the node's chain. *)
Example toy_process_ends :
  toy_process_run.1 = Ok tt ∧ n_next (p_net toy_process_run.2) = 4%nat ∧
  chain_id (db (d_world (p_disk toy_process_run.2))) = Some 1 ∧
  (key_D <$> p_signer toy_process_run.2) = Some 0.
Proof. vm_compute. done. Qed.

Lemma toy_process_net_ok : net_ok (p_net toy_process).
Proof. intros c. cbn. set_unfold. lia. Qed.

Lemma run_ready_witness :
  toy_process_run =
  run (Tx:=Z) (Signed:=Z * Z * Z) (λ _, Ok []) (λ _ _, Ok Config.padded_config) (mret tt)
    strict_services "config.yaml" false true toy_process.
Proof.
  apply (run_ready (λ _, Ok []) (λ _ _, Ok Config.padded_config) (mret tt) toy_services
    strict_services "config.yaml" false true toy_process).
  - exact toy_process_net_ok.
  - exact no_file_ok.
  - exact schema_ok.
  - exact schema_rooted.
  - intros w q [_ _ _ _ _ _ [_ Hs] _]. unfold strict_services. rewrite Hs. reflexivity.
Defined.

Lemma run_releases_witness :
  released toy_process_run.1 toy_process toy_process_run.2 ∧
  p_metrics toy_process_run.2 = false ∧
  (p_signer toy_process_run.2 = None → toy_process_run.1 = Panic ∨
     ∃ e, toy_process_run.1 = Err e ∧
       (loadConfig (λ _, Ok []) (λ _ _, Ok Config.padded_config) "config.yaml" false = Err e ∨
        ∃ e', e = EWrap "setup metrics" e' ∨ e = EWrap "create signer" e')).
Proof.
  apply (run_releases (Tx:=Z) (Signed:=Z * Z * Z) (λ _, Ok []) (λ _ _, Ok Config.padded_config)
    (mret tt) toy_services "config.yaml" false true toy_process toy_process_run.2 toy_process_run.1).
  - apply surjective_pairing.
  - intros w p r p' H Hnet. injection H as <- <-. by split_and!.
  - exact toy_process_net_ok.
  - reflexivity.
  - reflexivity.
Defined.
